(* ===== verification/_CoqProject ===== *)
-Q . S2P
Prelude.v
Types.v
Interface.v
Contract.v
Sim.v
Hoare.v
ErrorHandler.v
TaskingModel.v
EnvVar.v
HardwareInfo.v
QueueGroup.v
Allocator.v
WaitingRange.v
WaitingRangeList.v
WaitingRangeQueue.v
Environment.v
Operations.v
NotifyAsyncWait.v
Polling.v
PollNotifications.v
QueueGroups.v
Initialization.v
Termination.v
Concurrency.v
Ownership.v
Threads.v
Locks.v
System.v
Utils.v
SafeEmit.v
QueueTable.v
TableSpec.v
SpinLock.v
MPSCQueue.v
Machine.v
Refinement.v
Signatures.v
Liveness.v
Lifecycle.v
