(* ===== verification/Prelude.v ===== *)
(** * Task-Aware GASPI: a verification library

    TAGASPI lets the tasks of a tasking runtime (ALPI) wait for the one-sided communications and
    the notifications of GASPI. An operation gives the calling task external events and tags its
    low-level requests with the task; polling tasks collect finished requests and notifications
    and take the events back, and a task is complete when it has none left. This library models
    the sources under src/src/ and proves that this bookkeeping is right, one call at a time and
    under concurrency.

    ** Programs and the outside world

    - Prelude.v: machine integers ([wrap], [u64]), lists, counting, transition systems, their
      traces and infinite executions, the hint databases [conditions], [count] and [faults], and
      the notations of [tagaspi_scope].
    - Types.v: build configuration ([NDEBUG], [MAX_SYSTEM_CPUS] of config.h), the integer widths of
      GASPI as a class, return codes, enumerations, [PollingInstance], [WaitingRange].
    - Interface.v: [call], what the library asks of GASPI, ALPI, boost, libnuma, the C library,
      shared memory and the locks; [prog], programs over calls, with [fault]s for abort, exit,
      failed assertions, undefined behaviour and calls through null pointers; [run], their
      execution on a [Runtime].
    - Contract.v: [view], the outside world; [call_spec], the documented behaviour of each call;
      [RuntimeSpec], the class of the runtimes that behave so.
    - Hoare.v: [wp], total correctness of programs on every such runtime, with the tactics
      [wp_assert], [wp_step] and [wp_call].
    - Sim.v: an executable runtime, proved to be one of them, on which the witnesses run.

    Code outside the repository is only ever a [call] or a class parameter. Each call is atomic.

    ** Components

    - ErrorHandler.v, SafeEmit.v: common/util/ErrorHandler.hpp, the messages and the signal-safe
      printing (the %f conversion of the C library is a parameter).
    - EnvVar.v: common/util/EnvironmentVariable.hpp, on a model of the stream extraction of an
      unsigned integer in the C++ standard library.
    - Utils.v: common/util/Utils.hpp, masks and padding.
    - TaskingModel.v: common/Symbol.hpp, common/TaskingModel.hpp and .cpp: the ALPI symbols, the
      events of tasks, polling instances.
    - HardwareInfo.v: common/HardwareInfo.hpp, the scan of CPUs and NUMA nodes.
    - QueueGroup.v, QueueGroups.v: common/QueueGroup.hpp and c/QueueGroups.cpp, the policies and
      the table behind the API; [set_up] is what [setupPolicy] makes of a group; [rr_step] is the atomic access of [getQueue] under contention.
    - QueueTable.v: the same table and groups under concurrency, one access to shared memory per
      step of [table_step]: the functions of c/QueueGroups.cpp run by any number of threads.
      TableSpec.v: that table as an atomic set of identifiers.
    - Allocator.v: common/Allocator.hpp, objects being slot numbers.
    - WaitingRange.v, WaitingRangeList.v, WaitingRangeQueue.v: the classes of the same names.
    - Environment.v: common/Environment.hpp and the static members of all classes, as the record
      [Library] that the functions take and return.
    - Operations.v, NotifyAsyncWait.v: the handlers of c/Read.cpp, Write.cpp, Notify.cpp,
      WriteNotify.cpp, ReadList.cpp, WriteList.cpp, WriteListNotify.cpp and NotifyAsyncWait.cpp.
    - Polling.v, PollNotifications.v: common/Polling.cpp, both polling functions, [initialize] and
      [finalize].
    - Initialization.v: common/Environment.cpp and c/Initialization.cpp, with [initialised], the
      invariants that initialisation establishes for all components.
    - SpinLock.v: common/util/SpinLock.hpp, one atomic access per step; relaxed loads may return
      any value the location had, and messages carry what happens before them.
    - MPSCQueue.v: common/util/MPSCLockFreeQueue.hpp, one atomic access per step; all accesses are
      sequentially consistent there. No other component uses this queue.
    - Signatures.v: the declarations of include/TAGASPI.h, fortran/TAGASPI.f90 and common/ALPI.hpp
      and the types of the symbols in common/TaskingModel.hpp, as data, with their agreement.

    ** The running library

    - Concurrency.v: [pool_step], the interleavings of a pool of programs call by call, with
      notifications arriving at any time; [permitted], what may be called when; [iwp], a program
      logic for pools on Iris's base logic, and its adequacy.
    - Ownership.v: who owns the events, objects, locks and instances of a view.
    - Threads.v: what the tasks, the polling tasks and the shutdown do with what they own.
    - Locks.v: the lock discipline as a type system, its preservation and progress.
    - Termination.v: bounds on the number of calls.
    - System.v: the pool of all threads on an initialised library.
    - Machine.v: what the library promises, as an abstract machine of events, requests,
      notifications and waiters that knows nothing of queues, lists or objects.
    - Refinement.v: [abs], the state of that machine that a state of the library stands for, and
      that every call of the API and of a polling function is one of its actions.
    - Liveness.v: infinite executions of the machine and of the library, and what makes them fair.
    - Lifecycle.v: from [tagaspi_proc_init] in a fresh process to the states the theorems about the
      running library start from.

    ** What is shown

    - Safety and accounting of every interleaving: [system_safe], [system_events],
      [system_settled], [system_unregistered]; freedom from deadlock: [system_progress], by the
      types of [api_lock_typed]. [SpinLock_refines] and [SpinLock_handover] are why taking and
      releasing a lock are single calls there.
    - [library_refines]: the API as a whole implements the machine of Machine.v, over any sequence
      of calls; the queues never fill on the way. [fails] says for each call how it can end other
      than by returning: GASPI or the tasking runtime fail, the allocator is empty and a call that
      waits spins, or the fuel of [pollQueues] is short for the requests posted.
    - Waiting ends: [tasks_complete], in fair executions, and [pollNotifications_completes], how one
      pass completes a range.
    - The theorems fit together: [proc_init_ready] establishes the hypotheses of those about the
      running library.
    - The table of queue groups under concurrency: [table_safe] for creation and deletion,
      [getQueue_table] for requests that no deletion overlaps (a queue of the CPU policy is an entry
      of the group's array, for a CPU that the model leaves open), and [getQueue_uses_freed] for what
      happens otherwise. [table_linearizable] gives the calls their atomic meaning, which
      [calls_sequential] shows to be that of the functions of QueueGroups.v.
    - Each operation on every branch, in the theorems that end in [_spec] or [_accounting].
    - Refinement of abstract specifications: [library_refines], [table_linearizable],
      [SpinLock_refines], [MPSC_refines], [mask_refines_set].
    - Agreement of declarations: [fortran_agrees], [symbols_have_prototypes].
    - Termination: [calls_bounded]; all theorems stated with [wp] or [run] include that the
      program ends, and no theorem about a loop assumes that it does.
    - Defects, each with the theorem that exhibits it: [alpi_errors_not_reported], the
      [few_queues_] theorems, [single_check_stores_field], [Polling_initialize_no_checkers],
      [pollQueues_wraps], [HardwareInfo_reinitialize], [HardwareInfo_debug_all_cpus],
      [Allocator_debug_reinitialize], [getQueue_not_distinct], [getQueue_uses_freed],
      [trylock_races], [MPSC_refuses_empty], [emit_formatted_cases], [fortran_agrees].

    ** Fuel and bounds

    Loops that wait for others take fuel: [pop_object], [push_range], [wait_finished],
    [genericPolling], [poll_queue] and the loops over queue and segment identifiers, whose
    counters wrap. The theorems say how much is enough: one unit when nobody has to be waited for,
    one per request batch or identifier otherwise. In System.v fuel is arbitrary, and a thread that
    runs out of it counts as stopped; [calls_bounded] shows that the loops of the operations never
    do. The properties of the lock and of the queue hold for executions with fewer than 2^64
    tickets or calls, after which the counters wrap.

    ** Not modelled

    - The build files; what they define is the class [BuildConfig].
    - [spinWait], which has no effect but time; alignment; the initial value of fields that are
      written before they are read.
    - The locks [queuePollingLocks] and [notificationPollingLock], which are never taken.
    - In QueueTable.v, the memory model: the accesses to the table are sequentially consistent
      there, which leaves out further behaviours of the unsynchronised read.
    - The scheduler of the tasking runtime and the network: that polling goes on, that GASPI reports
      requests and that notifications arrive are hypotheses of [tasks_complete] (record [fair]).
      Refinement.v and Liveness.v take a call of the API or of a polling function as one step;
      interleavings inside calls are the subject of System.v. *)

From Stdlib Require Export Ascii.
From stdpp Require Export prelude gmap strings pretty relations.
#[global] Set Default Goal Selector "!".

(** ** Machine integers *)

(** The value of an unsigned integer of [bits] bits after an operation whose mathematical
    result is [x]. *)
Definition wrap (bits x : Z) : Z := x `mod` 2 ^ bits.

(** [size_t] and [uint64_t] on the LP64 platforms the library is built for. *)
Definition u64 (x : Z) : Z := wrap 64 x.

Lemma pow2_pos bits : (0 ≤ bits)%Z → (0 < 2 ^ bits)%Z.
Proof. intros. by apply Z.pow_pos_nonneg. Qed.

Lemma wrap_range bits x : (0 ≤ bits)%Z → (0 ≤ wrap bits x < 2 ^ bits)%Z.
Proof. intros. apply Z.mod_pos_bound, pow2_pos; lia. Qed.

Lemma wrap_small bits x : (0 ≤ x < 2 ^ bits)%Z → wrap bits x = x.
Proof. intros. by apply Z.mod_small. Qed.

Lemma wrap_add_l bits x y : wrap bits (wrap bits x + y) = wrap bits (x + y).
Proof. unfold wrap. by rewrite Zplus_mod_idemp_l. Qed.

(** Two values closer than the modulus agree after wrapping only when they are equal. *)
Lemma wrap_inj bits x y :
  (0 ≤ bits)%Z → (Z.abs (x - y) < 2 ^ bits)%Z → wrap bits x = wrap bits y → x = y.
Proof.
  intros Hb Hd He. unfold wrap in He. pose proof (pow2_pos bits Hb).
  apply Z.cong_iff_ex in He as [k Hk]. assert (k = 0)%Z by nia. lia.
Qed.

(** ** Conditions *)

(** What shows that a condition of the code evaluates to [true]. *)
Create HintDb conditions.
#[export] Hint Resolve <- Z.ltb_lt Z.leb_le Z.eqb_eq Z.eqb_neq negb_true_iff : conditions.
#[export] Hint Resolve bool_decide_eq_true_2 : conditions.
#[export] Hint Extern 5 (_ < _)%Z => lia : conditions.
#[export] Hint Extern 5 (_ ≤ _)%Z => lia : conditions.

(** How programs stop. *)
Create HintDb faults.

(** ** Lists *)

Section lists.
Context {A : Type} (P : A → Prop) `{!∀ x, Decision (P x)}.

Lemma filter_all l : Forall P l → filter P l = l.
Proof.
  induction 1; [done|]. rewrite filter_cons_True by done. by f_equal.
Qed.

Lemma filter_none l : Forall (λ x, ¬ P x) l → filter P l = [].
Proof. induction 1; [done|]. by rewrite filter_cons_False. Qed.
End lists.

(** The number of [true] entries of a list of flags. *)
Definition count_true (l : list bool) : Z := Z.of_nat (length (filter (λ b, b = true) l)).

Lemma count_true_app l1 l2 : count_true (l1 ++ l2) = (count_true l1 + count_true l2)%Z.
Proof. unfold count_true. rewrite filter_app, length_app. lia. Qed.

Lemma count_true_nonneg l : (0 ≤ count_true l ≤ Z.of_nat (length l))%Z.
Proof. unfold count_true. split; [lia|]. apply Nat2Z.inj_le, length_filter. Qed.

Lemma count_true_cons b l : count_true (b :: l) = ((if b then 1 else 0) + count_true l)%Z.
Proof. change (b :: l) with ([b] ++ l). rewrite count_true_app. by destruct b. Qed.

Lemma count_true_insert l n :
  l !! n = Some false → count_true (<[n:=true]> l) = (count_true l + 1)%Z.
Proof.
  intros Hn. pose proof (take_drop_middle l n false Hn) as Hl.
  rewrite (insert_take_drop l n true) by (by apply lookup_lt_Some in Hn).
  rewrite <- Hl at 3. rewrite !count_true_app, !count_true_cons. lia.
Qed.

Lemma count_true_reset l n :
  l !! n = Some true → count_true (<[n:=false]> l) = (count_true l - 1)%Z.
Proof.
  intros Hn. pose proof (take_drop_middle l n true Hn) as Hl.
  rewrite (insert_take_drop l n false) by (by apply lookup_lt_Some in Hn).
  rewrite <- Hl at 3. rewrite !count_true_app, !count_true_cons. lia.
Qed.

Lemma count_true_pos l n : l !! n = Some true → (0 < count_true l)%Z.
Proof.
  intros Hn. rewrite <- (take_drop_middle l n true Hn), count_true_app, count_true_cons.
  pose proof (count_true_nonneg (take n l)).
  pose proof (count_true_nonneg (drop (S n) l)). lia.
Qed.

Lemma count_true_replicate_false n : count_true (replicate n false) = 0%Z.
Proof. induction n; [done|]. exact IHn. Qed.

(** Lists of flags of the same length are equal when they are set at the same places. *)
Lemma flags_ext (l1 l2 : list bool) :
  length l1 = length l2 → (∀ i, l1 !! i = Some true ↔ l2 !! i = Some true) → l1 = l2.
Proof.
  intros Hlen Hi. apply list_eq_same_length with (length l1); [done..|].
  intros i x y _ Hx Hy. specialize (Hi i). rewrite Hx, Hy in Hi.
  destruct x, y; naive_solver.
Qed.

(** Cutting off flags that are not set does not change how many are. *)
Lemma count_true_take n l :
  (∀ i, l !! i = Some true → i < n) → count_true (take n l) = count_true l.
Proof.
  intros Hi. rewrite <- (take_drop n l) at 2. rewrite count_true_app.
  assert (drop n l = replicate (length (drop n l)) false) as ->.
  { apply flags_ext; [by rewrite length_replicate|]. intros i. rewrite lookup_drop.
    split; [intros Hl%Hi; lia|]. by intros [[=] _]%lookup_replicate. }
  rewrite count_true_replicate_false. lia.
Qed.

(** How many entries of a table are in use. *)
Definition count_some {A} (l : list (option A)) : Z :=
  count_true ((λ x, bool_decide (is_Some x)) <$> l).

Section count_some.
Context {A : Type}.
Implicit Types (l : list (option A)).

Lemma count_some_set l n x :
  l !! n = Some None → count_some (<[n := Some x]> l) = (count_some l + 1)%Z.
Proof.
  intros Hn. unfold count_some. rewrite list_fmap_insert. apply count_true_insert.
  by rewrite list_lookup_fmap, Hn.
Qed.

Lemma count_some_reset l n x :
  l !! n = Some (Some x) → count_some (<[n := None]> l) = (count_some l - 1)%Z.
Proof.
  intros Hn. unfold count_some. rewrite list_fmap_insert. apply count_true_reset.
  by rewrite list_lookup_fmap, Hn.
Qed.

Lemma count_some_update l n x y :
  l !! n = Some (Some x) → count_some (<[n := Some y]> l) = count_some l.
Proof.
  intros Hn. unfold count_some. rewrite list_fmap_insert, list_insert_id; [done|].
  by rewrite list_lookup_fmap, Hn.
Qed.

Lemma count_some_bounds l : (0 ≤ count_some l ≤ Z.of_nat (length l))%Z.
Proof.
  unfold count_some. pose proof (count_true_nonneg ((λ x, bool_decide (is_Some x)) <$> l)) as H.
  by rewrite length_fmap in H.
Qed.

(** A free entry: the table is not full. *)
Lemma count_some_free l n : l !! n = Some None → (count_some l < Z.of_nat (length l))%Z.
Proof.
  intros Hn. pose proof (count_true_pos (negb <$> ((λ x, bool_decide (is_Some x)) <$> l)) n) as Hp.
  rewrite !list_lookup_fmap, Hn in Hp. specialize (Hp eq_refl).
  assert (∀ k, count_true k + count_true (negb <$> k) = Z.of_nat (length k))%Z as Hc.
  { induction k as [|b k IH]; [done|]. rewrite fmap_cons, !count_true_cons. simpl.
    destruct b; simpl; lia. }
  specialize (Hc ((λ x, bool_decide (is_Some x)) <$> l)). rewrite length_fmap in Hc.
  unfold count_some. lia.
Qed.

Lemma count_some_none n : count_some (replicate n (@None A)) = 0%Z.
Proof. unfold count_some. rewrite fmap_replicate. apply count_true_replicate_false. Qed.
End count_some.

(** How many times [t] is in a list. *)
Definition count (t : Z) (l : list Z) : Z := Z.of_nat (length (filter (λ x, x = t) l)).

Lemma count_nil t : count t [] = 0%Z.
Proof. done. Qed.

Lemma count_app t l1 l2 : count t (l1 ++ l2) = (count t l1 + count t l2)%Z.
Proof. unfold count. rewrite filter_app, length_app. lia. Qed.

Lemma count_cons t x l : count t (x :: l) = ((if decide (x = t) then 1 else 0) + count t l)%Z.
Proof.
  change (x :: l) with ([x] ++ l). rewrite count_app. f_equal. unfold count, filter. simpl.
  by destruct (decide (x = t)).
Qed.

Lemma count_nonneg t l : (0 ≤ count t l)%Z.
Proof. unfold count. lia. Qed.

#[export] Instance count_Permutation t : Proper ((≡ₚ) ==> (=)) (count t).
Proof. intros l1 l2 Hp. unfold count. by rewrite Hp. Qed.

Lemma count_none t l : Forall (λ x, x ≠ t) l → count t l = 0%Z.
Proof. intros Hl. unfold count. by rewrite filter_none. Qed.

Lemma count_pos t l : t ∈ l → (0 < count t l)%Z.
Proof.
  intros [l1 [l2 ->]]%list_elem_of_split. rewrite count_app, count_cons, decide_True by done.
  pose proof (count_nonneg t l1). pose proof (count_nonneg t l2). lia.
Qed.

Lemma count_replicate t n x :
  count t (replicate n x) = if decide (x = t) then Z.of_nat n else 0%Z.
Proof.
  induction n as [|n IH]; simpl; [by destruct (decide _)|]. rewrite count_cons, IH.
  destruct (decide (x = t)); lia.
Qed.

Lemma count_fst {B} (o : Z) (C : list (Z * B)) :
  count o C.*1 = Z.of_nat (length (filter (λ y, y.1 = o) C)).
Proof.
  induction C as [|[o' x] C IH]; [done|]. cbn [fmap list_fmap fst].
  rewrite count_cons, IH, filter_cons. cbn [fst]. destruct (decide (o' = o)); cbn [length]; lia.
Qed.

(** An element that is paired with different values occurs at least as often. *)
Lemma count_at_least {B} (o : Z) (C : list (Z * B)) (xs : list B) :
  NoDup xs → (∀ x, x ∈ xs → (o, x) ∈ C) → (Z.of_nat (length xs) ≤ count o C.*1)%Z.
Proof.
  intros Hxs Hin. rewrite count_fst, <- (length_fmap (o,.) xs).
  apply inj_le, submseteq_length, NoDup_submseteq.
  - by apply (NoDup_fmap_2 (o,.)).
  - intros ? (x&->&Hx)%list_elem_of_fmap. apply list_elem_of_filter. auto.
Qed.

(** Counting in a list that is put together from parts. *)
#[export] Hint Rewrite count_nil count_app count_cons : count.

Ltac count_lia := autorewrite with count in *; lia.

Lemma concat_replicate_nil {A} n : concat (replicate n (@nil A)) = [].
Proof. induction n as [|n IH]; [done|exact IH]. Qed.

(** Replacing an element of a list of lists. *)
Lemma concat_insert {A} (ls : list (list A)) s l k :
  ls !! s = Some l → concat (<[s := k]> ls) ++ l ≡ₚ concat ls ++ k.
Proof.
  revert s. induction ls as [|l' ls IH]; intros [|s] Hs; simplify_eq/=.
  - solve_Permutation.
  - rewrite <- !app_assoc. f_equiv. by apply IH.
Qed.

(** Where a counter loop is when it reaches [x]. *)
Lemma seqZ_split m n l1 x l2 :
  seqZ m n = l1 ++ x :: l2 → l1 = seqZ m (x - m) ∧ (m ≤ x < m + n)%Z.
Proof.
  intros Hl. assert (seqZ m n !! length l1 = Some x) as Hx.
  { rewrite Hl. by apply list_lookup_middle. }
  apply lookup_seqZ in Hx as [-> Hlen]. split; [|lia].
  replace n with (Z.of_nat (length l1) + (n - Z.of_nat (length l1)))%Z in Hl by lia.
  rewrite seqZ_app in Hl by lia.
  apply app_inj_1 in Hl as [Hl _]; [|rewrite length_seqZ; lia].
  rewrite <- Hl at 1. f_equal. lia.
Qed.

(** ** Transition systems *)

Section lts.
Context {S : Type} (init : S → Prop) (step : S → S → Prop).

Definition reachable (s : S) : Prop := ∃ s0, init s0 ∧ rtc step s0 s.

Lemma reachable_init s : init s → reachable s.
Proof. intros ?. exists s. split; [done|apply rtc_refl]. Qed.

Lemma reachable_step s s' : reachable s → step s s' → reachable s'.
Proof. intros (s0&?&?) ?. exists s0. split; [done|by eapply rtc_r]. Qed.

(** The invariant rule: a property of the initial states that every step preserves holds of
    every reachable state. *)
Lemma invariant_reachable (I : S → Prop) :
  (∀ s, init s → I s) → (∀ s s', I s → step s s' → I s') →
  ∀ s, reachable s → I s.
Proof.
  intros Hi Hs s (s0&H0&Hr). apply Hi in H0. revert H0.
  induction Hr; eauto.
Qed.
End lts.

(** Executions that perform the given actions in order. *)
Section traces.
Context {L S : Type} (step : L → S → S → Prop).

Inductive trace : list L → S → S → Prop :=
  | trace_nil s : trace [] s s
  | trace_cons a l s1 s2 s3 : step a s1 s2 → trace l s2 s3 → trace (a :: l) s1 s3.

Lemma trace_app l1 l2 s1 s2 s3 : trace l1 s1 s2 → trace l2 s2 s3 → trace (l1 ++ l2) s1 s3.
Proof. induction 1; simpl; [done|]. intros. econstructor; eauto. Qed.

Lemma trace_one a s1 s2 : step a s1 s2 → trace [a] s1 s2.
Proof. intros. econstructor; [done|constructor]. Qed.

Lemma trace_cons_inv a l s1 s3 :
  trace (a :: l) s1 s3 → ∃ s2, step a s1 s2 ∧ trace l s2 s3.
Proof. intros Ht. inv Ht. eauto. Qed.
End traces.

(** A forward simulation: what every single step preserves and is matched by, executions do. *)
Lemma trace_simulation {L S T} (step : L → S → S → Prop) (step' : L → T → T → Prop)
    (R : S → T → Prop) (ok : L → Prop) :
  (∀ a s1 s2 t1, ok a → R s1 t1 → step a s1 s2 → ∃ t2, step' a t1 t2 ∧ R s2 t2) →
  ∀ l s1 s2 t1, Forall ok l → R s1 t1 → trace step l s1 s2 →
    ∃ t2, trace step' l t1 t2 ∧ R s2 t2.
Proof.
  intros Hsim l s1 s2 t1 Hok HR Htr. revert t1 Hok HR.
  induction Htr as [s|a l s1 s2 s3 Hs _ IH]; intros t1 Hok HR; [exists t1; by split; [constructor|]|].
  apply Forall_cons in Hok as [Ha Hok]. destruct (Hsim _ _ _ _ Ha HR Hs) as (t2&Ht2&HR2).
  destruct (IH _ Hok HR2) as (t3&Ht3&HR3). exists t3. by split; [econstructor|].
Qed.

(** ** Infinite executions *)

Declare Scope tagaspi_scope.
Delimit Scope tagaspi_scope with tagaspi.
#[global] Open Scope tagaspi_scope.

(** [P] holds again and again, and [P] holds from some point on. *)
Definition infinitely_often (P : nat → Prop) : Prop := ∀ n, ∃ k, (n ≤ k)%nat ∧ P k.
Definition eventually_always (P : nat → Prop) : Prop := ∃ n, ∀ k, (n ≤ k)%nat → P k.

Notation "∃∞ n , P" := (infinitely_often (λ n, P))
  (at level 200, n name, right associativity) : tagaspi_scope.
Notation "∀∞ n , P" := (eventually_always (λ n, P))
  (at level 200, n name, right associativity) : tagaspi_scope.

(** A variant that never grows from [n0] on, and that falls again as long as it is not zero. *)
Lemma variant_zero (μ : nat → nat) n0 :
  (∀ n, (n0 ≤ n)%nat → (μ (S n) ≤ μ n)%nat) →
  (∀ n, (n0 ≤ n)%nat → (0 < μ n)%nat → ∃ k, (n ≤ k)%nat ∧ (μ (S k) < μ k)%nat) →
  ∀∞ n, μ n = 0%nat.
Proof.
  intros Hle Hlt. assert (∀ n k, n0 ≤ n → n ≤ k → μ k ≤ μ n)%nat as Hmono.
  { intros n k Hn Hk. induction Hk as [|k Hk IH]; [done|]. specialize (Hle k). lia. }
  assert (∀ m n, n0 ≤ n → μ n ≤ m → ∀∞ k, μ k = 0)%nat as H; [|by apply (H (μ n0) n0)].
  induction m as [|m IH]; intros n Hn Hm.
  - exists n. intros k Hk. specialize (Hmono n k). lia.
  - destruct (decide (μ n = 0)%nat) as [Hz|Hz]; [by apply (IH n); lia|].
    destruct (Hlt n Hn) as (k&Hk&Hd); [lia|]. pose proof (Hmono n k Hn Hk).
    apply (IH (S k)); lia.
Qed.
