(* ===== verification/Types.v ===== *)
(** The data that the components share: build configuration, the integer types of GASPI, return
    codes, the enumerations of TAGASPI.h and ALPI.hpp, polling instances and the waiting-range
    objects that travel through the allocator, the queues and the lists. *)

From S2P Require Import Prelude.

(** ** Build configuration and foreign types *)

(** The macros that configure.ac and m4/ fix when the library is built. *)
Class BuildConfig := {
  NDEBUG : bool;
  MAX_SYSTEM_CPUS : Z;
  MAX_SYSTEM_CPUS_pos : (0 < MAX_SYSTEM_CPUS)%Z;
}.

(** Operation kinds of GASPI_Lowlevel.h. *)
Variant gaspi_operation_t :=
  | GASPI_OP_READ | GASPI_OP_WRITE | GASPI_OP_NOTIFY | GASPI_OP_WRITE_NOTIFY
  | GASPI_OP_READ_LIST | GASPI_OP_WRITE_LIST | GASPI_OP_WRITE_LIST_NOTIFY.

#[global] Instance gaspi_operation_eq_dec : EqDecision gaspi_operation_t.
Proof. solve_decision. Defined.

(** What the library relies on of the headers GASPI.h and GASPI_Lowlevel.h: the widths of the
    unsigned integer types, the tag that belongs to no task, and the number of low-level requests
    an operation of [n] elements is split into. *)
Class GaspiTypes := {
  queue_id_bits : Z;
  segment_id_bits : Z;
  number_bits : Z;
  GASPI_TAG_NULL : Z;
  num_requests : gaspi_operation_t → Z → Z;
  queue_id_bits_range : (0 < queue_id_bits ≤ number_bits)%Z;
  segment_id_bits_range : (0 < segment_id_bits ≤ number_bits)%Z;
  number_bits_range : (16 ≤ number_bits ≤ 64)%Z;
  num_requests_pos op n : (0 < n)%Z → (0 < num_requests op n)%Z;
}.

(** Conversions to [gaspi_queue_id_t], [gaspi_segment_id_t] and [gaspi_number_t]. *)
Definition queue_id `{GaspiTypes} (x : Z) : Z := wrap queue_id_bits x.
Definition segment_id `{GaspiTypes} (x : Z) : Z := wrap segment_id_bits x.
Definition number `{GaspiTypes} (x : Z) : Z := wrap number_bits x.

Lemma number_small `{GaspiTypes} x : (0 ≤ x < 2 ^ number_bits)%Z → number x = x.
Proof. apply wrap_small. Qed.

Lemma number_range `{GaspiTypes} x : (0 ≤ number x < 2 ^ number_bits)%Z.
Proof. apply wrap_range. pose proof number_bits_range. lia. Qed.

Variant gaspi_return_t :=
  | GASPI_SUCCESS | GASPI_TIMEOUT | GASPI_ERROR | GASPI_ERR_INV_QUEUE
  | GASPI_ERR_OTHER (code : Z).

#[global] Instance gaspi_return_eq_dec : EqDecision gaspi_return_t.
Proof. solve_decision. Defined.

Variant gaspi_timeout_t := GASPI_BLOCK | GASPI_TEST | GASPI_MS (timeout_ms : Z).

(** ** TAGASPI.h *)

(** The values of [gaspi_queue_group_policy_t]; a C caller can pass any other integer too. *)
Variant gaspi_queue_group_policy_t :=
  | GASPI_QUEUE_GROUP_POLICY_DEFAULT
  | GASPI_QUEUE_GROUP_POLICY_CPU_RR
  | policy_other (value : Z).

#[global] Instance policy_eq_dec : EqDecision gaspi_queue_group_policy_t.
Proof. solve_decision. Defined.

(** ** ALPI.hpp *)

Definition ALPI_VERSION_MAJOR : Z := 1.
Definition ALPI_VERSION_MINOR : Z := 0.

Variant alpi_error_t :=
  | ALPI_SUCCESS | ALPI_ERR_VERSION | ALPI_ERR_NOT_INITIALIZED | ALPI_ERR_PARAMETER
  | ALPI_ERR_OUT_OF_MEMORY | ALPI_ERR_OUTSIDE_TASK | ALPI_ERR_UNKNOWN | ALPI_ERR_MAX.

(** The integer value of each enumerator. *)
Definition alpi_error_code (e : alpi_error_t) : Z :=
  match e with
  | ALPI_SUCCESS => 0 | ALPI_ERR_VERSION => 1 | ALPI_ERR_NOT_INITIALIZED => 2
  | ALPI_ERR_PARAMETER => 3 | ALPI_ERR_OUT_OF_MEMORY => 4 | ALPI_ERR_OUTSIDE_TASK => 5
  | ALPI_ERR_UNKNOWN => 6 | ALPI_ERR_MAX => 7
  end.

(** ** Waiting ranges (WaitingRange.hpp) *)

(** The fields of class [WaitingRange]. [_notifiedValues] is a pointer into the user's memory,
    [None] being [GASPI_NOTIFICATION_IGNORE]; the list links are the position in the list. *)
Record WaitingRange := mkWaitingRange {
  _segment : Z;
  _firstId : Z;
  _numIds : Z;
  _notifiedValues : option Z;
  _notifiedValue : Z;
  _remaining : Z;
  _task : Z;
}.

(** The constructor. It runs in a slot of the allocator and initialises every field but
    [_notifiedValue], which keeps [junk], the bytes that were in the slot. *)
Definition WaitingRange_ctor (junk segment firstNotificationId numNotifications : Z)
    (notifiedValues : option Z) (remainingNotifications task : Z) : WaitingRange :=
  {| _segment := segment;
     _firstId := firstNotificationId;
     _numIds := numNotifications;
     _notifiedValues := notifiedValues;
     _notifiedValue := junk;
     _remaining := remainingNotifications;
     _task := task |}.

(** ** Polling instances (TaskingModel.hpp) *)

(** The functions the library registers for polling; [pollQueues] takes the index of its
    [QueuePollingInfo] in the vector of them. *)
Variant polling_function_t := pollQueues_fn (info : nat) | pollNotifications_fn.

#[global] Instance polling_function_eq_dec : EqDecision polling_function_t.
Proof. solve_decision. Defined.

Record PollingInstance := mkPollingInstance {
  _name : string;
  _function : polling_function_t;
  _mustFinish : bool;
  _finished : bool;
}.

(** ** Diagnostics *)

(** What is streamed or formatted into a message. *)
Variant part := PStr (s : string) | PInt (z : Z) | PRet (e : gaspi_return_t).

(** A line feed. *)
Definition endl : part := PStr (String "010"%char EmptyString).

(** The spin locks of the process. *)
Variant lock_id :=
  | queueGroupsLock
  | waitingRangeQueueLock (segment : Z)
  | errorHandlerLock.

#[global] Instance lock_id_eq_dec : EqDecision lock_id.
Proof. solve_decision. Defined.
