(* ===== verification/Interface.v ===== *)
(** The effects of the library and their meaning: the calls a component makes on what it does not
    own (GASPI, the ALPI tasking runtime, boost's lock-free queues, libnuma, the C library, shared
    memory and locks), programs over those calls, and their sequential execution on a runtime. *)

From S2P Require Import Prelude Types.

(** ** Calls *)

Inductive call : Type → Type :=
  (* GASPI.h, GASPI_Lowlevel.h *)
  | gaspi_proc_init (timeout : gaspi_timeout_t) : call gaspi_return_t
  | gaspi_proc_term (timeout : gaspi_timeout_t) : call gaspi_return_t
  | gaspi_queue_max : call (gaspi_return_t * Z)
  | gaspi_segment_max : call (gaspi_return_t * Z)
  | gaspi_operation_get_num_requests (op : gaspi_operation_t) (num : Z) :
      call (gaspi_return_t * Z)
  | gaspi_operation_submit (op : gaspi_operation_t)
      (tag segment_id_local offset_local rank segment_id_remote offset_remote size
       notification_id notification_value queue : Z) (timeout : gaspi_timeout_t) :
      call gaspi_return_t
  | gaspi_operation_list_submit (op : gaspi_operation_t) (tag num : Z)
      (segment_id_local offset_local : list Z) (rank : Z)
      (segment_id_remote offset_remote size : list Z)
      (segment_id_notification notification_id notification_value queue : Z)
      (timeout : gaspi_timeout_t) : call gaspi_return_t
  | gaspi_request_wait (queue num : Z) (timeout : gaspi_timeout_t) :
      call (gaspi_return_t * list (Z * gaspi_return_t))
  | gaspi_notify_waitsome (segment firstId num : Z) (timeout : gaspi_timeout_t) :
      call (gaspi_return_t * Z)
  | gaspi_notify_reset (segment id : Z) : call (gaspi_return_t * Z)
  (* ALPI *)
  | alpi_error_string (error : Z) : call string
  | alpi_version_check (major minor : Z) : call Z
  | alpi_version_get : call (Z * (Z * Z))
  | alpi_task_self : call (Z * Z)
  | alpi_task_events_increase (task increment : Z) : call Z
  | alpi_task_events_decrease (task decrement : Z) : call Z
  | alpi_task_waitfor_ns (target_ns : Z) : call Z
  | alpi_task_spawn (instance : Z) (label : string) : call Z
  (* boost::lockfree *)
  | queue_construct (capacity : Z) : call unit
  | queue_destruct : call unit
  | queue_push (object : Z) : call bool
  | queue_pop : call (option Z)
  | spsc_construct (num capacity : Z) : call unit
  | spsc_destruct : call unit
  | spsc_push (segment range : Z) : call bool
  | spsc_empty (segment : Z) : call bool
  | spsc_consume_all (segment : Z) : call (list Z)
  (* libnuma, the operating system, the C library *)
  | numa_max_node : call Z
  | numa_num_possible_cpus : call Z
  | numa_num_task_cpus : call Z
  | numa_bitmask_isbitset (cpu : Z) : call bool
  | numa_node_of_cpu (cpu : Z) : call Z
  | sched_getcpu : call Z
  | getenv (name : string) : call (option string)
  | dlsym (name : string) : call bool
  (* shared memory, locks, standard error *)
  | lock_acquire (l : lock_id) : call unit
  | lock_release (l : lock_id) : call unit
  | malloc_objects (num : Z) : call unit
  | free_objects : call unit
  | wr_construct (object : Z) (segment firstId num : Z) (values : option Z)
      (remaining task : Z) : call unit
  | wr_load (object : Z) : call WaitingRange
  | wr_store (object : Z) (r : WaitingRange) : call unit
  | store_notification (address value : Z) : call unit
  | pi_new (name : string) (f : polling_function_t) : call Z
  | pi_load (instance : Z) : call PollingInstance
  | pi_set_mustFinish (instance : Z) : call unit
  | pi_set_finished (instance : Z) : call unit
  | pi_delete (instance : Z) : call unit
  | eprint (message : list part) : call unit.

(** ** Programs *)

(** How a program stops other than by returning. *)
Variant fault :=
  | Aborted
  | Exited (status : Z)
  | AssertFailed (condition : string)
  | UndefinedBehaviour (what : string)
  | NullCall (symbol : string)
  | Blocked
  | OutOfFuel.

Inductive prog (A : Type) : Type :=
  | Ret (a : A)
  | Fault (f : fault)
  | Vis {X : Type} (c : call X) (k : X → prog A).
Arguments Ret {A} _.
Arguments Fault {A} _.
Arguments Vis {A X} _ _.

Fixpoint prog_bind {A B} (k : A → prog B) (p : prog A) : prog B :=
  match p with
  | Ret a => k a
  | Fault f => Fault f
  | Vis c k' => Vis c (λ x, prog_bind k (k' x))
  end.

#[global] Instance prog_ret : MRet prog := @Ret.
#[global] Instance prog_mbind : MBind prog := λ A B k p, prog_bind k p.

Lemma mbind_Ret {A B} (a : A) (k : A → prog B) : Ret a ≫= k = k a.
Proof. done. Qed.

Definition perform {X} (c : call X) : prog X := Vis c Ret.

(** [assert] of <cassert>: nothing in a build with [NDEBUG]. *)
Definition assert `{BuildConfig} (condition : string) (b : bool) : prog unit :=
  if NDEBUG then Ret tt else if b then Ret tt else Fault (AssertFailed condition).

(** [for] loops over a counter or a container: [body] runs on the elements in order, each time
    with the local state the previous iteration left. *)
Fixpoint for_each {E S} (l : list E) (body : E → S → prog S) (s : S) : prog S :=
  match l with
  | [] => Ret s
  | x :: l => s' ← body x s; for_each l body s'
  end.

(** Element [i] of a vector or array; [operator[]] does not check its index. *)
Definition vec_get {E} (l : list E) (i : Z) : prog E :=
  if decide (0 ≤ i)%Z then
    match l !! Z.to_nat i with
    | Some x => Ret x
    | None => Fault (UndefinedBehaviour "index out of range")
    end
  else Fault (UndefinedBehaviour "index out of range").

Definition vec_set {E} (l : list E) (i : Z) (x : E) : prog (list E) :=
  if decide (0 ≤ i < Z.of_nat (length l))%Z then Ret (<[Z.to_nat i := x]> l)
  else Fault (UndefinedBehaviour "index out of range").

Lemma vec_get_Some {E} (l : list E) i x :
  (0 ≤ i)%Z → l !! Z.to_nat i = Some x → vec_get l i = Ret x.
Proof. intros ? Hx. unfold vec_get. by rewrite decide_True, Hx by done. Qed.

Lemma vec_set_ok {E} (l : list E) i x :
  (0 ≤ i < Z.of_nat (length l))%Z → vec_set l i x = Ret (<[Z.to_nat i := x]> l).
Proof. intros ?. unfold vec_set. by rewrite decide_True. Qed.

(** A loop whose bodies return without calling anything, by an invariant. *)
Lemma for_each_pure {E S} (Inv : list E → S → Prop) (l : list E) (body : E → S → prog S) s :
  Inv [] s →
  (∀ l1 x l2 s, l = l1 ++ x :: l2 → Inv l1 s →
     ∃ s', body x s = Ret s' ∧ Inv (l1 ++ [x]) s') →
  ∃ s', for_each l body s = Ret s' ∧ Inv l s'.
Proof.
  intros H0 Hbody.
  cut (∀ l2 l1 s, l = l1 ++ l2 → Inv l1 s → ∃ s', for_each l2 body s = Ret s' ∧ Inv l s').
  { intros Hgen. by apply (Hgen l []). }
  clear s H0. induction l2 as [|x l2 IH]; intros l1 s -> HI; simpl.
  - exists s. by rewrite app_nil_r in *.
  - destruct (Hbody l1 x l2 s eq_refl HI) as (s'&->&HI'). simpl.
    apply (IH (l1 ++ [x])); [by rewrite <- app_assoc|done].
Qed.

(** The other way round: a program that is a return has returned in its first part. *)
Lemma mbind_Ret_inv {A B} (p : prog A) (k : A → prog B) b :
  p ≫= k = Ret b → ∃ a, p = Ret a ∧ k a = Ret b.
Proof. destruct p as [a|f|X c k']; [|discriminate..]. intros H. by exists a. Qed.

Lemma for_each_Ret_inv {E S} (Inv : S → Prop) (l : list E) (body : E → S → prog S) s s' :
  (∀ x s s', body x s = Ret s' → Inv s → Inv s') →
  for_each l body s = Ret s' → Inv s → Inv s'.
Proof.
  intros Hbody. revert s. induction l as [|x l IH]; intros s; [by intros [= <-]|].
  intros (s1&Hs1&Hl)%mbind_Ret_inv Hs. apply (IH s1 Hl). by eapply Hbody.
Qed.

Lemma vec_get_inv {E} (l : list E) i x : vec_get l i = Ret x → l !! Z.to_nat i = Some x.
Proof. unfold vec_get. case_decide; [|done]. case_match; [|done]. by intros [= ->]. Qed.

Lemma vec_set_inv {E} (l l' : list E) i x :
  vec_set l i x = Ret l' → l' = <[Z.to_nat i := x]> l.
Proof. unfold vec_set. case_decide; [|done]. by intros [= <-]. Qed.

(** ** Sequential execution *)

(** A runtime gives every call its effect on a state of the outside world; [None] is a call that
    waits for ever when nobody else runs. *)
Class Runtime (W : Type) := do_call : ∀ {X : Type}, call X → W → option (X * W).

Definition result (A : Type) : Type := A + fault.

Fixpoint run {W A} `{Runtime W} (p : prog A) (w : W) : result A * W :=
  match p with
  | Ret a => (inl a, w)
  | Fault f => (inr f, w)
  | Vis c k => match do_call c w with
               | Some (x, w') => run (k x) w'
               | None => (inr Blocked, w)
               end
  end.

Lemma run_bind {W A B} `{Runtime W} (p : prog A) (k : A → prog B) (w : W) :
  run (p ≫= k) w = match run p w with
                   | (inl a, w') => run (k a) w'
                   | (inr f, w') => (inr f, w')
                   end.
Proof.
  revert w. induction p as [a|f|X c k' IH]; intros w; [done..|].
  simpl. destruct (do_call c w) as [[x w']|]; [apply IH|done].
Qed.

Lemma run_vis {W A X} `{Runtime W} (c : call X) (k : X → prog A) w x w' :
  do_call c w = Some (x, w') → run (Vis c k) w = run (k x) w'.
Proof. simpl. by intros ->. Qed.

Lemma for_each_app {E S} (l1 l2 : list E) (body : E → S → prog S) s W `{Runtime W} (w : W) :
  run (for_each (l1 ++ l2) body s) w =
  run (s' ← for_each l1 body s; for_each l2 body s') w.
Proof.
  revert s w. induction l1 as [|x l1 IH]; intros s w; [done|].
  simpl. rewrite !run_bind. destruct (run (body x s) w) as [[s'|f] w']; [|done].
  rewrite IH. by rewrite run_bind.
Qed.
