(* ===== verification/Contract.v ===== *)
(** The documented behaviour of the calls, as far as the library relies on it: a view of the
    outside world, the relation each call establishes between the views before and after it, and
    the class of the runtimes that respect it. *)

From S2P Require Import Prelude Types Interface.

(** ** Views *)

(** What does not change while the process runs: the machine, the process environment, the
    dynamic symbols, and the limits of the GASPI installation. *)
Record host := Host {
  h_max_node : Z;
  h_possible_cpus : Z;
  h_available : Z → bool;
  h_node_of_cpu : Z → Z;
  h_getenv : string → option string;
  h_symbol : string → bool;
  h_queue_max : Z;
  h_segment_max : Z;
}.

(** - [v_events]: the external events of each task;
    - [v_outstanding]: the tags of the low-level requests that have been posted, by the library or
      by others, and that [gaspi_request_wait] has not reported, in no particular order;
    - [v_notif]: the non-zero notifications by segment and identifier;
    - [v_spsc]: the elements of the single-producer single-consumer queues, oldest first, each
      with the segment of its queue, and [v_spsc_capacity] the capacity of each queue;
    - [v_pool], [v_pool_capacity]: the lock-free queue of the allocator, oldest first;
    - [v_objs]: the bytes of the allocator's slots;
    - [v_held]: the locks that are held;
    - [v_mem]: the user's notification values, by address;
    - [v_insts]: the polling instances alive;
    - [v_err]: what was written to standard error. *)
Record view := View {
  v_host : host;
  v_events : gmap Z Z;
  v_outstanding : list Z;
  v_notif : gmap (Z * Z) Z;
  v_spsc : list (Z * Z);
  v_spsc_capacity : Z;
  v_pool : list Z;
  v_pool_capacity : Z;
  v_objs : gmap Z WaitingRange;
  v_held : list lock_id;
  v_mem : gmap Z Z;
  v_insts : gmap Z PollingInstance;
  v_err : list (list part);
}.

Definition set_events e v := View (v_host v) e (v_outstanding v) (v_notif v) (v_spsc v)
  (v_spsc_capacity v) (v_pool v) (v_pool_capacity v) (v_objs v) (v_held v) (v_mem v)
  (v_insts v) (v_err v).
Definition set_outstanding o v := View (v_host v) (v_events v) o (v_notif v) (v_spsc v)
  (v_spsc_capacity v) (v_pool v) (v_pool_capacity v) (v_objs v) (v_held v) (v_mem v)
  (v_insts v) (v_err v).
Definition set_notif n v := View (v_host v) (v_events v) (v_outstanding v) n (v_spsc v)
  (v_spsc_capacity v) (v_pool v) (v_pool_capacity v) (v_objs v) (v_held v) (v_mem v)
  (v_insts v) (v_err v).
Definition set_spsc q c v := View (v_host v) (v_events v) (v_outstanding v) (v_notif v) q
  c (v_pool v) (v_pool_capacity v) (v_objs v) (v_held v) (v_mem v) (v_insts v) (v_err v).
Definition set_pool p c v := View (v_host v) (v_events v) (v_outstanding v) (v_notif v)
  (v_spsc v) (v_spsc_capacity v) p c (v_objs v) (v_held v) (v_mem v) (v_insts v) (v_err v).
Definition set_objs o v := View (v_host v) (v_events v) (v_outstanding v) (v_notif v)
  (v_spsc v) (v_spsc_capacity v) (v_pool v) (v_pool_capacity v) o (v_held v) (v_mem v)
  (v_insts v) (v_err v).
Definition set_held h v := View (v_host v) (v_events v) (v_outstanding v) (v_notif v)
  (v_spsc v) (v_spsc_capacity v) (v_pool v) (v_pool_capacity v) (v_objs v) h (v_mem v)
  (v_insts v) (v_err v).
Definition set_mem m v := View (v_host v) (v_events v) (v_outstanding v) (v_notif v)
  (v_spsc v) (v_spsc_capacity v) (v_pool v) (v_pool_capacity v) (v_objs v) (v_held v) m
  (v_insts v) (v_err v).
Definition set_insts i v := View (v_host v) (v_events v) (v_outstanding v) (v_notif v)
  (v_spsc v) (v_spsc_capacity v) (v_pool v) (v_pool_capacity v) (v_objs v) (v_held v)
  (v_mem v) i (v_err v).
Definition set_err e v := View (v_host v) (v_events v) (v_outstanding v) (v_notif v)
  (v_spsc v) (v_spsc_capacity v) (v_pool v) (v_pool_capacity v) (v_objs v) (v_held v)
  (v_mem v) (v_insts v) e.

(** The external events of a task. *)
Definition events (v : view) (task : Z) : Z := default 0%Z (v_events v !! task).

(** The value of a notification, 0 when it has not arrived. *)
Definition notif (v : view) (segment id : Z) : Z := default 0%Z (v_notif v !! (segment, id)).

(** The contents of the queue of a segment, oldest first. *)
Definition spsc_contents (v : view) (segment : Z) : list Z :=
  (filter (λ e, e.1 = segment) (v_spsc v)).*2.

(** Whether [gaspi_request_wait] or [gaspi_notify_waitsome] came back with a regular answer. *)
Definition regular (e : gaspi_return_t) : bool :=
  match e with GASPI_SUCCESS | GASPI_TIMEOUT => true | _ => false end.

(** A task handle is a pointer, and no task has the tag of the requests that belong to none. *)
Definition valid_task `{GaspiTypes} (t : Z) : Prop := t ≠ 0%Z ∧ t ≠ GASPI_TAG_NULL.

(** ** Behaviour of the calls *)

Definition post_requests `{GaspiTypes} (n tag : Z) (e : gaspi_return_t) (v v' : view) : Prop :=
  e ≠ GASPI_TIMEOUT ∧
  v' = if decide (e = GASPI_SUCCESS)
       then set_outstanding (replicate (Z.to_nat n) tag ++ v_outstanding v) v else v.

Definition call_spec `{GaspiTypes} {X} (c : call X) (v : view) : X → view → Prop :=
  match c in call X return X → view → Prop with
  | gaspi_proc_init _ | gaspi_proc_term _ => λ _ v', v' = v
  | gaspi_queue_max => λ x v', v' = v ∧ x = (GASPI_SUCCESS, h_queue_max (v_host v))
  | gaspi_segment_max => λ x v', v' = v ∧ x = (GASPI_SUCCESS, h_segment_max (v_host v))
  | gaspi_operation_get_num_requests op n =>
      λ x v', v' = v ∧ x = (GASPI_SUCCESS, num_requests op n)
  | gaspi_operation_submit op tag _ _ _ _ _ _ _ _ _ _ =>
      λ e v', post_requests (num_requests op 1) tag e v v'
  | gaspi_operation_list_submit op tag num _ _ _ _ _ _ _ _ _ _ _ =>
      λ e v', post_requests (num_requests op num) tag e v v'
  | gaspi_request_wait _ num _ =>
      λ x v', if regular x.1
              then ((Z.of_nat (length x.2) ≤ num)%Z ∧
                   ∃ o, v' = set_outstanding o v ∧ v_outstanding v ≡ₚ x.2.*1 ++ o)
              else v' = v
  | gaspi_notify_waitsome s f n _ =>
      λ x v', v' = v ∧
        match x.1 with
        | GASPI_SUCCESS => (f ≤ x.2 < f + n)%Z ∧ notif v s x.2 ≠ 0%Z
        | GASPI_TIMEOUT => ∀ i, (f ≤ i < f + n)%Z → notif v s i = 0%Z
        | _ => True
        end
  | gaspi_notify_reset s i =>
      λ x v', if decide (x.1 = GASPI_SUCCESS)
              then (x.2 = notif v s i ∧ v' = set_notif (delete (s, i) (v_notif v)) v)
              else v' = v
  | alpi_task_self => λ x v', v' = v ∧ (x.1 = 0%Z → valid_task (x.2))
  | alpi_error_string _ | alpi_version_check _ _ | alpi_version_get
  | alpi_task_waitfor_ns _ | alpi_task_spawn _ _ | numa_num_task_cpus | sched_getcpu =>
      λ _ v', v' = v
  | alpi_task_events_increase t n =>
      λ e v', v' = if decide (e = 0%Z)
                   then set_events (<[t := (events v t + n)%Z]> (v_events v)) v else v
  | alpi_task_events_decrease t n =>
      λ e v', v' = if decide (e = 0%Z)
                   then set_events (<[t := (events v t - n)%Z]> (v_events v)) v else v
  | queue_construct cap => λ _ v', v' = set_pool [] cap v
  | queue_destruct => λ _ v', v' = set_pool [] 0%Z v
  | queue_push p =>
      λ x v', if decide (Z.of_nat (length (v_pool v)) < v_pool_capacity v)%Z
              then x = true ∧ v' = set_pool (v_pool v ++ [p]) (v_pool_capacity v) v
              else x = false ∧ v' = v
  | queue_pop =>
      λ x v', match v_pool v with
              | [] => x = None ∧ v' = v
              | p :: l => x = Some p ∧ v' = set_pool l (v_pool_capacity v) v
              end
  | spsc_construct num cap => λ _ v', v' = set_spsc [] cap v
  | spsc_destruct => λ _ v', v' = set_spsc [] 0%Z v
  | spsc_push s p =>
      λ x v', if decide (Z.of_nat (length (spsc_contents v s)) < v_spsc_capacity v)%Z
              then x = true ∧ v' = set_spsc (v_spsc v ++ [(s, p)]) (v_spsc_capacity v) v
              else x = false ∧ v' = v
  | spsc_empty s => λ x v', v' = v ∧ x = bool_decide (spsc_contents v s = [])
  | spsc_consume_all s =>
      λ x v', x = spsc_contents v s ∧
        v' = set_spsc (filter (λ e, e.1 ≠ s) (v_spsc v)) (v_spsc_capacity v) v
  | numa_max_node => λ x v', v' = v ∧ x = h_max_node (v_host v)
  | numa_num_possible_cpus => λ x v', v' = v ∧ x = h_possible_cpus (v_host v)
  | numa_bitmask_isbitset c => λ x v', v' = v ∧ x = h_available (v_host v) c
  | numa_node_of_cpu c => λ x v', v' = v ∧ x = h_node_of_cpu (v_host v) c
  | getenv name => λ x v', v' = v ∧ x = h_getenv (v_host v) name
  | dlsym name => λ x v', v' = v ∧ x = h_symbol (v_host v) name
  | lock_acquire l => λ _ v', (l ∉ v_held v) ∧ v' = set_held (l :: v_held v) v
  | lock_release l => λ _ v', v' = set_held (filter (λ l', l' ≠ l) (v_held v)) v
  | malloc_objects n =>
      λ _ v', ∃ o, v' = set_objs o v ∧ ∀ p, (0 ≤ p < n)%Z → is_Some (o !! p)
  | free_objects => λ _ v', v' = set_objs ∅ v
  | wr_construct p s f n a rem t =>
      λ _ v', ∃ old, v_objs v !! p = Some old ∧
        v' = set_objs (<[p := WaitingRange_ctor (_notifiedValue old) s f n a rem t]> (v_objs v)) v
  | wr_load p => λ x v', v' = v ∧ v_objs v !! p = Some x
  | wr_store p r => λ _ v', v' = set_objs (<[p := r]> (v_objs v)) v
  | store_notification a x => λ _ v', v' = set_mem (<[a := x]> (v_mem v)) v
  | pi_new name f =>
      λ i v', v_insts v !! i = None ∧
        v' = set_insts (<[i := mkPollingInstance name f false false]> (v_insts v)) v
  | pi_load i => λ x v', v' = v ∧ v_insts v !! i = Some x
  | pi_set_mustFinish i =>
      λ _ v', v' = set_insts (alter (λ p, mkPollingInstance (_name p) (_function p) true
                                           (_finished p)) i (v_insts v)) v
  | pi_set_finished i =>
      λ _ v', v' = set_insts (alter (λ p, mkPollingInstance (_name p) (_function p)
                                           (_mustFinish p) true) i (v_insts v)) v
  | pi_delete i => λ _ v', v' = set_insts (delete i (v_insts v)) v
  | eprint m => λ _ v', v' = set_err (v_err v ++ [m]) v
  end.

(** When a call comes back: taking a lock needs the lock to be free, and an access needs the
    object to exist; every other call returns. *)
Definition ready {X} (c : call X) (v : view) : Prop :=
  match c with
  | lock_acquire l => l ∉ v_held v
  | wr_construct p _ _ _ _ _ _ => is_Some (v_objs v !! p)
  | wr_load p => is_Some (v_objs v !! p)
  | pi_load i => is_Some (v_insts v !! i)
  | _ => True
  end.

(** A runtime whose states can be viewed so that every call behaves as documented. *)
Class RuntimeSpec (W : Type) `{GaspiTypes} `{Runtime W} := {
  view_of : W → view;
  runtime_ok {X} (c : call X) w x w' :
    do_call c w = Some (x, w') → call_spec c (view_of w) x (view_of w');
  runtime_live {X} (c : call X) w : ready c (view_of w) → is_Some (do_call c w);
}.
