(* ===== verification/Sim.v ===== *)
(** A small executable runtime that meets the contract: one rank whose network has completed every
    request by the next time it is asked. The witnesses run the library on it. *)

From S2P Require Import Prelude Types Interface Contract.

(** ** Foreign types and builds used in examples *)

Definition sim_requests (op : gaspi_operation_t) (n : Z) : Z :=
  match op with
  | GASPI_OP_READ | GASPI_OP_WRITE | GASPI_OP_NOTIFY => 1
  | GASPI_OP_WRITE_NOTIFY => 2
  | GASPI_OP_READ_LIST | GASPI_OP_WRITE_LIST => n
  | GASPI_OP_WRITE_LIST_NOTIFY => n + 1
  end.

(** 8-bit queue and segment identifiers and 32-bit numbers. *)
#[refine] Definition sim_types : GaspiTypes := {|
  queue_id_bits := 8; segment_id_bits := 8; number_bits := 32;
  GASPI_TAG_NULL := 0; num_requests := sim_requests |}.
Proof. 1-3: lia. by intros [] n; simpl; lia. Defined.

#[refine] Definition release_build : BuildConfig := {| NDEBUG := true; MAX_SYSTEM_CPUS := 48 |}.
Proof. lia. Defined.

#[refine] Definition debug_build : BuildConfig := {| NDEBUG := false; MAX_SYSTEM_CPUS := 48 |}.
Proof. lia. Defined.

(** ** The runtime *)

(** [sim_task]: the task that runs; [sim_submit]: the outcome of submissions; [sim_alpi]: the
    outcome of changes of external events; [sim_queues]: how many queues were created. *)
Record Sim := mkSim {
  sim_view : view;
  sim_task : Z;
  sim_submit : gaspi_return_t;
  sim_alpi : Z;
  sim_queues : Z;
}.

Definition on_view (f : view → view) (s : Sim) : Sim :=
  mkSim (f (sim_view s)) (sim_task s) (sim_submit s) (sim_alpi s) (sim_queues s).

Section sim.
Context `{GaspiTypes}.

Definition sim_post (n tag : Z) (s : Sim) : option (gaspi_return_t * Sim) :=
  let v := sim_view s in
  match sim_submit s with
  | GASPI_SUCCESS =>
      Some (GASPI_SUCCESS,
            on_view (set_outstanding (replicate (Z.to_nat n) tag ++ v_outstanding v)) s)
  | GASPI_TIMEOUT => Some (GASPI_ERROR, s)
  | e => Some (e, s)
  end.

Definition sim_events (t n : Z) (s : Sim) : option (Z * Sim) :=
  let v := sim_view s in
  Some (sim_alpi s,
        if decide (sim_alpi s = 0%Z)
        then on_view (set_events (<[t := (events v t + n)%Z]> (v_events v))) s else s).

Definition sim_complete (num : Z) (s : Sim) : list (Z * gaspi_return_t) * Sim :=
  let out := v_outstanding (sim_view s) in
  let n := Z.to_nat num in
  ((λ t, (t, GASPI_SUCCESS)) <$> take n out, on_view (set_outstanding (drop n out)) s).

Definition sim_first (v : view) (seg first num : Z) : option Z :=
  snd <$> list_find (λ i, notif v seg i ≠ 0%Z) (seqZ first num).

#[export] Instance sim_runtime : Runtime Sim := λ X c,
  match c in call X return Sim → option (X * Sim) with
  | gaspi_proc_init _ | gaspi_proc_term _ => λ s, Some (GASPI_SUCCESS, s)
  | gaspi_queue_max => λ s, Some ((GASPI_SUCCESS, h_queue_max (v_host (sim_view s))), s)
  | gaspi_segment_max => λ s, Some ((GASPI_SUCCESS, h_segment_max (v_host (sim_view s))), s)
  | gaspi_operation_get_num_requests op n => λ s, Some ((GASPI_SUCCESS, num_requests op n), s)
  | gaspi_operation_submit op tag _ _ _ _ _ _ _ _ _ _ => sim_post (num_requests op 1) tag
  | gaspi_operation_list_submit op tag n _ _ _ _ _ _ _ _ _ _ _ =>
      sim_post (num_requests op n) tag
  | gaspi_request_wait q n _ => λ s,
      if decide (q < sim_queues s ∧ 0 ≤ n)%Z
      then let '(l, s') := sim_complete n s in Some ((GASPI_SUCCESS, l), s')
      else Some ((GASPI_ERR_INV_QUEUE, []), s)
  | gaspi_notify_waitsome seg f n _ => λ s,
      match sim_first (sim_view s) seg f n with
      | Some i => Some ((GASPI_SUCCESS, i), s)
      | None => Some ((GASPI_TIMEOUT, 0%Z), s)
      end
  | gaspi_notify_reset seg i => λ s,
      Some ((GASPI_SUCCESS, notif (sim_view s) seg i),
            on_view (set_notif (delete (seg, i) (v_notif (sim_view s)))) s)
  | alpi_error_string _ => λ s, Some ("error", s)
  | alpi_version_check _ _ => λ s, Some (0%Z, s)
  | alpi_version_get => λ s, Some ((0%Z, (ALPI_VERSION_MAJOR, ALPI_VERSION_MINOR)), s)
  | alpi_task_self => λ s,
      if decide (sim_task s = 0%Z ∨ sim_task s = GASPI_TAG_NULL)
      then Some ((alpi_error_code ALPI_ERR_OUTSIDE_TASK, 0%Z), s)
      else Some ((0%Z, sim_task s), s)
  | alpi_task_events_increase t n => sim_events t n
  | alpi_task_events_decrease t n => sim_events t (- n)
  | alpi_task_waitfor_ns _ => λ s, Some (0%Z, s)
  | alpi_task_spawn _ _ => λ s, Some (0%Z, s)
  | queue_construct cap => λ s, Some (tt, on_view (set_pool [] cap) s)
  | queue_destruct => λ s, Some (tt, on_view (set_pool [] 0) s)
  | queue_push p => λ s,
      let v := sim_view s in
      if decide (Z.of_nat (length (v_pool v)) < v_pool_capacity v)%Z
      then Some (true, on_view (set_pool (v_pool v ++ [p]) (v_pool_capacity v)) s)
      else Some (false, s)
  | queue_pop => λ s,
      match v_pool (sim_view s) with
      | [] => Some (None, s)
      | p :: l => Some (Some p, on_view (set_pool l (v_pool_capacity (sim_view s))) s)
      end
  | spsc_construct _ cap => λ s, Some (tt, on_view (set_spsc [] cap) s)
  | spsc_destruct => λ s, Some (tt, on_view (set_spsc [] 0) s)
  | spsc_push seg p => λ s,
      let v := sim_view s in
      if decide (Z.of_nat (length (spsc_contents v seg)) < v_spsc_capacity v)%Z
      then Some (true, on_view (set_spsc (v_spsc v ++ [(seg, p)]) (v_spsc_capacity v)) s)
      else Some (false, s)
  | spsc_empty seg => λ s, Some (bool_decide (spsc_contents (sim_view s) seg = []), s)
  | spsc_consume_all seg => λ s,
      let v := sim_view s in
      Some (spsc_contents v seg,
            on_view (set_spsc (filter (λ e, e.1 ≠ seg) (v_spsc v)) (v_spsc_capacity v)) s)
  | numa_max_node => λ s, Some (h_max_node (v_host (sim_view s)), s)
  | numa_num_possible_cpus => λ s, Some (h_possible_cpus (v_host (sim_view s)), s)
  | numa_num_task_cpus => λ s, Some (h_possible_cpus (v_host (sim_view s)), s)
  | numa_bitmask_isbitset c => λ s, Some (h_available (v_host (sim_view s)) c, s)
  | numa_node_of_cpu c => λ s, Some (h_node_of_cpu (v_host (sim_view s)) c, s)
  | sched_getcpu => λ s, Some (0%Z, s)
  | getenv name => λ s, Some (h_getenv (v_host (sim_view s)) name, s)
  | dlsym name => λ s, Some (h_symbol (v_host (sim_view s)) name, s)
  | lock_acquire l => λ s,
      if decide (l ∈ v_held (sim_view s)) then None
      else Some (tt, on_view (set_held (l :: v_held (sim_view s))) s)
  | lock_release l => λ s,
      Some (tt, on_view (set_held (filter (λ l', l' ≠ l) (v_held (sim_view s)))) s)
  | malloc_objects n => λ s,
      Some (tt, on_view (set_objs (list_to_map
        ((λ p, (p, WaitingRange_ctor 0 0 0 0 None 0 0)) <$> seqZ 0 n))) s)
  | free_objects => λ s, Some (tt, on_view (set_objs ∅) s)
  | wr_construct p sg f n a rem t => λ s,
      let v := sim_view s in
      old ← v_objs v !! p;
      Some (tt, on_view (set_objs
        (<[p := WaitingRange_ctor (_notifiedValue old) sg f n a rem t]> (v_objs v))) s)
  | wr_load p => λ s, r ← v_objs (sim_view s) !! p; Some (r, s)
  | wr_store p r => λ s, Some (tt, on_view (set_objs (<[p := r]> (v_objs (sim_view s)))) s)
  | store_notification a x => λ s,
      Some (tt, on_view (set_mem (<[a := x]> (v_mem (sim_view s)))) s)
  | pi_new name f => λ s,
      let m := v_insts (sim_view s) in
      let i := fresh (dom m) in
      Some (i, on_view (set_insts (<[i := mkPollingInstance name f false false]> m)) s)
  | pi_load i => λ s, p ← v_insts (sim_view s) !! i; Some (p, s)
  | pi_set_mustFinish i => λ s,
      Some (tt, on_view (set_insts (alter (λ p, mkPollingInstance (_name p) (_function p) true
        (_finished p)) i (v_insts (sim_view s)))) s)
  | pi_set_finished i => λ s,
      Some (tt, on_view (set_insts (alter (λ p, mkPollingInstance (_name p) (_function p)
        (_mustFinish p) true) i (v_insts (sim_view s)))) s)
  | pi_delete i => λ s, Some (tt, on_view (set_insts (delete i (v_insts (sim_view s)))) s)
  | eprint m => λ s, Some (tt, on_view (set_err (v_err (sim_view s) ++ [m])) s)
  end.

Lemma sim_post_spec n tag s e s' :
  sim_post n tag s = Some (e, s') → post_requests n tag e (sim_view s) (sim_view s').
Proof.
  unfold sim_post, post_requests. intros He.
  destruct (sim_submit s); simplify_eq; by case_decide.
Qed.

Lemma sim_events_spec t n s e s' :
  sim_events t n s = Some (e, s') →
  sim_view s' = if decide (e = 0%Z)
    then set_events (<[t := (events (sim_view s) t + n)%Z]> (v_events (sim_view s))) (sim_view s)
    else sim_view s.
Proof. unfold sim_events. intros ?. simplify_eq. by case_decide. Qed.

Lemma sim_complete_spec num s :
  (0 ≤ num)%Z →
  let '(l, s') := sim_complete num s in
  (Z.of_nat (length l) ≤ num)%Z ∧
  ∃ o, sim_view s' = set_outstanding o (sim_view s) ∧
       v_outstanding (sim_view s) ≡ₚ l.*1 ++ o.
Proof.
  intros Hn. simpl. split.
  - rewrite length_fmap, length_take. lia.
  - eexists. split; [done|]. rewrite <- list_fmap_compose. simpl. rewrite list_fmap_id.
    by rewrite take_drop.
Qed.

Lemma sim_first_Some v seg f n i :
  sim_first v seg f n = Some i → (f ≤ i < f + n)%Z ∧ notif v seg i ≠ 0%Z.
Proof.
  unfold sim_first. rewrite fmap_Some.
  intros ([j i']&(Hj&Hi&_)%list_find_Some&->). simpl in *.
  apply lookup_seqZ in Hj. split; [lia|done].
Qed.

Lemma sim_first_None v seg f n i :
  sim_first v seg f n = None → (f ≤ i < f + n)%Z → notif v seg i = 0%Z.
Proof.
  unfold sim_first. rewrite fmap_None, list_find_None, Forall_forall.
  intros Hf Hi. apply dec_stable. apply (Hf i), elem_of_seqZ. lia.
Qed.

(** The simulated runtime behaves as documented. *)
#[export] #[refine] Instance sim_spec : RuntimeSpec Sim := {| view_of := sim_view |}.
Proof.
  2:{ intros X c w Hc. destruct c; cbn in Hc |- *; try (eexists; reflexivity).
      all: try match type of Hc with is_Some _ =>
        destruct Hc as [? Hx]; rewrite Hx; eexists; reflexivity end.
      all: unfold sim_post; repeat case_decide; repeat case_match;
        try (eexists; reflexivity); done. }
  intros X c w x w' Hc.
  destruct c; cbn in Hc |- *; try (simplify_eq; done).
  all: try (case_decide; simplify_eq; done).
  all: try by eapply sim_post_spec.
  all: try by eapply sim_events_spec.
  - case_decide as Hq; [|by simplify_eq].
    injection Hc as <- <-. apply (sim_complete_spec num w). lia.
  - destruct (sim_first _ _ _ _) eqn:Hf; simplify_eq; simpl.
    + apply sim_first_Some in Hf as [??]. done.
    + split; [done|]. intros i. by apply sim_first_None.
  - unfold valid_task. case_decide; simplify_eq; naive_solver.
  - destruct (v_pool _) eqn:E; by simplify_eq.
  - simplify_eq. eexists. split; [done|]. intros p Hp.
    apply elem_of_dom. rewrite dom_list_to_map_L, <- list_fmap_compose. simpl.
    rewrite list_fmap_id. apply elem_of_list_to_set, elem_of_seqZ. lia.
  - apply bind_Some in Hc as (old&?&?). simplify_eq. by exists old.
  - apply bind_Some in Hc as (r&?&?). by simplify_eq.
  - simplify_eq. split; [|done]. apply not_elem_of_dom, is_fresh.
  - apply bind_Some in Hc as (r&?&?). by simplify_eq.
Defined.
End sim.

(** ** A host and a world to start from *)

(** Two NUMA nodes of two CPUs, and two more possible CPUs that are not available. *)
Definition sim_host : host := {|
  h_max_node := 1;
  h_possible_cpus := 6;
  h_available := λ c, bool_decide (0 ≤ c < 4)%Z;
  h_node_of_cpu := λ c, (c / 2)%Z;
  h_getenv := λ name, if decide (name = "TAGASPI_POLLING_PERIOD") then Some "250" else None;
  h_symbol := λ _, true;
  h_queue_max := 5;
  h_segment_max := 2 |}.

Definition view0 (h : host) : view := View h ∅ [] ∅ [] 0 [] 0 ∅ [] ∅ ∅ [].

(** The process before it initialises the library; the calling task is 77. *)
Definition sim0 : Sim := mkSim (view0 sim_host) 77 GASPI_SUCCESS 0 5.
