(* ===== verification/Hoare.v ===== *)
(** Total-correctness reasoning about programs at the level of views: [wp p v Q] holds when [p],
    started in a state viewed as [v], ends on every runtime that meets the contract, with an
    outcome and a final view in [Q]. *)

From S2P Require Import Prelude Types Interface Contract.

(** The outcome is a value with property [P], or a fault in [F]. *)
Definition post (F : fault → Prop) {A} (P : A → view → Prop) (r : result A) (v : view) : Prop :=
  match r with inl a => P a v | inr f => F f end.

(** The program returns. *)
Abbreviation returns := (post (λ _, False)).

(** The program returns or calls [abort]. *)
Abbreviation may_abort := (post (λ f, f = Aborted)).

Section hoare.
Context `{GT : GaspiTypes}.

Fixpoint wp {A} (p : prog A) (v : view) (Q : result A → view → Prop) : Prop :=
  match p with
  | Ret a => Q (inl a) v
  | Fault f => Q (inr f) v
  | Vis c k => ready c v ∧ ∀ x v', call_spec c v x v' → wp (k x) v' Q
  end.

Lemma wp_mono {A} (p : prog A) v (Q Q' : result A → view → Prop) :
  wp p v Q → (∀ r v', Q r v' → Q' r v') → wp p v Q'.
Proof.
  intros Hp HQ. revert v Hp. induction p as [a|f|X c k IH]; simpl; [auto..|].
  intros v [Hr Hk]. split; [done|]. intros x v' Hc. apply IH. auto.
Qed.

Lemma wp_bind {A B} (p : prog A) (k : A → prog B) v Q :
  wp p v (λ r v', match r with inl a => wp (k a) v' Q | inr f => Q (inr f) v' end) →
  wp (p ≫= k) v Q.
Proof.
  revert v. induction p as [a|f|X c k' IH]; simpl; [auto..|].
  intros v [Hr Hk]. split; [done|]. intros x v' Hc. apply IH. auto.
Qed.

Lemma wp_bind_post (F : fault → Prop) {A B} (p : prog A) (k : A → prog B) v P Q :
  wp p v (post F P) → (∀ a v', P a v' → wp (k a) v' (post F Q)) → wp (p ≫= k) v (post F Q).
Proof.
  intros Hp Hk. apply wp_bind. eapply wp_mono; [exact Hp|].
  intros [a|f] v'; simpl; [auto|done].
Qed.

Lemma wp_post_mono (F F' : fault → Prop) {A} (p : prog A) v (P P' : A → view → Prop) :
  wp p v (post F P) → (∀ f, F f → F' f) → (∀ a v', P a v' → P' a v') → wp p v (post F' P').
Proof.
  intros Hp HF HP. eapply wp_mono; [exact Hp|]. intros [a|f] v'; simpl; auto.
Qed.

Lemma wp_bind_returns {A B} (p : prog A) (k : A → prog B) v P Q :
  wp p v (returns P) → (∀ a v', P a v' → wp (k a) v' Q) → wp (p ≫= k) v Q.
Proof.
  intros Hp Hk. apply wp_bind. eapply wp_mono; [exact Hp|].
  intros [a|f] v'; simpl; [auto|done].
Qed.

Lemma wp_bind_abort {A B} (p : prog A) (k : A → prog B) v P Q :
  wp p v (may_abort P) → (∀ a v', P a v' → wp (k a) v' (may_abort Q)) →
  wp (p ≫= k) v (may_abort Q).
Proof. apply wp_bind_post. Qed.

Lemma wp_perform {X} (c : call X) v (Q : result X → view → Prop) :
  ready c v → (∀ x v', call_spec c v x v' → Q (inl x) v') → wp (perform c) v Q.
Proof. intros. by split. Qed.

Lemma wp_assert `{BuildConfig} cond b v (Q : result unit → view → Prop) :
  Q (inl tt) v → b = true → wp (assert cond b) v Q.
Proof. intros ? ->. unfold assert. by destruct NDEBUG. Qed.

Lemma wp_perform_bind {X A} (c : call X) (k : X → prog A) v Q :
  ready c v → (∀ x v', call_spec c v x v' → wp (k x) v' Q) → wp (perform c ≫= k) v Q.
Proof. by split. Qed.

Lemma wp_assert_bind `{BuildConfig} {A} cond b (k : unit → prog A) v Q :
  b = true → wp (k tt) v Q → wp (assert cond b ≫= k) v Q.
Proof. intros ? Hk. by apply wp_bind, wp_assert. Qed.

(** In a release build assertions are skipped. *)
Lemma wp_assert_release `{BuildConfig} cond b v (Q : result unit → view → Prop) :
  NDEBUG = true → Q (inl tt) v → wp (assert cond b) v Q.
Proof. intros Hn ?. unfold assert. by rewrite Hn. Qed.

(** The loop rule: an invariant of the elements done, the local state and the view. *)
Lemma wp_for_each (F : fault → Prop) {E S} (Inv : list E → S → view → Prop) (l : list E)
    (body : E → S → prog S) s v :
  Inv [] s v →
  (∀ l1 x l2 s v, l = l1 ++ x :: l2 → Inv l1 s v →
     wp (body x s) v (post F (Inv (l1 ++ [x])))) →
  wp (for_each l body s) v (post F (Inv l)).
Proof.
  intros H0 Hbody.
  cut (∀ l2 l1 s v, l = l1 ++ l2 → Inv l1 s v → wp (for_each l2 body s) v (post F (Inv l))).
  { intros Hgen. by apply (Hgen l []). }
  clear s v H0. induction l2 as [|x l2 IH]; intros l1 s v -> HI; simpl.
  - by rewrite app_nil_r in *.
  - eapply wp_bind_post; [by eapply Hbody|].
    intros s' v' HI'. apply (IH (l1 ++ [x])); [by rewrite <- app_assoc|done].
Qed.

(** Soundness: on every runtime that meets the contract. *)
Theorem wp_run {A W} `{!Runtime W} `{!RuntimeSpec W} (p : prog A) (w : W) Q :
  wp p (view_of w) Q → ∃ r w', run p w = (r, w') ∧ Q r (view_of w').
Proof.
  revert w. induction p as [a|f|X c k IH]; intros w; simpl; [by eauto..|].
  intros [Hr Hk]. destruct (runtime_live c w Hr) as [[x w'] Hc].
  rewrite Hc. apply IH, Hk. by eapply runtime_ok.
Qed.
End hoare.

(** Skip the assertion at the head of the program, the build being a release build. *)
Ltac wp_release := apply wp_bind, wp_assert_release; [done|]; cbv beta iota.

(** Go through a call whose behaviour is an equation on its result and on the view. *)
Ltac wp_call := split; [done|]; intros ? ? [-> ->]; simpl.

(** Go past an assertion that holds. *)
Ltac wp_assert := apply wp_assert_bind; [by auto with conditions|].

(** Go past a call that always comes back. *)
Tactic Notation "wp_step" "as" simple_intropattern(x) simple_intropattern(v)
    simple_intropattern(H) :=
  apply wp_perform_bind; [done|]; intros x v H.
