(* ===== verification/ErrorHandler.v ===== *)
(** Class [ErrorHandler] (common/util/ErrorHandler.hpp): fatal errors and warnings on standard
    error, serialised by a spin lock. *)

From S2P Require Import Prelude Types Interface Contract Hoare.

Section error_handler.
Context `{BC : BuildConfig}.

(** [emitReasonParts]: stream the parts one after the other. *)
Fixpoint emitReasonParts (oss : list part) (reasonParts : list part) : list part :=
  match reasonParts with
  | [] => oss
  | firstReasonPart :: reasonParts => emitReasonParts (oss ++ [firstReasonPart]) reasonParts
  end.

(** The common first half of [fail] and [warn]: build the line and print it under the lock. *)
Definition emit (prefix : string) (reasonParts : list part) : prog unit :=
  let oss := emitReasonParts [PStr prefix] reasonParts ++ [endl] in
  perform (lock_acquire errorHandlerLock);;
  perform (eprint oss);;
  perform (lock_release errorHandlerLock).

Definition fail {A} (reasonParts : list part) : prog A :=
  emit "Error: " reasonParts;;
  if NDEBUG then Fault (Exited 1) else Fault Aborted.

Definition failIf (failure : bool) (reasonParts : list part) : prog unit :=
  if negb failure then Ret tt else fail reasonParts.

Definition warn (reasonParts : list part) : prog unit := emit "Warning: " reasonParts.

Definition warnIf (failure : bool) (reasonParts : list part) : prog unit :=
  if negb failure then Ret tt else warn reasonParts.

Lemma emitReasonParts_app oss parts : emitReasonParts oss parts = oss ++ parts.
Proof.
  revert oss. induction parts as [|p parts IH]; intros oss; simpl.
  - by rewrite app_nil_r.
  - by rewrite IH, <- app_assoc.
Qed.

(** How [fail] ends the process. *)
Definition fail_fault : fault := if NDEBUG then Exited 1 else Aborted.

Context `{GT : GaspiTypes}.

Definition line (prefix : string) (parts : list part) : list part := PStr prefix :: parts ++ [endl].

(** A message is one line on standard error, printed with the lock held. *)
Lemma wp_emit prefix parts v :
  errorHandlerLock ∉ v_held v →
  wp (emit prefix parts) v (returns (λ _ v',
    v' = set_err (v_err v ++ [line prefix parts]) v)).
Proof.
  intros Hl. unfold emit. rewrite emitReasonParts_app.
  split; [done|]. intros [] v1 [_ ->]. split; [done|]. intros [] v2 ->.
  split; [done|]. intros [] v3 ->. simpl. rewrite filter_cons_False by naive_solver.
  rewrite filter_all; [by destruct v|]. apply Forall_forall. by intros l ? ->.
Qed.

Lemma wp_fail {A} parts v (Q : result A → view → Prop) :
  errorHandlerLock ∉ v_held v →
  Q (inr fail_fault) (set_err (v_err v ++ [line "Error: " parts]) v) → wp (fail parts) v Q.
Proof.
  intros Hl HQ. eapply wp_bind_returns; [by apply wp_emit|]. intros _ v' ->.
  revert HQ. unfold fail_fault. by destruct NDEBUG.
Qed.
End error_handler.
