(* ===== verification/TaskingModel.v ===== *)
(** Classes [Symbol] (common/Symbol.hpp) and [TaskingModel] (common/TaskingModel.{hpp,cpp}): the
    dynamically loaded ALPI functions and what the library builds on them, polling instances
    included. *)

From S2P Require Import Prelude Types Interface Contract Sim Hoare ErrorHandler.

(** ** Symbols *)

(** [_symbol] tells whether the function pointer is set. *)
Record Symbol := mkSymbol { sym_name : string; _symbol : bool }.

Section symbol.
Context `{BC : BuildConfig}.

Definition Symbol_ctor (name : string) : Symbol := mkSymbol name false.

Definition load (s : Symbol) : prog Symbol :=
  if _symbol s then Ret s
  else
    found ← perform (dlsym (sym_name s));
    if found : bool then Ret (mkSymbol (sym_name s) true)
    else fail [PStr "Could not find symbol "; PStr (sym_name s)].

Definition hasSymbol (s : Symbol) : bool := _symbol s.

(** [operator()]: a call through the pointer. *)
Definition sym_call {X} (s : Symbol) (c : call X) : prog X :=
  assert "_symbol != nullptr" (_symbol s);;
  if _symbol s then perform c else Fault (NullCall (sym_name s)).
End symbol.

(** ** The tasking model *)

Record TaskingModel := mkTaskingModel {
  _alpi_error_string : Symbol;
  _alpi_version_check : Symbol;
  _alpi_version_get : Symbol;
  _alpi_task_self : Symbol;
  _alpi_task_events_increase : Symbol;
  _alpi_task_events_decrease : Symbol;
  _alpi_task_waitfor_ns : Symbol;
  _alpi_task_spawn : Symbol;
}.

(** The static initialisers of TaskingModel.cpp. *)
Definition TaskingModel_static : TaskingModel := {|
  _alpi_error_string := Symbol_ctor "alpi_error_string";
  _alpi_version_check := Symbol_ctor "alpi_version_check";
  _alpi_version_get := Symbol_ctor "alpi_version_get";
  _alpi_task_self := Symbol_ctor "alpi_task_self";
  _alpi_task_events_increase := Symbol_ctor "alpi_task_events_increase";
  _alpi_task_events_decrease := Symbol_ctor "alpi_task_events_decrease";
  _alpi_task_waitfor_ns := Symbol_ctor "alpi_task_waitfor_ns";
  _alpi_task_spawn := Symbol_ctor "alpi_task_spawn" |}.

Section tasking_model.
Context `{BC : BuildConfig}.

Definition getError (tm : TaskingModel) (error : Z) : prog string :=
  sym_call (_alpi_error_string tm) (alpi_error_string error).

(** [if (int err = ...) ErrorHandler::fail(what, getError(err))]. *)
Definition fail_if_error (tm : TaskingModel) (what : string) (err : Z) : prog unit :=
  if decide (err = 0)%Z then Ret tt
  else s ← getError tm err; fail [PStr what; PStr s].

(** [TaskingModel::initialize]. It loads every symbol but [_alpi_error_string]. *)
Definition TaskingModel_initialize (tm : TaskingModel) : prog TaskingModel :=
  version_check ← load (_alpi_version_check tm);
  version_get ← load (_alpi_version_get tm);
  task_self ← load (_alpi_task_self tm);
  task_spawn ← load (_alpi_task_spawn tm);
  task_waitfor_ns ← load (_alpi_task_waitfor_ns tm);
  task_events_increase ← load (_alpi_task_events_increase tm);
  task_events_decrease ← load (_alpi_task_events_decrease tm);
  let tm := mkTaskingModel (_alpi_error_string tm) version_check version_get task_self
              task_events_increase task_events_decrease task_waitfor_ns task_spawn in
  provided ← sym_call (_alpi_version_get tm) alpi_version_get;
  fail_if_error tm "Failed alpi_version_get: " (provided.1);;
  err ← sym_call (_alpi_version_check tm)
          (alpi_version_check ALPI_VERSION_MAJOR ALPI_VERSION_MINOR);
  (if decide (err = alpi_error_code ALPI_ERR_VERSION) then
     fail [PStr "Incompatible ALPI tasking interface versions:"; endl;
           PStr "	Expected: "; PInt ALPI_VERSION_MAJOR; PStr "."; PInt ALPI_VERSION_MINOR; endl;
           PStr "	Provided: "; PInt (provided.2.1); PStr "."; PInt (provided.2.2)]
   else fail_if_error tm "Failed alpi_version_check: " err);;
  Ret tm.

Definition getCurrentTask (tm : TaskingModel) : prog Z :=
  r ← sym_call (_alpi_task_self tm) alpi_task_self;
  fail_if_error tm "Failed alpi_task_self: " (r.1);;
  Ret (r.2).

Definition increaseCurrentTaskEvents (tm : TaskingModel) (task increment : Z) : prog unit :=
  err ← sym_call (_alpi_task_events_increase tm) (alpi_task_events_increase task increment);
  fail_if_error tm "Failed alpi_task_events_increase: " err.

Definition decreaseTaskEvents (tm : TaskingModel) (task decrement : Z) : prog unit :=
  err ← sym_call (_alpi_task_events_decrease tm) (alpi_task_events_decrease task decrement);
  fail_if_error tm "Failed alpi_task_events_decrease: " err.

(** [registerPolling]: the instance is the address [pi_new] gives. *)
Definition registerPolling (tm : TaskingModel) (name : string) (f : polling_function_t) :
    prog Z :=
  instance ← perform (pi_new name f);
  err ← sym_call (_alpi_task_spawn tm) (alpi_task_spawn instance name);
  fail_if_error tm "Failed alpi_task_spawn: " err;;
  Ret instance.

(** The loop of [unregisterPolling]. *)
Fixpoint wait_finished (fuel : nat) (tm : TaskingModel) (instance : Z) : prog unit :=
  match fuel with
  | O => Fault OutOfFuel
  | S fuel =>
      p ← perform (pi_load instance);
      if _finished p then Ret tt
      else
        err ← sym_call (_alpi_task_waitfor_ns tm) (alpi_task_waitfor_ns 1000000);
        fail_if_error tm "Failed alpi_task_waitfor_ns: " err;;
        wait_finished fuel tm instance
  end.

Definition unregisterPolling (fuel : nat) (tm : TaskingModel) (instance : Z) : prog unit :=
  perform (pi_set_mustFinish instance);;
  wait_finished fuel tm instance;;
  perform (pi_delete instance).

(** [genericPolling]: [function] is what calling [instance->_function] on its arguments does,
    on the state [s] the polling functions keep between calls; it returns the time to sleep in
    microseconds. *)
Fixpoint genericPolling {S} (fuel : nat) (tm : TaskingModel)
    (function : polling_function_t → S → prog (Z * S)) (instance : Z) (s : S) : prog S :=
  match fuel with
  | O => Fault OutOfFuel
  | Datatypes.S fuel =>
      p ← perform (pi_load instance);
      if _mustFinish p then Ret s
      else
        p ← perform (pi_load instance);
        r ← function (_function p) s;
        err ← sym_call (_alpi_task_waitfor_ns tm) (alpi_task_waitfor_ns (u64 (r.1 * 1000)));
        fail_if_error tm "Failed task_waitfor_ns: " err;;
        genericPolling fuel tm function instance (r.2)
  end.

Definition genericCompleted (instance : Z) : prog unit := perform (pi_set_finished instance).
End tasking_model.

(** ** Behaviour *)

Section tasking_model_specs.
Context `{BC : BuildConfig} `{GT : GaspiTypes}.

(** The symbols after [initialize]: all but [alpi_error_string] are there. *)
Record tm_loaded (tm : TaskingModel) : Prop := {
  tl_error_string : _alpi_error_string tm = Symbol_ctor "alpi_error_string";
  tl_version_check : _symbol (_alpi_version_check tm) = true;
  tl_version_get : _symbol (_alpi_version_get tm) = true;
  tl_task_self : _symbol (_alpi_task_self tm) = true;
  tl_increase : _symbol (_alpi_task_events_increase tm) = true;
  tl_decrease : _symbol (_alpi_task_events_decrease tm) = true;
  tl_waitfor_ns : _symbol (_alpi_task_waitfor_ns tm) = true;
  tl_spawn : _symbol (_alpi_task_spawn tm) = true;
}.

(** How an error of the tasking runtime ends the process: [getError] calls through the pointer
    that was never set. *)
Definition alpi_fault : fault :=
  if NDEBUG then NullCall "alpi_error_string" else AssertFailed "_symbol != nullptr".

(** How a function that may have to wait for others stops, other than by returning: GASPI or the
    tasking runtime failed, or the fuel of its loops was short. *)
Definition stops (short : Prop) (f : fault) : Prop :=
  f = Aborted ∨ f = alpi_fault ∨ f = OutOfFuel ∧ short.

Lemma stops_mono (P Q : Prop) f : (P → Q) → stops P f → stops Q f.
Proof. unfold stops. tauto. Qed.

Lemma stops_abort P f : f = Aborted → stops P f.
Proof. by left. Qed.

Lemma stops_alpi P f : f = alpi_fault → stops P f.
Proof. by right; left. Qed.

Lemma stops_poll P f : f = Aborted ∨ f = alpi_fault → stops P f.
Proof. unfold stops. tauto. Qed.

Lemma wp_sym_call {X} s (c : call X) v Q :
  _symbol s = true → wp (perform c) v Q → wp (sym_call s c) v Q.
Proof.
  intros Hs Hc. unfold sym_call. apply wp_bind, wp_assert; [|done]. by rewrite Hs.
Qed.

Lemma wp_fail_if_error tm what err v (P : unit → view → Prop) :
  tm_loaded tm → (err = 0%Z → P tt v) →
  wp (fail_if_error tm what err) v (post (λ f, f = alpi_fault) P).
Proof.
  intros Htm HP. unfold fail_if_error. case_decide; [by apply HP|].
  unfold getError, sym_call, alpi_fault, assert. rewrite tl_error_string by done.
  by destruct NDEBUG.
Qed.

Lemma wp_getCurrentTask tm v :
  tm_loaded tm →
  wp (getCurrentTask tm) v (post (λ f, f = alpi_fault) (λ t v', v' = v ∧ valid_task t)).
Proof.
  intros Htm. unfold getCurrentTask.
  eapply wp_bind_post; [apply wp_sym_call; [by apply Htm|by apply wp_perform]|].
  intros [e t] v1 [-> Ht]. eapply wp_bind_post;
    [by apply (wp_fail_if_error _ _ _ _ (λ _ v', v' = v ∧ e = 0%Z))|].
  intros _ ? [-> He]. split; [done|by apply Ht].
Qed.

Lemma wp_change_events tm s (c : call Z) what t (n : Z) v :
  tm_loaded tm → _symbol s = true → ready c v →
  (∀ e v', call_spec c v e v' → v' = if decide (e = 0%Z)
     then set_events (<[t := (events v t + n)%Z]> (v_events v)) v else v) →
  wp (err ← sym_call s c; fail_if_error tm what err) v
    (post (λ f, f = alpi_fault)
       (λ _ v', v' = set_events (<[t := (events v t + n)%Z]> (v_events v)) v)).
Proof.
  intros Htm Hs Hr Hc.
  eapply wp_bind_post; [apply wp_sym_call; [done|apply wp_perform; [done|exact Hc]]|].
  intros e v1 ->. apply wp_fail_if_error; [done|]. intros ->. by rewrite decide_True.
Qed.

Lemma wp_increase tm t n v :
  tm_loaded tm →
  wp (increaseCurrentTaskEvents tm t n) v (post (λ f, f = alpi_fault)
    (λ _ v', v' = set_events (<[t := (events v t + n)%Z]> (v_events v)) v)).
Proof. intros Htm. apply wp_change_events; [done|by apply Htm|done|done]. Qed.

Lemma wp_decrease tm t n v :
  tm_loaded tm →
  wp (decreaseTaskEvents tm t n) v (post (λ f, f = alpi_fault)
    (λ _ v', v' = set_events (<[t := (events v t - n)%Z]> (v_events v)) v)).
Proof.
  intros Htm. rewrite <- Z.add_opp_r.
  by apply wp_change_events; [|apply Htm| |].
Qed.

(** ** Initialisation *)

Definition loaded_symbols : list string :=
  ["alpi_version_check"; "alpi_version_get"; "alpi_task_self"; "alpi_task_spawn";
   "alpi_task_waitfor_ns"; "alpi_task_events_increase"; "alpi_task_events_decrease"].

Lemma wp_load_symbol s v :
  errorHandlerLock ∉ v_held v → _symbol s = false →
  wp (load s) v (λ r v', if h_symbol (v_host v) (sym_name s)
    then r = inl (mkSymbol (sym_name s) true) ∧ v' = v
    else r = inr fail_fault ∧ v' = set_err (v_err v ++
      [line "Error: " [PStr "Could not find symbol "; PStr (sym_name s)]]) v).
Proof.
  intros Hl Hs. unfold load. rewrite Hs. split; [done|]. intros found v1 [-> ->].
  destruct (h_symbol _ _); [done|]. by apply wp_fail.
Qed.

Lemma wp_load_found {A} s v (k : Symbol → prog A) Q :
  _symbol s = false → h_symbol (v_host v) (sym_name s) = true →
  wp (k (mkSymbol (sym_name s) true)) v Q → wp (load s ≫= k) v Q.
Proof.
  intros Hs Hh Hk. unfold load. rewrite Hs. split; [done|]. intros found v1 [-> ->].
  by rewrite Hh.
Qed.

Lemma wp_load_missing {A} s v (k : Symbol → prog A) Q :
  errorHandlerLock ∉ v_held v → _symbol s = false →
  h_symbol (v_host v) (sym_name s) = false →
  Q (inr fail_fault) (set_err (v_err v ++
    [line "Error: " [PStr "Could not find symbol "; PStr (sym_name s)]]) v) →
  wp (load s ≫= k) v Q.
Proof.
  intros Hl Hs Hh HQ. apply wp_bind. eapply wp_mono; [by apply wp_load_symbol|].
  rewrite Hh. by intros r v' [-> ->].
Qed.

Lemma wp_load_bind {A} (F : fault → Prop) s v (k : Symbol → prog A) P :
  errorHandlerLock ∉ v_held v → _symbol s = false → F fail_fault →
  (h_symbol (v_host v) (sym_name s) = true →
   wp (k (mkSymbol (sym_name s) true)) v (post F P)) →
  wp (load s ≫= k) v (post F P).
Proof.
  intros Hl Hs HF Hk. destruct (h_symbol (v_host v) (sym_name s)) eqn:Hh.
  - apply wp_load_found; [done..|by apply Hk].
  - by apply wp_load_missing.
Qed.

Lemma wp_TaskingModel_initialize v :
  errorHandlerLock ∉ v_held v →
  wp (TaskingModel_initialize TaskingModel_static) v
    (post (λ f, f = alpi_fault ∨ f = fail_fault)
       (λ tm v', tm_loaded tm ∧ v' = v ∧
          Forall (λ s, h_symbol (v_host v) s = true) loaded_symbols)).
Proof.
  intros Hl. unfold TaskingModel_initialize.
  do 7 (apply wp_load_bind; [done|done|by right|intros ?; simpl sym_name in *]).
  cbv zeta. set (tm := mkTaskingModel _ _ _ _ _ _ _ _).
  assert (tm_loaded tm) as Htm by by split.
  assert (∀ what err, wp (fail_if_error tm what err) v
    (post (λ f, f = alpi_fault ∨ f = fail_fault) (λ _ v', v' = v))) as Hfail.
  { intros what err. eapply wp_post_mono;
      [by apply (wp_fail_if_error _ _ _ _ (λ _ v', v' = v))|by left|done]. }
  eapply wp_bind_post; [apply wp_sym_call; [done|by apply wp_perform]|].
  intros [e [major minor]] v1 ->. eapply wp_bind_post; [apply Hfail|].
  intros _ v1 ->. eapply wp_bind_post; [apply wp_sym_call; [done|by apply wp_perform]|].
  intros err v1 ->. eapply (wp_bind_post _ _ _ _ (λ _ v', v' = v)).
  - case_decide; [apply wp_fail; [done|by right]|apply Hfail].
  - intros _ ? ->. simpl. split; [done|]. split; [done|]. by repeat constructor.
Qed.

(** [initialize] returns with every symbol loaded but [alpi_error_string]; otherwise it has
    exited (a symbol is missing, or the version is incompatible) or an ALPI call has failed. *)
Theorem TaskingModel_initialize_spec {W} `{!Runtime W} `{!RuntimeSpec W} (w : W) :
  errorHandlerLock ∉ v_held (view_of w) →
  ∃ r w', run (TaskingModel_initialize TaskingModel_static) w = (r, w') ∧
    post (λ f, f = alpi_fault ∨ f = fail_fault)
      (λ tm v', tm_loaded tm ∧ v' = view_of w ∧
         Forall (λ s, h_symbol (v_host (view_of w)) s = true) loaded_symbols) r (view_of w').
Proof. intros Hl. by apply wp_run, wp_TaskingModel_initialize. Qed.

(** The process exits at the first symbol that is missing, naming it. *)
Theorem TaskingModel_missing_symbol {W} `{!Runtime W} `{!RuntimeSpec W} (w : W) before s after :
  let v := view_of w in
  errorHandlerLock ∉ v_held v → loaded_symbols = before ++ s :: after →
  Forall (λ s, h_symbol (v_host v) s = true) before → h_symbol (v_host v) s = false →
  ∃ w', run (TaskingModel_initialize TaskingModel_static) w = (inr fail_fault, w') ∧
    view_of w' = set_err (v_err v ++
      [line "Error: " [PStr "Could not find symbol "; PStr s]]) v.
Proof.
  cbv zeta. intros Hl Hsplit Hb Hs.
  edestruct (wp_run (TaskingModel_initialize TaskingModel_static) w
    (λ r v', r = inr fail_fault ∧ v' = set_err (v_err (view_of w) ++
      [line "Error: " [PStr "Could not find symbol "; PStr s]]) (view_of w)))
    as (r&w'&Hr&->&Hv); [|by exists w'].
  revert Hl Hb Hs. generalize (view_of w) as v. intros v Hl Hb Hs.
  unfold TaskingModel_initialize.
  do 7 (destruct before as [|? before];
    [injection Hsplit as <- _; by apply wp_load_missing|];
    injection Hsplit as <- Hsplit; apply Forall_cons in Hb as [? Hb];
    apply wp_load_found; [done..|]; simpl sym_name).
  by destruct before.
Qed.

(** C35. After [initialize], a failing [alpi_task_events_decrease] is not reported by
    [decreaseTaskEvents]: looking up the error string calls through a null pointer (in a build
    with assertions, it fails one). *)
Theorem alpi_errors_not_reported {W} `{!Runtime W} `{!RuntimeSpec W} (w w1 w2 : W) tm t n e :
  errorHandlerLock ∉ v_held (view_of w) →
  run (TaskingModel_initialize TaskingModel_static) w = (inl tm, w1) →
  do_call (alpi_task_events_decrease t n) w1 = Some (e, w2) → e ≠ 0%Z →
  run (decreaseTaskEvents tm t n) w1 = (inr alpi_fault, w2).
Proof.
  intros Hl Hrun Hc He. assert (tm_loaded tm) as Htm.
  { edestruct (wp_run (TaskingModel_initialize TaskingModel_static) w) as (r&w'&Hr&HQ);
      [by apply wp_TaskingModel_initialize|]. rewrite Hrun in Hr. simplify_eq. apply HQ. }
  unfold decreaseTaskEvents, sym_call, fail_if_error, getError, sym_call, alpi_fault, assert.
  rewrite tl_decrease, tl_error_string by done.
  destruct NDEBUG; simpl; rewrite Hc; by rewrite decide_False.
Qed.
End tasking_model_specs.

#[export] Hint Resolve stops_abort stops_alpi stops_poll : faults.

(** ** Examples *)

Section tasking_model_examples.
#[local] Existing Instance sim_types.
#[local] Existing Instance release_build.

(** The tasking model after [initialize]. *)
Definition sim_tm : TaskingModel := mkTaskingModel
  (mkSymbol "alpi_error_string" false) (mkSymbol "alpi_version_check" true)
  (mkSymbol "alpi_version_get" true) (mkSymbol "alpi_task_self" true)
  (mkSymbol "alpi_task_events_increase" true) (mkSymbol "alpi_task_events_decrease" true)
  (mkSymbol "alpi_task_waitfor_ns" true) (mkSymbol "alpi_task_spawn" true).

Lemma sim_tm_loaded : tm_loaded sim_tm.
Proof. by split. Qed.

Example sim_initialize :
  run (TaskingModel_initialize TaskingModel_static) sim0 = (inl sim_tm, sim0).
Proof. by vm_compute. Qed.

Lemma TaskingModel_initialize_spec_witness :
  ∃ r w', run (TaskingModel_initialize TaskingModel_static) sim0 = (r, w') ∧
    post (λ f, f = alpi_fault ∨ f = fail_fault)
      (λ tm v', tm_loaded tm ∧ v' = view_of sim0 ∧
         Forall (λ s, h_symbol (v_host (view_of sim0)) s = true) loaded_symbols) r (view_of w').
Proof. apply (TaskingModel_initialize_spec sim0). by apply not_elem_of_nil. Defined.

(** A tasking runtime without timed waits. *)
Definition sim_old : Sim :=
  mkSim (view0 (Host 0 1 (λ _, true) (λ _, 0%Z) (λ _, None)
    (λ s, negb (String.eqb s "alpi_task_waitfor_ns")) 1 1)) 77 GASPI_SUCCESS 0 1.

Lemma TaskingModel_missing_symbol_witness :
  ∃ w', run (TaskingModel_initialize TaskingModel_static) sim_old = (inr (Exited 1), w') ∧
    v_err (view_of w') = [line "Error: " [PStr "Could not find symbol ";
                                          PStr "alpi_task_waitfor_ns"]].
Proof.
  destruct (TaskingModel_missing_symbol sim_old
    ["alpi_version_check"; "alpi_version_get"; "alpi_task_self"; "alpi_task_spawn"]
    "alpi_task_waitfor_ns" ["alpi_task_events_increase"; "alpi_task_events_decrease"])
    as (w'&Hr&Hv); [by apply not_elem_of_nil|done|by repeat constructor|done|].
  exists w'. split; [exact Hr|]. by rewrite Hv.
Defined.

Lemma alpi_errors_not_reported_witness :
  ∃ w1, run (decreaseTaskEvents sim_tm 77 1) w1 =
    (inr (NullCall "alpi_error_string"), w1).
Proof.
  pose (w := mkSim (view0 sim_host) 77 GASPI_SUCCESS 4 5). exists w.
  exact (alpi_errors_not_reported w w w sim_tm 77 1 4 (not_elem_of_nil _) eq_refl eq_refl
    ltac:(done)).
Defined.
End tasking_model_examples.
