(* ===== verification/EnvVar.v ===== *)
(** Class [EnvironmentVariable<uint64_t>] (common/util/EnvironmentVariable.hpp), on a model of the
    formatted extraction of an unsigned integer in the C++ standard library. *)

From S2P Require Import Prelude Types Interface Contract Hoare.
Open Scope Z_scope.

(** ** [std::istringstream >> uint64_t] in the C locale, decimal *)

Definition isspace (c : ascii) : bool :=
  let n := N_of_ascii c in bool_decide ((9 ≤ n ≤ 13)%N ∨ n = 32%N).

Definition digit_of (c : ascii) : option Z :=
  let n := N_of_ascii c in
  if decide (48 ≤ n ≤ 57)%N then Some (Z.of_N n - 48) else None.

(** The sentry of the extraction skips white space. *)
Fixpoint skip_ws (s : string) : string :=
  match s with
  | String c s' => if isspace c then skip_ws s' else s
  | EmptyString => s
  end.

(** An optional sign, which unsigned conversions accept too. *)
Definition read_sign (s : string) : bool * string :=
  match s with
  | String c s' =>
      if decide (c = "-"%char) then (true, s')
      else if decide (c = "+"%char) then (false, s') else (false, s)
  | EmptyString => (false, s)
  end.

(** Accumulate digits up to the first other character; [None] while there is none. *)
Fixpoint scan (acc : option Z) (s : string) : option Z :=
  match s with
  | String c s' =>
      match digit_of c with
      | Some d => scan (Some (default 0 acc * 10 + d)) s'
      | None => acc
      end
  | EmptyString => acc
  end.

(** [None] is a stream with [failbit] set: no digits, or a magnitude that does not fit. *)
Definition extract_u64 (s : string) : option Z :=
  let '(neg, s) := read_sign (skip_ws s) in
  v ← scan None s;
  if decide (2 ^ 64 ≤ v) then None
  else Some (if neg : bool then u64 (- v) else v).

(** ** The class *)

Record EnvironmentVariable := mkEnvironmentVariable {
  ev_value : Z;
  ev_isPresent : bool;
  ev_name : string;
}.

Definition EnvironmentVariable_ctor (name : string) (defaultValue : Z) :
    prog EnvironmentVariable :=
  valueString ← perform (getenv name);
  match valueString with
  | Some s =>
      match extract_u64 s with
      | Some assignedValue => Ret (mkEnvironmentVariable assignedValue true name)
      | None =>
          perform (eprint [PStr "Warning: invalid value for environment variable "; PStr name;
                           PStr ". Defaulting to "; PInt defaultValue; PStr "."; endl]);;
          Ret (mkEnvironmentVariable defaultValue false name)
      end
  | None => Ret (mkEnvironmentVariable defaultValue false name)
  end.

Definition isPresent (e : EnvironmentVariable) : bool := ev_isPresent e.
Definition getValue (e : EnvironmentVariable) : Z := ev_value e.

Definition setValue (value : Z) (makePresent : bool) (e : EnvironmentVariable) :
    EnvironmentVariable :=
  mkEnvironmentVariable value (ev_isPresent e || makePresent) (ev_name e).

(** ** Lemmas *)

Lemma scan_range acc s v :
  (∀ a, acc = Some a → 0 ≤ a) → scan acc s = Some v → 0 ≤ v.
Proof.
  revert acc. induction s as [|c s IH]; intros acc Hacc; simpl; [by apply Hacc|].
  destruct (digit_of c) as [d|] eqn:Hd; [|by apply Hacc].
  apply IH. intros a [= <-]. unfold digit_of in Hd. case_decide; simplify_eq.
  destruct acc as [a|]; simpl; [specialize (Hacc a eq_refl)|]; lia.
Qed.

Lemma digit_of_pretty x : (x < 10)%N → digit_of (pretty_N_char x) = Some (Z.of_N x).
Proof.
  intros Hx. assert (x ∈ (N.of_nat <$> seq 0 10)) as Hin.
  { apply list_elem_of_fmap. exists (N.to_nat x). split; [lia|]. apply elem_of_seq. lia. }
  repeat (apply elem_of_cons in Hin as [->|Hin]; [done|]). by apply not_elem_of_nil in Hin.
Qed.

(** Printing and scanning are inverse digit by digit. *)
Lemma scan_pretty_go x s :
  (0 < x)%N → scan None (pretty_N_go x s) = scan (Some (Z.of_N x)) s.
Proof.
  revert s. induction (N.lt_wf_0 x) as [x _ IH]; intros s Hx.
  rewrite pretty_N_go_step by done.
  assert (x `mod` 10 < 10)%N by (apply N.mod_lt; lia).
  pose proof (N.div_mod' x 10).
  destruct (decide (x `div` 10 = 0)%N) as [E|E].
  - rewrite E, pretty_N_go_0. simpl. rewrite digit_of_pretty by done. simpl. do 2 f_equal. lia.
  - rewrite IH by (try apply N.div_lt; lia). simpl. rewrite digit_of_pretty by done.
    simpl. do 2 f_equal. lia.
Qed.

Lemma pretty_N_go_app x s1 s2 : pretty_N_go x s1 +:+ s2 = pretty_N_go x (s1 +:+ s2).
Proof.
  revert s1. induction (N.lt_wf_0 x) as [x _ IH]; intros s1.
  destruct (decide (x = 0)%N) as [->|]; [done|].
  rewrite (pretty_N_go_step x s1), (pretty_N_go_step x (s1 +:+ s2)) by lia.
  apply IH, N.div_lt; lia.
Qed.

Lemma scan_pretty n s : scan None (pretty n +:+ s) = scan (Some (Z.of_N n)) s.
Proof.
  unfold pretty, pretty_N. case_decide as Hn; [by subst n|].
  rewrite pretty_N_go_app, scan_pretty_go by lia. done.
Qed.

(** A string that starts with a digit has neither white space nor a sign to skip. *)
Lemma scan_Some_head s v :
  scan None s = Some v → skip_ws s = s ∧ read_sign s = (false, s).
Proof.
  destruct s as [|c s]; [done|]. simpl. unfold digit_of, isspace.
  case_decide as Hc; [|done]. intros _. split.
  - by rewrite bool_decide_false by lia.
  - do 2 (case_decide; [subst c; simpl in Hc; lia|]). done.
Qed.

Lemma skip_ws_app ws s : skip_ws ws = "" → skip_ws (ws +:+ s) = skip_ws s.
Proof. induction ws as [|c ws IH]; simpl; [done|]. by destruct (isspace c). Qed.

(** What follows a number and is not part of it. *)
Definition no_digit_first (s : string) : Prop :=
  match s with String c _ => digit_of c = None | EmptyString => True end.

Lemma scan_stop acc s : no_digit_first s → scan acc s = acc.
Proof. destruct s; simpl; [done|]. by intros ->. Qed.

Lemma scan_number n rest : no_digit_first rest → scan None (pretty n +:+ rest) = Some (Z.of_N n).
Proof. intros ?. by rewrite scan_pretty, scan_stop. Qed.

Lemma extract_unsigned ws t v :
  skip_ws ws = "" → scan None t = Some v →
  extract_u64 (ws +:+ t) = if decide (2 ^ 64 ≤ v) then None else Some v.
Proof.
  intros Hws Hs. unfold extract_u64. rewrite skip_ws_app by done.
  destruct (scan_Some_head _ _ Hs) as [-> ->]. by rewrite Hs.
Qed.

Lemma extract_negated ws t v :
  skip_ws ws = "" → scan None t = Some v →
  extract_u64 (ws +:+ String "-" t) = if decide (2 ^ 64 ≤ v) then None else Some (u64 (- v)).
Proof.
  intros Hws Hs. unfold extract_u64. rewrite skip_ws_app by done.
  change (read_sign (skip_ws (String "-" t))) with (true, t). cbv beta iota. by rewrite Hs.
Qed.

(** ** Properties *)

(** The extraction, as a check of its model: a decimal number below 2^64, after white space and
    followed by anything but a digit, is read back exactly; with a minus sign its two's complement
    is read; from 2^64 on both fail. *)
Lemma extract_pretty ws n rest :
  skip_ws ws = "" → no_digit_first rest →
  extract_u64 (ws +:+ pretty n +:+ rest) =
    (if decide (2 ^ 64 ≤ Z.of_N n) then None else Some (Z.of_N n)) ∧
  extract_u64 (ws +:+ "-" +:+ pretty n +:+ rest) =
    (if decide (2 ^ 64 ≤ Z.of_N n) then None else Some (u64 (- Z.of_N n))).
Proof.
  intros Hws Hr%(scan_number n). split.
  - by apply extract_unsigned.
  - by apply (extract_negated ws (pretty n +:+ rest)).
Qed.

Example extract_examples : extract_u64 " 100us" = Some 100 ∧ extract_u64 " -1us" = Some (2 ^ 64 - 1).
Proof. by vm_compute. Qed.

(** Whatever the string, an extracted value fits in 64 bits. *)
Lemma extract_u64_range s v : extract_u64 s = Some v → 0 ≤ v < 2 ^ 64.
Proof.
  unfold extract_u64. destruct (read_sign _) as [neg t].
  rewrite bind_Some. intros (x&Hx&Hv). case_decide; simplify_eq.
  apply scan_range in Hx; [|done]. destruct neg.
  - by apply wrap_range.
  - lia.
Qed.

Section ctor.
Context `{GT : GaspiTypes}.

(** The object that the constructor builds, as a function of the process environment. *)
Definition ev_spec (h : host) (name : string) (d : Z) : EnvironmentVariable :=
  match h_getenv h name ≫= extract_u64 with
  | Some v => mkEnvironmentVariable v true name
  | None => mkEnvironmentVariable d false name
  end.

(** The warning it prints, if any. *)
Definition ev_warning (h : host) (name : string) (d : Z) : list (list part) :=
  match h_getenv h name with
  | Some s => if extract_u64 s is Some _ then [] else
      [[PStr "Warning: invalid value for environment variable "; PStr name;
        PStr ". Defaulting to "; PInt d; PStr "."; endl]]
  | None => []
  end.

Lemma set_err_nil v : set_err (v_err v ++ []) v = v.
Proof. rewrite app_nil_r. by destruct v. Qed.

Lemma wp_EnvironmentVariable name d v :
  wp (EnvironmentVariable_ctor name d) v (returns (λ e v',
    e = ev_spec (v_host v) name d ∧
    v' = set_err (v_err v ++ ev_warning (v_host v) name d) v)).
Proof.
  unfold EnvironmentVariable_ctor, ev_spec, ev_warning. split; [done|]. simpl.
  intros o v' [-> ->]. destruct (h_getenv _ _) as [s|]; simpl; [|by rewrite set_err_nil].
  destruct (extract_u64 s) as [x|]; simpl; [by rewrite set_err_nil|].
  split; [done|]. by intros [] v' ->.
Qed.

(** C29. The constructor always returns. A variable that is set to a readable value is present with
    that value, which fits in 64 bits; one that is absent, or set to something that cannot be
    read (which prints a warning), is not present and has the default. *)
Theorem EnvironmentVariable_ctor_spec {W} `{!Runtime W} `{!RuntimeSpec W} name d (w : W) :
  ∃ e w', run (EnvironmentVariable_ctor name d) w = (inl e, w') ∧
    match h_getenv (v_host (view_of w)) name with
    | Some s =>
        match extract_u64 s with
        | Some x => isPresent e = true ∧ getValue e = x ∧ 0 ≤ x < 2 ^ 64 ∧
                    view_of w' = view_of w
        | None => isPresent e = false ∧ getValue e = d ∧
                  length (v_err (view_of w')) = S (length (v_err (view_of w)))
        end
    | None => isPresent e = false ∧ getValue e = d ∧ view_of w' = view_of w
    end.
Proof.
  destruct (wp_run (EnvironmentVariable_ctor name d) w _
              (wp_EnvironmentVariable name d (view_of w))) as ([e|f]&w'&Hr&Hp); [|done].
  destruct Hp as [-> Hv]. eexists _, w'. split; [done|]. rewrite Hv.
  unfold ev_spec, ev_warning. destruct (h_getenv _ _) as [s|]; simpl; [|by rewrite set_err_nil].
  destruct (extract_u64 s) as [x|] eqn:Hx; simpl.
  - apply extract_u64_range in Hx. by rewrite set_err_nil.
  - rewrite length_app. simpl. split_and!; [done..|lia].
Qed.
End ctor.
