(* ===== verification/HardwareInfo.v ===== *)
(** Class [HardwareInfo] (common/HardwareInfo.hpp): the CPUs and NUMA nodes available to the
    process. *)

From S2P Require Import Prelude Types Interface Contract Sim Hoare.
Open Scope Z_scope.

(** The static members. *)
Record HardwareInfo := mkHardwareInfo {
  _cpuToNUMANode : list Z;
  _numaNodeAvailability : list bool;
  _numAvailableNUMANodes : Z;
}.

(** Zero-initialised before [initialize] runs. *)
Definition HardwareInfo_static : HardwareInfo := mkHardwareInfo [] [] 0.

(** Conversion of a [size_t] to [int]. *)
Definition to_int (x : Z) : Z := let y := wrap 32 x in if y <? 2 ^ 31 then y else y - 2 ^ 32.

(** The local variables of [initialize] with the members it fills. *)
Record hw_scan := mkScan {
  hs_cpuToNUMANode : list Z;
  hs_availability : list bool;
  hs_numAvailable : Z;
  maxAvailableCPU : Z;
  maxAvailableNUMA : Z;
  numAvailableCPUs : Z;
}.

Section hardware_info.
Context `{BC : BuildConfig}.

(** The body of the loop over the possible CPUs. *)
Definition scan_cpu (maxNUMAs : Z) (c : Z) (st : hw_scan) : prog hw_scan :=
  isset ← perform (numa_bitmask_isbitset c);
  if isset : bool then
    node ← perform (numa_node_of_cpu c);
    let numa := u64 node in
    assert "numa < maxNUMAs" (numa <? maxNUMAs);;
    cpuToNUMANode ← vec_set (hs_cpuToNUMANode st) c (to_int numa);
    available ← vec_get (hs_availability st) numa;
    availability ← (if available : bool then Ret (hs_availability st)
                    else vec_set (hs_availability st) numa true);
    Ret {| hs_cpuToNUMANode := cpuToNUMANode;
           hs_availability := availability;
           hs_numAvailable := if available : bool then hs_numAvailable st
                              else hs_numAvailable st + 1;
           maxAvailableCPU := c;
           maxAvailableNUMA := if maxAvailableNUMA st <? numa then numa
                               else maxAvailableNUMA st;
           numAvailableCPUs := if NDEBUG then numAvailableCPUs st
                               else numAvailableCPUs st + 1 |}
  else Ret st.

(** [initialize]. The vectors are resized, not cleared: their previous contents stay. *)
Definition HardwareInfo_initialize (hw : HardwareInfo) : prog HardwareInfo :=
  assert "_cpuToNUMANode.empty()" (bool_decide (_cpuToNUMANode hw = []));;
  assert "_numaNodeAvailability.empty()" (bool_decide (_numaNodeAvailability hw = []));;
  max_node ← perform numa_max_node;
  let maxNUMAs := u64 (max_node + 1) in
  possible ← perform numa_num_possible_cpus;
  let maxCPUs := u64 possible in
  st ← for_each (seqZ 0 maxCPUs) (scan_cpu maxNUMAs)
         {| hs_cpuToNUMANode := resize (Z.to_nat maxCPUs) (-1) (_cpuToNUMANode hw);
            hs_availability := resize (Z.to_nat maxNUMAs) false (_numaNodeAvailability hw);
            hs_numAvailable := 0;
            maxAvailableCPU := 0; maxAvailableNUMA := 0; numAvailableCPUs := 0 |};
  assert "_numAvailableNUMANodes > 0" (0 <? hs_numAvailable st);;
  assert "maxAvailableCPU < maxCPUs" (maxAvailableCPU st <? maxCPUs);;
  assert "numAvailableCPUs < maxCPUs" (numAvailableCPUs st <? maxCPUs);;
  (if NDEBUG then Ret tt
   else n ← perform numa_num_task_cpus;
        assert "numAvailableCPUs == numa_num_task_cpus()" (numAvailableCPUs st =? u64 n));;
  assert "maxAvailableNUMA < maxNUMAs" (maxAvailableNUMA st <? maxNUMAs);;
  Ret {| _cpuToNUMANode := resize (Z.to_nat (maxAvailableCPU st + 1)) 0 (hs_cpuToNUMANode st);
         _numaNodeAvailability :=
           resize (Z.to_nat (maxAvailableNUMA st + 1)) false (hs_availability st);
         _numAvailableNUMANodes := hs_numAvailable st |}.

(** [finalize] has an empty body. *)
Definition HardwareInfo_finalize (hw : HardwareInfo) : prog HardwareInfo := Ret hw.

Definition getMaxCPUs (hw : HardwareInfo) : Z := Z.of_nat (length (_cpuToNUMANode hw)).
Definition getMaxNUMANodes (hw : HardwareInfo) : Z :=
  Z.of_nat (length (_numaNodeAvailability hw)).
Definition getNumAvailableNUMANodes (hw : HardwareInfo) : Z := _numAvailableNUMANodes hw.

Definition getCPUToNUMANode (hw : HardwareInfo) : list Z := _cpuToNUMANode hw.
Definition getNUMANodeAvailability (hw : HardwareInfo) : list bool := _numaNodeAvailability hw.

(** The [int] of libnuma is returned as a [size_t]. *)
Definition getNumAvailableCPUs : prog Z := n ← perform numa_num_task_cpus; Ret (u64 n).

Definition getCurrentCPU (hw : HardwareInfo) : prog Z :=
  cpu ← perform sched_getcpu;
  let currentCPU := u64 cpu in
  assert "currentCPU < getMaxCPUs()" (currentCPU <? getMaxCPUs hw);;
  Ret currentCPU.
End hardware_info.

(** ** What [initialize] computes *)

(** The machine reports its nodes consistently. *)
Definition host_ok (h : host) : Prop :=
  0 ≤ h_max_node h < 2 ^ 31 - 1 ∧ 0 ≤ h_possible_cpus h < 2 ^ 31 ∧
  ∀ c, 0 ≤ c < h_possible_cpus h → h_available h c = true →
       0 ≤ h_node_of_cpu h c ≤ h_max_node h.

(** CPU [c] is one of the CPUs in [l] the process may use. *)
Definition usable (h : host) (l : list Z) (c : Z) : Prop := c ∈ l ∧ h_available h c = true.

(** What the queue groups rely on: the CPUs that are not mapped to -1 are mapped to available
    nodes, and the available nodes were counted right. *)
Record hw_wf (hw : HardwareInfo) : Prop := {
  hw_cpu_node i n : _cpuToNUMANode hw !! i = Some n → n ≠ -1 →
    0 ≤ n ∧ _numaNodeAvailability hw !! Z.to_nat n = Some true;
  hw_count : _numAvailableNUMANodes hw = count_true (_numaNodeAvailability hw);
  hw_pos : 0 < _numAvailableNUMANodes hw;
  hw_small : getMaxNUMANodes hw < 2 ^ 31;
}.

(** [hw] describes machine [h]: every available CPU is mapped to its node and the others to -1,
    and the nodes marked available are those of the available CPUs. *)
Record describes (h : host) (hw : HardwareInfo) : Prop := {
  desc_cpu c : 0 ≤ c < h_possible_cpus h → h_available h c = true →
    _cpuToNUMANode hw !! Z.to_nat c = Some (h_node_of_cpu h c);
  desc_entry (i : nat) n : _cpuToNUMANode hw !! i = Some n →
    n = if h_available h (Z.of_nat i) then h_node_of_cpu h (Z.of_nat i) else -1;
  desc_node (n : nat) : _numaNodeAvailability hw !! n = Some true ↔
    ∃ c, 0 ≤ c < h_possible_cpus h ∧ h_available h c = true ∧ h_node_of_cpu h c = Z.of_nat n;
}.

Lemma to_int_small x : 0 ≤ x < 2 ^ 31 → to_int x = x.
Proof.
  intros Hx. unfold to_int. rewrite wrap_small by lia.
  by rewrite (proj2 (Z.ltb_lt _ _)) by lia.
Qed.

Section scan.
Context `{BC : BuildConfig} `{GT : GaspiTypes} (v0 : view) (C0 : list Z) (A0 : list bool).
Abbreviation h := (v_host v0).
Hypothesis Hhost : host_ok h.
Hypothesis HC0 : Z.of_nat (length C0) = h_possible_cpus h.
Hypothesis HA0 : Z.of_nat (length A0) = h_max_node h + 1.

Record scan_inv (l : list Z) (st : hw_scan) (v : view) : Prop := {
  si_view : v = v0;
  si_lenC : length (hs_cpuToNUMANode st) = length C0;
  si_C (i : nat) : usable h l (Z.of_nat i) →
    hs_cpuToNUMANode st !! i = Some (h_node_of_cpu h (Z.of_nat i));
  si_C' (i : nat) : ¬ usable h l (Z.of_nat i) → hs_cpuToNUMANode st !! i = C0 !! i;
  si_lenA : length (hs_availability st) = length A0;
  si_A (n : nat) : hs_availability st !! n = Some true ↔
    A0 !! n = Some true ∨ ∃ c, usable h l c ∧ h_node_of_cpu h c = Z.of_nat n;
  si_num : hs_numAvailable st = count_true (hs_availability st) - count_true A0;
  si_maxC c : usable h l c → c ≤ maxAvailableCPU st;
  si_maxC_in : maxAvailableCPU st = 0 ∨ usable h l (maxAvailableCPU st);
  si_maxN c : usable h l c → h_node_of_cpu h c ≤ maxAvailableNUMA st;
  si_maxN_in : maxAvailableNUMA st = 0 ∨
    ∃ c, usable h l c ∧ h_node_of_cpu h c = maxAvailableNUMA st;
  si_cpus : numAvailableCPUs st =
    if NDEBUG then 0 else Z.of_nat (length (filter (λ c, h_available h c = true) l));
}.

Lemma usable_app l x c : usable h (l ++ [x]) c ↔ usable h l c ∨ (c = x ∧ h_available h x = true).
Proof. unfold usable. rewrite elem_of_app, list_elem_of_singleton. naive_solver. Qed.

(** One iteration on a CPU that is not available changes nothing. *)
Lemma scan_inv_skip l c st v :
  h_available h c = false → scan_inv l st v → scan_inv (l ++ [c]) st v.
Proof.
  intros Hc [].
  assert (∀ c', usable h (l ++ [c]) c' ↔ usable h l c') as Hu.
  { intros c'. rewrite usable_app. naive_solver congruence. }
  split; try done; try (setoid_rewrite Hu; done).
  rewrite filter_app, filter_singleton_False, app_nil_r by congruence. done.
Qed.

(** The flags after node [n] is recorded as available. *)
Definition mark (A : list bool) (n : Z) : list bool :=
  if decide (A !! Z.to_nat n = Some true) then A else <[Z.to_nat n := true]> A.

Lemma mark_lookup A n (i : nat) :
  0 ≤ n < Z.of_nat (length A) →
  mark A n !! i = Some true ↔ A !! i = Some true ∨ n = Z.of_nat i.
Proof.
  intros Hn. unfold mark. case_decide as Ha.
  - split; [by left|]. intros [?| ->]; [done|]. by rewrite Nat2Z.id in Ha.
  - destruct (decide (i = Z.to_nat n)) as [->|Hi].
    + rewrite list_lookup_insert_eq by lia. split; [right; lia|done].
    + rewrite list_lookup_insert_ne by done. split; [by left|]. intros [?| ->]; [done|lia].
Qed.

Lemma mark_length A n : length (mark A n) = length A.
Proof. unfold mark. case_decide; [done|]. apply length_insert. Qed.

(** One iteration on an available CPU. *)
Lemma scan_inv_step l (c : Z) st v num :
  0 ≤ c < h_possible_cpus h → h_available h c = true → (∀ c', c' ∈ l → c' < c) →
  scan_inv l st v →
  num = count_true (mark (hs_availability st) (h_node_of_cpu h c)) - count_true A0 →
  scan_inv (l ++ [c])
    {| hs_cpuToNUMANode := <[Z.to_nat c := h_node_of_cpu h c]> (hs_cpuToNUMANode st);
       hs_availability := mark (hs_availability st) (h_node_of_cpu h c);
       hs_numAvailable := num;
       maxAvailableCPU := c;
       maxAvailableNUMA := if maxAvailableNUMA st <? h_node_of_cpu h c
                           then h_node_of_cpu h c else maxAvailableNUMA st;
       numAvailableCPUs := if NDEBUG then numAvailableCPUs st
                           else numAvailableCPUs st + 1 |} v.
Proof.
  intros Hc Hav Hlt [] ->. destruct Hhost as (Hmax&_&Hnode). specialize (Hnode c Hc Hav).
  split; simpl; try done.
  - by rewrite length_insert.
  - intros i [Hi|[Hi _]]%usable_app.
    + rewrite list_lookup_insert_ne; [by apply si_C0|].
      destruct Hi as [Hi _]. specialize (Hlt _ Hi). lia.
    + subst c. rewrite Nat2Z.id. apply list_lookup_insert_eq. lia.
  - intros i Hi. rewrite list_lookup_insert_ne.
    + apply si_C'0. intros Hu. apply Hi, usable_app. by left.
    + intros <-. apply Hi, usable_app. right. by rewrite Z2Nat.id by lia.
  - by rewrite mark_length.
  - intros n. rewrite mark_lookup by lia. rewrite si_A0. setoid_rewrite usable_app.
    naive_solver.
  - intros c' [[Hc' _]|[-> _]]%usable_app; [|done]. specialize (Hlt _ Hc'). lia.
  - right. apply usable_app. by right.
  - intros c' [Hc'|[-> _]]%usable_app; [specialize (si_maxN0 _ Hc')|];
      destruct (Z.ltb_spec (maxAvailableNUMA st) (h_node_of_cpu h c)); lia.
  - destruct (Z.ltb_spec (maxAvailableNUMA st) (h_node_of_cpu h c)).
    + right. exists c. split; [|done]. apply usable_app. by right.
    + destruct si_maxN_in0 as [?|(c'&?&?)]; [by left|]. right. exists c'.
      split; [|done]. apply usable_app. by left.
  - rewrite si_cpus0, filter_app, filter_singleton_True by done.
    rewrite length_app. simpl. destruct NDEBUG; lia.
Qed.

Lemma wp_scan_cpu l c st v :
  0 ≤ c < h_possible_cpus h → (∀ c', c' ∈ l → c' < c) → scan_inv l st v →
  wp (scan_cpu (h_max_node h + 1) c st) v (returns (scan_inv (l ++ [c]))).
Proof.
  intros Hc Hlt HI. unfold scan_cpu. split; [done|]. intros b v1 [-> ->]. simpl.
  assert (v = v0) as -> by apply HI.
  destruct (h_available h c) eqn:Hav; [|by apply scan_inv_skip].
  split; [done|]. intros node v1 [-> ->]. simpl.
  destruct Hhost as (Hmax&Hposs&Hnode). specialize (Hnode c Hc Hav).
  set (n := h_node_of_cpu h c) in *.
  assert (u64 n = n) as -> by (apply wrap_small; lia).
  rewrite to_int_small by lia.
  apply wp_bind, wp_assert; [|apply Z.ltb_lt; lia].
  rewrite (vec_set_ok (hs_cpuToNUMANode st)) by (rewrite (si_lenC _ _ _ HI); lia). simpl.
  destruct (lookup_lt_is_Some_2 (hs_availability st) (Z.to_nat n)) as [a Ha].
  { rewrite (si_lenA _ _ _ HI). lia. }
  rewrite (vec_get_Some _ _ a) by (done || lia). simpl.
  pose proof (scan_inv_step l c st v0) as Hstep. fold n in Hstep.
  destruct a; simpl.
  - specialize (Hstep (hs_numAvailable st) Hc Hav Hlt HI).
    unfold mark in Hstep. rewrite decide_True in Hstep by done.
    apply Hstep, HI.
  - rewrite vec_set_ok by (rewrite (si_lenA _ _ _ HI); lia). simpl.
    specialize (Hstep (hs_numAvailable st + 1) Hc Hav Hlt HI).
    unfold mark in Hstep. rewrite decide_False in Hstep by (rewrite Ha; congruence).
    apply Hstep. rewrite count_true_insert, (si_num _ _ _ HI) by done. lia.
Qed.

Lemma wp_scan :
  wp (for_each (seqZ 0 (h_possible_cpus h)) (scan_cpu (h_max_node h + 1))
        (mkScan C0 A0 0 0 0 0)) v0
    (returns (scan_inv (seqZ 0 (h_possible_cpus h)))).
Proof.
  apply wp_for_each.
  - split; simpl; try done; try (by intros ? [?%not_elem_of_nil _]); try (by left); try lia.
    + intros n. split; [by left|]. by intros [?|(c&[?%not_elem_of_nil _]&_)].
    + by destruct NDEBUG.
  - intros l1 c l2 s v [-> Hc]%seqZ_split HI. rewrite Z.sub_0_r in *.
    apply wp_scan_cpu; [done| |done]. intros c' Hc'%elem_of_seqZ. lia.
Qed.
End scan.

(** ** Properties *)

Section initialize.
Context `{BC : BuildConfig} `{GT : GaspiTypes}.
Hypothesis Hrelease : NDEBUG = true.

(** The result of [initialize] from the scan it did. *)
Definition scan_result (st : hw_scan) : HardwareInfo :=
  {| _cpuToNUMANode := resize (Z.to_nat (maxAvailableCPU st + 1)) 0 (hs_cpuToNUMANode st);
     _numaNodeAvailability :=
       resize (Z.to_nat (maxAvailableNUMA st + 1)) false (hs_availability st);
     _numAvailableNUMANodes := hs_numAvailable st |}.

Lemma wp_HardwareInfo_initialize hw v :
  host_ok (v_host v) →
  wp (HardwareInfo_initialize hw) v (returns (λ hw' v', ∃ st, hw' = scan_result st ∧
    scan_inv v (resize (Z.to_nat (h_possible_cpus (v_host v))) (-1) (_cpuToNUMANode hw))
      (resize (Z.to_nat (h_max_node (v_host v) + 1)) false (_numaNodeAvailability hw))
      (seqZ 0 (h_possible_cpus (v_host v))) st v')).
Proof.
  intros Hh. pose proof Hh as (Hmax&Hposs&_). unfold HardwareInfo_initialize.
  do 2 wp_release.
  split; [done|]. intros ? v' [-> ->]. simpl. split; [done|]. intros ? v' [-> ->]. simpl.
  rewrite !(wrap_small 64) by lia. eapply wp_bind_returns.
  { apply wp_scan; [done| |]; rewrite length_resize; lia. }
  intros st v' HI. do 3 wp_release. rewrite Hrelease. simpl. wp_release.
  simpl. by exists st.
Qed.

Lemma usable_all h c :
  usable h (seqZ 0 (h_possible_cpus h)) c ↔
  0 ≤ c < h_possible_cpus h ∧ h_available h c = true.
Proof. unfold usable. by rewrite elem_of_seqZ, Z.add_0_l. Qed.

(** The facts about the node flags after a scan that started with no flag set. *)
Lemma scan_fresh_flags v C0 n st :
  scan_inv v C0 (replicate n false) (seqZ 0 (h_possible_cpus (v_host v))) st v →
  host_ok (v_host v) →
  (∀ i, hs_availability st !! i = Some true →
        (i < Z.to_nat (maxAvailableNUMA st + 1))%nat) ∧
  hs_numAvailable st = count_true (_numaNodeAvailability (scan_result st)) ∧
  ∀ i, _numaNodeAvailability (scan_result st) !! i = Some true ↔
       hs_availability st !! i = Some true.
Proof.
  intros HI (Hmax&Hposs&Hnode). pose proof HI as [].
  assert (∀ i, hs_availability st !! i = Some true →
            (i < Z.to_nat (maxAvailableNUMA st + 1))%nat) as Hlt.
  { intros i [Hi|(c&Hc&Hi)]%si_A0; [by apply lookup_replicate in Hi as [? _]|].
    specialize (si_maxN0 _ Hc). lia. }
  split; [done|]. simpl.
  destruct (decide (Z.to_nat (maxAvailableNUMA st + 1) ≤ length (hs_availability st))%nat) as [Hle|Hgt].
  - rewrite resize_le by done. split.
    + rewrite count_true_take by done. rewrite si_num0, count_true_replicate_false. lia.
    + intros i. rewrite lookup_take_Some. naive_solver.
  - rewrite resize_spec, take_ge by lia. split.
    + rewrite count_true_app, count_true_replicate_false, si_num0, count_true_replicate_false.
      lia.
    + intros i. rewrite lookup_app_Some. split; [|by left].
      intros [?|[_ [? _]%lookup_replicate]]; done.
Qed.

(** After a scan from empty vectors the result describes the machine. *)
Lemma scan_describes v n st :
  scan_inv v (replicate (Z.to_nat (h_possible_cpus (v_host v))) (-1)) (replicate n false)
    (seqZ 0 (h_possible_cpus (v_host v))) st v →
  host_ok (v_host v) → 0 < h_possible_cpus (v_host v) →
  describes (v_host v) (scan_result st) ∧
  Z.of_nat (length (_cpuToNUMANode (scan_result st))) ≤ h_possible_cpus (v_host v).
Proof.
  intros HI Hh Hpos. destruct (scan_fresh_flags _ _ _ _ HI Hh) as (_&_&Hflag).
  pose proof HI as [].
  assert (Z.of_nat (Z.to_nat (maxAvailableCPU st + 1)) ≤ h_possible_cpus (v_host v)) as Hcp.
  { destruct si_maxC_in0 as [->|[[? ?]%elem_of_seqZ _]]; lia. }
  rewrite length_replicate in si_lenC0.
  assert (_cpuToNUMANode (scan_result st) =
    take (Z.to_nat (maxAvailableCPU st + 1)) (hs_cpuToNUMANode st)) as HC.
  { simpl. apply resize_le. lia. }
  split; [split|rewrite HC, length_take; lia].
  - intros c Hc Ha. assert (c ≤ maxAvailableCPU st) by (by apply si_maxC0, usable_all).
    rewrite HC, lookup_take_lt by lia.
    rewrite si_C0 by (apply usable_all; rewrite Z2Nat.id by lia; done).
    by rewrite Z2Nat.id by lia.
  - rewrite HC. intros i m [Hi Hlt']%lookup_take_Some.
    destruct (h_available (v_host v) (Z.of_nat i)) eqn:Ha.
    + rewrite si_C0 in Hi by (apply usable_all; split; [lia|done]). congruence.
    + rewrite si_C'0 in Hi by (rewrite usable_all; naive_solver congruence).
      by apply lookup_replicate in Hi as [? _].
  - intros m. rewrite Hflag, si_A0. setoid_rewrite usable_all. split.
    + intros [[? _]%lookup_replicate|(c&[??]&?)]; [done|by exists c].
    + intros (c&?&?&?). right. by exists c.
Qed.

(** A description of a machine with an available CPU is well-formed. *)
Lemma describes_wf h hw c0 :
  host_ok h → describes h hw → 0 ≤ c0 < h_possible_cpus h → h_available h c0 = true →
  Z.of_nat (length (_cpuToNUMANode hw)) ≤ h_possible_cpus h →
  _numAvailableNUMANodes hw = count_true (_numaNodeAvailability hw) →
  getMaxNUMANodes hw < 2 ^ 31 → hw_wf hw.
Proof.
  intros (_&_&Hnode) [_ Hmap Hav] Hc0 Ha0 Hlen Hnum Hmax. split; [|done| |done].
  - intros i n Hi Hn. pose proof (Hmap i n Hi) as Hn'.
    destruct (h_available h (Z.of_nat i)) eqn:Ha; [|done].
    assert (0 ≤ Z.of_nat i < h_possible_cpus h) as Hii by (apply lookup_lt_Some in Hi; lia).
    specialize (Hnode _ Hii Ha). split; [lia|]. apply Hav. exists (Z.of_nat i).
    split; [done|]. split; [done|]. lia.
  - rewrite Hnum. apply (count_true_pos _ (Z.to_nat (h_node_of_cpu h c0))), Hav.
    exists c0. specialize (Hnode _ Hc0 Ha0). split; [done|]. split; [done|]. lia.
Qed.

Lemma wp_HardwareInfo_fresh v c0 :
  host_ok (v_host v) → 0 ≤ c0 < h_possible_cpus (v_host v) → h_available (v_host v) c0 = true →
  wp (HardwareInfo_initialize HardwareInfo_static) v
    (returns (λ hw v', v' = v ∧ hw_wf hw ∧ describes (v_host v) hw)).
Proof.
  intros Hh Hc0 Hav0. eapply wp_mono; [by apply wp_HardwareInfo_initialize|].
  intros [hw|f] v'; simpl; [|done]. intros (st&->&HI).
  assert (v' = v) as -> by apply HI. split; [done|].
  simpl in HI. rewrite !resize_nil in HI.
  destruct (scan_describes _ _ _ HI Hh ltac:(lia)) as [Hd Hlen]. split; [|done].
  destruct (scan_fresh_flags _ _ _ _ HI Hh) as (_&Hnum&_).
  apply (describes_wf (v_host v) _ c0); try done.
  unfold getMaxNUMANodes. simpl. rewrite length_resize. destruct Hh as (Hmax&_&Hnode).
  destruct (si_maxN_in _ _ _ _ _ _ HI) as [->|(c&Hc%usable_all&Hcn)]; [lia|].
  destruct Hc as [Hc Ha]. specialize (Hnode _ Hc Ha). lia.
Qed.

(** C28. The first [initialize] of a process (release build) on a machine with an available CPU
    returns a well-formed description of the machine, and touches nothing else. *)
Theorem HardwareInfo_initialize_fresh {W} `{!Runtime W} `{!RuntimeSpec W} (w : W) c0 :
  let h := v_host (view_of w) in
  host_ok h → 0 ≤ c0 < h_possible_cpus h → h_available h c0 = true →
  ∃ hw w', run (HardwareInfo_initialize HardwareInfo_static) w = (inl hw, w') ∧
    view_of w' = view_of w ∧ hw_wf hw ∧ describes h hw.
Proof.
  cbv zeta. intros Hh Hc0 Hav0.
  destruct (wp_run _ w _ (wp_HardwareInfo_fresh _ _ Hh Hc0 Hav0)) as ([hw|f]&w'&Hr&Hp);
    [|done].
  by exists hw, w'.
Qed.

(** Initialising again after [finalize] (release build): the flags of the first time are still
    set, so no node is counted and the number of available nodes is 0. *)
Theorem HardwareInfo_reinitialize {W} `{!Runtime W} `{!RuntimeSpec W} (w : W) c0 :
  let h := v_host (view_of w) in
  host_ok h → 0 ≤ c0 < h_possible_cpus h → h_available h c0 = true →
  ∃ hw w', run (hw1 ← HardwareInfo_initialize HardwareInfo_static;
                hw2 ← HardwareInfo_finalize hw1;
                HardwareInfo_initialize hw2) w = (inl hw, w') ∧
    getNumAvailableNUMANodes hw = 0 ∧
    _numaNodeAvailability hw !! Z.to_nat (h_node_of_cpu h c0) = Some true.
Proof.
  cbv zeta. intros Hh Hc0 Hav0. pose proof Hh as (Hmax&Hposs&Hnode).
  destruct (wp_run _ w _ (wp_HardwareInfo_fresh _ _ Hh Hc0 Hav0)) as ([hw1|f]&w1&Hr1&Hp);
    [|done]. destruct Hp as (Hv1&_&[_ _ Hav1]).
  rewrite run_bind, Hr1. simpl. rewrite <- Hv1 in Hh.
  destruct (wp_run _ w1 _ (wp_HardwareInfo_initialize hw1 _ Hh))
    as ([hw|f]&w'&Hr&Hp); [|done]. destruct Hp as (st&->&HI). rewrite Hv1 in HI.
  exists (scan_result st), w'. split; [done|]. pose proof HI as [].
  assert (hs_availability st = resize (Z.to_nat (h_max_node (v_host (view_of w)) + 1)) false
            (_numaNodeAvailability hw1)) as HA.
  { apply flags_ext; [done|]. intros i. rewrite si_A0. split; [|by left].
    intros [?|(c&[Hc Ha]%usable_all&Hi)]; [done|].
    assert (_numaNodeAvailability hw1 !! i = Some true) as Hi' by (apply Hav1; eauto).
    rewrite lookup_resize; [done| |by eapply lookup_lt_Some].
    specialize (Hnode c Hc Ha). lia. }
  split; [unfold getNumAvailableNUMANodes; simpl; rewrite si_num0, HA; lia|].
  assert (usable (v_host (view_of w)) (seqZ 0 (h_possible_cpus (v_host (view_of w)))) c0)
    as Hu by by apply usable_all.
  specialize (Hnode c0 Hc0 Hav0). specialize (si_maxN0 _ Hu). simpl.
  assert (hs_availability st !! Z.to_nat (h_node_of_cpu (v_host (view_of w)) c0) = Some true)
    as Hf by (apply si_A0; right; exists c0; split; [done|lia]).
  rewrite lookup_resize; [done|lia|by eapply lookup_lt_Some].
Qed.
End initialize.

Section debug.
Context `{BC : BuildConfig} `{GT : GaspiTypes}.

(** In a debug build [initialize] aborts when the process may use every possible CPU: the
    assertion [numAvailableCPUs < maxCPUs] is strict. *)
Theorem HardwareInfo_debug_all_cpus {W} `{!Runtime W} `{!RuntimeSpec W} (w : W) :
  let h := v_host (view_of w) in
  NDEBUG = false → host_ok h → 0 < h_possible_cpus h →
  (∀ c, 0 ≤ c < h_possible_cpus h → h_available h c = true) →
  ∃ w', run (HardwareInfo_initialize HardwareInfo_static) w =
    (inr (AssertFailed "numAvailableCPUs < maxCPUs"), w').
Proof.
  cbv zeta. intros Hdebug Hh Hpos Hall. pose proof Hh as (Hmax&Hposs&Hnode).
  cut (wp (HardwareInfo_initialize HardwareInfo_static) (view_of w)
         (λ r _, r = inr (AssertFailed "numAvailableCPUs < maxCPUs"))).
  { intros (r&w'&Hr& ->)%wp_run. by exists w'. }
  unfold HardwareInfo_initialize. do 2 (apply wp_bind, wp_assert; [|done]).
  wp_call. wp_call. rewrite !(wrap_small 64) by lia. eapply wp_bind_returns.
  { apply wp_scan; [done| |]; rewrite length_resize; lia. }
  intros st v' HI. pose proof HI as [].
  assert (usable (v_host (view_of w)) (seqZ 0 (h_possible_cpus (v_host (view_of w)))) 0) as Hu.
  { apply usable_all. split; [lia|]. apply Hall. lia. }
  pose proof (Hnode 0 ltac:(lia) ltac:(apply Hall; lia)) as Hn0.
  apply wp_bind, wp_assert.
  - apply wp_bind, wp_assert.
    + rewrite filter_all, length_seqZ, Hdebug in si_cpus0
        by (apply Forall_forall; intros c [??]%elem_of_seqZ; apply Hall; lia).
      assert (numAvailableCPUs st <? h_possible_cpus (v_host (view_of w)) = false) as ->
        by (apply Z.ltb_ge; lia).
      unfold assert. rewrite !Hdebug. reflexivity.
    + apply Z.ltb_lt. destruct si_maxC_in0 as [->|[[??]%elem_of_seqZ _]]; lia.
  - apply Z.ltb_lt. rewrite si_num0. simpl. rewrite resize_nil, count_true_replicate_false.
    rewrite Z.sub_0_r. apply (count_true_pos _ (Z.to_nat (h_node_of_cpu (v_host (view_of w)) 0))).
    apply si_A0. right. exists 0. split; [done|lia].
Qed.
End debug.

(** ** Examples *)

Section examples.
#[local] Existing Instance sim_types.
#[local] Existing Instance release_build.

Lemma sim_host_ok : host_ok sim_host.
Proof.
  split; [simpl; lia|]. split; [simpl; lia|]. simpl. intros c _ Hc%bool_decide_eq_true.
  Z.to_euclidean_division_equations. lia.
Qed.

Lemma HardwareInfo_initialize_fresh_witness :
  host_ok (v_host (view_of sim0)) ∧
  ∃ hw w', run (HardwareInfo_initialize HardwareInfo_static) sim0 = (inl hw, w') ∧
    view_of w' = view_of sim0 ∧ hw_wf hw ∧ describes (v_host (view_of sim0)) hw.
Proof.
  split; [exact sim_host_ok|].
  apply (HardwareInfo_initialize_fresh (BC := release_build) (GT := sim_types) eq_refl sim0 0);
    [exact sim_host_ok|simpl; lia|done].
Defined.

Lemma HardwareInfo_reinitialize_witness :
  ∃ hw w', run (hw1 ← HardwareInfo_initialize HardwareInfo_static;
                hw2 ← HardwareInfo_finalize hw1;
                HardwareInfo_initialize hw2) sim0 = (inl hw, w') ∧
    getNumAvailableNUMANodes hw = 0 ∧ _numaNodeAvailability hw !! 1%nat = Some true.
Proof.
  destruct (HardwareInfo_reinitialize (BC := release_build) (GT := sim_types) eq_refl sim0 2)
    as (hw&w'&Hr&Hn&Ha); [exact sim_host_ok|simpl; lia|done|]. exists hw, w'. split; [exact Hr|]. split; [exact Hn|exact Ha].
Defined.
End examples.

Section debug_examples.
#[local] Existing Instance sim_types.
#[local] Existing Instance debug_build.

(** A machine whose process may use both of its CPUs. *)
Definition sim_full_host : host := Host 0 2 (λ _, true) (λ _, 0) (λ _, None) (λ _, true) 5 2.

Lemma HardwareInfo_debug_all_cpus_witness :
  ∃ w', run (HardwareInfo_initialize HardwareInfo_static)
          (mkSim (view0 sim_full_host) 77 GASPI_SUCCESS 0 5) =
    (inr (AssertFailed "numAvailableCPUs < maxCPUs"), w').
Proof.
  apply (HardwareInfo_debug_all_cpus (GT := sim_types) (mkSim (view0 sim_full_host) 77 GASPI_SUCCESS 0 5));
    [done| |simpl; lia|done].
  split; [simpl; lia|]. split; [simpl; lia|]. intros c _ _. simpl. lia.
Defined.
End debug_examples.
