(* ===== verification/QueueGroup.v ===== *)
(** Class [QueueGroup] (common/QueueGroup.hpp): the choice of a GASPI queue for a caller, by
    round-robin over a shared counter or by the CPU the caller runs on. *)

From S2P Require Import Prelude Types Interface Contract Sim Hoare HardwareInfo.
Open Scope Z_scope.

(** What [_data] points to: nothing, an atomic counter, or an array with a queue per CPU. *)
Variant policy_data :=
  | data_null
  | data_counter (counter : Z)
  | data_queues (queues : list Z).

(** The policy is not initialised by the constructor. *)
Record QueueGroup := mkQueueGroup {
  _firstQueue : Z;
  _numQueues : Z;
  _policy : option gaspi_queue_group_policy_t;
  _data : policy_data;
}.

#[global] Instance policy_data_eq_dec : EqDecision policy_data.
Proof. solve_decision. Defined.

#[global] Instance QueueGroup_eq_dec : EqDecision QueueGroup.
Proof. solve_decision. Defined.

(** The queues given to a NUMA node. *)
Record QueueRange := mkQueueRange { qr_first : Z; qr_num : Z }.

Section queue_group.
Context `{BC : BuildConfig} `{GT : GaspiTypes}.

Definition QueueGroup_ctor (first num : Z) : prog QueueGroup :=
  assert "num > 0" (0 <? num);;
  Ret (mkQueueGroup first num None data_null).

(** [~QueueGroup] and [cleanupPolicyData]: deleting the data, which has to match the policy. *)
Definition cleanupPolicyData (g : QueueGroup) : prog unit :=
  match _policy g, _data g with
  | Some GASPI_QUEUE_GROUP_POLICY_DEFAULT, data_counter _ => Ret tt
  | Some _, data_queues _ => Ret tt
  | _, _ => Fault (UndefinedBehaviour "policy data of another type")
  end.

Definition QueueGroup_dtor (g : QueueGroup) : prog unit :=
  match _data g with
  | data_null => Ret tt
  | _ => cleanupPolicyData g
  end.

Definition isValidPolicy (policy : gaspi_queue_group_policy_t) : bool :=
  bool_decide (policy = GASPI_QUEUE_GROUP_POLICY_DEFAULT) ||
  bool_decide (policy = GASPI_QUEUE_GROUP_POLICY_CPU_RR).

(** ** [getQueue] *)

(** The counter after the one at [offset]. *)
Definition nextOffset (g : QueueGroup) (offset : Z) : Z :=
  if offset <? number (_numQueues g - 1) then number (offset + 1) else 0.

(** [counter.compare_exchange_strong(expected, desired)], as the counter it leaves. *)
Definition compare_exchange (expected desired counter : Z) : Z :=
  if counter =? expected then desired else counter.

(** The queue at an offset of the group. *)
Definition queue_at (g : QueueGroup) (offset : Z) : Z :=
  queue_id (number (_firstQueue g + offset)).

Definition set_data (d : policy_data) (g : QueueGroup) : QueueGroup :=
  mkQueueGroup (_firstQueue g) (_numQueues g) (_policy g) d.

(** [getQueue] when nobody else touches the group between the load and the exchange; returns
    the queue and the group with its counter advanced. *)
Definition getQueue (hw : HardwareInfo) (g : QueueGroup) : prog (Z * QueueGroup) :=
  match _policy g with
  | None => Fault (UndefinedBehaviour "uninitialised policy")
  | Some GASPI_QUEUE_GROUP_POLICY_DEFAULT =>
      if 1 <? _numQueues g then
        match _data g with
        | data_counter counter =>
            let offset := counter in
            Ret (queue_at g offset,
                 set_data (data_counter (compare_exchange offset (nextOffset g offset) counter)) g)
        | _ => Fault (UndefinedBehaviour "no counter")
        end
      else Ret (_firstQueue g, g)
  | Some _ =>
      cpu ← getCurrentCPU hw;
      match _data g with
      | data_queues queues => queue ← vec_get queues cpu; Ret (queue, g)
      | _ => Fault (UndefinedBehaviour "no queue array")
      end
  end.

(** ** [setupCPURoundRobinData] *)

(** The first loop: distinct ranges for the available nodes; the state is the array of ranges
    and the next queue. *)
Definition assign_range (hw : HardwareInfo) (queuesPerNUMA remainingQueues : Z) (numa : Z)
    (st : list (option QueueRange) * Z) : prog (list (option QueueRange) * Z) :=
  let '(numaQueues, queue) := st in
  available ← vec_get (_numaNodeAvailability hw) numa;
  if available : bool then
    let num := number (queuesPerNUMA + (if numa <? remainingQueues then 1 else 0)) in
    numaQueues ← vec_set numaQueues numa (Some (mkQueueRange queue num));
    Ret (numaQueues, queue_id (queue + num))
  else Ret (numaQueues, queue).

(** The [while] loop of the other branch. Its node [numa] is 0 in every iteration. *)
Fixpoint assign_first (fuel : nat) (hw : HardwareInfo) (remainingQueues numa numAssigned : Z)
    (numaQueues : list (option QueueRange)) : prog (list (option QueueRange) * Z) :=
  match fuel with
  | O => Fault OutOfFuel
  | S fuel =>
      if numAssigned <? u64 (remainingQueues - 1) then
        available ← vec_get (_numaNodeAvailability hw) numa;
        if available : bool then
          numaQueues ← vec_set numaQueues numa (Some (mkQueueRange (queue_id numAssigned) 1));
          assign_first fuel hw remainingQueues numa (u64 (numAssigned + 1)) numaQueues
        else assign_first fuel hw remainingQueues numa numAssigned numaQueues
      else Ret (numaQueues, numAssigned)
  end.

(** The loop that gives the last queue to the rest of the nodes. *)
Definition assign_last (hw : HardwareInfo) (remainingQueues : Z) (numa : Z)
    (numaQueues : list (option QueueRange)) : prog (list (option QueueRange)) :=
  available ← vec_get (_numaNodeAvailability hw) numa;
  if available : bool then
    vec_set numaQueues numa (Some (mkQueueRange (queue_id (remainingQueues - 1)) 1))
  else Ret numaQueues.

(** The loop over the CPUs of one node; the state is the array of queues and the offset. *)
Definition assign_cpu (hw : HardwareInfo) (numa firstQueue numQueues : Z) (cpu : Z)
    (st : list Z * Z) : prog (list Z * Z) :=
  let '(assignationQueue, offset) := st in
  node ← vec_get (_cpuToNUMANode hw) cpu;
  if node =? to_int numa then
    assignationQueue ← vec_set assignationQueue cpu (queue_id (number (firstQueue + offset)));
    if numQueues =? 0 then Fault (UndefinedBehaviour "division by zero")
    else Ret (assignationQueue, number (offset + 1) `mod` numQueues)
  else Ret (assignationQueue, offset).

Definition assign_node (hw : HardwareInfo) (numaQueues : list (option QueueRange)) (numa : Z)
    (assignationQueue : list Z) : prog (list Z) :=
  available ← vec_get (_numaNodeAvailability hw) numa;
  if available : bool then
    range ← vec_get numaQueues numa;
    match range with
    | None => Fault (UndefinedBehaviour "uninitialised queue range")
    | Some r =>
        st ← for_each (seqZ 0 (getMaxCPUs hw)) (assign_cpu hw numa (qr_first r) (qr_num r))
               (assignationQueue, 0);
        Ret (st.1)
    end
  else Ret assignationQueue.

(** Which queues each node gets. *)
Definition numa_ranges (fuel : nat) (hw : HardwareInfo) (g : QueueGroup) :
    prog (list (option QueueRange)) :=
  let maxNUMAs := getMaxNUMANodes hw in
  let numNUMAs := getNumAvailableNUMANodes hw in
  if numNUMAs =? 0 then Fault (UndefinedBehaviour "division by zero") else
  let queuesPerNUMA := _numQueues g `div` numNUMAs in
  let remainingQueues := _numQueues g `mod` numNUMAs in
  let numaQueues := replicate (Z.to_nat maxNUMAs) None in
  if numNUMAs <=? _numQueues g then
    st ← for_each (seqZ 0 maxNUMAs) (assign_range hw queuesPerNUMA remainingQueues)
           (numaQueues, _firstQueue g);
    Ret (st.1)
  else
    st ← assign_first fuel hw remainingQueues 0 0 numaQueues;
    assert "numAssigned < numNUMAs" (st.2 <? numNUMAs);;
    for_each (seqZ (u64 (remainingQueues - 1)) (maxNUMAs - u64 (remainingQueues - 1)))
      (assign_last hw remainingQueues) (st.1).

Definition setupCPURoundRobinData (fuel : nat) (hw : HardwareInfo) (g : QueueGroup)
    (assignationQueue : list Z) : prog (list Z) :=
  numaQueues ← numa_ranges fuel hw g;
  for_each (seqZ 0 (getMaxNUMANodes hw)) (assign_node hw numaQueues) assignationQueue.

Definition setupPolicy (fuel : nat) (hw : HardwareInfo) (policy : gaspi_queue_group_policy_t)
    (g : QueueGroup) : prog QueueGroup :=
  let g := mkQueueGroup (_firstQueue g) (_numQueues g) (Some policy) (_data g) in
  if decide (policy = GASPI_QUEUE_GROUP_POLICY_DEFAULT) then
    Ret (set_data (data_counter 0) g)
  else
    queues ← setupCPURoundRobinData fuel hw g (replicate (Z.to_nat (getMaxCPUs hw)) 0);
    Ret (set_data (data_queues queues) g).
End queue_group.

(** ** CPU round-robin: the assignment inside the nodes *)

Section assignment.
Context `{BC : BuildConfig} `{GT : GaspiTypes} (hw : HardwareInfo).
Hypothesis Hhw : hw_wf hw.

Lemma queue_id_small x : 0 ≤ x < 2 ^ queue_id_bits → queue_id (number x) = x.
Proof.
  intros Hx. pose proof queue_id_bits_range.
  assert (2 ^ queue_id_bits ≤ 2 ^ number_bits) by (apply Z.pow_le_mono_r; lia).
  unfold queue_id, number. rewrite (wrap_small number_bits) by lia. by apply wrap_small.
Qed.

(** How many CPUs of node [n] there are before CPU [c]. *)
Definition rank (n : Z) (c : nat) : Z :=
  Z.of_nat (length (filter (λ m, m = n) (take c (_cpuToNUMANode hw)))).

Lemma rank_S n c m :
  _cpuToNUMANode hw !! c = Some m → rank n (S c) = rank n c + if decide (m = n) then 1 else 0.
Proof.
  intros Hc. unfold rank. rewrite (take_S_r _ _ m) by done.
  rewrite filter_app, length_app, Nat2Z.inj_add. f_equal. unfold filter. simpl.
  by destruct (decide (m = n)).
Qed.

(** The state of the loop over the CPUs of node [n], with range [f, f+m), before CPU [k]. *)
Definition cpu_inv (n f m : Z) (a : list Z) (k : nat) (st : list Z * Z) : Prop :=
  length (st.1) = length a ∧ st.2 = rank n k `mod` m ∧
  ∀ c x, _cpuToNUMANode hw !! c = Some x →
    st.1 !! c = if decide (x = n ∧ (c < k)%nat) then Some (f + rank n c `mod` m) else a !! c.

Lemma assign_cpu_step n f m a (k : nat) st :
  0 ≤ n < 2 ^ 31 → 0 < m < 2 ^ number_bits → 0 ≤ f → f + m ≤ 2 ^ queue_id_bits →
  length a = length (_cpuToNUMANode hw) → (k < length a)%nat →
  cpu_inv n f m a k st →
  ∃ st', assign_cpu hw n f m (Z.of_nat k) st = Ret st' ∧ cpu_inv n f m a (S k) st'.
Proof.
  intros Hn Hm Hf Hfm Ha Hk (Hlen&Hoff&Hval). destruct st as [a' off]. simpl in *.
  destruct (lookup_lt_is_Some_2 (_cpuToNUMANode hw) k) as [x Hx]; [lia|].
  rewrite (vec_get_Some _ _ x) by (rewrite ?Nat2Z.id; done || lia). simpl.
  rewrite to_int_small by lia. destruct (Z.eqb_spec x n) as [->|Hne].
  - rewrite vec_set_ok by lia. simpl. rewrite Nat2Z.id.
    rewrite (proj2 (Z.eqb_neq m 0)) by lia. eexists. split; [done|].
    pose proof (Z.mod_pos_bound (rank n k) m ltac:(lia)).
    split; [simpl; by rewrite length_insert|]. simpl. split.
    + rewrite (rank_S _ _ n), decide_True by done. subst off.
      unfold number. rewrite wrap_small by lia. by rewrite Zplus_mod_idemp_l.
    + intros c y Hy. destruct (decide (c = k)) as [->|Hck].
      * rewrite list_lookup_insert_eq by lia. simplify_eq.
        rewrite decide_True by (split; [done|lia]). f_equal.
        apply queue_id_small. lia.
      * rewrite list_lookup_insert_ne by done. rewrite (Hval _ _ Hy).
        destruct (decide (y = n ∧ (c < k)%nat)), (decide (y = n ∧ (c < S k)%nat));
          [done|lia|lia|done].
  - eexists. split; [done|]. split; [done|]. split; simpl.
    + rewrite (rank_S _ _ x), decide_False by done. by rewrite Z.add_0_r.
    + intros c y Hy. rewrite (Hval _ _ Hy).
      destruct (decide (y = n ∧ (c < k)%nat)), (decide (y = n ∧ (c < S k)%nat));
        [done|lia| |done].
      assert (c = k) as -> by lia. naive_solver congruence.
Qed.

Lemma assign_node_spec ranges n f m a :
  0 ≤ n → _numaNodeAvailability hw !! Z.to_nat n = Some true →
  ranges !! Z.to_nat n = Some (Some (mkQueueRange f m)) →
  0 < m < 2 ^ number_bits → 0 ≤ f → f + m ≤ 2 ^ queue_id_bits →
  length a = length (_cpuToNUMANode hw) →
  ∃ a', assign_node hw ranges n a = Ret a' ∧ length a' = length a ∧
    ∀ c x, _cpuToNUMANode hw !! c = Some x →
      a' !! c = if decide (x = n) then Some (f + rank n c `mod` m) else a !! c.
Proof.
  intros Hn Hav Hr Hm Hf Hfm Ha. unfold assign_node.
  rewrite (vec_get_Some _ _ true) by done. simpl.
  rewrite (vec_get_Some _ _ _ Hn Hr). simpl.
  assert (n < 2 ^ 31) as Hn'.
  { apply lookup_lt_Some in Hav. pose proof (hw_small _ Hhw). unfold getMaxNUMANodes in *. lia. }
  destruct (for_each_pure (λ l st, cpu_inv n f m a (length l) st)
    (seqZ 0 (getMaxCPUs hw)) (assign_cpu hw n f m) (a, 0)) as (st&->&Hlen&_&Hval).
  - split; [done|]. split; [done|]. intros c x Hx. by rewrite decide_False by (simpl; lia).
  - intros l1 c l2 st [-> Hc]%seqZ_split HI. rewrite Z.sub_0_r in *.
    rewrite length_app, length_seqZ in *. simpl in *.
    rewrite Nat.add_1_r. unfold getMaxCPUs in Hc.
    pose proof (assign_cpu_step n f m a (Z.to_nat c) st) as Hstep.
    rewrite Z2Nat.id in Hstep by lia. apply Hstep; try done; lia.
  - exists (st.1). split; [done|]. split; [done|]. intros c x Hx. rewrite (Hval _ _ Hx).
    rewrite length_seqZ. unfold getMaxCPUs. rewrite Nat2Z.id.
    apply lookup_lt_Some in Hx.
    destruct (decide (x = n)), (decide (x = n ∧ (c < length (_cpuToNUMANode hw))%nat));
      naive_solver.
Qed.

(** The ranges cover the available nodes with ranges of valid queue identifiers. *)
Definition ranges_ok (ranges : list (option QueueRange)) : Prop :=
  length ranges = length (_numaNodeAvailability hw) ∧
  ∀ n, _numaNodeAvailability hw !! n = Some true →
    ∃ f m, ranges !! n = Some (Some (mkQueueRange f m)) ∧
      0 < m < 2 ^ number_bits ∧ 0 ≤ f ∧ f + m ≤ 2 ^ queue_id_bits.

(** The queue of a CPU of node [n]. *)
Definition assigned (ranges : list (option QueueRange)) (n : Z) (c : nat) : option Z :=
  r ← ranges !! Z.to_nat n ≫= id; Some (qr_first r + rank n c `mod` qr_num r).

Lemma assign_nodes_spec ranges a :
  ranges_ok ranges → length a = length (_cpuToNUMANode hw) →
  ∃ a', for_each (seqZ 0 (getMaxNUMANodes hw)) (assign_node hw ranges) a = Ret a' ∧
    length a' = length a ∧
    ∀ c x, _cpuToNUMANode hw !! c = Some x →
      a' !! c = if decide (x = -1) then a !! c else assigned ranges x c.
Proof.
  intros [Hlen Hrg] Ha.
  destruct (for_each_pure (λ l a', length a' = length a ∧
    ∀ c x, _cpuToNUMANode hw !! c = Some x →
      a' !! c = if decide (x ∈ l) then assigned ranges x c else a !! c)
    (seqZ 0 (getMaxNUMANodes hw)) (assign_node hw ranges) a) as (a'&->&Hlen'&Hval).
  - split; [done|]. intros c x Hx. by rewrite decide_False by apply not_elem_of_nil.
  - intros l1 n l2 a' [-> Hn]%seqZ_split [Hl HI]. rewrite Z.sub_0_r in *.
    unfold getMaxNUMANodes in Hn.
    destruct (lookup_lt_is_Some_2 (_numaNodeAvailability hw) (Z.to_nat n)) as [b Hb]; [lia|].
    destruct b.
    + destruct (Hrg _ Hb) as (f&m&Hr&Hm&Hf&Hfm).
      destruct (assign_node_spec ranges n f m a') as (a2&->&Hl2&Hv2); try done; [lia..|].
      exists a2. split; [done|]. split; [lia|]. intros c x Hx. rewrite (Hv2 _ _ Hx).
      rewrite (HI _ _ Hx). case_decide as Hxn.
      * subst x. rewrite decide_True by set_solver. unfold assigned. by rewrite Hr.
      * destruct (decide (x ∈ seqZ 0 n)), (decide (x ∈ seqZ 0 n ++ [n])); set_solver.
    + unfold assign_node. rewrite (vec_get_Some _ _ false) by (done || lia). simpl.
      exists a'. split; [done|]. split; [done|]. intros c x Hx. rewrite (HI _ _ Hx).
      assert (x ≠ n) as Hne.
      { intros ->. destruct (hw_cpu_node _ Hhw _ _ Hx); [lia|congruence]. }
      destruct (decide (x ∈ seqZ 0 n)), (decide (x ∈ seqZ 0 n ++ [n])); set_solver.
  - exists a'. split; [done|]. split; [done|]. intros c x Hx. rewrite (Hval _ _ Hx).
    destruct (decide (x = -1)) as [->|Hx1].
    + rewrite decide_False; [done|]. intros ?%elem_of_seqZ. lia.
    + rewrite decide_True; [done|]. apply elem_of_seqZ.
      destruct (hw_cpu_node _ Hhw _ _ Hx) as [? Hl%lookup_lt_Some]; [done|].
      unfold getMaxNUMANodes. lia.
Qed.
End assignment.

(** ** CPU round-robin: the ranges when there are enough queues *)

Section ranges.
Context `{BC : BuildConfig} `{GT : GaspiTypes} (hw : HardwareInfo) (g : QueueGroup).
Hypothesis Hhw : hw_wf hw.
Abbreviation avail := (_numaNodeAvailability hw).
Abbreviation N := (getNumAvailableNUMANodes hw).
Abbreviation q := (_numQueues g `div` N).
Abbreviation r := (_numQueues g `mod` N).

(** The size of the range of node [n], and the sum of the sizes before it. *)
Definition range_size (n : Z) : Z := q + if n <? r then 1 else 0.

Fixpoint range_offset (n : nat) : Z :=
  match n with
  | O => 0
  | S n => range_offset n +
           if decide (avail !! n = Some true) then range_size (Z.of_nat n) else 0
  end.

Hypothesis Hfirst : 0 ≤ _firstQueue g.
Hypothesis Hnum : N ≤ _numQueues g < 2 ^ number_bits.
Hypothesis Hlast : _firstQueue g + _numQueues g ≤ 2 ^ queue_id_bits.

Lemma div_facts : 0 < N ∧ 1 ≤ q ∧ 0 ≤ r < N ∧ _numQueues g = N * q + r.
Proof using Hhw Hnum.
  pose proof (hw_pos _ Hhw) as HN. fold (getNumAvailableNUMANodes hw) in HN.
  pose proof (Z.mod_pos_bound (_numQueues g) N HN).
  pose proof (Z.div_mod (_numQueues g) N ltac:(lia)).
  pose proof (Z.div_le_lower_bound (_numQueues g) N 1 HN ltac:(lia)). lia.
Qed.

Lemma range_size_bounds n : 1 ≤ range_size n ∧ q ≤ range_size n ≤ q + 1.
Proof using Hhw Hnum.
  pose proof div_facts. unfold range_size. destruct (n <? r); lia.
Qed.

(** At most the [r] first nodes have one queue more. *)
Lemma range_offset_le n :
  (n ≤ length avail)%nat →
  0 ≤ range_offset n ≤ q * count_true (take n avail) + Z.min (Z.of_nat n) r.
Proof using Hhw Hnum.
  pose proof div_facts as (HN&Hq&Hr&Hn).
  induction n as [|n IH]; intros Hlen; [rewrite take_0; unfold count_true; simpl; lia|].
  destruct (lookup_lt_is_Some_2 avail n) as [b Hb]; [lia|].
  rewrite (take_S_r _ _ b), count_true_app by done. simpl.
  specialize (IH ltac:(lia)). rewrite Hb.
  rewrite (count_true_cons b []). change (count_true []) with 0.
  destruct b; [rewrite decide_True by done|rewrite decide_False by done; lia].
  unfold range_size. destruct (Z.ltb_spec (Z.of_nat n) r); nia.
Qed.

Lemma range_offset_mono n m : (n ≤ m)%nat → range_offset n ≤ range_offset m.
Proof using Hhw Hnum.
  induction 1 as [|m Hle IH]; [lia|]. simpl.
  pose proof (range_size_bounds (Z.of_nat m)). case_decide; lia.
Qed.

Lemma range_offset_total n :
  avail !! n = Some true → range_offset n + range_size (Z.of_nat n) ≤ _numQueues g.
Proof using Hhw Hnum.
  intros Hn. pose proof div_facts as (HN&Hq&Hr&Hnq).
  pose proof (range_offset_le (S n) ltac:(apply lookup_lt_Some in Hn; lia)) as Hb.
  simpl in Hb. rewrite decide_True in Hb by done.
  assert (count_true (take (S n) avail) ≤ N) as Hc.
  { unfold getNumAvailableNUMANodes. rewrite (hw_count _ Hhw).
    rewrite <- (take_drop (S n) avail) at 2. rewrite count_true_app.
    pose proof (count_true_nonneg (drop (S n) avail)). lia. }
  nia.
Qed.

(** The ranges that the first loop assigns. *)
Definition expected (n : nat) : option QueueRange :=
  if decide (avail !! n = Some true)
  then Some (mkQueueRange (_firstQueue g + range_offset n) (range_size (Z.of_nat n))) else None.

Lemma numa_ranges_enough fuel :
  ∃ l, numa_ranges fuel hw g = Ret l ∧ length l = length avail ∧
    ∀ n, (n < length avail)%nat → l !! n = Some (expected n).
Proof using Hhw Hfirst Hnum Hlast.
  pose proof div_facts as (HN&Hq&Hr&Hnq). unfold numa_ranges.
  rewrite (proj2 (Z.eqb_neq N 0)) by lia. rewrite (proj2 (Z.leb_le _ _)) by lia.
  destruct (for_each_pure (λ (l : list Z) (st : list (option QueueRange) * Z),
      length (st.1) = length avail ∧
      st.2 = queue_id (_firstQueue g + range_offset (length l)) ∧
      ∀ n, (n < length avail)%nat →
        st.1 !! n = Some (if decide (n < length l)%nat then expected n else None))
    (seqZ 0 (getMaxNUMANodes hw)) (assign_range hw q r)
    (replicate (Z.to_nat (getMaxNUMANodes hw)) None, _firstQueue g))
    as ([l queue]&->&Hl&_&Hval).
  - unfold getMaxNUMANodes. rewrite Nat2Z.id. simpl. rewrite length_replicate.
    split; [done|]. split.
    + pose proof (div_facts). rewrite Z.add_0_r. unfold queue_id. rewrite wrap_small; [done|].
      lia.
    + intros n Hn. by apply lookup_replicate_2.
  - intros l1 n l2 [l queue] [-> Hn]%seqZ_split (Hl&Hq'&Hval). rewrite Z.sub_0_r in *.
    rewrite length_app, length_seqZ in *. simpl in *. unfold getMaxNUMANodes in Hn.
    destruct (lookup_lt_is_Some_2 avail (Z.to_nat n)) as [b Hb]; [lia|].
    rewrite (vec_get_Some _ _ b) by (done || lia). rewrite Nat.add_1_r. simpl.
    rewrite Hb. destruct b.
    + rewrite decide_True by done. rewrite vec_set_ok by lia.
      pose proof (range_offset_total _ Hb) as Ht. rewrite Z2Nat.id in * by lia.
      pose proof (range_size_bounds n) as Hsz.
      pose proof (range_offset_le (Z.to_nat n) ltac:(lia)) as Ho.
      assert (number (q + (if n <? r then 1 else 0)) = range_size n) as ->
        by (apply wrap_small; unfold range_size in *; lia).
      eexists. split; [done|]. simpl. rewrite length_insert. split; [done|]. split.
      * subst queue. unfold queue_id. rewrite wrap_add_l. f_equal. lia.
      * intros i Hi. destruct (decide (i = Z.to_nat n)) as [->|Hin].
        -- rewrite list_lookup_insert_eq by lia. rewrite decide_True by lia.
           unfold expected. rewrite decide_True, Z2Nat.id by (done || lia). subst queue.
           unfold queue_id. rewrite wrap_small by lia. done.
        -- rewrite list_lookup_insert_ne, Hval by done.
           by destruct (decide (i < Z.to_nat n)%nat), (decide (i < S (Z.to_nat n))%nat); try lia.
    + rewrite decide_False by done. eexists. split; [done|]. split; [done|]. simpl.
      split; [rewrite Z.add_0_r; done|]. intros i Hi. rewrite Hval by done.
      destruct (decide (i < Z.to_nat n)%nat), (decide (i < S (Z.to_nat n))%nat); try lia; try done.
      assert (i = Z.to_nat n) as -> by lia. unfold expected. by rewrite decide_False by congruence.
  - exists l. split; [done|]. split; [done|]. intros n Hn. rewrite Hval by done.
    rewrite length_seqZ. unfold getMaxNUMANodes. rewrite Nat2Z.id. by rewrite decide_True.
Qed.
End ranges.

(** ** Properties of the CPU round-robin policy *)

Section cpu_rr.
Context `{BC : BuildConfig} `{GT : GaspiTypes} (hw : HardwareInfo) (g : QueueGroup).
Hypothesis Hhw : hw_wf hw.
Hypothesis Hfirst : 0 ≤ _firstQueue g.
Abbreviation avail := (_numaNodeAvailability hw).
Abbreviation N := (getNumAvailableNUMANodes hw).

Lemma setup_enough fuel :
  N ≤ _numQueues g < 2 ^ number_bits → _firstQueue g + _numQueues g ≤ 2 ^ queue_id_bits →
  ∃ l, setupCPURoundRobinData fuel hw g (replicate (Z.to_nat (getMaxCPUs hw)) 0) = Ret l ∧
    length l = length (_cpuToNUMANode hw) ∧
    ∀ c x, _cpuToNUMANode hw !! c = Some x → x ≠ -1 →
      l !! c = Some (_firstQueue g + range_offset hw g (Z.to_nat x) +
                     rank hw x c `mod` range_size hw g x).
Proof.
  intros Hnum Hlast. unfold setupCPURoundRobinData.
  destruct (numa_ranges_enough hw g Hhw Hfirst Hnum Hlast fuel) as (rs&->&Hlen&Hrs). simpl.
  assert (∀ n, avail !! n = Some true → rs !! n = Some (Some (mkQueueRange
    (_firstQueue g + range_offset hw g n) (range_size hw g (Z.of_nat n))))) as Hrs'.
  { intros n Hn. rewrite Hrs by by eapply lookup_lt_Some. unfold expected.
    by rewrite decide_True. }
  destruct (assign_nodes_spec hw Hhw rs (replicate (Z.to_nat (getMaxCPUs hw)) 0))
    as (l&->&Hl&Hval).
  - split; [done|]. intros n Hn. eexists _, _. split; [by apply Hrs'|].
    pose proof (range_size_bounds hw g Hhw Hnum (Z.of_nat n)).
    pose proof (range_offset_total hw g Hhw Hnum n Hn).
    pose proof (range_offset_le hw g Hhw Hnum n ltac:(apply lookup_lt_Some in Hn; lia)). lia.
  - rewrite length_replicate. unfold getMaxCPUs. lia.
  - exists l. rewrite length_replicate in Hl. split; [done|].
    split; [rewrite Hl; unfold getMaxCPUs; lia|]. intros c x Hx Hx1.
    rewrite (Hval _ _ Hx), decide_False by done.
    destruct (hw_cpu_node _ Hhw _ _ Hx Hx1) as [Hx0 Hn].
    unfold assigned. rewrite (Hrs' _ Hn). simpl. by rewrite Z2Nat.id.
Qed.

(** C24. With at least as many queues as available NUMA nodes, [setupCPURoundRobinData] returns an
    assignment in which every CPU of an available node has a queue of the group, CPUs of
    different nodes have different queues, and the CPUs of one node take the queues of the
    node's range, of [q] or [q + 1] queues, in turns. *)
Theorem setupCPURoundRobinData_spec fuel :
  N ≤ _numQueues g < 2 ^ number_bits → _firstQueue g + _numQueues g ≤ 2 ^ queue_id_bits →
  ∃ l base size,
    setupCPURoundRobinData fuel hw g (replicate (Z.to_nat (getMaxCPUs hw)) 0) = Ret l ∧
    length l = length (_cpuToNUMANode hw) ∧
    (∀ c x, _cpuToNUMANode hw !! c = Some x → x ≠ -1 →
       l !! c = Some (base x + rank hw x c `mod` size x) ∧
       _firstQueue g ≤ base x ∧ base x + size x ≤ _firstQueue g + _numQueues g ∧
       _numQueues g `div` N ≤ size x ≤ _numQueues g `div` N + 1) ∧
    (∀ c1 c2 x1 x2, _cpuToNUMANode hw !! c1 = Some x1 → _cpuToNUMANode hw !! c2 = Some x2 →
       x1 ≠ -1 → x2 ≠ -1 → x1 ≠ x2 → l !! c1 ≠ l !! c2).
Proof.
  intros Hnum Hlast. destruct (setup_enough fuel Hnum Hlast) as (l&Hs&Hlen&Hval).
  exists l, (λ x, _firstQueue g + range_offset hw g (Z.to_nat x)), (range_size hw g).
  split; [done|]. split; [done|]. split.
  - intros c x Hx Hx1. split; [by apply Hval|].
    destruct (hw_cpu_node _ Hhw _ _ Hx Hx1) as [Hx0 Hn].
    pose proof (range_size_bounds hw g Hhw Hnum x).
    pose proof (range_offset_total hw g Hhw Hnum _ Hn) as Ht. rewrite Z2Nat.id in Ht by done.
    pose proof (range_offset_le hw g Hhw Hnum (Z.to_nat x)
      ltac:(apply lookup_lt_Some in Hn; lia)). lia.
  - assert (∀ c1 c2 x1 x2, _cpuToNUMANode hw !! c1 = Some x1 →
      _cpuToNUMANode hw !! c2 = Some x2 → x1 ≠ -1 → x2 ≠ -1 → x1 < x2 →
      l !! c1 ≠ l !! c2) as Hlt.
    { intros c1 c2 x1 x2 H1 H2 Hn1 Hn2 Hlt. rewrite (Hval _ _ H1 Hn1), (Hval _ _ H2 Hn2).
      destruct (hw_cpu_node _ Hhw _ _ H1 Hn1) as [Hx1 Ha1].
      destruct (hw_cpu_node _ Hhw _ _ H2 Hn2) as [Hx2 Ha2].
      pose proof (range_offset_mono hw g Hhw Hnum (S (Z.to_nat x1)) (Z.to_nat x2) ltac:(lia))
        as Hm. simpl in Hm. rewrite decide_True, Z2Nat.id in Hm by done.
      pose proof (range_size_bounds hw g Hhw Hnum x1).
      pose proof (range_size_bounds hw g Hhw Hnum x2).
      pose proof (Z.mod_pos_bound (rank hw x1 c1) (range_size hw g x1) ltac:(lia)).
      pose proof (Z.mod_pos_bound (rank hw x2 c2) (range_size hw g x2) ltac:(lia)).
      intros [=]. lia. }
    intros c1 c2 x1 x2 H1 H2 Hn1 Hn2 Hne. destruct (Z.lt_total x1 x2) as [?|[?|?]]; [|done|].
    + by eapply Hlt.
    + intros Heq. by eapply (Hlt c2 c1).
Qed.

(** ** Fewer queues than nodes *)

Hypothesis Hfew : 0 < _numQueues g < N.

Lemma few_facts :
  _numQueues g `mod` N = _numQueues g ∧ (N <=? _numQueues g) = false ∧ (N =? 0) = false.
Proof using Hfew.
  rewrite Z.mod_small by lia. split; [done|]. split; [apply Z.leb_gt|apply Z.eqb_neq]; lia.
Qed.

Hypothesis Hqid : _numQueues g < 2 ^ queue_id_bits.

Lemma few_width x : 0 ≤ x ≤ _numQueues g → u64 x = x ∧ queue_id x = x.
Proof using Hqid.
  intros Hx. pose proof queue_id_bits_range. pose proof number_bits_range.
  assert (2 ^ queue_id_bits ≤ 2 ^ 64) by (apply Z.pow_le_mono_r; lia).
  split; apply wrap_small; lia.
Qed.

(** The ranges after the [while] loop: node 0 has been written over and over. *)
Definition first_ranges (rs : list (option QueueRange)) (k : Z) : list (option QueueRange) :=
  if k <? _numQueues g - 1
  then <[0%nat := Some (mkQueueRange (_numQueues g - 2) 1)]> rs else rs.

Lemma assign_first_returns fuel k rs :
  avail !! 0%nat = Some true → (0 < length rs)%nat → 0 ≤ k ≤ _numQueues g - 1 →
  (Z.to_nat (_numQueues g - 1 - k) < fuel)%nat →
  assign_first fuel hw (_numQueues g) 0 k rs = Ret (first_ranges rs k, _numQueues g - 1).
Proof using Hfew Hqid.
  intros H0 Hlen. revert k rs Hlen. induction fuel as [|fuel IH]; intros k rs Hlen Hk Hf; [lia|].
  simpl. destruct (few_width (_numQueues g - 1) ltac:(lia)) as [-> _].
  unfold first_ranges. destruct (Z.ltb_spec k (_numQueues g - 1)).
  - rewrite (vec_get_Some _ _ true) by done. simpl.
    rewrite vec_set_ok by lia. simpl.
    destruct (few_width k ltac:(lia)) as [_ ->].
    destruct (few_width (k + 1) ltac:(lia)) as [-> _].
    rewrite IH by (rewrite ?length_insert; lia). unfold first_ranges.
    destruct (Z.ltb_spec (k + 1) (_numQueues g - 1)).
    + by rewrite list_insert_insert_eq.
    + replace k with (_numQueues g - 2) at 1 by lia. done.
  - do 2 f_equal. lia.
Qed.

(** It never ends when node 0 is not available, as its node counter does not advance. *)
Lemma assign_first_diverges fuel rs :
  avail !! 0%nat = Some false → 2 ≤ _numQueues g →
  assign_first fuel hw (_numQueues g `mod` N) 0 0 rs = Fault OutOfFuel.
Proof using Hfew Hqid.
  intros H0 Hn. destruct few_facts as [-> _].
  induction fuel as [|fuel IH]; [done|]. simpl.
  destruct (few_width (_numQueues g - 1) ltac:(lia)) as [-> _].
  rewrite (proj2 (Z.ltb_lt _ _)) by lia. rewrite (vec_get_Some _ _ false) by done. done.
Qed.

(** The ranges that both loops leave. *)
Definition few_range (n : nat) : option QueueRange :=
  if decide (_numQueues g - 1 ≤ Z.of_nat n)
  then if decide (avail !! n = Some true)
       then Some (mkQueueRange (_numQueues g - 1) 1) else None
  else if decide (n = 0%nat) then Some (mkQueueRange (_numQueues g - 2) 1) else None.

Lemma numa_ranges_few fuel :
  (2 ≤ _numQueues g → avail !! 0%nat = Some true) → (Z.to_nat (_numQueues g) ≤ fuel)%nat →
  ∃ l, numa_ranges fuel hw g = Ret l ∧ length l = length avail ∧
    ∀ n, (n < length avail)%nat → l !! n = Some (few_range n).
Proof using Hhw Hfew Hqid.
  intros H0 Hfuel. destruct few_facts as (Hr&Hle&Hz). unfold numa_ranges.
  rewrite Hz, Hle, Hr. destruct (few_width (_numQueues g - 1) ltac:(lia)) as [E64 Eid].
  set (rs0 := replicate (Z.to_nat (getMaxNUMANodes hw)) (@None QueueRange)).
  assert (Hcnt := hw_count _ Hhw). fold N in Hcnt.
  pose proof (count_true_nonneg avail) as Hcl.
  assert (assign_first fuel hw (_numQueues g) 0 0 rs0 =
    Ret (first_ranges rs0 0, _numQueues g - 1)) as ->.
  { destruct (decide (2 ≤ _numQueues g)) as [H2|H2].
    - apply assign_first_returns; [auto| |lia|lia].
      unfold rs0, getMaxNUMANodes. rewrite length_replicate.
      unfold getNumAvailableNUMANodes in *. lia.
    - assert (_numQueues g = 1) as E1 by lia. destruct fuel; [lia|]. simpl.
      rewrite E64. unfold first_ranges. by rewrite E1. }
  assert (∀ b : bool, b = true → assert "numAssigned < numNUMAs" b = Ret tt) as Hassert.
  { intros b ->. unfold assert. by destruct NDEBUG. }
  rewrite mbind_Ret. cbn [fst snd]. rewrite Hassert by (apply Z.ltb_lt; lia).
  rewrite mbind_Ret, E64.
  assert (length (first_ranges rs0 0) = length avail) as Hlen0.
  { unfold first_ranges, rs0, getMaxNUMANodes.
    destruct (0 <? _); rewrite ?length_insert, length_replicate; lia. }
  destruct (for_each_pure (λ l rs, length rs = length avail ∧
      ∀ n, (n < length avail)%nat →
        rs !! n = Some (if decide (Z.of_nat n < _numQueues g - 1 + Z.of_nat (length l))
                        then few_range n else None))
    (seqZ (_numQueues g - 1) (getMaxNUMANodes hw - (_numQueues g - 1)))
    (assign_last hw (_numQueues g)) (first_ranges rs0 0)) as (l&->&Hl&Hval).
  - split; [done|]. intros n Hn. cbn [length]. unfold few_range, first_ranges.
    assert (rs0 !! n = Some None) as Hrs0.
    { apply lookup_replicate_2. unfold getMaxNUMANodes. lia. }
    destruct (decide (Z.of_nat n < _numQueues g - 1 + Z.of_nat 0)).
    + rewrite decide_False by lia. rewrite (proj2 (Z.ltb_lt _ _)) by lia.
      case_decide as Hn0.
      * subst n. by rewrite list_lookup_insert_eq by by eapply lookup_lt_Some.
      * by rewrite list_lookup_insert_ne.
    + destruct (Z.ltb_spec 0 (_numQueues g - 1)); [|done].
      by rewrite list_lookup_insert_ne by lia.
  - intros l1 n l2 rs [-> Hn]%seqZ_split [Hl HI].
    rewrite length_app, length_seqZ in *. simpl in *. unfold getMaxNUMANodes in Hn.
    destruct (lookup_lt_is_Some_2 avail (Z.to_nat n)) as [b Hb]; [lia|].
    unfold assign_last. rewrite (vec_get_Some _ _ b) by (done || lia). simpl.
    assert (∀ i : nat, i ≠ Z.to_nat n → (i < length avail)%nat → rs !! i =
      Some (if decide (Z.of_nat i < _numQueues g - 1 + Z.of_nat (Z.to_nat (n - (_numQueues g - 1)) + 1))
            then few_range i else None)) as Hother.
    { intros i Hi Hil. rewrite HI by done.
      destruct (decide (Z.of_nat i < _numQueues g - 1 + Z.of_nat (Z.to_nat (n - (_numQueues g - 1)))));
        [by rewrite decide_True by lia|by rewrite decide_False by lia]. }
    destruct b.
    + rewrite vec_set_ok by lia. eexists. split; [done|]. rewrite length_insert.
      split; [done|]. intros i Hi. destruct (decide (i = Z.to_nat n)) as [->|Hne].
      * rewrite list_lookup_insert_eq by lia. rewrite decide_True by lia.
        unfold few_range. rewrite !decide_True by (done || lia). by rewrite Eid.
      * rewrite list_lookup_insert_ne by done. by apply Hother.
    + exists rs. split; [done|]. split; [done|]. intros i Hi.
      destruct (decide (i = Z.to_nat n)) as [->|Hne]; [|by apply Hother].
      rewrite HI by done. rewrite decide_False by lia. rewrite decide_True by lia.
      unfold few_range. rewrite decide_True by lia. by rewrite decide_False by congruence.
  - exists l. split; [done|]. split; [done|]. intros n Hn. rewrite Hval by done.
    rewrite length_seqZ. unfold getMaxNUMANodes. rewrite decide_True by lia. done.
Qed.

(** With fewer queues than available nodes, and node 0 available, the assignment returns only
    queues of [0, num), whatever the first queue of the group: the last queue to every node from
    [num - 1] on and the one before to node 0, when no node in between is available. *)
Lemma setup_few fuel :
  (2 ≤ _numQueues g → avail !! 0%nat = Some true) → (Z.to_nat (_numQueues g) ≤ fuel)%nat →
  (∀ n, avail !! n = Some true → n = 0%nat ∨ _numQueues g - 1 ≤ Z.of_nat n) →
  ∃ l, setupCPURoundRobinData fuel hw g (replicate (Z.to_nat (getMaxCPUs hw)) 0) = Ret l ∧
    length l = length (_cpuToNUMANode hw) ∧
    ∀ c x, _cpuToNUMANode hw !! c = Some x → x ≠ -1 →
      l !! c = Some (if decide (_numQueues g - 1 ≤ x) then _numQueues g - 1
                     else _numQueues g - 2).
Proof using Hhw Hfew Hqid.
  intros H0 Hfuel Hnodes. unfold setupCPURoundRobinData.
  destruct (numa_ranges_few fuel H0 Hfuel) as (rs&->&Hlen&Hrs). rewrite mbind_Ret.
  assert (∀ n, avail !! n = Some true → rs !! n = Some (Some (mkQueueRange
    (if decide (_numQueues g - 1 ≤ Z.of_nat n) then _numQueues g - 1 else _numQueues g - 2) 1)))
    as Hrs'.
  { intros n Hn. rewrite Hrs by by eapply lookup_lt_Some. unfold few_range.
    destruct (Hnodes _ Hn) as [->|?]; [|by rewrite !decide_True].
    case_decide; [by rewrite decide_True|done]. }
  destruct (assign_nodes_spec hw Hhw rs (replicate (Z.to_nat (getMaxCPUs hw)) 0))
    as (l&->&Hl&Hval).
  - split; [done|]. intros n Hn. eexists _, _. split; [by apply Hrs'|].
    pose proof queue_id_bits_range. pose proof number_bits_range.
    assert (1 < 2 ^ number_bits) by (apply Z.pow_gt_1; lia).
    case_decide; [lia|]. destruct (Hnodes _ Hn); lia.
  - rewrite length_replicate. unfold getMaxCPUs. lia.
  - exists l. rewrite length_replicate in Hl. split; [done|].
    split; [rewrite Hl; unfold getMaxCPUs; lia|]. intros c x Hx Hx1.
    rewrite (Hval _ _ Hx), decide_False by done.
    destruct (hw_cpu_node _ Hhw _ _ Hx Hx1) as [Hx0 Hn].
    unfold assigned. rewrite (Hrs' _ Hn). simpl. rewrite Z2Nat.id, Z.mod_1_r by done.
    by rewrite Z.add_0_r.
Qed.

(** C36. When the first queue of such a group is not below its size, every CPU of an available node
    gets a queue that is not in the group. *)
Theorem few_queues_outside_group fuel :
  (2 ≤ _numQueues g → avail !! 0%nat = Some true) → (Z.to_nat (_numQueues g) ≤ fuel)%nat →
  (∀ n, avail !! n = Some true → n = 0%nat ∨ _numQueues g - 1 ≤ Z.of_nat n) →
  _numQueues g ≤ _firstQueue g →
  ∃ l, setupCPURoundRobinData fuel hw g (replicate (Z.to_nat (getMaxCPUs hw)) 0) = Ret l ∧
    ∀ c x, _cpuToNUMANode hw !! c = Some x → x ≠ -1 →
      ∃ queue, l !! c = Some queue ∧ 0 ≤ queue < _numQueues g ∧
        ¬ (_firstQueue g ≤ queue < _firstQueue g + _numQueues g).
Proof using Hhw Hfew Hqid.
  intros H0 Hfuel Hnodes Hout. destruct (setup_few fuel H0 Hfuel Hnodes) as (l&Hs&_&Hval).
  exists l. split; [done|]. intros c x Hx Hx1. rewrite (Hval _ _ Hx Hx1).
  destruct (hw_cpu_node _ Hhw _ _ Hx Hx1) as [Hx0 Hn]. specialize (Hnodes _ Hn).
  eexists. split; [done|]. case_decide; lia.
Qed.

(** With three queues or more and nodes 0 and 1 available, the range of node 1 is read without
    having been written. *)
Theorem few_queues_uninitialised fuel :
  3 ≤ _numQueues g → avail !! 0%nat = Some true → avail !! 1%nat = Some true →
  (Z.to_nat (_numQueues g) ≤ fuel)%nat →
  setupCPURoundRobinData fuel hw g (replicate (Z.to_nat (getMaxCPUs hw)) 0) =
    Fault (UndefinedBehaviour "uninitialised queue range").
Proof using Hhw Hfew Hqid.
  intros H3 H0 H1 Hfuel. unfold setupCPURoundRobinData.
  destruct (numa_ranges_few fuel ltac:(done) Hfuel) as (rs&->&Hlen&Hrs). rewrite mbind_Ret.
  pose proof (lookup_lt_Some _ _ _ H1) as Hl1.
  assert (seqZ 0 (getMaxNUMANodes hw) = 0 :: 1 :: seqZ 2 (getMaxNUMANodes hw - 2)) as ->.
  { unfold getMaxNUMANodes. rewrite seqZ_cons by lia. f_equal.
    rewrite seqZ_cons by lia. f_equal. f_equal; lia. }
  pose proof queue_id_bits_range. pose proof number_bits_range.
  assert (1 < 2 ^ number_bits) by (apply Z.pow_gt_1; lia).
  destruct (assign_node_spec hw Hhw rs 0 (_numQueues g - 2) 1
    (replicate (Z.to_nat (getMaxCPUs hw)) 0)) as (a'&Ha&_); try done; try lia.
  - rewrite Hrs by (apply lookup_lt_Some in H0; simpl; lia). unfold few_range. simpl.
    by rewrite decide_False by lia.
  - rewrite length_replicate. unfold getMaxCPUs. lia.
  - cbn [for_each]. rewrite Ha, mbind_Ret. unfold assign_node.
    rewrite (vec_get_Some _ 1 true) by done. rewrite mbind_Ret.
    rewrite (vec_get_Some _ 1 None); [done|lia|]. rewrite Hrs by (simpl; lia).
    unfold few_range. simpl. by rewrite decide_False by lia.
Qed.

(** With two queues or more and node 0 not available, setting up the policy never ends. *)
Theorem few_queues_diverges fuel :
  2 ≤ _numQueues g → avail !! 0%nat = Some false →
  setupCPURoundRobinData fuel hw g (replicate (Z.to_nat (getMaxCPUs hw)) 0) = Fault OutOfFuel.
Proof using Hfew Hqid.
  intros H2 H0. unfold setupCPURoundRobinData, numa_ranges.
  pose proof few_facts as (_&->&->). by rewrite assign_first_diverges.
Qed.
End cpu_rr.

(** ** Round-robin over the queues (the default policy) *)

Section round_robin.
Context `{BC : BuildConfig} `{GT : GaspiTypes}.

(** [k] consecutive calls. *)
Fixpoint get_queues (k : nat) (hw : HardwareInfo) (g : QueueGroup) :
    prog (list Z * QueueGroup) :=
  match k with
  | O => Ret ([], g)
  | S k =>
      r ← getQueue hw g;
      rs ← get_queues k hw (r.2);
      Ret (r.1 :: rs.1, rs.2)
  end.

(** The group is a valid range of queues. *)
Definition group_ok (g : QueueGroup) : Prop :=
  0 ≤ _firstQueue g ∧ 0 < _numQueues g < 2 ^ number_bits ∧
  _firstQueue g + _numQueues g ≤ 2 ^ queue_id_bits.

Lemma nextOffset_spec g offset :
  group_ok g → 0 ≤ offset < _numQueues g →
  nextOffset g offset = (offset + 1) `mod` _numQueues g.
Proof.
  intros (Hf&Hn&Hl) Ho. unfold nextOffset, number.
  rewrite wrap_small by lia. destruct (Z.ltb_spec offset (_numQueues g - 1)).
  - rewrite wrap_small, Z.mod_small by lia. done.
  - replace (offset + 1) with (_numQueues g) by lia. by rewrite Z.mod_same by lia.
Qed.

Lemma queue_at_spec g offset :
  group_ok g → 0 ≤ offset < _numQueues g → queue_at g offset = _firstQueue g + offset.
Proof. intros (Hf&Hn&Hl) Ho. apply queue_id_small. lia. Qed.

Lemma get_queues_from k hw g i :
  group_ok g → _policy g = Some GASPI_QUEUE_GROUP_POLICY_DEFAULT →
  _data g = data_counter (i `mod` _numQueues g) →
  ∃ g', get_queues k hw g =
    Ret ((λ j, _firstQueue g + (i + j) `mod` _numQueues g) <$> seqZ 0 (Z.of_nat k), g').
Proof.
  revert g i. induction k as [|k IH]; intros g i Hg Hp Hd; [by exists g|].
  assert (Hg' := Hg). destruct Hg' as (Hf&Hn&Hl).
  pose proof (Z.mod_pos_bound i (_numQueues g) ltac:(lia)) as Hi.
  assert (seqZ 0 (Z.of_nat (S k)) = 0 :: (Z.add 1 <$> seqZ 0 (Z.of_nat k))) as ->.
  { rewrite seqZ_cons, fmap_add_seqZ by lia. f_equal. f_equal; lia. }
  simpl get_queues. unfold getQueue at 1. rewrite Hp, Hd.
  destruct (Z.ltb_spec 1 (_numQueues g)) as [H1|H1].
  - rewrite mbind_Ret. cbn [fst snd]. rewrite queue_at_spec by done.
    rewrite nextOffset_spec by done. unfold compare_exchange. rewrite Z.eqb_refl.
    rewrite Zplus_mod_idemp_l.
    destruct (IH (set_data (data_counter ((i + 1) `mod` _numQueues g)) g) (i + 1))
      as [g' Hk]; [done..|]. rewrite Hk. exists g'. simpl. rewrite Z.add_0_r.
    rewrite <- list_fmap_compose. do 3 f_equal. apply list_fmap_ext. intros _ j _.
    simpl. do 2 f_equal. lia.
  - rewrite mbind_Ret. cbn [fst snd]. assert (_numQueues g = 1) as E by lia.
    destruct (IH g (i + 1)) as [g' Hk]; [done..| |].
    { rewrite Hd, E. by rewrite !Z.mod_1_r. }
    rewrite Hk. exists g'. simpl. rewrite E, Z.mod_1_r, <- list_fmap_compose, Z.add_0_r.
    do 3 f_equal. apply list_fmap_ext. intros _ j _. simpl. by rewrite !Z.mod_1_r.
Qed.

(** C25. A group set up with the default policy gives out its queues in order, one per call, and
    starts over after the last. *)
Theorem getQueue_round_robin fuel hw first num k :
  group_ok (mkQueueGroup first num None data_null) →
  ∃ g', (g ← QueueGroup_ctor first num;
         g ← setupPolicy fuel hw GASPI_QUEUE_GROUP_POLICY_DEFAULT g;
         get_queues k hw g) =
    Ret ((λ j, first + j `mod` num) <$> seqZ 0 (Z.of_nat k), g').
Proof.
  intros Hg. assert (Hg' := Hg). destruct Hg' as (Hf&Hn&Hl). simpl in *.
  unfold QueueGroup_ctor, assert. rewrite (proj2 (Z.ltb_lt 0 num)) by lia.
  destruct (get_queues_from k hw (mkQueueGroup first num
    (Some GASPI_QUEUE_GROUP_POLICY_DEFAULT) (data_counter 0)) 0) as [g' Hk]; [done..|].
  exists g'. destruct NDEBUG; simpl; exact Hk.
Qed.

(** ** Concurrent callers *)

(** The shared counter, what each thread has loaded, and the queues given out (latest first),
    with the number of exchanges that succeeded. *)
Record rr_state := mkRR {
  rr_counter : Z;
  rr_loaded : list (option Z);
  rr_returned : list Z;
  rr_successes : Z;
}.

(** The two atomic actions of [getQueue]. *)
Inductive rr_step (g : QueueGroup) : rr_state → rr_state → Prop :=
  | rr_load s i :
      rr_loaded s !! i = Some None →
      rr_step g s (mkRR (rr_counter s) (<[i := Some (rr_counter s)]> (rr_loaded s))
                     (rr_returned s) (rr_successes s))
  | rr_exchange s i offset :
      rr_loaded s !! i = Some (Some offset) →
      rr_step g s (mkRR (compare_exchange offset (nextOffset g offset) (rr_counter s))
                     (<[i := None]> (rr_loaded s))
                     (queue_at g offset :: rr_returned s)
                     (rr_successes s + if rr_counter s =? offset then 1 else 0)).

Definition rr_init (s : rr_state) : Prop :=
  rr_counter s = 0 ∧ Forall (λ o, o = None) (rr_loaded s) ∧ rr_returned s = [] ∧
  rr_successes s = 0.

Definition rr_inv (g : QueueGroup) (s : rr_state) : Prop :=
  rr_counter s = rr_successes s `mod` _numQueues g ∧
  (∀ i o, rr_loaded s !! i = Some (Some o) → 0 ≤ o < _numQueues g) ∧
  Forall (λ q, _firstQueue g ≤ q < _firstQueue g + _numQueues g) (rr_returned s).

Lemma rr_inv_step g s s' : group_ok g → rr_inv g s → rr_step g s s' → rr_inv g s'.
Proof.
  intros Hg (Hc&Hl&Hr) Hs. assert (Hg' := Hg). destruct Hg' as (Hf&Hn&_).
  pose proof (Z.mod_pos_bound (rr_successes s) (_numQueues g) ltac:(lia)) as Hb.
  destruct Hs as [s i Hi|s i o Hi]; split_and!; simpl; try done.
  - intros j o [(->&[= <-]&_)|[? ?]]%list_lookup_insert_Some; [lia|by eapply Hl].
  - specialize (Hl _ _ Hi). unfold compare_exchange.
    destruct (Z.eqb_spec (rr_counter s) o) as [<-|Hne].
    + rewrite nextOffset_spec by done. by rewrite Hc, Zplus_mod_idemp_l.
    + by rewrite Z.add_0_r.
  - intros j o' [(->&[=]&_)|[? ?]]%list_lookup_insert_Some. by eapply Hl.
  - constructor; [|done]. specialize (Hl _ _ Hi). rewrite queue_at_spec by done. lia.
Qed.

(** However the callers interleave, every queue given out is in the group, and the counter
    advances by one, modulo the size, with every exchange that succeeds. *)
Theorem getQueue_concurrent g s :
  group_ok g → reachable rr_init (rr_step g) s →
  rr_counter s = rr_successes s `mod` _numQueues g ∧
  Forall (λ q, _firstQueue g ≤ q < _firstQueue g + _numQueues g) (rr_returned s).
Proof.
  intros Hg Hr. assert (rr_inv g s) as (?&?&?); [|done].
  revert s Hr. apply invariant_reachable; [|by intros; eapply rr_inv_step].
  intros s (Hc&Hl&Hr&Hs). split_and!.
  - by rewrite Hc, Hs, Z.mod_0_l by (destruct Hg; lia).
  - intros i o Hi. rewrite Forall_lookup in Hl. by apply Hl in Hi.
  - by rewrite Hr.
Qed.

(** Two callers can get the same queue however many the group has. *)
Theorem getQueue_not_distinct g :
  group_ok g → ∃ s, reachable rr_init (rr_step g) s ∧
    rr_returned s = [_firstQueue g; _firstQueue g].
Proof.
  intros Hg. assert (Hg' := Hg). destruct Hg' as (Hf&Hn&_).
  eexists. split.
  - exists (mkRR 0 [None; None] [] 0). split; [by repeat constructor|].
    eapply rtc_l; [by apply (rr_load _ _ 0%nat)|].
    eapply rtc_l; [by apply (rr_load _ _ 1%nat)|].
    eapply rtc_l; [by apply (rr_exchange _ _ 0%nat 0)|].
    eapply rtc_l; [by apply (rr_exchange _ _ 1%nat 0)|]. apply rtc_refl.
  - simpl. rewrite !queue_at_spec by (done || lia). by rewrite Z.add_0_r.
Qed.
End round_robin.

(** ** Groups that were set up *)

Section set_up.
Context `{BC : BuildConfig} `{GT : GaspiTypes} (hw : HardwareInfo).

(** A group with the default policy, its counter being at one of its queues. *)
Definition round_robin_ok (g : QueueGroup) : Prop :=
  group_ok g ∧ ∃ counter, _policy g = Some GASPI_QUEUE_GROUP_POLICY_DEFAULT ∧
    _data g = data_counter counter ∧ 0 ≤ counter < _numQueues g.

(** [queues] is the array that [setupPolicy] computed for the group. *)
Definition array_of (g : QueueGroup) (queues : list Z) : Prop :=
  ∃ fuel, setupCPURoundRobinData fuel hw g (replicate (Z.to_nat (getMaxCPUs hw)) 0) = Ret queues.

(** A group with the CPU policy and its array. *)
Definition cpu_rr_ok (g : QueueGroup) : Prop :=
  group_ok g ∧ _policy g = Some GASPI_QUEUE_GROUP_POLICY_CPU_RR ∧
  ∃ queues, _data g = data_queues queues ∧ array_of g queues.

Definition set_up (g : QueueGroup) : Prop := round_robin_ok g ∨ cpu_rr_ok g.

(** Whatever [setupPolicy] returns for a valid policy is set up. *)
Lemma setupPolicy_set_up fuel policy first num g :
  isValidPolicy policy = true → group_ok (mkQueueGroup first num None data_null) →
  setupPolicy fuel hw policy (mkQueueGroup first num None data_null) = Ret g →
  set_up g ∧ _firstQueue g = first ∧ _numQueues g = num ∧ _policy g = Some policy.
Proof.
  intros Hv Hok. unfold setupPolicy. case_decide as Hd.
  - intros [= <-]. subst policy. split; [|done]. left. split; [exact Hok|]. exists 0.
    destruct Hok as (_&?&_). cbn in *. split_and!; (done || lia).
  - intros (queues&Hq&[= <-])%mbind_Ret_inv. destruct policy; [done| |discriminate Hv].
    split; [|done]. right. split; [exact Hok|]. split; [done|]. exists queues.
    split; [done|]. exists fuel. exact Hq.
Qed.

(** Setting up fills the array it is given. *)
Lemma assign_cpu_length numa f m cpu st st' :
  assign_cpu hw numa f m cpu st = Ret st' → length (st'.1) = length (st.1).
Proof.
  destruct st as [q o]. intros (node&_&Hc)%mbind_Ret_inv.
  destruct (node =? _); [|by injection Hc as <-].
  apply mbind_Ret_inv in Hc as (q2&->%vec_set_inv&Hc). destruct (_ =? 0); [done|].
  injection Hc as <-. apply length_insert.
Qed.

Lemma assign_node_length ranges numa q q' :
  assign_node hw ranges numa q = Ret q' → length q' = length q.
Proof.
  intros (b&_&Hq)%mbind_Ret_inv. destruct b; [|by injection Hq as <-].
  apply mbind_Ret_inv in Hq as ([r|]&_&Hq); [|done].
  apply mbind_Ret_inv in Hq as (st&Hq&[= <-]).
  refine (for_each_Ret_inv (λ st : list Z * Z, length (st.1) = length q) _ _ _ _ _ Hq eq_refl).
  intros cpu s s' Hs <-. by eapply assign_cpu_length.
Qed.

Lemma array_length g queues :
  array_of g queues → length queues = length (_cpuToNUMANode hw).
Proof.
  intros [fuel (ranges&_&Hq)%mbind_Ret_inv].
  refine (for_each_Ret_inv (λ q : list Z, length q = length (_cpuToNUMANode hw)) _ _ _ _ _ Hq _).
  - intros numa s s' Hs <-. by eapply assign_node_length.
  - rewrite length_replicate. unfold getMaxCPUs. by rewrite Nat2Z.id.
Qed.

(** With enough queues, the CPUs of available nodes have queues of the group. *)
Lemma array_in_group g queues c x :
  hw_wf hw → group_ok g → array_of g queues → getNumAvailableNUMANodes hw ≤ _numQueues g →
  _cpuToNUMANode hw !! c = Some x → x ≠ -1 →
  ∃ q, queues !! c = Some q ∧ _firstQueue g ≤ q < _firstQueue g + _numQueues g.
Proof.
  intros Hhw (Hf&Hn&Hl) [fuel Hq] HN Hc Hx.
  assert (getNumAvailableNUMANodes hw ≤ _numQueues g < 2 ^ number_bits) as Hnum by lia.
  destruct (setup_enough hw g Hhw Hf fuel Hnum Hl) as (l&Hs&_&Hval).
  rewrite Hq in Hs. injection Hs as <-. eexists. split; [by apply Hval|].
  destruct (hw_cpu_node _ Hhw _ _ Hc Hx) as [Hx0 Ha].
  pose proof (range_size_bounds hw g Hhw Hnum x).
  pose proof (range_offset_total hw g Hhw Hnum _ Ha) as Ht. rewrite Z2Nat.id in Ht by done.
  pose proof (range_offset_le hw g Hhw Hnum (Z.to_nat x)
    ltac:(apply lookup_lt_Some in Ha; lia)).
  pose proof (Z.mod_pos_bound (rank hw x c) (range_size hw g x) ltac:(lia)). lia.
Qed.
End set_up.

(** ** Examples *)

Section queue_group_examples.
#[local] Existing Instance sim_types.
#[local] Existing Instance release_build.

(** Two nodes, the CPUs of which alternate; CPU 4 is not available. *)
Definition hw_two : HardwareInfo := mkHardwareInfo [0; 1; 0; 1; -1] [true; true] 2.

Lemma hw_two_wf : hw_wf hw_two.
Proof.
  split; [|done..]. intros i n Hi Hn.
  do 5 (destruct i as [|i]; [simpl in Hi; simplify_eq; by split|]). done.
Qed.

(** Nodes 0, 1, 2 and 3, one CPU each, with a mask of those that are available. *)
Definition hw_four (a0 a1 : bool) : HardwareInfo :=
  mkHardwareInfo [if a0 then 0 else -1; if a1 then 1 else -1; 2; 3] [a0; a1; true; true]
    (count_true [a0; a1; true; true]).

Lemma hw_four_wf a0 a1 : hw_wf (hw_four a0 a1).
Proof.
  split; [|done|by destruct a0, a1|done]. intros i n Hi Hn.
  do 4 (destruct i as [|i]; [simpl in Hi; destruct a0, a1; simplify_eq; by split|]). done.
Qed.

Definition group (first num : Z) : QueueGroup := mkQueueGroup first num None data_null.

Example setup_two :
  setupCPURoundRobinData 0 hw_two (group 3 5) (replicate 5 0) = Ret [3; 6; 4; 7; 0].
Proof. by vm_compute. Qed.

Example rr_three : ∃ g',
  get_queues 5 hw_two (mkQueueGroup 2 3 (Some GASPI_QUEUE_GROUP_POLICY_DEFAULT)
    (data_counter 0)) = Ret ([2; 3; 4; 2; 3], g').
Proof. eexists. by vm_compute. Qed.

Lemma setupCPURoundRobinData_spec_witness :
  ∃ l, setupCPURoundRobinData 0 hw_two (group 3 5) (replicate 5 0) = Ret l ∧
    l !! 0%nat ≠ l !! 1%nat.
Proof.
  destruct (setupCPURoundRobinData_spec hw_two (group 3 5) hw_two_wf ltac:(done) 0
    ltac:(done) ltac:(done)) as (l&b&s&Hl&_&_&Hd).
  exists l. split; [exact Hl|]. by apply (Hd 0%nat 1%nat 0 1).
Defined.

Lemma few_queues_outside_group_witness :
  ∃ l q, setupCPURoundRobinData 2 (hw_four true false) (group 5 2) (replicate 4 0) = Ret l ∧
    l !! 2%nat = Some q ∧ ¬ 5 ≤ q < 7.
Proof.
  destruct (few_queues_outside_group (hw_four true false) (group 5 2) (hw_four_wf _ _)
    ltac:(done) ltac:(done) 2 ltac:(done) ltac:(simpl; lia)) as (l&Hl&Hq).
  - intros [|[|n]]; [by left|by intros|right; simpl; lia].
  - done.
  - destruct (Hq 2%nat 2 eq_refl ltac:(done)) as (q&?&_&?). by exists l, q.
Defined.

Lemma few_queues_uninitialised_witness :
  setupCPURoundRobinData 3 (hw_four true true) (group 0 3) (replicate 4 0) =
    Fault (UndefinedBehaviour "uninitialised queue range").
Proof.
  apply (few_queues_uninitialised (hw_four true true) (group 0 3) (hw_four_wf _ _)
    ltac:(done) ltac:(done) 3); (done || simpl; lia).
Defined.

Lemma few_queues_diverges_witness :
  setupCPURoundRobinData 1000 (hw_four false true) (group 0 2) (replicate 4 0) =
    Fault OutOfFuel.
Proof.
  apply (few_queues_diverges (hw_four false true) (group 0 2)); (done || simpl; lia).
Defined.

Lemma group_ok_example : group_ok (group 2 3).
Proof. split_and!; done. Qed.

Lemma getQueue_round_robin_witness :
  ∃ g', (g ← QueueGroup_ctor 2 3;
         g ← setupPolicy 0 hw_two GASPI_QUEUE_GROUP_POLICY_DEFAULT g;
         get_queues 5 hw_two g) = Ret ((λ j, 2 + j `mod` 3) <$> seqZ 0 5, g').
Proof. exact (getQueue_round_robin 0 hw_two 2 3 5 group_ok_example). Defined.

(** One caller of two has been given the first queue. *)
Lemma getQueue_concurrent_witness :
  1 = 1 `mod` 3 ∧ Forall (λ q, 2 ≤ q < 2 + 3) [2].
Proof.
  apply (getQueue_concurrent (group 2 3) (mkRR 1 [None; None] [2] 1) group_ok_example).
  exists (mkRR 0 [None; None] [] 0). split; [by repeat constructor|].
  eapply rtc_l; [by apply (rr_load _ _ 0%nat)|].
  eapply rtc_l; [by apply (rr_exchange _ _ 0%nat 0)|]. apply rtc_refl.
Defined.

Lemma getQueue_not_distinct_witness :
  ∃ s, reachable rr_init (rr_step (group 2 3)) s ∧ rr_returned s = [2; 2].
Proof. exact (getQueue_not_distinct (group 2 3) group_ok_example). Defined.
End queue_group_examples.
