(* ===== verification/Allocator.v ===== *)
(** Class [Allocator<WaitingRange>] (common/Allocator.hpp): a pool of preallocated objects. An
    object is named by its index in [_objects]; the lock-free queue holds the free ones. *)

From S2P Require Import Prelude Types Interface Contract Sim Hoare.
Open Scope Z_scope.

(** Whether the two static pointers are set. *)
Record Allocator := mkAllocator { _objects : bool; _queue : bool }.

Definition Allocator_static : Allocator := mkAllocator false false.

Definition NumEntries : Z := 64 * 1000.

Lemma NumEntries_eq : NumEntries = 64000.
Proof. done. Qed.

(** Proofs use the equation: nothing computes with the whole pool. *)
#[global] Opaque NumEntries.

Section allocator.
Context `{BC : BuildConfig}.

Definition initialized (a : Allocator) : bool := _objects a && _queue a.

(** The results of the pushes are ignored. *)
Definition push_object (i : Z) (_ : unit) : prog unit :=
  pushed ← perform (queue_push i); Ret tt.

Definition Allocator_initialize (a : Allocator) : prog Allocator :=
  assert "!initialized()" (negb (initialized a));;
  perform (malloc_objects NumEntries);;
  perform (queue_construct NumEntries);;
  for_each (seqZ 0 NumEntries) push_object tt;;
  Ret (mkAllocator true true).

(** The pointers keep their values. *)
Definition Allocator_finalize (a : Allocator) : prog Allocator :=
  assert "initialized()" (initialized a);;
  perform queue_destruct;;
  perform free_objects;;
  Ret a.

(** The loop of [allocate]. *)
Fixpoint pop_object (fuel : nat) : prog Z :=
  match fuel with
  | O => Fault OutOfFuel
  | S fuel =>
      object ← perform queue_pop;
      match object with
      | Some object => Ret object
      | None => pop_object fuel
      end
  end.

(** [allocate(segment, firstId, num, values, remaining, task)]. *)
Definition allocate (fuel : nat) (a : Allocator) (segment firstNotificationId numNotifications : Z)
    (notifiedValues : option Z) (remainingNotifications task : Z) : prog Z :=
  assert "initialized()" (initialized a);;
  object ← pop_object fuel;
  perform (wr_construct object segment firstNotificationId numNotifications notifiedValues
             remainingNotifications task);;
  Ret object.

(** [~WaitingRange()]. *)
Definition WaitingRange_dtor (r : WaitingRange) : prog unit :=
  assert "_remaining == 0" (_remaining r =? 0).

Definition free (a : Allocator) (object : Z) : prog unit :=
  assert "initialized()" (initialized a);;
  r ← perform (wr_load object);
  WaitingRange_dtor r;;
  pushed ← perform (queue_push object);
  assert "pushed" pushed.
End allocator.

(** ** The pool *)

Section pool.
Context `{BC : BuildConfig} `{GT : GaspiTypes}.

(** The free objects are distinct and exist. *)
Record pool_wf (v : view) : Prop := {
  pool_capacity : v_pool_capacity v = NumEntries;
  pool_NoDup : NoDup (v_pool v);
  pool_free p : p ∈ v_pool v → 0 ≤ p < NumEntries;
  pool_objs p : 0 ≤ p < NumEntries → is_Some (v_objs v !! p);
}.

(** Objects in use leave room in the queue, so giving one back always succeeds. *)
Lemma pool_room v p :
  pool_wf v → 0 ≤ p < NumEntries → p ∉ v_pool v →
  Z.of_nat (length (v_pool v)) < v_pool_capacity v.
Proof.
  intros [Hc Hnd Hf _] Hp Hn.
  assert (length (p :: v_pool v) ≤ length (seqZ 0 NumEntries))%nat as Hl.
  { apply submseteq_length, NoDup_submseteq; [by constructor|].
    intros q [->|Hq]%elem_of_cons; apply elem_of_seqZ; [lia|]. apply Hf in Hq. lia. }
  rewrite length_seqZ in Hl. simpl in Hl. lia.
Qed.

Lemma wp_push_object i u v :
  Z.of_nat (length (v_pool v)) < v_pool_capacity v →
  wp (push_object i u) v
    (returns (λ _ v', v' = set_pool (v_pool v ++ [i]) (v_pool_capacity v) v)).
Proof.
  intros Hl. unfold push_object. eapply wp_bind_returns.
  - apply wp_perform; [done|]. intros x v'. cbn. rewrite decide_True by done. intros H. exact H.
  - by intros a v' [_ ->].
Qed.

Lemma wp_fill n v :
  0 ≤ n ≤ v_pool_capacity v → v_pool v = [] →
  wp (for_each (seqZ 0 n) push_object tt) v
    (returns (λ _ v', v' = set_pool (seqZ 0 n) (v_pool_capacity v) v)).
Proof.
  intros Hn Hv. apply (wp_for_each _ (λ l _ v', v' = set_pool l (v_pool_capacity v) v)).
  { rewrite <- Hv. by destruct v. }
  intros l1 x l2 u v1 [-> Hx]%seqZ_split ->. rewrite Z.sub_0_r in *.
  eapply wp_mono; [apply wp_push_object|].
  - simpl. rewrite length_seqZ. lia.
  - intros [?|?] v'; [|done]. by intros ->.
Qed.

Lemma wp_Allocator_initialize a v :
  initialized a = false →
  wp (Allocator_initialize a) v (returns (λ a' v', initialized a' = true ∧ pool_wf v' ∧
    ∃ o, v' = set_pool (seqZ 0 NumEntries) NumEntries (set_objs o v))).
Proof.
  intros Ha. unfold Allocator_initialize. apply wp_bind, wp_assert; [|by rewrite Ha].
  cbv beta iota. split; [done|]. intros ? v1 (o&->&Ho). cbn -[wp].
  split; [done|]. intros ? v2 ->. cbn -[wp].
  eapply wp_bind_returns; [apply wp_fill; [simpl; rewrite NumEntries_eq; lia|done]|]. intros _ v3 ->. simpl.
  split; [done|]. split; [|by exists o]. split; simpl; [done|apply NoDup_seqZ| |done].
  intros q Hq%elem_of_seqZ. lia.
Qed.

(** [allocate] takes the object that has been free the longest. *)
Lemma wp_allocate fuel a seg first num vals rem t v p l :
  initialized a = true → pool_wf v → v_pool v = p :: l → (0 < fuel)%nat →
  wp (allocate fuel a seg first num vals rem t) v (returns (λ p' v', p' = p ∧ pool_wf v' ∧
    ∃ junk, v' = set_objs (<[p := WaitingRange_ctor junk seg first num vals rem t]> (v_objs v))
                   (set_pool l (v_pool_capacity v) v))).
Proof.
  intros Ha [Hc Hnd Hf Ho] Hp Hfuel. unfold allocate. destruct fuel as [|fuel]; [lia|].
  apply wp_bind, wp_assert; [|done]. cbv beta iota. rewrite Hp in Hnd, Hf.
  assert (is_Some (v_objs v !! p)) as Hsp by (apply Ho, Hf; left).
  split; [done|]. intros x v1. cbn. rewrite Hp. intros [-> ->]. cbn.
  split; [done|]. intros _ v2 (old&Hold&->). simpl. split; [done|]. split.
  - split; simpl; [done|by apply NoDup_cons in Hnd as [_ ?]| |].
    + intros q Hq. apply Hf. by right.
    + intros q Hq. apply Ho in Hq. apply lookup_insert_is_Some'. by right.
  - by exists (_notifiedValue old).
Qed.

(** With every object in use it waits. *)
Lemma wp_allocate_exhausted fuel a seg first num vals rem t v :
  initialized a = true → v_pool v = [] →
  wp (allocate fuel a seg first num vals rem t) v (λ r _, r = inr OutOfFuel).
Proof.
  intros Ha. unfold allocate. intros Hp. wp_assert. revert v Hp.
  induction fuel as [|fuel IH]; intros v Hp; simpl; [done|]. split; [done|].
  intros x v'. rewrite Hp. intros [-> ->]. by apply IH.
Qed.

(** [free] makes a complete object in use the last free one. *)
Lemma wp_free a p r v :
  initialized a = true → pool_wf v → 0 ≤ p < NumEntries → p ∉ v_pool v →
  v_objs v !! p = Some r → _remaining r = 0 →
  wp (free a p) v (returns (λ _ v', pool_wf v' ∧
    v' = set_pool (v_pool v ++ [p]) (v_pool_capacity v) v)).
Proof.
  intros Ha Hw Hp Hnot Hr Hrem. pose proof (pool_room _ _ Hw Hp Hnot) as Hroom.
  destruct Hw as [Hc Hnd Hf Ho]. unfold free.
  apply wp_bind, wp_assert; [|done]. cbv beta iota.
  split; [by eexists|]. intros r' v1 [-> Hr']. simplify_eq. cbn -[wp].
  apply wp_bind, wp_assert; [|by rewrite Hrem]. cbv beta iota.
  split; [done|]. intros x v2. cbn. rewrite decide_True by done. intros [-> ->].
  apply wp_assert; [|done]. simpl. split; [|done]. split; simpl; [done| | |done].
  - apply NoDup_app. split_and!; [done| |apply NoDup_singleton].
    by intros q Hq Heq%list_elem_of_singleton; subst q.
  - intros q [?|Heq%list_elem_of_singleton]%elem_of_app; [by apply Hf|by subst q].
Qed.
End pool.

(** ** What the clients rely on *)

Section allocator_properties.
Context `{BC : BuildConfig} `{GT : GaspiTypes}.

(** [k] allocations of like ranges. *)
Fixpoint allocate_many (k fuel : nat) (a : Allocator) (seg task : Z) : prog (list Z) :=
  match k with
  | O => Ret []
  | S k =>
      p ← allocate fuel a seg 0 1 None 1 task;
      l ← allocate_many k fuel a seg task;
      Ret (p :: l)
  end.

Lemma wp_allocate_many k fuel a seg t v :
  initialized a = true → pool_wf v → (k ≤ length (v_pool v))%nat → (0 < fuel)%nat →
  wp (allocate_many k fuel a seg t) v
    (returns (λ l v', l = take k (v_pool v) ∧ v_pool v' = drop k (v_pool v))).
Proof.
  intros Ha Hw Hk Hfuel. revert v Hw Hk. induction k as [|k IH]; intros v Hw Hk; simpl.
  { by rewrite take_0, drop_0. }
  destruct (v_pool v) as [|p l] eqn:Hp; [simpl in Hk; lia|]. simpl in *.
  eapply wp_bind_returns; [by eapply wp_allocate|]. intros p' v1 (->&Hw1&junk&->).
  eapply wp_bind_returns; [apply IH; [done|simpl; lia]|].
  intros l' v2 [-> Hv2]. simpl in *. done.
Qed.

(** C31. After [initialize], up to [NumEntries] objects can be allocated without waiting, and they
    are different. *)
Theorem allocate_distinct {W} `{!Runtime W} `{!RuntimeSpec W} (w : W) k seg task :
  Z.of_nat k ≤ NumEntries →
  ∃ l w', run (a ← Allocator_initialize Allocator_static; allocate_many k 1 a seg task) w =
            (inl l, w') ∧
    length l = k ∧ NoDup l ∧ Forall (λ p, 0 ≤ p < NumEntries) l.
Proof.
  intros Hk.
  edestruct (wp_run (a ← Allocator_initialize Allocator_static; allocate_many k 1 a seg task)
    w (returns (λ l _, l = take k (seqZ 0 NumEntries)))) as (r&w'&Hr&Hp).
  - eapply wp_bind_returns; [by apply wp_Allocator_initialize|]. intros a v (Ha&Hw&o&->).
    eapply wp_mono; [apply wp_allocate_many; [done|done| |lia]|].
    + simpl. rewrite length_seqZ. lia.
    + intros [l|f] v'; simpl; [|done]. by intros [-> _].
  - destruct r as [l|]; simpl in Hp; [|done]. exists l, w'. split; [done|]. subst l.
    split_and!.
    + rewrite length_take, length_seqZ. lia.
    + pose proof (NoDup_seqZ 0 NumEntries) as Hnd. rewrite <- (take_drop k) in Hnd.
      by apply NoDup_app in Hnd as [? _].
    + apply Forall_take, Forall_forall. intros q Hq%elem_of_seqZ. lia.
Qed.

(** With every object in use, [allocate] waits until another thread frees one. *)
Theorem allocate_exhausted {W} `{!Runtime W} `{!RuntimeSpec W} (w : W) fuel a seg first num
    vals rem task :
  initialized a = true → v_pool (view_of w) = [] →
  ∃ w', run (allocate fuel a seg first num vals rem task) w = (inr OutOfFuel, w').
Proof.
  intros Ha Hp. destruct (wp_run _ w _ (wp_allocate_exhausted fuel a seg first num vals rem task _
    Ha Hp)) as (r&w'&Hr&->). by exists w'.
Qed.

(** An object that was allocated and freed is free again, behind the others, and freeing it
    meets no failing assertion. *)
Theorem allocate_free {W} `{!Runtime W} `{!RuntimeSpec W} (w : W) a p l seg first num vals task :
  initialized a = true → pool_wf (view_of w) → v_pool (view_of w) = p :: l →
  ∃ w', run (p ← allocate 1 a seg first num vals 0 task; free a p) w = (inl tt, w') ∧
    v_pool (view_of w') = l ++ [p] ∧ pool_wf (view_of w').
Proof.
  intros Ha Hw Hp.
  edestruct (wp_run (p ← allocate 1 a seg first num vals 0 task; free a p) w
    (returns (λ _ v', v_pool v' = l ++ [p] ∧ pool_wf v'))) as (r&w'&Hr&Hpost).
  - eapply wp_bind_returns; [eapply wp_allocate; [done..|lia]|].
    intros p' v1 (->&Hw1&junk&->). pose proof Hw as [_ Hnd Hf _]. rewrite Hp in Hnd, Hf.
    eapply wp_mono; [eapply wp_free; [done|done| | | |]|].
    + apply Hf. left.
    + simpl. by apply NoDup_cons in Hnd as [? _].
    + simpl. by rewrite lookup_insert_eq.
    + done.
    + intros [u|f] v2; simpl; [|done]. by intros [? ->].
  - destruct r as [[]|]; [|done]. exists w'. by destruct Hpost.
Qed.

(** [finalize] keeps the pointers, so a build with assertions cannot initialise the allocator a
    second time. *)
Theorem Allocator_debug_reinitialize {W} `{!Runtime W} `{!RuntimeSpec W} (w : W) :
  NDEBUG = false →
  ∃ w', run (a ← Allocator_initialize Allocator_static;
             a ← Allocator_finalize a;
             Allocator_initialize a) w = (inr (AssertFailed "!initialized()"), w').
Proof.
  intros Hd. edestruct (wp_run (a ← Allocator_initialize Allocator_static;
    a ← Allocator_finalize a; Allocator_initialize a) w
    (λ r _, r = inr (AssertFailed "!initialized()"))) as (r&w'&Hr&->); [|by exists w'].
  eapply wp_bind_returns; [by apply wp_Allocator_initialize|]. intros a v (Ha&_).
  unfold Allocator_finalize, Allocator_initialize. rewrite Ha.
  unfold assert. rewrite Hd. simpl. split; [done|]. intros ? v1 ->. split; [done|].
  intros ? v2 ->. rewrite Ha. done.
Qed.
End allocator_properties.

(** ** Examples *)

Section allocator_examples.
#[local] Existing Instance sim_types.
#[local] Existing Instance release_build.

(** Counting in binary keeps the map quick to build. *)
Definition fresh_next (im : Z * gmap Z WaitingRange) : Z * gmap Z WaitingRange :=
  (im.1 + 1, <[im.1 := WaitingRange_ctor 0 0 0 0 None 0 0]> im.2).

Definition fresh_upto (n : Z) : gmap Z WaitingRange :=
  (N.iter (Z.to_N n) fresh_next (0, ∅)).2.

Lemma fresh_upto_spec n p : 0 ≤ p < n → is_Some (fresh_upto n !! p).
Proof.
  intros Hp. unfold fresh_upto. set (m := Z.to_N n). assert (p < Z.of_N m) as Hm by lia.
  revert p Hp Hm.
  enough (∀ m, (N.iter m fresh_next (0, ∅)).1 = Z.of_N m ∧
    ∀ p, 0 ≤ p < Z.of_N m → is_Some ((N.iter m fresh_next (0, ∅)).2 !! p)) as H.
  { intros p Hp Hm. apply H. lia. }
  clear m. intros m. apply (N.iter_ind _ _ _ (λ m (im : Z * gmap Z WaitingRange),
    im.1 = Z.of_N m ∧ ∀ p, 0 ≤ p < Z.of_N m → is_Some (im.2 !! p))); [split; [done|simpl; lia]|].
  intros i [j t] [Hj IH]. simpl in Hj, IH |- *. subst j. split; [lia|]. intros p Hp.
  destruct (decide (Z.of_N i = p)) as [->|]; [by rewrite lookup_insert_eq|].
  rewrite lookup_insert_ne by done. apply IH. lia.
Qed.

#[global] Opaque fresh_upto.

(** A world where the free objects are those in [l]. *)
Definition sim_pool (l : list Z) : Sim :=
  on_view (λ v, set_pool l NumEntries (set_objs (fresh_upto NumEntries) v)) sim0.

Lemma sim_pool_wf l :
  NoDup l → Forall (λ p, 0 ≤ p < 64000) l → pool_wf (view_of (sim_pool l)).
Proof.
  intros Hnd Hf. split; simpl; [done|done| |apply fresh_upto_spec].
  rewrite NumEntries_eq. rewrite Forall_forall in Hf. done.
Qed.

Lemma allocate_distinct_witness :
  ∃ l w', run (a ← Allocator_initialize Allocator_static; allocate_many 3 1 a 0 77) sim0 =
            (inl l, w') ∧ length l = 3%nat ∧ NoDup l ∧ Forall (λ p, 0 ≤ p < NumEntries) l.
Proof. apply (allocate_distinct sim0 3 0 77). rewrite NumEntries_eq. lia. Defined.

Lemma allocate_exhausted_witness :
  ∃ w', run (allocate 10 (mkAllocator true true) 0 4 1 None 1 77) (sim_pool []) =
    (inr OutOfFuel, w').
Proof. apply (allocate_exhausted (sim_pool [])); reflexivity. Defined.

Lemma allocate_free_witness :
  ∃ w', run (p ← allocate 1 (mkAllocator true true) 0 4 1 None 0 77;
             free (mkAllocator true true) p) (sim_pool [7; 5]) = (inl tt, w') ∧
    v_pool (view_of w') = [5; 7] ∧ pool_wf (view_of w').
Proof.
  apply (allocate_free (sim_pool [7; 5]) (mkAllocator true true) 7 [5]); [done| |done].
  apply sim_pool_wf; [apply (bool_decide_unpack (NoDup [7; 5])); by vm_compute|].
  repeat constructor; lia.
Defined.
End allocator_examples.

Section allocator_debug_examples.
#[local] Existing Instance sim_types.
#[local] Existing Instance debug_build.

Lemma Allocator_debug_reinitialize_witness :
  ∃ w', run (a ← Allocator_initialize Allocator_static;
             a ← Allocator_finalize a;
             Allocator_initialize a) sim0 = (inr (AssertFailed "!initialized()"), w').
Proof. exact (Allocator_debug_reinitialize (BC := debug_build) sim0 eq_refl). Defined.
End allocator_debug_examples.
