(* ===== verification/WaitingRange.v ===== *)
(** Class [WaitingRange] (common/WaitingRange.hpp): checking whether the notifications of a range
    have arrived, consuming those that have, and completing the range. *)

From S2P Require Import Prelude Types Interface Contract Sim Hoare TaskingModel.
Open Scope Z_scope.

(** Where a notified value goes: nowhere ([GASPI_NOTIFICATION_IGNORE]), to the user's memory, or
    to the field [_notifiedValue] of a range. *)
Variant value_pointer :=
  | ptr_ignore
  | ptr_user (address : Z)
  | ptr_field (object : Z).

Definition set_remaining (remaining : Z) (r : WaitingRange) : WaitingRange :=
  mkWaitingRange (_segment r) (_firstId r) (_numIds r) (_notifiedValues r) (_notifiedValue r)
    remaining (_task r).

Definition set_notifiedValue (value : Z) (r : WaitingRange) : WaitingRange :=
  mkWaitingRange (_segment r) (_firstId r) (_numIds r) (_notifiedValues r) value
    (_remaining r) (_task r).

(** A pointer of the API. *)
Definition user_pointer (values : option Z) : value_pointer :=
  match values with Some a => ptr_user a | None => ptr_ignore end.

Section waiting_range.
Context `{BC : BuildConfig} `{GT : GaspiTypes}.

(** [if (p != GASPI_NOTIFICATION_IGNORE) *p = value]. *)
Definition store_value (p : value_pointer) (value : Z) : prog unit :=
  match p with
  | ptr_ignore => Ret tt
  | ptr_user address => perform (store_notification address value)
  | ptr_field object =>
      r ← perform (wr_load object);
      perform (wr_store object (set_notifiedValue value r))
  end.

(** [fprintf(stderr, ...); abort()], the messages being lines. *)
Definition print_abort {A} (message : list part) : prog A :=
  perform (eprint (message ++ [endl]));; Fault Aborted.

Definition checkNotification (segment notificationId : Z) (notifiedValue : value_pointer) :
    prog Z :=
  w ← perform (gaspi_notify_waitsome segment notificationId 1 GASPI_TEST);
  match w.1 with
  | GASPI_SUCCESS =>
      assert "id == notificationId" (w.2 =? notificationId);;
      n ← perform (gaspi_notify_reset segment notificationId);
      if decide (n.1 ≠ GASPI_SUCCESS) then
        print_abort [PStr "Error: Return code "; PRet (n.1); PStr " from gaspi_notify_reset"]
      else if decide (n.2 ≠ 0) then
        store_value notifiedValue (n.2);; Ret 0
      else Ret 1
  | GASPI_TIMEOUT => Ret 1
  | eret => print_abort [PStr "Error: Return code "; PRet eret; PStr " from gaspi_notify_waitsome"]
  end.

(** The [do]-[while] loop of the static [checkNotifications]. *)
Fixpoint check_loop (fuel : nat) (segment firstId numIds : Z) (notifiedValues : option Z)
    (remaining : Z) : prog Z :=
  match fuel with
  | O => Fault OutOfFuel
  | S fuel =>
      w ← perform (gaspi_notify_waitsome segment firstId numIds GASPI_TEST);
      match w.1 with
      | GASPI_SUCCESS =>
          let notifiedId := w.2 in
          assert "notifiedId >= firstId && notifiedId < firstId + numIds"
            ((firstId <=? notifiedId) && (notifiedId <? number (firstId + numIds)));;
          n ← perform (gaspi_notify_reset segment notifiedId);
          if decide (n.1 ≠ GASPI_SUCCESS) then
            print_abort [PStr "Error: Return code "; PRet (n.1); PStr " from gaspi_notify_reset"]
          else if decide (n.2 ≠ 0) then
            store_value (user_pointer ((λ a, a + (notifiedId - firstId)) <$> notifiedValues)) (n.2);;
            let remaining := number (remaining - 1) in
            if 0 <? remaining then check_loop fuel segment firstId numIds notifiedValues remaining
            else Ret remaining
          else Ret remaining
      | GASPI_TIMEOUT => Ret remaining
      | eret =>
          print_abort [PStr "Error: Return code "; PRet eret; PStr " from gaspi_notify_waitsome"]
      end
  end.

(** Every iteration that continues decreases [remaining], which reaches 0 after as many
    decrements as the fuel, wrapping around included. *)
Definition checkNotifications (segment firstId numIds : Z) (notifiedValues : option Z)
    (remaining : Z) : prog Z :=
  assert "remaining > 0" (0 <? remaining);;
  assert "remaining <= numIds" (remaining <=? numIds);;
  check_loop (S (Z.to_nat (number (remaining - 1)))) segment firstId numIds notifiedValues
    remaining.

(** The member [checkNotifications] of the range at [object]. *)
Definition WaitingRange_checkNotifications (object : Z) : prog bool :=
  r ← perform (wr_load object);
  (if _numIds r =? 1 then
     remaining ← checkNotification (_segment r) (_firstId r) (ptr_field object);
     r ← perform (wr_load object);
     perform (wr_store object (set_remaining remaining r));;
     r ← perform (wr_load object);
     store_value (user_pointer (_notifiedValues r)) (_notifiedValue r)
   else
     remaining ← checkNotifications (_segment r) (_firstId r) (_numIds r) (_notifiedValues r)
                   (_remaining r);
     r ← perform (wr_load object);
     perform (wr_store object (set_remaining remaining r)));;
  r ← perform (wr_load object);
  Ret (_remaining r =? 0).

Definition complete (tm : TaskingModel) (object : Z) : prog unit :=
  r ← perform (wr_load object);
  decreaseTaskEvents tm (_task r) 1.
End waiting_range.

#[global] Arguments print_abort {A} message : simpl never.

(** ** What a check consumes *)

Section consume.
Context (segment firstId : Z) (notifiedValues : option Z).

(** Notification [i] is reset and its value stored where the user asked. *)
Definition consume_one (v : view) (i : Z) : view :=
  set_notif (delete (segment, i) (v_notif v))
    (match notifiedValues with
     | Some a => set_mem (<[a + (i - firstId) := notif v segment i]> (v_mem v)) v
     | None => v
     end).

Definition consume (C : list Z) (v : view) : view := foldl consume_one v C.

Lemma notif_consume_one v s i j :
  notif (consume_one v i) s j = if decide (s = segment ∧ j = i) then 0 else notif v s j.
Proof.
  unfold notif, consume_one. simpl. case_decide as Hd.
  - destruct Hd as [-> ->]. by rewrite lookup_delete_eq.
  - rewrite lookup_delete_ne by naive_solver. by destruct notifiedValues.
Qed.

Lemma notif_consume C v s j :
  notif (consume C v) s j = if decide (s = segment ∧ j ∈ C) then 0 else notif v s j.
Proof.
  revert v. induction C as [|i C IH]; intros v; simpl.
  { rewrite decide_False; [done|]. by intros [_ ?%elem_of_nil]. }
  rewrite IH, notif_consume_one.
  destruct (decide (s = segment ∧ j ∈ C)) as [[-> ?]|Hn].
  { rewrite decide_True; [done|]. split; [done|by right]. }
  destruct (decide (s = segment ∧ j = i)) as [[-> ->]|Hn'].
  { rewrite decide_True; [done|]. split; [done|left]. }
  rewrite decide_False; [done|]. intros [-> [->|?]%elem_of_cons]; naive_solver.
Qed.

(** Each consumed value is in the user's array afterwards, and nothing else changed there. *)
Lemma mem_consume C v b :
  NoDup C →
  v_mem (consume C v) !! b =
    match notifiedValues with
    | Some a => if decide (b - a + firstId ∈ C) then Some (notif v segment (b - a + firstId))
                else v_mem v !! b
    | None => v_mem v !! b
    end.
Proof.
  revert v. induction C as [|i C IH]; intros v Hnd; simpl.
  { by destruct notifiedValues. }
  apply NoDup_cons in Hnd as [Hi Hnd]. rewrite IH by done.
  destruct notifiedValues as [a|] eqn:Ha; [|unfold consume_one; by rewrite Ha].
  rewrite notif_consume_one. unfold consume_one. rewrite Ha. simpl.
  destruct (decide (b - a + firstId ∈ C)) as [Hb|Hb].
  - rewrite decide_False by naive_solver. rewrite decide_True; [done|by right].
  - destruct (decide (b = a + (i - firstId))) as [->|Hne].
    + replace (a + (i - firstId) - a + firstId) with i by lia.
      rewrite lookup_insert_eq, decide_True; [done|left].
    + rewrite lookup_insert_ne by done. rewrite decide_False; [done|].
      intros [?|?]%elem_of_cons; [lia|done].
Qed.

(** Nothing but notifications and the user's values changes. *)
Lemma consume_frame C v :
  consume C v = set_mem (v_mem (consume C v)) (set_notif (v_notif (consume C v)) v).
Proof.
  revert v. induction C as [|i C IH]; intros v; simpl; [by destruct v|].
  rewrite IH. unfold consume_one. by destruct notifiedValues.
Qed.

Lemma consume_objs C v : v_objs (consume C v) = v_objs v.
Proof. by rewrite consume_frame. Qed.
End consume.

(** [C] are notifications of the range [firstId, firstId + numIds) that had arrived, and either
    the range is complete or no notification of it is left. *)
Record consumes (segment firstId numIds remaining : Z) (v v' : view) (C : list Z) : Prop := {
  cs_NoDup : NoDup C;
  cs_range i : i ∈ C → firstId ≤ i < firstId + numIds;
  cs_arrived i : i ∈ C → notif v segment i ≠ 0;
  cs_count : Z.of_nat (length C) ≤ remaining;
  cs_rest : Z.of_nat (length C) = remaining ∨
    ∀ i, firstId ≤ i < firstId + numIds → notif v' segment i = 0;
}.

Lemma consumes_nil seg f n rem v v' :
  0 ≤ rem → (∀ i, f ≤ i < f + n → notif v' seg i = 0) → consumes seg f n rem v v' [].
Proof.
  intros Hr Hn. split; [constructor|by intros i ?%elem_of_nil..|done|by right].
Qed.

Lemma consumes_cons seg f n vals rem v i C :
  f ≤ i < f + n → notif v seg i ≠ 0 →
  consumes seg f n (rem - 1) (consume_one seg f vals v i)
    (consume seg f vals C (consume_one seg f vals v i)) C →
  consumes seg f n rem v (consume seg f vals (i :: C) v) (i :: C).
Proof.
  intros Hi Hni [Hnd Hrg Har Hct Hrs].
  assert (∀ j, j ∈ C → j ≠ i ∧ notif v seg j ≠ 0) as Har'.
  { intros j Hj. apply Har in Hj. rewrite notif_consume_one in Hj. case_decide; naive_solver. }
  split.
  - constructor; [|done]. intros Hin. by apply Har' in Hin as [].
  - intros j [->|Hj]%elem_of_cons; [done|by apply Hrg].
  - intros j [->|Hj]%elem_of_cons; [done|by apply Har'].
  - simpl. lia.
  - simpl. destruct Hrs; [left; lia|by right].
Qed.

Section waiting_range_specs.
Context `{BC : BuildConfig} `{GT : GaspiTypes}.

Lemma wp_print_abort {A} message v (P : A → view → Prop) :
  wp (print_abort message) v (may_abort P).
Proof. by split. Qed.

Lemma wp_check_loop seg f n vals rem fuel v :
  0 ≤ f → 0 < rem < 2 ^ number_bits → f + n < 2 ^ number_bits → rem ≤ Z.of_nat fuel →
  wp (check_loop fuel seg f n vals rem) v (may_abort (λ rem' v', ∃ C,
    v' = consume seg f vals C v ∧ consumes seg f n rem v v' C ∧
    rem' = rem - Z.of_nat (length C))).
Proof.
  intros Hf Hrem Hfn. revert rem Hrem v.
  induction fuel as [|fuel IH]; intros rem Hrem v Hfuel; [lia|]. simpl.
  split; [done|]. intros [e i] v1 [-> Hw]. simpl in *.
  destruct e; try apply wp_print_abort; simpl in *.
  2:{ exists []. split; [done|]. simpl. split; [|lia]. apply consumes_nil; [lia|done]. }
  destruct Hw as [Hi Hni]. apply wp_bind, wp_assert.
  2:{ rewrite number_small by lia. apply andb_true_intro. split; [apply Z.leb_le|apply Z.ltb_lt]; lia. }
  cbv beta iota. split; [done|]. intros [e x] v2 Hx. simpl in *.
  destruct (decide (e ≠ GASPI_SUCCESS)) as [He|He]; [apply wp_print_abort|].
  apply dec_stable in He as ->. rewrite decide_True in Hx by done. destruct Hx as [-> ->].
  rewrite (decide_True (P := notif v seg i ≠ 0)) by done.
  apply (wp_bind_abort _ _ _ (λ _ v', v' = consume_one seg f vals v i)).
  { destruct vals as [a|]; simpl; [|done]. split; [done|]. by intros ? ? ->. }
  intros _ v3 ->. rewrite number_small by lia. destruct (Z.ltb_spec 0 (rem - 1)) as [Hr|Hr].
  - eapply wp_mono; [apply IH; lia|]. intros [rem'|f'] v'; simpl; [|done].
    intros (C&->&HC&->). exists (i :: C). split; [done|]. split; [|simpl; lia].
    by apply consumes_cons.
  - exists [i]. split; [done|]. split; [|simpl; lia].
    apply (consumes_cons seg f n vals rem v i []); [done..|].
    split; [constructor|by intros j ?%elem_of_nil..|simpl; lia|left; simpl; lia].
Qed.

Lemma wp_checkNotifications seg f n vals rem v :
  0 ≤ f → 0 < rem ≤ n → f + n < 2 ^ number_bits →
  wp (checkNotifications seg f n vals rem) v (may_abort (λ rem' v', ∃ C,
    v' = consume seg f vals C v ∧ consumes seg f n rem v v' C ∧
    rem' = rem - Z.of_nat (length C))).
Proof.
  intros Hf Hrem Hfn. unfold checkNotifications.
  apply wp_bind, wp_assert; [|apply Z.ltb_lt; lia]. cbv beta iota.
  apply wp_bind, wp_assert; [|apply Z.leb_le; lia]. cbv beta iota.
  apply wp_check_loop; [done|lia..|]. rewrite number_small by lia. lia.
Qed.
(** What storing a value through a pointer does. *)
Definition stored (p : value_pointer) (x : Z) (v : view) : view :=
  match p with
  | ptr_ignore => v
  | ptr_user a => set_mem (<[a := x]> (v_mem v)) v
  | ptr_field o => match v_objs v !! o with
                   | Some r => set_objs (<[o := set_notifiedValue x r]> (v_objs v)) v
                   | None => v
                   end
  end.

Definition pointer_ok (p : value_pointer) (v : view) : Prop :=
  match p with ptr_field o => is_Some (v_objs v !! o) | _ => True end.

Lemma wp_load {A} object r v (k : WaitingRange → prog A) Q :
  v_objs v !! object = Some r → wp (k r) v Q → wp (perform (wr_load object) ≫= k) v Q.
Proof.
  intros Hr Hk. split; [by eexists|]. intros r1 v1 [-> Hr1]. by simplify_eq.
Qed.

Lemma wp_store {A} object r v (k : unit → prog A) Q :
  wp (k tt) (set_objs (<[object := r]> (v_objs v)) v) Q →
  wp (perform (wr_store object r) ≫= k) v Q.
Proof. intros Hk. split; [done|]. by intros [] ? ->. Qed.

Lemma wp_store_value p x v (P : unit → view → Prop) :
  pointer_ok p v → P tt (stored p x v) → wp (store_value p x) v (may_abort P).
Proof.
  destruct p as [|a|o]; simpl; intros Hp HP; [done| |].
  - split; [done|]. by intros [] ? ->.
  - split; [done|]. intros r v1 [-> Hr]. split; [done|]. intros [] ? ->. simpl.
    by rewrite Hr in HP.
Qed.

Lemma wp_checkNotification seg i p v :
  pointer_ok p v →
  wp (checkNotification seg i p) v (may_abort (λ rem v',
    if decide (notif v seg i = 0) then rem = 1 ∧ v' = v
    else rem = 0 ∧ v' = stored p (notif v seg i) (set_notif (delete (seg, i) (v_notif v)) v))).
Proof.
  intros Hp. unfold checkNotification. split; [done|]. intros [e j] v1 [-> Hw].
  simpl in Hw |- *. destruct e; try apply wp_print_abort; simpl.
  - destruct Hw as [Hj Hnj]. assert (j = i) as -> by lia.
    apply wp_bind, wp_assert; [|by apply Z.eqb_eq]. cbv beta iota.
    split; [done|]. intros [e x] v2 Hx. simpl in Hx |- *.
    destruct (decide (e ≠ GASPI_SUCCESS)) as [He|He]; [apply wp_print_abort|].
    apply dec_stable in He as ->. rewrite decide_True in Hx by done. destruct Hx as [-> ->].
    rewrite (decide_True (P := notif v seg i ≠ 0)) by done.
    destruct (decide (notif v seg i = 0)); [done|].
    apply (wp_bind_abort _ _ _ (λ _ v', v' = stored p (notif v seg i)
      (set_notif (delete (seg, i) (v_notif v)) v))); [|by intros _ ? ->].
    apply wp_store_value; [by destruct p|done].
  - destruct (decide (notif v seg i = 0)) as [|Hn]; [done|]. destruct Hn. apply Hw. lia.
Qed.

(** ** The member function *)

(** A pending range: it waits for at least one of its notifications, and a range of one
    identifier for exactly one. *)
Record range_ok (r : WaitingRange) : Prop := {
  rg_first : 0 ≤ _firstId r;
  rg_remaining : 0 < _remaining r ≤ _numIds r;
  rg_last : _firstId r + _numIds r < 2 ^ number_bits;
}.

(** What [checkNotifications] does to the world when it consumes [C]: a range of one identifier
    stores its field even when the notification has not arrived. *)
Definition checked (object : Z) (r : WaitingRange) (C : list Z) (v : view) : view :=
  let v1 := consume (_segment r) (_firstId r) (_notifiedValues r) C v in
  let r1 := set_remaining (_remaining r - Z.of_nat (length C)) r in
  if decide (_numIds r = 1) then
    match C with
    | [] => stored (user_pointer (_notifiedValues r)) (_notifiedValue r)
              (set_objs (<[object := r1]> (v_objs v)) v1)
    | i :: _ =>
        set_objs (<[object := set_notifiedValue (notif v (_segment r) i) r1]> (v_objs v)) v1
    end
  else set_objs (<[object := r1]> (v_objs v)) v1.

Lemma checked_object object r C v :
  ∃ nv, v_objs (checked object r C v) = <[object :=
    set_notifiedValue nv (set_remaining (_remaining r - Z.of_nat (length C)) r)]> (v_objs v).
Proof.
  unfold checked. destruct (decide (_numIds r = 1)); [|by exists (_notifiedValue r)].
  destruct C as [|i C]; [|by eexists]. exists (_notifiedValue r).
  by destruct (_notifiedValues r).
Qed.

Lemma wp_check_many object r v :
  v_objs v !! object = Some r → range_ok r → _numIds r ≠ 1 →
  wp (remaining ← checkNotifications (_segment r) (_firstId r) (_numIds r) (_notifiedValues r)
                   (_remaining r);
      r ← perform (wr_load object);
      perform (wr_store object (set_remaining remaining r))) v (may_abort (λ _ v', ∃ C,
    v' = checked object r C v ∧
    consumes (_segment r) (_firstId r) (_numIds r) (_remaining r) v v' C)).
Proof.
  intros Hr [Hf Hrem Hl] Hn. eapply wp_bind_abort; [by apply wp_checkNotifications|].
  intros rem v1 (C&->&[]&->). apply (wp_load _ r); [by rewrite consume_objs|].
  split; [done|]. intros [] v2 ->. exists C. unfold checked.
  rewrite decide_False, consume_objs by done. by split.
Qed.

Lemma wp_check_one object r v :
  v_objs v !! object = Some r → range_ok r → _numIds r = 1 →
  wp (remaining ← checkNotification (_segment r) (_firstId r) (ptr_field object);
      r ← perform (wr_load object);
      perform (wr_store object (set_remaining remaining r));;
      r ← perform (wr_load object);
      store_value (user_pointer (_notifiedValues r)) (_notifiedValue r)) v
    (may_abort (λ _ v', ∃ C, v' = checked object r C v ∧
      consumes (_segment r) (_firstId r) (_numIds r) (_remaining r) v v' C)).
Proof.
  intros Hr [Hf Hrem Hl] Hn. assert (_remaining r = 1) as Hr1 by lia.
  eapply wp_bind_abort; [apply wp_checkNotification; by eexists|]. intros rem v1 Hv1.
  destruct (decide (notif v (_segment r) (_firstId r) = 0)) as [Hz|Hz]; destruct Hv1 as [-> ->].
  - apply (wp_load _ r); [done|]. apply wp_store.
    apply (wp_load _ (set_remaining 1 r)); [simpl; by rewrite lookup_insert_eq|].
    apply wp_store_value; [simpl; by destruct (_notifiedValues r)|]. exists [].
    unfold checked. rewrite decide_True by done. simpl. rewrite Hr1. split; [done|].
    apply consumes_nil; [lia|]. intros i Hi. replace i with (_firstId r) by lia.
    rewrite <- Hz. by destruct (_notifiedValues r).
  - cbn [stored v_objs set_notif]. rewrite Hr. set (r' := set_notifiedValue (notif v (_segment r) (_firstId r)) r).
    apply (wp_load _ r'); [simpl; by rewrite lookup_insert_eq|]. apply wp_store.
    apply (wp_load _ (set_remaining 0 r')); [simpl; by rewrite lookup_insert_eq|].
    apply wp_store_value; [simpl; by destruct (_notifiedValues r)|]. exists [_firstId r].
    unfold checked. rewrite decide_True by done. simpl. rewrite Hr1. unfold consume_one. split.
    + rewrite insert_insert_eq. destruct (_notifiedValues r); simpl; [|done].
      by rewrite (Z.sub_diag (_firstId r)), Z.add_0_r.
    + split.
      * apply NoDup_singleton.
      * intros i ->%list_elem_of_singleton. lia.
      * by intros i ->%list_elem_of_singleton.
      * done.
      * by left.
Qed.

(** [checkNotifications] consumes the notifications that have arrived, as many as the range
    waits for; it returns whether that was the last of them. *)
Lemma wp_WaitingRange_check object r v :
  v_objs v !! object = Some r → range_ok r →
  wp (WaitingRange_checkNotifications object) v (may_abort (λ b v', ∃ C,
    v' = checked object r C v ∧
    consumes (_segment r) (_firstId r) (_numIds r) (_remaining r) v v' C ∧
    b = (Z.of_nat (length C) =? _remaining r))).
Proof.
  intros Hr Hok. unfold WaitingRange_checkNotifications. apply (wp_load _ r); [done|].
  assert (∀ v1 C, v1 = checked object r C v →
    wp (r ← perform (wr_load object); Ret (_remaining r =? 0)) v1
      (may_abort (λ b v', v' = v1 ∧ b = (Z.of_nat (length C) =? _remaining r)))) as Hend.
  { intros v1 C ->. destruct (checked_object object r C v) as [nv Ho].
    eapply wp_load; [by rewrite Ho, lookup_insert_eq|]. simpl. split; [done|].
    destruct (Z.eqb_spec (Z.of_nat (length C)) (_remaining r)); [apply Z.eqb_eq|apply Z.eqb_neq]; lia. }
  eapply wp_bind_abort.
  - destruct (Z.eqb_spec (_numIds r) 1); [by apply wp_check_one|by apply wp_check_many].
  - intros _ v1 (C&Hv1&HC). eapply wp_mono; [by apply Hend|].
    intros [b|f'] v2; simpl; [|done]. intros [-> ->]. by exists C.
Qed.
End waiting_range_specs.

(** ** Properties *)

Section waiting_range_properties.
Context `{BC : BuildConfig} `{GT : GaspiTypes}.

(** [checkNotifications] consumes some of the arrived notifications of its range, each once:
    those it consumes are reset and their values are in the user's array, no other notification
    or value changes, the result is what is left to wait for, and it stops only when that is 0
    or no notification of the range is left. It never fails an assertion and always ends; it
    aborts when GASPI reports an error. *)
Theorem checkNotifications_consumes {W} `{!Runtime W} `{!RuntimeSpec W} (w : W)
    seg f n vals rem :
  let v := view_of w in
  0 ≤ f → 0 < rem ≤ n → f + n < 2 ^ number_bits →
  ∃ r w', run (checkNotifications seg f n vals rem) w = (r, w') ∧
    may_abort (λ rem' v', ∃ C : list Z,
      NoDup C ∧ (∀ i, i ∈ C → f ≤ i < f + n ∧ notif v seg i ≠ 0) ∧
      rem' = rem - Z.of_nat (length C) ∧ 0 ≤ rem' ∧
      (rem' = 0 ∨ ∀ i, f ≤ i < f + n → notif v' seg i = 0) ∧
      (∀ s i, notif v' s i = if decide (s = seg ∧ i ∈ C) then 0 else notif v s i) ∧
      (∀ b, v_mem v' !! b = match vals with
                            | Some a => if decide (b - a + f ∈ C) then Some (notif v seg (b - a + f))
                                        else v_mem v !! b
                            | None => v_mem v !! b
                            end) ∧
      v' = set_mem (v_mem v') (set_notif (v_notif v') v)) r (view_of w').
Proof.
  cbv zeta. intros Hf Hrem Hfn.
  destruct (wp_run _ w _ (wp_checkNotifications seg f n vals rem _ Hf Hrem Hfn))
    as (r&w'&Hr&HQ). exists r, w'. split; [done|]. destruct r as [rem'|]; [|done].
  destruct HQ as (C&Hv&[Hnd Hrg Har Hct Hrs]&->). exists C. simpl. rewrite Hv in Hrs |- *.
  split_and!; try done.
  - auto.
  - lia.
  - destruct Hrs; [left; lia|by right].
  - intros s i. apply notif_consume.
  - intros b. by apply mem_consume.
  - apply consume_frame.
Qed.

(** C37. A check of a range with one identifier whose notification has not arrived still writes to
    the user's memory: the field [_notifiedValue], which nothing has initialised. *)
Theorem single_check_stores_field {W} `{!Runtime W} `{!RuntimeSpec W} (w : W) object r a :
  let v := view_of w in
  v_objs v !! object = Some r → range_ok r → _numIds r = 1 → _notifiedValues r = Some a →
  notif v (_segment r) (_firstId r) = 0 →
  ∃ o w', run (WaitingRange_checkNotifications object) w = (o, w') ∧
    may_abort (λ b v', b = false ∧ v_mem v' !! a = Some (_notifiedValue r)) o (view_of w').
Proof.
  cbv zeta. intros Hr Hok Hn Ha Hz.
  destruct (wp_run _ w _ (wp_WaitingRange_check object r _ Hr Hok)) as (o&w'&Ho&HQ).
  exists o, w'. split; [done|]. destruct o as [b|]; [|done].
  destruct HQ as (C&Hv&[Hnd Hrg Har Hct Hrs]&->).
  assert (C = []) as ->.
  { destruct C as [|i C]; [done|]. destruct (Har i); [left|].
    specialize (Hrg i ltac:(left)). by replace i with (_firstId r) by lia. }
  destruct Hok. split; [apply Z.eqb_neq; simpl; lia|]. rewrite Hv. unfold checked.
  rewrite decide_True, Ha by done. simpl. by rewrite lookup_insert_eq.
Qed.
End waiting_range_properties.

(** ** Examples *)

Section waiting_range_examples.
#[local] Existing Instance sim_types.
#[local] Existing Instance release_build.

(** Notifications 3 and 5 of segment 0 have arrived with values 30 and 50. *)
Definition sim_arrived : Sim :=
  on_view (set_notif {[ (0, 3) := 30; (0, 5) := 50 ]}) sim0.

(** Object 9 is a range of one identifier that has not arrived, in a slot that held 1234. *)
Definition sim_range : Sim :=
  on_view (set_objs {[ 9 := WaitingRange_ctor 1234 0 4 1 (Some 100) 1 77 ]}) sim_arrived.

Example check_three_of :
  (run (checkNotifications 0 2 5 (Some 100) 3) sim_arrived).1 = inl 1.
Proof. by vm_compute. Qed.

Example check_mem :
  v_mem (view_of (run (checkNotifications 0 2 5 (Some 100) 3) sim_arrived).2) =
    {[ 101 := 30; 103 := 50 ]}.
Proof. by vm_compute. Qed.

Lemma checkNotifications_consumes_witness :
  ∃ r w', run (checkNotifications 0 2 5 (Some 100) 3) sim_arrived = (r, w') ∧
    may_abort (λ _ v', notif v' 0 3 = 0 ∨ notif v' 0 3 = 30) r (view_of w').
Proof.
  destruct (checkNotifications_consumes sim_arrived 0 2 5 (Some 100) 3) as (r&w'&Hr&HQ);
    [lia|lia|simpl; lia|]. exists r, w'. split; [exact Hr|]. destruct r as [b|f]; [|exact HQ].
  destruct HQ as (C&_&_&_&_&_&Hn&_). simpl. rewrite Hn. case_decide; [by left|by right].
Defined.

Lemma single_check_stores_field_witness :
  ∃ o w', run (WaitingRange_checkNotifications 9) sim_range = (o, w') ∧
    may_abort (λ b v', b = false ∧ v_mem v' !! 100 = Some 1234) o (view_of w').
Proof.
  apply (single_check_stores_field sim_range 9 (WaitingRange_ctor 1234 0 4 1 (Some 100) 1 77) 100);
    [done| |done..]. split; simpl; lia.
Defined.
End waiting_range_examples.
