(* ===== verification/WaitingRangeList.v ===== *)
(** Class [WaitingRangeList] (common/WaitingRangeList.hpp): the pending ranges of a segment. The
    list holds the ranges' addresses; their hooks are their positions in it. *)

From S2P Require Import Prelude Types Interface Contract Sim Hoare WaitingRange.
Open Scope Z_scope.

Section waiting_range_list.
Context `{BC : BuildConfig} `{GT : GaspiTypes}.

Definition list_dtor (l : list Z) : prog unit := assert "_list.empty()" (bool_decide (l = [])).

Definition add (l : list Z) (range : Z) : list Z := l ++ [range].

(** The [while] loop, the iterator being between [before] and [rest]; returns the list and
    [completeRanges]. *)
Fixpoint check_from (before rest completeRanges : list Z) : prog (list Z * list Z) :=
  match rest with
  | [] => Ret (before, completeRanges)
  | wr :: rest =>
      done ← WaitingRange_checkNotifications wr;
      if done : bool then check_from before rest (completeRanges ++ [wr])
      else check_from (before ++ [wr]) rest completeRanges
  end.

Definition list_checkNotifications (l completeRanges : list Z) : prog (list Z * list Z) :=
  check_from [] l completeRanges.

Definition list_empty (l : list Z) : bool := bool_decide (l = []).
End waiting_range_list.

(** ** What a scan of the list does *)

(** How many notifications an object still waits for. *)
Definition remaining (v : view) (o : Z) : Z := default 0 (_remaining <$> v_objs v !! o).

(** From [v] to [v'], exactly the notifications [C], all different, were consumed. *)
Record notifs_consumed (v v' : view) (C : list (Z * Z)) : Prop := {
  nc_NoDup : NoDup C;
  nc_arrived s i : (s, i) ∈ C → notif v s i ≠ 0;
  nc_after s i : notif v' s i = if decide ((s, i) ∈ C) then 0 else notif v s i;
}.

Lemma notifs_consumed_trans v v1 v2 C1 C2 :
  notifs_consumed v v1 C1 → notifs_consumed v1 v2 C2 → notifs_consumed v v2 (C1 ++ C2).
Proof.
  intros [Hn1 Ha1 Hf1] [Hn2 Ha2 Hf2]. split.
  - apply NoDup_app. split_and!; [done| |done]. intros [s i] H1 H2.
    apply Ha2 in H2. by rewrite Hf1, decide_True in H2.
  - intros s i [H|H]%elem_of_app; [by apply Ha1|]. apply Ha2 in H. rewrite Hf1 in H.
    by case_decide.
  - intros s i. rewrite Hf2, Hf1. destruct (decide ((s, i) ∈ C2)) as [H2|H2].
    + rewrite decide_True; [done|]. apply elem_of_app. by right.
    + destruct (decide ((s, i) ∈ C1)) as [H1|H1].
      * rewrite decide_True; [done|]. apply elem_of_app. by left.
      * rewrite decide_False; [done|]. by intros [?|?]%elem_of_app.
Qed.

Lemma NoDup_pair (s : Z) (C : list Z) : NoDup C → NoDup ((s,.) <$> C).
Proof. apply NoDup_fmap_2, _. Qed.

(** Every notification consumed from [v] to [v'] was counted for one range of [l], among whose
    identifiers it is: [C] has each with that range. *)
Record counted (l : list Z) (v v' : view) (C : list (Z * (Z * Z))) : Prop := {
  ct_consumed : notifs_consumed v v' C.*2;
  ct_range o s i : (o, (s, i)) ∈ C → o ∈ l ∧
    ∃ r, v_objs v !! o = Some r ∧ s = _segment r ∧ _firstId r ≤ i < _firstId r + _numIds r;
  ct_count o : o ∈ l → remaining v o = remaining v' o + count o C.*1;
}.

Lemma counted_none l v v' C o : counted l v v' C → o ∉ l → count o C.*1 = 0.
Proof.
  intros [_ Hr _] Ho. apply count_none, Forall_forall.
  intros o' ([o1 [s i]]&->&Hin)%list_elem_of_fmap Heq. simpl in Heq. subst o1.
  by apply Hr in Hin as [? _].
Qed.

(** The identifiers of a range do not change while it waits. *)
Definition same_ids (r r' : WaitingRange) : Prop :=
  _segment r' = _segment r ∧ _firstId r' = _firstId r ∧ _numIds r' = _numIds r.

Lemma counted_trans l l1 l2 v v1 v2 C1 C2 :
  counted l1 v v1 C1 → counted l2 v1 v2 C2 → l1 ⊆ l → l2 ⊆ l →
  (∀ o, o ∈ l → o ∉ l1 → v_objs v1 !! o = v_objs v !! o) →
  (∀ o, o ∈ l → o ∉ l2 → v_objs v2 !! o = v_objs v1 !! o) →
  (∀ o r1, o ∈ l2 → v_objs v1 !! o = Some r1 →
     ∃ r, v_objs v !! o = Some r ∧ same_ids r r1) →
  counted l v v2 (C1 ++ C2).
Proof.
  intros HC1 HC2 Hl1 Hl2 Ho1 Ho2 Hsame. pose proof HC1 as [Hc1 Hr1 Hn1].
  pose proof HC2 as [Hc2 Hr2 Hn2]. split.
  - rewrite fmap_app. by eapply notifs_consumed_trans.
  - intros o s i [Hin|Hin]%elem_of_app.
    + apply Hr1 in Hin as [Hin Hr]. split; [by apply Hl1|done].
    + apply Hr2 in Hin as (Hin&r1&Hv1&->&Hi). split; [by apply Hl2|].
      destruct (Hsame o r1 Hin Hv1) as (r&Hv&Es&Ef&En).
      exists r. by rewrite <- Ef, <- En.
  - intros o Ho. rewrite fmap_app, count_app.
    assert (remaining v o = remaining v1 o + count o C1.*1) as ->.
    { destruct (decide (o ∈ l1)) as [?|Hn]; [by apply Hn1|].
      rewrite (counted_none _ _ _ _ _ HC1 Hn). unfold remaining. rewrite Ho1 by done. lia. }
    assert (remaining v1 o = remaining v2 o + count o C2.*1) as ->; [|lia].
    destruct (decide (o ∈ l2)) as [?|Hn]; [by apply Hn2|].
    rewrite (counted_none _ _ _ _ _ HC2 Hn). unfold remaining. rewrite Ho2 by done. lia.
Qed.

(** Only objects and notifications matter, and ranges that were not touched may be added. *)
Lemma counted_mono l l' v v1 v2 v3 C :
  counted l v1 v2 C → l ⊆ l' → v_objs v1 = v_objs v → v_notif v1 = v_notif v →
  v_objs v3 = v_objs v2 → v_notif v3 = v_notif v2 →
  (∀ o, o ∈ l' → o ∉ l → v_objs v2 !! o = v_objs v1 !! o) → counted l' v v3 C.
Proof.
  intros HC Hl Ho Hn Ho' Hn' Hout. pose proof HC as [[Hnd Ha Hf] Hr Hc].
  assert (∀ s i, notif v s i = notif v1 s i) as En by (intros s i; unfold notif; by rewrite Hn).
  assert (∀ s i, notif v3 s i = notif v2 s i) as En' by (intros s i; unfold notif; by rewrite Hn').
  assert (∀ o, remaining v o = remaining v1 o) as Er by (intros o; unfold remaining; by rewrite Ho).
  assert (∀ o, remaining v3 o = remaining v2 o) as Er'
    by (intros o; unfold remaining; by rewrite Ho').
  split; [split; [done|..]| |].
  - intros s i Hin. rewrite En. by apply Ha.
  - intros s i. by rewrite En, En'.
  - intros o s i [Hin Hx]%Hr. rewrite <- Ho. split; [by apply Hl|done].
  - intros o Hin. rewrite Er, Er'. destruct (decide (o ∈ l)) as [?|Hno]; [by apply Hc|].
    rewrite (counted_none _ _ _ _ _ HC Hno). unfold remaining. rewrite (Hout _ Hin Hno). lia.
Qed.

Lemma counted_nil l v v' :
  v_objs v' = v_objs v → v_notif v' = v_notif v → counted l v v' [].
Proof.
  intros Ho Hn. split.
  - split; [constructor|by intros s i ?%elem_of_nil|]. intros s i. unfold notif. by rewrite Hn.
  - by intros o s i ?%elem_of_nil.
  - intros o _. unfold remaining. rewrite Ho. cbn. rewrite count_nil. lia.
Qed.

(** The outcome of a scan of [l]: what is kept and what is complete. *)
Record scanned (l kept comp : list Z) (v v' : view) : Prop := {
  sc_perm : kept ++ comp ≡ₚ l;
  sc_order : kept `sublist_of` l;
  sc_frame : v' = set_objs (v_objs v') (set_mem (v_mem v') (set_notif (v_notif v') v));
  sc_other o : o ∉ l → v_objs v' !! o = v_objs v !! o;
  sc_range o r : o ∈ l → v_objs v !! o = Some r →
    ∃ nv rem, v_objs v' !! o = Some (set_notifiedValue nv (set_remaining rem r)) ∧
      0 ≤ rem ≤ _remaining r ∧ (o ∈ comp ↔ rem = 0);
  sc_quiet o r : o ∈ kept → v_objs v !! o = Some r →
    ∀ i, _firstId r ≤ i < _firstId r + _numIds r → notif v' (_segment r) i = 0;
  sc_consumed : ∃ C, counted l v v' C;
}.

Section waiting_range_list_specs.
Context `{BC : BuildConfig} `{GT : GaspiTypes}.

Lemma checked_frame o r C v :
  checked o r C v = set_objs (v_objs (checked o r C v))
    (set_mem (v_mem (checked o r C v)) (set_notif (v_notif (checked o r C v)) v)).
Proof.
  unfold checked. cbv zeta. rewrite (consume_frame _ _ _ C v).
  destruct (decide _); [|done]. destruct C; [|done]. by destruct (_notifiedValues r).
Qed.

Lemma notif_checked o r C v s i :
  notif (checked o r C v) s i = if decide (s = _segment r ∧ i ∈ C) then 0 else notif v s i.
Proof.
  rewrite <- (notif_consume (_segment r) (_firstId r) (_notifiedValues r) C v s i).
  unfold checked. cbv zeta. destruct (decide _); [|done]. destruct C; [|done].
  by destruct (_notifiedValues r).
Qed.

(** One range of the list. *)
Lemma checked_counted o r C v n rem :
  v_objs v !! o = Some r → n = _numIds r →
  consumes (_segment r) (_firstId r) n rem v (checked o r C v) C →
  counted [o] v (checked o r C v) ((λ i, (o, (_segment r, i))) <$> C).
Proof.
  intros Ho -> []. split.
  - rewrite <- list_fmap_compose. change (compose snd _) with (pair (A := Z) (B := Z) (_segment r)).
    split; [by apply NoDup_pair| |].
    + intros s i (j&[= -> ->]&?)%list_elem_of_fmap. auto.
    + intros s i. rewrite notif_checked.
      assert (s = _segment r ∧ i ∈ C ↔ (s, i) ∈ (_segment r,.) <$> C) as Hiff.
      { rewrite list_elem_of_fmap. naive_solver. }
      destruct (decide (s = _segment r ∧ i ∈ C)), (decide ((s, i) ∈ _)); naive_solver.
  - intros o' s i (j&[= -> -> ->]&?)%list_elem_of_fmap. split; [left|]. exists r. auto.
  - intros o' ->%list_elem_of_singleton. destruct (checked_object o r C v) as [nv Hobj].
    unfold remaining. rewrite Hobj, lookup_insert_eq, Ho, <- list_fmap_compose. cbn.
    change (compose fst _) with (λ _ : Z, o). rewrite (const_fmap (λ _ : Z, o) C o) by done.
    rewrite count_replicate, decide_True by done. lia.
Qed.

Lemma scanned_nil v : scanned [] [] [] v v.
Proof.
  split; try done.
  - by destruct v.
  - by intros o r ?%elem_of_nil.
  - by intros o r ?%elem_of_nil.
  - exists []. by apply counted_nil.
Qed.

Lemma notif_set_objs v o s i : notif (set_objs o v) s i = notif v s i.
Proof. done. Qed.

(** Scanning one range and then the rest. *)
Lemma scanned_cons o r C l kept comp v v' (d : bool) :
  d = (Z.of_nat (length C) =? _remaining r) →
  v_objs v !! o = Some r → range_ok r → NoDup (o :: l) →
  consumes (_segment r) (_firstId r) (_numIds r) (_remaining r) v (checked o r C v) C →
  scanned l kept comp (checked o r C v) v' →
  scanned (o :: l) (if d then kept else o :: kept) (if d then o :: comp else comp) v v'.
Proof.
  intros Hd Ho Hok [Hol Hnd]%NoDup_cons HC HS. pose proof HS as [].
  destruct (checked_object o r C v) as [nv Hobj].
  assert (∀ o', o' ≠ o → v_objs (checked o r C v) !! o' = v_objs v !! o') as Hne.
  { intros o' ?. by rewrite Hobj, lookup_insert_ne. }
  assert (o ∉ kept ∧ o ∉ comp) as [Hok1 Hoc].
  { split; intros Hin; apply Hol; rewrite <- sc_perm0; apply elem_of_app; auto. }
  assert (v_objs v' !! o =
    Some (set_notifiedValue nv (set_remaining (_remaining r - Z.of_nat (length C)) r))) as Ho'.
  { rewrite sc_other0 by done. by rewrite Hobj, lookup_insert_eq. }
  split.
  - destruct d; simpl; [|by rewrite sc_perm0].
    rewrite <- sc_perm0. symmetry. apply Permutation_middle.
  - destruct d; by constructor.
  - rewrite sc_frame0 at 1. rewrite (checked_frame o r C v). done.
  - intros o' [? ?]%not_elem_of_cons. rewrite sc_other0 by done. by apply Hne.
  - intros o' r' [->|Hin]%elem_of_cons Hr'.
    + rewrite Ho in Hr'. injection Hr' as <-. eexists _, _. split; [exact Ho'|]. destruct HC. destruct Hok. split; [lia|].
      destruct (Z.eqb_spec (Z.of_nat (length C)) (_remaining r)); rewrite Hd.
      * split; [lia|]. intros _. left.
      * split; [done|lia].
    + destruct (sc_range0 o' r') as (nv'&rem&Hv'&Hrem&Hc); [done|by rewrite Hne by congruence|].
      exists nv', rem. split; [done|]. split; [done|]. rewrite <- Hc.
      destruct d; [|done]. rewrite elem_of_cons. naive_solver.
  - intros o' r' Hin Hr' i Hi. destruct sc_consumed0 as (C'&[[_ _ Haf] _ _]).
    assert (o' = o ∧ d = false ∨ o' ∈ kept) as [[-> ->]|Hin'].
    { revert Hin. destruct d; rewrite ?elem_of_cons; naive_solver. }
    + rewrite Ho in Hr'. injection Hr' as <-. rewrite Haf. case_decide; [done|]. destruct HC as [_ _ _ _ [Heq|Hz]].
      * symmetry in Hd. apply Z.eqb_neq in Hd. lia.
      * by apply Hz.
    + eapply sc_quiet0; [done| |done]. rewrite Hne; [done|]. by intros ->.
  - destruct sc_consumed0 as (C'&HC'). eexists.
    eapply (counted_trans _ [o] l); [by eapply checked_counted|exact HC'|set_solver..| | |].
    + intros o' _ [Hno _]%not_elem_of_cons. by apply Hne.
    + intros o' _ Hno. by apply sc_other0.
    + intros o' r1 Hin Hr1. rewrite Hne in Hr1 by congruence. by exists r1.
Qed.

(** Every object in [l] is a pending range. *)
Definition pending (v : view) (l : list Z) : Prop :=
  ∀ o, o ∈ l → ∃ r, v_objs v !! o = Some r ∧ range_ok r.

Lemma wp_check_from l before comp0 v :
  NoDup l → pending v l →
  wp (check_from before l comp0) v (may_abort (λ p v', ∃ kept comp,
    p = (before ++ kept, comp0 ++ comp) ∧ scanned l kept comp v v')).
Proof.
  revert before comp0 v. induction l as [|o l IH]; intros before comp0 v Hnd Hp; cbn [check_from].
  { exists [], []. rewrite !app_nil_r. split; [done|apply scanned_nil]. }
  destruct (Hp o) as (r&Hr&Hok); [left|].
  eapply wp_bind_abort; [by apply wp_WaitingRange_check|]. intros b v1 (C&->&HC&Hb).
  assert (pending (checked o r C v) l) as Hp'.
  { intros o' Ho'. destruct (Hp o') as (r'&Hr'&?); [by right|]. exists r'. split; [|done].
    destruct (checked_object o r C v) as [nv ->]. rewrite lookup_insert_ne; [done|].
    intros <-. by apply NoDup_cons in Hnd as [? _]. }
  pose proof Hnd as [_ Hnd']%NoDup_cons.
  destruct b; (eapply wp_mono; [by apply IH|]); intros [p|f] v'; simpl; try done;
    intros (kept&comp&->&HS); eapply scanned_cons in HS; try done;
    eexists _, _; rewrite <- app_assoc; (split; [|exact HS]); done.
Qed.

Lemma wp_list_checkNotifications l comp0 v :
  NoDup l → pending v l →
  wp (list_checkNotifications l comp0) v (may_abort (λ p v', ∃ kept comp,
    p = (kept, comp0 ++ comp) ∧ scanned l kept comp v v')).
Proof. apply wp_check_from. Qed.
End waiting_range_list_specs.

Section waiting_range_list_properties.
Context `{BC : BuildConfig} `{GT : GaspiTypes}.

(** A scan of a list of pending ranges splits it, in order, into the ranges that are complete
    and those that still wait. Every notification consumed is counted for exactly one range,
    which has it among its identifiers: a range waits for as many fewer notifications as were
    counted for it. A range that is kept has no arrived notification left. Nothing changes but notifications, the user's values and the
    ranges of the list. *)
Theorem list_checkNotifications_spec {W} `{!Runtime W} `{!RuntimeSpec W} (w : W) l :
  NoDup l → pending (view_of w) l →
  ∃ r w', run (list_checkNotifications l []) w = (r, w') ∧
    may_abort (λ p v', scanned l p.1 p.2 (view_of w) v') r (view_of w').
Proof.
  intros Hnd Hp. destruct (wp_run _ w _ (wp_list_checkNotifications l [] _ Hnd Hp))
    as (r&w'&Hr&HQ). exists r, w'. split; [done|]. destruct r as [p|]; [|done].
  by destruct HQ as (kept&comp&->&HS).
Qed.
End waiting_range_list_properties.

(** ** Examples *)

Section waiting_range_list_examples.
#[local] Existing Instance sim_types.
#[local] Existing Instance release_build.

(** Range 1 waits for notifications 2 to 4, two of them; range 2 for notification 5. *)
Definition sim_list : Sim :=
  on_view (set_objs {[ 1 := WaitingRange_ctor 0 0 2 3 None 2 77;
                       2 := WaitingRange_ctor 0 0 5 1 None 1 78 ]}) sim_arrived.

Example scan_sim_list : (run (list_checkNotifications [1; 2] []) sim_list).1 = inl ([1], [2]).
Proof. by vm_compute. Qed.

Lemma list_checkNotifications_spec_witness :
  ∃ r w', run (list_checkNotifications [1; 2] []) sim_list = (r, w') ∧
    may_abort (λ p v', p.1 ++ p.2 ≡ₚ [1; 2]) r (view_of w').
Proof.
  destruct (list_checkNotifications_spec sim_list [1; 2]) as (r&w'&Hr&HQ).
  - apply (bool_decide_unpack (NoDup [1; 2])). by vm_compute.
  - intros o [->|[->|[]%elem_of_nil]%elem_of_cons]%elem_of_cons; eexists; (split; [reflexivity|]);
      split; simpl; lia.
  - exists r, w'. split; [exact Hr|]. destruct r as [p|f]; [|exact HQ]. by destruct HQ.
Defined.
End waiting_range_list_examples.
