(* ===== verification/WaitingRangeQueue.v ===== *)
(** Class [WaitingRangeQueue] (common/WaitingRangeQueue.hpp): the queue of a segment through which
    the tasks hand their ranges to the polling instance. *)

From S2P Require Import Prelude Types Interface Contract Sim Hoare WaitingRangeList.
Open Scope Z_scope.

Definition WR_QUEUE_CAPACITY : Z := 63 * 1024.

Section waiting_range_queue.
Context `{BC : BuildConfig} `{GT : GaspiTypes}.

Definition queue_dtor (segment : Z) : prog unit :=
  empty ← perform (spsc_empty segment);
  assert "_queue.empty()" empty.

(** The [while] loop of [enqueue]. *)
Fixpoint push_range (fuel : nat) (segment waitingRange : Z) : prog unit :=
  match fuel with
  | O => Fault OutOfFuel
  | S fuel =>
      pushed ← perform (spsc_push segment waitingRange);
      if negb pushed then push_range fuel segment waitingRange else Ret tt
  end.

Definition enqueue (fuel : nat) (segment waitingRange : Z) : prog unit :=
  perform (lock_acquire (waitingRangeQueueLock segment));;
  push_range fuel segment waitingRange;;
  perform (lock_release (waitingRangeQueueLock segment)).

(** The list with the contents of the queue behind it. *)
Definition dequeueAll (segment : Z) (pendingRanges : list Z) : prog (list Z) :=
  empty ← perform (spsc_empty segment);
  if negb empty then
    ranges ← perform (spsc_consume_all segment);
    Ret (foldl add pendingRanges ranges)
  else Ret pendingRanges.
End waiting_range_queue.

Section waiting_range_queue_specs.
Context `{BC : BuildConfig} `{GT : GaspiTypes}.

Lemma foldl_add l ranges : foldl add l ranges = l ++ ranges.
Proof.
  revert l. induction ranges as [|r ranges IH]; intros l; simpl; [by rewrite app_nil_r|].
  rewrite IH. unfold add. by rewrite <- app_assoc.
Qed.

Lemma spsc_contents_cons s p q s' :
  (filter (λ e : Z * Z, e.1 = s') ((s, p) :: q)).*2 =
    if decide (s = s') then p :: (filter (λ e : Z * Z, e.1 = s') q).*2
    else (filter (λ e : Z * Z, e.1 = s') q).*2.
Proof.
  destruct (decide (s = s')).
  - by rewrite filter_cons_True.
  - by rewrite filter_cons_False.
Qed.

Lemma spsc_contents_push q c v s p s' :
  spsc_contents (set_spsc (q ++ [(s, p)]) c v) s' =
    spsc_contents (set_spsc q c v) s' ++ if decide (s = s') then [p] else [].
Proof.
  unfold spsc_contents. simpl. rewrite filter_app, fmap_app. f_equal.
  rewrite spsc_contents_cons. done.
Qed.

Lemma spsc_contents_consume v s s' :
  spsc_contents (set_spsc (filter (λ e, e.1 ≠ s) (v_spsc v)) (v_spsc_capacity v) v) s' =
    if decide (s' = s) then [] else spsc_contents v s'.
Proof.
  unfold spsc_contents. simpl. rewrite list_filter_filter.
  case_decide as Hs.
  - subst s'. rewrite filter_none; [done|]. apply Forall_forall. by intros e _ [? ?].
  - f_equal. apply list_filter_iff. intros e. split; [by intros []|]. intros ->. done.
Qed.

Lemma wp_enqueue fuel seg p v :
  waitingRangeQueueLock seg ∉ v_held v →
  Z.of_nat (length (spsc_contents v seg)) < v_spsc_capacity v → (0 < fuel)%nat →
  wp (enqueue fuel seg p) v
    (returns (λ _ v', v' = set_spsc (v_spsc v ++ [(seg, p)]) (v_spsc_capacity v) v)).
Proof.
  intros Hl Hc Hf. destruct fuel as [|fuel]; [lia|].
  split; [done|]. intros [] v1 [_ ->]. simpl. split; [done|]. intros x v2.
  change (spsc_contents (set_held _ v) seg) with (spsc_contents v seg).
  rewrite decide_True by done. intros [-> ->]. simpl. split; [done|]. intros [] v3 ->. simpl.
  rewrite filter_cons_False by naive_solver. rewrite filter_all; [by destruct v|].
  apply Forall_forall. by intros l' ? ->.
Qed.

Lemma spsc_without v s :
  spsc_contents v s = [] → filter (λ e, e.1 ≠ s) (v_spsc v) = v_spsc v.
Proof.
  unfold spsc_contents. intros Hs%fmap_nil_inv. apply filter_all, Forall_forall.
  intros e He Hes. assert (e ∈ filter (λ e : Z * Z, e.1 = s) (v_spsc v)) as Hin.
  { by apply list_elem_of_filter. }
  rewrite Hs in Hin. by apply elem_of_nil in Hin.
Qed.

Lemma wp_dequeueAll seg l v :
  wp (dequeueAll seg l) v (returns (λ l' v', l' = l ++ spsc_contents v seg ∧
    v' = set_spsc (filter (λ e, e.1 ≠ seg) (v_spsc v)) (v_spsc_capacity v) v)).
Proof.
  split; [done|]. intros x v1 [-> ->]. case_bool_decide as He; simpl.
  - rewrite He, app_nil_r, spsc_without by done. split; [done|]. by destruct v.
  - split; [done|]. intros x v1 [-> ->]. simpl. by rewrite foldl_add.
Qed.

(** Ranges reach the polling instance in the order in which they were enqueued, behind those
    already pending, and none is lost or duplicated; other segments are not affected. *)
Theorem enqueue_dequeue {W} `{!Runtime W} `{!RuntimeSpec W} (w : W) seg ps l :
  waitingRangeQueueLock seg ∉ v_held (view_of w) → spsc_contents (view_of w) seg = [] →
  Z.of_nat (length ps) ≤ v_spsc_capacity (view_of w) →
  ∃ w', run (for_each ps (λ p _, enqueue 1 seg p) tt;; dequeueAll seg l) w =
          (inl (l ++ ps), w') ∧
    ∀ s, spsc_contents (view_of w') s = spsc_contents (view_of w) s.
Proof.
  intros Hl He Hc. edestruct (wp_run (for_each ps (λ p _, enqueue 1 seg p) tt;; dequeueAll seg l)
    w (returns (λ l' v', l' = l ++ ps ∧ ∀ s, spsc_contents v' s = spsc_contents (view_of w) s)))
    as ([r|]&w'&Hr&HQ).
  - eapply wp_bind_returns.
    + apply (wp_for_each _ (λ done _ v', spsc_contents v' seg = done ∧
        (∀ s, s ≠ seg → spsc_contents v' s = spsc_contents (view_of w) s) ∧
        v_held v' = v_held (view_of w) ∧ v_spsc_capacity v' = v_spsc_capacity (view_of w)));
        [done|]. intros l1 p l2 u v -> (Hd&Ho&Hh&Hcap).
      rewrite length_app in Hc. simpl in Hc.
      eapply wp_mono; [apply wp_enqueue; [by rewrite Hh|rewrite Hd, Hcap; lia|lia]|].
      intros [[]|f] v'; simpl; [|done]. intros ->.
      assert (∀ s, spsc_contents (set_spsc (v_spsc v ++ [(seg, p)]) (v_spsc_capacity v) v) s =
        spsc_contents v s ++ if decide (seg = s) then [p] else []) as Hp.
      { apply (spsc_contents_push (v_spsc v) (v_spsc_capacity v) v). }
      split_and!; [|intros s Hs|done|done].
      * by rewrite Hp, decide_True, Hd.
      * rewrite Hp, decide_False, app_nil_r by done. by apply Ho.
    + intros [] v (Hd&Ho&_). eapply wp_mono; [apply wp_dequeueAll|].
      intros [l'|f] v'; simpl; [|done]. intros [-> ->]. rewrite Hd. split; [done|].
      intros s. rewrite spsc_contents_consume. case_decide as Hs; [congruence|by apply Ho].
  - destruct HQ as [-> Hs]. by exists w'.
  - done.
Qed.
End waiting_range_queue_specs.

Section waiting_range_queue_examples.
#[local] Existing Instance sim_types.
#[local] Existing Instance release_build.

Lemma enqueue_dequeue_witness :
  ∃ w', run (for_each [4; 2; 9] (λ p _, enqueue 1 0 p) tt;; dequeueAll 0 [7])
          (on_view (set_spsc [(1, 3)] 100) sim0) = (inl [7; 4; 2; 9], w') ∧
    ∀ s, spsc_contents (view_of w') s =
      spsc_contents (view_of (on_view (set_spsc [(1, 3)] 100) sim0)) s.
Proof.
  apply (enqueue_dequeue (on_view (set_spsc [(1, 3)] 100) sim0) 0 [4; 2; 9] [7]);
    [by apply not_elem_of_nil|done|done].
Defined.
End waiting_range_queue_examples.
