(* ===== verification/Environment.v ===== *)
(** The state of the library: struct [Environment] (common/Environment.hpp) and the static members
    of the other classes. *)

From S2P Require Import Prelude Types Interface HardwareInfo TaskingModel Allocator QueueGroup.
Open Scope Z_scope.

Variant Operation := READ | WRITE | NOTIFY | WRITE_NOTIFY.

(** The index of an operation in [numRequests]. *)
Definition Operation_index (op : Operation) : Z :=
  match op with READ => 0 | WRITE => 1 | NOTIFY => 2 | WRITE_NOTIFY => 3 end.

Definition NUM_OPERATIONS : Z := 4.

Definition MaxQueueGroups : Z := 16.

(** [None] is a null pointer. The waiting-range queues are behind the calls of Interface.v, so of
    their array only whether it is allocated is kept; the locks of [queuePollingLocks] and
    [notificationPollingLock] are never taken. *)
Record Environment := mkEnvironment {
  enabled : bool;
  maxQueues : Z;
  maxSegments : Z;
  maxQueueGroups : Z;
  numQueueGroups : Z;
  numRequests : list Z;
  waitingRangeQueues : bool;
  waitingRangeLists : option (list (list Z));
  queueGroups : option (list (option QueueGroup));
  queuePollingLocks : bool;
}.

Definition Environment_ctor : Environment := {|
  enabled := false;
  maxQueues := 0;
  maxSegments := 0;
  maxQueueGroups := 0;
  numQueueGroups := 0;
  numRequests := replicate (Z.to_nat NUM_OPERATIONS) 0;
  waitingRangeQueues := false;
  waitingRangeLists := None;
  queueGroups := None;
  queuePollingLocks := false |}.

(** The elements of [_queuePollingInfos]; the instance is the address [registerPolling] gave. *)
Record QueuePollingInfo := mkInfo {
  info_firstQueue : Z;
  info_numQueues : Z;
  info_pollingInstance : option Z;
}.

(** The static members of class [Polling]. *)
Record Polling := mkPolling {
  _period : Z;
  _queuePollingInfos : list QueuePollingInfo;
  _notificationsPollingInstance : option Z;
}.

Definition Polling_static : Polling := mkPolling 100 [] None.

(** Everything with static storage. *)
Record Library := mkLibrary {
  l_hw : HardwareInfo;
  l_tm : TaskingModel;
  l_allocator : Allocator;
  l_env : Environment;
  l_polling : Polling;
}.

Definition Library_static : Library :=
  mkLibrary HardwareInfo_static TaskingModel_static Allocator_static Environment_ctor
    Polling_static.

Definition set_env (e : Environment) (l : Library) : Library :=
  mkLibrary (l_hw l) (l_tm l) (l_allocator l) e (l_polling l).

(** [_env.numRequests[op]]. *)
Definition env_numRequests (l : Library) (op : Operation) : prog Z :=
  vec_get (numRequests (l_env l)) (Operation_index op).

(** What boost calls when one of its assertions fails in a build with assertions. *)
Definition assertion_failed_msg {A} (expr msg function file : string) (line : Z) : prog A :=
  perform (eprint [PStr file; PStr ":"; PInt line; PStr " "; PStr function;
    PStr " Boost assertion failure: "; PStr msg; PStr " when evaluating "; PStr expr; endl]);;
  Fault Aborted.

Definition assertion_failed {A} (expr function file : string) (line : Z) : prog A :=
  perform (eprint [PStr file; PStr ":"; PInt line; PStr " "; PStr function;
    PStr " Boost assertion failure when evaluating "; PStr expr; endl]);;
  Fault Aborted.
