(* ===== verification/Operations.v ===== *)
(** The task-aware one-sided operations (c/Read.cpp, Write.cpp, Notify.cpp, WriteNotify.cpp,
    ReadList.cpp, WriteList.cpp, WriteListNotify.cpp): the calling task gets one external event
    per low-level request, the requests are tagged with the task, and the events are taken back
    when the submission fails. *)

From S2P Require Import Prelude Types Interface Contract Sim Hoare HardwareInfo TaskingModel Allocator Environment.
Open Scope Z_scope.

Section operations.
Context `{BC : BuildConfig} (lib : Library).

(** The assertion misspells its variable: a build with assertions does not compile. *)
Definition tagaspi_read (segment_id_local offset_local rank segment_id_remote offset_remote size
    queue : Z) : prog gaspi_return_t :=
  assert "_env.enabled" (enabled (l_env lib));;
  task ← getCurrentTask (l_tm lib);
  assert "task != NULL" (negb (task =? 0));;
  let tag := task in
  numRequests ← env_numRequests lib READ;
  assert "numRequests > 0" (0 <? numRequests);;
  increaseCurrentTaskEvents (l_tm lib) task numRequests;;
  eret ← perform (gaspi_operation_submit GASPI_OP_READ tag segment_id_local offset_local rank
                    segment_id_remote offset_remote size 0 0 queue GASPI_BLOCK);
  assert "eret != GASPI_TIMEOUT" (bool_decide (eret ≠ GASPI_TIMEOUT));;
  (if decide (eret ≠ GASPI_SUCCESS) then decreaseTaskEvents (l_tm lib) task numRequests
   else Ret tt);;
  Ret eret.

Definition tagaspi_write (segment_id_local offset_local rank segment_id_remote offset_remote size
    queue : Z) : prog gaspi_return_t :=
  assert "_env.enabled" (enabled (l_env lib));;
  task ← getCurrentTask (l_tm lib);
  assert "task != NULL" (negb (task =? 0));;
  let tag := task in
  numRequests ← env_numRequests lib WRITE;
  assert "numRequests > 0" (0 <? numRequests);;
  increaseCurrentTaskEvents (l_tm lib) task numRequests;;
  eret ← perform (gaspi_operation_submit GASPI_OP_WRITE tag segment_id_local offset_local rank
                    segment_id_remote offset_remote size 0 0 queue GASPI_BLOCK);
  assert "eret != GASPI_TIMEOUT" (bool_decide (eret ≠ GASPI_TIMEOUT));;
  (if decide (eret ≠ GASPI_SUCCESS) then decreaseTaskEvents (l_tm lib) task numRequests
   else Ret tt);;
  Ret eret.

Definition tagaspi_notify (segment_id_remote rank notification_id notification_value queue : Z) :
    prog gaspi_return_t :=
  assert "_env.enabled" (enabled (l_env lib));;
  task ← getCurrentTask (l_tm lib);
  assert "task != NULL" (negb (task =? 0));;
  let tag := task in
  numRequests ← env_numRequests lib NOTIFY;
  assert "numRequests > 0" (0 <? numRequests);;
  increaseCurrentTaskEvents (l_tm lib) task numRequests;;
  eret ← perform (gaspi_operation_submit GASPI_OP_NOTIFY tag 0 0 rank segment_id_remote 0 0
                    notification_id notification_value queue GASPI_BLOCK);
  assert "eret != GASPI_TIMEOUT" (bool_decide (eret ≠ GASPI_TIMEOUT));;
  (if decide (eret ≠ GASPI_SUCCESS) then decreaseTaskEvents (l_tm lib) task numRequests
   else Ret tt);;
  Ret eret.

Definition tagaspi_write_notify (segment_id_local offset_local rank segment_id_remote
    offset_remote size notification_id notification_value queue : Z) : prog gaspi_return_t :=
  assert "_env.enabled" (enabled (l_env lib));;
  task ← getCurrentTask (l_tm lib);
  assert "task != NULL" (negb (task =? 0));;
  let tag := task in
  numRequests ← env_numRequests lib WRITE_NOTIFY;
  assert "numRequests > 0" (0 <? numRequests);;
  increaseCurrentTaskEvents (l_tm lib) task numRequests;;
  eret ← perform (gaspi_operation_submit GASPI_OP_WRITE_NOTIFY tag segment_id_local offset_local
                    rank segment_id_remote offset_remote size notification_id notification_value
                    queue GASPI_BLOCK);
  assert "eret != GASPI_TIMEOUT" (bool_decide (eret ≠ GASPI_TIMEOUT));;
  (if decide (eret ≠ GASPI_SUCCESS) then decreaseTaskEvents (l_tm lib) task numRequests
   else Ret tt);;
  Ret eret.

(** The arrays of the list operations have [num] elements. *)
Definition tagaspi_read_list (num : Z) (segment_id_local offset_local : list Z) (rank : Z)
    (segment_id_remote offset_remote size : list Z) (queue : Z) : prog gaspi_return_t :=
  assert "_env.enabled" (enabled (l_env lib));;
  task ← getCurrentTask (l_tm lib);
  assert "task != NULL" (negb (task =? 0));;
  let tag := task in
  r ← perform (gaspi_operation_get_num_requests GASPI_OP_READ_LIST num);
  assert "eret == GASPI_SUCCESS" (bool_decide (r.1 = GASPI_SUCCESS));;
  let numRequests := r.2 in
  assert "numRequests > 0" (0 <? numRequests);;
  increaseCurrentTaskEvents (l_tm lib) task numRequests;;
  eret ← perform (gaspi_operation_list_submit GASPI_OP_READ_LIST tag num segment_id_local
                    offset_local rank segment_id_remote offset_remote size 0 0 0 queue
                    GASPI_BLOCK);
  assert "eret != GASPI_TIMEOUT" (bool_decide (eret ≠ GASPI_TIMEOUT));;
  (if decide (eret ≠ GASPI_SUCCESS) then decreaseTaskEvents (l_tm lib) task numRequests
   else Ret tt);;
  Ret eret.

Definition tagaspi_write_list (num : Z) (segment_id_local offset_local : list Z) (rank : Z)
    (segment_id_remote offset_remote size : list Z) (queue : Z) : prog gaspi_return_t :=
  assert "_env.enabled" (enabled (l_env lib));;
  task ← getCurrentTask (l_tm lib);
  assert "task != NULL" (negb (task =? 0));;
  let tag := task in
  r ← perform (gaspi_operation_get_num_requests GASPI_OP_WRITE_LIST num);
  assert "eret == GASPI_SUCCESS" (bool_decide (r.1 = GASPI_SUCCESS));;
  let numRequests := r.2 in
  assert "numRequests > 0" (0 <? numRequests);;
  increaseCurrentTaskEvents (l_tm lib) task numRequests;;
  eret ← perform (gaspi_operation_list_submit GASPI_OP_WRITE_LIST tag num segment_id_local
                    offset_local rank segment_id_remote offset_remote size 0 0 0 queue
                    GASPI_BLOCK);
  assert "eret != GASPI_TIMEOUT" (bool_decide (eret ≠ GASPI_TIMEOUT));;
  (if decide (eret ≠ GASPI_SUCCESS) then decreaseTaskEvents (l_tm lib) task numRequests
   else Ret tt);;
  Ret eret.

Definition tagaspi_write_list_notify (num : Z) (segment_id_local offset_local : list Z)
    (rank : Z) (segment_id_remote offset_remote size : list Z)
    (segment_id_notification notification_id notification_value queue : Z) :
    prog gaspi_return_t :=
  assert "_env.enabled" (enabled (l_env lib));;
  task ← getCurrentTask (l_tm lib);
  assert "task != NULL" (negb (task =? 0));;
  let tag := task in
  r ← perform (gaspi_operation_get_num_requests GASPI_OP_WRITE_LIST_NOTIFY num);
  assert "eret == GASPI_SUCCESS" (bool_decide (r.1 = GASPI_SUCCESS));;
  let numRequests := r.2 in
  assert "numRequests > 0" (0 <? numRequests);;
  increaseCurrentTaskEvents (l_tm lib) task numRequests;;
  eret ← perform (gaspi_operation_list_submit GASPI_OP_WRITE_LIST_NOTIFY tag num
                    segment_id_local offset_local rank segment_id_remote offset_remote size
                    segment_id_notification notification_id notification_value queue
                    GASPI_BLOCK);
  assert "eret != GASPI_TIMEOUT" (bool_decide (eret ≠ GASPI_TIMEOUT));;
  (if decide (eret ≠ GASPI_SUCCESS) then decreaseTaskEvents (l_tm lib) task numRequests
   else Ret tt);;
  Ret eret.
End operations.

(** ** Accounting *)

(** A call of one of the operations, with its arguments. *)
Variant operation :=
  | op_read (segment_id_local offset_local rank segment_id_remote offset_remote size queue : Z)
  | op_write (segment_id_local offset_local rank segment_id_remote offset_remote size queue : Z)
  | op_notify (segment_id_remote rank notification_id notification_value queue : Z)
  | op_write_notify (segment_id_local offset_local rank segment_id_remote offset_remote size
      notification_id notification_value queue : Z)
  | op_read_list (num : Z) (segment_id_local offset_local : list Z) (rank : Z)
      (segment_id_remote offset_remote size : list Z) (queue : Z)
  | op_write_list (num : Z) (segment_id_local offset_local : list Z) (rank : Z)
      (segment_id_remote offset_remote size : list Z) (queue : Z)
  | op_write_list_notify (num : Z) (segment_id_local offset_local : list Z) (rank : Z)
      (segment_id_remote offset_remote size : list Z)
      (segment_id_notification notification_id notification_value queue : Z).

#[global] Instance operation_eq_dec : EqDecision operation.
Proof. solve_decision. Defined.

Definition run_operation `{BuildConfig} (lib : Library) (o : operation) : prog gaspi_return_t :=
  match o with
  | op_read sl ol r sr or sz q => tagaspi_read lib sl ol r sr or sz q
  | op_write sl ol r sr or sz q => tagaspi_write lib sl ol r sr or sz q
  | op_notify sr r i x q => tagaspi_notify lib sr r i x q
  | op_write_notify sl ol r sr or sz i x q => tagaspi_write_notify lib sl ol r sr or sz i x q
  | op_read_list n sl ol r sr or sz q => tagaspi_read_list lib n sl ol r sr or sz q
  | op_write_list n sl ol r sr or sz q => tagaspi_write_list lib n sl ol r sr or sz q
  | op_write_list_notify n sl ol r sr or sz s i x q =>
      tagaspi_write_list_notify lib n sl ol r sr or sz s i x q
  end.

(** The low-level requests it is split into. *)
Definition op_requests `{GaspiTypes} (o : operation) : Z :=
  match o with
  | op_read _ _ _ _ _ _ _ => num_requests GASPI_OP_READ 1
  | op_write _ _ _ _ _ _ _ => num_requests GASPI_OP_WRITE 1
  | op_notify _ _ _ _ _ => num_requests GASPI_OP_NOTIFY 1
  | op_write_notify _ _ _ _ _ _ _ _ _ => num_requests GASPI_OP_WRITE_NOTIFY 1
  | op_read_list n _ _ _ _ _ _ _ => num_requests GASPI_OP_READ_LIST n
  | op_write_list n _ _ _ _ _ _ _ => num_requests GASPI_OP_WRITE_LIST n
  | op_write_list_notify n _ _ _ _ _ _ _ _ _ _ => num_requests GASPI_OP_WRITE_LIST_NOTIFY n
  end.

(** Lists have at least an element. *)
Definition op_valid (o : operation) : Prop :=
  match o with
  | op_read_list n _ _ _ _ _ _ _ | op_write_list n _ _ _ _ _ _ _
  | op_write_list_notify n _ _ _ _ _ _ _ _ _ _ => 0 < n
  | _ => True
  end.

Lemma op_requests_pos `{GaspiTypes} o : op_valid o → 0 < op_requests o.
Proof. destruct o; simpl; intros; apply num_requests_pos; lia. Qed.

(** The library after [tagaspi_proc_init]. *)
Record lib_ok `{GaspiTypes} (lib : Library) : Prop := {
  lo_enabled : enabled (l_env lib) = true;
  lo_tm : tm_loaded (l_tm lib);
  lo_allocator : initialized (l_allocator lib) = true;
  lo_requests : numRequests (l_env lib) =
    [num_requests GASPI_OP_READ 1; num_requests GASPI_OP_WRITE 1;
     num_requests GASPI_OP_NOTIFY 1; num_requests GASPI_OP_WRITE_NOTIFY 1];
}.

(** [n] requests of [task] were posted and [task] has [n] more events, or neither. *)
Record accounted (task n : Z) (eret : gaspi_return_t) (v v' : view) : Prop := {
  ac_task : eret ≠ GASPI_TIMEOUT;
  ac_events t : events v' t =
    events v t + if decide (t = task ∧ eret = GASPI_SUCCESS) then n else 0;
  ac_outstanding : v_outstanding v' =
    (if decide (eret = GASPI_SUCCESS) then replicate (Z.to_nat n) task else []) ++ v_outstanding v;
  ac_frame : v' = set_events (v_events v') (set_outstanding (v_outstanding v') v);
}.

Section operation_specs.
Context `{BC : BuildConfig} `{GT : GaspiTypes}.

Lemma events_set v v0 t x s :
  events (set_events (<[t := x]> (v_events v)) v0) s = if decide (s = t) then x else events v s.
Proof.
  unfold events. simpl. case_decide as Hs.
  - by rewrite Hs, lookup_insert_eq.
  - by rewrite lookup_insert_ne.
Qed.

(** The common part of the operations. *)
Lemma wp_submit tm task n (submit : call gaspi_return_t) v :
  tm_loaded tm → (∀ v, ready submit v) →
  (∀ v e v', call_spec submit v e v' → post_requests n task e v v') →
  wp (increaseCurrentTaskEvents tm task n;;
      eret ← perform submit;
      assert "eret != GASPI_TIMEOUT" (bool_decide (eret ≠ GASPI_TIMEOUT));;
      (if decide (eret ≠ GASPI_SUCCESS) then decreaseTaskEvents tm task n else Ret tt);;
      Ret eret) v
    (post (λ f, f = alpi_fault) (λ eret v', accounted task n eret v v')).
Proof.
  intros Htm Hready Hsub. eapply wp_bind_post; [by apply wp_increase|]. intros _ v1 ->.
  apply wp_perform_bind; [done|]. intros e v2 [He ->]%Hsub.
  wp_assert.
  destruct (decide (e ≠ GASPI_SUCCESS)) as [Hne|Hs].
  - rewrite decide_False by done. eapply wp_bind_post; [by apply wp_decrease|]. intros _ v3 ->.
    split; [done| |by rewrite decide_False|done]. intros t.
    rewrite !events_set, (decide_True (P := task = task)) by done.
    rewrite (decide_False (P := t = task ∧ _)) by naive_solver.
    case_decide as Ht; [subst t|]; lia.
  - apply dec_stable in Hs as ->. rewrite decide_True by done. simpl. split; simpl.
    + done.
    + intros t. etrans; [exact (events_set v v task (events v task + n) t)|].
      destruct (decide (t = task)) as [->|Ht].
      * by rewrite decide_True.
      * rewrite decide_False by naive_solver. lia.
    + done.
    + done.
Qed.

Lemma wp_single lib op o (submit : Z → call gaspi_return_t) v :
  lib_ok lib →
  numRequests (l_env lib) !! Z.to_nat (Operation_index op) = Some (num_requests o 1) →
  (∀ t v, ready (submit t) v) →
  (∀ t v e v', call_spec (submit t) v e v' → post_requests (num_requests o 1) t e v v') →
  wp (assert "_env.enabled" (enabled (l_env lib));;
      task ← getCurrentTask (l_tm lib);
      assert "task != NULL" (negb (task =? 0));;
      let tag := task in
      numRequests ← env_numRequests lib op;
      assert "numRequests > 0" (0 <? numRequests);;
      increaseCurrentTaskEvents (l_tm lib) task numRequests;;
      eret ← perform (submit tag);
      assert "eret != GASPI_TIMEOUT" (bool_decide (eret ≠ GASPI_TIMEOUT));;
      (if decide (eret ≠ GASPI_SUCCESS) then decreaseTaskEvents (l_tm lib) task numRequests
       else Ret tt);;
      Ret eret) v
    (post (λ f, f = alpi_fault) (λ eret v', ∃ task, valid_task task ∧
       accounted task (num_requests o 1) eret v v')).
Proof.
  intros Hl Hn Hready Hsub. pose proof Hl as [].
  wp_assert.
  eapply wp_bind_post; [by apply wp_getCurrentTask|]. intros task v1 [-> Ht].
  apply wp_assert_bind; [by apply negb_true_iff, Z.eqb_neq, Ht|]. cbv zeta.
  assert (env_numRequests lib op = Ret (num_requests o 1)) as ->.
  { apply vec_get_Some; [by destruct op|done]. }
  rewrite mbind_Ret.
  apply wp_assert_bind; [by apply Z.ltb_lt, num_requests_pos|].
  eapply wp_post_mono; [apply wp_submit; [done|apply Hready|apply Hsub]|done|].
  intros e v' Ha. by exists task.
Qed.

Lemma wp_list lib o num (submit : Z → call gaspi_return_t) v :
  lib_ok lib → 0 < num →
  (∀ t v, ready (submit t) v) →
  (∀ t v e v', call_spec (submit t) v e v' → post_requests (num_requests o num) t e v v') →
  wp (assert "_env.enabled" (enabled (l_env lib));;
      task ← getCurrentTask (l_tm lib);
      assert "task != NULL" (negb (task =? 0));;
      let tag := task in
      r ← perform (gaspi_operation_get_num_requests o num);
      assert "eret == GASPI_SUCCESS" (bool_decide (r.1 = GASPI_SUCCESS));;
      let numRequests := r.2 in
      assert "numRequests > 0" (0 <? numRequests);;
      increaseCurrentTaskEvents (l_tm lib) task numRequests;;
      eret ← perform (submit tag);
      assert "eret != GASPI_TIMEOUT" (bool_decide (eret ≠ GASPI_TIMEOUT));;
      (if decide (eret ≠ GASPI_SUCCESS) then decreaseTaskEvents (l_tm lib) task numRequests
       else Ret tt);;
      Ret eret) v
    (post (λ f, f = alpi_fault) (λ eret v', ∃ task, valid_task task ∧
       accounted task (num_requests o num) eret v v')).
Proof.
  intros Hl Hn Hready Hsub. pose proof Hl as [].
  wp_assert.
  eapply wp_bind_post; [by apply wp_getCurrentTask|]. intros task v1 [-> Ht].
  apply wp_assert_bind; [by apply negb_true_iff, Z.eqb_neq, Ht|]. cbv zeta.
  wp_step as r v1 [-> ->].
  wp_assert.
  apply wp_assert_bind; [by apply Z.ltb_lt, num_requests_pos|].
  eapply wp_post_mono; [apply wp_submit; [done|apply Hready|apply Hsub]|done|].
  intros e v' Ha. by exists task.
Qed.

Lemma wp_operation lib o v :
  lib_ok lib → op_valid o →
  wp (run_operation lib o) v (post (λ f, f = alpi_fault) (λ eret v', ∃ task, valid_task task ∧
    accounted task (op_requests o) eret v v')).
Proof.
  intros Hl Hv.
  destruct o; simpl run_operation; simpl op_requests; simpl in Hv.
  - by apply (wp_single lib READ GASPI_OP_READ); rewrite ?lo_requests.
  - by apply (wp_single lib WRITE GASPI_OP_WRITE); rewrite ?lo_requests.
  - by apply (wp_single lib NOTIFY GASPI_OP_NOTIFY); rewrite ?lo_requests.
  - by apply (wp_single lib WRITE_NOTIFY GASPI_OP_WRITE_NOTIFY); rewrite ?lo_requests.
  - by apply (wp_list lib GASPI_OP_READ_LIST).
  - by apply (wp_list lib GASPI_OP_WRITE_LIST).
  - by apply (wp_list lib GASPI_OP_WRITE_LIST_NOTIFY).
Qed.

(** C10. Every operation either posts its low-level requests, all tagged with the calling task, and
    gives the task as many events, or reports the error with the task's events and the requests
    as they were. It changes nothing else and never returns [GASPI_TIMEOUT]. *)
Theorem operation_accounting {W} `{!Runtime W} `{!RuntimeSpec W} (w : W) lib o :
  lib_ok lib → op_valid o →
  ∃ r w', run (run_operation lib o) w = (r, w') ∧
    post (λ f, f = alpi_fault)
      (λ eret v', ∃ task, valid_task task ∧
         accounted task (op_requests o) eret (view_of w) v') r (view_of w').
Proof. intros Hl Ho. by apply wp_run, wp_operation. Qed.
End operation_specs.

(** ** Examples *)

Section operation_examples.
#[local] Existing Instance sim_types.
#[local] Existing Instance release_build.

(** The library initialised on the host of the simulation. *)
Definition sim_lib : Library := mkLibrary (mkHardwareInfo [0; 0; 1; 1] [true; true] 2) sim_tm
  (mkAllocator true true)
  (mkEnvironment true 5 2 16 0 [1; 1; 1; 2] true (Some [[]; []])
     (Some (replicate 16 None)) true)
  (mkPolling 250 [mkInfo 0 5 (Some 0)] (Some 1)).

Lemma sim_lib_ok : lib_ok sim_lib.
Proof. split; [done|exact sim_tm_loaded|done|done]. Qed.

Example write_notify_posts :
  v_outstanding (view_of (run (tagaspi_write_notify sim_lib 0 0 1 0 0 8 3 1 0) sim0).2) =
    [77; 77].
Proof. by vm_compute. Qed.

Definition sim_op : operation :=
  op_write_list 3 [0; 0; 0] [0; 8; 16] 1 [0; 0; 0] [0; 8; 16] [8; 8; 8] 0.

Lemma operation_accounting_witness :
  ∃ r w', run (run_operation sim_lib sim_op) sim0 = (r, w') ∧
    post (λ f, f = alpi_fault) (λ eret v', ∃ task, valid_task task ∧
      accounted task (op_requests sim_op) eret (view_of sim0) v') r (view_of w').
Proof. exact (operation_accounting sim0 sim_lib sim_op sim_lib_ok ltac:(done)). Defined.
End operation_examples.
