(* ===== verification/NotifyAsyncWait.v ===== *)
(** c/NotifyAsyncWait.cpp: a task waits for notifications by getting an external event and handing
    a waiting range to the polling instance, unless the notifications have all arrived. *)

From S2P Require Import Prelude Types Interface Contract Sim Hoare TaskingModel Allocator WaitingRange WaitingRangeQueue Environment Operations.
Open Scope Z_scope.

Section notify_async_wait.
Context `{BC : BuildConfig} `{GT : GaspiTypes} (lib : Library).

(** [_env.waitingRangeQueues[segment_id]]. *)
Definition waiting_range_queue (segment : Z) : prog Z :=
  if waitingRangeQueues (l_env lib) && (segment <? maxSegments (l_env lib)) then Ret segment
  else Fault (UndefinedBehaviour "index out of range").

Definition tagaspi_notify_async_wait (fuel : nat) (segment_id notification_id : Z)
    (notification_value : option Z) : prog gaspi_return_t :=
  assert "_env.enabled" (enabled (l_env lib));;
  assert "segment_id < _env.maxSegments" (segment_id <? maxSegments (l_env lib));;
  remaining ← checkNotification segment_id notification_id (user_pointer notification_value);
  if remaining =? 0 then Ret GASPI_SUCCESS
  else
    task ← getCurrentTask (l_tm lib);
    assert "task != NULL" (negb (task =? 0));;
    increaseCurrentTaskEvents (l_tm lib) task 1;;
    waitingRange ← allocate fuel (l_allocator lib) segment_id notification_id 1
                     notification_value 1 task;
    queue ← waiting_range_queue segment_id;
    enqueue fuel queue waitingRange;;
    Ret GASPI_SUCCESS.

Definition tagaspi_notify_async_waitall (fuel : nat) (segment_id notification_begin
    notification_num : Z) (notification_values : option Z) : prog gaspi_return_t :=
  assert "_env.enabled" (enabled (l_env lib));;
  assert "segment_id < _env.maxSegments" (segment_id <? maxSegments (l_env lib));;
  if notification_num =? 0 then Ret GASPI_SUCCESS
  else
    remaining ← checkNotifications segment_id notification_begin notification_num
                  notification_values notification_num;
    if remaining =? 0 then Ret GASPI_SUCCESS
    else
      task ← getCurrentTask (l_tm lib);
      assert "task != NULL" (negb (task =? 0));;
      increaseCurrentTaskEvents (l_tm lib) task 1;;
      waitingRange ← allocate fuel (l_allocator lib) segment_id notification_begin
                       notification_num notification_values remaining task;
      queue ← waiting_range_queue segment_id;
      enqueue fuel queue waitingRange;;
      Ret GASPI_SUCCESS.
End notify_async_wait.

(** ** Behaviour *)

Section notify_async_wait_specs.
Context `{BC : BuildConfig} `{GT : GaspiTypes}.

(** Room in the queue of the segment and its lock free: the calls need not wait for another thread,
    unless all objects of the allocator are in use. *)
Record can_register (seg : Z) (v : view) : Prop := {
  cr_pool : pool_wf v;
  cr_lock : waitingRangeQueueLock seg ∉ v_held v;
  cr_room : Z.of_nat (length (spsc_contents v seg)) < v_spsc_capacity v;
}.

(** A new range of the task was handed over, with one event more for the task. *)
Definition registered (seg f n : Z) (vals : option Z) (rem : Z) (v v' : view) : Prop :=
  ∃ task p l junk, valid_task task ∧ v_pool v = p :: l ∧
    v' = set_spsc (v_spsc v ++ [(seg, p)]) (v_spsc_capacity v)
           (set_objs (<[p := WaitingRange_ctor junk seg f n vals rem task]> (v_objs v))
              (set_pool l (v_pool_capacity v)
                 (set_events (<[task := events v task + 1]> (v_events v)) v))).

(** The two calls have their last part in common. *)
Lemma wp_register lib fuel seg f n vals rem v :
  lib_ok lib → waitingRangeQueues (l_env lib) = true → seg < maxSegments (l_env lib) →
  can_register seg v → (0 < fuel)%nat →
  wp (task ← getCurrentTask (l_tm lib);
      assert "task != NULL" (negb (task =? 0));;
      increaseCurrentTaskEvents (l_tm lib) task 1;;
      waitingRange ← allocate fuel (l_allocator lib) seg f n vals rem task;
      queue ← waiting_range_queue lib seg;
      enqueue fuel queue waitingRange;;
      Ret GASPI_SUCCESS) v
    (post (stops (v_pool v = []))
       (λ e v', e = GASPI_SUCCESS ∧ registered seg f n vals rem v v')).
Proof.
  intros [] Hq Hs [Hw Hlock Hroom] Hfuel.
  eapply wp_bind_post; [eapply wp_post_mono; [by apply wp_getCurrentTask|auto with faults|done]|].
  intros task v1 [-> Ht]. apply wp_assert_bind; [by apply negb_true_iff, Z.eqb_neq, Ht|].
  eapply wp_bind_post; [eapply wp_post_mono; [by apply wp_increase|auto with faults|done]|].
  intros _ v1 ->. destruct (v_pool v) as [|p l] eqn:Hp.
  { apply wp_bind. eapply wp_mono; [by apply wp_allocate_exhausted|].
    intros r v' ->. by right; right. }
  eapply wp_bind_returns.
  { apply wp_allocate; [done|by destruct Hw|exact Hp|done]. }
  intros p' v1 (->&Hw1&junk&->). unfold waiting_range_queue. rewrite Hq.
  rewrite (proj2 (Z.ltb_lt _ _)) by done. cbn [andb]. rewrite mbind_Ret.
  eapply wp_bind_returns; [by apply wp_enqueue|]. intros _ v1 ->. simpl.
  split; [done|]. by exists task, p, l, junk.
Qed.

Lemma can_register_consume seg s f vals C v :
  can_register seg v → can_register seg (consume s f vals C v).
Proof.
  intros [[Hc Hn Hf Ho] Hl Hr]. rewrite (consume_frame s f vals C v).
  split; [by split|done..].
Qed.

Lemma wp_notify_async_wait lib fuel seg i vals v :
  lib_ok lib → waitingRangeQueues (l_env lib) = true → seg < maxSegments (l_env lib) →
  can_register seg v → (0 < fuel)%nat →
  wp (tagaspi_notify_async_wait lib fuel seg i vals) v
    (post (stops (v_pool v = [])) (λ e v', e = GASPI_SUCCESS ∧
       if decide (notif v seg i = 0) then registered seg i 1 vals 1 v v'
       else v' = consume seg i vals [i] v)).
Proof.
  intros Hl Hq Hs Hr Hfuel. unfold tagaspi_notify_async_wait.
  apply wp_assert_bind; [apply Hl|]. wp_assert.
  eapply wp_bind_post.
  { eapply wp_post_mono; [apply wp_checkNotification; by destruct vals|auto with faults|done]. }
  intros rem v1 Hv1. cbv beta in Hv1.
  destruct (decide (notif v seg i = 0)) as [Hz|Hz]; destruct Hv1 as [-> ->].
  - by apply wp_register.
  - simpl. split; [done|]. unfold consume_one. rewrite Z.sub_diag.
    destruct vals; simpl; by rewrite ?Z.add_0_r.
Qed.

Lemma wp_notify_async_waitall lib fuel seg f n vals v :
  lib_ok lib → waitingRangeQueues (l_env lib) = true → seg < maxSegments (l_env lib) →
  can_register seg v → (0 < fuel)%nat → 0 ≤ f → 0 < n → f + n < 2 ^ number_bits →
  wp (tagaspi_notify_async_waitall lib fuel seg f n vals) v
    (post (stops (v_pool v = [])) (λ e v', e = GASPI_SUCCESS ∧ ∃ C,
       let v1 := consume seg f vals C v in
       consumes seg f n n v v1 C ∧
       if decide (Z.of_nat (length C) = n) then v' = v1
       else registered seg f n vals (n - Z.of_nat (length C)) v1 v')).
Proof.
  intros Hl Hq Hs Hr Hfuel Hf Hn Hfn. unfold tagaspi_notify_async_waitall.
  apply wp_assert_bind; [apply Hl|]. wp_assert.
  rewrite (proj2 (Z.eqb_neq n 0)) by lia.
  eapply wp_bind_post.
  { eapply wp_post_mono; [apply wp_checkNotifications; lia|auto with faults|done]. }
  intros rem v1 (C&->&HC&->). destruct (Z.eqb_spec (n - Z.of_nat (length C)) 0).
  - simpl. split; [done|]. exists C. split; [done|]. by rewrite decide_True by lia.
  - eapply wp_post_mono; [apply wp_register; try done; by apply can_register_consume| |].
    { intros f'. apply stops_mono. by rewrite consume_frame. }
    intros e v' [-> Hreg]. split; [done|]. exists C. split; [done|].
    by rewrite decide_False by lia.
Qed.

(** [tagaspi_notify_async_wait]: a notification that has arrived is consumed on the spot and
    nothing else happens; otherwise the task gets one event and a range that waits for that
    notification is behind the others in the queue of the segment. It runs out of fuel only when
    all objects of the allocator are in use. *)
Theorem notify_async_wait_spec {W} `{!Runtime W} `{!RuntimeSpec W} (w : W) lib fuel seg i vals :
  let v := view_of w in
  lib_ok lib → waitingRangeQueues (l_env lib) = true → seg < maxSegments (l_env lib) →
  can_register seg v → (0 < fuel)%nat →
  ∃ r w', run (tagaspi_notify_async_wait lib fuel seg i vals) w = (r, w') ∧
    post (stops (v_pool v = [])) (λ e v', e = GASPI_SUCCESS ∧
       if decide (notif v seg i = 0) then registered seg i 1 vals 1 v v'
       else v' = consume seg i vals [i] v) r (view_of w').
Proof. cbv zeta. intros. by apply wp_run, wp_notify_async_wait. Qed.

(** C11. [tagaspi_notify_async_waitall] with at least one notification: those that have arrived are
    consumed; when they are not all, the task gets one event and a range that waits for as many
    as are missing is queued, and at that point no notification of the range was left. *)
Theorem notify_async_waitall_spec {W} `{!Runtime W} `{!RuntimeSpec W} (w : W) lib fuel seg f n
    vals :
  let v := view_of w in
  lib_ok lib → waitingRangeQueues (l_env lib) = true → seg < maxSegments (l_env lib) →
  can_register seg v → (0 < fuel)%nat → 0 ≤ f → 0 < n → f + n < 2 ^ number_bits →
  ∃ r w', run (tagaspi_notify_async_waitall lib fuel seg f n vals) w = (r, w') ∧
    post (stops (v_pool v = [])) (λ e v', e = GASPI_SUCCESS ∧ ∃ C,
       let v1 := consume seg f vals C v in
       consumes seg f n n v v1 C ∧
       if decide (Z.of_nat (length C) = n) then v' = v1
       else registered seg f n vals (n - Z.of_nat (length C)) v1 v') r (view_of w').
Proof. cbv zeta. intros. by apply wp_run, wp_notify_async_waitall. Qed.
End notify_async_wait_specs.

(** ** Examples *)

Section notify_async_wait_examples.
#[local] Existing Instance sim_types.
#[local] Existing Instance release_build.

(** The world of [sim_pool], with empty queues. *)
Definition sim_registers : Sim :=
  on_view (λ v, set_spsc [] 100 (set_notif {[ (0, 3) := 30; (0, 5) := 50 ]} v)) (sim_pool [4; 2]).

Lemma can_register_intro seg n c v :
  pool_wf v → v_held v = [] → 0 < c →
  can_register seg (set_spsc [] c (set_notif n v)).
Proof.
  intros [] Hh Hc. split; [by split|simpl; rewrite Hh; apply not_elem_of_nil|done].
Qed.

Lemma sim_can_register : can_register 0 (view_of sim_registers).
Proof.
  refine (can_register_intro 0 {[ (0, 3) := 30; (0, 5) := 50 ]} 100 (view_of (sim_pool [4; 2]))
    (sim_pool_wf [4; 2] _ _) eq_refl _).
  - apply (bool_decide_unpack (NoDup [4; 2])). by vm_compute.
  - repeat constructor; lia.
  - lia.
Qed.

Lemma notify_async_wait_spec_witness :
  ∃ r w', run (tagaspi_notify_async_wait sim_lib 1 0 6 None) sim_registers = (r, w') ∧
    post (stops (v_pool (view_of sim_registers) = []))
      (λ e v', e = GASPI_SUCCESS ∧
         if decide (notif (view_of sim_registers) 0 6 = 0)
         then registered 0 6 1 None 1 (view_of sim_registers) v'
         else v' = consume 0 6 None [6] (view_of sim_registers)) r (view_of w').
Proof.
  exact (notify_async_wait_spec sim_registers sim_lib 1 0 6 None sim_lib_ok eq_refl eq_refl
    sim_can_register (le_n 1)).
Defined.

Lemma notify_async_waitall_spec_witness :
  ∃ r w', run (tagaspi_notify_async_waitall sim_lib 1 0 2 5 None) sim_registers = (r, w') ∧
    post (stops (v_pool (view_of sim_registers) = [])) (λ e v', e = GASPI_SUCCESS ∧ ∃ C,
      let v1 := consume 0 2 None C (view_of sim_registers) in
      consumes 0 2 5 5 (view_of sim_registers) v1 C ∧
      if decide (Z.of_nat (length C) = 5) then v' = v1
      else registered 0 2 5 None (5 - Z.of_nat (length C)) v1 v') r (view_of w').
Proof.
  apply (notify_async_waitall_spec sim_registers sim_lib 1 0 2 5 None sim_lib_ok eq_refl eq_refl
    sim_can_register (le_n 1)); [lia|lia|simpl; lia].
Defined.
End notify_async_wait_examples.
