(* ===== verification/Polling.v ===== *)
(** Class [Polling] (common/Polling.{hpp,cpp}): the polling instances, that complete the low-level
    requests of the queues and the waiting ranges of the segments. *)

From S2P Require Import Prelude Types Interface Contract Sim Hoare EnvVar HardwareInfo TaskingModel Allocator WaitingRange WaitingRangeList WaitingRangeQueue Environment Operations.
Open Scope Z_scope.

Definition BatchSize : Z := 64.

Section polling.
Context `{BC : BuildConfig} `{GT : GaspiTypes}.

(** ** [pollQueues] *)

(** The body of the loop over the completed requests. *)
Definition complete_request (tm : TaskingModel) (r : Z * gaspi_return_t) (_ : unit) :
    prog unit :=
  if decide (r.2 ≠ GASPI_SUCCESS) then
    print_abort [PStr "Error: GASPI operation with tag "; PInt (r.1); PStr " failed"]
  else if decide (r.1 ≠ GASPI_TAG_NULL) then
    let task := r.1 in
    assert "task != nullptr" (negb (task =? 0));;
    decreaseTaskEvents tm task 1
  else Ret tt.

(** The [do]-[while] loop on one queue; [continue] goes to its condition with no request
    completed. *)
Fixpoint poll_queue (fuel : nat) (tm : TaskingModel) (queue : Z) : prog unit :=
  match fuel with
  | O => Fault OutOfFuel
  | S fuel =>
      w ← perform (gaspi_request_wait queue BatchSize GASPI_TEST);
      if regular (w.1) then
        let completedReqs := Z.of_nat (length (w.2)) in
        assert "completedReqs <= BatchSize" (completedReqs <=? BatchSize);;
        for_each (w.2) (complete_request tm) tt;;
        if completedReqs =? BatchSize then poll_queue fuel tm queue else Ret tt
      else if decide (w.1 ≠ GASPI_ERR_INV_QUEUE) then
        print_abort [PStr "Error: Return code "; PRet (w.1); PStr " from gaspi_request_wait"]
      else Ret tt
  end.

(** The loop over the queues, whose counter is a queue identifier. *)
Fixpoint poll_queues_from (fuel : nat) (tm : TaskingModel) (queue numQueues : Z) : prog unit :=
  match fuel with
  | O => Fault OutOfFuel
  | S fuel' =>
      if queue <? numQueues then
        poll_queue fuel tm queue;;
        poll_queues_from fuel' tm (queue_id (queue + 1)) numQueues
      else Ret tt
  end.

Definition pollQueues (fuel : nat) (lib : Library) (info : nat) : prog Z :=
  match _queuePollingInfos (l_polling lib) !! info with
  | None => Fault (UndefinedBehaviour "dangling polling information")
  | Some i =>
      let queue := info_firstQueue i in
      let numQueues := number (queue + info_numQueues i) in
      assert "numQueues > 0" (0 <? numQueues);;
      assert "queue < _env.maxQueues" (queue <? maxQueues (l_env lib));;
      assert "numQueues <= _env.maxQueues" (numQueues <=? maxQueues (l_env lib));;
      poll_queues_from fuel (l_tm lib) queue numQueues;;
      Ret (_period (l_polling lib))
  end.

(** ** [pollNotifications] *)

Definition complete_range (lib : Library) (range : Z) (_ : unit) : prog unit :=
  complete (l_tm lib) range;;
  free (l_allocator lib) range.

(** The body of the loop over the segments; the state is [waitingRangeLists]. *)
Definition poll_segment (lib : Library) (seg : Z) (lists : list (list Z)) :
    prog (list (list Z)) :=
  pendingRanges ← vec_get lists seg;
  pendingRanges ← dequeueAll seg pendingRanges;
  r ← list_checkNotifications pendingRanges [];
  lists ← vec_set lists seg (r.1);
  let completeRanges := r.2 in
  if bool_decide (completeRanges = []) then Ret lists
  else
    for_each completeRanges (complete_range lib) tt;;
    Ret lists.

Fixpoint poll_segments (fuel : nat) (lib : Library) (seg : Z) (lists : list (list Z)) :
    prog (list (list Z)) :=
  match fuel with
  | O => Fault OutOfFuel
  | S fuel =>
      if seg <? maxSegments (l_env lib) then
        lists ← poll_segment lib seg lists;
        poll_segments fuel lib (segment_id (seg + 1)) lists
      else Ret lists
  end.

Definition pollNotifications (fuel : nat) (lib : Library) (lists : list (list Z)) :
    prog (Z * list (list Z)) :=
  lists ← poll_segments fuel lib 0 lists;
  Ret (_period (l_polling lib), lists).

(** What the functions registered for polling do. *)
Definition polling_function (fuel : nat) (lib : Library) (f : polling_function_t)
    (lists : list (list Z)) : prog (Z * list (list Z)) :=
  match f with
  | pollQueues_fn info => period ← pollQueues fuel lib info; Ret (period, lists)
  | pollNotifications_fn => pollNotifications fuel lib lists
  end.

(** ** [initialize] and [finalize] *)

Definition instance_name (ins : Z) : string := "TAGASPI QUEUES " +:+ pretty ins.

(** The body of the loop over the instances; the state is the vector of them and the next
    queue. *)
Definition register_queues (tm : TaskingModel) (qppi remq : Z) (ins : Z)
    (st : list QueuePollingInfo * Z) : prog (list QueuePollingInfo * Z) :=
  let '(infos, queue) := st in
  info ← vec_get infos ins;
  let numQueues := number (qppi + (if ins <? remq then 1 else 0)) in
  if 0 <? numQueues then
    instance ← registerPolling tm (instance_name ins) (pollQueues_fn (Z.to_nat ins));
    infos ← vec_set infos ins (mkInfo queue numQueues (Some instance));
    Ret (infos, queue_id (queue + numQueues))
  else
    infos ← vec_set infos ins (mkInfo (info_firstQueue info) numQueues (info_pollingInstance info));
    Ret (infos, queue).

(** The loop's counter is a [gaspi_number_t]: it never reaches a larger bound. *)
Definition register_all (tm : TaskingModel) (qppi remq instances : Z)
    (st : list QueuePollingInfo * Z) : prog (list QueuePollingInfo * Z) :=
  if instances <=? 2 ^ number_bits then
    for_each (seqZ 0 instances) (register_queues tm qppi remq) st
  else
    for_each (seqZ 0 (2 ^ number_bits)) (register_queues tm qppi remq) st;;
    Fault OutOfFuel.

(** The second assertion names a variable before its declaration: a build with assertions does
    not compile. *)
Definition Polling_initialize (lib : Library) : prog Polling :=
  let maxQueues := maxQueues (l_env lib) in
  assert "_env.maxQueues > 0" (0 <? maxQueues);;
  queuePollingInstances ← EnvironmentVariable_ctor "TAGASPI_QUEUE_CHECKERS" 1;
  let instances := getValue queuePollingInstances in
  let infos := resize (Z.to_nat instances) (mkInfo 0 0 None)
                 (_queuePollingInfos (l_polling lib)) in
  if instances =? 0 then Fault (UndefinedBehaviour "division by zero") else
  let qppi := number (maxQueues `div` instances) in
  let remq := number (maxQueues `mod` instances) in
  periodEnvar ← EnvironmentVariable_ctor "TAGASPI_POLLING_PERIOD" 0;
  frequencyEnvar ← EnvironmentVariable_ctor "TAGASPI_POLLING_FREQUENCY" 0;
  let period := if isPresent periodEnvar then getValue periodEnvar
                else if isPresent frequencyEnvar then getValue frequencyEnvar
                else _period (l_polling lib) in
  st ← register_all (l_tm lib) qppi remq instances (infos, 0);
  instance ← registerPolling (l_tm lib) "TAGASPI NOTIFICATIONS" pollNotifications_fn;
  Ret (mkPolling period (st.1) (Some instance)).

Definition unregister_info (fuel : nat) (tm : TaskingModel) (info : QueuePollingInfo)
    (_ : unit) : prog unit :=
  if negb (info_numQueues info =? 0) then
    match info_pollingInstance info with
    | Some instance => unregisterPolling fuel tm instance
    | None => Fault (UndefinedBehaviour "null polling instance")
    end
  else Ret tt.

Definition Polling_finalize (fuel : nat) (lib : Library) : prog Polling :=
  for_each (_queuePollingInfos (l_polling lib)) (unregister_info fuel (l_tm lib)) tt;;
  match _notificationsPollingInstance (l_polling lib) with
  | Some instance =>
      unregisterPolling fuel (l_tm lib) instance;;
      Ret (mkPolling (_period (l_polling lib)) [] (Some instance))
  | None => Fault (UndefinedBehaviour "null polling instance")
  end.
End polling.

(** ** The queues of the instances *)

(** How [n] instances share [m] queues: the first queue and the number of queues of instance [i]. *)
Definition share_first (m n i : Z) : Z := i * (m `div` n) + Z.min i (m `mod` n).
Definition share_num (m n i : Z) : Z := m `div` n + if i <? m `mod` n then 1 else 0.

Section shares.
Context (m n : Z).
Hypothesis Hm : 0 < m.
Hypothesis Hn : 0 < n.

Lemma share_facts : 0 ≤ m `div` n ≤ m ∧ 0 ≤ m `mod` n < n ∧ m `mod` n ≤ m ∧
  m = n * (m `div` n) + m `mod` n.
Proof.
  pose proof (Z.div_mod m n ltac:(lia)). pose proof (Z.mod_pos_bound m n Hn).
  pose proof (Z.div_pos m n ltac:(lia) Hn). nia.
Qed.

Lemma share_succ i : 0 ≤ i → share_first m n (i + 1) = share_first m n i + share_num m n i.
Proof.
  intros Hi. unfold share_first, share_num. destruct (Z.ltb_spec i (m `mod` n)); lia.
Qed.

Lemma share_0 : share_first m n 0 = 0.
Proof. pose proof share_facts. unfold share_first. lia. Qed.

Lemma share_total : share_first m n n = m.
Proof. pose proof share_facts. unfold share_first. lia. Qed.

Lemma share_num_bounds i : 0 ≤ i → 0 ≤ share_num m n i ≤ m ∧
  m `div` n ≤ share_num m n i ≤ m `div` n + 1.
Proof.
  intros Hi. pose proof share_facts.
  assert (1 * (m `div` n) ≤ n * (m `div` n)) by (apply Z.mul_le_mono_nonneg_r; lia).
  unfold share_num. destruct (Z.ltb_spec i (m `mod` n)); lia.
Qed.

Lemma share_mono i j : 0 ≤ i ≤ j → share_first m n i ≤ share_first m n j.
Proof. pose proof share_facts. unfold share_first. nia. Qed.

Lemma share_bounds i : 0 ≤ i < n →
  0 ≤ share_first m n i ∧ share_first m n i + share_num m n i ≤ m.
Proof.
  intros Hi. rewrite <- share_succ by lia. split.
  - rewrite <- share_0. apply share_mono. lia.
  - rewrite <- share_total at 2. apply share_mono. lia.
Qed.

(** Every queue has exactly one instance. *)
Lemma share_cover q : 0 ≤ q < m →
  ∃ i, 0 ≤ i < n ∧ share_first m n i ≤ q < share_first m n i + share_num m n i.
Proof.
  intros Hq. assert (∀ k : nat, q < share_first m n (Z.of_nat k) →
    ∃ i, 0 ≤ i < Z.of_nat k ∧ share_first m n i ≤ q < share_first m n i + share_num m n i) as H.
  { induction k as [|k IH]; intros Hk; [change (Z.of_nat 0) with 0 in Hk; rewrite share_0 in Hk; lia|].
    destruct (Z.lt_ge_cases q (share_first m n (Z.of_nat k))) as [Hlt|Hge].
    - destruct (IH Hlt) as (i&?&?). exists i. split; [lia|done].
    - exists (Z.of_nat k). split; [lia|]. split; [done|].
      rewrite <- share_succ by lia. by replace (Z.of_nat k + 1) with (Z.of_nat (S k)) by lia. }
  destruct (H (Z.to_nat n)) as (i&?&?); [rewrite Z2Nat.id, share_total by lia; lia|].
  exists i. split; [lia|done].
Qed.

Lemma share_unique q i j : 0 ≤ i → 0 ≤ j →
  share_first m n i ≤ q < share_first m n i + share_num m n i →
  share_first m n j ≤ q < share_first m n j + share_num m n j → i = j.
Proof.
  intros Hi Hj Hqi Hqj. rewrite <- share_succ in Hqi, Hqj by done.
  destruct (Z.lt_trichotomy i j) as [?|[?|?]]; [|done|].
  - pose proof (share_mono (i + 1) j ltac:(lia)). lia.
  - pose proof (share_mono (j + 1) i ltac:(lia)). lia.
Qed.
End shares.

Section polling_initialize_specs.
Context `{BC : BuildConfig} `{GT : GaspiTypes}.

Lemma wp_registerPolling tm name f v :
  tm_loaded tm →
  wp (registerPolling tm name f) v (post (λ f, f = alpi_fault) (λ i v',
    v_insts v !! i = None ∧
    v' = set_insts (<[i := mkPollingInstance name f false false]> (v_insts v)) v)).
Proof.
  intros Htm. unfold registerPolling. wp_step as i v1 [Hi ->].
  eapply wp_bind_post; [apply wp_sym_call; [by apply Htm|by apply wp_perform]|].
  intros e v2 ->. eapply wp_bind_post; [by apply (wp_fail_if_error _ _ _ _ (λ _ v', v' =
    set_insts (<[i := mkPollingInstance name f false false]> (v_insts v)) v))|].
  by intros _ v3 ->.
Qed.

(** Instance [i] of [n] looks after its share of [m] queues. *)
Definition info_ok (m n : Z) (v : view) (i : nat) (info : QueuePollingInfo) : Prop :=
  info_numQueues info = share_num m n (Z.of_nat i) ∧
  (0 < share_num m n (Z.of_nat i) →
   info_firstQueue info = share_first m n (Z.of_nat i) ∧
   ∃ a, info_pollingInstance info = Some a ∧
     v_insts v !! a = Some (mkPollingInstance (instance_name (Z.of_nat i))
                              (pollQueues_fn i) false false)).

Lemma info_ok_mono m n v v' i info :
  info_ok m n v i info → v_insts v ⊆ v_insts v' → info_ok m n v' i info.
Proof.
  intros [Hnum Hok] Hsub. split; [done|]. intros Hp. destruct (Hok Hp) as (?&a&?&?).
  split; [done|]. exists a. split; [done|]. by eapply lookup_weaken.
Qed.

(** The polling instances that came into being have not finished. *)
Definition new_running (v v' : view) : Prop :=
  ∀ b p, v_insts v' !! b = Some p → v_insts v !! b = Some p ∨ _finished p = false.

Lemma new_running_refl v : new_running v v.
Proof. by left. Qed.

Lemma new_running_trans v1 v2 v3 : new_running v1 v2 → new_running v2 v3 → new_running v1 v3.
Proof. intros H1 H2 b p [Hb|?]%H2; [by apply H1|by right]. Qed.

Lemma new_running_insert v a name f :
  new_running v (set_insts (<[a := mkPollingInstance name f false false]> (v_insts v)) v).
Proof.
  intros b p Hb. cbn in Hb. apply lookup_insert_Some in Hb as [[_ <-]|[_ ?]]; [by right|by left].
Qed.

(** The loop after the first instances. *)
Record registered_upto (m n : Z) (v : view) (done : list Z)
    (st : list QueuePollingInfo * Z) (v' : view) : Prop := {
  ru_length : length (st.1) = Z.to_nat n;
  ru_queue : st.2 = queue_id (share_first m n (Z.of_nat (length done)));
  ru_infos (i : nat) info : (i < length done)%nat → st.1 !! i = Some info → info_ok m n v' i info;
  ru_rest (i : nat) : (length done ≤ i < Z.to_nat n)%nat → st.1 !! i = Some (mkInfo 0 0 None);
  ru_insts : v_insts v ⊆ v_insts v';
  ru_frame : v' = set_insts (v_insts v') v;
  ru_new : new_running v v';
}.

Lemma queue_id_first m x : 0 ≤ x < m → m ≤ 2 ^ queue_id_bits → queue_id x = x.
Proof. intros. apply wrap_small. lia. Qed.

(** The step of the invariant, whatever the instance registered. *)
Lemma registered_step m n v k infos queue v1 info v2 :
  0 ≤ k < n → registered_upto m n v (seqZ 0 k) (infos, queue) v1 →
  info_ok m n v2 (Z.to_nat k) info → v_insts v1 ⊆ v_insts v2 → v2 = set_insts (v_insts v2) v →
  new_running v1 v2 → registered_upto m n v (seqZ 0 k ++ [k])
    (<[Z.to_nat k := info]> infos, queue_id (queue + share_num m n k)) v2.
Proof.
  intros Hk [Hlen Hq Hinf Hrest Hins _ Hnew] Hok Hsub Hfr2 Hnew2. cbn [fst snd] in *.
  rewrite length_seqZ, Z2Nat.id in * by lia.
  split; cbn [fst snd]; rewrite ?length_app, ?length_seqZ; simpl length.
  - by rewrite length_insert.
  - replace (Z.of_nat (Z.to_nat k + 1)) with (k + 1) by lia.
    rewrite share_succ by lia. subst queue. apply wrap_add_l.
  - intros i info' Hi. destruct (decide (i = Z.to_nat k)) as [->|Hne].
    + rewrite list_lookup_insert_eq by lia. by intros [= <-].
    + rewrite list_lookup_insert_ne by done. intros Hi'. eapply info_ok_mono; [|done].
      apply Hinf; [lia|done].
  - intros i Hi. rewrite list_lookup_insert_ne by lia. apply Hrest. lia.
  - by etrans.
  - done.
  - by eapply new_running_trans.
Qed.

Lemma wp_register_queues tm m n v k st v1 :
  tm_loaded tm → 0 < m ≤ 2 ^ queue_id_bits → m < 2 ^ number_bits → 0 ≤ k < n →
  registered_upto m n v (seqZ 0 k) st v1 →
  wp (register_queues tm (m `div` n) (m `mod` n) k st) v1 (post (λ f, f = alpi_fault)
    (registered_upto m n v (seqZ 0 k ++ [k]))).
Proof.
  intros Htm Hm Hmn Hk Hinv. destruct st as [infos queue].
  pose proof (λ info v2, registered_step m n v k infos queue v1 info v2 Hk Hinv) as Hstep.
  destruct Hinv as [Hlen Hq Hinf Hrest Hins Hfr _]. cbn [fst snd] in *. rewrite length_seqZ, Z2Nat.id in * by lia.
  pose proof (share_num_bounds m n ltac:(lia) ltac:(lia) k ltac:(lia)) as [Hnb _].
  pose proof (share_bounds m n ltac:(lia) ltac:(lia) k ltac:(lia)) as Hsb.
  assert (infos !! Z.to_nat k = Some (mkInfo 0 0 None)) as Hk0 by (apply Hrest; lia).
  unfold register_queues.
  assert (vec_get infos k = Ret (mkInfo 0 0 None)) as -> by (apply vec_get_Some; [lia|done]).
  rewrite mbind_Ret.
  change (m `div` n + (if k <? m `mod` n then 1 else 0)) with (share_num m n k).
  rewrite number_small by lia. cbn [info_firstQueue info_pollingInstance].
  destruct (Z.ltb_spec 0 (share_num m n k)) as [Hp|Hp].
  - eapply wp_bind_post; [by apply wp_registerPolling|]. intros a v2 [Ha ->].
    rewrite vec_set_ok by lia. apply Hstep.
    + split; [cbn; by rewrite Z2Nat.id by lia|]. intros _. rewrite Z2Nat.id by lia.
      split; [subst queue; by eapply queue_id_first with (m := m); lia|].
      exists a. split; [done|]. simpl. by rewrite lookup_insert_eq.
    + by apply insert_subseteq.
    + by rewrite Hfr.
    + apply new_running_insert.
  - rewrite vec_set_ok by lia. cbn.
    replace queue with (queue_id (queue + share_num m n k)); [apply Hstep; [|done|done|apply new_running_refl]|].
    + split; [cbn; by rewrite Z2Nat.id by lia|]. rewrite Z2Nat.id by lia. lia.
    + replace (share_num m n k) with 0 by lia. rewrite Z.add_0_r. subst queue.
      apply Zmod_mod.
Qed.

(** The period chosen from the environment. *)
Definition chosen_period (h : host) (old : Z) : Z :=
  match h_getenv h "TAGASPI_POLLING_PERIOD" ≫= extract_u64 with
  | Some period => period
  | None => default old (h_getenv h "TAGASPI_POLLING_FREQUENCY" ≫= extract_u64)
  end.

Definition chosen_instances (h : host) : Z :=
  default 1 (h_getenv h "TAGASPI_QUEUE_CHECKERS" ≫= extract_u64).

Lemma ev_spec_value h name d :
  getValue (ev_spec h name d) = default d (h_getenv h name ≫= extract_u64) ∧
  isPresent (ev_spec h name d) = bool_decide (is_Some (h_getenv h name ≫= extract_u64)).
Proof. unfold ev_spec. by destruct (_ ≫= _). Qed.

(** The instances share the queues, and each polls its own. *)
Record polling_ok (m n : Z) (v : view) (p : Polling) : Prop := {
  po_length : length (_queuePollingInfos p) = Z.to_nat n;
  po_infos (i : nat) info : _queuePollingInfos p !! i = Some info → info_ok m n v i info;
  po_notifications : ∃ a, _notificationsPollingInstance p = Some a ∧
    v_insts v !! a = Some (mkPollingInstance "TAGASPI NOTIFICATIONS" pollNotifications_fn
                             false false);
}.

Lemma wp_Polling_initialize lib v :
  let m := maxQueues (l_env lib) in
  let n := chosen_instances (v_host v) in
  tm_loaded (l_tm lib) → 0 < m ≤ 2 ^ queue_id_bits → m < 2 ^ number_bits →
  0 < n ≤ 2 ^ number_bits → _queuePollingInfos (l_polling lib) = [] →
  wp (Polling_initialize lib) v (post (λ f, f = alpi_fault) (λ p v',
    polling_ok m n v' p ∧
    _period p = chosen_period (v_host v) (_period (l_polling lib)) ∧
    v' = set_insts (v_insts v') (set_err (v_err v') v) ∧ new_running v v')).
Proof.
  intros m n Htm Hm Hmn Hn Hinfos. unfold Polling_initialize. fold m. cbv zeta.
  wp_assert.
  eapply wp_bind_returns; [apply wp_EnvironmentVariable|]. intros e1 v1 [-> Hv1].
  rewrite (proj1 (ev_spec_value _ _ _)). fold (chosen_instances (v_host v)). fold n.
  rewrite (proj2 (Z.eqb_neq n 0)) by lia.
  eapply wp_bind_returns; [apply wp_EnvironmentVariable|]. intros e2 v2 [-> Hv2].
  eapply wp_bind_returns; [apply wp_EnvironmentVariable|]. intros e3 v3 [-> Hv3].
  assert (v_host v1 = v_host v) as Hh1 by (by rewrite Hv1).
  assert (v_host v2 = v_host v) as Hh2 by (by rewrite Hv2, Hv1).
  rewrite Hh1, Hh2.
  assert (v3 = set_err (v_err v3) v) as Hv by (rewrite Hv3, Hv2, Hv1; done).
  clear Hv1 Hv2 Hv3 Hh1 Hh2. rewrite Hinfos, resize_nil.
  assert (number (m `div` n) = m `div` n ∧ number (m `mod` n) = m `mod` n) as [-> ->].
  { pose proof (share_facts m n ltac:(lia) ltac:(lia)). split; apply number_small; lia. }
  unfold register_all. rewrite (proj2 (Z.leb_le _ _)) by lia.
  eapply wp_bind_post.
  { apply (wp_for_each _ (registered_upto m n v3)).
    - split; cbn [fst snd length].
      + by rewrite length_replicate.
      + rewrite share_0 by lia. symmetry. apply (queue_id_first m); lia.
      + intros; lia.
      + intros i Hi. apply lookup_replicate_2. lia.
      + done.
      + by destruct v3.
      + apply new_running_refl.
    - intros l1 k l2 st v4 [-> Hk]%seqZ_split HI. rewrite Z.sub_0_r in *.
      apply wp_register_queues; [done|lia|lia|lia|done]. }
  intros st v4 []. eapply wp_bind_post; [by apply wp_registerPolling|]. intros a v5 [Ha ->].
  rewrite length_seqZ in *. split; [|split; [|split]]; cbn.
  - split; cbn; [done| |].
    + intros i info Hi. eapply info_ok_mono; [apply ru_infos0; [|done]|by apply insert_subseteq].
      apply lookup_lt_Some in Hi. lia.
    + exists a. split; [done|]. by rewrite lookup_insert_eq.
  - unfold chosen_period.
    destruct (ev_spec_value (v_host v) "TAGASPI_POLLING_PERIOD" 0) as [-> ->].
    destruct (ev_spec_value (v_host v) "TAGASPI_POLLING_FREQUENCY" 0) as [-> ->].
    by destruct (_ ≫= _), (_ ≫= _).
  - rewrite ru_frame0, Hv. done.
  - assert (v_insts v3 = v_insts v) as E by by rewrite Hv.
    eapply new_running_trans; [|apply new_running_insert]. intros b p Hb. rewrite <- E. by apply ru_new0.
Qed.

Definition looks_after (p : Polling) (i : nat) (q : Z) : Prop :=
  ∃ info, _queuePollingInfos p !! i = Some info ∧
    info_firstQueue info ≤ q < info_firstQueue info + info_numQueues info.

(** C14. [Polling::initialize] gives every queue to exactly one instance: the instances own
    consecutive ranges of queues inside [0, maxQueues), whose sizes differ by at most one; an
    instance with queues is registered to poll them, and one more is registered for the
    notifications. The period is TAGASPI_POLLING_PERIOD when it can be read, else
    TAGASPI_POLLING_FREQUENCY when it can, else unchanged. *)
Theorem Polling_initialize_spec {W} `{!Runtime W} `{!RuntimeSpec W} (w : W) lib :
  let m := maxQueues (l_env lib) in
  let n := chosen_instances (v_host (view_of w)) in
  tm_loaded (l_tm lib) → 0 < m ≤ 2 ^ queue_id_bits → m < 2 ^ number_bits →
  0 < n ≤ 2 ^ number_bits → _queuePollingInfos (l_polling lib) = [] →
  ∃ r w', run (Polling_initialize lib) w = (r, w') ∧
    post (λ f, f = alpi_fault) (λ p v',
      (∀ q, 0 ≤ q < m → ∃ i, looks_after p i q ∧ ∀ j, looks_after p j q → j = i) ∧
      (∀ i info, _queuePollingInfos p !! i = Some info → info_numQueues info ≠ 0 →
         0 ≤ info_firstQueue info ∧ info_firstQueue info + info_numQueues info ≤ m ∧
         m `div` n ≤ info_numQueues info ≤ m `div` n + 1) ∧
      polling_ok m n v' p ∧
      _period p = chosen_period (v_host (view_of w)) (_period (l_polling lib))) r (view_of w').
Proof.
  intros m n Htm Hm Hmn Hn Hinfos.
  destruct (wp_run _ w _ (wp_Polling_initialize lib _ Htm Hm Hmn Hn Hinfos)) as (r&w'&Hr&HQ).
  exists r, w'. split; [done|]. destruct r as [p|f]; [|done].
  destruct HQ as (Hok&Hper&_). pose proof Hok as [Hlen Hinf _].
  fold m in Hinf. fold n in Hinf, Hlen.
  assert (∀ i info q, _queuePollingInfos p !! i = Some info →
    info_firstQueue info ≤ q < info_firstQueue info + info_numQueues info →
    share_first m n (Z.of_nat i) ≤ q <
      share_first m n (Z.of_nat i) + share_num m n (Z.of_nat i)) as Hin.
  { intros i info q Hi Hq. destruct (Hinf _ _ Hi) as [Hnum Hf].
    destruct Hf as [Hf _]; [lia|]. rewrite <- Hf, <- Hnum. done. }
  split_and!; [| |done|done].
  - intros q Hq. destruct (share_cover m n ltac:(lia) ltac:(lia) q Hq) as (i&Hi&Hqi).
    destruct (lookup_lt_is_Some_2 (_queuePollingInfos p) (Z.to_nat i)) as [info Hinfo]; [lia|].
    exists (Z.to_nat i). split.
    + exists info. split; [done|]. destruct (Hinf _ _ Hinfo) as [Hnum Hf].
      rewrite Z2Nat.id in * by lia. destruct Hf as [-> _]; [lia|]. by rewrite Hnum.
    + intros j (info'&Hj&Hq'). specialize (Hin _ _ _ Hj Hq').
      pose proof (share_unique m n ltac:(lia) ltac:(lia) q i (Z.of_nat j) ltac:(lia) ltac:(lia)
        Hqi Hin). lia.
  - intros i info Hi Hne. destruct (Hinf _ _ Hi) as [Hnum Hf].
    pose proof (share_num_bounds m n ltac:(lia) ltac:(lia) (Z.of_nat i) ltac:(lia)).
    apply lookup_lt_Some in Hi.
    pose proof (share_bounds m n ltac:(lia) ltac:(lia) (Z.of_nat i) ltac:(lia)).
    destruct Hf as [-> _]; [lia|]. rewrite Hnum. lia.
Qed.

(** With TAGASPI_QUEUE_CHECKERS set to 0, initialisation divides by zero. *)
Theorem Polling_initialize_no_checkers {W} `{!Runtime W} `{!RuntimeSpec W} (w : W) lib :
  0 < maxQueues (l_env lib) → chosen_instances (v_host (view_of w)) = 0 →
  ∃ w', run (Polling_initialize lib) w =
    (inr (UndefinedBehaviour "division by zero"), w').
Proof.
  intros Hm Hn. edestruct (wp_run (Polling_initialize lib) w
    (λ r _, r = inr (UndefinedBehaviour "division by zero"))) as (r&w'&Hr&->); [|by exists w'].
  unfold Polling_initialize. cbv zeta. wp_assert.
  eapply wp_bind_returns; [apply wp_EnvironmentVariable|]. intros e1 v1 [-> _].
  rewrite (proj1 (ev_spec_value _ _ _)). unfold chosen_instances in Hn. by rewrite Hn.
Qed.
End polling_initialize_specs.

(** ** Completion of requests *)

Section poll_queues_specs.
Context `{BC : BuildConfig} `{GT : GaspiTypes}.

(** From [v] to [v'], the requests with the tags [l] were completed: each was an event of its
    task. *)
Record completed (l : list Z) (v v' : view) : Prop := {
  cp_outstanding : v_outstanding v ≡ₚ l ++ v_outstanding v';
  cp_events t : t ≠ GASPI_TAG_NULL → events v' t = events v t - count t l;
  cp_frame : v' = set_events (v_events v') (set_outstanding (v_outstanding v') v);
}.

Lemma completed_nil v : completed [] v v.
Proof. split; [done| |by destruct v]. intros t _. count_lia. Qed.

Lemma completed_trans l1 l2 v v1 v2 :
  completed l1 v v1 → completed l2 v1 v2 → completed (l1 ++ l2) v v2.
Proof.
  intros [Ho1 He1 Hf1] [Ho2 He2 Hf2]. split.
  - by rewrite Ho1, Ho2, <- app_assoc.
  - intros t Ht. rewrite He2, He1 by done. count_lia.
  - etrans; [exact Hf2|]. by rewrite Hf1.
Qed.

(** The tags of the outstanding requests are of tasks or of nobody. *)
Definition tags_ok (l : list Z) : Prop := Forall (λ t, t ≠ GASPI_TAG_NULL → t ≠ 0) l.

Lemma wp_complete_request tm r v :
  tm_loaded tm → (r.1 ≠ GASPI_TAG_NULL → r.1 ≠ 0) →
  wp (complete_request tm r tt) v (post (λ f, f = Aborted ∨ f = alpi_fault)
    (λ _ v', (∀ t, t ≠ GASPI_TAG_NULL → events v' t = events v t - count t [r.1]) ∧
             v' = set_events (v_events v') v)).
Proof.
  intros Htm Ht. unfold complete_request. destruct r as [tag e]. simpl in *.
  destruct (decide (e ≠ GASPI_SUCCESS)).
  { eapply wp_post_mono; [apply (wp_print_abort _ _ (λ _ _, False))|by left|done]. }
  assert (∀ t, count t [tag] = if decide (tag = t) then 1 else 0) as Hc.
  { intros t. rewrite count_cons, count_nil. by destruct (decide _). }
  destruct (decide (tag ≠ GASPI_TAG_NULL)) as [Hn|Hn].
  - apply wp_assert_bind; [by apply negb_true_iff, Z.eqb_neq, Ht|].
    eapply wp_post_mono; [by apply wp_decrease|by right|]. intros _ v' ->. split; [|done].
    intros t _. rewrite events_set, Hc.
    repeat case_decide; subst; lia || done.
  - apply dec_stable in Hn as ->. simpl. split; [|by destruct v]. intros t Hnt.
    rewrite Hc, decide_False by done. lia.
Qed.

Lemma wp_complete_requests tm l v :
  tm_loaded tm → tags_ok l.*1 →
  wp (for_each l (complete_request tm) tt) v (post (λ f, f = Aborted ∨ f = alpi_fault)
    (λ _ v', (∀ t, t ≠ GASPI_TAG_NULL → events v' t = events v t - count t l.*1) ∧
             v' = set_events (v_events v') v)).
Proof.
  intros Htm Hl. apply (wp_for_each _ (λ l _ v',
    (∀ t, t ≠ GASPI_TAG_NULL → events v' t = events v t - count t l.*1) ∧
    v' = set_events (v_events v') v)).
  - split; [|by destruct v]. intros t _. count_lia.
  - intros l1 r l2 [] v1 -> [He Hf]. unfold tags_ok in Hl. rewrite fmap_app, Forall_app in Hl.
    destruct Hl as [_ [Hr _]%Forall_cons].
    eapply wp_post_mono; [by apply wp_complete_request|done|]. intros _ v2 [He2 Hf2]. split.
    + intros t Ht. rewrite He2, He, fmap_app, count_app by done. simpl. lia.
    + etrans; [exact Hf2|]. by rewrite Hf.
Qed.

Lemma wp_poll_queue fuel tm queue v :
  tm_loaded tm → tags_ok (v_outstanding v) →
  wp (poll_queue fuel tm queue) v (post (stops (fuel ≤ length (v_outstanding v))%nat)
    (λ _ v', ∃ l, completed l v v')).
Proof.
  intros Htm. revert v. induction fuel as [|fuel IH]; intros v Ho.
  { right. right. split; [done|lia]. }
  cbn [poll_queue]. apply wp_perform_bind; [done|]. intros [e l] v1 Hw. simpl in Hw.
  cbn [fst snd]. destruct (regular e).
  - destruct Hw as (Hl&o&->&Hp). wp_assert.
    assert (tags_ok l.*1) as Hl1.
    { unfold tags_ok in *. rewrite Hp, Forall_app in Ho. apply Ho. }
    eapply wp_bind_post.
    { eapply wp_post_mono; [by apply wp_complete_requests|auto with faults|done]. }
    intros _ v2 [He Hf]. assert (completed l.*1 v v2) as Hc.
    { split; [by rewrite Hf|exact He|rewrite Hf; done]. }
    destruct (Z.eqb_spec (Z.of_nat (length l)) BatchSize) as [Hb|Hb]; [|by exists l.*1].
    assert (length (v_outstanding v2) < length (v_outstanding v))%nat.
    { rewrite Hf. simpl. rewrite Hp, length_app, length_fmap. unfold BatchSize in Hb. lia. }
    eapply wp_post_mono; [apply IH|intros f; apply stops_mono; lia|].
    + unfold tags_ok in *. rewrite Hp, Forall_app in Ho. rewrite Hf. apply Ho.
    + intros _ v3 [l2 Hc2]. exists (l.*1 ++ l2). by eapply completed_trans.
  - subst v1. case_decide.
    + eapply wp_post_mono; [apply (wp_print_abort _ _ (λ _ _, False))|by left|done].
    + exists []. apply completed_nil.
Qed.

Lemma wp_poll_queues_from fuel tm queue last v :
  tm_loaded tm → tags_ok (v_outstanding v) → 0 ≤ queue → last < 2 ^ queue_id_bits →
  wp (poll_queues_from fuel tm queue last) v
    (post (stops (fuel ≤ length (v_outstanding v) + Z.to_nat (last - queue))%nat)
      (λ _ v', ∃ l, completed l v v')).
Proof.
  intros Htm. revert queue v. induction fuel as [|fuel IH]; intros queue v Ho Hq Hl.
  { right. right. split; [done|lia]. }
  cbn [poll_queues_from]. destruct (Z.ltb_spec queue last).
  - eapply wp_bind_post.
    { eapply wp_post_mono; [by apply wp_poll_queue|intros f; apply stops_mono; lia|done]. }
    intros _ v1 [l1 Hc1]. pose proof (cp_outstanding _ _ _ Hc1) as Hp.
    assert (queue_id (queue + 1) = queue + 1) as -> by (apply wrap_small; lia).
    eapply wp_post_mono; [apply IH| |].
    + unfold tags_ok in *. rewrite Hp, Forall_app in Ho. apply Ho.
    + lia.
    + lia.
    + intros f. apply stops_mono. rewrite Hp, length_app. lia.
    + intros _ v2 [l2 Hc2]. exists (l1 ++ l2). by eapply completed_trans.
  - exists []. apply completed_nil.
Qed.

(** The queues an instance looks after exist. *)
Definition info_valid (lib : Library) (info : QueuePollingInfo) : Prop :=
  0 ≤ info_firstQueue info ∧ 0 < info_numQueues info ∧
  info_firstQueue info + info_numQueues info ≤ maxQueues (l_env lib) < 2 ^ number_bits.

Lemma wp_pollQueues fuel lib i info v :
  tm_loaded (l_tm lib) → tags_ok (v_outstanding v) →
  _queuePollingInfos (l_polling lib) !! i = Some info → info_valid lib info →
  maxQueues (l_env lib) < 2 ^ queue_id_bits →
  wp (pollQueues fuel lib i) v
    (post (stops (fuel ≤ length (v_outstanding v) + Z.to_nat (info_numQueues info))%nat)
      (λ period v', period = _period (l_polling lib) ∧ ∃ l, completed l v v')).
Proof.
  intros Htm Ho Hi (Hf&Hn&Hl) Hm. unfold pollQueues. rewrite Hi. cbv zeta.
  pose proof queue_id_bits_range.
  assert (2 ^ queue_id_bits ≤ 2 ^ number_bits) by (apply Z.pow_le_mono_r; lia).
  rewrite number_small by lia. wp_assert. wp_assert. wp_assert.
  eapply wp_bind_post.
  { eapply wp_post_mono; [by apply wp_poll_queues_from; [..|lia]| |done].
    intros f. apply stops_mono. lia. }
  intros [] v' Hc. by split.
Qed.


(** When an instance has the largest queue identifier, the counter of its loop wraps around
    before it reaches the bound, and [pollQueues] never returns. *)
Theorem pollQueues_wraps {W} `{!Runtime W} (w w' : W) fuel lib i info period :
  _queuePollingInfos (l_polling lib) !! i = Some info →
  0 ≤ info_firstQueue info < 2 ^ queue_id_bits → queue_id_bits < number_bits →
  info_firstQueue info + info_numQueues info = 2 ^ queue_id_bits →
  run (pollQueues fuel lib i) w ≠ (inl period, w').
Proof.
  intros Hi Hf Hb Hlast. unfold pollQueues. rewrite Hi. cbv zeta. rewrite Hlast.
  pose proof number_bits_range.
  rewrite number_small by (split; [apply Z.pow_nonneg; lia|apply Z.pow_lt_mono_r; lia]).
  assert (∀ fuel q (w : W) x w', 0 ≤ q < 2 ^ queue_id_bits →
    run (poll_queues_from fuel (l_tm lib) q (2 ^ queue_id_bits)) w ≠ (inl x, w')) as Hloop.
  { clear. intros fuel. induction fuel as [|fuel IH]; intros q w x w' Hq; [done|].
    cbn [poll_queues_from]. rewrite (proj2 (Z.ltb_lt _ _)) by lia. rewrite run_bind.
    destruct (run (poll_queue _ _ _) w) as [[?|f] w1]; [|done].
    apply IH, wrap_range. pose proof queue_id_bits_range. lia. }
  rewrite !run_bind. repeat (destruct (run (assert _ _) _) as [[?|?] ?]; [rewrite ?run_bind|done]).
  destruct (run (poll_queues_from _ _ _ _) _) as [[[]|?] ?] eqn:Hr; [|done].
  by apply Hloop in Hr.
Qed.
End poll_queues_specs.

(** ** Examples *)

Section polling_examples.
#[local] Existing Instance sim_types.
#[local] Existing Instance release_build.

(** The process with TAGASPI_QUEUE_CHECKERS set. *)
Definition sim_checkers (s : string) : Sim :=
  mkSim (view0 (Host 1 6 (λ _, true) (λ _, 0) (λ name,
    if decide (name = "TAGASPI_QUEUE_CHECKERS") then Some s
    else if decide (name = "TAGASPI_POLLING_FREQUENCY") then Some "500" else None)
    (λ _, true) 5 2)) 77 GASPI_SUCCESS 0 5.

(** [sim_lib] before and after [Polling::initialize]. *)
Definition sim_lib_polling (p : Polling) : Library :=
  mkLibrary (l_hw sim_lib) (l_tm sim_lib) (l_allocator sim_lib) (l_env sim_lib) p.

Example sim_three_checkers : ∃ a b c d,
  (run (Polling_initialize (sim_lib_polling Polling_static)) (sim_checkers "3")).1 =
  inl (mkPolling 500 [mkInfo 0 2 (Some a); mkInfo 2 2 (Some b); mkInfo 4 1 (Some c)] (Some d)).
Proof. do 4 eexists. by vm_compute. Qed.

Lemma Polling_initialize_spec_witness :
  ∃ r w', run (Polling_initialize (sim_lib_polling Polling_static)) (sim_checkers "3") = (r, w') ∧
    post (λ f, f = alpi_fault) (λ p _,
      ∀ q, 0 ≤ q < 5 → ∃ i, looks_after p i q ∧ ∀ j, looks_after p j q → j = i) r (view_of w').
Proof.
  destruct (Polling_initialize_spec (sim_checkers "3") (sim_lib_polling Polling_static))
    as (r&w'&Hr&HQ); [exact sim_tm_loaded|simpl; lia|simpl; lia|by vm_compute|done|].
  exists r, w'. split; [exact Hr|]. destruct r as [p|f]; [|exact HQ]. by destruct HQ.
Defined.

Lemma Polling_initialize_no_checkers_witness :
  ∃ w', run (Polling_initialize (sim_lib_polling Polling_static)) (sim_checkers "0") =
    (inr (UndefinedBehaviour "division by zero"), w').
Proof.
  apply (Polling_initialize_no_checkers (sim_checkers "0") (sim_lib_polling Polling_static));
    [done|by vm_compute].
Defined.

(** Three requests of task 77 and one of nobody. *)
Definition sim_posted : Sim :=
  on_view (λ v, set_events {[ 77 := 4 ]} (set_outstanding [77; 0; 77; 77] v)) sim0.

Example sim_posted_completes :
  v_events (sim_view (run (pollQueues 10 sim_lib 0) sim_posted).2) = {[ 77 := 1 ]}.
Proof. by vm_compute. Qed.


(** An instance with all of 256 queues. *)
Lemma pollQueues_wraps_witness :
  run (pollQueues 100 (sim_lib_polling (mkPolling 100 [mkInfo 0 256 (Some 0)] (Some 1))) 0) sim0 ≠
    (inl 100, sim0).
Proof.
  apply (pollQueues_wraps sim0 sim0 100
    (sim_lib_polling (mkPolling 100 [mkInfo 0 256 (Some 0)] (Some 1))) 0 (mkInfo 0 256 (Some 0)));
    done.
Defined.
End polling_examples.
