(* ===== verification/PollNotifications.v ===== *)
(** What [Polling::pollNotifications] achieves: one pass over the segments takes the ranges out of
    the queues, consumes the notifications that have arrived, and completes and frees exactly the
    ranges that wait for nothing else. *)

From S2P Require Import Prelude Types Interface Contract Sim Hoare TaskingModel Allocator WaitingRange WaitingRangeList WaitingRangeQueue Environment Operations Polling.
Open Scope Z_scope.

(** The ranges that wait, in the lists of the polling instance or in the queues. *)
Definition live (lists : list (list Z)) (v : view) : list Z := concat lists ++ (v_spsc v).*2.

(** The tasks of the ranges in a list of objects. *)
Definition range_tasks (v : view) (l : list Z) : list Z :=
  (λ o, default 0 (_task <$> v_objs v !! o)) <$> l.

(** The world between two passes: the live ranges are different objects that are not free. *)
Record live_ok `{GaspiTypes} (lists : list (list Z)) (v : view) : Prop := {
  lk_pool : pool_wf v;
  lk_NoDup : NoDup (v_pool v ++ live lists v);
  lk_entry o : o ∈ live lists v → 0 ≤ o < NumEntries;
  lk_pending : pending v (live lists v);
}.

(** From [v] to [v'], the ranges [comp] were completed and the others updated. *)
Record polled (lists lists' : list (list Z)) (comp : list Z) (v v' : view) : Prop := {
  pl_live : live lists' v' ++ comp ≡ₚ live lists v;
  pl_pool : v_pool v' = v_pool v ++ comp;
  pl_events t : events v' t = events v t - count t (range_tasks v comp);
  pl_other o : o ∉ live lists v → v_objs v' !! o = v_objs v !! o;
  pl_range o r : o ∈ live lists v → v_objs v !! o = Some r →
    ∃ nv rem, v_objs v' !! o = Some (set_notifiedValue nv (set_remaining rem r)) ∧
      0 ≤ rem ≤ _remaining r ∧ (o ∈ comp ↔ rem = 0);
  pl_consumed : ∃ C, counted (live lists v) v v' C;
  pl_frame : v_outstanding v' = v_outstanding v ∧ v_held v' = v_held v ∧
    v_insts v' = v_insts v ∧ v_spsc_capacity v' = v_spsc_capacity v;
}.

Lemma range_tasks_ext v v' l :
  (∀ o, o ∈ l → _task <$> v_objs v' !! o = _task <$> v_objs v !! o) →
  range_tasks v' l = range_tasks v l.
Proof. intros Hl. apply list_fmap_ext. intros i o Hi. by rewrite Hl by by eapply list_elem_of_lookup_2. Qed.

Section poll_notifications_specs.
Context `{BC : BuildConfig} `{GT : GaspiTypes}.

Lemma set_same r : set_notifiedValue (_notifiedValue r) (set_remaining (_remaining r) r) = r.
Proof. by destruct r. Qed.

(** An update that only moves ranges and completes none. *)
Lemma polled_nil lists v : live_ok lists v → polled lists lists [] v v.
Proof.
  intros [_ _ _ Hp]. split.
  - by rewrite app_nil_r.
  - by rewrite app_nil_r.
  - intros t. count_lia.
  - done.
  - intros o r Ho Hr. exists (_notifiedValue r), (_remaining r). rewrite set_same.
    destruct (Hp o Ho) as (r'&Hr'&[]). simplify_eq. split; [done|]. split; [lia|].
    split; [by intros ?%elem_of_nil|lia].
  - exists []. by apply counted_nil.
  - done.
Qed.

Lemma polled_trans lists lists1 lists2 comp1 comp2 v v1 v2 :
  live_ok lists v → polled lists lists1 comp1 v v1 → polled lists1 lists2 comp2 v1 v2 →
  polled lists lists2 (comp1 ++ comp2) v v2.
Proof.
  intros Hok H1 H2. pose proof Hok as [Hw Hnd _ Hp]. pose proof H1 as [Hl1 Hp1 He1 Ho1 Hr1 Hc1 Hf1].
  destruct H2 as [Hl2 Hp2 He2 Ho2 Hr2 Hc2 Hf2].
  apply NoDup_app in Hnd as (_&_&Hnd). rewrite <- Hl1 in Hnd.
  apply NoDup_app in Hnd as (Hnd1&Hdis&_).
  assert (∀ o, o ∈ live lists v ↔ o ∈ live lists1 v1 ∨ o ∈ comp1) as Hin.
  { intros o. by rewrite <- Hl1, elem_of_app. }
  assert (∀ o, o ∈ comp1 → o ∉ live lists1 v1) as Hdis' by (intros o ? ?; by eapply Hdis).
  split.
  - rewrite <- Hl1, <- Hl2. rewrite <- app_assoc. f_equiv. apply Permutation_app_comm.
  - by rewrite Hp2, Hp1, app_assoc.
  - intros t. rewrite He2, He1. unfold range_tasks. rewrite fmap_app, count_app.
    assert (range_tasks v1 comp2 = range_tasks v comp2) as Ht.
    { apply range_tasks_ext. intros o Ho. assert (o ∈ live lists1 v1) as Hol.
      { rewrite <- Hl2. apply elem_of_app. by right. }
      destruct (Hp o) as (r&Hr&_); [by apply Hin; left|].
      destruct (Hr1 o r) as (nv&rem&->&_); [by apply Hin; left|done|]. by rewrite Hr. }
    unfold range_tasks in Ht. rewrite Ht. lia.
  - intros o Hn. rewrite Ho2, Ho1; [done|done|]. intros Hi. by apply Hn, Hin; left.
  - intros o r Ho Hr. destruct (Hr1 o r Ho Hr) as (nv&rem&Hv1&Hrem&Hc).
    apply Hin in Ho as [Ho|Ho].
    + destruct (Hr2 o _ Ho Hv1) as (nv'&rem'&Hv2&Hrem'&Hc'). exists nv', rem'.
      split; [by rewrite Hv2|]. simpl in Hrem'. split; [lia|].
      assert (o ∉ comp1) by (intros ?; by eapply Hdis').
      rewrite elem_of_app. naive_solver.
    + exists nv, rem. split; [by rewrite Ho2 by by apply Hdis'|]. split; [done|].
      rewrite elem_of_app. split; [|tauto]. intros _. by apply Hc.
  - destruct Hc1 as (C1&HC1), Hc2 as (C2&HC2). exists (C1 ++ C2).
    assert (∀ o, o ∈ live lists1 v1 → o ∈ live lists v) as Hsub by (intros o ?; apply Hin; by left).
    eapply (counted_trans _ (live lists v) (live lists1 v1)); [done..|by intros ? ?| |].
    + intros o _ Hn. by apply Ho2.
    + intros o r1 Ho Hv1. destruct (Hp o (Hsub o Ho)) as (r&Hr&_).
      destruct (Hr1 o r (Hsub o Ho) Hr) as (nv&rem&Hv&_). rewrite Hv in Hv1. simplify_eq.
      by exists r.
  - destruct Hf1 as (?&?&?&?), Hf2 as (?&?&?&?). split_and!; congruence.
Qed.

(** Completed ranges are back in the pool, the others are still live. *)
Lemma polled_ok lists lists' comp v v' :
  live_ok lists v → polled lists lists' comp v v' → pool_wf v' → live_ok lists' v'.
Proof.
  intros [Hw Hnd Hent Hp] [Hl Hpool _ _ Hr _ _] Hw'.
  assert (∀ o, o ∈ live lists' v' → o ∈ live lists v ∧ o ∉ comp) as Hin.
  { intros o Ho. assert (NoDup (live lists' v' ++ comp)) as Hnd'.
    { rewrite Hl. by apply NoDup_app in Hnd as (_&_&?). }
    split; [rewrite <- Hl; apply elem_of_app; by left|].
    apply NoDup_app in Hnd' as (_&Hd&_). by apply Hd. }
  split; [done| | |].
  - rewrite Hpool. rewrite <- Hl in Hnd. revert Hnd. apply NoDup_Permutation_proper.
    rewrite <- app_assoc. f_equiv. apply Permutation_app_comm.
  - intros o Ho. by apply Hent, Hin.
  - intros o Ho. apply Hin in Ho as [Ho Hc]. destruct (Hp o Ho) as (r&Hor&[]).
    destruct (Hr o r Ho Hor) as (nv&rem&Hv'&Hrem&Hcr). eexists. split; [exact Hv'|].
    split; simpl; [done| |done]. assert (rem ≠ 0) by naive_solver. lia.
Qed.

(** ** Completing ranges *)

Lemma wp_complete_range lib o r v :
  lib_ok lib → pool_wf v → 0 ≤ o < NumEntries → o ∉ v_pool v →
  v_objs v !! o = Some r → _remaining r = 0 →
  wp (complete_range lib o tt) v (post (λ f, f = alpi_fault) (λ _ v', pool_wf v' ∧
    v' = set_pool (v_pool v ++ [o]) (v_pool_capacity v)
           (set_events (<[_task r := events v (_task r) - 1]> (v_events v)) v))).
Proof.
  intros [] Hw Ho Hn Hr Hrem. unfold complete_range. eapply wp_bind_post.
  - unfold complete. apply (wp_load _ r); [done|]. by apply wp_decrease.
  - intros _ v1 ->. eapply wp_post_mono;
      [apply (wp_free _ _ r); try done; by destruct Hw|done|]. by intros _ v2 [? ->].
Qed.

Lemma wp_complete_ranges lib comp v :
  lib_ok lib → pool_wf v → NoDup (v_pool v ++ comp) →
  (∀ o, o ∈ comp → 0 ≤ o < NumEntries ∧ ∃ r, v_objs v !! o = Some r ∧ _remaining r = 0) →
  wp (for_each comp (complete_range lib) tt) v (post (λ f, f = alpi_fault) (λ _ v',
    pool_wf v' ∧ v_pool v' = v_pool v ++ comp ∧
    (∀ t, events v' t = events v t - count t (range_tasks v comp)) ∧
    v' = set_pool (v_pool v') (v_pool_capacity v) (set_events (v_events v') v))).
Proof.
  intros Hl Hw Hnd Hc. apply (wp_for_each _ (λ comp _ v', pool_wf v' ∧
    v_pool v' = v_pool v ++ comp ∧
    (∀ t, events v' t = events v t - count t (range_tasks v comp)) ∧
    v' = set_pool (v_pool v') (v_pool_capacity v) (set_events (v_events v') v))).
  - split; [done|]. rewrite app_nil_r. split; [done|]. split; [|by destruct v].
    intros t. count_lia.
  - intros l1 o l2 [] v1 -> (Hw1&Hp1&He1&Hf1). destruct (Hc o) as (Ho&r&Hr&Hrem).
    { apply elem_of_app. right. left. }
    assert (v_objs v1 = v_objs v) as Hobj by (by rewrite Hf1).
    eapply wp_post_mono; [apply (wp_complete_range _ o r); try done|done|].
    + rewrite Hp1. rewrite app_assoc in Hnd. apply NoDup_app in Hnd as (_&Hd&_).
      intros Hin. apply (Hd o Hin). left.
    + by rewrite Hobj.
    + intros _ v2 [Hw2 ->]. cbn [v_pool set_pool set_events]. split; [done|].
      split; [by rewrite Hp1, <- app_assoc|]. split; [|by rewrite Hf1].
      intros t. unfold range_tasks. rewrite fmap_app, count_app. cbn [fmap list_fmap].
      rewrite Hr. cbn. rewrite count_cons, count_nil.
      etrans; [exact (events_set v1 v1 (_task r) _ t)|]. rewrite !He1. unfold range_tasks.
      repeat case_decide; subst; lia || done.
Qed.

(** ** One segment *)

Lemma spsc_split v s :
  (v_spsc v).*2 ≡ₚ (filter (λ e, e.1 ≠ s) (v_spsc v)).*2 ++ spsc_contents v s.
Proof.
  unfold spsc_contents. rewrite <- fmap_app. f_equiv.
  rewrite Permutation_app_comm. symmetry. apply filter_app_complement.
Qed.

(** The live ranges of a segment and the others. *)
Lemma live_split lists v s l :
  lists !! s = Some l →
  let v1 := set_spsc (filter (λ e, e.1 ≠ Z.of_nat s) (v_spsc v)) (v_spsc_capacity v) v in
  ∃ rest, live lists v ≡ₚ (l ++ spsc_contents v (Z.of_nat s)) ++ rest ∧
    ∀ k v', v_spsc v' = v_spsc v1 → live (<[s := k]> lists) v' ≡ₚ k ++ rest.
Proof.
  intros Hs v1. exists (concat (<[s := []]> lists) ++ (v_spsc v1).*2). split.
  - unfold live. rewrite (spsc_split v (Z.of_nat s)). fold v1.
    pose proof (concat_insert lists s l [] Hs) as Hc. rewrite app_nil_r in Hc.
    rewrite <- Hc. cbn [v_spsc set_spsc v1]. solve_Permutation.
  - intros k v' Hv'. unfold live. rewrite Hv'.
    pose proof (concat_insert (<[s := []]> lists) s [] k) as Hc.
    rewrite list_insert_insert_eq, app_nil_r in Hc. rewrite Hc.
    + solve_Permutation.
    + apply list_lookup_insert_eq. by eapply lookup_lt_Some.
Qed.

(** No notification of the ranges in [l] has arrived. *)
Definition quiet (l : list Z) (v : view) : Prop :=
  ∀ o r i, o ∈ l → v_objs v !! o = Some r → _firstId r ≤ i < _firstId r + _numIds r →
    notif v (_segment r) i = 0.

(** What a scan of the ranges [l] of one segment and the completion of [comp] amount to, [rest]
    being the other live ranges. *)
Lemma scanned_polled lists lists' l rest kept comp v v1 v2 v3 :
  live_ok lists v → live lists v ≡ₚ l ++ rest → live lists' v3 ≡ₚ kept ++ rest →
  v_objs v1 = v_objs v → v_notif v1 = v_notif v → v_events v1 = v_events v →
  scanned l kept comp v1 v2 →
  v3 = set_pool (v_pool v ++ comp) (v_pool_capacity v) (set_events (v_events v3) v2) →
  (∀ t, events v3 t = events v2 t - count t (range_tasks v2 comp)) →
  v_outstanding v1 = v_outstanding v ∧ v_held v1 = v_held v ∧ v_insts v1 = v_insts v ∧
    v_spsc_capacity v1 = v_spsc_capacity v →
  polled lists lists' comp v v3.
Proof.
  intros [Hw Hnd Hent Hp] Hl Hl' Ho1 Hn1 He1 [Hperm _ Hfr Hoth Hrg _ (C&HC)] Hv3 He3 Hf.
  assert (v_objs v3 = v_objs v2) as Ho3 by (by rewrite Hv3).
  apply NoDup_app in Hnd as (_&_&Hnd). rewrite Hl in Hnd. apply NoDup_app in Hnd as (_&Hdis&_).
  assert (∀ o, o ∈ live lists v ↔ o ∈ l ∨ o ∈ rest) as Hin.
  { intros o. by rewrite Hl, elem_of_app. }
  assert (∀ o, o ∈ comp → o ∈ l) as Hcl.
  { intros o ?. rewrite <- Hperm. apply elem_of_app. by right. }
  rewrite Ho1 in Hrg, Hoth.
  split.
  - rewrite Hl', Hl, <- Hperm. solve_Permutation.
  - by rewrite Hv3.
  - intros t. rewrite He3.
    assert (events v2 t = events v t) as -> by (unfold events; rewrite Hfr; cbn; by rewrite He1).
    f_equal. f_equal. apply range_tasks_ext. intros o Ho.
    destruct (Hp o) as (r&Hr&_); [apply Hin; left; by apply Hcl|].
    destruct (Hrg o r) as (nv&rem&->&_); [by apply Hcl|done|]. by rewrite Hr.
  - intros o Hn. rewrite Ho3. apply Hoth. intros ?. by apply Hn, Hin; left.
  - intros o r [Ho|Ho]%Hin Hr; rewrite Ho3; [by apply Hrg|].
    assert (o ∉ l) by (intros ?; by eapply Hdis). rewrite Hoth by done.
    exists (_notifiedValue r), (_remaining r). rewrite set_same.
    destruct (Hp o) as (r'&Hr'&[]); [by apply Hin; right|]. simplify_eq.
    split; [done|]. split; [lia|]. split; [intros Hc; by apply Hcl in Hc|lia].
  - exists C. eapply counted_mono; [exact HC| |done..|exact Ho3|by rewrite Hv3|].
    + intros o ?. apply Hin. by left.
    + intros o _ Hn. rewrite <- Ho1 in Hoth. by apply Hoth.
  - rewrite Hv3, Hfr. done.
Qed.

(** What the scan of a list found complete can be given back to the allocator. *)
Lemma scanned_complete lists L rest kept comp v v1 v2 :
  live_ok lists v → live lists v ≡ₚ L ++ rest →
  v_objs v1 = v_objs v → v_pool v1 = v_pool v → v_pool_capacity v1 = v_pool_capacity v →
  scanned L kept comp v1 v2 →
  pool_wf v2 ∧ NoDup (v_pool v2 ++ comp) ∧
  ∀ o, o ∈ comp → 0 ≤ o < NumEntries ∧ ∃ r, v_objs v2 !! o = Some r ∧ _remaining r = 0.
Proof.
  intros [Hw Hnd Hent Hp] Hlive Ho1 Hp1 Hc1 [Hperm _ Hfr Hoth Hrg _ _].
  rewrite Ho1 in Hoth, Hrg.
  assert (∀ o, o ∈ L → o ∈ live lists v) as HL.
  { intros o Ho. rewrite Hlive. apply elem_of_app. by left. }
  assert (∀ o, o ∈ comp → o ∈ L) as Hcl.
  { intros o ?. rewrite <- Hperm. apply elem_of_app. by right. }
  assert (v_pool v2 = v_pool v ∧ v_pool_capacity v2 = v_pool_capacity v) as [E1 E2].
  { by rewrite Hfr. }
  split; [|split].
  - destruct Hw as [Hc Hn Hf Ho]. split; rewrite ?E1, ?E2; try done. intros p Hpp.
    destruct (decide (p ∈ L)) as [Hin|Hin].
    + destruct (Hp p (HL p Hin)) as (r&Hr&_).
      destruct (Hrg p r Hin Hr) as (nv&rem&->&_). by eexists.
    + rewrite Hoth by done. by apply Ho.
  - rewrite E1. apply NoDup_app in Hnd as (Hndp&Hdisp&Hndl).
    apply NoDup_app. split; [done|]. split.
    + intros o Ho Hoc. by apply (Hdisp o Ho), HL, Hcl.
    + rewrite Hlive, <- Hperm in Hndl. apply NoDup_app in Hndl as (Hndl&_&_).
      by apply NoDup_app in Hndl as (_&_&?).
  - intros o Ho. split; [by apply Hent, HL, Hcl|].
    destruct (Hp o (HL o (Hcl o Ho))) as (r&Hr&_).
    destruct (Hrg o r (Hcl o Ho) Hr) as (nv&rem&Hv&_&Hz). eexists. split; [exact Hv|].
    simpl. by apply Hz.
Qed.

(** The ranges that are kept stay quiet when the events and the pool change. *)
Lemma scanned_quiet L kept comp v1 v2 v3 :
  pending v1 L → scanned L kept comp v1 v2 → v_objs v3 = v_objs v2 → v_notif v3 = v_notif v2 →
  quiet kept v3.
Proof.
  intros Hp [Hperm _ _ _ Hrg Hq _] Ho3 Hn3 o r i Ho Hr Hi. unfold notif. rewrite Hn3.
  rewrite Ho3 in Hr. assert (o ∈ L) as HoL by (rewrite <- Hperm; apply elem_of_app; by left).
  destruct (Hp o HoL) as (r0&Hr0&_).
  destruct (Hrg o r0 HoL Hr0) as (nv&rem&Hv&_). rewrite Hv in Hr. simplify_eq. simpl in *.
  by apply (Hq o r0 Ho Hr0).
Qed.

(** The end of the loop's body, when there are complete ranges. *)
Lemma wp_complete_all lib (lists : list (list Z)) comp v :
  lib_ok lib → pool_wf v → NoDup (v_pool v ++ comp) →
  (∀ o, o ∈ comp → 0 ≤ o < NumEntries ∧ ∃ r, v_objs v !! o = Some r ∧ _remaining r = 0) →
  wp (if bool_decide (comp = []) then Ret lists
      else for_each comp (complete_range lib) tt;; Ret lists) v
    (post (λ f, f = alpi_fault) (λ ls v', ls = lists ∧ pool_wf v' ∧
      v_pool v' = v_pool v ++ comp ∧
      (∀ t, events v' t = events v t - count t (range_tasks v comp)) ∧
      v' = set_pool (v_pool v') (v_pool_capacity v) (set_events (v_events v') v))).
Proof.
  intros Hlib Hw Hnd Hc. case_bool_decide as Hn.
  - subst comp. split; [done|]. split; [done|]. rewrite app_nil_r. split; [done|].
    split; [|by destruct v]. intros t. count_lia.
  - eapply wp_bind_post; [by apply wp_complete_ranges|]. intros [] v3 H3. by split.
Qed.

Lemma wp_poll_segment lib lists s v :
  lib_ok lib → live_ok lists v → (s < length lists)%nat →
  wp (poll_segment lib (Z.of_nat s) lists) v (post (λ f, f = Aborted ∨ f = alpi_fault)
    (λ lists' v', ∃ kept comp, lists' = <[s := kept]> lists ∧
       polled lists lists' comp v v' ∧ pool_wf v' ∧ quiet kept v' ∧
       v_spsc v' = filter (λ e, e.1 ≠ Z.of_nat s) (v_spsc v))).
Proof.
  intros Hlib Hok Hs. destruct (lookup_lt_is_Some_2 lists s Hs) as [l Hl].
  destruct (live_split lists v s l Hl) as (rest&Hlive&Hlive').
  unfold poll_segment.
  assert (vec_get lists (Z.of_nat s) = Ret l) as ->.
  { apply vec_get_Some; [lia|]. by rewrite Nat2Z.id. }
  rewrite mbind_Ret. eapply wp_bind_returns; [apply wp_dequeueAll|]. intros l' v1 [-> ->].
  set (L := l ++ spsc_contents v (Z.of_nat s)) in *. set (v1 := set_spsc _ _ v) in *.
  assert (pending v1 L) as HpL.
  { intros o Ho. apply (lk_pending _ _ Hok). rewrite Hlive. apply elem_of_app. by left. }
  assert (NoDup L) as HndL.
  { pose proof (lk_NoDup _ _ Hok) as (_&_&Hnd)%NoDup_app. rewrite Hlive in Hnd.
    by apply NoDup_app in Hnd as (?&_&_). }
  eapply wp_bind_post.
  { by eapply wp_post_mono; [apply wp_list_checkNotifications|by left|done]. }
  intros r v2 (kept&comp&->&HS). simpl app. cbn [fst snd].
  rewrite vec_set_ok, Nat2Z.id by lia. rewrite mbind_Ret. pose proof HS as [_ _ Hfr _ _ _ _].
  destruct (scanned_complete lists L rest kept comp v v1 v2) as (Hw2&Hnd2&Hc2); try done.
  eapply wp_post_mono; [by apply wp_complete_all|intros f Hf; right; exact Hf|].
  intros ls v3 (->&Hw3&Hp3&He3&Hf3). exists kept, comp. split; [done|].
  assert (v_pool v2 = v_pool v ∧ v_pool_capacity v2 = v_pool_capacity v) as [E1 E2].
  { by rewrite Hfr. }
  split; [|split; [done|split]].
  - eapply (scanned_polled lists _ L rest kept comp v v1 v2 v3); try done.
    + apply Hlive'. rewrite Hf3, Hfr. done.
    + rewrite Hf3 at 1. rewrite Hp3, E1, E2. done.
  - by eapply scanned_quiet; [exact HpL|exact HS|rewrite Hf3..].
  - rewrite Hf3, Hfr. done.
Qed.

(** ** All segments *)

Lemma quiet_polled lists lists' comp l v v' :
  live_ok lists v → polled lists lists' comp v v' → (∀ o, o ∈ l → o ∈ live lists v) →
  quiet l v → quiet l v'.
Proof.
  intros [_ _ _ Hp] [_ _ _ _ Hrg (C&[[_ _ Haf] _ _]) _] Hl Hq o r i Ho Hr Hi.
  destruct (Hp o (Hl o Ho)) as (r0&Hr0&_).
  destruct (Hrg o r0 (Hl o Ho) Hr0) as (nv&rem&Hv&_). rewrite Hv in Hr. simplify_eq.
  simpl in *. rewrite Haf. case_decide; [done|]. by apply (Hq o r0).
Qed.

(** From segment [s] on. *)
Record polled_from (s : nat) (lists lists' : list (list Z)) (v v' : view) : Prop := {
  pf_polled : ∃ comp, polled lists lists' comp v v';
  pf_ok : live_ok lists' v';
  pf_length : length lists' = length lists;
  pf_before s' : (s' < s)%nat → lists' !! s' = lists !! s';
  pf_quiet s' l : (s ≤ s')%nat → lists' !! s' = Some l → quiet l v';
  pf_spsc e : e ∈ v_spsc v' → e ∈ v_spsc v ∧ ¬ (Z.of_nat s ≤ e.1 < Z.of_nat (length lists));
}.

Lemma polled_from_end lists v : live_ok lists v → polled_from (length lists) lists lists v v.
Proof.
  intros Hok. split; [exists []; by apply polled_nil|done|done|done| |].
  - intros s' l Hs Hl%lookup_lt_Some. lia.
  - intros e He. split; [done|lia].
Qed.

Lemma polled_from_step s lists lists' kept comp v v1 v' :
  live_ok lists v → (s < length lists)%nat →
  polled lists (<[s := kept]> lists) comp v v1 → live_ok (<[s := kept]> lists) v1 →
  quiet kept v1 → v_spsc v1 = filter (λ e, e.1 ≠ Z.of_nat s) (v_spsc v) →
  polled_from (S s) (<[s := kept]> lists) lists' v1 v' →
  polled_from s lists lists' v v'.
Proof.
  intros Hok Hs Hp1 Hok1 Hq Hsp [[comp' Hp2] Hok2 Hlen Hbef Hqt Hspsc].
  rewrite length_insert in *. split; [|done|done| | |].
  - exists (comp ++ comp'). by eapply polled_trans.
  - intros s' Hs'. rewrite Hbef by lia. by rewrite list_lookup_insert_ne by lia.
  - intros s' l Hle Hl. destruct (decide (s' = s)) as [->|Hne].
    + rewrite Hbef, list_lookup_insert_eq in Hl by lia. injection Hl as <-.
      eapply quiet_polled; [exact Hok1|exact Hp2| |done]. intros o Ho.
      apply elem_of_app. left. apply list_elem_of_In, in_concat. exists kept.
      rewrite <- !list_elem_of_In. split; [|done].
      by eapply list_elem_of_lookup_2, list_lookup_insert_eq.
    + apply (Hqt s'); [lia|done].
  - intros e [He Hn]%Hspsc. rewrite Hsp in He. apply list_elem_of_filter in He as [Hes He].
    split; [done|lia].
Qed.

Lemma wp_poll_segments fuel lib s lists v :
  lib_ok lib → live_ok lists v → Z.of_nat (length lists) = maxSegments (l_env lib) →
  maxSegments (l_env lib) < 2 ^ segment_id_bits → (s ≤ length lists)%nat →
  (length lists - s < fuel)%nat →
  wp (poll_segments fuel lib (Z.of_nat s) lists) v
    (post (λ f, f = Aborted ∨ f = alpi_fault) (λ lists' v', polled_from s lists lists' v v')).
Proof.
  intros Hlib Hok Hlen Hmax Hs. revert s lists v Hok Hlen Hs.
  induction fuel as [|fuel IH]; intros s lists v Hok Hlen Hs Hfuel; [lia|].
  cbn [poll_segments]. rewrite <- Hlen.
  destruct (Z.ltb_spec (Z.of_nat s) (Z.of_nat (length lists))) as [Hlt|Hge].
  - eapply wp_bind_post; [by apply wp_poll_segment; [| |lia]|].
    intros lists1 v1 (kept&comp&->&Hp&Hw&Hq&Hsp).
    pose proof (polled_ok _ _ _ _ _ Hok Hp Hw) as Hok1.
    assert (segment_id (Z.of_nat s + 1) = Z.of_nat (S s)) as ->.
    { unfold segment_id. rewrite wrap_small; lia. }
    eapply wp_post_mono; [apply IH; rewrite ?length_insert; try done; lia|done|].
    intros lists' v' H'. by apply (polled_from_step s lists lists' kept comp v v1 v'); [|lia|..].
  - replace s with (length lists) by lia. by apply polled_from_end.
Qed.

Lemma wp_pollNotifications fuel lib lists v :
  lib_ok lib → live_ok lists v → Z.of_nat (length lists) = maxSegments (l_env lib) →
  maxSegments (l_env lib) < 2 ^ segment_id_bits → (length lists < fuel)%nat →
  (∀ e, e ∈ v_spsc v → 0 ≤ e.1 < maxSegments (l_env lib)) →
  wp (pollNotifications fuel lib lists) v
    (post (λ f, f = Aborted ∨ f = alpi_fault) (λ x v',
      x.1 = _period (l_polling lib) ∧ length (x.2) = length lists ∧ v_spsc v' = [] ∧
      live_ok (x.2) v' ∧ quiet (concat (x.2)) v' ∧ ∃ comp, polled lists (x.2) comp v v')).
Proof.
  intros Hlib Hok Hlen Hmax Hfuel Hsp. unfold pollNotifications. eapply wp_bind_post.
  - apply (wp_poll_segments fuel lib 0); (done || lia).
  - intros lists' v' [Hp Hok' Hl' _ Hq Hs]. split; [done|]. split; [done|].
    split; [|split; [done|split; [|done]]].
    + destruct (v_spsc v') as [|e q] eqn:He; [done|].
      destruct (Hs e) as [Hin Hn]; [left|]. apply Hsp in Hin. lia.
    + intros o r i Ho. cbn [snd] in Ho. apply list_elem_of_In, in_concat in Ho as (l&Hl&Ho).
      apply list_elem_of_In in Hl, Ho. apply list_elem_of_lookup in Hl as [s' Hs'].
      by apply (Hq s' l ltac:(lia) Hs').
Qed.

(** Object [o] waits for notifications [i] of segment [s]. *)
Definition claims (v : view) (o s i : Z) : Prop :=
  ∃ r, v_objs v !! o = Some r ∧ s = _segment r ∧ _firstId r ≤ i < _firstId r + _numIds r.

(** A range all of whose notifications are there, and which need not share them, is complete
    after a pass: if it were kept, more notifications would have been counted for it than it
    was waiting for. *)
Lemma polled_complete lists lists' comp v v' o r :
  live_ok lists v → polled lists lists' comp v v' → quiet (live lists' v') v' →
  o ∈ live lists v → v_objs v !! o = Some r →
  (∀ i, _firstId r ≤ i < _firstId r + _numIds r → notif v (_segment r) i ≠ 0) →
  (∀ o' i, o' ∈ live lists v → claims v o' (_segment r) i →
     _firstId r ≤ i < _firstId r + _numIds r → o' = o) →
  o ∈ comp.
Proof.
  intros [_ _ _ Hp] [Hl _ _ _ Hrg (C&[[_ _ Haf] HC Hct]) _] Hq Ho Hr Harr Halone.
  destruct (decide (o ∈ comp)) as [|Hn]; [done|exfalso].
  assert (o ∈ live lists' v') as Ho'.
  { rewrite <- Hl in Ho. by apply elem_of_app in Ho as [|]. }
  destruct (Hrg o r Ho Hr) as (nv&rem&Hv&Hrem&Hz).
  assert (0 < rem) by (assert (rem ≠ 0) by naive_solver; lia).
  specialize (Hct o Ho). unfold remaining in Hct. rewrite Hr, Hv in Hct. cbn in Hct.
  destruct (Hp o Ho) as (r'&Hr'&[Hf [_ Hnum] _]). rewrite Hr in Hr'. injection Hr' as <-.
  set (ids := (_segment r,.) <$> seqZ (_firstId r) (_numIds r)).
  assert (∀ x, x ∈ ids → (o, x) ∈ C) as Hids.
  { intros x (i&->&Hi)%list_elem_of_fmap. apply elem_of_seqZ in Hi.
    specialize (Hq o _ i Ho' Hv Hi). cbn in Hq. rewrite Haf in Hq.
    case_decide as Hin; [|by apply Harr in Hi].
    apply list_elem_of_fmap in Hin as ([o1 x]&Hx&Hin). cbn in Hx. subst x.
    destruct (HC _ _ _ Hin) as [Hl1 Hcl]. by rewrite (Halone o1 i Hl1 Hcl Hi) in Hin. }
  assert (Z.of_nat (length ids) ≤ count o C.*1); [|subst ids; rewrite length_fmap, length_seqZ in *; lia].
  apply count_at_least; [|done]. apply NoDup_pair, NoDup_seqZ.
Qed.

(** C8. One call of [pollNotifications] returns the period after a bounded number of steps. It
    empties the queues; every notification it consumes is counted for one range that has it
    among its identifiers, and only those are; the ranges
    that wait for nothing any more are completed, each exactly once, which takes one event from
    its task and puts its object back in the pool; no notification of the ranges that go on
    waiting is left. It aborts when GASPI fails. *)
Theorem pollNotifications_spec {W} `{!Runtime W} `{!RuntimeSpec W} (w : W) fuel lib lists :
  let v := view_of w in
  lib_ok lib → live_ok lists v → Z.of_nat (length lists) = maxSegments (l_env lib) →
  maxSegments (l_env lib) < 2 ^ segment_id_bits → (length lists < fuel)%nat →
  (∀ e, e ∈ v_spsc v → 0 ≤ e.1 < maxSegments (l_env lib)) →
  ∃ r w', run (pollNotifications fuel lib lists) w = (r, w') ∧
    post (λ f, f = Aborted ∨ f = alpi_fault) (λ x v',
      x.1 = _period (l_polling lib) ∧ length (x.2) = length lists ∧ v_spsc v' = [] ∧
      live_ok (x.2) v' ∧ quiet (concat (x.2)) v' ∧ ∃ comp, polled lists (x.2) comp v v')
      r (view_of w').
Proof. cbv zeta. intros. by apply wp_run, wp_pollNotifications. Qed.

(** C9. A wait ends: when a notification is there for every identifier of a range, and no other
    waiting range has one of these identifiers, the call of [pollNotifications] completes the
    range. It consumes the notifications, gives the object back to the allocator, and the
    task has at least one event less. *)
Theorem pollNotifications_completes {W} `{!Runtime W} `{!RuntimeSpec W} (w : W) fuel lib lists o r :
  let v := view_of w in
  lib_ok lib → live_ok lists v → Z.of_nat (length lists) = maxSegments (l_env lib) →
  maxSegments (l_env lib) < 2 ^ segment_id_bits → (length lists < fuel)%nat →
  (∀ e, e ∈ v_spsc v → 0 ≤ e.1 < maxSegments (l_env lib)) →
  o ∈ live lists v → v_objs v !! o = Some r →
  (∀ i, _firstId r ≤ i < _firstId r + _numIds r → notif v (_segment r) i ≠ 0) →
  (∀ o' i, o' ∈ live lists v → claims v o' (_segment r) i →
     _firstId r ≤ i < _firstId r + _numIds r → o' = o) →
  ∃ res w', run (pollNotifications fuel lib lists) w = (res, w') ∧
    post (λ f, f = Aborted ∨ f = alpi_fault) (λ x v',
      o ∉ live (x.2) v' ∧ o ∈ v_pool v' ∧ events v' (_task r) < events v (_task r)) res (view_of w').
Proof.
  cbv zeta. intros Hlib Hok Hlen Hmax Hfuel Hsp Ho Hr Harr Halone.
  apply (wp_run (pollNotifications fuel lib lists)).
  eapply wp_post_mono; [by apply wp_pollNotifications|done|].
  intros [p lists'] v' (_&_&Hs&Hok'&Hq&comp&Hpd). cbn [fst snd] in *.
  assert (o ∈ comp) as Hc.
  { refine (polled_complete _ _ _ _ _ o r Hok Hpd _ Ho Hr Harr Halone).
    unfold live. rewrite Hs. cbn. by rewrite app_nil_r. }
  pose proof Hpd as [_ Hpl He _ _ _ _]. assert (o ∈ v_pool v') as Hin.
  { rewrite Hpl. apply elem_of_app. by right. }
  split; [|split; [done|]].
  - destruct Hok' as [_ (_&Hd&_)%NoDup_app _ _]. by apply Hd.
  - rewrite He. assert (0 < count (_task r) (range_tasks (view_of w) comp)); [|lia].
    apply count_pos. apply list_elem_of_fmap. exists o. by rewrite Hr.
Qed.
End poll_notifications_specs.

(** ** Examples *)

Section poll_notifications_examples.
#[local] Existing Instance sim_types.
#[local] Existing Instance release_build.

(** Ranges 1 and 2 are in the list of segment 0 and range 3 in its queue; task 77 has three
    events. *)
Definition sim_objs (objs : gmap Z WaitingRange) : gmap Z WaitingRange :=
  <[1 := WaitingRange_ctor 0 0 2 3 None 2 77]>
    (<[2 := WaitingRange_ctor 0 0 5 1 None 1 77]>
      (<[3 := WaitingRange_ctor 0 0 7 1 None 1 77]> objs)).

Definition sim_poll_on (objs : gmap Z WaitingRange) : Sim :=
  on_view (λ v, View (v_host v) {[ 77 := 3 ]} [] {[ (0, 3) := 30; (0, 5) := 50 ]} [(0, 3)] 100
    [4] NumEntries (sim_objs objs) [] ∅ ∅ []) sim0.

Definition sim_poll : Sim := sim_poll_on (fresh_upto NumEntries).

Example sim_poll_completes :
  let r := run (pollNotifications 3 sim_lib [[1; 2]; []]) (sim_poll_on ∅) in
  r.1 = inl (250, [[1; 3]; []]) ∧ v_pool (sim_view (r.2)) = [4; 2] ∧
  v_events (sim_view (r.2)) = {[ 77 := 2 ]}.
Proof. by vm_compute. Qed.

Lemma live_ok_intro v objs :
  (∀ o, o ∈ [1; 2; 3] → ∃ r, objs !! o = Some r ∧ range_ok r) →
  (∀ o, 0 ≤ o < NumEntries → is_Some (objs !! o)) →
  v_pool v = [4] → v_pool_capacity v = NumEntries → v_objs v = objs → v_spsc v = [(0, 3)] →
  live_ok [[1; 2]; []] v.
Proof.
  intros Hr Ho Hp Hc Hobj Hs. unfold live.
  assert (NoDup [4; 1; 2; 3]) as Hnd.
  { apply (bool_decide_unpack (NoDup [4; 1; 2; 3])). by vm_compute. }
  split; [split| | |]; unfold live; rewrite ?Hp, ?Hs; cbn.
  - done.
  - apply NoDup_singleton.
  - intros p ->%list_elem_of_singleton. rewrite NumEntries_eq. lia.
  - by rewrite Hobj.
  - done.
  - intros o Hin. rewrite NumEntries_eq. decompose_list_elem_of; lia.
  - intros o Hin. rewrite Hobj. by apply Hr.
Qed.

Lemma sim_poll_ok : live_ok [[1; 2]; []] (view_of sim_poll).
Proof.
  apply (live_ok_intro (view_of sim_poll) (sim_objs (fresh_upto NumEntries)));
    [| |reflexivity..]; unfold sim_objs.
  - intros o Hin. decompose_list_elem_of; subst o; eexists.
    + split; [apply lookup_insert_eq|]. split; simpl; lia.
    + split; [rewrite lookup_insert_ne by lia; apply lookup_insert_eq|]. split; simpl; lia.
    + split; [rewrite !lookup_insert_ne by lia; apply lookup_insert_eq|]. split; simpl; lia.
  - intros o Ho. do 3 (apply lookup_insert_is_Some'; right). by apply fresh_upto_spec.
Qed.

Lemma pollNotifications_spec_witness :
  ∃ r w', run (pollNotifications 3 sim_lib [[1; 2]; []]) sim_poll = (r, w') ∧
    post (λ f, f = Aborted ∨ f = alpi_fault) (λ x v', x.1 = 250 ∧ v_spsc v' = []) r (view_of w').
Proof.
  destruct (pollNotifications_spec sim_poll 3 sim_lib [[1; 2]; []] sim_lib_ok sim_poll_ok
    eq_refl ltac:(simpl; lia) ltac:(simpl; lia)) as (r&w'&Hr&HQ).
  - intros e ->%list_elem_of_singleton. simpl. lia.
  - exists r, w'. split; [exact Hr|]. destruct r as [x|f]; [|exact HQ].
    destruct HQ as (Hx&_&Hs&_). by split.
Defined.

Lemma sim_poll_claims o i :
  o ∈ live [[1; 2]; []] (view_of sim_poll) → claims (view_of sim_poll) o 0 i → 5 ≤ i < 6 → o = 2.
Proof.
  assert (∀ k r, v_objs (view_of sim_poll) !! k = Some r →
    _firstId r ≤ i < _firstId r + _numIds r → 5 ≤ i < 6 → k ∈ [1; 2; 3] → k = 2) as H.
  { intros k r Hr Hi Hi5 Hk. assert (v_objs (view_of sim_poll) = sim_objs (fresh_upto NumEntries))
      as Ho by reflexivity. rewrite Ho in Hr. unfold sim_objs in Hr.
    decompose_list_elem_of; subst k; [|done|].
    - rewrite lookup_insert_eq in Hr. injection Hr as <-. simpl in Hi. lia.
    - rewrite !lookup_insert_ne, lookup_insert_eq in Hr by lia. injection Hr as <-. simpl in Hi. lia. }
  intros Ho (r&Hr&_&Hi) Hi5. by eapply H.
Qed.

Lemma pollNotifications_completes_witness :
  ∃ res w', run (pollNotifications 3 sim_lib [[1; 2]; []]) sim_poll = (res, w') ∧
    post (λ f, f = Aborted ∨ f = alpi_fault) (λ x v',
      2 ∉ live (x.2) v' ∧ 2 ∈ v_pool v' ∧ events v' 77 < 3) res (view_of w').
Proof.
  refine (pollNotifications_completes sim_poll 3 sim_lib [[1; 2]; []] 2
    (WaitingRange_ctor 0 0 5 1 None 1 77) sim_lib_ok sim_poll_ok eq_refl ltac:(simpl; lia)
    ltac:(simpl; lia) _ _ _ _ _).
  - intros e ->%list_elem_of_singleton. simpl. lia.
  - right. left.
  - change (sim_objs (fresh_upto NumEntries) !! 2 = Some (WaitingRange_ctor 0 0 5 1 None 1 77)).
    unfold sim_objs. rewrite lookup_insert_ne by lia. apply lookup_insert_eq.
  - intros i Hi. simpl in Hi. assert (i = 5) as -> by lia. done.
  - exact sim_poll_claims.
Defined.
End poll_notifications_examples.
