(* ===== verification/QueueGroups.v ===== *)
(** c/QueueGroups.cpp: the table of queue groups behind the API. *)

From S2P Require Import Prelude Types Interface Contract Sim Hoare HardwareInfo QueueGroup Environment Operations.
Open Scope Z_scope.

Section queue_groups.
Context `{BC : BuildConfig} `{GT : GaspiTypes}.

(** [_env.queueGroups[id]]. *)
Definition get_group (lib : Library) (id : Z) : prog (option QueueGroup) :=
  match queueGroups (l_env lib) with
  | Some groups => vec_get groups id
  | None => Fault (UndefinedBehaviour "null queue groups")
  end.

(** [_env.queueGroups[id] = group; _env.numQueueGroups = num]. *)
Definition set_group (lib : Library) (id : Z) (group : option QueueGroup) (num : Z) :
    prog Library :=
  match queueGroups (l_env lib) with
  | Some groups =>
      groups ← vec_set groups id group;
      let e := l_env lib in
      Ret (set_env (mkEnvironment (enabled e) (maxQueues e) (maxSegments e) (maxQueueGroups e)
        num (numRequests e) (waitingRangeQueues e) (waitingRangeLists e) (Some groups)
        (queuePollingLocks e)) lib)
  | None => Fault (UndefinedBehaviour "null queue groups")
  end.

(** [std::lock_guard<SpinLock> guard(_env.queueGroupsLock)] around the rest of a function. *)
Definition with_guard {A} (body : prog A) : prog A :=
  perform (lock_acquire queueGroupsLock);;
  r ← body;
  perform (lock_release queueGroupsLock);;
  Ret r.

(** [fprintf(stderr, ...); return GASPI_ERROR], the message being a line. *)
Definition group_error (message : list part) (lib : Library) : prog (gaspi_return_t * Library) :=
  perform (eprint (message ++ [endl]));;
  Ret (GASPI_ERROR, lib).

Definition tagaspi_queue_group_create (fuel : nat) (lib : Library)
    (queue_group_id queue_begin queue_num : Z) (policy : gaspi_queue_group_policy_t) :
    prog (gaspi_return_t * Library) :=
  let e := l_env lib in
  assert "queue_group_id < _env.maxQueueGroups" (queue_group_id <? maxQueueGroups e);;
  assert "queue_begin < _env.maxQueues" (queue_begin <? maxQueues e);;
  assert "queue_begin + queue_num <= _env.maxQueues"
    (number (queue_begin + queue_num) <=? maxQueues e);;
  assert "queue_num > 0" (0 <? queue_num);;
  with_guard (
    if maxQueueGroups e <=? numQueueGroups e then
      group_error [PStr "Error: Too many queue groups created"] lib
    else
      group ← get_group lib queue_group_id;
      match group with
      | Some _ =>
          group_error [PStr "Error: Queue group "; PInt queue_group_id; PStr " already exists"] lib
      | None =>
          if negb (isValidPolicy policy) then
            group_error [PStr "Error: Queue group policy is not valid"] lib
          else
            queueGroup ← QueueGroup_ctor queue_begin queue_num;
            queueGroup ← setupPolicy fuel (l_hw lib) policy queueGroup;
            lib ← set_group lib queue_group_id (Some queueGroup) (number (numQueueGroups e + 1));
            Ret (GASPI_SUCCESS, lib)
      end).

Definition tagaspi_queue_group_delete (lib : Library) (queue_group_id : Z) :
    prog (gaspi_return_t * Library) :=
  let e := l_env lib in
  assert "queue_group_id < _env.maxQueueGroups" (queue_group_id <? maxQueueGroups e);;
  with_guard (
    group ← get_group lib queue_group_id;
    match group with
    | None =>
        group_error [PStr "Error: Queue group "; PInt queue_group_id; PStr " does not exist"] lib
    | Some queueGroup =>
        QueueGroup_dtor queueGroup;;
        lib ← set_group lib queue_group_id None (number (numQueueGroups e - 1));
        Ret (GASPI_SUCCESS, lib)
    end).

(** It takes no lock. The queue is written only on success. *)
Definition tagaspi_queue_group_get_queue (lib : Library) (queue_group_id : Z) :
    prog (gaspi_return_t * option Z * Library) :=
  assert "queue_group_id < _env.maxQueueGroups" (queue_group_id <? maxQueueGroups (l_env lib));;
  group ← get_group lib queue_group_id;
  match group with
  | None =>
      perform (eprint [PStr "Error: Queue group "; PInt queue_group_id; PStr " does not exist"; endl]);;
      Ret (GASPI_ERROR, None, lib)
  | Some queueGroup =>
      r ← getQueue (l_hw lib) queueGroup;
      lib ← set_group lib queue_group_id (Some (r.2)) (numQueueGroups (l_env lib));
      Ret (GASPI_SUCCESS, Some (r.1), lib)
  end.

Definition tagaspi_queue_group_max (lib : Library) : prog (gaspi_return_t * Z) :=
  Ret (GASPI_SUCCESS, maxQueueGroups (l_env lib)).
End queue_groups.

(** ** The table *)

Section queue_groups_specs.
Context `{BC : BuildConfig} `{GT : GaspiTypes}.

(** The table has [maxQueueGroups] entries and [numQueueGroups] counts those in use. *)
Record table_ok (lib : Library) (groups : list (option QueueGroup)) : Prop := {
  tb_groups : queueGroups (l_env lib) = Some groups;
  tb_max : maxQueueGroups (l_env lib) = MaxQueueGroups;
  tb_length : Z.of_nat (length groups) = MaxQueueGroups;
  tb_count : numQueueGroups (l_env lib) = count_some groups;
}.

(** [lib] with another table. *)
Definition with_groups (lib : Library) (groups : list (option QueueGroup)) : Library :=
  let e := l_env lib in
  set_env (mkEnvironment (enabled e) (maxQueues e) (maxSegments e) (maxQueueGroups e)
    (count_some groups) (numRequests e) (waitingRangeQueues e) (waitingRangeLists e)
    (Some groups) (queuePollingLocks e)) lib.

Lemma table_ok_with lib groups groups' :
  table_ok lib groups → length groups' = length groups → table_ok (with_groups lib groups') groups'.
Proof. intros [] Hl. split; [done|done|by rewrite Hl|done]. Qed.

Lemma get_group_ok lib groups id :
  table_ok lib groups → 0 ≤ id < MaxQueueGroups →
  ∃ g, groups !! Z.to_nat id = Some g ∧ get_group lib id = Ret g.
Proof.
  intros [Hg _ Hl _] Hid. destruct (lookup_lt_is_Some_2 groups (Z.to_nat id)) as [g Hgi]; [lia|].
  exists g. split; [done|]. unfold get_group. rewrite Hg. apply vec_get_Some; [lia|done].
Qed.

Lemma set_group_ok lib groups id g num :
  table_ok lib groups → 0 ≤ id < MaxQueueGroups →
  num = count_some (<[Z.to_nat id := g]> groups) →
  set_group lib id g num = Ret (with_groups lib (<[Z.to_nat id := g]> groups)).
Proof.
  intros [Hg _ Hl _] Hid ->. unfold set_group. rewrite Hg, vec_set_ok by lia. done.
Qed.

(** Outcomes that print at most. *)
Definition prints {A} (P : A → Prop) (v : view) : A → view → Prop :=
  λ a v', P a ∧ v' = set_err (v_err v') v.

Lemma wp_with_guard {A} (body : prog A) (P : A → Prop) v :
  queueGroupsLock ∉ v_held v →
  (∀ v1, wp body v1 (returns (prints P v1))) →
  wp (with_guard body) v (returns (prints P v)).
Proof.
  intros Hl Hb. unfold with_guard. wp_step as [] v1 [_ ->].
  eapply wp_bind_returns; [apply Hb|]. intros a v2 [HP Hv2].
  wp_step as [] v3 ->. cbn [wp post]. split; [done|].
  rewrite Hv2. cbn [v_held set_err set_held].
  rewrite filter_cons_False by naive_solver. rewrite filter_all; [by destruct v|].
  apply Forall_forall. by intros l' ? ->.
Qed.

Lemma wp_group_error message lib v (P : gaspi_return_t * Library → Prop) :
  P (GASPI_ERROR, lib) → wp (group_error message lib) v (returns (prints P v)).
Proof.
  intros HP. unfold group_error. wp_step as [] v' ->.
  by split.
Qed.

(** A policy that can be set up on the group: see QueueGroup.v for CPU round-robin with fewer
    queues than nodes. *)
Definition can_setup (hw : HardwareInfo) (first num : Z) (policy : gaspi_queue_group_policy_t) :
    Prop :=
  policy = GASPI_QUEUE_GROUP_POLICY_CPU_RR →
  hw_wf hw ∧ 0 ≤ first ∧ getNumAvailableNUMANodes hw ≤ num < 2 ^ number_bits ∧
  first + num ≤ 2 ^ queue_id_bits.

(** What [cleanupPolicyData] relies on. *)
Definition data_matches (g : QueueGroup) : Prop :=
  match _policy g, _data g with
  | Some GASPI_QUEUE_GROUP_POLICY_DEFAULT, data_counter _ => True
  | Some GASPI_QUEUE_GROUP_POLICY_CPU_RR, data_queues _ => True
  | _, _ => False
  end.

Lemma setupPolicy_returns fuel hw first num policy :
  isValidPolicy policy = true → can_setup hw first num policy →
  ∃ g, setupPolicy fuel hw policy (mkQueueGroup first num None data_null) = Ret g ∧
    _firstQueue g = first ∧ _numQueues g = num ∧ _policy g = Some policy ∧ data_matches g.
Proof.
  intros Hv Hs. unfold setupPolicy. destruct policy as [| |x]; [|destruct Hs as (Hw&Hf&Hn&Hl); [done|]|done].
  - eexists. split; [by rewrite decide_True|]. done.
  - rewrite decide_False by done. cbn [_firstQueue _numQueues _data].
    destruct (setup_enough hw (mkQueueGroup first num (Some GASPI_QUEUE_GROUP_POLICY_CPU_RR)
      data_null) Hw Hf fuel Hn Hl) as (l&->&_). by eexists.
Qed.

Lemma wp_create fuel lib groups id begin num policy v :
  table_ok lib groups → 0 ≤ id < MaxQueueGroups → begin < maxQueues (l_env lib) →
  number (begin + num) ≤ maxQueues (l_env lib) → 0 < num →
  queueGroupsLock ∉ v_held v → can_setup (l_hw lib) begin num policy →
  wp (tagaspi_queue_group_create fuel lib id begin num policy) v (returns (prints (λ r,
    if decide (groups !! Z.to_nat id = Some None ∧ isValidPolicy policy = true)
    then r.1 = GASPI_SUCCESS ∧ ∃ g, r.2 = with_groups lib (<[Z.to_nat id := Some g]> groups) ∧
      _firstQueue g = begin ∧ _numQueues g = num ∧ _policy g = Some policy ∧ data_matches g
    else r.1 = GASPI_ERROR ∧ r.2 = lib) v)).
Proof.
  intros Ht Hid Hb Hbn Hn Hl Hs. pose proof Ht as [Hg Hmax Hlen Hcount].
  destruct (get_group_ok lib groups id Ht Hid) as (g&Hgi&Hget).
  unfold tagaspi_queue_group_create. rewrite Hmax.
  wp_assert. wp_assert.
  wp_assert. wp_assert.
  apply wp_with_guard; [done|]. intros v1. rewrite Hget, mbind_Ret.
  destruct (decide (groups !! Z.to_nat id = Some None ∧ isValidPolicy policy = true))
    as [[Hfr Hv]|Hd]; destruct g as [g|]; try congruence.
  - pose proof (count_some_free _ _ Hgi) as Hfree. pose proof (count_some_bounds groups).
    rewrite (proj2 (Z.leb_gt _ _)) by lia. rewrite Hv. cbn [negb]. unfold QueueGroup_ctor.
    destruct (setupPolicy_returns fuel (l_hw lib) begin num policy Hv Hs) as (g&Hset&Hok).
    assert (assert "num > 0" (0 <? num) = Ret tt) as ->.
    { unfold assert. rewrite (proj2 (Z.ltb_lt _ _)) by done. by destruct NDEBUG. }
    rewrite !mbind_Ret, Hset, mbind_Ret.
    assert (2 ^ 16 ≤ 2 ^ number_bits).
    { pose proof number_bits_range. apply Z.pow_le_mono_r; lia. }
    unfold MaxQueueGroups in *. rewrite number_small by lia.
    erewrite set_group_ok; [|done|done|].
    + cbn. split; [|by destruct v1]. split; [done|]. exists g. split; [done|apply Hok].
    + rewrite Hcount. symmetry. by apply count_some_set.
  - destruct (MaxQueueGroups <=? _); by apply wp_group_error.
  - destruct (MaxQueueGroups <=? _); [by apply wp_group_error|].
    destruct (isValidPolicy policy); [naive_solver|]. by apply wp_group_error.
Qed.

Lemma wp_delete lib groups id v :
  table_ok lib groups → 0 ≤ id < MaxQueueGroups → queueGroupsLock ∉ v_held v →
  (∀ g, groups !! Z.to_nat id = Some (Some g) → data_matches g) →
  wp (tagaspi_queue_group_delete lib id) v (returns (prints (λ r,
    if decide (groups !! Z.to_nat id = Some None)
    then r.1 = GASPI_ERROR ∧ r.2 = lib
    else r.1 = GASPI_SUCCESS ∧ r.2 = with_groups lib (<[Z.to_nat id := None]> groups)) v)).
Proof.
  intros Ht Hid Hl Hd. pose proof Ht as [Hg Hmax Hlen Hcount].
  destruct (get_group_ok lib groups id Ht Hid) as (g&Hgi&Hget).
  unfold tagaspi_queue_group_delete. rewrite Hmax.
  wp_assert.
  apply wp_with_guard; [done|]. intros v1. rewrite Hget, mbind_Ret.
  destruct (decide (groups !! Z.to_nat id = Some None)), g as [g|]; try congruence;
    [by apply wp_group_error|]. specialize (Hd _ Hgi).
  assert (QueueGroup_dtor g = Ret tt) as ->.
  { unfold QueueGroup_dtor, cleanupPolicyData, data_matches in *.
    by destruct (_policy g) as [[]|], (_data g). }
  pose proof (count_some_reset _ _ _ Hgi) as Hr. pose proof (count_some_bounds groups).
  pose proof (count_some_bounds (<[Z.to_nat id := None]> groups)) as Hb'.
  rewrite length_insert in Hb'.
  assert (2 ^ 16 ≤ 2 ^ number_bits).
  { pose proof number_bits_range. apply Z.pow_le_mono_r; lia. }
  unfold MaxQueueGroups in *. rewrite number_small by lia.
  rewrite mbind_Ret. erewrite set_group_ok; [|done|done|by rewrite Hcount, Hr].
  cbn. split; [|by destruct v1]. done.
Qed.

(** C26. [tagaspi_queue_group_create] creates the group when its entry is free and the policy valid,
    and otherwise reports [GASPI_ERROR] with the table as it was. In all cases the lock is free
    again, and [numQueueGroups] is the number of groups that exist. *)
Theorem queue_group_create_spec {W} `{!Runtime W} `{!RuntimeSpec W} (w : W) fuel lib groups id
    begin num policy :
  table_ok lib groups → 0 ≤ id < MaxQueueGroups → begin < maxQueues (l_env lib) →
  number (begin + num) ≤ maxQueues (l_env lib) → 0 < num →
  queueGroupsLock ∉ v_held (view_of w) → can_setup (l_hw lib) begin num policy →
  ∃ e lib' w', run (tagaspi_queue_group_create fuel lib id begin num policy) w =
      (inl (e, lib'), w') ∧
    v_held (view_of w') = v_held (view_of w) ∧
    if decide (groups !! Z.to_nat id = Some None ∧ isValidPolicy policy = true)
    then e = GASPI_SUCCESS ∧ ∃ g, table_ok lib' (<[Z.to_nat id := Some g]> groups) ∧
      _firstQueue g = begin ∧ _numQueues g = num ∧ _policy g = Some policy ∧ data_matches g
    else e = GASPI_ERROR ∧ lib' = lib.
Proof.
  intros Ht Hid Hb Hbn Hn Hl Hs.
  destruct (wp_run _ w _ (wp_create fuel lib groups id begin num policy _ Ht Hid Hb Hbn Hn Hl Hs))
    as ([[e lib']|f]&w'&Hr&HQ); [|done]. destruct HQ as [HQ Hv]. exists e, lib', w'.
  split; [done|]. split; [by rewrite Hv|]. cbn [fst snd] in HQ. case_decide; [|done].
  destruct HQ as (->&g&->&Hg). split; [done|]. exists g. split; [|done].
  eapply table_ok_with; [done|]. by rewrite length_insert.
Qed.

(** C30. [tagaspi_queue_group_delete] frees the entry of a group that exists, and reports
    [GASPI_ERROR] for one that does not, with the library as it was. The other entries do not
    change, [numQueueGroups] is the number of groups that are left, and the lock is free again. *)
Theorem queue_group_delete_spec {W} `{!Runtime W} `{!RuntimeSpec W} (w : W) lib groups id :
  table_ok lib groups → 0 ≤ id < MaxQueueGroups → queueGroupsLock ∉ v_held (view_of w) →
  (∀ g, groups !! Z.to_nat id = Some (Some g) → data_matches g) →
  ∃ e lib' w', run (tagaspi_queue_group_delete lib id) w = (inl (e, lib'), w') ∧
    v_held (view_of w') = v_held (view_of w) ∧
    if decide (groups !! Z.to_nat id = Some None) then e = GASPI_ERROR ∧ lib' = lib
    else e = GASPI_SUCCESS ∧ table_ok lib' (<[Z.to_nat id := None]> groups) ∧
      lib' = with_groups lib (<[Z.to_nat id := None]> groups).
Proof.
  intros Ht Hid Hl Hd. destruct (wp_run _ w _ (wp_delete lib groups id _ Ht Hid Hl Hd))
    as ([[e lib']|f]&w'&Hr&HQ); [|done]. destruct HQ as [HQ Hv]. exists e, lib', w'.
  split; [done|]. split; [by rewrite Hv|]. cbn [fst snd] in HQ. case_decide; [done|].
  destruct HQ as (->&->). split; [done|]. split; [|done]. eapply table_ok_with; [done|].
  by rewrite length_insert.
Qed.

(** ** Asking for a queue *)

Lemma with_groups_same lib groups : table_ok lib groups → with_groups lib groups = lib.
Proof.
  intros [Hg _ _ Hc]. unfold with_groups. rewrite <- Hc, <- Hg. by destruct lib as [? ? ? [] ?].
Qed.

(** The message about a group that does not exist. *)
Definition does_not_exist (id : Z) : list part :=
  [PStr "Error: Queue group "; PInt id; PStr " does not exist"; endl].

(** A group with the default policy. *)
Lemma wp_get_queue lib groups id v :
  table_ok lib groups → 0 ≤ id < MaxQueueGroups →
  (∀ g, groups !! Z.to_nat id = Some (Some g) → round_robin_ok g) →
  wp (tagaspi_queue_group_get_queue lib id) v (returns (λ r v',
    match groups !! Z.to_nat id with
    | Some (Some g) => v' = v ∧ ∃ counter, _data g = data_counter counter ∧
        r = (GASPI_SUCCESS, Some (_firstQueue g + counter), with_groups lib (<[Z.to_nat id :=
              Some (set_data (data_counter ((counter + 1) `mod` _numQueues g)) g)]> groups))
    | _ => r = (GASPI_ERROR, None, lib) ∧ v' = set_err (v_err v ++ [does_not_exist id]) v
    end)).
Proof.
  intros Ht Hid Hgroups. destruct (get_group_ok lib groups id Ht Hid) as (g&Hgi&Hget). rewrite Hgi.
  pose proof Ht as [_ Hmax _ Hcount]. unfold tagaspi_queue_group_get_queue. rewrite Hmax.
  wp_assert. rewrite Hget, mbind_Ret. destruct g as [g|]; [|wp_step as [] v' ->; by split].
  destruct (Hgroups _ Hgi) as (Hg&counter&Hp&Hd&Hc). unfold getQueue. rewrite Hp, Hd.
  destruct (Z.ltb_spec 1 (_numQueues g)); rewrite mbind_Ret; cbn [fst snd].
  - erewrite set_group_ok; [|done|done|by rewrite Hcount; symmetry; eapply count_some_update].
    cbn. split; [done|]. exists counter. split; [done|]. rewrite queue_at_spec by done.
    unfold compare_exchange. by rewrite Z.eqb_refl, nextOffset_spec by done.
  - erewrite set_group_ok; [|done|done|by rewrite Hcount; symmetry; eapply count_some_update].
    cbn. split; [done|]. exists counter. split; [done|]. assert (counter = 0) as -> by lia.
    assert (_numQueues g = 1) as -> by lia. rewrite Z.mod_1_r, Z.add_0_r. unfold set_data.
    rewrite <- Hd. by destruct g.
Qed.

(** What happens on a CPU that the array has no entry for. *)
Definition no_entry : fault :=
  if NDEBUG then UndefinedBehaviour "index out of range"
  else AssertFailed "currentCPU < getMaxCPUs()".

Lemma run_getCurrentCPU {W} `{!Runtime W} (w w' : W) hw cpu :
  do_call sched_getcpu w = Some (cpu, w') →
  run (getCurrentCPU hw) w =
    (if NDEBUG || (u64 cpu <? getMaxCPUs hw) then inl (u64 cpu)
     else inr (AssertFailed "currentCPU < getMaxCPUs()"), w').
Proof.
  intros Hcpu. unfold getCurrentCPU, perform. cbn [mbind prog_mbind prog_bind].
  rewrite (run_vis _ _ _ _ _ Hcpu). unfold assert. by destruct NDEBUG, (_ <? _).
Qed.

(** A group with the CPU policy. *)
Lemma run_get_queue_cpu {W} `{!Runtime W} (w w' : W) lib groups id g queues cpu :
  table_ok lib groups → 0 ≤ id < MaxQueueGroups → groups !! Z.to_nat id = Some (Some g) →
  _policy g = Some GASPI_QUEUE_GROUP_POLICY_CPU_RR → _data g = data_queues queues →
  length queues = length (_cpuToNUMANode (l_hw lib)) →
  do_call sched_getcpu w = Some (cpu, w') →
  run (tagaspi_queue_group_get_queue lib id) w =
    (match queues !! Z.to_nat (u64 cpu) with
     | Some q => inl (GASPI_SUCCESS, Some q, lib)
     | None => inr no_entry
     end, w').
Proof.
  intros Ht Hid Hgi Hp Hd Hlen Hcpu. destruct (get_group_ok lib groups id Ht Hid) as (g'&Hgi'&Hget).
  rewrite Hgi in Hgi'. injection Hgi' as <-. pose proof Ht as [_ Hmax _ Hcount].
  assert (getQueue (l_hw lib) g =
    (cpu ← getCurrentCPU (l_hw lib); queue ← vec_get queues cpu; Ret (queue, g))) as Hq
    by (unfold getQueue; by rewrite Hp, Hd).
  assert (assert "queue_group_id < _env.maxQueueGroups" (id <? MaxQueueGroups) = Ret tt) as Ha.
  { unfold assert. rewrite (proj2 (Z.ltb_lt _ _)) by lia. by destruct NDEBUG. }
  unfold tagaspi_queue_group_get_queue. rewrite Hmax, Ha, mbind_Ret, Hget, mbind_Ret, Hq.
  rewrite !run_bind, (run_getCurrentCPU _ _ _ _ Hcpu). unfold getMaxCPUs, no_entry.
  pose proof (wrap_range 64 cpu ltac:(lia)) as Hu. fold (u64 cpu) in Hu.
  destruct (queues !! Z.to_nat (u64 cpu)) as [q|] eqn:Hqu.
  - pose proof (lookup_lt_Some _ _ _ Hqu). rewrite (proj2 (Z.ltb_lt _ _)), orb_true_r by lia.
    rewrite run_bind, (vec_get_Some _ _ q) by (done || lia). cbn [run fst snd].
    rewrite run_bind, (set_group_ok lib groups) by first [done
      | rewrite Hcount; symmetry; by eapply count_some_update].
    cbn [run]. rewrite list_insert_id by done. by rewrite with_groups_same.
  - apply lookup_ge_None in Hqu. rewrite (proj2 (Z.ltb_ge _ _)), orb_false_r by lia.
    destruct NDEBUG; [|done]. rewrite run_bind. unfold vec_get.
    rewrite decide_True by lia. by rewrite (lookup_ge_None_2 queues) by lia.
Qed.

(** C27. [tagaspi_queue_group_get_queue] on every branch. A group with the default policy hands out
    the queue at its counter, which moves on to the next queue of the group, or to the first one
    after the last. A group with the CPU policy hands out the entry for the CPU that the thread
    runs on, of the array that [setupPolicy] computed for the group, and nothing changes; that
    queue is in the group when the group has as many queues as there are available nodes and the
    CPU is of one of these. On a CPU beyond the array the assertion fails, or the read is out of
    bounds in a release build. A group that does not exist is an error. *)
Theorem queue_group_get_queue_spec {W} `{!Runtime W} `{!RuntimeSpec W} (w : W) lib groups id :
  let hw := l_hw lib in
  table_ok lib groups → 0 ≤ id < MaxQueueGroups →
  (∀ g, groups !! Z.to_nat id = Some (Some g) → set_up hw g) →
  ∃ r w', run (tagaspi_queue_group_get_queue lib id) w = (r, w') ∧
    match groups !! Z.to_nat id with
    | Some (Some g) =>
        match _data g with
        | data_counter counter =>
            let g' := set_data (data_counter ((counter + 1) `mod` _numQueues g)) g in
            let lib' := with_groups lib (<[Z.to_nat id := Some g']> groups) in
            r = inl (GASPI_SUCCESS, Some (_firstQueue g + counter), lib') ∧
            0 ≤ counter < _numQueues g ∧ view_of w' = view_of w
        | data_queues queues =>
            array_of hw g queues ∧ ∃ cpu, do_call sched_getcpu w = Some (cpu, w') ∧
            match queues !! Z.to_nat (u64 cpu) with
            | Some q => r = inl (GASPI_SUCCESS, Some q, lib) ∧
                ∀ x, hw_wf hw → getNumAvailableNUMANodes hw ≤ _numQueues g →
                  _cpuToNUMANode hw !! Z.to_nat (u64 cpu) = Some x → x ≠ -1 →
                  _firstQueue g ≤ q < _firstQueue g + _numQueues g
            | None => r = inr no_entry
            end
        | data_null => False
        end
    | _ => r = inl (GASPI_ERROR, None, lib) ∧
        view_of w' = set_err (v_err (view_of w) ++ [does_not_exist id]) (view_of w)
    end.
Proof.
  intros hw Ht Hid Hgroups.
  destruct (decide (Exists (λ g, _policy g = Some GASPI_QUEUE_GROUP_POLICY_CPU_RR)
    (option_list (mjoin (groups !! Z.to_nat id))))) as [Hcpu|Hrr].
  - destruct (groups !! Z.to_nat id) as [[g|]|] eqn:Hgi; cbn in Hcpu; try by inv Hcpu.
    apply Exists_cons in Hcpu as [Hp|Hn]; [|by inv Hn].
    destruct (Hgroups g eq_refl) as [(_&c&Hp'&_)|(Hg&_&queues&Hd&Ha)]; [congruence|].
    destruct (runtime_live sched_getcpu w I) as [[cpu w'] Hcpu]. eexists _, w'. rewrite Hd.
    split; [by eapply run_get_queue_cpu; [..|by eapply array_length|]|]. split; [done|].
    exists cpu. split; [done|]. destruct (queues !! _) as [q|] eqn:Hq; [|done]. split; [done|].
    intros x Hhw HN Hx Hx1. destruct (array_in_group hw g queues _ x Hhw Hg Ha HN Hx Hx1) as (q'&Hq'&?).
    congruence.
  - assert (∀ g, groups !! Z.to_nat id = Some (Some g) → round_robin_ok g) as Hok.
    { intros g Hgi. destruct (Hgroups g Hgi) as [?|(_&Hp&_)]; [done|]. destruct Hrr. rewrite Hgi.
      by apply Exists_cons_hd. }
    destruct (wp_run _ w _ (wp_get_queue lib groups id _ Ht Hid Hok)) as ([x|f]&w'&Hr&HQ); [|done].
    exists (inl x), w'. split; [done|]. cbn in HQ.
    destruct (groups !! Z.to_nat id) as [[g|]|] eqn:Hgi; [|by destruct HQ as [-> ?]..].
    destruct HQ as (Hv&c&Hd&->), (Hok g eq_refl) as (_&c'&_&Hd'&Hc). rewrite Hd in *.
    injection Hd' as <-. done.
Qed.
End queue_groups_specs.

(** ** Examples *)

Section queue_groups_examples.
#[local] Existing Instance sim_types.
#[local] Existing Instance release_build.

Definition sim_groups : list (option QueueGroup) :=
  <[3%nat := Some (mkQueueGroup 1 3 (Some GASPI_QUEUE_GROUP_POLICY_DEFAULT) (data_counter 2))]>
    (replicate 16 None).

(** The library with one group of three queues, with identifier 3. *)
Definition sim_lib_groups : Library := with_groups sim_lib sim_groups.

Lemma sim_table_ok : table_ok sim_lib_groups sim_groups.
Proof. by split. Qed.

Lemma sim_groups_3 g :
  sim_groups !! 3%nat = Some (Some g) →
  g = mkQueueGroup 1 3 (Some GASPI_QUEUE_GROUP_POLICY_DEFAULT) (data_counter 2).
Proof. by intros [= <-]. Qed.

Example get_queue_wraps :
  (run (r ← tagaspi_queue_group_get_queue sim_lib_groups 3;
        tagaspi_queue_group_get_queue (r.2) 3) sim0).1 =
  inl (GASPI_SUCCESS, Some 1, with_groups sim_lib (<[3%nat := Some (mkQueueGroup 1 3
    (Some GASPI_QUEUE_GROUP_POLICY_DEFAULT) (data_counter 1))]> (replicate 16 None))).
Proof. by vm_compute. Qed.

Lemma queue_group_create_spec_witness :
  ∃ e lib' w', run (tagaspi_queue_group_create 0 sim_lib_groups 5 0 4
      GASPI_QUEUE_GROUP_POLICY_CPU_RR) sim0 = (inl (e, lib'), w') ∧ e = GASPI_SUCCESS.
Proof.
  destruct (queue_group_create_spec sim0 0 sim_lib_groups sim_groups 5 0 4
    GASPI_QUEUE_GROUP_POLICY_CPU_RR sim_table_ok) as (e&lib'&w'&Hr&_&He);
    [done|done|done|done|apply not_elem_of_nil| |].
  - intros _. split; [|done]. split; [|done..]. intros i n Hi Hn.
    do 4 (destruct i as [|i]; [simpl in Hi; simplify_eq; by split|]). done.
  - exists e, lib', w'. split; [exact Hr|]. by destruct He.
Defined.

Lemma queue_group_delete_spec_witness :
  ∃ e lib' w', run (tagaspi_queue_group_delete sim_lib_groups 3) sim0 = (inl (e, lib'), w') ∧
    e = GASPI_SUCCESS.
Proof.
  destruct (queue_group_delete_spec sim0 sim_lib_groups sim_groups 3 sim_table_ok)
    as (e&lib'&w'&Hr&_&He); [done|apply not_elem_of_nil|by intros g ->%sim_groups_3|].
  exists e, lib', w'. split; [exact Hr|]. by destruct He.
Defined.

(** A group with the CPU policy on two nodes; the thread runs on CPU 0. *)
Definition sim_cpu_group : QueueGroup :=
  mkQueueGroup 3 5 (Some GASPI_QUEUE_GROUP_POLICY_CPU_RR) (data_queues [3; 6; 4; 7; 0]).

Definition sim_cpu_groups : list (option QueueGroup) :=
  <[4%nat := Some sim_cpu_group]> sim_groups.

Definition sim_lib_cpu : Library :=
  with_groups (mkLibrary hw_two (l_tm sim_lib) (l_allocator sim_lib) (l_env sim_lib)
    (l_polling sim_lib)) sim_cpu_groups.

Lemma sim_cpu_set_up : set_up hw_two sim_cpu_group.
Proof.
  right. split; [by split_and!|]. split; [done|]. exists [3; 6; 4; 7; 0]. split; [done|].
  exists 0%nat. by vm_compute.
Qed.

Lemma queue_group_get_queue_spec_witness :
  (∃ lib' w', run (tagaspi_queue_group_get_queue sim_lib_groups 3) sim0 =
      (inl (GASPI_SUCCESS, Some 3, lib'), w')) ∧
  (∃ q lib' w', run (tagaspi_queue_group_get_queue sim_lib_cpu 4) sim0 =
      (inl (GASPI_SUCCESS, Some q, lib'), w') ∧ 3 ≤ q < 3 + 5).
Proof.
  split.
  - destruct (queue_group_get_queue_spec sim0 sim_lib_groups sim_groups 3 sim_table_ok)
      as (r&w'&Hr&He); [done| |].
    + intros g ->%sim_groups_3. left. split; [by split_and!|]. by exists 2.
    + destruct He as (->&_). by eexists _, w'.
  - destruct (queue_group_get_queue_spec sim0 sim_lib_cpu sim_cpu_groups 4)
      as (r&w'&Hr&He); [by split|done|intros g [= <-]; exact sim_cpu_set_up|].
    destruct He as (_&cpu&[= <- _]&->&Hq). exists 3. eexists _, w'. split; [exact Hr|].
    by apply (Hq 0 hw_two_wf).
Defined.
End queue_groups_examples.
