(* ===== verification/Initialization.v ===== *)
(** [Environment::initialize] and [Environment::finalize] (common/Environment.cpp) and the API
    functions that call them (c/Initialization.cpp). *)

From S2P Require Import Prelude Types Interface Contract Sim Hoare ErrorHandler EnvVar HardwareInfo TaskingModel Allocator QueueGroup WaitingRange WaitingRangeList WaitingRangeQueue Environment Operations NotifyAsyncWait Polling PollNotifications QueueGroups.
Open Scope Z_scope.

Section initialization.
Context `{BC : BuildConfig} `{GT : GaspiTypes}.

(** [new] either returns an array or throws: the assertions that it is not null hold. *)
Definition Environment_initialize (lib : Library) : prog Library :=
  assert "!_env.enabled" (negb (enabled (l_env lib)));;
  hw ← HardwareInfo_initialize (l_hw lib);
  tm ← TaskingModel_initialize (l_tm lib);
  q ← perform gaspi_queue_max;
  s ← perform gaspi_segment_max;
  let maxQueues := q.2 in
  let maxSegments := s.2 in
  assert "_env.maxQueues > 0" (0 <? maxQueues);;
  assert "_env.maxSegments > 0" (0 <? maxSegments);;
  perform (spsc_construct maxSegments WR_QUEUE_CAPACITY);;
  let waitingRangeLists := replicate (Z.to_nat maxSegments) [] in
  read ← perform (gaspi_operation_get_num_requests GASPI_OP_READ 1);
  write ← perform (gaspi_operation_get_num_requests GASPI_OP_WRITE 1);
  notify ← perform (gaspi_operation_get_num_requests GASPI_OP_NOTIFY 1);
  write_notify ← perform (gaspi_operation_get_num_requests GASPI_OP_WRITE_NOTIFY 1);
  allocator ← Allocator_initialize (l_allocator lib);
  let env := {|
    enabled := true;
    maxQueues := maxQueues;
    maxSegments := maxSegments;
    maxQueueGroups := MaxQueueGroups;
    numQueueGroups := 0;
    numRequests := [read.2; write.2; notify.2; write_notify.2];
    waitingRangeQueues := true;
    waitingRangeLists := Some waitingRangeLists;
    queueGroups := Some (replicate (Z.to_nat MaxQueueGroups) None);
    queuePollingLocks := true |} in
  let lib := mkLibrary hw tm allocator env (l_polling lib) in
  polling ← Polling_initialize lib;
  Ret (mkLibrary hw tm allocator env polling).

(** The destructors that [delete []] runs on the queues and the lists. *)
Definition delete_queues (maxSegments : Z) : prog unit :=
  for_each (seqZ 0 maxSegments) (λ seg _, queue_dtor seg) tt;;
  perform spsc_destruct.

Definition delete_lists (lists : list (list Z)) : prog unit :=
  for_each lists (λ l _, list_dtor l) tt.

(** The table of groups is deleted but not the groups. What is deleted is [None] afterwards. *)
Definition Environment_finalize (fuel : nat) (lib : Library) : prog Library :=
  let e := l_env lib in
  assert "_env.enabled" (enabled e);;
  assert "_env.queuePollingLocks != nullptr" (queuePollingLocks e);;
  assert "_env.waitingRangeQueues != nullptr" (waitingRangeQueues e);;
  assert "_env.waitingRangeLists != NULL" (bool_decide (is_Some (waitingRangeLists e)));;
  assert "_env.queueGroups != NULL" (bool_decide (is_Some (queueGroups e)));;
  polling ← Polling_finalize fuel lib;
  allocator ← Allocator_finalize (l_allocator lib);
  delete_queues (maxSegments e);;
  delete_lists (default [] (waitingRangeLists e));;
  hw ← HardwareInfo_finalize (l_hw lib);
  Ret (mkLibrary hw (l_tm lib) allocator
         (mkEnvironment false (maxQueues e) (maxSegments e) (maxQueueGroups e)
            (numQueueGroups e) (numRequests e) false None None false) polling).

Definition tagaspi_proc_init (lib : Library) (timeout_ms : gaspi_timeout_t) :
    prog (gaspi_return_t * Library) :=
  assert "!_env.enabled" (negb (enabled (l_env lib)));;
  eret ← perform (gaspi_proc_init timeout_ms);
  if decide (eret = GASPI_SUCCESS) then
    lib ← Environment_initialize lib;
    Ret (eret, lib)
  else Ret (eret, lib).

Definition tagaspi_proc_term (fuel : nat) (lib : Library) (timeout_ms : gaspi_timeout_t) :
    prog (gaspi_return_t * Library) :=
  lib ← (if enabled (l_env lib) then Environment_finalize fuel lib else Ret lib);
  eret ← perform (gaspi_proc_term timeout_ms);
  Ret (eret, lib).
End initialization.

(** ** What initialisation establishes *)

Section initialization_specs.
Context `{BC : BuildConfig} `{GT : GaspiTypes}.

(** The limits of the installation and the environment of the process. *)
Record host_good (h : host) : Prop := {
  hg_machine : host_ok h;
  hg_cpu : ∃ c, 0 ≤ c < h_possible_cpus h ∧ h_available h c = true;
  hg_queues : 0 < h_queue_max h ≤ 2 ^ queue_id_bits ∧ h_queue_max h < 2 ^ number_bits;
  hg_segments : 0 < h_segment_max h < 2 ^ segment_id_bits;
  hg_checkers : 0 < chosen_instances h ≤ 2 ^ number_bits;
}.

(** The library and the world after initialisation: everything the other components' theorems
    ask for. *)
Record initialised (h : host) (lib : Library) (v : view) : Prop := {
  in_lib : lib_ok lib;
  in_hw : hw_wf (l_hw lib) ∧ describes h (l_hw lib);
  in_segments : maxSegments (l_env lib) = h_segment_max h;
  in_queues : maxQueues (l_env lib) = h_queue_max h;
  in_polling : polling_ok (h_queue_max h) (chosen_instances h) v (l_polling lib);
  in_table : table_ok lib (replicate (Z.to_nat MaxQueueGroups) None);
  in_lists : waitingRangeLists (l_env lib) = Some (replicate (Z.to_nat (h_segment_max h)) []);
  in_live : live_ok (replicate (Z.to_nat (h_segment_max h)) []) v;
  in_register seg : can_register seg v;
  in_free : v_pool v ≠ [];
  in_empty : v_spsc v = [] ∧ v_spsc_capacity v = WR_QUEUE_CAPACITY;
  in_held : v_held v = [];
  in_wrqueues : waitingRangeQueues (l_env lib) = true;
}.

(** The faults that initialisation can end in: errors of the tasking runtime. *)
Definition init_fault (f : fault) : Prop := f = alpi_fault ∨ f = fail_fault.

Lemma WR_QUEUE_CAPACITY_pos : 0 < WR_QUEUE_CAPACITY.
Proof. done. Qed.

(** The part of the world that the allocator and the queues set up. *)
Lemma live_ok_fresh n v :
  pool_wf v → v_spsc v = [] → live_ok (replicate n []) v.
Proof.
  intros Hw Hs. assert (live (replicate n []) v = []) as Hl.
  { unfold live. by rewrite concat_replicate_nil, Hs. }
  pose proof Hw as [_ Hnd _ _].
  split; [done|by rewrite Hl, app_nil_r|rewrite Hl; by intros o ?%elem_of_nil|].
  rewrite Hl. by intros o ?%elem_of_nil.
Qed.

Lemma wp_Environment_initialize lib v :
  l_hw lib = HardwareInfo_static → l_tm lib = TaskingModel_static →
  l_allocator lib = Allocator_static → enabled (l_env lib) = false →
  l_polling lib = Polling_static →
  host_good (v_host v) → v_held v = [] → NDEBUG = true →
  wp (Environment_initialize lib) v (post init_fault (λ lib' v',
    initialised (v_host v) lib' v' ∧ v_outstanding v' = v_outstanding v ∧
    v_events v' = v_events v ∧ new_running v v')).
Proof.
  intros Hhw Htm Hal Hen Hpo [Hm (c0&Hc0&Hav) Hq Hs Hch] Hheld Hrel.
  unfold Environment_initialize. apply wp_assert_bind; [by rewrite Hen|].
  rewrite Hhw, Htm, Hal, Hpo.
  eapply wp_bind_returns; [by eapply wp_HardwareInfo_fresh|]. intros hw v1 (->&Hwf&Hdesc).
  eapply wp_bind_post.
  { apply wp_TaskingModel_initialize. rewrite Hheld. apply not_elem_of_nil. }
  intros tm v1 (Htl&->&_).
  wp_step as q v1 [-> ->].
  wp_step as s v1 [-> ->]. cbv zeta. cbn [snd].
  wp_assert. wp_assert.
  wp_step as ? v1 ->.
  do 4 (wp_step as ? ? [-> ->]).
  eapply wp_bind_returns; [by apply wp_Allocator_initialize|]. intros al v2 (Hai&Hw&o&->).
  pose proof queue_id_bits_range. cbn [v_host] in *.
  eapply wp_bind_post.
  { eapply wp_post_mono; [apply wp_Polling_initialize; cbn; try done; lia|by left|].
    intros p v3 H3. exact H3. }
  intros p v3 (Hp&_&Hv3&Hnew). cbn in Hp. split; [|split; [|split]]; [|by rewrite Hv3|by rewrite Hv3|exact Hnew].
  assert (pool_wf v3) as Hw3.
  { destruct Hw as [Hc Hn Hf Ho]. split; rewrite Hv3; [exact Hc|exact Hn|exact Hf|exact Ho]. }
  assert (v_spsc v3 = [] ∧ v_spsc_capacity v3 = WR_QUEUE_CAPACITY ∧ v_held v3 = [] ∧
    v_pool v3 = seqZ 0 NumEntries) as (Hsp&Hcap&Hheld3&Hpool).
  { rewrite Hv3. done. }
  split; try done.
  - by apply live_ok_fresh.
  - intros seg. split; [done| |].
    + rewrite Hheld3. apply not_elem_of_nil.
    + unfold spsc_contents. rewrite Hsp, Hcap. apply WR_QUEUE_CAPACITY_pos.
  - rewrite Hpool. intros Hnil%(f_equal length). rewrite length_seqZ, NumEntries_eq in Hnil.
    simpl in Hnil. lia.
Qed.

(** [tagaspi_proc_init] in a fresh process: unless GASPI or the tasking runtime fail, the
    library is initialised - the hardware is described, the symbols are loaded, the allocator
    is full, the queues and lists are empty, every queue has a polling instance and there is
    no queue group - and no event or request was touched. When [gaspi_proc_init] fails, its
    error is returned and the library is as it was. *)
Theorem tagaspi_proc_init_spec {W} `{!Runtime W} `{!RuntimeSpec W} (w : W) timeout :
  let v := view_of w in
  NDEBUG = true → host_good (v_host v) → v_held v = [] →
  ∃ r w', run (tagaspi_proc_init Library_static timeout) w = (r, w') ∧
    post init_fault (λ x v',
      (x.1 = GASPI_SUCCESS ∧ initialised (v_host v) (x.2) v' ∧
         v_outstanding v' = v_outstanding v ∧ v_events v' = v_events v ∧ new_running v v') ∨
      (x.1 ≠ GASPI_SUCCESS ∧ x.2 = Library_static ∧ v' = v)) r (view_of w').
Proof.
  intros v Hrel Hh Hheld. apply (wp_run (tagaspi_proc_init Library_static timeout)).
  unfold tagaspi_proc_init. wp_assert.
  wp_step as e v1 ->. case_decide as He.
  - eapply wp_bind_post; [by apply wp_Environment_initialize|]. intros lib v1 Hi.
    left. by split.
  - right. by split.
Qed.
End initialization_specs.

(** ** Shutdown *)

Section termination_specs.
Context `{BC : BuildConfig} `{GT : GaspiTypes}.

(** The task of the instance has completed. *)
Definition finished (v : view) (a : Z) : Prop :=
  ∃ p, v_insts v !! a = Some p ∧ _finished p = true.

Lemma wp_unregisterPolling fuel tm a v :
  finished v a → (0 < fuel)%nat →
  wp (unregisterPolling fuel tm a) v
    (returns (λ _ v', v' = set_insts (delete a (v_insts v)) v)).
Proof.
  intros (p&Hp&Hf) Hfuel. destruct fuel as [|fuel]; [lia|]. unfold unregisterPolling.
  wp_step as [] v1 ->. cbn [wait_finished].
  eapply (wp_bind_returns _ _ _ (λ _ v', v' = set_insts (alter (λ p, mkPollingInstance (_name p)
    (_function p) true (_finished p)) a (v_insts v)) v)).
  - apply wp_perform_bind.
    + cbn. rewrite lookup_alter_eq, Hp. by eexists.
    + cbn. intros q v2 [-> Hq]. rewrite lookup_alter_eq, Hp in Hq. injection Hq as <-.
      cbn. rewrite Hf. done.
  - intros _ v2 ->. apply wp_perform; [done|]. intros [] v3 ->. cbn.
    by rewrite delete_alter_eq.
Qed.

(** The instances that the polling information refers to. *)
Definition info_instances (infos : list QueuePollingInfo) : list Z :=
  omap (λ i, if decide (info_numQueues i = 0) then None else info_pollingInstance i) infos.

Lemma finished_delete v a b :
  a ≠ b → finished v b → finished (set_insts (delete a (v_insts v)) v) b.
Proof. intros Hne (p&Hp&Hf). exists p. cbn. by rewrite lookup_delete_ne. Qed.

Lemma wp_unregister_infos fuel tm infos v :
  NoDup (info_instances infos) →
  (∀ i, i ∈ infos → info_numQueues i ≠ 0 → is_Some (info_pollingInstance i)) →
  (∀ a, a ∈ info_instances infos → finished v a) → (0 < fuel)%nat →
  wp (for_each infos (unregister_info fuel tm) tt) v (returns (λ _ v',
    v' = set_insts (v_insts v') v ∧
    ∀ b, v_insts v' !! b = if decide (b ∈ info_instances infos) then None else v_insts v !! b)).
Proof.
  intros Hnd Hsome Hfin Hfuel. revert v Hnd Hsome Hfin.
  induction infos as [|i infos IH]; intros v Hnd Hsome Hfin; cbn [for_each].
  { split; [by destruct v|]. intros b. by rewrite decide_False by apply not_elem_of_nil. }
  assert (∀ j, j ∈ infos → info_numQueues j ≠ 0 → is_Some (info_pollingInstance j)) as Hsome'.
  { intros j ?. apply Hsome. by right. }
  unfold info_instances in Hnd, Hfin |- *. cbn [omap list_omap] in *.
  fold (info_instances infos) in *.
  destruct (decide (info_numQueues i = 0)) as [Hz|Hnz].
  - assert (unregister_info fuel tm i tt = Ret tt) as ->.
    { unfold unregister_info. by rewrite (proj2 (Z.eqb_eq _ _) Hz). }
    rewrite mbind_Ret. by apply IH.
  - destruct (Hsome i ltac:(left) Hnz) as [a Ha]. rewrite Ha in *.
    assert (unregister_info fuel tm i tt = unregisterPolling fuel tm a) as ->.
    { unfold unregister_info. by rewrite (proj2 (Z.eqb_neq _ _) Hnz), Ha. }
    apply NoDup_cons in Hnd as [Hna Hnd].
    eapply wp_bind_returns; [apply wp_unregisterPolling; [apply Hfin; left|done]|].
    intros [] v1 ->. eapply wp_post_mono; [apply IH; [done|done|]|done|].
    + intros b Hb. apply finished_delete; [by intros ->|]. apply Hfin. by right.
    + intros [] v2 [Hv2 Hl]. split; [by rewrite Hv2|]. intros b. rewrite Hl. cbn.
      destruct (decide (b ∈ info_instances infos)) as [Hb|Hb].
      * rewrite decide_True; [done|by right].
      * destruct (decide (b = a)) as [->|Hba].
        -- rewrite decide_True by left. by rewrite lookup_delete_eq.
        -- rewrite lookup_delete_ne by done. rewrite decide_False; [done|].
           by intros [?|?]%elem_of_cons.
Qed.

Lemma wp_Polling_finalize fuel lib a v :
  let infos := _queuePollingInfos (l_polling lib) in
  _notificationsPollingInstance (l_polling lib) = Some a →
  NoDup (a :: info_instances infos) →
  (∀ i, i ∈ infos → info_numQueues i ≠ 0 → is_Some (info_pollingInstance i)) →
  (∀ b, b ∈ a :: info_instances infos → finished v b) → (0 < fuel)%nat →
  wp (Polling_finalize fuel lib) v (returns (λ _ v', v' = set_insts (v_insts v') v ∧
    ∀ b, v_insts v' !! b =
      if decide (b ∈ a :: info_instances infos) then None else v_insts v !! b)).
Proof.
  cbv zeta. intros Ha [Hna Hnd]%NoDup_cons Hsome Hfin Hfuel. unfold Polling_finalize. rewrite Ha.
  eapply wp_bind_returns; [apply wp_unregister_infos; [done|done| |done]|].
  - intros b Hb. apply Hfin. by right.
  - intros [] v1 [Hv1 Hi1]. eapply wp_bind_returns; [apply wp_unregisterPolling; [|done]|].
    + destruct (Hfin a ltac:(left)) as (p&Hp&Hf). exists p. split; [|done].
      by rewrite Hi1, decide_False.
    + intros [] v2 ->. split; [by rewrite Hv1|]. intros b. cbn.
      destruct (decide (b = a)) as [->|Hba].
      * rewrite decide_True by left. by rewrite lookup_delete_eq.
      * rewrite lookup_delete_ne, Hi1 by done.
        destruct (decide (b ∈ info_instances _)).
        -- rewrite decide_True; [done|by right].
        -- rewrite decide_False; [done|]. by intros [?|?]%elem_of_cons.
Qed.

Lemma wp_delete_queues n v :
  (∀ s, spsc_contents v s = []) →
  wp (delete_queues n) v (returns (λ _ v', v' = set_spsc [] 0 v)).
Proof.
  intros Hsp. unfold delete_queues. eapply (wp_bind_returns _ _ _ (λ _ v', v' = v)).
  - apply (wp_for_each _ (λ _ _ v', v' = v)); [done|].
    intros l1 s l2 [] v2 _ ->. unfold queue_dtor. wp_step as x v2 [-> ->].
    apply wp_assert; [done|]. by apply bool_decide_eq_true.
  - intros _ v2 ->. apply wp_perform; [done|]. by intros [] v3 ->.
Qed.

Lemma wp_delete_lists n v :
  wp (delete_lists (replicate n [])) v (returns (λ _ v', v' = v)).
Proof.
  apply (wp_for_each _ (λ _ _ v', v' = v)); [done|]. intros l1 l l2 [] v2 Hl ->.
  apply wp_assert; [done|]. apply bool_decide_eq_true.
  assert (l ∈ replicate n (@nil Z)) as Hin.
  { rewrite Hl. apply elem_of_app. right. left. }
  by apply elem_of_replicate in Hin as [-> _].
Qed.

(** The polling tasks have stopped and no range waits. *)
Record stopped (lib : Library) (a : Z) (v : view) : Prop := {
  st_lib : lib_ok lib;
  st_arrays : queuePollingLocks (l_env lib) = true ∧ waitingRangeQueues (l_env lib) = true ∧
    is_Some (queueGroups (l_env lib));
  st_lists : ∃ n, waitingRangeLists (l_env lib) = Some (replicate n []);
  st_notifications : _notificationsPollingInstance (l_polling lib) = Some a;
  st_NoDup : NoDup (a :: info_instances (_queuePollingInfos (l_polling lib)));
  st_infos i : i ∈ _queuePollingInfos (l_polling lib) → info_numQueues i ≠ 0 →
    is_Some (info_pollingInstance i);
  st_finished b : b ∈ a :: info_instances (_queuePollingInfos (l_polling lib)) → finished v b;
  st_queues s : spsc_contents v s = [];
}.

(** The library [lib'] is disabled; the allocator, the queues of the segments and the polling
    instances of [lib] are gone, and nothing else changed. *)
Record shut_down (lib : Library) (a : Z) (v : view) (lib' : Library) (v' : view) : Prop := {
  sd_enabled : enabled (l_env lib') = false;
  sd_arrays : queuePollingLocks (l_env lib') = false ∧ waitingRangeQueues (l_env lib') = false ∧
    waitingRangeLists (l_env lib') = None ∧ queueGroups (l_env lib') = None;
  sd_insts b : v_insts v' !! b =
    if decide (b ∈ a :: info_instances (_queuePollingInfos (l_polling lib))) then None
    else v_insts v !! b;
  sd_frame : v' = set_spsc [] 0 (set_objs ∅ (set_pool [] 0 (set_insts (v_insts v') v)));
}.

Lemma wp_Environment_finalize fuel lib a v :
  stopped lib a v → (0 < fuel)%nat →
  wp (Environment_finalize fuel lib) v (returns (shut_down lib a v)).
Proof.
  intros [[Hen Htm Hal _] (Hlk&Hwq&Hgr) [n Hls] Ha Hnd Hsome Hfin Hsp] Hfuel.
  unfold Environment_finalize. rewrite Hlk, Hwq, Hls.
  wp_assert. do 2 (wp_assert).
  do 2 (wp_assert).
  eapply wp_bind_returns; [by apply wp_Polling_finalize|]. intros p v1 [Hv1 Hi1].
  unfold Allocator_finalize. rewrite Hal.
  eapply (wp_bind_returns _ _ _ (λ al v', v' = set_objs ∅ (set_pool [] 0 v1))).
  { wp_assert. wp_step as [] v2 ->.
    apply wp_perform_bind; [done|]. by intros [] v3 ->. }
  intros al v2 ->. eapply wp_bind_returns.
  { apply wp_delete_queues. intros s. rewrite <- (Hsp s). by rewrite Hv1. }
  intros _ v2 ->. eapply wp_bind_returns; [apply wp_delete_lists|]. intros _ v2 ->.
  cbn. split; [done..| |by rewrite Hv1]. intros b. by rewrite <- Hi1.
Qed.

(** C32. [tagaspi_proc_term] once the polling tasks have stopped and no range waits: the library is
    disabled, the allocator and the queues of the segments are emptied, the polling instances are
    deleted and nothing else changes; only then GASPI is terminated, and what
    [gaspi_proc_term] returns is returned. *)
Theorem tagaspi_proc_term_spec {W} `{!Runtime W} `{!RuntimeSpec W} (w : W) fuel lib timeout a :
  stopped lib a (view_of w) → (0 < fuel)%nat →
  ∃ lib' w1 e w', run (Environment_finalize fuel lib) w = (inl lib', w1) ∧
    shut_down lib a (view_of w) lib' (view_of w1) ∧
    do_call (gaspi_proc_term timeout) w1 = Some (e, w') ∧ view_of w' = view_of w1 ∧
    run (tagaspi_proc_term fuel lib timeout) w = (inl (e, lib'), w').
Proof.
  intros Hst Hfuel.
  destruct (wp_run _ w _ (wp_Environment_finalize fuel lib a _ Hst Hfuel)) as ([lib'|f]&w1&Hr&HQ);
    [|done].
  destruct (runtime_live (gaspi_proc_term timeout) w1 I) as [[e w'] Hterm].
  exists lib', w1, e, w'. split_and!; [done|done|done|exact (runtime_ok _ _ _ _ Hterm)|].
  unfold tagaspi_proc_term. rewrite (lo_enabled _ (st_lib _ _ _ Hst)), run_bind, Hr.
  unfold perform. cbn [mbind prog_mbind prog_bind]. by rewrite (run_vis _ _ _ _ _ Hterm).
Qed.
End termination_specs.

(** ** Examples *)

Section initialization_examples.
#[local] Existing Instance sim_types.
#[local] Existing Instance release_build.

Lemma sim_host_good : host_good sim_host.
Proof.
  split; [exact sim_host_ok|by exists 0|by vm_compute|by vm_compute|by vm_compute].
Qed.

Lemma tagaspi_proc_init_spec_witness :
  ∃ r w', run (tagaspi_proc_init Library_static GASPI_BLOCK) sim0 = (r, w') ∧
    post init_fault (λ x v', x.1 = GASPI_SUCCESS → initialised sim_host (x.2) v') r (view_of w').
Proof.
  destruct (tagaspi_proc_init_spec (BC := release_build) (GT := sim_types) sim0 GASPI_BLOCK)
    as (r&w'&Hr&HQ); [done|exact sim_host_good|done|]. exists r, w'. split; [exact Hr|]. destruct r as [x|f]; [|exact HQ].
  destruct HQ as [(_&Hi&_)|[Hn _]]; intros Hs; [exact Hi|destruct (Hn Hs)].
Defined.

(** [sim_lib] with both of its polling tasks completed. *)
Definition sim_stopping : Sim :=
  on_view (set_insts {[ 0 := mkPollingInstance "TAGASPI QUEUES 0" (pollQueues_fn 0) true true;
                        1 := mkPollingInstance "TAGASPI NOTIFICATIONS" pollNotifications_fn
                               true true ]}) sim0.

Lemma tagaspi_proc_term_spec_witness :
  ∃ lib' w', run (tagaspi_proc_term 1 sim_lib GASPI_BLOCK) sim_stopping =
      (inl (GASPI_SUCCESS, lib'), w') ∧ enabled (l_env lib') = false.
Proof.
  destruct (tagaspi_proc_term_spec sim_stopping 1 sim_lib GASPI_BLOCK 1)
    as (lib'&w1&e&w'&_&Hd&Ht&_&Hr); [|lia|].
  2: { exists lib', w'. rewrite Hr. split; [|apply (sd_enabled _ _ _ _ _ Hd)].
       by injection Ht as <- <-. }
  split.
  - exact sim_lib_ok.
  - split; [done|]. split; [done|]. by eexists.
  - by exists 2%nat.
  - done.
  - apply (bool_decide_unpack (NoDup [1; 0])). by vm_compute.
  - intros i ->%list_elem_of_singleton _. by eexists.
  - intros b [->|[->|[]%elem_of_nil]%elem_of_cons]%elem_of_cons; by eexists.
  - done.
Defined.
End initialization_examples.
