(* ===== verification/Termination.v ===== *)
(** Functions of the API that end after a bounded number of calls, whatever the calls return and
    whatever the other threads do meanwhile. *)

From S2P Require Import Prelude Types Interface Contract Sim ErrorHandler HardwareInfo TaskingModel QueueGroup WaitingRange Environment Operations QueueGroups.
Open Scope Z_scope.

(** [p] after [n] calls, each with any answer of its type, is [p']. *)
Inductive after_calls {A} : nat → prog A → prog A → Prop :=
  | after_none p : after_calls 0 p p
  | after_call {X} n (c : call X) k x p : after_calls n (k x) p → after_calls (S n) (Vis c k) p.

(** [p] makes at most [n] calls, and the fuel of its loops is enough. *)
Fixpoint ends_within {A} (n : nat) (p : prog A) {struct p} : Prop :=
  match p with
  | Ret _ => True
  | Fault f => f ≠ OutOfFuel
  | Vis _ k => match n with O => False | S n => ∀ x, ends_within n (k x) end
  end.

Lemma ends_within_mono {A} n m (p : prog A) : (n ≤ m)%nat → ends_within n p → ends_within m p.
Proof.
  revert n m. induction p as [a|f|X c k IH]; intros n m Hnm Hk; [exact Hk..|].
  destruct n as [|n]; [destruct Hk|]. destruct m as [|m]; [lia|].
  intros x. apply (IH x n); [lia|apply Hk].
Qed.

Lemma ends_within_bind {A B} n m (p : prog A) (k : A → prog B) :
  ends_within n p → (∀ a, ends_within m (k a)) → ends_within (n + m) (p ≫= k).
Proof.
  revert n. induction p as [a|f|X c k' IH]; intros n Hp Hk; simpl in *.
  - apply (ends_within_mono m); [lia|apply Hk].
  - done.
  - destruct n as [|n]; [done|]. intros x. by apply IH.
Qed.

(** For binds whose first part makes no more calls than the bound says. *)
Lemma ends_within_then {A B} n m t (p : prog A) (k : A → prog B) :
  ends_within n p → (n + m ≤ t)%nat → (∀ a, ends_within m (k a)) → ends_within t (p ≫= k).
Proof. intros Hp Ht Hk. eapply ends_within_mono; [exact Ht|by apply ends_within_bind]. Qed.

Lemma ends_within_after {A} n m (p p' : prog A) :
  ends_within n p → after_calls m p p' → (m ≤ n)%nat ∧ p' ≠ Fault OutOfFuel.
Proof.
  intros Hp Ha. revert n Hp. induction Ha as [p|X m c k x p Ha IH]; intros n Hp.
  - split; [lia|]. intros ->. by destruct n.
  - destruct n as [|n]; [by destruct Hp|]. destruct (IH n (Hp x)). split; [lia|done].
Qed.

Section bounds.
Context `{BC : BuildConfig} `{GT : GaspiTypes}.

Lemma ends_perform {X} (c : call X) : ends_within 1 (perform c).
Proof. done. Qed.

Lemma ends_assert s b : ends_within 0 (assert s b).
Proof. unfold assert. by repeat case_match. Qed.

Lemma ends_sym_call {X} s (c : call X) : ends_within 1 (sym_call s c).
Proof.
  unfold sym_call. apply (ends_within_then 0 1); [apply ends_assert|done|]. intros _.
  by case_match.
Qed.

Lemma ends_fail {A} parts : ends_within 3 (fail (A := A) parts).
Proof. unfold fail. repeat (simpl; intros). by destruct NDEBUG. Qed.

(** A failure asks for its message and prints it. *)
Lemma ends_fail_if_error tm what err : ends_within 4 (fail_if_error tm what err).
Proof.
  unfold fail_if_error. case_decide; [done|].
  apply (ends_within_then 1 3); [apply ends_sym_call|done|]. intros s. apply ends_fail.
Qed.

Lemma ends_vec_get {E} (l : list E) i : ends_within 0 (vec_get l i).
Proof. unfold vec_get. by repeat case_match. Qed.

Lemma ends_vec_set {E} (l : list E) i x : ends_within 0 (vec_set l i x).
Proof. unfold vec_set. by repeat case_match. Qed.

Lemma ends_getCurrentTask tm : ends_within 5 (getCurrentTask tm).
Proof.
  apply (ends_within_then 1 4); [apply ends_sym_call|done|]. intros r.
  apply (ends_within_then 4 0); [apply ends_fail_if_error|done|done].
Qed.

Lemma ends_increase tm t n : ends_within 5 (increaseCurrentTaskEvents tm t n).
Proof.
  apply (ends_within_then 1 4); [apply ends_sym_call|done|]. intros r. apply ends_fail_if_error.
Qed.

Lemma ends_decrease tm t n : ends_within 5 (decreaseTaskEvents tm t n).
Proof.
  apply (ends_within_then 1 4); [apply ends_sym_call|done|]. intros r. apply ends_fail_if_error.
Qed.

Lemma ends_print_abort {A} n message : (1 ≤ n)%nat → ends_within n (print_abort (A := A) message).
Proof. intros Hn. by apply (ends_within_mono 1). Qed.

Lemma ends_store_user o x : ends_within 1 (store_value (user_pointer o) x).
Proof. by destruct o. Qed.

(** A check makes three calls per notification: to find it, to reset it, to store its value. *)
Lemma ends_check_loop fuel s f n vs rem :
  0 < rem < 2 ^ number_bits → Z.to_nat rem = fuel →
  ends_within (3 * fuel) (check_loop fuel s f n vs rem).
Proof.
  revert rem. induction fuel as [|fuel IH]; intros rem Hr Hf; [lia|].
  cbn [check_loop]. apply (ends_within_then 1 (2 + 3 * fuel)); [apply ends_perform|lia|].
  intros [[] i]; cbn [fst snd]; [|done|apply ends_print_abort; lia..].
  apply (ends_within_then 0 (2 + 3 * fuel)); [apply ends_assert|lia|]. intros _.
  apply (ends_within_then 1 (1 + 3 * fuel)); [apply ends_perform|lia|].
  intros [e x]. cbn [fst snd]. case_decide; [apply ends_print_abort; lia|]. case_decide; [|done].
  apply (ends_within_then 1 (3 * fuel)); [apply ends_store_user|lia|].
  intros _. cbv zeta. rewrite number_small by lia.
  destruct (Z.ltb_spec 0 (rem - 1)); [|done]. apply IH; lia.
Qed.

Lemma ends_submit tm t n (submit : call gaspi_return_t) :
  ends_within 11 (increaseCurrentTaskEvents tm t n;;
      eret ← perform submit;
      assert "eret != GASPI_TIMEOUT" (bool_decide (eret ≠ GASPI_TIMEOUT));;
      (if decide (eret ≠ GASPI_SUCCESS) then decreaseTaskEvents tm t n else Ret tt);;
      Ret eret).
Proof.
  apply (ends_within_then 5 6); [apply ends_increase|done|]. intros _.
  apply (ends_within_then 1 5); [apply ends_perform|done|]. intros e.
  apply (ends_within_then 0 5); [apply ends_assert|done|]. intros _.
  apply (ends_within_then 5 0); [|done|done]. case_decide; [apply ends_decrease|done].
Qed.

Lemma ends_operation lib o : ends_within 17 (run_operation lib o).
Proof.
  destruct o; unfold run_operation, tagaspi_read, tagaspi_write, tagaspi_notify,
    tagaspi_write_notify, tagaspi_read_list, tagaspi_write_list, tagaspi_write_list_notify,
    env_numRequests;
  (apply (ends_within_then 0 17); [apply ends_assert|done|]; intros _);
  (apply (ends_within_then 5 12); [apply ends_getCurrentTask|done|]; intros t);
  (apply (ends_within_then 0 12); [apply ends_assert|done|]; intros _); cbv zeta.
  1-4: apply (ends_within_then 0 12); [apply ends_vec_get|done|]; intros n.
  5-7: apply (ends_within_then 1 11); [apply ends_perform|done|]; intros r;
       apply (ends_within_then 0 11); [apply ends_assert|done|]; intros _.
  all: eapply ends_within_then; [apply ends_assert| |intros _; apply ends_submit]; lia.
Qed.

Lemma ends_get_queue lib id : ends_within 1 (tagaspi_queue_group_get_queue lib id).
Proof.
  unfold tagaspi_queue_group_get_queue, get_group, set_group.
  apply (ends_within_then 0 1); [apply ends_assert|done|]. intros _.
  apply (ends_within_then 0 1); [case_match; [apply ends_vec_get|done]|done|]. intros [g|]; [|done].
  apply (ends_within_then 1 0); [|done|].
  - unfold getQueue, getCurrentCPU. case_match; [|done].
    case_match; [by repeat case_match|..];
      (apply (ends_within_then 1 0); [|done|]; [|intros c; case_match; try done;
         apply (ends_within_then 0 0); [apply ends_vec_get|done|done]]);
      (apply (ends_within_then 1 0); [apply ends_perform|done|]; intros c;
       apply (ends_within_then 0 0); [apply ends_assert|done|done]).
  - intros r. apply (ends_within_then 0 0); [|done|done]. case_match; [|done].
    apply (ends_within_then 0 0); [apply ends_vec_set|done|done].
Qed.
End bounds.

(** ** Properties *)

(** C23. The seven operations, asking a group for a queue and checking notifications end in every
    interleaving: after at most 17 calls, one call, and three calls for each notification awaited,
    they have returned or ended the process, whatever the calls return; no loop of them needs
    more fuel than the model gives it. *)
Theorem calls_bounded `{BC : BuildConfig} `{GT : GaspiTypes} lib :
  (∀ o n p, after_calls n (run_operation lib o) p → (n ≤ 17)%nat ∧ p ≠ Fault OutOfFuel) ∧
  (∀ id n p, after_calls n (tagaspi_queue_group_get_queue lib id) p →
     (n ≤ 1)%nat ∧ p ≠ Fault OutOfFuel) ∧
  (∀ s f num vs rem n p, 0 < rem < 2 ^ number_bits →
     after_calls n (checkNotifications s f num vs rem) p →
     Z.of_nat n ≤ 3 * rem ∧ p ≠ Fault OutOfFuel).
Proof.
  split_and!.
  - intros o n p. apply ends_within_after, ends_operation.
  - intros id n p. apply ends_within_after, ends_get_queue.
  - intros s f num vs rem n p Hr Ha.
    destruct (ends_within_after (3 * Z.to_nat rem) n (checkNotifications s f num vs rem) p);
      [|done|split; [lia|done]].
    unfold checkNotifications. rewrite number_small by lia.
    apply (ends_within_then 0 (3 * Z.to_nat rem)); [apply ends_assert|lia|]. intros _.
    apply (ends_within_then 0 (3 * Z.to_nat rem)); [apply ends_assert|lia|]. intros _.
    replace (S (Z.to_nat (rem - 1))) with (Z.to_nat rem) by lia. by apply ends_check_loop.
Qed.

(** ** Examples *)

Section termination_examples.
#[local] Existing Instance sim_types.
#[local] Existing Instance release_build.

(** Waiting for two notifications that have arrived takes six calls. *)
Lemma six_calls : after_calls 6 (checkNotifications 0 0 2 (Some 100) 2) (Ret 0).
Proof.
  do 2 (apply (after_call _ _ _ (GASPI_SUCCESS, 1)), (after_call _ _ _ (GASPI_SUCCESS, 5)),
    (after_call _ _ _ tt)). constructor.
Qed.

Lemma calls_bounded_witness :
  after_calls 6 (checkNotifications 0 0 2 (Some 100) 2) (Ret 0) ∧ Z.of_nat 6 ≤ 3 * 2.
Proof.
  split; [exact six_calls|]. destruct (calls_bounded sim_lib) as (_&_&H).
  by destruct (H 0 0 2 (Some 100) 2 6%nat _ ltac:(done) six_calls).
Defined.
End termination_examples.
