(* ===== verification/Concurrency.v ===== *)
(** Programs running concurrently: the interleavings of the calls of a pool of threads, what a
    thread may do at each call, and a program logic on Iris's base logic for proving that every
    interleaving stays within it. *)

From iris.proofmode Require Import proofmode.
From iris.base_logic.lib Require Import iprop.
From S2P Require Import Prelude Types Interface Contract.
Open Scope Z_scope.

(** ** Interleavings *)

Section pool.
Context `{GT : GaspiTypes}.

(** Every call is one atomic step. A thread that waits for a lock has no step. *)
Definition prog_step {A} (p : prog A) (v : view) (p' : prog A) (v' : view) : Prop :=
  match p with
  | Vis c k => ∃ x, call_spec c v x v' ∧ p' = k x
  | _ => False
  end.

(** A step of a thread, or of the network: the remote ranks write notifications at any time. *)
Inductive pool_step {A} : list (prog A) * view → list (prog A) * view → Prop :=
  | thread_step ts i p p' v v' :
      ts !! i = Some p → prog_step p v p' v' →
      pool_step (ts, v) (<[i := p']> ts, v')
  | network_step ts v n : pool_step (ts, v) (ts, set_notif n v).

(** What a call asks of the state it is made in:
    - taking events from a task that has them;
    - giving back an object that is not free already, using one only when it is not free;
    - pushing in the queue of a segment with the lock of the queue held, and releasing held locks;
    - using polling instances that exist. *)
Definition permitted {X} (c : call X) (v : view) : Prop :=
  match c with
  | alpi_task_events_decrease t n => n ≤ events v t
  | queue_push p => p ∉ v_pool v
  | wr_construct p _ _ _ _ _ _ | wr_load p | wr_store p _ =>
      p ∉ v_pool v ∧ is_Some (v_objs v !! p)
  | spsc_push s _ => waitingRangeQueueLock s ∈ v_held v
  | lock_release l => l ∈ v_held v
  | pi_load i | pi_set_mustFinish i | pi_set_finished i | pi_delete i =>
      is_Some (v_insts v !! i)
  | _ => True
  end.

(** A thread has returned, was ended by one of the given faults, or is about to make a call that
    is permitted. *)
Definition safe {A} (F : fault → Prop) (v : view) (p : prog A) : Prop :=
  match p with
  | Ret _ => True
  | Fault f => F f
  | Vis c _ => permitted c v
  end.

Definition returned {A} (p : prog A) : Prop := ∃ a, p = Ret a.
Definition running {A} (p : prog A) : Prop :=
  match p with Vis _ _ => True | _ => False end.
(** Executing a schedule on a runtime: each number is the thread that makes its next call, if it
    can. *)
Fixpoint run_schedule {A W} `{!Runtime W} (l : list nat) (ts : list (prog A)) (w : W) :
    list (prog A) * W :=
  match l with
  | [] => (ts, w)
  | i :: l =>
      match ts !! i with
      | Some (Vis c k) =>
          match do_call c w with
          | Some (x, w') => run_schedule l (<[i := k x]> ts) w'
          | None => run_schedule l ts w
          end
      | _ => run_schedule l ts w
      end
  end.

(** What a schedule gives is an interleaving. *)
Lemma run_schedule_steps {A W} `{!Runtime W} `{!RuntimeSpec W} l (ts : list (prog A)) (w : W) :
  rtc pool_step (ts, view_of w)
    ((run_schedule l ts w).1, view_of (run_schedule l ts w).2).
Proof.
  revert ts w. induction l as [|i l IH]; intros ts w; simpl; [done|].
  destruct (ts !! i) as [[a|f|X c k]|] eqn:Hi; try apply IH.
  destruct (do_call c w) as [[x w']|] eqn:Hc; [|apply IH].
  eapply rtc_l; [|apply IH]. eapply thread_step; [exact Hi|].
  exists x. split; [by eapply runtime_ok|done].
Qed.
End pool.

(** ** The logic *)

Section logic.
Context `{GT : GaspiTypes} {Σ : gFunctors}.

(** [SI v] owns what corresponds to the view; [F] are the faults a thread may end with. *)
Context (SI : view → iProp Σ) (F : fault → Prop).
Context (SI_notif : ∀ n v, SI v ⊢ SI (set_notif n v)).

(** The thread runs to [Q] or one of the faults, each of its calls being permitted and turning the
    ownership of the view before it into that of the view after it, in whatever view the other
    threads left. Until it returns, the thread owns [R]. *)
Fixpoint iwp {A} (R : iProp Σ) (p : prog A) (Q : A → iProp Σ) : iProp Σ :=
  |==> match p with
       | Ret a => Q a
       | Fault f => ⌜F f⌝
       | Vis c k =>
           R ∗ (R -∗ ∀ v, SI v -∗
             ⌜permitted c v⌝ ∧
             ∀ x v', ⌜call_spec c v x v'⌝ ==∗ SI v' ∗ iwp R (k x) Q)
       end%I.

Lemma iwp_bupd {A} R (p : prog A) Q : (|==> iwp R p Q) ⊢ iwp R p Q.
Proof. iIntros "Hp". destruct p; simpl; by iMod "Hp". Qed.

#[global] Instance elim_modal_iwp {A} b P R (p : prog A) Q :
  ElimModal True b false (|==> P) P (iwp R p Q) (iwp R p Q).
Proof.
  rewrite /ElimModal bi.intuitionistically_if_elim. iIntros (_) "[HP Hw]".
  iApply iwp_bupd. iMod "HP". iModIntro. by iApply "Hw".
Qed.

Lemma iwp_ret {A} R (a : A) Q : Q a ⊢ iwp R (Ret a) Q.
Proof. by iIntros "$". Qed.

Lemma iwp_fault {A} R f (Q : A → iProp Σ) : F f → ⊢ iwp R (Fault f) Q.
Proof. iIntros (Hf) "!>". done. Qed.

Lemma iwp_mono {A} R (p : prog A) Q Q' :
  iwp R p Q -∗ (∀ a, Q a ==∗ Q' a) -∗ iwp R p Q'.
Proof.
  iIntros "Hp HQ". iInduction p as [a|f|X c k] "IH" forall (Q Q'); simpl; iMod "Hp".
  - by iApply "HQ".
  - done.
  - iDestruct "Hp" as "[$ Hp]". iIntros "!> R" (v) "S".
    iDestruct ("Hp" with "R S") as "Hp". iSplit; [by iDestruct "Hp" as "[? _]"|].
    iIntros (x v') "Hx". iMod ("Hp" with "Hx") as "[$ Hk]". iModIntro.
    by iApply ("IH" with "Hk").
Qed.

Lemma iwp_bind {A B} R (p : prog A) (k : A → prog B) Q :
  iwp R p (λ a, iwp R (k a) Q) ⊢ iwp R (p ≫= k) Q.
Proof.
  iIntros "Hp". iInduction p as [a|f|X c k'] "IH"; simpl; iMod "Hp".
  - done.
  - by iModIntro.
  - iDestruct "Hp" as "[$ Hp]". iIntros "!> R" (v) "S".
    iDestruct ("Hp" with "R S") as "Hp". iSplit; [by iDestruct "Hp" as "[? _]"|].
    iIntros (x v') "Hx". iMod ("Hp" with "Hx") as "[$ Hk]". iModIntro.
    by iApply ("IH" with "Hk").
Qed.

(** A thread can show that it owns [R] all along when it does not need it. *)
Lemma iwp_hold {A} R (p : prog A) Q :
  R -∗ iwp True p (λ a, R -∗ Q a) -∗ iwp R p Q.
Proof.
  iIntros "R Hp". iInduction p as [a|f|X c k'] "IH"; simpl; iMod "Hp".
  - iModIntro. by iApply "Hp".
  - done.
  - iDestruct "Hp" as "[_ Hp]". iFrame "R". iIntros "!> R" (v) "S".
    iDestruct ("Hp" with "[//] S") as "Hp". iSplit; [by iDestruct "Hp" as "[? _]"|].
    iIntros (x v') "Hx". iMod ("Hp" with "Hx") as "[$ Hk]". iModIntro.
    by iApply ("IH" with "R Hk").
Qed.

(** A call that uses what the thread holds. *)
Lemma iwp_once {X} R (c : call X) Q :
  R -∗ (R -∗ iwp True (perform c) Q) -∗ iwp R (perform c) Q.
Proof.
  iIntros "R H !>". iFrame "R". iIntros "R" (v) "S". iSpecialize ("H" with "R"). iSplit.
  - iApply bupd_elim. iMod "H" as "[_ H]". iDestruct ("H" with "[//] S") as "[% _]".
    by iModIntro.
  - iIntros (x v' Hx). iMod "H" as "[_ H]". iDestruct ("H" with "[//] S") as "[_ H]".
    iMod ("H" with "[//]") as "[$ $]". done.
Qed.

(** The rule of a call. *)
Lemma iwp_call {X B} (c : call X) (k : X → prog B) Q :
  (∀ v, SI v -∗ ⌜permitted c v⌝ ∧
     ∀ x v', ⌜call_spec c v x v'⌝ ==∗ SI v' ∗ iwp True (k x) Q) ⊢
  iwp True (perform c ≫= k) Q.
Proof. iIntros "H". simpl. iModIntro. iSplit; [done|]. by iIntros "_". Qed.

(** A call whose effect is on what no thread owns. *)
Lemma iwp_call_pure {X B} (c : call X) (k : X → prog B) (P : X → Prop) Q :
  (∀ v, permitted c v) →
  (∀ v x v', call_spec c v x v' → P x ∧ (SI v ⊢ SI v')) →
  (∀ x, ⌜P x⌝ -∗ iwp True (k x) Q) ⊢ iwp True (perform c ≫= k) Q.
Proof.
  iIntros (Hp Hc) "Hk". iApply iwp_call. iIntros (v) "S". iSplit; [done|].
  iIntros (x v' Hx). destruct (Hc _ _ _ Hx) as [HP HS]. rewrite (HS). iFrame "S".
  iModIntro. by iApply "Hk".
Qed.

Lemma iwp_assert `{BC : BuildConfig} {B} cond b (k : unit → prog B) R Q :
  b = true → iwp R (k tt) Q ⊢ iwp R (assert cond b ≫= k) Q.
Proof. intros ->. rewrite /assert. by destruct NDEBUG. Qed.

(** The rule of [for_each], by an invariant of the elements that are left. *)
Lemma iwp_for_each {E S} R (l : list E) (body : E → S → prog S) s
    (Inv : list E → S → iProp Σ) :
  Inv l s -∗
  □ (∀ x l s, Inv (x :: l) s -∗ iwp R (body x s) (Inv l)) -∗
  iwp R (for_each l body s) (Inv []).
Proof.
  iIntros "HI #Hbody". iInduction l as [|x l] "IH" forall (s); simpl; [by iModIntro|].
  iApply iwp_bind. iApply (iwp_mono with "[HI]"); [by iApply "Hbody"|].
  iIntros (s') "HI !>". by iApply "IH".
Qed.

(** ** Adequacy *)

(** The threads of a pool, each with what it holds and where it goes. *)
Definition pool_owned {A} (ts : list (prog A)) (Rs : nat → iProp Σ) (Qs : nat → A → iProp Σ) :
    iProp Σ :=
  [∗ list] i ↦ p ∈ ts, iwp (Rs i) p (Qs i).

Lemma iwp_prog_step {A} R (p p' : prog A) v v' Q :
  prog_step p v p' v' → SI v -∗ iwp R p Q ==∗ SI v' ∗ iwp R p' Q.
Proof.
  destruct p as [a|f|X c k]; simpl; [done..|]. intros (x&Hx&->). iIntros "S Hp".
  iMod "Hp" as "[R Hp]". iDestruct ("Hp" with "R S") as "[_ Hp]". by iApply "Hp".
Qed.

Lemma pool_owned_step {A} (ts ts' : list (prog A)) v v' Rs Qs :
  pool_step (ts, v) (ts', v') →
  SI v -∗ pool_owned ts Rs Qs ==∗ SI v' ∗ pool_owned ts' Rs Qs.
Proof.
  iIntros (Hs) "S Hts". inversion Hs as [????? v1 Hi Hp|]; simplify_eq.
  - iDestruct (big_sepL_insert_acc with "Hts") as "[Hp Hts]"; [exact Hi|].
    iMod (iwp_prog_step with "S Hp") as "[$ Hp]"; [done|]. iModIntro. by iApply "Hts".
  - iModIntro. rewrite (SI_notif _ v). iFrame.
Qed.

Lemma pool_owned_steps {A} (c c' : list (prog A) * view) Rs Qs :
  rtc pool_step c c' →
  SI c.2 -∗ pool_owned c.1 Rs Qs ==∗ SI c'.2 ∗ pool_owned c'.1 Rs Qs.
Proof.
  induction 1 as [c|[ts v] [ts1 v1] c' Hs _ IH]; iIntros "S Hts"; [by iFrame|].
  iMod (pool_owned_step with "S Hts") as "[S Hts]"; [done|]. by iApply (IH with "S").
Qed.

(** What the logic says of a reachable pool. *)
Lemma pool_adequacy {A} (c c' : list (prog A) * view) Rs Qs (φ : Prop) :
  rtc pool_step c c' →
  (SI c'.2 -∗ pool_owned c'.1 Rs Qs -∗ ⌜φ⌝) →
  SI c.2 -∗ pool_owned c.1 Rs Qs -∗ ⌜φ⌝.
Proof.
  iIntros (Hs Hφ) "S Hts". iApply bupd_elim.
  iMod (pool_owned_steps with "S Hts") as "[S Hts]"; [done|]. iModIntro.
  by iApply (Hφ with "S").
Qed.

Lemma iwp_safe {A} R (p : prog A) v Q : SI v -∗ iwp R p Q -∗ ⌜safe F v p⌝.
Proof.
  iIntros "S Hp". iApply bupd_elim.
  destruct p as [a|f|X c k]; simpl; iMod "Hp"; [done..|].
  iDestruct "Hp" as "[R Hp]". iDestruct ("Hp" with "R S") as "[% _]". by iModIntro.
Qed.

Lemma pool_owned_safe {A} (ts : list (prog A)) v Rs Qs :
  SI v -∗ pool_owned ts Rs Qs -∗ ⌜Forall (safe F v) ts⌝.
Proof.
  iIntros "S Hts". rewrite Forall_lookup. iIntros (i p Hi).
  iDestruct (big_sepL_lookup with "Hts") as "Hp"; [done|]. by iApply (iwp_safe with "S").
Qed.
End logic.

#[global] Arguments iwp : simpl never.
