(* ===== verification/Ownership.v ===== *)
(** Who owns what while the library runs concurrently: the events of the tasks, the objects of the
    allocator, the locks and the polling instances, as ghost state tied to the view; and what each
    call needs and gives. *)

From iris.proofmode Require Import proofmode.
From iris.base_logic.lib Require Import ghost_map.
From S2P Require Import Prelude Types Interface Contract TaskingModel Allocator WaitingRange Polling Concurrency.
Open Scope Z_scope.

(** ** Ghost state *)

#[global] Instance lock_id_countable : Countable lock_id.
Proof.
  refine (inj_countable'
    (λ l, match l with
          | queueGroupsLock => inl false
          | errorHandlerLock => inl true
          | waitingRangeQueueLock s => inr s
          end)
    (λ x, match x with
          | inl false => queueGroupsLock
          | inl true => errorHandlerLock
          | inr s => waitingRangeQueueLock s
          end) _).
  by intros [].
Defined.

(** Where the owner of a polling instance is: registered, seen finished, deleted. *)
Variant inst_state := Registered | Stopped | Deleted.

Class ownG (Σ : gFunctors) := {
  ownG_objs :: ghost_mapG Σ Z WaitingRange;
  ownG_locks :: ghost_mapG Σ lock_id unit;
  ownG_held :: ghost_mapG Σ nat (list Z);
  ownG_owner :: ghost_mapG Σ Z inst_state;
  ownG_poller :: ghost_mapG Σ Z unit;
}.

Definition ownΣ : gFunctors :=
  #[ghost_mapΣ Z WaitingRange; ghost_mapΣ lock_id unit; ghost_mapΣ nat (list Z);
    ghost_mapΣ Z inst_state; ghost_mapΣ Z unit].

#[global] Instance subG_ownΣ Σ : subG ownΣ Σ → ownG Σ.
Proof. solve_inG. Qed.

Record names := Names {
  n_objs : gname; n_locks : gname; n_held : gname; n_owner : gname; n_poller : gname;
}.

(** The tasks for whose events somebody answers, [H] being what each thread holds. *)
Definition all_held (H : gmap nat (list Z)) : list Z := concat (map_to_list H).*2.

Lemma all_held_insert H i m m' :
  H !! i = Some m → all_held (<[i := m']> H) ++ m ≡ₚ all_held H ++ m'.
Proof.
  intros Hi. rewrite /all_held.
  rewrite -(insert_delete_eq H i m') map_to_list_insert ?lookup_delete_eq //.
  rewrite -{2}(insert_id H i m Hi) -(insert_delete_eq H i m) map_to_list_insert
    ?lookup_delete_eq //=.
  rewrite (Permutation_app_comm (m' ++ _) m) -(assoc app m).
  apply Permutation_app_head, Permutation_app_comm.
Qed.

Lemma all_held_total (H : gmap nat (list Z)) (ms : list (list Z)) :
  (∀ i, is_Some (H !! i) ↔ (i < length ms)%nat) →
  (∀ i m, ms !! i = Some m → ∃ m', H !! i = Some m' ∧ m' ≡ₚ m) →
  all_held H ≡ₚ concat ms.
Proof.
  revert H. induction ms as [|m ms IH] using rev_ind; intros H Hd Hm.
  - assert (H = ∅) as ->; [|done]. apply map_empty. intros i. apply eq_None_not_Some.
    rewrite Hd /=. lia.
  - destruct (Hm (length ms) m) as (m'&Hi&Hp); [by apply list_lookup_middle|].
    rewrite concat_app /= app_nil_r -(insert_id H (length ms) m' Hi) -insert_delete_eq.
    rewrite /all_held map_to_list_insert ?lookup_delete_eq //= Hp Permutation_app_comm.
    f_equiv. apply IH.
    + intros i. rewrite lookup_delete_is_Some Hd length_app /=. lia.
    + intros i m1 Hi1. pose proof (lookup_lt_Some _ _ _ Hi1).
      destruct (Hm i m1) as (m2&?&?); [by apply lookup_app_l_Some|]. exists m2.
      split; [|done]. rewrite lookup_delete_ne //. lia.
Qed.

Section ownership.
Context `{BC : BuildConfig} `{GT : GaspiTypes} `{!ownG Σ}.

(** [base]: the events the tasks have from others; [fns]: the function of each instance;
    [threads]: how many threads there are. *)
Context (γ : names) (threads : nat) (base : Z → Z) (fns : gmap Z polling_function_t).

(** Slot [p] of the allocator, in use, holds [r]. *)
Definition slot (p : Z) (r : WaitingRange) : iProp Σ :=
  p ↪[n_objs γ] r ∗ ⌜0 ≤ p < NumEntries⌝.

Definition locked (l : lock_id) : iProp Σ := l ↪[n_locks γ] tt.

(** Thread [i] answers for one event of each task of [m]. *)
Definition ledger (i : nat) (m : list Z) : iProp Σ := ∃ m', ⌜m' ≡ₚ m⌝ ∗ i ↪[n_held γ] m'.

(** The task of a polling instance, and who registered it. *)
Definition poller (a : Z) : iProp Σ := a ↪[n_poller γ] tt.
Definition owner (a : Z) (s : inst_state) : iProp Σ := a ↪[n_owner γ] s.

(** Every event beyond [base] is that of an outstanding request, of a range in the queues, or one
    a thread answers for. *)
Definition accounts (v_events : gmap Z Z) (outstanding tasks : list Z)
    (H : gmap nat (list Z)) : Prop :=
  ∀ t, t ≠ GASPI_TAG_NULL →
    default 0 (v_events !! t) = base t + count t (outstanding ++ tasks ++ all_held H).

Definition SI_events (ev : gmap Z Z) (outstanding tasks : list Z) : iProp Σ :=
  ∃ H, ghost_map_auth (n_held γ) 1 H ∗ ⌜∀ i, is_Some (H !! i) ↔ (i < threads)%nat⌝ ∗
    ⌜accounts ev outstanding tasks H⌝ ∗ ⌜tags_ok outstanding⌝.

Definition SI_objs (objs : gmap Z WaitingRange) (pool : list Z) (capacity : Z) : iProp Σ :=
  ghost_map_auth (n_objs γ) 1 objs ∗ ([∗ list] p ∈ pool, ∃ r, slot p r) ∗
  ⌜capacity = NumEntries⌝ ∗ ⌜∀ p, 0 ≤ p < NumEntries → is_Some (objs !! p)⌝.

(** A range that waits: for some of its notifications, on behalf of a task. *)
Definition queued (r : WaitingRange) : Prop := range_ok r ∧ _task r ≠ GASPI_TAG_NULL.

Definition SI_queues (spsc : list (Z * Z)) (rs : list WaitingRange) : iProp Σ :=
  [∗ list] e;r ∈ spsc;rs, slot e.2 r ∗ ⌜queued r⌝.

Definition SI_locks (held : list lock_id) : iProp Σ :=
  ∃ L, ghost_map_auth (n_locks γ) 1 L ∗ ⌜∀ l, l ∈ held ↔ is_Some (L !! l)⌝.

(** A registered instance that has finished left its task's token here. *)
Definition inst_res (st : gmap Z inst_state) (a : Z) (p : PollingInstance) : iProp Σ :=
  ∃ s, ⌜st !! a = Some s⌝ ∗
    match s with
    | Registered => if _finished p then poller a else emp
    | Stopped => ⌜_finished p = true⌝
    | Deleted => False
    end.

Definition SI_insts (insts : gmap Z PollingInstance) : iProp Σ :=
  ∃ st pm, ghost_map_auth (n_owner γ) 1 st ∗ ghost_map_auth (n_poller γ) 1 pm ∗
    ⌜dom pm = dom insts⌝ ∗ ⌜∀ a, st !! a = Some Deleted → insts !! a = None⌝ ∗
    ⌜∀ a, is_Some (st !! a) → st !! a ≠ Some Deleted → is_Some (insts !! a)⌝ ∗
    ⌜∀ a p, insts !! a = Some p → fns !! a = Some (_function p)⌝ ∗
    [∗ map] a ↦ p ∈ insts, inst_res st a p.

Definition SI (v : view) : iProp Σ :=
  ∃ rs, SI_events (v_events v) (v_outstanding v) (_task <$> rs) ∗
    SI_objs (v_objs v) (v_pool v) (v_pool_capacity v) ∗
    SI_queues (v_spsc v) rs ∗ SI_locks (v_held v) ∗ SI_insts (v_insts v).

Lemma SI_notif n v : SI v ⊢ SI (set_notif n v).
Proof. done. Qed.

(** How a thread of the library may end other than by returning. *)
Definition sys_fault (f : fault) : Prop := f = Aborted ∨ f = alpi_fault ∨ f = OutOfFuel.

Abbreviation wp_ := (iwp SI sys_fault True).

Lemma wp_then {A B} (p : prog A) (k : A → prog B) P Q :
  wp_ p P -∗ (∀ a, P a -∗ wp_ (k a) Q) -∗ wp_ (p ≫= k) Q.
Proof.
  iIntros "Hp Hk". iApply iwp_bind. iApply (iwp_mono with "Hp").
  iIntros (a) "P !>". by iApply "Hk".
Qed.

(** A single call, as the last of a program. *)
Lemma wp_one {X} (c : call X) P :
  (∀ v, SI v -∗ ⌜permitted c v⌝ ∧ ∀ x v', ⌜call_spec c v x v'⌝ ==∗ SI v' ∗ P x) ⊢
  wp_ (perform c) P.
Proof.
  iIntros "H". iModIntro. iSplit; [done|]. iIntros "_" (v) "S".
  iDestruct ("H" with "S") as "H". iSplit; [by iDestruct "H" as "[? _]"|].
  iIntros (x v' Hx). iMod ("H" with "[//]") as "[$ $]". done.
Qed.

(** A call whose effect is on what no thread owns. *)
Lemma wp_untracked {X} (c : call X) (P : X → Prop) :
  (∀ v, permitted c v) →
  (∀ v x v', call_spec c v x v' → P x ∧ (SI v ⊢ SI v')) →
  ⊢ wp_ (perform c) (λ x, ⌜P x⌝).
Proof.
  iIntros (Hp Hc). iApply wp_one. iIntros (v) "S". iSplit; [done|].
  iIntros (x v' Hx). destruct (Hc _ _ _ Hx) as [HP HS]. rewrite (HS). by iFrame "S".
Qed.

(** ** Events *)

Context (base_nonneg : ∀ t, 0 ≤ base t).

Lemma SI_events_update ev out tasks ev' out' tasks' i m m2 :
  (∀ t, t ≠ GASPI_TAG_NULL →
     default 0 (ev' !! t) + count t (out ++ tasks ++ m) =
     default 0 (ev !! t) + count t (out' ++ tasks' ++ m2)) →
  (tags_ok out → tags_ok out') →
  SI_events ev out tasks -∗ ledger i m ==∗ SI_events ev' out' tasks' ∗ ledger i m2.
Proof.
  iIntros (He Ho) "(%H & HH & %Hd & %Ha & %Hok) (%m' & %Hm & Hi)".
  iDestruct (ghost_map_lookup with "HH Hi") as %Hi.
  iMod (ghost_map_update m2 with "HH Hi") as "[HH Hi]". iModIntro.
  iSplitL "HH"; [|by iFrame]. iFrame "HH". iPureIntro. split_and!; [| |auto].
  { intros j. rewrite lookup_insert_is_Some' -Hd. split; [|auto]. intros [<-|?]; [by eexists|done]. }
  intros t Ht. specialize (Ha t Ht). specialize (He t Ht).
  pose proof (count_Permutation t _ _ (all_held_insert H i m' m2 Hi)) as Hc.
  pose proof (count_Permutation t _ _ Hm) as Hcm. count_lia.
Qed.

(** A thread does not answer for more events than there are. *)
Lemma SI_events_bound ev out tasks i m t :
  t ≠ GASPI_TAG_NULL →
  SI_events ev out tasks -∗ ledger i m -∗ ⌜count t m ≤ default 0 (ev !! t)⌝.
Proof.
  iIntros (Ht) "(%H & HH & _ & %Ha & _) (%m' & %Hm & Hi)".
  iDestruct (ghost_map_lookup with "HH Hi") as %Hi. iPureIntro.
  specialize (Ha t Ht). pose proof (base_nonneg t).
  pose proof (count_Permutation t _ _ (all_held_insert H i m' [] Hi)) as Hc.
  pose proof (count_Permutation t _ _ Hm) as Hcm.
  rewrite !count_app ?count_nil in Ha, Hc.
  pose proof (count_nonneg t out). pose proof (count_nonneg t tasks).
  pose proof (count_nonneg t (all_held (<[i:=[]]> H))). lia.
Qed.

(** All the ledgers together. *)
Lemma SI_events_total ev out tasks ms :
  length ms = threads →
  SI_events ev out tasks -∗ ([∗ list] i ↦ m ∈ ms, ledger i m) -∗
  ⌜∀ t, t ≠ GASPI_TAG_NULL →
     default 0 (ev !! t) = (base t + count t (out ++ tasks ++ concat ms))%Z⌝.
Proof.
  iIntros (Hlen) "(%H & HH & %Hd & %Ha & _) L".
  iAssert ⌜∀ i m, ms !! i = Some m → ∃ m', H !! i = Some m' ∧ m' ≡ₚ m⌝%I as %Hm.
  { iIntros (i m Hi). iDestruct (big_sepL_lookup with "L") as (m' Hp) "L"; [done|].
    iDestruct (ghost_map_lookup with "HH L") as %?. by iExists m'. }
  iPureIntro. intros t Ht. rewrite (Ha t Ht) !count_app.
  rewrite (count_Permutation t _ _ (all_held_total H ms ltac:(by rewrite Hlen) Hm)). done.
Qed.

Lemma wp_sym {X} s (c : call X) P :
  _symbol s = true → wp_ (perform c) P ⊢ wp_ (sym_call s c) P.
Proof. iIntros (Hs) "Hc". rewrite /sym_call. iApply iwp_assert; [done|]. by rewrite Hs. Qed.

Lemma wp_fail_if tm what err P :
  tm_loaded tm → (⌜err = 0⌝ -∗ P tt) ⊢ wp_ (fail_if_error tm what err) P.
Proof.
  iIntros (Htm) "HP". rewrite /fail_if_error. case_decide; [iModIntro; by iApply "HP"|].
  rewrite /getError /sym_call /assert tl_error_string //=.
  assert (sys_fault alpi_fault) as Hf by (right; by left). rewrite /alpi_fault in Hf.
  destruct NDEBUG; by iModIntro.
Qed.

Lemma wp_self tm : tm_loaded tm → ⊢ wp_ (getCurrentTask tm) (λ t, ⌜valid_task t⌝).
Proof.
  iIntros (Htm). rewrite /getCurrentTask. iApply wp_then.
  { iApply wp_sym; [apply Htm|]. iApply (wp_untracked _ (λ x, x.1 = 0 → valid_task x.2)); [done|].
    by intros v x v' [-> ?]. }
  iIntros (x Hx). iApply (wp_then with "[]"); [by iApply (wp_fail_if _ _ _ (λ _, ⌜x.1 = 0⌝%I))|].
  iIntros ([] Hx0) "!%". auto.
Qed.

Lemma count_held t x n m :
  0 ≤ n → count t (replicate (Z.to_nat n) x ++ m) = (if decide (t = x) then n else 0) + count t m.
Proof.
  intros Hn. rewrite count_app count_replicate. repeat case_decide; subst; try done; lia.
Qed.

Lemma events_insert (ev : gmap Z Z) t x s :
  default 0 (<[t := x]> ev !! s) = if decide (s = t) then x else default 0 (ev !! s).
Proof.
  destruct (decide (s = t)) as [->|]; [by rewrite lookup_insert_eq|by rewrite lookup_insert_ne].
Qed.

Lemma wp_gain tm i m t n :
  tm_loaded tm → 0 ≤ n →
  ledger i m ⊢ wp_ (increaseCurrentTaskEvents tm t n)
    (λ _, ledger i (replicate (Z.to_nat n) t ++ m)).
Proof.
  iIntros (Htm Hn) "L". rewrite /increaseCurrentTaskEvents.
  iApply (wp_then _ _ (λ e, ⌜e = 0⌝ -∗ ledger i (replicate (Z.to_nat n) t ++ m))%I with "[L]").
  - iApply wp_sym; [apply Htm|]. iApply wp_one. iIntros (v) "(%rs & E & S)".
    iSplit; [done|]. iIntros (e v' ->). case_decide; [|iModIntro; iSplitL; [iFrame|by iIntros]].
    iMod (SI_events_update _ _ _ (<[t:=events v t + n]> (v_events v)) with "E L") as "[E L]";
      [|exact id|iModIntro; iSplitR "L"; [by iFrame|by iIntros]].
    intros s Hs. rewrite events_insert !count_app count_replicate /events.
    repeat case_decide; subst; done || lia.
  - iIntros (e) "HL". by iApply wp_fail_if.
Qed.

Lemma wp_lose tm i m t n :
  tm_loaded tm → t ≠ GASPI_TAG_NULL → 0 ≤ n →
  ledger i (replicate (Z.to_nat n) t ++ m) ⊢ wp_ (decreaseTaskEvents tm t n) (λ _, ledger i m).
Proof.
  iIntros (Htm Ht Hn) "L". rewrite /decreaseTaskEvents.
  iApply (wp_then _ _ (λ e, ⌜e = 0⌝ -∗ ledger i m)%I with "[L]").
  - iApply wp_sym; [apply Htm|]. iApply wp_one. iIntros (v) "(%rs & E & S)".
    iSplit.
    { iDestruct (SI_events_bound with "E L") as %Hb; [done|]. iPureIntro.
      rewrite count_held // decide_True // in Hb. rewrite /= /events.
      pose proof (count_nonneg t m). lia. }
    iIntros (e v' ->). case_decide; [|iModIntro; iSplitL; [iFrame|by iIntros]].
    iMod (SI_events_update _ _ _ (<[t:=events v t - n]> (v_events v)) with "E L") as "[E L]";
      [|exact id|iModIntro; iSplitR "L"; [by iFrame|by iIntros]].
    intros s Hs. rewrite events_insert !count_app count_replicate /events.
    repeat case_decide; subst; done || lia.
  - iIntros (e) "HL". by iApply wp_fail_if.
Qed.

Lemma wp_post (c : call gaspi_return_t) i m t n :
  (∀ v, permitted c v) → (∀ v e v', call_spec c v e v' → post_requests n t e v v') →
  valid_task t → 0 ≤ n →
  ledger i (replicate (Z.to_nat n) t ++ m) ⊢ wp_ (perform c) (λ e, ⌜e ≠ GASPI_TIMEOUT⌝ ∗
    if decide (e = GASPI_SUCCESS) then ledger i m
    else ledger i (replicate (Z.to_nat n) t ++ m)).
Proof.
  iIntros (Hp Hc [Ht0 Ht] Hn) "L". iApply wp_one. iIntros (v) "(%rs & E & S)". iSplit; [done|].
  iIntros (e v' He). destruct (Hc _ _ _ He) as [Hto ->]. case_decide; [|by iFrame].
  iMod (SI_events_update _ _ _ (v_events v)
    (replicate (Z.to_nat n) t ++ v_outstanding v) with "E L") as "[E $]"; [| |by iFrame].
  - intros s Hs. count_lia.
  - intros Hok. apply Forall_app. split; [|done]. by apply Forall_replicate.
Qed.

(** The tags of requests that belong to a task. *)
Definition task_tags (l : list Z) : list Z := filter (λ t, t ≠ GASPI_TAG_NULL) l.

Lemma count_task_tags t l : t ≠ GASPI_TAG_NULL → count t (task_tags l) = count t l.
Proof.
  intros Ht. rewrite /task_tags /count list_filter_filter. do 2 f_equal.
  apply list_filter_iff. naive_solver.
Qed.

Lemma wp_wait i m q n T :
  ledger i m ⊢ wp_ (perform (gaspi_request_wait q n T)) (λ x,
    if regular x.1 then ⌜Z.of_nat (length x.2) ≤ n⌝ ∗ ⌜tags_ok x.2.*1⌝ ∗
      ledger i (task_tags x.2.*1 ++ m)
    else ledger i m).
Proof.
  iIntros "L". iApply wp_one. iIntros (v) "(%rs & E & S)". iSplit; [done|].
  iIntros ([e l] v' Hx). simpl in Hx |- *. destruct (regular e); [|subst; by iFrame].
  destruct Hx as (Hl&o&->&Ho). iFrame (Hl).
  iAssert ⌜tags_ok (v_outstanding v)⌝%I as %Hok; [by iDestruct "E" as "(% & _ & _ & _ & %)"|].
  rewrite /tags_ok Ho Forall_app in Hok. destruct Hok as [Hl1 Hok].
  iMod (SI_events_update _ _ _ (v_events v) o with "E L") as "[E $]"; [|done|by iFrame].
  intros t Ht. rewrite !count_app count_task_tags // Ho count_app. lia.
Qed.

(** ** Objects and queues *)

Lemma slot_ne p r p' r' : slot p r -∗ slot p' r' -∗ ⌜p ≠ p'⌝.
Proof. iIntros "[H _] [H' _]". by iApply (ghost_map_elem_ne with "H H'"). Qed.

(** A slot in use is not in the pool. *)
Lemma slot_not_free p r (l : list Z) :
  slot p r -∗ ([∗ list] q ∈ l, ∃ r, slot q r) -∗ ⌜p ∉ l⌝.
Proof.
  iIntros "Hp Hl". rewrite list_elem_of_lookup. iIntros ([k Hk]).
  iDestruct (big_sepL_lookup with "Hl") as (r') "Hp'"; [done|].
  by iDestruct (slot_ne with "Hp Hp'") as %?.
Qed.

Lemma slots_NoDup (l : list Z) :
  ([∗ list] q ∈ l, ∃ r, slot q r) -∗ ⌜NoDup l⌝.
Proof.
  iIntros "Hl". iInduction l as [|p l] "IH"; [iPureIntro; constructor|].
  iDestruct "Hl" as "[[%r Hp] Hl]". iDestruct (slot_not_free with "Hp Hl") as %?.
  iDestruct ("IH" with "Hl") as %?. iPureIntro. by constructor.
Qed.

Lemma slots_range (l : list Z) :
  ([∗ list] q ∈ l, ∃ r, slot q r) -∗ ⌜∀ p, p ∈ l → 0 ≤ p < NumEntries⌝.
Proof.
  iIntros "Hl" (p [k Hk]%list_elem_of_lookup).
  iDestruct (big_sepL_lookup with "Hl") as (r') "[_ %]"; [done|]. done.
Qed.

(** The slot a thread uses is there and is not free. *)
Lemma SI_objs_slot objs pool cap p r :
  SI_objs objs pool cap -∗ slot p r -∗ ⌜p ∉ pool ∧ objs !! p = Some r⌝.
Proof.
  iIntros "(O & P & _) Hp". iDestruct (slot_not_free with "Hp P") as %?.
  iDestruct "Hp" as "[Hp _]". by iDestruct (ghost_map_lookup with "O Hp") as %?.
Qed.

Lemma SI_objs_write objs pool cap p r r' :
  SI_objs objs pool cap -∗ slot p r ==∗ SI_objs (<[p := r']> objs) pool cap ∗ slot p r'.
Proof.
  iIntros "(O & P & %Hc & %Ho) [Hp %Hr]".
  iMod (ghost_map_update r' with "O Hp") as "[$ $]". iFrame "P". iPureIntro.
  split_and!; [done| |lia..]. intros q Hq. rewrite lookup_insert_is_Some'. auto.
Qed.

Lemma wp_pop : ⊢ wp_ (perform queue_pop) (λ o,
  match o with Some p => ∃ r, slot p r | None => True end).
Proof.
  iApply wp_one. iIntros (v) "(%rs & E & (O & P & #Hpure) & S)". iSplit; [done|].
  iIntros (o v' Ho). simpl in Ho. destruct (v_pool v) as [|p l] eqn:Hl; destruct Ho as [-> ->].
  - iModIntro. iSplit; [|done]. iExists rs. rewrite Hl. by iFrame "E O Hpure S".
  - iDestruct "P" as "[Hp P]". iModIntro. iSplitR "Hp"; [by iFrame|done].
Qed.

Lemma wp_construct p r s f n a rem t :
  slot p r ⊢ wp_ (perform (wr_construct p s f n a rem t))
    (λ _, ∃ junk, slot p (WaitingRange_ctor junk s f n a rem t)).
Proof.
  iIntros "Hp". iApply wp_one. iIntros (v) "(%rs & E & O & S)".
  iDestruct (SI_objs_slot with "O Hp") as %[? Hr]. iSplit; [by iPureIntro; split; [|eexists]|].
  iIntros (x v' (old&Hold&->)). rewrite Hr in Hold. injection Hold as <-.
  iMod (SI_objs_write with "O Hp") as "[O Hp]". iModIntro. iSplitR "Hp"; [by iFrame|].
  by iExists _.
Qed.

Lemma wp_get p r :
  slot p r ⊢ wp_ (perform (wr_load p)) (λ x, ⌜x = r⌝ ∗ slot p r).
Proof.
  iIntros "Hp". iApply wp_one. iIntros (v) "(%rs & E & O & S)".
  iDestruct (SI_objs_slot with "O Hp") as %[? Hr]. iSplit; [by iPureIntro; split; [|eexists]|].
  iIntros (x v' [-> Hx]). rewrite Hr in Hx. injection Hx as <-. iModIntro. by iFrame.
Qed.

Lemma wp_set p r r' :
  slot p r ⊢ wp_ (perform (wr_store p r')) (λ _, slot p r').
Proof.
  iIntros "Hp". iApply wp_one. iIntros (v) "(%rs & E & O & S)".
  iDestruct (SI_objs_slot with "O Hp") as %[? Hr]. iSplit; [by iPureIntro; split; [|eexists]|].
  iIntros (x v' ->). iMod (SI_objs_write with "O Hp") as "[O $]". by iFrame.
Qed.

(** Giving an object back always succeeds: the free objects and this one are different. *)
Lemma wp_push p r : slot p r ⊢ wp_ (perform (queue_push p)) (λ b, ⌜b = true⌝).
Proof.
  iIntros "Hp". iApply wp_one. iIntros (v) "(%rs & E & (O & P & %Hc & %Ho) & S)".
  iDestruct (slot_not_free with "Hp P") as %Hfree. iSplit; [done|].
  iDestruct (slots_NoDup with "P") as %Hnd. iDestruct (slots_range with "P") as %Hrange.
  iAssert ⌜0 ≤ p < NumEntries⌝%I as %Hp; [by iDestruct "Hp" as "[_ $]"|].
  assert (Z.of_nat (length (v_pool v)) < v_pool_capacity v) as Hroom.
  { apply (pool_room v p); [by split|done..]. }
  iIntros (b v' Hb). simpl in Hb. rewrite decide_True // in Hb. destruct Hb as [-> ->].
  iModIntro. iSplit; [|done]. iExists rs. iFrame "E S O". iFrame "P". simpl.
  iSplitL; [|done]. iSplit; [|done]. by iExists r.
Qed.

Lemma wp_acquire l : ⊢ wp_ (perform (lock_acquire l)) (λ _, locked l).
Proof.
  iApply wp_one. iIntros (v) "(%rs & E & O & Q & (%L & L & %HL) & S)". iSplit; [done|].
  iIntros (x v' [Hl ->]). iMod (ghost_map_insert l tt with "L") as "[L $]".
  { apply eq_None_not_Some. by rewrite -HL. }
  iModIntro. iExists rs. iFrame. iPureIntro. intros l'. simpl.
  rewrite elem_of_cons lookup_insert_is_Some HL. destruct (decide (l = l')); naive_solver.
Qed.

Lemma SI_locks_held held l : SI_locks held -∗ locked l -∗ ⌜l ∈ held⌝.
Proof.
  iIntros "(%L & L & %HL) Hl". iDestruct (ghost_map_lookup with "L Hl") as %Hl.
  iPureIntro. rewrite HL. by eexists.
Qed.

Lemma wp_release l : locked l ⊢ wp_ (perform (lock_release l)) (λ _, True).
Proof.
  iIntros "Hl". iApply wp_one. iIntros (v) "(%rs & E & O & Q & K & S)".
  iDestruct (SI_locks_held with "K Hl") as %Hl. iSplit; [done|].
  iIntros (x v' ->). iDestruct "K" as (L) "[L %HL]".
  iMod (ghost_map_delete with "L Hl") as "L". iModIntro. iSplit; [|done].
  iExists rs. iFrame. iPureIntro. intros l'. simpl.
  rewrite list_elem_of_filter lookup_delete_is_Some HL. naive_solver.
Qed.

(** A range in a queue stands for one event of its task. *)
Lemma wp_enqueue_range i m s p r :
  locked (waitingRangeQueueLock s) -∗ slot p r -∗ ⌜queued r⌝ -∗ ledger i (_task r :: m) -∗
  wp_ (perform (spsc_push s p)) (λ b, locked (waitingRangeQueueLock s) ∗
    if b : bool then ledger i m else slot p r ∗ ledger i (_task r :: m)).
Proof.
  iIntros "Hl Hp %Hr L". iApply wp_one. iIntros (v) "(%rs & E & O & Q & K & S)".
  iDestruct (SI_locks_held with "K Hl") as %Hl. iSplit; [done|].
  iIntros (b v' Hb). simpl in Hb. case_decide; destruct Hb as [-> ->]; [|by iFrame].
  iMod (SI_events_update _ _ _ (v_events v) (v_outstanding v) (_task <$> rs ++ [r])
    with "E L") as "[E $]"; [|done|].
  { intros t Ht. rewrite fmap_app /=. count_lia. }
  iModIntro. iFrame "Hl". iExists (rs ++ [r]). iFrame. simpl. by iFrame.
Qed.

Lemma SI_queues_split s (q : list (Z * Z)) rs :
  SI_queues q rs -∗ ∃ rs1 rs2, ⌜rs ≡ₚ rs1 ++ rs2⌝ ∗
    ([∗ list] p;r ∈ (filter (λ e, e.1 = s) q).*2;rs1, slot p r ∗ ⌜queued r⌝) ∗
    SI_queues (filter (λ e, e.1 ≠ s) q) rs2.
Proof.
  iIntros "Q". iInduction q as [|[s' p] q] "IH" forall (rs).
  - iDestruct (big_sepL2_nil_inv_l with "Q") as %->. iExists [], [].
    rewrite /SI_queues !filter_nil /=. auto.
  - iDestruct (big_sepL2_cons_inv_l with "Q") as (r rs' ->) "[Hr Q]".
    iDestruct ("IH" with "Q") as (rs1 rs2 Hp) "[H1 H2]". rewrite 2!filter_cons /=.
    destruct (decide (s' = s)) as [->|Hne].
    + iExists (r :: rs1), rs2. rewrite decide_False; [|tauto]. iFrame. by rewrite Hp.
    + iExists rs1, (r :: rs2). rewrite decide_True //. iFrame. iPureIntro. rewrite Hp.
      by rewrite Permutation_middle.
Qed.

Lemma wp_consume i m s :
  ledger i m ⊢ wp_ (perform (spsc_consume_all s)) (λ l, ∃ rs,
    ([∗ list] p;r ∈ l;rs, slot p r ∗ ⌜queued r⌝) ∗ ledger i ((_task <$> rs) ++ m)).
Proof.
  iIntros "L". iApply wp_one. iIntros (v) "(%rs & E & O & Q & S)". iSplit; [done|].
  iIntros (l v' [-> ->]). iDestruct (SI_queues_split s with "Q") as (rs1 rs2 Hrs) "[H Q]".
  iMod (SI_events_update _ _ _ (v_events v) (v_outstanding v) (_task <$> rs2) _ _
    ((_task <$> rs1) ++ m) with "E L") as "[E L]"; [|done|].
  { intros t Ht. rewrite Hrs fmap_app. count_lia. }
  iModIntro. iSplitR "H L"; [iExists rs2; iFrame|iExists rs1; iFrame].
Qed.

(** ** Polling instances *)

Lemma SI_insts_poller insts a :
  SI_insts insts -∗ poller a -∗ ⌜∃ p, insts !! a = Some p ∧ fns !! a = Some (_function p)⌝.
Proof.
  iIntros "(%st & %pm & _ & P & %Hpm & _ & _ & %Hf & _) Ha".
  iDestruct (ghost_map_lookup with "P Ha") as %Ha. iPureIntro.
  assert (a ∈ dom insts) as [p Hp]%elem_of_dom by (rewrite -Hpm; by eapply elem_of_dom_2).
  exists p. auto.
Qed.

Lemma SI_insts_owner insts a s :
  s ≠ Deleted → SI_insts insts -∗ owner a s -∗ ⌜is_Some (insts !! a)⌝.
Proof.
  iIntros (Hs) "(%st & %pm & O & _ & _ & _ & %Hi & _) Ha".
  iDestruct (ghost_map_lookup with "O Ha") as %Ha. iPureIntro.
  apply Hi; [by eexists|congruence].
Qed.

Lemma SI_insts_deleted insts a : SI_insts insts -∗ owner a Deleted -∗ ⌜insts !! a = None⌝.
Proof.
  iIntros "(%st & %pm & O & _ & _ & %Hd & _) Ha".
  iDestruct (ghost_map_lookup with "O Ha") as %Ha. auto.
Qed.

(** Updating the flags of an instance, given that its resources follow. *)
Lemma SI_insts_alter insts a f :
  (∀ p, _function (f p) = _function p) →
  SI_insts insts -∗
  (∀ st p, ⌜insts !! a = Some p⌝ -∗ inst_res st a p -∗ inst_res st a (f p)) -∗
  SI_insts (alter f a insts).
Proof.
  iIntros (Hf) "(%st & %pm & O & P & %Hpm & %Hd & %Hi & %Hfn & M) H".
  iExists st, pm. iFrame "O P". rewrite dom_alter_L.
  iSplit; [done|]. iSplit; [iPureIntro; intros b Hb; by rewrite lookup_alter_None Hd|].
  iSplit; [iPureIntro; intros b H1 H2; rewrite lookup_alter_is_Some; auto|].
  iSplit.
  { iPureIntro. intros b p [[-> (q&Hq&->)]|[??]]%lookup_alter_Some; [|auto]. rewrite Hf. auto. }
  destruct (insts !! a) as [p|] eqn:Ha; [|rewrite alter_id //; by rewrite Ha].
  rewrite -(insert_id insts a p Ha) alter_insert_eq insert_id //.
  iDestruct (big_sepM_insert_acc with "M") as "[Ha M]"; [done|]. iApply "M".
  by iApply "H".
Qed.

Lemma wp_poller_load a :
  poller a ⊢ wp_ (perform (pi_load a)) (λ p, ⌜fns !! a = Some (_function p)⌝ ∗ poller a).
Proof.
  iIntros "Ha". iApply wp_one. iIntros (v) "(%rs & E & O & Q & K & I)".
  iDestruct (SI_insts_poller with "I Ha") as %(p&Hp&Hf). iSplit; [by iPureIntro; eexists|].
  iIntros (x v' [-> Hx]). rewrite Hp in Hx. injection Hx as <-. by iFrame.
Qed.

Lemma wp_poller_finished a : poller a ⊢ wp_ (perform (pi_set_finished a)) (λ _, True).
Proof.
  iIntros "Ha". iApply wp_one. iIntros (v) "(%rs & E & O & Q & K & I)".
  iDestruct (SI_insts_poller with "I Ha") as %(p&Hp&Hf). iSplit; [by iPureIntro; eexists|].
  iIntros (x v' ->). iModIntro. iSplit; [|done]. iExists rs. iFrame "E O Q K". simpl.
  iApply (SI_insts_alter with "I"); [done|]. iIntros (st p' _) "(%s & $ & Hs)".
  destruct s; simpl; [|done..]. by iFrame.
Qed.

Lemma wp_owner_mustFinish a :
  owner a Registered ⊢ wp_ (perform (pi_set_mustFinish a)) (λ _, owner a Registered).
Proof.
  iIntros "Ha". iApply wp_one. iIntros (v) "(%rs & E & O & Q & K & I)".
  iDestruct (SI_insts_owner with "I Ha") as %Ha; [done|]. iSplit; [done|].
  iIntros (x v' ->). iModIntro. iFrame "Ha". iExists rs. iFrame "E O Q K". simpl.
  iApply (SI_insts_alter with "I"); [done|]. by iIntros (st p' _) "$".
Qed.

(** Seeing [_finished] set tells the owner that the task is not running any more. *)
Lemma wp_owner_load a :
  owner a Registered ⊢ wp_ (perform (pi_load a)) (λ p,
    if _finished p then owner a Stopped ∗ poller a else owner a Registered).
Proof.
  iIntros "Ha". iApply wp_one. iIntros (v) "(%rs & E & O & Q & K & I)".
  iDestruct (SI_insts_owner with "I Ha") as %[p Hp]; [done|]. iSplit; [by iPureIntro; eexists|].
  iIntros (x v' [-> Hx]). rewrite Hp in Hx. injection Hx as <-.
  destruct (_finished p) eqn:Hfin; [|by iFrame].
  iDestruct "I" as (st pm) "(S & P & %Hpm & %Hd & %Hi & %Hfn & M)".
  iDestruct (ghost_map_lookup with "S Ha") as %Ha.
  rewrite (big_sepM_delete _ _ a p) //. iDestruct "M" as "[(%s & %Hs & Hp) M]".
  rewrite Ha in Hs. injection Hs as <-. rewrite Hfin. iFrame "Hp".
  iMod (ghost_map_update Stopped with "S Ha") as "[S $]". iModIntro.
  iExists rs. iFrame "E O Q K". iExists (<[a:=Stopped]> st), pm. iFrame "S P".
  iSplit; [done|]. iSplit.
  { iPureIntro. intros b [[??]|[? Hb]]%lookup_insert_Some; [done|auto]. }
  iSplit.
  { iPureIntro. intros b Hs Hb. destruct (decide (a = b)) as [->|]; [by eexists|].
    rewrite lookup_insert_ne // in Hs, Hb. auto. }
  iSplit; [done|]. rewrite (big_sepM_delete _ (v_insts v) a p) //. iSplitR.
  - iExists Stopped. rewrite lookup_insert_eq. by iSplit.
  - iApply (big_sepM_impl with "M"). iIntros "!>" (b q [Hne _]%lookup_delete_Some) "(%s & %Hs & $)".
    by rewrite lookup_insert_ne.
Qed.

Lemma wp_owner_delete a :
  owner a Stopped -∗ poller a -∗ wp_ (perform (pi_delete a)) (λ _, owner a Deleted).
Proof.
  iIntros "Ha Hp". iApply wp_one. iIntros (v) "(%rs & E & O & Q & K & I)".
  iDestruct (SI_insts_owner with "I Ha") as %[p Hp]; [done|]. iSplit; [by iPureIntro; eexists|].
  iIntros (x v' ->). iDestruct "I" as (st pm) "(S & P & %Hpm & %Hd & %Hi & %Hfn & M)".
  rewrite (big_sepM_delete _ _ a p) //. iDestruct "M" as "[_ M]".
  iMod (ghost_map_update Deleted with "S Ha") as "[S $]".
  iMod (ghost_map_delete with "P Hp") as "P". iModIntro.
  iExists rs. iFrame "E O Q K". iExists (<[a:=Deleted]> st), (delete a pm). iFrame "S P".
  iSplit; [by rewrite !dom_delete_L Hpm|]. iSplit.
  { iPureIntro. intros b [[-> ?]|[? Hb]]%lookup_insert_Some; simpl;
      [by rewrite lookup_delete_eq|rewrite lookup_delete_ne //; auto]. }
  iSplit.
  { iPureIntro. intros b Hs Hb. destruct (decide (a = b)) as [->|].
    - by rewrite lookup_insert_eq in Hb.
    - rewrite lookup_insert_ne // in Hs, Hb. rewrite /= lookup_delete_ne //. auto. }
  iSplit.
  { iPureIntro. simpl. intros b q [_ Hq]%lookup_delete_Some. auto. }
  simpl. iApply (big_sepM_impl with "M").
  iIntros "!>" (b q [Hne _]%lookup_delete_Some) "(%s & %Hs & $)".
  by rewrite lookup_insert_ne.
Qed.
End ownership.

#[global] Arguments wp_then {BC GT Σ ownG0 γ threads base fns A B p k} P%_I {Q}.
#[global] Arguments wp_untracked {BC GT Σ ownG0 γ threads base fns X c} P.
