(* ===== verification/Threads.v ===== *)
(** What the threads of the library do with what they own: the tasks that call the API, the two
    kinds of polling tasks and the thread that shuts the polling down. *)

From iris.proofmode Require Import proofmode.
From iris.base_logic.lib Require Import ghost_map.
From S2P Require Import Prelude Types Interface Contract TaskingModel Allocator WaitingRange WaitingRangeList WaitingRangeQueue Environment Operations NotifyAsyncWait Polling PollNotifications Initialization Concurrency Ownership.
Open Scope Z_scope.

(** ** Calls of the API *)

Variant api_call :=
  | api_operation (o : operation)
  | api_notify_async_wait (segment id : Z) (value : option Z)
  | api_notify_async_waitall (segment first num : Z) (values : option Z).

#[global] Instance api_call_eq_dec : EqDecision api_call.
Proof. solve_decision. Defined.

Section api.
Context `{BC : BuildConfig} `{GT : GaspiTypes}.

Definition run_api (lib : Library) (fuel : nat) (c : api_call) (_ : unit) : prog unit :=
  (match c with
   | api_operation o => run_operation lib o
   | api_notify_async_wait s i a => tagaspi_notify_async_wait lib fuel s i a
   | api_notify_async_waitall s f n a => tagaspi_notify_async_waitall lib fuel s f n a
   end);; Ret tt.

(** Lists have elements; segments and notifications exist. *)
Definition api_valid (lib : Library) (c : api_call) : Prop :=
  match c with
  | api_operation o => op_valid o
  | api_notify_async_wait s i _ =>
      0 ≤ s < maxSegments (l_env lib) ∧ 0 ≤ i ∧ i + 1 < 2 ^ number_bits
  | api_notify_async_waitall s f n _ =>
      0 ≤ s < maxSegments (l_env lib) ∧ 0 ≤ f ∧ 0 ≤ n ∧ f + n < 2 ^ number_bits
  end.
End api.

Section threads.
Context `{BC : BuildConfig} `{GT : GaspiTypes} `{!ownG Σ}.
Context (γ : names) (threads : nat) (base : Z → Z) (fns : gmap Z polling_function_t).
Context (base_nonneg : ∀ t, 0 ≤ base t).
Context (lib : Library) (Hlib : lib_ok lib).

Abbreviation wp_ := (iwp (SI γ threads base fns) sys_fault True).
Abbreviation slot := (slot γ).
Abbreviation ledger := (ledger γ).

Lemma tm_ok : tm_loaded (l_tm lib).
Proof. apply Hlib. Qed.

(** ** One-sided operations *)

Lemma own_submit i m t n (submit : call gaspi_return_t) :
  (∀ v, permitted submit v) →
  (∀ v e v', call_spec submit v e v' → post_requests n t e v v') →
  valid_task t → 0 ≤ n →
  ledger i m ⊢ wp_ (increaseCurrentTaskEvents (l_tm lib) t n;;
      eret ← perform submit;
      assert "eret != GASPI_TIMEOUT" (bool_decide (eret ≠ GASPI_TIMEOUT));;
      (if decide (eret ≠ GASPI_SUCCESS) then decreaseTaskEvents (l_tm lib) t n else Ret tt);;
      Ret eret) (λ _, ledger i m).
Proof.
  iIntros (Hp Hc Ht Hn) "L". pose proof tm_ok.
  iApply (wp_then _ with "[L]"); [by iApply (wp_gain with "L")|]. iIntros ([]) "L".
  iApply (wp_then _ with "[L]"); [by iApply (wp_post with "L")|]. iIntros (e) "[%Hto L]".
  iApply iwp_assert; [by apply bool_decide_eq_true|].
  iApply (wp_then (λ _, ledger i m) with "[L]"); [|by iIntros (_) "$"].
  destruct (decide (e = GASPI_SUCCESS)) as [He|He].
  - rewrite decide_False; [by iModIntro|tauto].
  - rewrite decide_True //. by iApply (wp_lose with "L"); [..|apply Ht|].
Qed.

Lemma own_single op gop i m (submit : Z → call gaspi_return_t) :
  env_numRequests lib op = Ret (num_requests gop 1) →
  (∀ t v, permitted (submit t) v) →
  (∀ t v e v', call_spec (submit t) v e v' → post_requests (num_requests gop 1) t e v v') →
  ledger i m ⊢ wp_ (assert "_env.enabled" (enabled (l_env lib));;
      task ← getCurrentTask (l_tm lib);
      assert "task != NULL" (negb (task =? 0));;
      numRequests ← env_numRequests lib op;
      assert "numRequests > 0" (0 <? numRequests);;
      increaseCurrentTaskEvents (l_tm lib) task numRequests;;
      eret ← perform (submit task);
      assert "eret != GASPI_TIMEOUT" (bool_decide (eret ≠ GASPI_TIMEOUT));;
      (if decide (eret ≠ GASPI_SUCCESS) then decreaseTaskEvents (l_tm lib) task numRequests
       else Ret tt);;
      Ret eret) (λ _, ledger i m).
Proof.
  iIntros (Hop Hp Hc) "L". pose proof (num_requests_pos gop 1 ltac:(lia)).
  iApply iwp_assert; [apply Hlib|].
  iApply (wp_then _); [iApply wp_self; apply tm_ok|]. iIntros (t Ht).
  iApply iwp_assert; [apply negb_true_iff, Z.eqb_neq, Ht|]. rewrite Hop mbind_Ret.
  iApply iwp_assert; [by apply Z.ltb_lt|].
  iApply (own_submit with "L"); eauto; simpl; lia.
Qed.

Lemma own_list gop num i m (submit : Z → call gaspi_return_t) :
  0 < num → (∀ t v, permitted (submit t) v) →
  (∀ t v e v', call_spec (submit t) v e v' → post_requests (num_requests gop num) t e v v') →
  ledger i m ⊢ wp_ (assert "_env.enabled" (enabled (l_env lib));;
      task ← getCurrentTask (l_tm lib);
      assert "task != NULL" (negb (task =? 0));;
      r ← perform (gaspi_operation_get_num_requests gop num);
      assert "eret == GASPI_SUCCESS" (bool_decide (r.1 = GASPI_SUCCESS));;
      let numRequests := r.2 in
      assert "numRequests > 0" (0 <? numRequests);;
      increaseCurrentTaskEvents (l_tm lib) task numRequests;;
      eret ← perform (submit task);
      assert "eret != GASPI_TIMEOUT" (bool_decide (eret ≠ GASPI_TIMEOUT));;
      (if decide (eret ≠ GASPI_SUCCESS) then decreaseTaskEvents (l_tm lib) task numRequests
       else Ret tt);;
      Ret eret) (λ _, ledger i m).
Proof.
  iIntros (Hn Hp Hc) "L". pose proof (num_requests_pos gop num Hn).
  iApply iwp_assert; [apply Hlib|].
  iApply (wp_then _); [iApply wp_self; apply tm_ok|]. iIntros (t Ht).
  iApply iwp_assert; [apply negb_true_iff, Z.eqb_neq, Ht|].
  iApply (wp_then _).
  { iApply (wp_untracked (λ x, x = (GASPI_SUCCESS, num_requests gop num))); [done|].
    by intros v x v' [-> ->]. }
  iIntros (r ->). iApply iwp_assert; [by apply bool_decide_eq_true|].
  iApply iwp_assert; [by apply Z.ltb_lt|].
  iApply (own_submit with "L"); eauto; simpl; lia.
Qed.

Lemma own_operation i m o : op_valid o → ledger i m ⊢ wp_ (run_operation lib o) (λ _, ledger i m).
Proof.
  iIntros (Hv) "L". pose proof (lo_requests _ Hlib) as Hr.
  destruct o; simpl in Hv |- *.
  - iApply (own_single READ GASPI_OP_READ with "L"); [|done..].
    by rewrite /env_numRequests Hr.
  - iApply (own_single WRITE GASPI_OP_WRITE with "L"); [|done..].
    by rewrite /env_numRequests Hr.
  - iApply (own_single NOTIFY GASPI_OP_NOTIFY with "L"); [|done..].
    by rewrite /env_numRequests Hr.
  - iApply (own_single WRITE_NOTIFY GASPI_OP_WRITE_NOTIFY with "L"); [|done..].
    by rewrite /env_numRequests Hr.
  - by iApply (own_list GASPI_OP_READ_LIST with "L").
  - by iApply (own_list GASPI_OP_WRITE_LIST with "L").
  - by iApply (own_list GASPI_OP_WRITE_LIST_NOTIFY with "L").
Qed.

(** ** Checking notifications *)

Lemma own_print_abort {A} message (P : A → iProp Σ) : ⊢ wp_ (print_abort message) P.
Proof.
  rewrite /print_abort. iApply (wp_then (λ _, ⌜True⌝)%I).
  { iApply (wp_untracked (λ _, True)); [done|]. by intros v x v' ->. }
  iIntros (x _). iApply iwp_fault. by left.
Qed.

(** What storing through a pointer needs: the object that has the field. *)
Definition pointer_own (p : value_pointer) (r : WaitingRange) : iProp Σ :=
  match p with ptr_field o => ∃ x, slot o (set_notifiedValue x r) | _ => True end.

Lemma own_store_value p x r :
  pointer_own p r ⊢ wp_ (store_value p x) (λ _, pointer_own p r).
Proof.
  iIntros "P". destruct p as [|a|o]; cbn [pointer_own store_value]; [by iModIntro| |].
  - iApply iwp_mono; [iApply (wp_untracked (λ _, True)); [done|by intros v y v' ->]|].
    by iIntros (y _).
  - iDestruct "P" as (y) "P". iApply (wp_then _ with "[P]"); [by iApply (wp_get with "P")|].
    iIntros (r') "[-> P]". iApply (iwp_mono with "[P]"); [by iApply (wp_set with "P")|].
    iIntros (_) "P !>". by iExists x.
Qed.

Lemma own_waitsome s f n :
  ⊢ wp_ (perform (gaspi_notify_waitsome s f n GASPI_TEST))
    (λ x, ⌜x.1 = GASPI_SUCCESS → f ≤ x.2 < f + n⌝).
Proof.
  iApply (wp_untracked (λ x, x.1 = GASPI_SUCCESS → f ≤ x.2 < f + n)); [done|].
  intros v [e i] v' [-> Hx]. split; [|done]. simpl in *. intros ->. apply Hx.
Qed.

Lemma own_reset s i : ⊢ wp_ (perform (gaspi_notify_reset s i)) (λ _, ⌜True⌝).
Proof.
  iApply (wp_untracked (λ _, True)); [done|]. intros v x v' Hx. split; [done|].
  simpl in Hx. case_decide; [by destruct Hx as [_ ->]|by subst].
Qed.

Lemma own_checkNotification s i p r :
  pointer_own p r ⊢ wp_ (checkNotification s i p) (λ rem, ⌜rem = 0 ∨ rem = 1⌝ ∗ pointer_own p r).
Proof.
  iIntros "P". rewrite /checkNotification. iApply (wp_then _); [iApply own_waitsome|].
  iIntros ([e j] Hj). cbn [fst snd] in Hj |- *.
  destruct e; try iApply own_print_abort; [|by iModIntro; iFrame; auto].
  iApply iwp_assert; [apply Z.eqb_eq; specialize (Hj eq_refl); lia|].
  iApply (wp_then _); [iApply own_reset|]. iIntros ([e x] _). cbn [fst snd].
  case_decide; [iApply own_print_abort|]. case_decide; [|by iModIntro; iFrame; auto].
  iApply (wp_then _ with "[P]"); [by iApply (own_store_value with "P")|].
  iIntros (_) "P !>". iFrame. auto.
Qed.

Lemma own_user_store a x : ⊢ wp_ (store_value (user_pointer a) x) (λ _, True).
Proof.
  iApply iwp_mono.
  - iApply (own_store_value _ _ (WaitingRange_ctor 0 0 0 0 None 0 0)). by destruct a.
  - auto.
Qed.

(** Other threads may consume a notification between the two calls: the loop then stops. *)
Lemma own_check_loop fuel s f n a rem :
  0 ≤ f → 0 < rem ≤ n → f + n < 2 ^ number_bits →
  ⊢ wp_ (check_loop fuel s f n a rem) (λ rem', ⌜0 ≤ rem' ≤ rem⌝).
Proof.
  iIntros (Hf Hrem Hl). iInduction fuel as [|fuel] "IH" forall (rem Hrem).
  { iApply iwp_fault. by do 2 right. }
  cbn [check_loop]. iApply (wp_then _); [iApply own_waitsome|].
  iIntros ([e j] Hj). cbn [fst snd] in Hj |- *.
  destruct e; try iApply own_print_abort; [|iIntros "!> !%"; lia].
  specialize (Hj eq_refl). iApply iwp_assert.
  { rewrite number_small; [|lia]. apply andb_true_intro.
    split; [apply Z.leb_le|apply Z.ltb_lt]; lia. }
  iApply (wp_then _); [iApply own_reset|]. iIntros ([e x] _). cbn [fst snd].
  case_decide; [iApply own_print_abort|]. case_decide; [|iIntros "!> !%"; lia].
  iApply (wp_then _); [iApply own_user_store|]. iIntros (_) "_".
  rewrite number_small; [|lia]. destruct (Z.ltb_spec 0 (rem - 1)).
  - iApply iwp_mono; [iApply ("IH" with "[%]"); lia|]. iIntros (rem') "% !> !%". lia.
  - iIntros "!> !%". lia.
Qed.

Lemma own_checkNotifications s f n a rem :
  0 ≤ f → 0 < rem ≤ n → f + n < 2 ^ number_bits →
  ⊢ wp_ (checkNotifications s f n a rem) (λ rem', ⌜0 ≤ rem' ≤ rem⌝).
Proof.
  iIntros (Hf Hrem Hl). rewrite /checkNotifications.
  iApply iwp_assert; [apply Z.ltb_lt; lia|]. iApply iwp_assert; [apply Z.leb_le; lia|].
  by iApply own_check_loop.
Qed.

(** A range that waits for nothing any more. *)
Definition finished_range (r : WaitingRange) : Prop :=
  _remaining r = 0 ∧ _task r ≠ GASPI_TAG_NULL.

Lemma own_last_load o r :
  slot o r ⊢ wp_ (r ← perform (wr_load o); Ret (_remaining r =? 0))
    (λ b, ⌜b = (_remaining r =? 0)⌝ ∗ slot o r).
Proof.
  iIntros "S". iApply (wp_then _ with "[S]"); [by iApply (wp_get with "S")|].
  iIntros (r') "[-> S] !>". by iFrame.
Qed.

(** The ranges a thread owns stay well-formed, whatever the notifications do in between. *)
Lemma own_member_check o r :
  queued r → slot o r ⊢ wp_ (WaitingRange_checkNotifications o) (λ b, ∃ r',
    slot o r' ∗ ⌜_task r' = _task r⌝ ∗ ⌜if b : bool then finished_range r' else queued r'⌝).
Proof.
  iIntros ([[Hf Hrem Hl] Ht]) "S". rewrite /WaitingRange_checkNotifications.
  iApply (wp_then _ with "[S]"); [by iApply (wp_get with "S")|]. iIntros (r') "[-> S]".
  iApply (wp_then (λ _, ∃ nv rem, slot o (set_remaining rem (set_notifiedValue nv r)) ∗
    ⌜0 ≤ rem ≤ _remaining r⌝)%I with "[S]").
  - destruct (Z.eqb_spec (_numIds r) 1) as [Hn|Hn].
    + iApply (wp_then _ with "[S]").
      { iApply (own_checkNotification _ _ (ptr_field o) r). iExists (_notifiedValue r).
        by destruct r. }
      iIntros (rem) "[%Hr [%x S]]".
      iApply (wp_then _ with "[S]"); [by iApply (wp_get with "S")|]. iIntros (r') "[-> S]".
      iApply (wp_then _ with "[S]"); [by iApply (wp_set with "S")|]. iIntros (_) "S".
      iApply (wp_then _ with "[S]"); [by iApply (wp_get with "S")|]. iIntros (r') "[-> S]".
      iApply iwp_mono; [iApply own_user_store|]. iIntros (_) "_ !>". iExists x, rem.
      iFrame. iPureIntro. lia.
    + iApply (wp_then _); [by iApply own_checkNotifications|]. iIntros (rem Hr).
      iApply (wp_then _ with "[S]"); [by iApply (wp_get with "S")|]. iIntros (r') "[-> S]".
      iApply (iwp_mono with "[S]"); [by iApply (wp_set with "S")|]. iIntros (_) "S !>".
      iExists (_notifiedValue r), rem. iSplit; [|done]. by destruct r.
  - iIntros (_) "(%nv & %rem & S & %Hr)".
    iApply (iwp_mono with "[S]"); [by iApply (own_last_load with "S")|].
    iIntros (b) "[-> S] !>". iExists _. iFrame "S". iSplit; [done|]. iPureIntro. simpl.
    destruct (Z.eqb_spec rem 0) as [->|]; [by split|]. split; [|done]. split; simpl; lia.
Qed.

(** ** The polling task of the notifications *)

(** The objects [l] hold ranges of the tasks [ts]. *)
Definition ranges (P : WaitingRange → Prop) (l ts : list Z) : iProp Σ :=
  ∃ rs, ⌜_task <$> rs = ts⌝ ∗ [∗ list] p;r ∈ l;rs, slot p r ∗ ⌜P r⌝.

Lemma ranges_nil P : ⊢ ranges P [] [].
Proof. iExists []. by iSplit. Qed.

Lemma ranges_app P l1 l2 ts1 ts2 :
  ranges P l1 ts1 -∗ ranges P l2 ts2 -∗ ranges P (l1 ++ l2) (ts1 ++ ts2).
Proof.
  iIntros "(%r1 & <- & H1) (%r2 & <- & H2)". iExists (r1 ++ r2). rewrite fmap_app.
  iSplit; [done|]. by iApply (big_sepL2_app with "H1").
Qed.

Lemma ranges_one P o r : slot o r -∗ ⌜P r⌝ -∗ ranges P [o] [_task r].
Proof. iIntros "S %HP". iExists [r]. simpl. by iFrame. Qed.

Lemma ranges_cons_inv P o l ts :
  ranges P (o :: l) ts -∗ ∃ r ts', ⌜ts = _task r :: ts'⌝ ∗ ⌜P r⌝ ∗ slot o r ∗ ranges P l ts'.
Proof.
  iIntros "(%rs & <- & H)". iDestruct (big_sepL2_cons_inv_l with "H") as (r rs' ->) "[[S %] H]".
  iExists r, (_task <$> rs'). iFrame. by repeat iSplit.
Qed.

Lemma own_check_from before rest comp tb tr tc :
  ranges queued before tb -∗ ranges queued rest tr -∗ ranges finished_range comp tc -∗
  wp_ (check_from before rest comp) (λ x, ∃ tk td,
    ranges queued x.1 tk ∗ ranges finished_range x.2 td ∗ ⌜tk ++ td ≡ₚ tb ++ tr ++ tc⌝).
Proof.
  iIntros "B R C". iInduction rest as [|o rest] "IH" forall (before comp tb tr tc);
    cbn [check_from].
  { iIntros "!>". iExists tb, tc. iFrame. iDestruct "R" as (rs <-) "R".
    by iDestruct (big_sepL2_nil_inv_l with "R") as %->. }
  iDestruct (ranges_cons_inv with "R") as (r tr' -> Hr) "[S R]".
  iApply (wp_then _ with "[S]"); [by iApply (own_member_check with "S")|].
  iIntros (b) "(%r' & S & <- & %Hb)". destruct b.
  - iDestruct (ranges_one finished_range with "S [//]") as "S".
    iDestruct (ranges_app with "C S") as "C".
    iApply (iwp_mono with "[-]"); [iApply ("IH" with "B R C")|].
    iIntros (x) "(%tk & %td & $ & $ & %Hp) !>". iPureIntro. rewrite Hp. solve_Permutation.
  - iDestruct (ranges_one queued with "S [//]") as "S".
    iDestruct (ranges_app with "B S") as "B".
    iApply (iwp_mono with "[-]"); [iApply ("IH" with "B R C")|].
    iIntros (x) "(%tk & %td & $ & $ & %Hp) !>". iPureIntro. rewrite Hp. solve_Permutation.
Qed.

Lemma own_dequeueAll i m s l ts :
  ranges queued l ts -∗ ledger i m -∗
  wp_ (dequeueAll s l) (λ l', ∃ ts', ranges queued l' (ts ++ ts') ∗ ledger i (ts' ++ m)).
Proof.
  iIntros "R L". rewrite /dequeueAll. iApply (wp_then (λ _, ⌜True⌝)%I).
  { iApply (wp_untracked (λ _, True)); [done|]. by intros v x v' [-> _]. }
  iIntros (e _). destruct e; cbn [negb].
  - iIntros "!>". iExists []. rewrite app_nil_r. iFrame.
  - iApply (wp_then _ with "[L]"); [by iApply (wp_consume with "L")|].
    iIntros (q) "(%rs & Q & L) !>". rewrite foldl_add. iExists (_task <$> rs). iFrame "L".
    iApply (ranges_app with "R"). iExists rs. by iFrame.
Qed.

(** Completing a range takes the event it stands for and gives its object back. *)
Lemma own_complete_range i m o r :
  finished_range r → slot o r -∗ ledger i (_task r :: m) -∗
  wp_ (complete_range lib o tt) (λ _, ledger i m).
Proof.
  iIntros ([Hr Ht]) "S L". pose proof tm_ok. rewrite /complete_range.
  iApply (wp_then (λ _, slot o r ∗ ledger i m)%I with "[S L]").
  - rewrite /complete. iApply (wp_then _ with "[S]"); [by iApply (wp_get with "S")|].
    iIntros (r') "[-> S]". iApply (iwp_mono with "[L]").
    + by iApply (wp_lose γ threads base fns base_nonneg _ i m (_task r) 1 with "L").
    + iIntros (_) "L !>". iFrame.
  - iIntros (_) "[S L]". rewrite /free. iApply iwp_assert; [apply Hlib|].
    iApply (wp_then _ with "[S]"); [by iApply (wp_get with "S")|]. iIntros (r') "[-> S]".
    iApply iwp_assert; [by apply Z.eqb_eq|].
    iApply (wp_then _ with "[S]"); [by iApply (wp_push with "S")|]. iIntros (b ->).
    rewrite /assert. by destruct NDEBUG; iModIntro.
Qed.

Lemma own_complete_ranges i m l ts :
  ranges finished_range l ts -∗ ledger i (ts ++ m) -∗
  wp_ (for_each l (complete_range lib) tt) (λ _, ledger i m).
Proof.
  iIntros "R L". iApply (iwp_mono with "[R L]").
  - iApply (iwp_for_each _ _ _ _ _ _ (λ l _, ∃ ts, ranges finished_range l ts ∗
      ledger i (ts ++ m))%I with "[R L]"); [by iExists ts; iFrame|].
    iIntros "!>" (o l' []) "(%ts' & R & L)".
    iDestruct (ranges_cons_inv with "R") as (r ts2 -> Hr) "[S R]".
    iApply (iwp_mono with "[S L]"); [by iApply (own_complete_range with "S L")|].
    iIntros (_) "L !>". iExists ts2. iFrame.
  - iIntros (_) "(%ts' & (%rs & <- & R) & L) !>".
    by iDestruct (big_sepL2_nil_inv_l with "R") as %->.
Qed.

(** The lists of the segments and the events their ranges stand for. *)
Definition lists_own (i : nat) (lists : list (list Z)) : iProp Σ :=
  ∃ tss, ([∗ list] l;ts ∈ lists;tss, ranges queued l ts) ∗ ledger i (concat tss).

Lemma ledger_perm i m m' : m ≡ₚ m' → ledger i m ⊢ ledger i m'.
Proof. iIntros (Hm) "(%m0 & %Hp & L)". iExists m0. iFrame. by rewrite Hp Hm. Qed.

Lemma own_poll_segment i seg lists :
  0 ≤ seg < Z.of_nat (length lists) →
  lists_own i lists ⊢ wp_ (poll_segment lib seg lists)
    (λ lists', ⌜length lists' = length lists⌝ ∗ lists_own i lists').
Proof.
  iIntros (Hs) "(%tss & R & L)". rewrite /poll_segment.
  destruct (lookup_lt_is_Some_2 lists (Z.to_nat seg)) as [l Hl]; [lia|].
  rewrite (vec_get_Some _ _ l) //; [|lia]. rewrite mbind_Ret.
  iDestruct (big_sepL2_length with "R") as %Hlen.
  destruct (lookup_lt_is_Some_2 tss (Z.to_nat seg)) as [ts Hts]; [lia|].
  iDestruct (big_sepL2_insert_acc with "R") as "[Rl R]"; [done..|].
  iApply (wp_then _ with "[Rl L]"); [by iApply (own_dequeueAll with "Rl L")|].
  iIntros (l1) "(%ts1 & Rl & L)".
  iApply (wp_then _ with "[Rl]").
  { iApply (own_check_from with "[] Rl"); iApply ranges_nil. }
  iIntros ([kept comp]) "(%tk & %td & Rk & Rd & %Hp)". cbn [fst snd] in *.
  rewrite vec_set_ok // mbind_Ret. rewrite app_nil_r in Hp. simpl in Hp.
  assert (td ++ concat (<[Z.to_nat seg:=tk]> tss) ≡ₚ ts1 ++ concat tss) as Hc.
  { apply (Permutation_app_inv_r ts). rewrite -assoc (concat_insert tss _ ts tk) //.
    trans ((tk ++ td) ++ concat tss); [solve_Permutation|]. rewrite Hp. solve_Permutation. }
  iSpecialize ("R" with "Rk"). iDestruct (ledger_perm _ _ _ (symmetry Hc) with "L") as "L".
  case_bool_decide as Hcomp.
  - iIntros "!>". rewrite length_insert. iSplit; [done|]. iExists _. iFrame "R".
    subst comp. iDestruct "Rd" as (rs <-) "Rd".
    iDestruct (big_sepL2_nil_inv_l with "Rd") as %->. iExact "L".
  - iApply (wp_then _ with "[Rd L]"); [by iApply (own_complete_ranges with "Rd L")|].
    iIntros (_) "L !>". rewrite length_insert. iSplit; [done|]. iExists _. iFrame.
Qed.

Lemma own_poll_segments i fuel seg lists :
  0 ≤ seg → Z.of_nat (length lists) = maxSegments (l_env lib) →
  lists_own i lists ⊢ wp_ (poll_segments fuel lib seg lists)
    (λ lists', ⌜length lists' = length lists⌝ ∗ lists_own i lists').
Proof.
  iIntros (Hseg Hl) "R". iInduction fuel as [|fuel] "IH" forall (seg Hseg lists Hl).
  { iApply iwp_fault. by do 2 right. }
  cbn [poll_segments]. destruct (Z.ltb_spec seg (maxSegments (l_env lib))).
  - iApply (wp_then _ with "[R]"); [iApply (own_poll_segment with "R"); lia|].
    iIntros (lists1) "[%Hl1 R]". iApply (iwp_mono with "[R]").
    + iApply ("IH" with "[%] [%] R"); [|by rewrite Hl1].
      apply wrap_range. pose proof segment_id_bits_range. lia.
    + iIntros (lists2) "[%Hl2 $] !%". by rewrite Hl2.
  - iIntros "!>". by iFrame.
Qed.

(** ** The polling tasks of the queues *)

Lemma own_complete_request i m r :
  (r.1 ≠ GASPI_TAG_NULL → r.1 ≠ 0) →
  ledger i (task_tags [r.1] ++ m) ⊢ wp_ (complete_request (l_tm lib) r tt) (λ _, ledger i m).
Proof.
  iIntros (Hr) "L". pose proof tm_ok. rewrite /complete_request.
  case_decide; [iApply own_print_abort|].
  rewrite /task_tags filter_cons filter_nil. case_decide as Ht; [|by iModIntro].
  iApply iwp_assert; [by apply negb_true_iff, Z.eqb_neq, Hr|].
  by iApply (wp_lose γ threads base fns base_nonneg _ i m r.1 1 with "L").
Qed.

Lemma own_poll_queue i m fuel q :
  ledger i m ⊢ wp_ (poll_queue fuel (l_tm lib) q) (λ _, ledger i m).
Proof.
  iIntros "L". iInduction fuel as [|fuel] "IH". { iApply iwp_fault. by do 2 right. }
  cbn [poll_queue]. iApply (wp_then _ with "[L]"); [by iApply (wp_wait with "L")|].
  iIntros ([e l]) "L". cbn [fst snd]. destruct (regular e).
  - iDestruct "L" as "(%Hl & %Hok & L)". iApply iwp_assert; [by apply Z.leb_le|].
    iApply (wp_then (λ _, ledger i m) with "[L]").
    + iApply (iwp_mono with "[L]").
      * iApply (iwp_for_each _ _ _ _ _ _ (λ l _, ⌜tags_ok l.*1⌝ ∗
          ledger i (task_tags l.*1 ++ m))%I with "[L]"); [by iFrame|].
        iIntros "!>" (r l' []) "[%Hok' L]". rewrite /tags_ok fmap_cons in Hok'.
        apply Forall_cons in Hok' as [Hr Hok'].
        iApply (iwp_mono with "[L]").
        -- iApply (own_complete_request _ (task_tags l'.*1 ++ m)); [done|].
           by rewrite assoc /task_tags -filter_app.
        -- iIntros (_) "$". done.
      * iIntros (_) "[_ $]". done.
    + iIntros (_) "L". case_match; [by iApply "IH"|by iModIntro].
  - case_decide; [iApply own_print_abort|by iModIntro].
Qed.

Lemma own_poll_queues_from i m fuel q n :
  ledger i m ⊢ wp_ (poll_queues_from fuel (l_tm lib) q n) (λ _, ledger i m).
Proof.
  iIntros "L". iInduction fuel as [|fuel] "IH" forall (q). { iApply iwp_fault. by do 2 right. }
  cbn [poll_queues_from]. case_match; [|by iModIntro].
  iApply (wp_then _ with "[L]"); [by iApply (own_poll_queue with "L")|].
  iIntros (_) "L". by iApply "IH".
Qed.

Lemma own_pollQueues i m fuel k info :
  _queuePollingInfos (l_polling lib) !! k = Some info → info_valid lib info →
  ledger i m ⊢ wp_ (pollQueues fuel lib k) (λ _, ledger i m).
Proof.
  iIntros (Hk (Hf&Hn&Hl)) "L". rewrite /pollQueues Hk number_small; [|lia].
  do 2 (iApply iwp_assert; [apply Z.ltb_lt; lia|]).
  iApply iwp_assert; [apply Z.leb_le; lia|].
  iApply (wp_then _ with "[L]"); [by iApply (own_poll_queues_from with "L")|].
  by iIntros (_) "L !>".
Qed.

(** ** Polling tasks *)

(** The task of an instance: [genericPolling] and then its completion callback. *)
Definition polling_task (fuel : nat) (a : Z) (lists : list (list Z)) : prog (list (list Z)) :=
  lists ← genericPolling fuel (l_tm lib) (polling_function fuel lib) a lists;
  genericCompleted a;;
  Ret lists.

(** While it runs, the task has the token of its instance, so the instance is not deleted. *)
Lemma own_genericPolling fuel fuel' a f (J : list (list Z) → iProp Σ) lists :
  fns !! a = Some f →
  □ (∀ s, J s -∗ wp_ (polling_function fuel' lib f s) (λ x, J x.2)) -∗
  poller γ a -∗ J lists -∗
  iwp (SI γ threads base fns) sys_fault (poller γ a)
    (genericPolling fuel (l_tm lib) (polling_function fuel' lib) a lists)
    (λ lists', poller γ a ∗ J lists').
Proof.
  iIntros (Hf) "#Hfun P J". iInduction fuel as [|fuel] "IH" forall (lists).
  { iApply iwp_fault. by do 2 right. }
  cbn [genericPolling]. iApply iwp_bind. iApply (iwp_mono with "[P]").
  { iApply (iwp_once with "P"). iApply wp_poller_load. }
  iIntros (p) "[%Hp P] !>". destruct (_mustFinish p); [iModIntro; iFrame|].
  iApply iwp_bind. iApply (iwp_mono with "[P]").
  { iApply (iwp_once with "P"). iApply wp_poller_load. }
  iIntros (p') "[%Hp' P] !>". rewrite Hf in Hp'. injection Hp' as <-.
  iApply iwp_bind. iApply (iwp_hold with "P").
  iApply (iwp_mono with "[J]"); [by iApply "Hfun"|]. iIntros (x) "J !> P".
  iApply iwp_bind. iApply (iwp_hold with "P").
  iApply iwp_mono.
  { iApply wp_sym; [apply tm_ok|]. iApply (wp_untracked (λ _, True)); [done|].
    by intros v y v' ->. }
  iIntros (err _) "!> P". iApply iwp_bind. iApply (iwp_hold with "P").
  iApply iwp_mono; [iApply (wp_fail_if _ _ _ _ _ _ _ (λ _, True%I)); [apply tm_ok|auto]|].
  iIntros (_) "_ !> P". by iApply ("IH" with "P J").
Qed.

Lemma own_polling_task fuel a f (J : list (list Z) → iProp Σ) lists :
  fns !! a = Some f →
  □ (∀ s, J s -∗ wp_ (polling_function fuel lib f s) (λ x, J x.2)) -∗
  poller γ a -∗ J lists -∗
  iwp (SI γ threads base fns) sys_fault (poller γ a) (polling_task fuel a lists) J.
Proof.
  iIntros (Hf) "#Hfun P J". rewrite /polling_task. iApply iwp_bind.
  iApply (iwp_mono with "[P J]"); [by iApply (own_genericPolling with "Hfun P J")|].
  iIntros (lists') "[P J] !>". iApply iwp_bind. iApply (iwp_mono with "[P]").
  { iApply (iwp_once with "P"). iApply wp_poller_finished. }
  by iIntros (_) "_ !> !>".
Qed.

Lemma own_notifications_task i fuel a :
  fns !! a = Some pollNotifications_fn → 0 < maxSegments (l_env lib) →
  poller γ a -∗ ledger i [] -∗
  iwp (SI γ threads base fns) sys_fault (poller γ a)
    (polling_task fuel a (replicate (Z.to_nat (maxSegments (l_env lib))) [])) (lists_own i).
Proof.
  iIntros (Hf Hm) "P L". iApply (iwp_mono with "[P L]").
  - iApply (own_polling_task _ _ _ (λ lists, ⌜Z.of_nat (length lists) = maxSegments (l_env lib)⌝ ∗
      lists_own i lists)%I with "[] P [L]"); [done| |].
    + iIntros "!>" (lists) "[%Hl R]". cbn [polling_function]. rewrite /pollNotifications.
      iApply (wp_then _ with "[R]"); [by iApply (own_poll_segments with "R")|].
      iIntros (lists') "[%Hl' R] !>". simpl. iFrame "R". by rewrite Hl'.
    + rewrite length_replicate. iSplit; [iPureIntro; lia|].
      iExists (replicate (Z.to_nat (maxSegments (l_env lib))) []).
      rewrite concat_replicate_nil. iFrame. iApply big_sepL2_intro; [by rewrite !length_replicate|].
      iIntros "!>" (k l ts [-> _]%lookup_replicate [-> _]%lookup_replicate). iApply ranges_nil.
  - by iIntros (lists) "[_ $]".
Qed.

Lemma own_queues_task i fuel a k info :
  fns !! a = Some (pollQueues_fn k) → _queuePollingInfos (l_polling lib) !! k = Some info →
  info_valid lib info →
  poller γ a -∗ ledger i [] -∗
  iwp (SI γ threads base fns) sys_fault (poller γ a) (polling_task fuel a []) (lists_own i).
Proof.
  iIntros (Hf Hk Hi) "P L". iApply (iwp_mono with "[P L]").
  - iApply (own_polling_task _ _ _ (λ lists, ⌜lists = []⌝ ∗ ledger i [])%I with "[] P [L]");
      [done| |by iFrame].
    iIntros "!>" (lists) "[-> L]". cbn [polling_function].
    iApply (wp_then _ with "[L]"); [by iApply (own_pollQueues with "L")|].
    iIntros (period) "L !>". by iFrame.
  - iIntros (lists) "[-> L] !>". iExists []. by iFrame.
Qed.

(** ** Waiting for notifications *)

Lemma own_pop_object fuel : ⊢ wp_ (pop_object fuel) (λ p, ∃ r, slot p r).
Proof.
  iInduction fuel as [|fuel] "IH"; [iApply iwp_fault; by do 2 right|].
  cbn [pop_object]. iApply (wp_then _); [iApply wp_pop|]. iIntros ([p|]) "H"; [|done].
  by iModIntro.
Qed.

Lemma own_allocate fuel s f n a rem t :
  ⊢ wp_ (allocate fuel (l_allocator lib) s f n a rem t)
    (λ p, ∃ junk, slot p (WaitingRange_ctor junk s f n a rem t)).
Proof.
  rewrite /allocate. iApply iwp_assert; [apply Hlib|].
  iApply (wp_then _); [iApply own_pop_object|]. iIntros (p) "[%r S]".
  iApply (wp_then _ with "[S]"); [by iApply (wp_construct with "S")|].
  by iIntros (_) "S !>".
Qed.

Lemma own_push_range i m fuel s p r :
  queued r → locked γ (waitingRangeQueueLock s) -∗ slot p r -∗ ledger i (_task r :: m) -∗
  wp_ (push_range fuel s p) (λ _, locked γ (waitingRangeQueueLock s) ∗ ledger i m).
Proof.
  iIntros (Hr) "K S L". iInduction fuel as [|fuel] "IH"; [iApply iwp_fault; by do 2 right|].
  cbn [push_range].
  iApply (wp_then _ with "[K S L]"); [by iApply (wp_enqueue_range with "K S [//] L")|].
  iIntros (b) "[K H]". destruct b; cbn [negb]; [by iFrame|].
  iDestruct "H" as "[S L]". iApply ("IH" with "K S L").
Qed.

Lemma own_enqueue i m fuel s p r :
  queued r → slot p r -∗ ledger i (_task r :: m) -∗ wp_ (enqueue fuel s p) (λ _, ledger i m).
Proof.
  iIntros (Hr) "S L". rewrite /enqueue. iApply (wp_then _); [iApply wp_acquire|].
  iIntros (_) "K". iApply (wp_then _ with "[K S L]").
  { by iApply (own_push_range with "K S L"). }
  iIntros (_) "[K L]". iApply (iwp_mono with "[K]"); [by iApply (wp_release with "K")|].
  by iIntros (_) "_ !>".
Qed.

(** The event a task gets is handed over with its range. *)
Lemma own_register i m fuel s f n a rem :
  waitingRangeQueues (l_env lib) = true → s < maxSegments (l_env lib) →
  0 ≤ f → 0 < rem ≤ n → f + n < 2 ^ number_bits →
  ledger i m ⊢ wp_ (task ← getCurrentTask (l_tm lib);
      assert "task != NULL" (negb (task =? 0));;
      increaseCurrentTaskEvents (l_tm lib) task 1;;
      waitingRange ← allocate fuel (l_allocator lib) s f n a rem task;
      queue ← waiting_range_queue lib s;
      enqueue fuel queue waitingRange;;
      Ret GASPI_SUCCESS) (λ _, ledger i m).
Proof.
  iIntros (Hq Hs Hf Hr Hl) "L". pose proof tm_ok.
  iApply (wp_then _); [by iApply wp_self|]. iIntros (t [Ht0 Ht]).
  iApply iwp_assert; [by apply negb_true_iff, Z.eqb_neq|].
  iApply (wp_then _ with "[L]"); [by iApply (wp_gain _ _ _ _ _ _ _ _ 1 with "L")|].
  iIntros (_) "L". iApply (wp_then _); [iApply own_allocate|]. iIntros (p) "[%junk S]".
  rewrite /waiting_range_queue Hq. rewrite (proj2 (Z.ltb_lt _ _)) //. cbn [andb].
  rewrite mbind_Ret. iApply (wp_then _ with "[S L]").
  { iApply (own_enqueue i m with "S L"). split; [by split|done]. }
  by iIntros (_) "L !>".
Qed.

Lemma own_api_call i m fuel c :
  waitingRangeQueues (l_env lib) = true → api_valid lib c →
  ledger i m ⊢ wp_ (run_api lib fuel c tt) (λ _, ledger i m).
Proof.
  iIntros (Hq Hc) "L". rewrite /run_api.
  iApply (wp_then (λ _, ledger i m) with "[L]"); [|by iIntros (_) "L !>"].
  destruct c as [o|s j a|s f n a]; cbn [api_valid] in Hc.
  - by iApply (own_operation with "L").
  - destruct Hc as ([_ Hs]&Hj&Hl). rewrite /tagaspi_notify_async_wait.
    iApply iwp_assert; [apply Hlib|]. iApply iwp_assert; [by apply Z.ltb_lt|].
    iApply (wp_then (λ rem, ⌜rem = 0 ∨ rem = 1⌝)%I).
    { iApply iwp_mono; [iApply (own_checkNotification _ _ _ (WaitingRange_ctor 0 0 0 0 None 0 0))|].
      - by destruct a.
      - by iIntros (rem) "[% _] !%". }
    iIntros (rem _). case_match; [by iModIntro|]. iApply (own_register with "L"); lia || done.
  - destruct Hc as ([_ Hs]&Hf&Hn&Hl). rewrite /tagaspi_notify_async_waitall.
    iApply iwp_assert; [apply Hlib|]. iApply iwp_assert; [by apply Z.ltb_lt|].
    destruct (Z.eqb_spec n 0); [by iModIntro|].
    iApply (wp_then _); [iApply own_checkNotifications; lia|]. iIntros (rem Hrem).
    destruct (Z.eqb_spec rem 0); [by iModIntro|]. iApply (own_register with "L"); lia || done.
Qed.

(** A task of the application. *)
Definition client (fuel : nat) (calls : list api_call) : prog (list (list Z)) :=
  for_each calls (run_api lib fuel) tt;;
  Ret [].

Lemma own_client i fuel calls :
  waitingRangeQueues (l_env lib) = true → Forall (api_valid lib) calls →
  ledger i [] ⊢ wp_ (client fuel calls) (lists_own i).
Proof.
  iIntros (Hq Hc) "L". rewrite /client. iApply (wp_then _ with "[L]").
  - iApply (iwp_for_each _ _ _ _ _ _ (λ l _, ⌜Forall (api_valid lib) l⌝ ∗ ledger i [])%I
      with "[L]"); [by iFrame|].
    iIntros "!>" (c l []) "[%Hl L]". apply Forall_cons in Hl as [??].
    iApply (iwp_mono with "[L]"); [by iApply (own_api_call with "L")|]. by iIntros (_) "$".
  - iIntros (_) "[_ L] !>". iExists []. by iFrame.
Qed.

(** ** Shutting the polling down *)

Lemma own_wait_finished fuel a :
  owner γ a Registered ⊢ wp_ (wait_finished fuel (l_tm lib) a)
    (λ _, owner γ a Stopped ∗ poller γ a).
Proof.
  iIntros "O". iInduction fuel as [|fuel] "IH"; [iApply iwp_fault; by do 2 right|].
  cbn [wait_finished]. iApply (wp_then _ with "[O]"); [by iApply (wp_owner_load with "O")|].
  iIntros (p) "O". destruct (_finished p); [by iModIntro|].
  iApply (wp_then _).
  { iApply wp_sym; [apply tm_ok|]. iApply (wp_untracked (λ _, True)); [done|].
    by intros v y v' ->. }
  iIntros (err _). iApply (wp_then (λ _, True)%I); [by iApply wp_fail_if; [apply tm_ok|auto]|].
  iIntros (_) "_". by iApply "IH".
Qed.

Lemma own_unregister fuel a :
  owner γ a Registered ⊢ wp_ (unregisterPolling fuel (l_tm lib) a) (λ _, owner γ a Deleted).
Proof.
  iIntros "O". rewrite /unregisterPolling.
  iApply (wp_then _ with "[O]"); [by iApply (wp_owner_mustFinish with "O")|]. iIntros (_) "O".
  iApply (wp_then _ with "[O]"); [by iApply (own_wait_finished with "O")|].
  iIntros (_) "[O P]". by iApply (wp_owner_delete with "O P").
Qed.

(** The thread that runs [Polling::finalize]. *)
Definition shutdown (fuel : nat) : prog (list (list Z)) :=
  Polling_finalize fuel lib;;
  Ret [].


Lemma own_unregister_infos fuel infos :
  (∀ info, info ∈ infos → info_numQueues info ≠ 0 → is_Some (info_pollingInstance info)) →
  ([∗ list] a ∈ info_instances infos, owner γ a Registered) ⊢
  wp_ (for_each infos (unregister_info fuel (l_tm lib)) tt)
    (λ _, [∗ list] a ∈ info_instances infos, owner γ a Deleted).
Proof.
  iIntros (Hs) "O". iInduction infos as [|info infos] "IH"; [by iModIntro|].
  assert (∀ j, j ∈ infos → info_numQueues j ≠ 0 → is_Some (info_pollingInstance j)) as Hs'.
  { intros j ?. apply Hs. by right. }
  cbn [for_each]. rewrite /info_instances /= -!/(info_instances infos) /unregister_info.
  destruct (decide (info_numQueues info = 0)) as [Hz|Hz].
  - rewrite (proj2 (Z.eqb_eq _ _) Hz). cbn [negb]. rewrite mbind_Ret. by iApply "IH".
  - destruct (Hs info (list_elem_of_here _ _) Hz) as [a Ha]. rewrite Ha.
    rewrite (proj2 (Z.eqb_neq _ _) Hz). cbn [negb]. iDestruct "O" as "[Oa O]".
    iApply (wp_then _ with "[Oa]"); [by iApply (own_unregister with "Oa")|].
    iIntros ([]) "Oa". iApply (iwp_mono with "[O]"); [by iApply ("IH" with "[//] O")|].
    iIntros (_) "$ !>". done.
Qed.

Lemma own_shutdown i fuel a :
  _notificationsPollingInstance (l_polling lib) = Some a →
  (∀ info, info ∈ _queuePollingInfos (l_polling lib) → info_numQueues info ≠ 0 → is_Some (info_pollingInstance info)) →
  ([∗ list] b ∈ a :: info_instances (_queuePollingInfos (l_polling lib)), owner γ b Registered) -∗ ledger i [] -∗
  wp_ (shutdown fuel) (λ lists, lists_own i lists ∗
    [∗ list] b ∈ a :: info_instances (_queuePollingInfos (l_polling lib)), owner γ b Deleted).
Proof.
  iIntros (Ha Hs) "[Oa O] L". rewrite /shutdown /Polling_finalize Ha.
  iApply (wp_then (λ _, [∗ list] b ∈ a :: info_instances (_queuePollingInfos (l_polling lib)), owner γ b Deleted)%I with "[Oa O]").
  - iApply (wp_then _ with "[O]"); [by iApply (own_unregister_infos with "O")|].
    iIntros (_) "O". iApply (wp_then _ with "[Oa]"); [by iApply (own_unregister with "Oa")|].
    iIntros (_) "Oa !>". iFrame.
  - iIntros (_) "O !>". iFrame "O". iExists []. by iFrame.
Qed.
End threads.
