(* ===== verification/Locks.v ===== *)
(** The lock discipline of the library as a type system for programs: locks are nested, taken in a
    fixed order, and none is kept. Every function of the API and every thread of the library is
    typed, types are preserved by the interleavings, and typed threads do not deadlock. *)

From S2P Require Import Prelude Types Interface Contract Sim Hoare ErrorHandler EnvVar HardwareInfo TaskingModel Allocator QueueGroup WaitingRange WaitingRangeList WaitingRangeQueue Environment Operations NotifyAsyncWait Polling PollNotifications QueueGroups Initialization Concurrency Ownership Threads.
Open Scope Z_scope.

(** ** Types *)

(** The order of the locks: messages are printed with other locks held. *)
Definition lock_rank (l : lock_id) : nat :=
  match l with
  | queueGroupsLock => 0
  | waitingRangeQueueLock _ => 1
  | errorHandlerLock => 2
  end.

Definition below (l : lock_id) (held : list lock_id) : Prop :=
  Forall (λ l', lock_rank l' < lock_rank l)%nat held.

#[global] Instance below_dec l held : Decision (below l held).
Proof. unfold below. apply _. Defined.

(** What a call does to the locks its thread holds, the last one taken first: it takes a lock
    above them or releases the last. *)
Definition lock_effect {X} (c : call X) (held : list lock_id) : option (list lock_id) :=
  match c with
  | lock_acquire l => if decide (below l held) then Some (l :: held) else None
  | lock_release l =>
      match held with
      | l' :: held => if decide (l' = l) then Some held else None
      | [] => None
      end
  | _ => Some held
  end.

(** A program that is entered with the locks [held] and returns with [after]. *)
Fixpoint lock_typed {A} (held : list lock_id) (p : prog A) (after : list lock_id) : Prop :=
  match p with
  | Ret _ => held = after
  | Fault _ => True
  | Vis c k =>
      match lock_effect c held with
      | Some held => ∀ x, lock_typed held (k x) after
      | None => False
      end
  end.

Lemma lock_typed_bind {A B} h1 h2 h3 (p : prog A) (k : A → prog B) :
  lock_typed h1 p h2 → (∀ a, lock_typed h2 (k a) h3) → lock_typed h1 (p ≫= k) h3.
Proof.
  revert h1. induction p as [a|f|X c k' IH]; intros h1 Hp Hk; simpl in *.
  - subst. apply Hk.
  - done.
  - destruct (lock_effect c h1); [|done]. intros x. by apply IH.
Qed.

(** Most programs leave the locks as they were. *)
Definition balanced {A} (h : list lock_id) (p : prog A) : Prop := lock_typed h p h.

Section balanced.
Context (h : list lock_id).

Lemma balanced_ret {A} (a : A) : balanced h (Ret a).
Proof. done. Qed.

Lemma balanced_fault {A} f : balanced h (Fault (A := A) f).
Proof. done. Qed.

Lemma balanced_bind {A B} (p : prog A) (k : A → prog B) :
  balanced h p → (∀ a, balanced h (k a)) → balanced h (p ≫= k).
Proof. apply lock_typed_bind. Qed.

Lemma balanced_perform {X} (c : call X) : lock_effect c h = Some h → balanced h (perform c).
Proof. unfold balanced. simpl. by intros ->. Qed.

Lemma balanced_for_each {E S} (l : list E) (body : E → S → prog S) s :
  (∀ x s, balanced h (body x s)) → balanced h (for_each l body s).
Proof.
  intros Hb. revert s. induction l as [|x l IH]; intros s; [done|].
  apply balanced_bind; [apply Hb|]. intros s'. apply IH.
Qed.

Lemma balanced_vec_get {E} (l : list E) i : balanced h (vec_get l i).
Proof. unfold vec_get. by repeat case_match. Qed.

Lemma balanced_vec_set {E} (l : list E) i x : balanced h (vec_set l i x).
Proof. unfold vec_set. by repeat case_match. Qed.

Lemma balanced_assert `{BuildConfig} s b : balanced h (assert s b).
Proof. unfold assert. by repeat case_match. Qed.

Lemma balanced_print_abort {A} message : balanced h (print_abort (A := A) message).
Proof. done. Qed.

Lemma lock_typed_acquire l : below l h → lock_typed h (perform (lock_acquire l)) (l :: h).
Proof. intros Hl. simpl. by rewrite decide_True. Qed.

Lemma lock_typed_release l : lock_typed (l :: h) (perform (lock_release l)) h.
Proof. simpl. by rewrite decide_True. Qed.

(** A section of code in which a lock is held. *)
Lemma balanced_critical {A B} l (p : prog A) (k : A → prog B) :
  below l h → balanced (l :: h) p → (∀ a, balanced h (k a)) →
  balanced h (perform (lock_acquire l);; a ← p; perform (lock_release l);; k a).
Proof.
  intros Hl Hp Hk. eapply lock_typed_bind; [by apply lock_typed_acquire|]. intros _.
  eapply lock_typed_bind; [exact Hp|]. intros a.
  eapply lock_typed_bind; [by apply lock_typed_release|]. intros _. apply Hk.
Qed.
End balanced.

Create HintDb locks.
#[export] Hint Resolve balanced_ret balanced_fault balanced_vec_get balanced_vec_set balanced_assert balanced_print_abort : locks.

(** Follows the structure of a program. *)
Ltac balanced_step :=
  match goal with
  | |- balanced _ (_ ≫= _) => apply balanced_bind; [|intros ?]
  | |- balanced _ (perform _) => apply balanced_perform; reflexivity
  | |- balanced _ (for_each _ _ _) => apply balanced_for_each; intros ? ?
  | |- balanced _ (match ?x with _ => _ end) => destruct x
  | |- balanced _ (let _ := _ in _) => cbv zeta
  end.
Ltac balanced := repeat balanced_step; eauto with locks.

Section components.
Context `{BC : BuildConfig} `{GT : GaspiTypes}.

Section held.
Context (h : list lock_id) (Hh : below errorHandlerLock h).

Lemma balanced_emit prefix parts : balanced h (emit prefix parts).
Proof.
  eapply lock_typed_bind; [by apply lock_typed_acquire|]. intros _.
  eapply lock_typed_bind; [by apply balanced_perform|]. intros _. apply lock_typed_release.
Qed.

Lemma balanced_fail {A} parts : balanced h (fail (A := A) parts).
Proof. apply balanced_bind; [apply balanced_emit|]. intros _. by destruct NDEBUG. Qed.

Lemma balanced_warnIf b parts : balanced h (warnIf b parts).
Proof. unfold warnIf. destruct (negb b); [done|]. apply balanced_emit. Qed.

Hint Resolve balanced_emit balanced_fail balanced_warnIf : locks.

(** *** Util.hpp, TaskingModel.hpp, HardwareInfo.hpp *)

Lemma balanced_EnvironmentVariable name d : balanced h (EnvironmentVariable_ctor name d).
Proof. unfold EnvironmentVariable_ctor. balanced. Qed.

Lemma balanced_sym_call {X} s (c : call X) : lock_effect c h = Some h → balanced h (sym_call s c).
Proof. intros Hc. unfold sym_call. balanced. by apply balanced_perform. Qed.

Lemma balanced_load s : balanced h (load s).
Proof. unfold load. balanced. Qed.

Lemma balanced_fail_if_error tm what err : balanced h (fail_if_error tm what err).
Proof. unfold fail_if_error, getError. balanced. by apply balanced_sym_call. Qed.

Hint Resolve balanced_EnvironmentVariable balanced_load balanced_fail_if_error : locks.
Hint Extern 1 (balanced _ (sym_call _ _)) => by apply balanced_sym_call : locks.

Lemma balanced_TaskingModel_initialize tm : balanced h (TaskingModel_initialize tm).
Proof. unfold TaskingModel_initialize. balanced. Qed.

Lemma balanced_getCurrentTask tm : balanced h (getCurrentTask tm).
Proof. unfold getCurrentTask. balanced. Qed.

Lemma balanced_increase tm t n : balanced h (increaseCurrentTaskEvents tm t n).
Proof. unfold increaseCurrentTaskEvents. balanced. Qed.

Lemma balanced_decrease tm t n : balanced h (decreaseTaskEvents tm t n).
Proof. unfold decreaseTaskEvents. balanced. Qed.

Lemma balanced_registerPolling tm name f : balanced h (registerPolling tm name f).
Proof. unfold registerPolling. balanced. Qed.

Lemma balanced_wait_finished fuel tm a : balanced h (wait_finished fuel tm a).
Proof. induction fuel as [|fuel IH]; cbn [wait_finished]; balanced. Qed.

Hint Resolve balanced_TaskingModel_initialize balanced_getCurrentTask balanced_increase balanced_decrease balanced_registerPolling balanced_wait_finished : locks.

Lemma balanced_unregisterPolling fuel tm a : balanced h (unregisterPolling fuel tm a).
Proof. unfold unregisterPolling. balanced. Qed.

Lemma balanced_genericPolling {S} fuel tm (f : polling_function_t → S → prog (Z * S)) a s :
  (∀ g s, balanced h (f g s)) → balanced h (genericPolling fuel tm f a s).
Proof. intros Hf. revert s. induction fuel as [|fuel IH]; intros s; cbn [genericPolling]; balanced. Qed.

Lemma balanced_HardwareInfo_initialize hw : balanced h (HardwareInfo_initialize hw).
Proof. unfold HardwareInfo_initialize, scan_cpu. balanced. Qed.

Hint Resolve balanced_unregisterPolling balanced_HardwareInfo_initialize : locks.

(** *** Allocator.hpp, WaitingRange.hpp, WaitingRangeList.hpp, WaitingRangeQueue.hpp *)

Lemma balanced_Allocator_initialize a : balanced h (Allocator_initialize a).
Proof. unfold Allocator_initialize, push_object. balanced. Qed.

Lemma balanced_Allocator_finalize a : balanced h (Allocator_finalize a).
Proof. unfold Allocator_finalize. balanced. Qed.

Lemma balanced_pop_object fuel : balanced h (pop_object fuel).
Proof. induction fuel as [|fuel IH]; cbn [pop_object]; balanced. Qed.

Lemma balanced_free a o : balanced h (free a o).
Proof. unfold free, WaitingRange_dtor. balanced. Qed.

Lemma balanced_store_value p x : balanced h (store_value p x).
Proof. unfold store_value. balanced. Qed.

Hint Resolve balanced_Allocator_initialize balanced_Allocator_finalize balanced_pop_object balanced_free balanced_store_value : locks.

Lemma balanced_allocate fuel a s f n vs rem t : balanced h (allocate fuel a s f n vs rem t).
Proof. unfold allocate. balanced. Qed.

Lemma balanced_checkNotification s i p : balanced h (checkNotification s i p).
Proof. unfold checkNotification. balanced. Qed.

Lemma balanced_check_loop fuel s f n vs rem : balanced h (check_loop fuel s f n vs rem).
Proof. revert rem. induction fuel as [|fuel IH]; intros rem; cbn [check_loop]; balanced. Qed.

Lemma balanced_push_range fuel s o : balanced h (push_range fuel s o).
Proof. induction fuel as [|fuel IH]; cbn [push_range]; balanced. Qed.

Hint Resolve balanced_allocate balanced_checkNotification balanced_check_loop balanced_push_range : locks.

Lemma balanced_checkNotifications s f n vs rem : balanced h (checkNotifications s f n vs rem).
Proof. unfold checkNotifications. balanced. Qed.

Hint Resolve balanced_checkNotifications : locks.

Lemma balanced_member_check o : balanced h (WaitingRange_checkNotifications o).
Proof. unfold WaitingRange_checkNotifications. balanced. Qed.

Lemma balanced_complete tm o : balanced h (complete tm o).
Proof. unfold complete. balanced. Qed.

Hint Resolve balanced_member_check balanced_complete : locks.

Lemma balanced_list_checkNotifications l c : balanced h (list_checkNotifications l c).
Proof.
  unfold list_checkNotifications. generalize (@nil Z). revert c.
  induction l as [|wr l IH]; intros c before; cbn [check_from]; balanced.
Qed.

Lemma balanced_dequeueAll s l : balanced h (dequeueAll s l).
Proof. unfold dequeueAll. balanced. Qed.

Lemma balanced_queue_dtor s : balanced h (queue_dtor s).
Proof. unfold queue_dtor. balanced. Qed.

Hint Resolve balanced_list_checkNotifications balanced_dequeueAll balanced_queue_dtor : locks.

(** *** Polling.cpp *)

Lemma balanced_poll_queue fuel tm q : balanced h (poll_queue fuel tm q).
Proof. induction fuel as [|fuel IH]; cbn [poll_queue]; unfold complete_request; balanced. Qed.

Hint Resolve balanced_poll_queue : locks.

Lemma balanced_poll_queues_from fuel tm q n : balanced h (poll_queues_from fuel tm q n).
Proof. revert q. induction fuel as [|fuel IH]; intros q; cbn [poll_queues_from]; balanced. Qed.

Hint Resolve balanced_poll_queues_from : locks.

Lemma balanced_poll_segments fuel lib s ls : balanced h (poll_segments fuel lib s ls).
Proof.
  revert s ls. induction fuel as [|fuel IH]; intros s ls; cbn [poll_segments];
    unfold poll_segment, complete_range; balanced.
Qed.

Hint Resolve balanced_poll_segments : locks.

Lemma balanced_polling_function fuel lib f ls : balanced h (polling_function fuel lib f ls).
Proof. unfold polling_function, pollQueues, pollNotifications. balanced. Qed.

Lemma balanced_polling_task lib fuel a ls : balanced h (polling_task lib fuel a ls).
Proof.
  unfold polling_task, genericCompleted. balanced. apply balanced_genericPolling.
  intros f s. apply balanced_polling_function.
Qed.

Lemma balanced_Polling_initialize lib : balanced h (Polling_initialize lib).
Proof. unfold Polling_initialize, register_all, register_queues. balanced. Qed.

Lemma balanced_Polling_finalize fuel lib : balanced h (Polling_finalize fuel lib).
Proof. unfold Polling_finalize, unregister_info. balanced. Qed.

Hint Resolve balanced_Polling_initialize balanced_Polling_finalize : locks.

(** *** Environment.cpp, c/Initialization.cpp *)

Lemma balanced_proc_init lib timeout : balanced h (tagaspi_proc_init lib timeout).
Proof. unfold tagaspi_proc_init, Environment_initialize. balanced. Qed.

Lemma balanced_proc_term fuel lib timeout : balanced h (tagaspi_proc_term fuel lib timeout).
Proof.
  unfold tagaspi_proc_term, Environment_finalize, delete_queues, delete_lists, list_dtor,
    HardwareInfo_finalize. balanced.
Qed.

(** *** The operations and QueueGroup.hpp *)

Lemma balanced_operation lib o : balanced h (run_operation lib o).
Proof.
  destruct o; unfold run_operation, tagaspi_read, tagaspi_write, tagaspi_notify,
    tagaspi_write_notify, tagaspi_read_list, tagaspi_write_list, tagaspi_write_list_notify,
    env_numRequests; balanced.
Qed.

Lemma balanced_getQueue hw g : balanced h (getQueue hw g).
Proof. unfold getQueue, getCurrentCPU. balanced. Qed.

Lemma balanced_assign_first fuel hw r n k rs : balanced h (assign_first fuel hw r n k rs).
Proof. revert k rs. induction fuel as [|fuel IH]; intros k rs; cbn [assign_first]; balanced. Qed.

Hint Resolve balanced_assign_first : locks.

Lemma balanced_setupPolicy fuel hw p g : balanced h (setupPolicy fuel hw p g).
Proof.
  unfold setupPolicy, setupCPURoundRobinData, numa_ranges, assign_range, assign_last, assign_node,
    assign_cpu. balanced.
Qed.
End held.

(** ** The API *)

Hint Resolve balanced_operation balanced_getQueue balanced_setupPolicy balanced_allocate balanced_checkNotification balanced_checkNotifications balanced_getCurrentTask balanced_increase : locks.

Lemma below_nil l : below l [].
Proof. constructor. Qed.

Hint Resolve below_nil : locks.

Lemma balanced_enqueue fuel s o : balanced [] (enqueue fuel s o).
Proof.
  eapply lock_typed_bind; [by apply lock_typed_acquire, below_nil|]. intros _.
  eapply lock_typed_bind; [apply balanced_push_range|]. intros _.
  apply lock_typed_release.
Qed.

Hint Resolve balanced_enqueue : locks.

Lemma balanced_notify_async_wait lib fuel s i a :
  balanced [] (tagaspi_notify_async_wait lib fuel s i a).
Proof. unfold tagaspi_notify_async_wait, waiting_range_queue. balanced. Qed.

Lemma balanced_notify_async_waitall lib fuel s f n a :
  balanced [] (tagaspi_notify_async_waitall lib fuel s f n a).
Proof. unfold tagaspi_notify_async_waitall, waiting_range_queue. balanced. Qed.

Hint Resolve balanced_notify_async_wait balanced_notify_async_waitall : locks.

Lemma balanced_client lib fuel calls : balanced [] (client lib fuel calls).
Proof. unfold client, run_api. balanced. Qed.

Lemma balanced_shutdown lib fuel : balanced [] (shutdown lib fuel).
Proof. unfold shutdown. balanced. apply balanced_Polling_finalize, below_nil. Qed.

Lemma balanced_group_create fuel lib id q n p :
  balanced [] (tagaspi_queue_group_create fuel lib id q n p).
Proof.
  unfold tagaspi_queue_group_create. balanced. apply balanced_critical; [apply below_nil| |done].
  unfold get_group, set_group, group_error, QueueGroup_ctor. balanced.
Qed.

Lemma balanced_group_delete lib id : balanced [] (tagaspi_queue_group_delete lib id).
Proof.
  unfold tagaspi_queue_group_delete. balanced. apply balanced_critical; [apply below_nil| |done].
  unfold get_group, set_group, group_error, QueueGroup_dtor, cleanupPolicyData. balanced.
Qed.

Lemma balanced_group_get_queue lib id : balanced [] (tagaspi_queue_group_get_queue lib id).
Proof. unfold tagaspi_queue_group_get_queue, get_group, set_group. balanced. Qed.
End components.

(** ** Pools of typed threads *)

Section pools.
Context `{GT : GaspiTypes}.

(** What a call does to the locks that are held. *)
Lemma call_held {X} (c : call X) v x v' :
  call_spec c v x v' →
  v_held v' = match c with
              | lock_acquire l => l :: v_held v
              | lock_release l => filter (λ l', l' ≠ l) (v_held v)
              | _ => v_held v
              end.
Proof.
  destruct c; simpl; unfold post_requests; intros Hc;
    repeat (case_decide || case_match || match goal with
      | H : _ ∧ _ |- _ => destruct H
      | H : ∃ _, _ |- _ => destruct H
      end); by subst.
Qed.

(** The locks of the threads are those that are held. *)
Record pool_locks {A} (hs : list (list lock_id)) (ts : list (prog A)) (v : view) : Prop := {
  po_typed : Forall2 (λ h p, lock_typed h p []) hs ts;
  po_held : v_held v ≡ₚ concat hs;
  po_unique : NoDup (v_held v);
}.

Lemma pool_locks_step {A} hs (ts ts' : list (prog A)) v v' :
  pool_locks hs ts v → pool_step (ts, v) (ts', v') → ∃ hs', pool_locks hs' ts' v'.
Proof.
  intros [Ht Hh Hu] Hs.
  inversion Hs as [? i p p' ? ? Hi Hp|]; subst; [|by exists hs].
  destruct p as [a|f|X c k]; [done..|]. destruct Hp as (x&Hc&->).
  destruct (Forall2_lookup_r _ _ _ _ _ Ht Hi) as (h&Hhi&Hk). simpl in Hk.
  destruct (lock_effect c h) as [h'|] eqn:He; [|done].
  exists (<[i := h']> hs).
  assert (Forall2 (λ h p, lock_typed h p []) (<[i := h']> hs) (<[i := k x]> ts)) as Ht'.
  { apply Forall2_insert; [done|apply Hk]. }
  pose proof (concat_insert hs i h h' Hhi) as Hcat. rewrite <- Hh in Hcat.
  apply call_held in Hc as Hv. split; [done|..]; rewrite Hv; clear Hv.
  - destruct c; simpl in He; try (injection He as <-; by apply Permutation_app_inv_r in Hcat).
    + case_decide; [|done]. injection He as <-. apply (Permutation_app_inv_r h).
      rewrite Hcat. solve_Permutation.
    + destruct h as [|l' h]; [done|]. case_decide; [|done]. injection He as <-. subst l'.
      assert (v_held v ≡ₚ l :: concat (<[i := h]> hs)) as Hl.
      { apply (Permutation_app_inv_r h). rewrite <- Hcat. solve_Permutation. }
      rewrite Hl in Hu |- *. apply NoDup_cons in Hu as [Hn _].
      rewrite filter_cons_False by naive_solver. rewrite filter_all; [done|].
      apply Forall_forall. by intros l' Hl' ->.
  - destruct c; try done; [|by apply NoDup_filter]. destruct Hc as [Hl _]. by constructor.
Qed.

Lemma pool_locks_steps {A} hs (c c' : list (prog A) * view) :
  pool_locks hs c.1 c.2 → rtc pool_step c c' → ∃ hs', pool_locks hs' c'.1 c'.2.
Proof.
  intros Hp Hs. revert hs Hp.
  induction Hs as [c|[ts1 v1] [ts2 v2] c' H _ IH]; intros hs Hp; [by exists hs|].
  destruct (pool_locks_step _ _ _ _ _ Hp H) as [hs' Hp']. by apply (IH hs').
Qed.

(** ** Progress *)

(** The lock a call may have to wait for. *)
Definition waits_for {X} (c : call X) : option lock_id :=
  match c with lock_acquire l => Some l | _ => None end.

Lemma permitted_ready {X} (c : call X) v :
  permitted c v → (∀ l, waits_for c = Some l → l ∉ v_held v) → ready c v.
Proof. destruct c; simpl; intros Hp Hl; try done; first [by apply Hl|by destruct Hp]. Qed.

(** A call that is ready has an outcome: that of the simulated runtime, for example. *)
Lemma ready_outcome {X} (c : call X) v : ready c v → ∃ x v', call_spec c v x v'.
Proof.
  intros Hr. set (w := mkSim v 0 GASPI_SUCCESS 0 0).
  destruct (runtime_live (W := Sim) c w) as [[x w'] Hc]; [exact Hr|].
  exists x, (view_of w'). by apply runtime_ok in Hc.
Qed.

Definition can_step {A} (ts : list (prog A)) (v : view) : Prop :=
  ∃ i p p' v', ts !! i = Some p ∧ prog_step p v p' v'.

Definition faulted {A} (p : prog A) : bool := match p with Fault _ => true | _ => false end.

Section progress.
Context {A : Type} (F : fault → Prop) (hs : list (list lock_id)) (ts : list (prog A)) (v : view).
Context (Hpool : pool_locks hs ts v) (Hsafe : Forall (safe F v) ts).
Context (Hok : Forall (λ p, faulted p = false) ts).

Lemma thread_ready i X (c : call X) k :
  ts !! i = Some (Vis c k) → (∀ l, waits_for c = Some l → l ∉ v_held v) → can_step ts v.
Proof.
  intros Hi Hl. rewrite Forall_lookup in Hsafe. specialize (Hsafe _ _ Hi). simpl in Hsafe.
  destruct (ready_outcome c v) as (x&v'&Hc); [by apply permitted_ready|].
  exists i, (Vis c k), (k x), v'. split; [done|]. by exists x.
Qed.

(** The thread that holds a lock can go on, or waits for a lock above it, whose holder can. *)
Lemma holder_steps n l : l ∈ v_held v → (2 < lock_rank l + n)%nat → can_step ts v.
Proof.
  revert l. induction n as [|n IH]; intros l Hl Hn; [destruct l; simpl in Hn; lia|].
  destruct Hpool as [Ht Hh _]. pose proof Hl as Hl'.
  rewrite Hh, list_elem_of_In, in_concat in Hl'. destruct Hl' as (h&Hin%list_elem_of_In&Hlh%list_elem_of_In).
  apply list_elem_of_lookup in Hin as [j Hj].
  destruct (Forall2_lookup_l _ _ _ _ _ Ht Hj) as (p&Hp&Hty).
  destruct p as [a|f|X c k].
  - simpl in Hty. subst h. by apply not_elem_of_nil in Hlh.
  - rewrite Forall_lookup in Hok. by specialize (Hok _ _ Hp).
  - destruct (waits_for c) as [l'|] eqn:Hw; [|by eapply thread_ready; [|rewrite Hw]].
    destruct (decide (l' ∈ v_held v)) as [Hl'|Hl'].
    + apply (IH l'); [done|]. destruct c; simplify_eq/=. case_decide as Hb; [|done].
      unfold below in Hb. rewrite Forall_forall in Hb. specialize (Hb _ Hlh). lia.
    + eapply thread_ready; [done|]. rewrite Hw. by intros ? [= <-].
Qed.

Lemma pool_progress : Forall returned ts ∨ can_step ts v.
Proof.
  destruct (decide (Forall (λ p, match p with Vis _ _ => false | _ => true end = true) ts))
    as [Hall|(p&Hp&Hn)%not_Forall_Exists%Exists_exists]; [left| |apply _].
  - apply Forall_lookup. intros i p Hi. rewrite Forall_lookup in Hall, Hok.
    specialize (Hall _ _ Hi). specialize (Hok _ _ Hi). destruct p; [by eexists|done..].
  - right. apply list_elem_of_lookup in Hp as [i Hi]. destruct p as [a|f|X c k]; [by destruct Hn..|].
    destruct (waits_for c) as [l|] eqn:Hw; [|by eapply thread_ready; [|rewrite Hw]].
    destruct (decide (l ∈ v_held v)) as [Hl|Hl]; [eapply (holder_steps 3); [done|lia]|].
    eapply thread_ready; [done|]. rewrite Hw. by intros ? [= <-].
Qed.
End progress.
End pools.

(** ** Properties *)

(** C21. The functions of the API and the functions that the polling tasks run keep to the lock
    discipline: they take locks only above those they hold, release them in the opposite order and
    return with none. *)
Theorem api_lock_typed `{BC : BuildConfig} `{GT : GaspiTypes} lib fuel :
  (∀ timeout, lock_typed [] (tagaspi_proc_init lib timeout) []) ∧
  (∀ timeout, lock_typed [] (tagaspi_proc_term fuel lib timeout) []) ∧
  (∀ o, lock_typed [] (run_operation lib o) []) ∧
  (∀ s i a, lock_typed [] (tagaspi_notify_async_wait lib fuel s i a) []) ∧
  (∀ s f n a, lock_typed [] (tagaspi_notify_async_waitall lib fuel s f n a) []) ∧
  (∀ id q n p, lock_typed [] (tagaspi_queue_group_create fuel lib id q n p) []) ∧
  (∀ id, lock_typed [] (tagaspi_queue_group_delete lib id) []) ∧
  (∀ id, lock_typed [] (tagaspi_queue_group_get_queue lib id) []) ∧
  (∀ f ls, lock_typed [] (polling_function fuel lib f ls) []).
Proof.
  split_and!; intros.
  - apply balanced_proc_init, below_nil.
  - apply balanced_proc_term, below_nil.
  - apply balanced_operation, below_nil.
  - apply balanced_notify_async_wait.
  - apply balanced_notify_async_waitall.
  - apply balanced_group_create.
  - apply balanced_group_delete.
  - apply balanced_group_get_queue.
  - apply balanced_polling_function, below_nil.
Qed.
