(* ===== verification/System.v ===== *)
(** The library as a whole: the tasks of the application, the polling tasks and the shutdown run
    concurrently on the state that initialisation leaves, in any interleaving and with any
    notifications arriving. *)

From iris.proofmode Require Import proofmode.
From iris.base_logic.lib Require Import ghost_map.
From S2P Require Import Prelude Types Interface Contract Sim HardwareInfo TaskingModel Allocator WaitingRange WaitingRangeList WaitingRangeQueue Environment Operations NotifyAsyncWait Polling PollNotifications QueueGroups Initialization Concurrency Ownership Threads Locks.
Open Scope Z_scope.

Lemma NoDup_omap {A B} (f : A → option B) (l : list A) :
  (∀ i j x y b, l !! i = Some x → l !! j = Some y → f x = Some b → f y = Some b → i = j) →
  NoDup (omap f l).
Proof.
  induction l as [|x l IH]; intros Hl; [constructor|]. simpl.
  assert (NoDup (omap f l)) as Hnd.
  { apply IH. intros i j y z b Hy Hz Hb Hb'. by injection (Hl (S i) (S j) y z b Hy Hz Hb Hb'). }
  destruct (f x) as [b|] eqn:Hb; [|done]. constructor; [|done].
  intros (y&Hy&Hyb)%list_elem_of_omap. apply list_elem_of_lookup in Hy as [j Hy].
  by specialize (Hl 0%nat (S j) x y b eq_refl Hy Hb Hyb).
Qed.

(** ** The threads *)

Section system.
Context `{BC : BuildConfig} `{GT : GaspiTypes}.

Definition lib_infos (lib : Library) : list QueuePollingInfo := _queuePollingInfos (l_polling lib).

(** Thread 0 shuts the polling down, then come the polling task of the notifications, [a] being
    its instance, those of the queues, and the tasks of the application. *)
Definition system (lib : Library) (fuel : nat) (a : Z) (calls : list (list api_call)) :
    list (prog (list (list Z))) :=
  shutdown lib fuel ::
  polling_task lib fuel a (replicate (Z.to_nat (maxSegments (l_env lib))) []) ::
  ((λ b, polling_task lib fuel b []) <$> info_instances (lib_infos lib)) ++
  (client lib fuel <$> calls).

(** The instance whose task a thread runs. *)
Definition thread_instance (lib : Library) (a : Z) (i : nat) : option Z :=
  match i with O => None | S j => (a :: info_instances (lib_infos lib)) !! j end.

(** The state the threads start in: the library was initialised on a suitable host and none of
    its polling tasks has completed; the requests that are outstanding are of no task. *)
Record system_start (h : host) (lib : Library) (a : Z) (calls : list (list api_call)) (v : view) :
    Prop := {
  ss_host : host_good h;
  ss_init : initialised h lib v;
  ss_notifications : _notificationsPollingInstance (l_polling lib) = Some a;
  ss_running b p : v_insts v !! b = Some p → _finished p = false;
  ss_outstanding : Forall (λ t, t = GASPI_TAG_NULL) (v_outstanding v);
  ss_events t : 0 ≤ events v t;
  ss_calls : Forall (Forall (api_valid lib)) calls;
}.

Section start.
Context (h : host) (lib : Library) (a : Z) (calls : list (list api_call)) (v : view).
Hypothesis Hss : system_start h lib a calls v.

Lemma ss_polling : polling_ok (h_queue_max h) (chosen_instances h) v (l_polling lib).
Proof. apply Hss. Qed.

Lemma instance_some info :
  info ∈ lib_infos lib → info_numQueues info ≠ 0 → is_Some (info_pollingInstance info).
Proof.
  intros [k Hk]%list_elem_of_lookup Hn. destruct (po_infos _ _ _ _ ss_polling _ _ Hk) as [Hnum Hi].
  pose proof (ss_host _ _ _ _ _ Hss) as [_ _ [Hq _] _ Hc].
  pose proof (share_num_bounds (h_queue_max h) (chosen_instances h) ltac:(lia) ltac:(lia)
    (Z.of_nat k) ltac:(lia)).
  destruct Hi as (_&b&Hb&_); [lia|]. by exists b.
Qed.

Definition info_instance (info : QueuePollingInfo) : option Z :=
  if decide (info_numQueues info = 0) then None else info_pollingInstance info.

(** Every instance of the queues runs [pollQueues] on its own, valid, information. *)
Lemma instance_info k info b :
  lib_infos lib !! k = Some info → info_instance info = Some b →
  info_valid lib info ∧
  ∃ name, v_insts v !! b = Some (mkPollingInstance name (pollQueues_fn k) false false).
Proof.
  intros Hk Hb. rewrite /info_instance in Hb. case_decide as Hz; [done|].
  destruct (po_infos _ _ _ _ ss_polling _ _ Hk) as [Hnum Hi].
  pose proof (ss_host _ _ _ _ _ Hss) as [_ _ [Hq Hq'] _ Hc].
  pose proof (share_num_bounds (h_queue_max h) (chosen_instances h) ltac:(lia) ltac:(lia)
    (Z.of_nat k) ltac:(lia)).
  pose proof (lookup_lt_Some _ _ _ Hk) as Hlt. rewrite /lib_infos (po_length _ _ _ _ ss_polling) in Hlt.
  pose proof (share_bounds (h_queue_max h) (chosen_instances h) ltac:(lia) ltac:(lia)
    (Z.of_nat k) ltac:(lia)).
  destruct Hi as (Hf&b'&Hb'&Hi); [lia|]. rewrite Hb in Hb'. injection Hb' as <-.
  pose proof (in_queues _ _ _ (ss_init _ _ _ _ _ Hss)) as Hmax.
  split; [|by eexists]. rewrite /info_valid Hf Hnum Hmax. lia.
Qed.

Lemma instances_elem b :
  b ∈ info_instances (lib_infos lib) →
  ∃ k info, lib_infos lib !! k = Some info ∧ info_instance info = Some b.
Proof.
  intros (info&Hin&Hb)%list_elem_of_omap. apply list_elem_of_lookup in Hin as [k Hk].
  by exists k, info.
Qed.

Lemma notifications_instance :
  ∃ name, v_insts v !! a = Some (mkPollingInstance name pollNotifications_fn false false).
Proof.
  destruct (po_notifications _ _ _ _ ss_polling) as (a'&Ha&Hi).
  rewrite (ss_notifications _ _ _ _ _ Hss) in Ha. injection Ha as <-. by eexists.
Qed.

Lemma instances_NoDup : NoDup (a :: info_instances (lib_infos lib)).
Proof.
  constructor.
  - intros (k&info&Hk&Hb)%instances_elem. destruct (instance_info _ _ _ Hk Hb) as [_ [n Hn]].
    destruct notifications_instance as [n' Hn']. congruence.
  - apply NoDup_omap. intros i j x y b Hx Hy Hb Hb'.
    destruct (instance_info _ _ _ Hx Hb) as [_ [n Hn]].
    destruct (instance_info _ _ _ Hy Hb') as [_ [n' Hn']]. congruence.
Qed.

Lemma instances_exist b :
  b ∈ a :: info_instances (lib_infos lib) → is_Some (v_insts v !! b).
Proof.
  intros [->|Hb]%elem_of_cons.
  - destruct notifications_instance as [n Hn]. by eexists.
  - apply instances_elem in Hb as (k&info&Hk&Hb).
    destruct (instance_info _ _ _ Hk Hb) as [_ [n Hn]]. by eexists.
Qed.
End start.

(** ** From ownership to interleavings *)

Section adequacy.
Context `{!ownG Σ}.

Lemma map_elems_list `{!ghost_mapG Σ Z V} g (m : gmap Z V) (l : list Z) :
  NoDup l → (∀ k, k ∈ l → is_Some (m !! k)) →
  ([∗ map] k ↦ x ∈ m, k ↪[g] x) ⊢ [∗ list] k ∈ l, ∃ x, ⌜m !! k = Some x⌝ ∗ k ↪[g] x.
Proof.
  iIntros (Hnd Hl) "M". iInduction Hnd as [|k l Hk Hnd] "IH" forall (m Hl); [done|].
  destruct (Hl k (list_elem_of_here _ _)) as [x Hx].
  rewrite big_sepM_delete //. iDestruct "M" as "[Hx M]". iSplitL "Hx"; [by iFrame|].
  iDestruct ("IH" with "[%] M") as "M".
  - intros k' Hk'. rewrite lookup_delete_ne; [apply Hl; by right|]. by intros ->.
  - iApply (big_sepL_impl with "M"). iIntros "!>" (j k' Hj) "(%y & %Hy & E)".
    iExists y. iFrame. by apply lookup_delete_Some in Hy as [_ ?].
Qed.

Lemma all_held_nil n : all_held (map_seq 0 (replicate n [])) = [].
Proof.
  rewrite /all_held. assert (∀ l : list (nat * list Z), Forall (λ x, x.2 = []) l →
    concat l.*2 = []) as H by (induction 1 as [|[j x] l Hx _ IH]; naive_solver).
  apply H, Forall_forall. intros [j x] Hx%elem_of_map_to_list.
  by apply lookup_map_seq_Some in Hx as [_ [-> _]%lookup_replicate].
Qed.

Lemma big_sepL_indices {A} (Φ : nat → iProp Σ) (l : list A) :
  ([∗ list] i ↦ x ∈ replicate (length l) (@nil Z), Φ i) ⊢ [∗ list] i ↦ x ∈ l, Φ i.
Proof.
  revert Φ. induction l as [|x l IH]; intros Φ; [done|]. simpl.
  iIntros "[$ H]". by iApply (IH (λ i, Φ (S i))).
Qed.

(** Each part of the state owned at the start. *)
Lemma SI_events_start γ n v :
  Forall (λ t, t = GASPI_TAG_NULL) (v_outstanding v) →
  ghost_map_auth (n_held γ) 1 (map_seq 0 (replicate n []) : gmap nat (list Z)) ⊢
  SI_events γ n (events v) (v_events v) (v_outstanding v) [].
Proof.
  iIntros (Ho) "A". iExists _. iFrame "A". iPureIntro. split_and!.
  - intros i. by rewrite lookup_map_seq_0 lookup_lt_is_Some length_replicate.
  - intros t Ht. rewrite all_held_nil !app_nil_r /events.
    rewrite (count_none t (v_outstanding v)); [lia|].
    apply Forall_impl with (1 := Ho). congruence.
  - by apply Forall_impl with (1 := Ho).
Qed.

Lemma SI_objs_start γ v :
  pool_wf v →
  ghost_map_auth (n_objs γ) 1 (v_objs v) -∗
  ([∗ list] p ∈ v_pool v, ∃ r, ⌜v_objs v !! p = Some r⌝ ∗ p ↪[n_objs γ] r) -∗
  SI_objs γ (v_objs v) (v_pool v) (v_pool_capacity v).
Proof.
  iIntros ([Hcap _ Hfree Hobjs]) "A E". iFrame "A". iSplitL; [|by iPureIntro].
  iApply (big_sepL_impl with "E"). iIntros "!>" (k p Hp) "(%r & %Hr & E)". iExists r.
  iFrame. iPureIntro. apply Hfree. by eapply list_elem_of_lookup_2.
Qed.

Lemma SI_locks_start γ held :
  ghost_map_auth (n_locks γ) 1 (gset_to_gmap tt (list_to_set held : gset lock_id)) ⊢
  SI_locks γ held.
Proof.
  iIntros "A". iExists _. iFrame "A". iPureIntro. intros l.
  split; [intros Hl; exists tt|intros [[] Hl]].
  - apply lookup_gset_to_gmap_Some. by rewrite elem_of_list_to_set.
  - apply lookup_gset_to_gmap_Some in Hl as [Hl _]. by apply elem_of_list_to_set in Hl.
Qed.

Lemma SI_insts_start γ (insts : gmap Z PollingInstance) :
  (∀ b p, insts !! b = Some p → _finished p = false) →
  ghost_map_auth (n_owner γ) 1 ((λ _, Registered) <$> insts) -∗
  ghost_map_auth (n_poller γ) 1 ((λ _, tt) <$> insts) -∗
  SI_insts γ (_function <$> insts) insts.
Proof.
  iIntros (Hrun) "AS AP". iExists _, _. iFrame "AS AP". rewrite dom_fmap_L. iSplit; [done|].
  iSplit; [iPureIntro; intros b; rewrite lookup_fmap_Some; naive_solver|].
  iSplit; [iPureIntro; intros b; by rewrite lookup_fmap fmap_is_Some|].
  iSplit; [iPureIntro; intros b p Hp; by rewrite lookup_fmap Hp|].
  iApply big_sepM_intro. iIntros "!>" (b p Hp). iExists Registered.
  rewrite lookup_fmap Hp (Hrun _ _ Hp). by iSplit.
Qed.

(** The ghost state at the start: everything is where the view has it, and the threads get their
    ledgers, the tokens of the polling tasks and the registrations. *)
Lemma system_alloc h lib a calls v (ts : list (prog (list (list Z)))) :
  system_start h lib a calls v →
  let insts := a :: info_instances (lib_infos lib) in
  let n := length ts in
  ⊢ |==> ∃ γ, SI γ n (events v) (_function <$> v_insts v) v ∗
      ([∗ list] i ↦ _ ∈ ts, ledger γ i []) ∗
      ([∗ list] b ∈ insts, owner γ b Registered) ∗ ([∗ list] b ∈ insts, poller γ b).
Proof.
  iIntros (Hss insts n). pose proof (ss_init _ _ _ _ _ Hss) as Hi.
  pose proof (lk_pool _ _ (in_live _ _ _ Hi)) as Hw. pose proof Hw as [_ Hnd Hfree Hobjs].
  iMod (ghost_map_alloc (v_objs v)) as (γo) "[AO EO]".
  iMod (ghost_map_alloc (gset_to_gmap tt (list_to_set (v_held v) : gset lock_id))) as (γl) "[AL _]".
  iMod (ghost_map_alloc (map_seq 0 (replicate n []) : gmap nat (list Z))) as (γh) "[AH EH]".
  iMod (ghost_map_alloc ((λ _, Registered) <$> v_insts v)) as (γs) "[AS ES]".
  iMod (ghost_map_alloc ((λ _, tt) <$> v_insts v)) as (γp) "[AP EP]". iModIntro.
  iExists (Names γo γl γh γs γp). pose proof (instances_NoDup _ _ _ _ _ Hss) as Hni.
  assert (∀ A (f : PollingInstance → A) b, b ∈ insts → is_Some ((f <$> v_insts v) !! b)) as Hin.
  { intros A f b Hb. rewrite lookup_fmap fmap_is_Some. by eapply instances_exist. }
  iDestruct (map_elems_list _ _ insts with "ES") as "ES"; [done|by apply Hin|].
  iDestruct (map_elems_list _ _ insts with "EP") as "EP"; [done|by apply Hin|].
  iDestruct (map_elems_list _ _ (v_pool v) with "EO") as "EO"; [done|auto|].
  iSplitR "EH ES EP"; [|iSplitL "EH"; [|iSplitL "ES"]].
  - iExists []. iSplitL "AH"; [iApply (SI_events_start (Names γo γl γh γs γp) with "AH"); apply Hss|].
    iSplitL "AO EO"; [by iApply (SI_objs_start (Names γo γl γh γs γp) with "AO EO")|].
    iSplitR.
    { by rewrite (proj1 (in_empty _ _ _ (ss_init _ _ _ _ _ Hss))) /SI_queues big_sepL2_nil. }
    iSplitL "AL"; [iApply (SI_locks_start (Names γo γl γh γs γp) with "AL")|].
    iApply (SI_insts_start (Names γo γl γh γs γp) with "AS AP"). apply Hss.
  - rewrite big_sepM_map_seq. iApply big_sepL_indices. iApply (big_sepL_impl with "EH").
    iIntros "!>" (k m [-> _]%lookup_replicate) "E". iExists []. by iFrame.
  - iApply (big_sepL_impl with "ES"). iIntros "!>" (k b _) "(%s & %Hs & E)".
    apply lookup_fmap_Some in Hs as (?&<-&_). done.
  - iApply (big_sepL_impl with "EP"). iIntros "!>" (k b _) "(%s & _ & E)". by destruct s.
Qed.

(** What each thread holds while it runs, and what it has when it returns. *)
Definition thread_holds (γ : names) (lib : Library) (a : Z) (i : nat) : iProp Σ :=
  match thread_instance lib a i with Some b => poller γ b | None => True end.

Definition thread_post (γ : names) (lib : Library) (a : Z) (i : nat) (lists : list (list Z)) :
    iProp Σ :=
  lists_own γ i lists ∗
  match i with
  | O => [∗ list] b ∈ a :: info_instances (lib_infos lib), owner γ b Deleted
  | _ => True
  end.

Lemma system_owned h lib a calls v fuel γ n :
  system_start h lib a calls v →
  let insts := a :: info_instances (lib_infos lib) in
  let ts := system lib fuel a calls in
  ([∗ list] i ↦ _ ∈ ts, ledger γ i []) -∗
  ([∗ list] b ∈ insts, owner γ b Registered) -∗ ([∗ list] b ∈ insts, poller γ b) -∗
  pool_owned (SI γ n (events v) (_function <$> v_insts v)) sys_fault ts
    (thread_holds γ lib a) (thread_post γ lib a).
Proof.
  iIntros (Hss insts ts) "L O P". pose proof (ss_init _ _ _ _ _ Hss) as Hi.
  pose proof (in_lib _ _ _ Hi) as Hlib. pose proof (ss_events _ _ _ _ _ Hss) as Hev.
  rewrite /pool_owned /ts /system /insts !big_sepL_cons !big_sepL_app !big_sepL_fmap.
  iDestruct "L" as "(L0 & L1 & LP & LC)". iDestruct "P" as "[Pa P]".
  iSplitL "L0 O".
  { iApply (iwp_mono with "[L0 O]").
    - iApply (own_shutdown with "O L0"); [done|apply Hss|]. intros info.
      by eapply instance_some.
    - iIntros (lists) "[$ $]". done. }
  iSplitL "L1 Pa".
  { iApply (iwp_mono with "[L1 Pa]").
    - iApply (own_notifications_task with "Pa L1"); [done|done| |].
      + destruct (notifications_instance _ _ _ _ _ Hss) as [name Hn].
        by rewrite lookup_fmap Hn.
      + rewrite (in_segments _ _ _ Hi). apply (hg_segments _ (ss_host _ _ _ _ _ Hss)).
    - iIntros (lists) "$". done. }
  iSplitL "LP P".
  - iCombine "LP P" as "LP". rewrite -big_sepL_sep. iApply (big_sepL_impl with "LP").
    iIntros "!>" (j b Hb) "[L P]". rewrite /thread_holds /= Hb.
    destruct (instances_elem lib b) as (k&info&Hk&Hki); [by eapply list_elem_of_lookup_2|].
    destruct (instance_info _ _ _ _ _ Hss _ _ _ Hk Hki) as [Hv [name Hn]].
    iApply (iwp_mono with "[L P]").
    + iApply (own_queues_task with "P L"); [done|done| |exact Hk|done].
      by rewrite lookup_fmap Hn.
    + iIntros (lists) "$". done.
  - iApply (big_sepL_impl with "LC"). iIntros "!>" (j c Hc) "L".
    rewrite /thread_holds /thread_instance /= length_fmap lookup_ge_None_2; [|lia].
    iApply (iwp_mono with "[L]").
    + iApply (own_client with "L"); [done|done|apply Hi|].
      apply (Forall_lookup_1 _ _ _ _ (ss_calls _ _ _ _ _ Hss) Hc).
    + iIntros (lists) "$". done.
Qed.
End adequacy.

(** What the ownership says of a pool holds of every pool the system reaches. *)
Lemma system_reach h lib a calls v fuel ts v' (φ : Prop) :
  system_start h lib a calls v →
  rtc pool_step (system lib fuel a calls, v) (ts, v') →
  (∀ γ, SI (Σ := ownΣ) γ (length ts) (events v) (_function <$> v_insts v) v' -∗
     pool_owned (SI γ (length ts) (events v) (_function <$> v_insts v)) sys_fault ts
       (thread_holds γ lib a) (thread_post γ lib a) -∗ ⌜φ⌝) →
  φ.
Proof.
  intros Hss Hsteps Hφ. apply (sbi.pure_soundness (PROP := iPropI ownΣ)), uPred.bupd_soundness; [apply _|].
  iMod (system_alloc h lib a calls v (system lib fuel a calls)) as (γ) "(S & L & O & P)"; [done|].
  iDestruct (system_owned with "L O P") as "T"; [done|]. iModIntro.
  assert (length ts = length (system lib fuel a calls)) as Hlen.
  { clear Hφ. change ts with (ts, v').1. change (system lib fuel a calls) with (system lib fuel a calls, v).1.
    induction Hsteps as [|c1 c2 c3 Hs _ IH]; [done|]. rewrite IH.
    destruct Hs; simpl; [by rewrite length_insert|done]. }
  rewrite -Hlen.
  iApply (pool_adequacy _ _ (SI_notif _ _ _ _) (_, v) (ts, v') with "S T"); [done|apply Hφ].
Qed.

(** ** Properties *)

(** C1. The library is safe under concurrency. Whatever the tasks of the application call, however
    the threads interleave and whichever notifications arrive, every thread either has returned,
    was ended by a GASPI or ALPI failure or by the end of its fuel, or is about to make a call that
    is permitted: no task
    loses an event it does not have, no object of the allocator is used or given back while it
    is free, the single-producer queues are pushed to with their lock held, and no polling
    instance is used after it was deleted. No assertion fails and no undefined behaviour of
    these programs is reached. *)
Theorem system_safe h lib a calls v fuel ts v' :
  system_start h lib a calls v →
  rtc pool_step (system lib fuel a calls, v) (ts, v') →
  Forall (safe sys_fault v') ts.
Proof.
  intros Hss Hs. eapply system_reach; [done..|]. intros γ. iIntros "S T".
  iApply (pool_owned_safe with "S T").
Qed.

(** No thread holds a lock at the start, and all are typed. *)
Lemma system_locks h lib a calls v fuel :
  system_start h lib a calls v →
  pool_locks ((λ _, []) <$> system lib fuel a calls) (system lib fuel a calls) v.
Proof.
  intros Hss. split.
  - apply Forall2_fmap_l, Forall_Forall2_diag. repeat (apply Forall_cons; split).
    + apply balanced_shutdown.
    + apply balanced_polling_task, below_nil.
    + apply Forall_app. split; apply Forall_fmap, Forall_true; intros; simpl.
      * apply balanced_polling_task, below_nil.
      * apply balanced_client.
  - rewrite (in_held _ _ _ (ss_init _ _ _ _ _ Hss)). symmetry. by apply Permutation_nil_r, concat_nil_Forall, Forall_fmap, Forall_true.
  - rewrite (in_held _ _ _ (ss_init _ _ _ _ _ Hss)). constructor.
Qed.

(** C6. The library does not deadlock: in every state it reaches, unless all threads have returned or
    one was ended by a failure of GASPI or of the tasking runtime, there is a thread that can make
    its next call. In particular, a thread that waits for a lock waits for one that can go on, or
    that waits in turn for such a thread. *)
Theorem system_progress h lib a calls v fuel ts v' :
  system_start h lib a calls v →
  rtc pool_step (system lib fuel a calls, v) (ts, v') →
  Forall (λ p, faulted p = false) ts →
  Forall returned ts ∨ can_step ts v'.
Proof.
  intros Hss Hs Hok.
  destruct (pool_locks_steps _ (_, v) (ts, v') (system_locks h lib a calls v fuel Hss) Hs)
    as [hs Hp].
  apply (pool_progress sys_fault hs); [done| |done].
  eapply system_reach; [done..|]. intros γ. iIntros "S T". iApply (pool_owned_safe with "S T").
Qed.

(** The objects of a queue hold ranges of the tasks that are accounted. *)
Lemma queue_tasks `{!ownG Σ} γ v rs :
  SI_objs γ (v_objs v) (v_pool v) (v_pool_capacity v) -∗ SI_queues γ (v_spsc v) rs -∗
  ⌜_task <$> rs = range_tasks v (v_spsc v).*2⌝.
Proof.
  iIntros "O Q". rewrite /range_tasks -list_fmap_compose. generalize (v_spsc v) => q.
  iInduction q as [|e q] "IH" forall (rs).
  - by iDestruct (big_sepL2_nil_inv_l with "Q") as %->.
  - iDestruct (big_sepL2_cons_inv_l with "Q") as (r rs' ->) "[[S _] Q]".
    iDestruct (SI_objs_slot with "O S") as %[_ Hr].
    iDestruct ("IH" with "O Q") as %IH. iPureIntro. by rewrite !fmap_cons IH /= Hr.
Qed.

(** C5. A task has an event for each of its outstanding requests and of its ranges in the queues, on
    top of those it had: it is not complete before they are. *)
Theorem system_events h lib a calls v fuel ts v' t :
  system_start h lib a calls v →
  rtc pool_step (system lib fuel a calls, v) (ts, v') → t ≠ GASPI_TAG_NULL →
  events v t + count t (v_outstanding v') + count t (range_tasks v' (v_spsc v').*2) ≤
    events v' t.
Proof.
  intros Hss Hs Ht. eapply system_reach; [done..|]. intros γ.
  iIntros "(%rs & (%H & _ & _ & %Ha & _) & O & Q & _) _".
  iDestruct (queue_tasks with "O Q") as %<-. iPureIntro. specialize (Ha t Ht).
  rewrite !count_app in Ha. rewrite {2}/events. pose proof (count_nonneg t (all_held H)). lia.
Qed.

(** C7. When the polling has been shut down - thread 0 has returned - every polling instance is
    deleted, and no polling task will run any function again. *)
Theorem system_unregistered h lib a calls v fuel ts v' r i b p :
  system_start h lib a calls v →
  rtc pool_step (system lib fuel a calls, v) (ts, v') →
  ts !! 0%nat = Some (Ret r) → thread_instance lib a i = Some b → ts !! i = Some p →
  v_insts v' !! b = None ∧ ¬ running p.
Proof.
  intros Hss Hs H0 Hi Hp. eapply system_reach; [done..|]. intros γ.
  iIntros "(%rs & _ & _ & _ & _ & I) T".
  destruct i as [|j]; [done|]. rewrite /pool_owned (big_sepL_delete _ ts 0) //.
  iDestruct "T" as "[T0 T]". iApply bupd_elim. iMod "T0" as "[_ T0]". simpl in Hi.
  iDestruct (big_sepL_lookup with "T0") as "O"; [exact Hi|].
  iDestruct (SI_insts_deleted with "I O") as %Hdel. iSplitR; [done|].
  destruct p as [res|f|X c k]; [by iIntros "!>" ([])|by iIntros "!>" ([])|].
  iDestruct (big_sepL_lookup _ _ (S j) with "T") as "Tj"; [exact Hp|]. simpl.
  rewrite /thread_holds /thread_instance Hi. iMod "Tj" as "[P _]".
  iDestruct (SI_insts_poller with "I P") as %(q&Hq&_). congruence.
Qed.

(** What the returned threads own, in terms of the view. *)
Lemma lists_own_tasks `{!ownG Σ} γ v i lists :
  SI_objs γ (v_objs v) (v_pool v) (v_pool_capacity v) -∗ lists_own γ i lists -∗
  SI_objs γ (v_objs v) (v_pool v) (v_pool_capacity v) ∗
  ledger γ i (range_tasks v (concat lists)).
Proof.
  iIntros "O (%tss & R & L)".
  iAssert ⌜concat tss = range_tasks v (concat lists)⌝%I as %Heq; [|rewrite Heq; iFrame].
  iClear "L". iInduction lists as [|l lists] "IH" forall (tss).
  { by iDestruct (big_sepL2_nil_inv_l with "R") as %->. }
  iDestruct (big_sepL2_cons_inv_l with "R") as (ts tss' ->) "[(%rs & <- & Rl) R]".
  iDestruct ("IH" with "O R") as %IH. rewrite /= IH /range_tasks fmap_app -/(range_tasks _ _).
  iAssert ⌜_task <$> rs = range_tasks v l⌝%I as %->; [|done]. iClear "IH R". clear IH.
  iInduction l as [|o l] "IH" forall (rs).
  { by iDestruct (big_sepL2_nil_inv_l with "Rl") as %->. }
  iDestruct (big_sepL2_cons_inv_l with "Rl") as (r rs' ->) "[[S _] R]".
  iDestruct (SI_objs_slot with "O S") as %[_ Hr].
  iDestruct ("IH" with "O R") as %IH. iPureIntro. by rewrite /range_tasks !fmap_cons IH Hr.
Qed.

Lemma all_lists_own_tasks `{!ownG Σ} γ v k results :
  SI_objs γ (v_objs v) (v_pool v) (v_pool_capacity v) -∗
  ([∗ list] i ↦ lists ∈ results, lists_own γ (k + i) lists) -∗
  SI_objs γ (v_objs v) (v_pool v) (v_pool_capacity v) ∗
  [∗ list] i ↦ m ∈ (λ lists, range_tasks v (concat lists)) <$> results, ledger γ (k + i) m.
Proof.
  iIntros "O R". iInduction results as [|lists results] "IH" forall (k); [by iFrame|].
  rewrite fmap_cons !big_sepL_cons. iDestruct "R" as "[Rl R]".
  iDestruct (lists_own_tasks with "O Rl") as "[O $]".
  setoid_rewrite Nat.add_succ_r. setoid_rewrite <-Nat.add_succ_l.
  iApply ("IH" with "O R").
Qed.

(** C4. Nothing is lost: when all threads have returned, every event of a task beyond those it had
    is that of an outstanding request, or of a range that waits in a queue or in a list of the
    polling task. So a task whose requests are all reported and whose ranges are all complete
    has no event of the library left. *)
Theorem system_settled h lib a calls v fuel results v' t :
  system_start h lib a calls v →
  rtc pool_step (system lib fuel a calls, v) (Ret <$> results, v') → t ≠ GASPI_TAG_NULL →
  events v' t = events v t +
    count t (v_outstanding v' ++ range_tasks v' ((v_spsc v').*2 ++ concat (concat results))).
Proof.
  intros Hss Hs Ht. eapply system_reach; [done..|]. intros γ.
  iIntros "(%rs & E & O & Q & _) T". rewrite /pool_owned big_sepL_fmap.
  iApply bupd_elim. iAssert (|==> [∗ list] i ↦ lists ∈ results, lists_own γ (0 + i) lists)%I
    with "[T]" as "> R".
  { iApply big_sepL_bupd. iApply (big_sepL_impl with "T").
    iIntros "!>" (i lists _) "T". iMod "T" as "[$ _]". done. }
  iModIntro. iDestruct (queue_tasks with "O Q") as %Hq.
  iDestruct (all_lists_own_tasks with "O R") as "[O L]".
  iDestruct (SI_events_total with "E L") as %He; [by rewrite !length_fmap|].
  iPureIntro. rewrite {1}/events (He t Ht) Hq. do 3 f_equal.
  rewrite /range_tasks fmap_app. f_equal.
  clear. induction results as [|lists results IH]; [done|].
  by rewrite fmap_cons /= IH concat_app fmap_app.
Qed.
End system.

(** ** Examples *)

Section system_examples.
#[local] Existing Instance sim_types.
#[local] Existing Instance debug_build.

(** [sim_lib] after its initialisation: no queue has elements, and both polling tasks run. *)
Definition sim_insts : gmap Z PollingInstance :=
  {[ 0 := mkPollingInstance "TAGASPI QUEUES 0" (pollQueues_fn 0) false false;
     1 := mkPollingInstance "TAGASPI NOTIFICATIONS" pollNotifications_fn false false ]}.

Definition sim_running : Sim :=
  on_view (λ v, set_insts sim_insts (set_spsc [] WR_QUEUE_CAPACITY v)) (sim_pool [4; 2]).

Lemma sim_insts_running b p : sim_insts !! b = Some p → _finished p = false.
Proof.
  rewrite /sim_insts. intros [[_ <-]|[_ Hp]]%lookup_insert_Some; [done|].
  by apply lookup_singleton_Some in Hp as [_ <-].
Qed.

(** Two tasks, each with a communication and a wait. *)
Definition sim_calls : list (list api_call) :=
  [[api_operation (op_write_notify 0 0 1 0 0 8 3 1 0); api_notify_async_wait 0 6 None];
   [api_notify_async_waitall 1 2 4 None; api_operation sim_op]].

Lemma sim_hw_wf : hw_wf (l_hw sim_lib).
Proof.
  split; [|done..]. intros i n Hi Hn. simpl in Hi.
  do 4 (destruct i as [|i]; [by injection Hi as <-|]). done.
Qed.

Lemma sim_describes : describes sim_host (l_hw sim_lib).
Proof.
  split; simpl.
  - intros c Hc Ha%bool_decide_eq_true.
    assert (c = 0 ∨ c = 1 ∨ c = 2 ∨ c = 3) as [->|[->|[->| ->]]] by lia; done.
  - intros i n Hi. do 4 (destruct i as [|i]; [by injection Hi as <-|]). done.
  - intros n. split.
    + destruct n as [|[|n]]; [exists 0|exists 2|done]; done.
    + intros (c&Hc&Ha%bool_decide_eq_true&Hn).
      assert (h_node_of_cpu sim_host c = 0 ∨ h_node_of_cpu sim_host c = 1) as Hn'.
      { simpl. assert (c = 0 ∨ c = 1 ∨ c = 2 ∨ c = 3) as [->|[->|[->| ->]]] by lia; auto. }
      simpl in Hn'. assert (n = 0%nat ∨ n = 1%nat) as [->| ->] by lia; done.
Qed.

Lemma pool_wf_frame i q c v : pool_wf v → pool_wf (set_insts i (set_spsc q c v)).
Proof. intros []. by split. Qed.

Lemma sim_running_pool : pool_wf (view_of sim_running).
Proof.
  refine (pool_wf_frame sim_insts [] WR_QUEUE_CAPACITY (view_of (sim_pool [4; 2])) _).
  apply sim_pool_wf; [|repeat constructor; lia].
  apply (bool_decide_unpack (NoDup [4; 2])). by vm_compute.
Qed.

Lemma sim_initialised : initialised sim_host sim_lib (view_of sim_running).
Proof.
  split.
  - exact sim_lib_ok.
  - split; [exact sim_hw_wf|exact sim_describes].
  - done.
  - done.
  - split; [done| |by eexists]. intros [|i] info Hi; [|done]. injection Hi as <-.
    split; [done|]. intros _. split; [done|]. by exists 0.
  - by split.
  - done.
  - apply live_ok_fresh; [exact sim_running_pool|done].
  - intros seg. split; [exact sim_running_pool|apply not_elem_of_nil|done].
  - by intros [=].
  - done.
  - done.
  - done.
Qed.

Lemma sim_start : system_start sim_host sim_lib 1 sim_calls (view_of sim_running).
Proof.
  split.
  - exact sim_host_good.
  - exact sim_initialised.
  - done.
  - exact sim_insts_running.
  - constructor.
  - intros t. rewrite /events /= lookup_empty. done.
  - assert (api_valid sim_lib (api_operation (op_write_notify 0 0 1 0 0 8 3 1 0))) by done.
    assert (api_valid sim_lib (api_notify_async_wait 0 6 None)) by (split_and!; done).
    assert (api_valid sim_lib (api_notify_async_waitall 1 2 4 None)) by (split_and!; done).
    assert (api_valid sim_lib (api_operation sim_op)) by done.
    by repeat (apply Forall_cons; split).
Qed.

(** After [n] calls of each thread that has them left. *)
Definition sim_after (n : nat) : list (prog (list (list Z))) * Sim :=
  run_schedule (concat (replicate n [3; 1; 4; 2; 0]%nat)) (system sim_lib 40 1 sim_calls)
    sim_running.

Lemma sim_after_steps n :
  rtc pool_step (system sim_lib 40 1 sim_calls, view_of sim_running)
    ((sim_after n).1, view_of (sim_after n).2).
Proof. exact (run_schedule_steps _ _ _). Qed.

(** After twenty calls every thread has returned: the notifications task leaves a range in its
    list of segment 1, and there is another in the queue of segment 0. *)
Definition sim_results : list (list (list Z)) := [[]; [[]; [4]]; []; []; []].

Lemma sim_after_results : (sim_after 20).1 = Ret <$> sim_results.
Proof. by vm_compute. Qed.

Lemma system_safe_witness : Forall (safe sys_fault (view_of (sim_after 12).2)) (sim_after 12).1.
Proof.
  exact (system_safe sim_host sim_lib 1 sim_calls _ 40 _ _ sim_start (sim_after_steps 12)).
Defined.

Lemma system_progress_witness : can_step (sim_after 12).1 (view_of (sim_after 12).2).
Proof.
  destruct (system_progress sim_host sim_lib 1 sim_calls _ 40 _ _ sim_start
    (sim_after_steps 12)) as [Hr|Hs]; [| |exact Hs].
  - apply (bool_decide_unpack _). by vm_compute.
  - apply (Forall_impl _ (λ p, match p with Ret _ => true | _ => false end = true)) in Hr.
    + exfalso. refine (bool_decide_eq_false_1 _ _ Hr). by vm_compute.
    + by intros p [x ->].
Defined.

Lemma system_events_witness : 4 ≤ events (view_of (sim_after 12).2) 77.
Proof.
  etrans; [|exact (system_events sim_host sim_lib 1 sim_calls _ 40 _ _ 77 sim_start
    (sim_after_steps 12) ltac:(done))].
  by vm_compute.
Defined.

Lemma system_unregistered_witness :
  v_insts (view_of (sim_after 20).2) !! 1 = None ∧ ¬ running (Ret (A := list (list Z)) [[]; [4]]).
Proof.
  refine (system_unregistered sim_host sim_lib 1 sim_calls _ 40 (sim_after 20).1 _ [] 1 1 _
    sim_start (sim_after_steps 20) _ _ _); [..|done|]; by rewrite sim_after_results.
Defined.

Lemma system_settled_witness :
  ∃ v', rtc pool_step (system sim_lib 40 1 sim_calls, view_of sim_running)
          (Ret <$> sim_results, v') ∧
    events v' 77 = 0 + count 77 (v_outstanding v' ++ range_tasks v' ((v_spsc v').*2 ++ [4])).
Proof.
  assert (rtc pool_step (system sim_lib 40 1 sim_calls, view_of sim_running)
    (Ret <$> sim_results, view_of (sim_after 20).2)) as Hs.
  { rewrite -sim_after_results. apply sim_after_steps. }
  eexists. split; [exact Hs|].
  exact (system_settled sim_host sim_lib 1 sim_calls _ 40 sim_results _ 77 sim_start Hs
    ltac:(done)).
Defined.
End system_examples.
