(* ===== verification/Utils.v ===== *)
(** util/Utils.hpp: sets of small numbers as the bits of a word, and the padding that keeps the
    elements of an array on different cache lines. *)

From S2P Require Import Prelude.

#[local] Open Scope Z_scope.

(** ** Masks *)

(** [mask_t] is [size_t]; the size of a type is in bytes. *)
Definition MASK_BITS (sizeof : Z) : Z := sizeof * 8.

(** [1ULL << b], undefined when there is no such bit. *)
Definition bit (b : Z) : option Z :=
  if decide (0 ≤ b < 64) then Some (u64 (Z.shiftl 1 b)) else None.

Definition MASK_SET (a b : Z) : option Z := m ← bit b; Some (Z.lor a m).
Definition MASK_CLEAR (a b : Z) : option Z := m ← bit b; Some (Z.land a (u64 (Z.lnot m))).
Definition MASK_ISSET (a b : Z) : option Z := m ← bit b; Some (Z.land a m).
Definition MASK_RESET (a : Z) : Z := 0.

(** [__builtin_popcountll] *)
Definition MASK_COUNT (a : Z) : Z :=
  Z.of_nat (length (filter (λ b, Z.testbit a b = true) (seqZ 0 64))).

(** ** Padding *)

Definition CACHELINE_SIZE : Z := 64.

(** [Padded<T, Size>::roundup(x, y)], on [size_t]. *)
Definition roundup (x y : Z) : Z := u64 (u64 (x + u64 (y - 1)) `div` y * y).

(** The length of [padding], and the size of the padded type. *)
Definition padding (sizeof Size : Z) : Z := u64 (roundup sizeof Size - sizeof).
Definition Padded_size (sizeof Size : Z) : Z := sizeof + padding sizeof Size.

(** ** Properties *)

(** The set of numbers a word stands for. *)
Definition mask_elements (a : Z) : gset Z :=
  list_to_set (filter (λ b, Z.testbit a b = true) (seqZ 0 64)).

Lemma elem_of_mask a b : b ∈ mask_elements a ↔ 0 ≤ b < 64 ∧ Z.testbit a b = true.
Proof.
  unfold mask_elements. rewrite elem_of_list_to_set, list_elem_of_filter, elem_of_seqZ.
  intuition lia.
Qed.

Lemma bit_spec b : 0 ≤ b < 64 → bit b = Some (2 ^ b).
Proof.
  intros Hb. unfold bit. rewrite decide_True by done. rewrite Z.shiftl_1_l. f_equal.
  apply wrap_small. split; [apply Z.pow_nonneg; lia|apply Z.pow_lt_mono_r; lia].
Qed.

(** A word is smaller than 2^64 when it has no higher bits. *)
Lemma word_range a : 0 ≤ a → (∀ i, 64 ≤ i → Z.testbit a i = false) → a < 2 ^ 64.
Proof.
  intros Ha Hi. destruct (decide (a = 0)) as [->|]; [done|]. apply Z.log2_lt_pow2; [lia|].
  destruct (decide (Z.log2 a < 64)) as [|Hl]; [done|]. exfalso.
  pose proof (Z.bit_log2 a ltac:(lia)) as Hb. rewrite Hi in Hb by lia. done.
Qed.

Lemma word_bits a i : 0 ≤ a < 2 ^ 64 → 64 ≤ i → Z.testbit a i = false.
Proof.
  intros Ha Hi. destruct (decide (a = 0)) as [->|]; [apply Z.testbit_0_l|].
  apply Z.bits_above_log2; [lia|]. apply Z.lt_le_trans with 64; [|done].
  apply Z.log2_lt_pow2; lia.
Qed.

Lemma u64_lnot_testbit m i : 0 ≤ i < 64 → Z.testbit (u64 (Z.lnot m)) i = negb (Z.testbit m i).
Proof. intros Hi. unfold u64, wrap. rewrite Z.mod_pow2_bits_low, Z.lnot_spec by lia. done. Qed.

(** C34. The macros implement the operations of a set of the numbers below 64, as long as the number is
    one of them: adding, removing, membership, size, and clearing. *)
Theorem mask_refines_set a b :
  0 ≤ a < 2 ^ 64 → 0 ≤ b < 64 →
  (∃ a', MASK_SET a b = Some a' ∧ 0 ≤ a' < 2 ^ 64 ∧ mask_elements a' = {[b]} ∪ mask_elements a) ∧
  (∃ a', MASK_CLEAR a b = Some a' ∧ 0 ≤ a' < 2 ^ 64 ∧ mask_elements a' = mask_elements a ∖ {[b]}) ∧
  (∃ x, MASK_ISSET a b = Some x ∧ (x ≠ 0 ↔ b ∈ mask_elements a)) ∧
  MASK_COUNT a = Z.of_nat (size (mask_elements a)) ∧
  mask_elements (MASK_RESET a) = ∅.
Proof.
  intros Ha Hb. unfold MASK_SET, MASK_CLEAR, MASK_ISSET, MASK_COUNT. rewrite bit_spec by done.
  pose proof (Z.pow_pos_nonneg 2 b ltac:(lia) ltac:(lia)) as Hpos. cbn [mbind option_bind].
  split_and!.
  - eexists. split; [done|]. split; [split|].
    + apply Z.lor_nonneg; lia.
    + apply word_range; [apply Z.lor_nonneg; lia|]. intros i Hi.
      rewrite Z.lor_spec, (word_bits a), Z.pow2_bits_false by lia. done.
    + apply set_eq. intros x. rewrite elem_of_union, elem_of_singleton, !elem_of_mask, Z.lor_spec.
      rewrite orb_true_iff, (Z.pow2_bits_eqb b x), Z.eqb_eq by lia. intuition lia.
  - eexists. split; [done|]. split; [split|].
    + apply Z.land_nonneg; lia.
    + apply word_range; [apply Z.land_nonneg; lia|]. intros i Hi.
      by rewrite Z.land_spec, (word_bits a) by lia.
    + apply set_eq. intros x. rewrite elem_of_difference, elem_of_singleton, !elem_of_mask.
      destruct (decide (0 ≤ x < 64)) as [Hx|]; [|naive_solver].
      rewrite Z.land_spec, andb_true_iff, u64_lnot_testbit, Z.pow2_bits_eqb by lia.
      rewrite negb_true_iff, Z.eqb_neq. naive_solver.
  - eexists. split; [done|]. rewrite elem_of_mask. split.
    + intros Hn. split; [done|]. destruct (Z.testbit a b) eqn:Hab; [done|]. destruct Hn.
      apply Z.bits_inj'. intros i Hi. rewrite Z.land_spec, Z.pow2_bits_eqb, Z.testbit_0_l by lia.
      destruct (Z.eqb_spec b i) as [->|]; [by rewrite Hab|apply andb_false_r].
    + intros [_ Hab] H0. apply (f_equal (λ z, Z.testbit z b)) in H0.
      rewrite Z.land_spec, Z.pow2_bits_true, Hab, Z.testbit_0_l in H0 by lia. done.
  - unfold mask_elements. rewrite size_list_to_set; [done|]. apply NoDup_filter, NoDup_seqZ.
  - apply set_eq. intros x. rewrite elem_of_mask. unfold MASK_RESET. rewrite Z.testbit_0_l.
    set_solver.
Qed.

Lemma mask_refines_set_witness :
  ∃ a', MASK_SET 5 3 = Some a' ∧ mask_elements a' = {[3]} ∪ mask_elements 5.
Proof.
  destruct (mask_refines_set 5 3) as [(a'&Hs&_&He) _]; [done|done|]. by exists a'.
Defined.

(** [roundup] gives the least multiple that is not smaller. *)
Lemma roundup_spec x y :
  0 ≤ x → 0 < y → x + (y - 1) < 2 ^ 64 →
  ∃ k, roundup x y = k * y ∧ x ≤ k * y < x + y.
Proof.
  intros Hx Hy Hb. unfold roundup, u64. rewrite (wrap_small 64 (y - 1)) by lia.
  rewrite (wrap_small 64 (x + _)) by lia. exists ((x + (y - 1)) `div` y).
  pose proof (Z.div_mod (x + (y - 1)) y ltac:(lia)).
  pose proof (Z.mod_pos_bound (x + (y - 1)) y ltac:(lia)).
  rewrite wrap_small; [split; [done|]|]; nia.
Qed.

(** Elements of an array of padded objects, aligned to a cache line as the code declares them,
    never share a cache line: the bytes of two of them are on different lines. *)
Theorem Padded_no_sharing sizeof base i j x y :
  0 < sizeof → sizeof + CACHELINE_SIZE ≤ 2 ^ 64 → base `mod` CACHELINE_SIZE = 0 → i ≠ j →
  let address k x := base + k * Padded_size sizeof CACHELINE_SIZE + x in
  0 ≤ x < sizeof → 0 ≤ y < sizeof →
  address i x `div` CACHELINE_SIZE ≠ address j y `div` CACHELINE_SIZE.
Proof.
  intros Hs Hb Ha Hij address Hx Hy. unfold address, Padded_size, padding. clear address.
  unfold CACHELINE_SIZE in *. destruct (roundup_spec sizeof 64) as (k&->&Hk); [lia..|].
  unfold u64. rewrite wrap_small by lia. replace (sizeof + (k * 64 - sizeof)) with (k * 64) by lia.
  pose proof (Z.div_mod base 64 ltac:(lia)) as Hd. rewrite Ha in Hd. rewrite Hd. clear Hd Ha.
  replace (64 * (base `div` 64) + 0 + i * (k * 64) + x)
    with (x + (base `div` 64 + i * k) * 64) by lia.
  replace (64 * (base `div` 64) + 0 + j * (k * 64) + y)
    with (y + (base `div` 64 + j * k) * 64) by lia.
  rewrite !Z.div_add by lia.
  assert (0 ≤ x `div` 64 < k ∧ 0 ≤ y `div` 64 < k) as [Hx' Hy'].
  { split; (split; [apply Z.div_pos; lia|apply Z.div_lt_upper_bound; lia]). }
  nia.
Qed.

(** An array of 72-byte objects. *)
Lemma Padded_no_sharing_witness :
  (4096 + 1 * Padded_size 72 64 + 0) `div` 64 ≠ (4096 + 0 * Padded_size 72 64 + 71) `div` 64.
Proof. apply (Padded_no_sharing 72 4096 1 0 0 71); done. Defined.
