(* ===== verification/SafeEmit.v ===== *)
(** The signal-safe printing of class [ErrorHandler] (common/util/ErrorHandler.hpp): the parts of a
    message are formatted in a buffer of the caller and written to standard error one by one. *)

From S2P Require Import Prelude.

#[local] Open Scope Z_scope.

(** ** The C library *)

Definition NUL : ascii := Ascii.zero.

(** [snprintf] into a buffer of the given bytes: the text is cut to what fits before the final NUL,
    and the length it would have had is returned. *)
Definition snprintf (buffer text : list ascii) : list ascii * Z :=
  match buffer with
  | [] => (buffer, Z.of_nat (length text))
  | _ :: _ =>
      let written := take (length buffer - 1) text ++ [NUL] in
      (written ++ drop (length written) buffer, Z.of_nat (length text))
  end.

(** [write(2, buffer, length)]: the bytes written; [None] when it reads behind the buffer. *)
Definition write_err (buffer : list ascii) (length : Z) : option (list ascii) :=
  if decide (length ≤ Z.of_nat (List.length buffer)) then Some (take (Z.to_nat length) buffer)
  else None.

Definition bytes (s : string) : list ascii := String.list_ascii_of_string s.

Section safe_emit.

(** Floating-point numbers, a [float] being promoted to [double], and their "%f" conversion. *)
Context {F : Type} (format_f : F → string).

(** ** Emitting *)

(** The overloads of [safeEmitPart]. *)
Variant safe_part :=
  | SChar (c : ascii)
  | SInt (i : Z)
  | SLong (l : Z)
  | SCStr (s : string)
  | SFloat (f : F)
  | SDouble (f : F).

(** [int length = snprintf(buffer, size, format, part); write(2, buffer, length);] *)
Definition emit_formatted (buffer text : list ascii) : option (list ascii * list ascii) :=
  let '(buffer, length) := snprintf buffer text in
  out ← write_err buffer length; Some (buffer, out).

(** The buffer afterwards and the bytes written. *)
Definition safeEmitPart (buffer : list ascii) (part : safe_part) :
    option (list ascii * list ascii) :=
  match part with
  | SChar c => Some (buffer, [c])
  | SInt i => emit_formatted buffer (bytes (pretty i))
  | SLong l => emit_formatted buffer (bytes (pretty l))
  | SCStr s => Some (buffer, bytes s)
  | SFloat f | SDouble f => emit_formatted buffer (bytes (format_f f))
  end.

Fixpoint safeEmitReasonParts (buffer : list ascii) (reasonParts : list safe_part) :
    option (list ascii * list ascii) :=
  match reasonParts with
  | [] => Some (buffer, [])
  | firstReasonPart :: reasonParts =>
      r ← safeEmitPart buffer firstReasonPart;
      r' ← safeEmitReasonParts (r.1) reasonParts;
      Some (r'.1, r.2 ++ r'.2)
  end.

(** ** How long the texts are *)

(** What a part should print. *)
Definition part_text (part : safe_part) : list ascii :=
  match part with
  | SChar c => [c]
  | SInt z | SLong z => bytes (pretty z)
  | SCStr s => bytes s
  | SFloat f | SDouble f => bytes (format_f f)
  end.

(** The part has the type its overload says, and formatted text fits. *)
Definition part_fits (size : Z) (part : safe_part) : Prop :=
  match part with
  | SInt i => - 2 ^ 31 ≤ i < 2 ^ 31
  | SLong l => - 2 ^ 63 ≤ l < 2 ^ 63
  | SFloat f | SDouble f => Z.of_nat (length (bytes (format_f f))) < size
  | SChar _ | SCStr _ => True
  end.

Lemma length_bytes s : length (bytes s) = String.length s.
Proof. induction s as [|c s IH]; simpl; [done|]. by f_equal. Qed.

Lemma pretty_N_go_length k x s :
  (x < 10 ^ N.of_nat k)%N → (String.length (pretty_N_go x s) ≤ k + String.length s)%nat.
Proof.
  revert x s. induction k as [|k IH]; intros x s Hx.
  { assert (x = 0%N) as -> by (apply N.lt_1_r, Hx). rewrite pretty_N_go_0. done. }
  destruct (decide (x = 0%N)) as [->|Hx0]; [rewrite pretty_N_go_0; lia|].
  rewrite pretty_N_go_step by lia.
  assert (x `div` 10 < 10 ^ N.of_nat k)%N as Hd.
  { apply N.Div0.div_lt_upper_bound.
    by rewrite Nat2N.inj_succ, N.pow_succ_r' in Hx. }
  specialize (IH _ (String (pretty_N_char (x `mod` 10)) s) Hd). simpl in IH. lia.
Qed.

Lemma pretty_N_length k x :
  (0 < k)%nat → (x < 10 ^ N.of_nat k)%N → (String.length (pretty x) ≤ k)%nat.
Proof.
  intros Hk Hx. unfold pretty, pretty_N. case_decide; [simpl; lia|].
  pose proof (pretty_N_go_length k x "" Hx) as Hl. simpl in Hl. lia.
Qed.

(** A sign and [k] digits. *)
Lemma pretty_Z_length k z :
  (0 < k)%nat → (Z.abs_N z < 10 ^ N.of_nat k)%N → (length (bytes (pretty z)) ≤ S k)%nat.
Proof.
  intros Hk Hz. rewrite length_bytes. destruct z as [|p|p]; simpl in Hz.
  - simpl. lia.
  - change (pretty (Z.pos p)) with (pretty (N.pos p)).
    pose proof (pretty_N_length k (N.pos p) Hk Hz). lia.
  - change (pretty (Z.neg p)) with (String "-" (pretty (N.pos p))).
    pose proof (pretty_N_length k (N.pos p) Hk Hz). simpl. lia.
Qed.

(** ** Properties *)

(** One formatted text: whole when it is shorter than the buffer, with a NUL for its last byte when
    it is as long, and an access out of bounds when it is longer. *)
Theorem emit_formatted_cases buffer text :
  buffer ≠ [] →
  if decide (length text < length buffer)%nat then
    ∃ buffer', emit_formatted buffer text = Some (buffer', text) ∧ length buffer' = length buffer
  else if decide (length text = length buffer) then
    ∃ buffer', emit_formatted buffer text =
      Some (buffer', take (length text - 1) text ++ [NUL])
  else emit_formatted buffer text = None.
Proof.
  intros Hb. unfold emit_formatted, snprintf. destruct buffer as [|b buffer]; [done|].
  set (B := b :: buffer) in *. assert (0 < length B)%nat by (simpl; lia). clearbody B. cbv zeta.
  set (written := take (length B - 1) text ++ [NUL]).
  assert (length written = (length B - 1) `min` length text + 1)%nat as Hw.
  { unfold written. rewrite length_app, length_take. simpl. lia. }
  assert (length (written ++ drop (length written) B) = length B) as Hl.
  { rewrite length_app, length_drop. lia. }
  unfold write_err. rewrite Hl, Nat2Z.id. case_decide as Hlt; [|case_decide as Heq].
  - rewrite decide_True by lia. eexists. split; [|exact Hl]. simpl. do 2 f_equal.
    unfold written. rewrite (take_ge text) by lia.
    by rewrite <- app_assoc, take_app_length.
  - rewrite decide_True by lia. eexists. simpl. do 2 f_equal.
    rewrite take_app_le by lia. rewrite take_ge by lia. unfold written. by rewrite Heq.
  - by rewrite decide_False by lia.
Qed.

(** C33. With a buffer of at least 21 bytes, the longest [long] with its sign and the final NUL, integers,
    characters and strings are printed exactly, one part after the other; floating-point numbers
    are when they are shorter than the buffer. *)
Theorem safeEmitReasonParts_spec buffer parts :
  21 ≤ Z.of_nat (length buffer) → Forall (part_fits (Z.of_nat (length buffer))) parts →
  ∃ buffer', safeEmitReasonParts buffer parts = Some (buffer', concat (part_text <$> parts)).
Proof.
  assert (∀ buffer text, (length text < length buffer)%nat →
    ∃ buffer', emit_formatted buffer text = Some (buffer', text) ∧
      length buffer' = length buffer) as Hfit.
  { intros B text Hl. pose proof (emit_formatted_cases B text) as Hc.
    rewrite decide_True in Hc by done. apply Hc. intros ->. simpl in Hl. lia. }
  intros Hb Hp. revert buffer Hb Hp. induction parts as [|p parts IH]; intros buffer Hb Hp.
  { by exists buffer. }
  apply Forall_cons in Hp as [Hp Hps].
  assert (∃ buffer', safeEmitPart buffer p = Some (buffer', part_text p) ∧
    length buffer' = length buffer) as (b1&H1&Hl1).
  { destruct p as [c|i|l|s|f|f]; simpl in Hp |- *; try (by exists buffer); apply Hfit; try lia.
    - pose proof (pretty_Z_length 10 i ltac:(lia)). lia.
    - pose proof (pretty_Z_length 19 l ltac:(lia)). lia. }
  destruct (IH b1) as [b2 H2]; [by rewrite Hl1|by rewrite Hl1|].
  exists b2. simpl. rewrite H1. simpl. by rewrite H2.
Qed.
End safe_emit.

(** ** Examples *)

(** [safeEmitPart] with "%f" of whole numbers. *)
Definition format_whole (n : Z) : string := pretty n +:+ ".000000".

Lemma safeEmitReasonParts_spec_witness :
  ∃ buffer', safeEmitReasonParts format_whole (replicate 21 NUL)
      [SCStr "exit "; SInt (-7); SChar ","; SDouble 25] =
    Some (buffer', bytes "exit -7,25.000000").
Proof.
  apply (safeEmitReasonParts_spec format_whole (replicate 21 NUL)
    [SCStr "exit "; SInt (-7); SChar ","; SDouble 25]); [done|].
  repeat (apply Forall_cons; split; [done|]). constructor.
Defined.

(** A number of five digits and a buffer of four bytes. *)
Lemma emit_formatted_cases_witness :
  emit_formatted (replicate 4 NUL) (bytes (pretty 12345%Z)) = None.
Proof. exact (emit_formatted_cases (replicate 4 NUL) (bytes (pretty 12345%Z)) ltac:(done)). Defined.
