(* ===== verification/QueueTable.v ===== *)
(** The table of queue groups under concurrency: any number of threads run the functions of
    c/QueueGroups.cpp, in any interleaving, one access to shared memory per step. Creating and
    deleting a group take [queueGroupsLock]; asking a group for a queue does not. *)

From S2P Require Import Prelude Types Interface Contract Sim HardwareInfo QueueGroup Environment.
Open Scope Z_scope.

(** ** State *)

(** Where a thread is.
    - [TCreateWait], [TDeleteWait]: before taking the lock;
    - [TCreateNum]: before reading [numQueueGroups]; [TCreateEntry], [TDeleteEntry], [TGetEntry]:
      before reading the entry of the table;
    - [TCreateNew]: before [new]; [TDeleteFree]: before [delete];
    - [TCreateStore], [TDeleteStore]: before writing the entry; [TCreateCount], [TDeleteCount]:
      before updating [numQueueGroups];
    - [TUnlock r]: before the guard releases the lock and [r] is returned;
    - [TGetUse], [TGetExchange]: in [getQueue], before the load of the counter or of the CPU's
      queue, and before the compare-and-exchange.
    [args] are the arguments of the creation; the group that the constructor and [setupPolicy]
    make of them is not known to the other threads until it is in the table. *)
Record group_args := GroupArgs {
  queue_begin : Z;
  queue_num : Z;
  ga_policy : gaspi_queue_group_policy_t;
}.

Variant table_pc :=
  | TIdle
  | TCreateWait (id : nat) (args : group_args)
  | TCreateNum (id : nat) (args : group_args)
  | TCreateEntry (id : nat) (args : group_args)
  | TCreateNew (id : nat) (args : group_args)
  | TCreateStore (id a : nat)
  | TCreateCount
  | TDeleteWait (id : nat)
  | TDeleteEntry (id : nat)
  | TDeleteFree (id a : nat)
  | TDeleteStore (id : nat)
  | TDeleteCount
  | TUnlock (r : gaspi_return_t)
  | TGetEntry (id : nat)
  | TGetUse (id a : nat)
  | TGetExchange (id a : nat) (offset : Z).

(** [queueGroups], [numQueueGroups], the groups that are allocated by address, who holds
    [queueGroupsLock], and the threads. *)
Record table := Table {
  t_entries : list (option nat);
  t_num : Z;
  t_heap : gmap nat QueueGroup;
  t_lock : option nat;
  t_threads : list table_pc;
}.

Definition goto (i : nat) (pc : table_pc) (s : table) : table :=
  Table (t_entries s) (t_num s) (t_heap s) (t_lock s) (<[i := pc]> (t_threads s)).
Definition set_entries (es : list (option nat)) (s : table) : table :=
  Table es (t_num s) (t_heap s) (t_lock s) (t_threads s).
Definition set_num (n : Z) (s : table) : table :=
  Table (t_entries s) n (t_heap s) (t_lock s) (t_threads s).
Definition set_heap (h : gmap nat QueueGroup) (s : table) : table :=
  Table (t_entries s) (t_num s) h (t_lock s) (t_threads s).
Definition set_lock (l : option nat) (s : table) : table :=
  Table (t_entries s) (t_num s) (t_heap s) l (t_threads s).

Definition table_init (n : nat) : table :=
  Table (replicate (Z.to_nat MaxQueueGroups) None) 0 ∅ None (replicate n TIdle).

(** ** Steps *)

(** The calls of c/QueueGroups.cpp. *)
Variant table_call :=
  | call_create (id : nat) (args : group_args)
  | call_delete (id : nat)
  | call_get (id : nat).

(** What a step does that matters: a call begins or returns, a queue is handed out, the program uses or
    deletes a group that was deleted before. *)
Variant table_event :=
  | TNothing
  | TCalled (i : nat) (c : table_call)
  | TReturned (i : nat) (r : gaspi_return_t)
  | TGot (i id : nat) (queue : Z)
  | TUsedFreed (i a : nat)
  | TDoubleFreed (i a : nat).

Section steps.
Context `{BC : BuildConfig} `{GT : GaspiTypes} (hw : HardwareInfo).

(** The object before [setupPolicy]. *)
Definition new_group (args : group_args) : QueueGroup :=
  mkQueueGroup (queue_begin args) (queue_num args) None data_null.

Inductive table_step (s : table) (i : nat) : table_event → table → Prop :=
  (* tagaspi_queue_group_create *)
  | create_call id args :
      t_threads s !! i = Some TIdle → Z.of_nat id < MaxQueueGroups → group_ok (new_group args) →
      table_step s i (TCalled i (call_create id args)) (goto i (TCreateWait id args) s)
  | create_lock id args :
      t_threads s !! i = Some (TCreateWait id args) → t_lock s = None →
      table_step s i TNothing (goto i (TCreateNum id args) (set_lock (Some i) s))
  | create_num id args :
      t_threads s !! i = Some (TCreateNum id args) →
      table_step s i TNothing
        (goto i (if MaxQueueGroups <=? t_num s then TUnlock GASPI_ERROR else TCreateEntry id args) s)
  | create_entry id args e :
      t_threads s !! i = Some (TCreateEntry id args) → t_entries s !! id = Some e →
      table_step s i TNothing
        (goto i (match e with
                 | Some _ => TUnlock GASPI_ERROR
                 | None => if isValidPolicy (ga_policy args) then TCreateNew id args
                           else TUnlock GASPI_ERROR
                 end) s)
  | create_new id args fuel g a :
      t_threads s !! i = Some (TCreateNew id args) →
      setupPolicy fuel hw (ga_policy args) (new_group args) = Ret g → t_heap s !! a = None →
      table_step s i TNothing (goto i (TCreateStore id a) (set_heap (<[a := g]> (t_heap s)) s))
  | create_store id a :
      t_threads s !! i = Some (TCreateStore id a) →
      table_step s i TNothing
        (goto i TCreateCount (set_entries (<[id := Some a]> (t_entries s)) s))
  | create_count :
      t_threads s !! i = Some TCreateCount →
      table_step s i TNothing
        (goto i (TUnlock GASPI_SUCCESS) (set_num (number (t_num s + 1)) s))
  (* tagaspi_queue_group_delete *)
  | delete_call id :
      t_threads s !! i = Some TIdle → Z.of_nat id < MaxQueueGroups →
      table_step s i (TCalled i (call_delete id)) (goto i (TDeleteWait id) s)
  | delete_lock id :
      t_threads s !! i = Some (TDeleteWait id) → t_lock s = None →
      table_step s i TNothing (goto i (TDeleteEntry id) (set_lock (Some i) s))
  | delete_entry id e :
      t_threads s !! i = Some (TDeleteEntry id) → t_entries s !! id = Some e →
      table_step s i TNothing
        (goto i (match e with Some a => TDeleteFree id a | None => TUnlock GASPI_ERROR end) s)
  | delete_free id a :
      t_threads s !! i = Some (TDeleteFree id a) →
      table_step s i (match t_heap s !! a with Some _ => TNothing | None => TDoubleFreed i a end)
        (goto i (TDeleteStore id) (set_heap (delete a (t_heap s)) s))
  | delete_store id :
      t_threads s !! i = Some (TDeleteStore id) →
      table_step s i TNothing (goto i TDeleteCount (set_entries (<[id := None]> (t_entries s)) s))
  | delete_count :
      t_threads s !! i = Some TDeleteCount →
      table_step s i TNothing
        (goto i (TUnlock GASPI_SUCCESS) (set_num (number (t_num s - 1)) s))
  (* ~lock_guard and return *)
  | unlock r :
      t_threads s !! i = Some (TUnlock r) →
      table_step s i (TReturned i r) (goto i TIdle (set_lock None s))
  (* tagaspi_queue_group_get_queue *)
  | get_call id :
      t_threads s !! i = Some TIdle → Z.of_nat id < MaxQueueGroups →
      table_step s i (TCalled i (call_get id)) (goto i (TGetEntry id) s)
  | get_none id :
      t_threads s !! i = Some (TGetEntry id) → t_entries s !! id = Some None →
      table_step s i (TReturned i GASPI_ERROR) (goto i TIdle s)
  | get_some id a :
      t_threads s !! i = Some (TGetEntry id) → t_entries s !! id = Some (Some a) →
      table_step s i TNothing (goto i (TGetUse id a) s)
  | get_single id a g :
      t_threads s !! i = Some (TGetUse id a) → t_heap s !! a = Some g →
      _policy g = Some GASPI_QUEUE_GROUP_POLICY_DEFAULT → _numQueues g ≤ 1 →
      table_step s i (TGot i id (_firstQueue g)) (goto i TIdle s)
  | get_counter id a g counter :
      t_threads s !! i = Some (TGetUse id a) → t_heap s !! a = Some g →
      _policy g = Some GASPI_QUEUE_GROUP_POLICY_DEFAULT → 1 < _numQueues g →
      _data g = data_counter counter →
      table_step s i TNothing (goto i (TGetExchange id a counter) s)
  | get_cpu id a g policy queues cpu queue :
      t_threads s !! i = Some (TGetUse id a) → t_heap s !! a = Some g →
      _policy g = Some policy → policy ≠ GASPI_QUEUE_GROUP_POLICY_DEFAULT →
      _data g = data_queues queues → queues !! cpu = Some queue →
      table_step s i (TGot i id queue) (goto i TIdle s)
  | get_exchange id a offset g counter :
      t_threads s !! i = Some (TGetExchange id a offset) → t_heap s !! a = Some g →
      _data g = data_counter counter →
      table_step s i (TGot i id (queue_at g offset))
        (goto i TIdle (set_heap
          (<[a := set_data (data_counter (compare_exchange offset (nextOffset g offset) counter)) g]>
            (t_heap s)) s))
  | get_freed id a :
      t_threads s !! i = Some (TGetUse id a) ∨
        (∃ offset, t_threads s !! i = Some (TGetExchange id a offset)) →
      t_heap s !! a = None →
      table_step s i (TUsedFreed i a) (goto i TIdle s).

(** The states that the threads can get to while every state before satisfies [P]. *)
Inductive table_reach (P : table → Prop) (n : nat) : table → Prop :=
  | table_reach_init : table_reach P n (table_init n)
  | table_reach_step s i e s' :
      table_reach P n s → P s → table_step s i e s' → table_reach P n s'.
End steps.

(** ** Creating and deleting *)

(** The thread holds the lock. *)
Definition critical (pc : table_pc) : bool :=
  match pc with
  | TIdle | TCreateWait _ _ | TDeleteWait _ | TGetEntry _ | TGetUse _ _ | TGetExchange _ _ _ => false
  | _ => true
  end.

(** The entries in use are different, and they are exactly the groups that exist. *)
Record consistent (es : list (option nat)) (h : gmap nat QueueGroup) : Prop := {
  cs_unique j k a : es !! j = Some (Some a) → es !! k = Some (Some a) → j = k;
  cs_exist a : is_Some (h !! a) ↔ ∃ j, es !! j = Some (Some a);
}.

(** What the thread that holds the lock has established. *)
Definition lock_inv (es : list (option nat)) (num : Z) (h : gmap nat QueueGroup) (pc : table_pc) :
    Prop :=
  match pc with
  | TCreateNew id args => consistent es h ∧ num = count_some es ∧ es !! id = Some None ∧
      isValidPolicy (ga_policy args) = true
  | TCreateStore id a =>
      consistent es (delete a h) ∧ num = count_some es ∧ es !! id = Some None ∧ is_Some (h !! a)
  | TCreateCount => consistent es h ∧ num = count_some es - 1
  | TDeleteFree id a => consistent es h ∧ num = count_some es ∧ es !! id = Some (Some a)
  | TDeleteStore id => consistent (<[id := None]> es) h ∧ num = count_some es ∧
      ∃ a, es !! id = Some (Some a)
  | TDeleteCount => consistent es h ∧ num = count_some es + 1
  | _ => consistent es h ∧ num = count_some es
  end.

Record table_inv (s : table) : Prop := {
  ti_length : Z.of_nat (length (t_entries s)) = MaxQueueGroups;
  ti_critical i pc : t_threads s !! i = Some pc → critical pc = true → t_lock s = Some i;
  ti_lock i : t_lock s = Some i → ∃ pc, t_threads s !! i = Some pc ∧ critical pc = true ∧
    lock_inv (t_entries s) (t_num s) (t_heap s) pc;
  ti_free : t_lock s = None → consistent (t_entries s) (t_heap s) ∧ t_num s = count_some (t_entries s);
}.

Lemma consistent_dom es h h' :
  (∀ a, is_Some (h' !! a) ↔ is_Some (h !! a)) → consistent es h → consistent es h'.
Proof. intros Hd []. split; [done|]. intros a. by rewrite Hd. Qed.

Lemma lock_inv_dom es num h h' pc :
  (∀ a, is_Some (h' !! a) ↔ is_Some (h !! a)) → lock_inv es num h pc → lock_inv es num h' pc.
Proof.
  intros Hd. assert (∀ es, consistent es h → consistent es h') as Hc by (intros; by eapply consistent_dom).
  destruct pc; cbn; try (intros [? ?]; split; [by apply Hc|done]).
  intros (?&?&?&?). split_and!; [|done|done|by apply Hd].
  eapply consistent_dom; [|done]. intros b. rewrite !lookup_delete_is_Some, Hd. done.
Qed.

Section table_invariant.
Context `{BC : BuildConfig} `{GT : GaspiTypes} (hw : HardwareInfo).

Lemma table_init_inv n : table_inv (table_init n).
Proof.
  assert (∀ i (pc : table_pc), replicate n TIdle !! i = Some pc → pc = TIdle) as Hidle
    by by intros i pc [-> _]%lookup_replicate.
  assert (consistent (replicate (Z.to_nat MaxQueueGroups) None) ∅) as Hc.
  { assert (∀ j a, replicate (Z.to_nat MaxQueueGroups) None !! j ≠ Some (Some a : option nat)) as Hr
      by by intros j a [[=] _]%lookup_replicate.
    split; [by intros j k a ?%Hr|]. intros a. rewrite lookup_empty.
    split; [by intros []|by intros [j ?%Hr]]. }
  split.
  - done.
  - by intros i pc ->%Hidle.
  - done.
  - intros _. split; [exact Hc|]. symmetry. apply (count_some_none (Z.to_nat MaxQueueGroups)).
Qed.

(** A thread moves between places where it does not hold the lock, touching the groups at most. *)
Lemma table_inv_outside s i pc pc' h :
  t_threads s !! i = Some pc → critical pc = false → critical pc' = false →
  (∀ a, is_Some (h !! a) ↔ is_Some (t_heap s !! a)) →
  table_inv s → table_inv (goto i pc' (set_heap h s)).
Proof.
  intros Hi Hc Hc' Hd [Hlen Hcr Hl Hf]. split; simpl; [done|..].
  - intros j pc1 [(->&<-&_)|[Hne Hj]]%list_lookup_insert_Some Hcr1; [congruence|by eapply Hcr].
  - intros j Hj. destruct (Hl j Hj) as (pc1&Hpc1&Hcr1&HI). exists pc1. split.
    + rewrite list_lookup_insert_ne; [done|]. intros ->. congruence.
    + split; [done|]. by eapply lock_inv_dom.
  - intros Hn. destruct (Hf Hn) as [? ?]. split; [by eapply consistent_dom|done].
Qed.

(** The thread that holds the lock moves on. *)
Lemma table_inv_inside s i pc pc' es num h :
  t_threads s !! i = Some pc → critical pc = true → critical pc' = true →
  length es = length (t_entries s) → lock_inv es num h pc' →
  table_inv s → table_inv (goto i pc' (set_entries es (set_num num (set_heap h s)))).
Proof.
  intros Hi Hc Hc' Hlen' HI [Hlen Hcr Hl Hf]. pose proof (Hcr _ _ Hi Hc) as Hlock.
  split; simpl.
  - by rewrite Hlen'.
  - intros j pc1 [(->&<-&_)|[Hne Hj]]%list_lookup_insert_Some Hcr1; [done|by eapply Hcr].
  - intros j Hj. rewrite Hlock in Hj. injection Hj as <-. exists pc'.
    rewrite list_lookup_insert_eq by by eapply lookup_lt_Some. done.
  - by rewrite Hlock.
Qed.

Lemma table_inv_acquire s i pc pc' :
  t_threads s !! i = Some pc → t_lock s = None → critical pc' = true →
  (∀ es num h, consistent es h → num = count_some es → lock_inv es num h pc') →
  table_inv s → table_inv (goto i pc' (set_lock (Some i) s)).
Proof.
  intros Hi Hl Hc' HI [Hlen Hcr _ Hf]. destruct (Hf Hl) as [Hcs Hnum]. split; simpl; [done|..|done].
  - intros j pc1 [(->&<-&_)|[Hne Hj]]%list_lookup_insert_Some Hcr1; [done|].
    specialize (Hcr _ _ Hj Hcr1). congruence.
  - intros j [= <-]. exists pc'. rewrite list_lookup_insert_eq by by eapply lookup_lt_Some. auto.
Qed.

Lemma table_inv_release s i r :
  t_threads s !! i = Some (TUnlock r) → table_inv s → table_inv (goto i TIdle (set_lock None s)).
Proof.
  intros Hi [Hlen Hcr Hl Hf]. pose proof (Hcr _ _ Hi eq_refl) as Hlock.
  destruct (Hl _ Hlock) as (pc&Hpc&_&HI). rewrite Hi in Hpc. injection Hpc as <-.
  split; simpl; [done|..|done|by intros _].
  intros j pc1 [(->&<-&_)|[Hne Hj]]%list_lookup_insert_Some Hcr1; [done|].
  specialize (Hcr _ _ Hj Hcr1). congruence.
Qed.

Lemma holder_inv s i pc :
  t_threads s !! i = Some pc → critical pc = true → table_inv s →
  lock_inv (t_entries s) (t_num s) (t_heap s) pc.
Proof.
  intros Hi Hc Hinv. destruct (ti_lock _ Hinv i (ti_critical _ Hinv _ _ Hi Hc)) as (pc'&Hi'&_&HI).
  rewrite Hi in Hi'. by injection Hi' as <-.
Qed.

(** What each operation on the table does to its consistency. *)
Lemma consistent_new es h id a g :
  consistent es h → es !! id = Some None → h !! a = None →
  consistent es (delete a (<[a := g]> h)) ∧ es !! id = Some None ∧ is_Some (<[a := g]> h !! a).
Proof.
  intros Hc Hid Ha. rewrite delete_insert_id by done. split_and!; [done|done|].
  rewrite lookup_insert_eq. by eexists.
Qed.

Lemma consistent_store es h id a :
  consistent es (delete a h) → es !! id = Some None → is_Some (h !! a) →
  consistent (<[id := Some a]> es) h.
Proof.
  intros [Hu He] Hid Ha. pose proof (lookup_lt_Some _ _ _ Hid) as Hlt.
  assert (∀ j, es !! j ≠ Some (Some a)) as Hna.
  { intros j Hj. destruct (proj2 (He a)) as [g Hg]; [by exists j|]. by rewrite lookup_delete_eq in Hg. }
  split.
  - intros j k b [(->&[= ->]&_)|[? Hj]]%list_lookup_insert_Some
      [(->&[=]&_)|[? Hk]]%list_lookup_insert_Some; subst; [done|by apply Hna in Hk|by apply Hna in Hj|].
    by eapply Hu.
  - intros b. destruct (decide (b = a)) as [->|Hne].
    + split; [|done]. intros _. exists id. by rewrite list_lookup_insert_eq.
    + assert (is_Some (h !! b) ↔ is_Some (delete a h !! b)) as -> by by rewrite lookup_delete_ne.
      rewrite He. split; intros [j Hj]; exists j.
      * rewrite list_lookup_insert_ne; [done|]. intros ->. congruence.
      * by apply list_lookup_insert_Some in Hj as [(_&[= ->]&_)|[_ ?]].
Qed.

Lemma consistent_free es h id a :
  consistent es h → es !! id = Some (Some a) → consistent (<[id := None]> es) (delete a h).
Proof.
  intros [Hu He] Hid. split.
  - intros j k b [(_&[=]&_)|[_ Hj]]%list_lookup_insert_Some [(_&[=]&_)|[_ Hk]]%list_lookup_insert_Some.
    by eapply Hu.
  - intros b. rewrite lookup_delete_is_Some, He. split.
    + intros [Hne [j Hj]]. exists j. rewrite list_lookup_insert_ne; [done|]. intros ->. congruence.
    + intros [j [(_&[=]&_)|[Hne Hj]]%list_lookup_insert_Some]. split; [|by exists j].
      intros ->. by pose proof (Hu _ _ _ Hid Hj).
Qed.

Lemma count_bounds s : table_inv s → 0 ≤ count_some (t_entries s) ≤ 16.
Proof.
  intros Hinv. pose proof (count_some_bounds (t_entries s)). rewrite (ti_length _ Hinv) in H. exact H.
Qed.

Lemma number_count x : 0 ≤ x ≤ 16 → number x = x.
Proof.
  intros ?. apply number_small. pose proof number_bits_range.
  assert (2 ^ 16 ≤ 2 ^ number_bits) by (apply Z.pow_le_mono_r; lia). lia.
Qed.

(** A step of a thread that does not hold the lock. *)
Lemma table_inv_step_outside s i e s' pc :
  t_threads s !! i = Some pc → critical pc = false → table_inv s → table_step hw s i e s' →
  table_inv s' ∧ ∀ j a, e ≠ TDoubleFreed j a.
Proof.
  intros Hpc Hcr Hinv Hs.
  assert (∀ pc', critical pc' = false → table_inv (goto i pc' s)) as Hout.
  { intros pc' ?. by apply (table_inv_outside s i pc pc' (t_heap s)). }
  destruct Hs as [id g Hi|id g Hi Hl|id g Hi|id g x Hi|id g f g' a Hi|id a Hi|Hi|id Hi|id Hi Hl
    |id x Hi|id a Hi|id Hi|Hi|r Hi|id Hi|id Hi|id a Hi|id a g Hi|id a g c Hi
    |id a g p q c x Hi|id a o g c Hi Hg Hd|id a Hi Hg];
    try (rewrite Hi in Hpc; injection Hpc as <-; discriminate Hcr);
    (split; [|discriminate]); try by apply Hout.
  - eapply table_inv_acquire; [exact Hi|done|done| |done]. intros es num h ? ?. by split.
  - eapply table_inv_acquire; [exact Hi|done|done| |done]. intros es num h ? ?. by split.
  - eapply (table_inv_outside s); [exact Hi|done|done| |done]. intros b.
    rewrite lookup_insert_is_Some'. naive_solver.
Qed.

(** A step of the thread that holds it. *)
Lemma table_inv_step_inside s i e s' pc :
  t_threads s !! i = Some pc → critical pc = true → table_inv s → table_step hw s i e s' →
  table_inv s' ∧ ∀ j a, e ≠ TDoubleFreed j a.
Proof.
  intros Hpc Hcr Hinv Hs. pose proof (holder_inv s i pc Hpc Hcr Hinv) as HI.
  pose proof (count_bounds s Hinv) as Hb. pose proof (ti_length _ Hinv) as Hlen.
  assert (∀ pc' es num h, critical pc' = true → length es = length (t_entries s) →
    lock_inv es num h pc' → table_inv (goto i pc' (set_entries es (set_num num (set_heap h s)))))
    as Hin by (intros; by eapply table_inv_inside).
  assert (∀ id x, length (<[id := x]> (t_entries s)) = length (t_entries s)) as Hli
    by (intros; apply length_insert).
  destruct Hs as [id g Hi|id g Hi Hl|id g Hi|id g x Hi Hx|id g f g' a Hi Hnew Ha|id a Hi|Hi|id Hi|id Hi Hl
    |id x Hi Hx|id a Hi|id Hi|Hi|r Hi|id Hi|id Hi|id a Hi|id a g Hi|id a g c Hi
    |id a g p q c x Hi|id a o g c Hi Hg Hd|id a [Hi|[o Hi]] Hg];
    rewrite Hi in Hpc; injection Hpc as <-; try discriminate Hcr; cbn in HI;
    (split; [|try discriminate]).
  - apply (Hin _ (t_entries s) (t_num s) (t_heap s)); [by case_match|done|]. by case_match.
  - apply (Hin _ (t_entries s) (t_num s) (t_heap s)); [by repeat case_match|done|].
    destruct x; [exact HI|]. destruct (isValidPolicy (ga_policy g)) eqn:Hv; [|exact HI]. by destruct HI.
  - apply (Hin _ (t_entries s) (t_num s)); [done|done|]. destruct HI as (Hc&Hn&Hid&_).
    destruct (consistent_new _ _ id a g' Hc Hid Ha) as (?&?&?). by split_and!.
  - apply (Hin _ _ (t_num s) (t_heap s)); [done|apply Hli|]. destruct HI as (Hc&Hn&Hid&Ha). split.
    + by apply consistent_store.
    + rewrite count_some_set by done. lia.
  - apply (Hin _ (t_entries s) (number (t_num s + 1)) (t_heap s)); [done|done|].
    destruct HI as [Hc Hn]. split; [done|]. rewrite number_count; lia.
  - apply (Hin _ (t_entries s) (t_num s) (t_heap s)); [by case_match|done|]. destruct x; [by destruct HI|exact HI].
  - apply (Hin _ (t_entries s) (t_num s)); [done|done|].
    destruct HI as (Hc&Hn&Hid). split_and!; [by apply consistent_free|done|by exists a].
  - intros j b. destruct HI as (Hc&Hn&Hid). destruct (proj2 (cs_exist _ _ Hc a)) as [g ->]; [by exists id|]. discriminate.
  - apply (Hin _ _ (t_num s) (t_heap s)); [done|apply Hli|]. destruct HI as (Hc&Hn&a&Ha).
    split; [done|]. rewrite (count_some_reset _ _ a) by done. lia.
  - apply (Hin _ (t_entries s) (number (t_num s - 1)) (t_heap s)); [done|done|].
    destruct HI as [Hc Hn]. split; [done|]. rewrite number_count; lia.
  - by eapply table_inv_release.
Qed.

Lemma table_inv_step s i e s' :
  table_inv s → table_step hw s i e s' → table_inv s' ∧ ∀ j a, e ≠ TDoubleFreed j a.
Proof.
  intros Hinv Hs. assert (∃ pc, t_threads s !! i = Some pc) as [pc Hpc] by (inv Hs; naive_solver).
  destruct (critical pc) eqn:Hc; [by eapply table_inv_step_inside|by eapply table_inv_step_outside].
Qed.
End table_invariant.

(** ** Asking for a queue *)

(** The arguments of the group that a thread is about to create. *)
Definition pc_args (pc : table_pc) : option group_args :=
  match pc with
  | TCreateWait _ g | TCreateNum _ g | TCreateEntry _ g | TCreateNew _ g => Some g
  | _ => None
  end.

(** The entry that a thread has read in order to use its group, and that it is deleting. *)
Definition getting (pc : table_pc) : option (nat * nat) :=
  match pc with TGetUse id a | TGetExchange id a _ => Some (id, a) | _ => None end.
Definition deleting (pc : table_pc) : option nat :=
  match pc with TDeleteFree id _ | TDeleteStore id => Some id | _ => None end.

(** No group is deleted while it is used. *)
Definition no_overlap (s : table) : Prop :=
  ∀ i j pc pc' id a, t_threads s !! i = Some pc → t_threads s !! j = Some pc' →
    getting pc = Some (id, a) → deleting pc' ≠ Some id.

Section table_queues.
Context `{BC : BuildConfig} `{GT : GaspiTypes} (hw : HardwareInfo).

Definition offset_ok (h : gmap nat QueueGroup) (pc : table_pc) : Prop :=
  match pc with
  | TGetExchange _ a o => ∀ g, h !! a = Some g →
      _policy g = Some GASPI_QUEUE_GROUP_POLICY_DEFAULT ∧ 0 ≤ o < _numQueues g
  | _ => True
  end.

Record get_inv (s : table) : Prop := {
  gi_groups a g : t_heap s !! a = Some g → set_up hw g;
  gi_new i pc args : t_threads s !! i = Some pc → pc_args pc = Some args → group_ok (new_group args);
  gi_entry i pc id a : t_threads s !! i = Some pc → getting pc = Some (id, a) →
    t_entries s !! id = Some (Some a);
  gi_offset i pc : t_threads s !! i = Some pc → offset_ok (t_heap s) pc;
}.

(** A group with a counter has the default policy, and its counter is in range. *)
Lemma set_up_counter g c :
  set_up hw g → _data g = data_counter c →
  group_ok g ∧ _policy g = Some GASPI_QUEUE_GROUP_POLICY_DEFAULT ∧ 0 ≤ c < _numQueues g.
Proof.
  intros [(Hok&c'&Hp&Hd&Hc)|(_&_&queues&Hd&_)] Hdc; rewrite Hdc in Hd; [|done].
  by injection Hd as <-.
Qed.

Lemma set_up_default g :
  set_up hw g → _policy g = Some GASPI_QUEUE_GROUP_POLICY_DEFAULT →
  group_ok g ∧ ∃ c, _data g = data_counter c.
Proof. intros [(Hok&c&_&Hd&_)|(_&Hp&_)] Hp'; [|congruence]. split; [done|by exists c]. Qed.

Lemma set_up_queues g queues :
  set_up hw g → _data g = data_queues queues → group_ok g ∧ array_of hw g queues.
Proof.
  intros [(_&c&_&Hd&_)|(Hok&_&queues'&Hd&Ha)] Hdq; rewrite Hdq in Hd; [done|].
  by injection Hd as <-.
Qed.

(** While nobody deletes it, the group that a thread has read from the table exists. *)
Lemma getting_alive s i pc id a :
  table_inv s → no_overlap s → get_inv s → t_threads s !! i = Some pc →
  getting pc = Some (id, a) → is_Some (t_heap s !! a).
Proof.
  intros Hinv Hno Hget Hi Hg. pose proof (gi_entry _ Hget _ _ _ _ Hi Hg) as He.
  assert (∀ h, consistent (t_entries s) h → is_Some (h !! a)) as Hex.
  { intros h [_ Hc]. apply Hc. by exists id. }
  destruct (t_lock s) as [j|] eqn:Hl; [|by apply Hex, (ti_free _ Hinv Hl)].
  destruct (ti_lock _ Hinv _ Hl) as (pc'&Hj&_&HI).
  destruct pc' as [| | | | |id' a'| | | | |id'| | | | |]; cbn in HI;
    try (by apply Hex, HI).
  - destruct HI as (Hc&_). apply Hex in Hc. by apply lookup_delete_is_Some in Hc as [_ ?].
  - destruct HI as ([_ Hc]&_). apply Hc. exists id. rewrite list_lookup_insert_ne; [done|].
    intros ->. by apply (Hno _ _ _ _ id a Hi Hj Hg).
Qed.

(** What a step has to respect: the place it goes to, and what it changes of the table and of the
    groups, for the other threads. *)
Lemma get_inv_frame s i pc' es n h l :
  get_inv s → (∀ args, pc_args pc' = Some args → group_ok (new_group args)) →
  (∀ id a, getting pc' = Some (id, a) → es !! id = Some (Some a)) → offset_ok h pc' →
  (∀ a g, h !! a = Some g → set_up hw g) →
  (∀ j pc id a, t_threads s !! j = Some pc → getting pc = Some (id, a) →
     t_entries s !! id = Some (Some a) → es !! id = Some (Some a)) →
  (∀ j pc, t_threads s !! j = Some pc → offset_ok h pc) →
  get_inv (Table es n h l (<[i := pc']> (t_threads s))).
Proof.
  intros [Hg Hn He Ho] Hpg Hpe Hpo Hh Hes Hoff. split; simpl; [done|..].
  - intros j pc g [(->&<-&_)|[_ Hj]]%list_lookup_insert_Some; [apply Hpg|by eapply Hn].
  - intros j pc id a [(->&<-&_)|[_ Hj]]%list_lookup_insert_Some Hgt; [by apply Hpe|].
    eapply Hes; [exact Hj|exact Hgt|by eapply He].
  - intros j pc [(->&<-&_)|[_ Hj]]%list_lookup_insert_Some; [done|by eapply Hoff].
Qed.

(** Steps that change neither the table nor the groups. *)
Lemma get_inv_goto s i pc' n l :
  get_inv s → (∀ args, pc_args pc' = Some args → group_ok (new_group args)) →
  (∀ id a, getting pc' = Some (id, a) → t_entries s !! id = Some (Some a)) →
  offset_ok (t_heap s) pc' →
  get_inv (Table (t_entries s) n (t_heap s) l (<[i := pc']> (t_threads s))).
Proof. intros Hinv ???. pose proof Hinv as []. apply get_inv_frame; eauto. Qed.

(** The compare-and-exchange leaves a counter in range. *)
Lemma set_up_exchange g o c :
  set_up hw g → _data g = data_counter c → 0 ≤ o < _numQueues g →
  set_up hw (set_data (data_counter (compare_exchange o (nextOffset g o) c)) g).
Proof.
  intros Hg Hd Ho. destruct (set_up_counter _ _ Hg Hd) as (Hok&Hp&Hc). left. split; [exact Hok|].
  eexists. split; [exact Hp|]. split; [done|]. cbn [_numQueues set_data].
  unfold compare_exchange. destruct (Z.eqb_spec c o); [|done].
  rewrite nextOffset_spec by done. apply Z.mod_pos_bound. lia.
Qed.

(** Steps that change the groups, seen from the threads that hold an offset. *)
Lemma offset_ok_new s a g j pc :
  table_inv s → no_overlap s → get_inv s → t_heap s !! a = None →
  t_threads s !! j = Some pc → offset_ok (<[a := g]> (t_heap s)) pc.
Proof.
  intros Hinv Hno Hget Ha Hj. pose proof (gi_offset _ Hget _ _ Hj) as Ho.
  destruct pc as [| | | | | | | | | | | | | | |id a' o]; try done. cbn in *. intros g'.
  destruct (getting_alive s j _ id a' Hinv Hno Hget Hj eq_refl) as [g0 Hg0].
  rewrite lookup_insert_ne by congruence. apply Ho.
Qed.

Lemma offset_ok_update h a g d pc :
  h !! a = Some g → offset_ok h pc → offset_ok (<[a := set_data d g]> h) pc.
Proof.
  intros Ha. destruct pc as [| | | | | | | | | | | | | | |id a' o]; try done. cbn. intros Ho g'.
  intros [[-> <-]|[_ Hg]]%lookup_insert_Some; [by apply (Ho g)|by apply Ho].
Qed.

Lemma offset_ok_delete h a pc : offset_ok h pc → offset_ok (delete a h) pc.
Proof.
  destruct pc as [| | | | | | | | | | | | | | |id a' o]; try done. cbn. intros Ho g'.
  intros [_ Hg]%lookup_delete_Some. by apply Ho.
Qed.

Lemma get_inv_step s i e s' :
  table_inv s → no_overlap s → get_inv s → table_step hw s i e s' → get_inv s'.
Proof.
  intros Hinv Hno Hget Hs. pose proof Hget as [Hg Hn He Ho].
  destruct Hs as [id g Hi Hid Hc|id g Hi Hl|id g Hi|id g x Hi Hx|id g f g' a Hi Hnew Ha|id a Hi|Hi|id Hi|id Hi Hl
    |id x Hi Hx|id a Hi|id Hi|Hi|r Hi|id Hi|id Hi|id a Hi|id a g Hi|id a g c Hi Ha Hp Hnq Hd
    |id a g p q c x Hi|id a o g c Hi Ha Hd|id a Hi Hgn];
    try (by apply get_inv_goto).
  - apply get_inv_goto; try done. by intros g' [= <-].
  - apply get_inv_goto; try done. intros g' [= <-]. by eapply Hn.
  - apply get_inv_goto; try done; [|by case_match..].
    intros g'. case_match; [done|]. intros [= <-]. by eapply Hn.
  - apply get_inv_goto; try done; [|by repeat case_match..].
    intros g'. repeat case_match; try done. intros [= <-]. by eapply Hn.
  - apply (get_inv_frame s); try done; [|intros j pc Hj; by eapply offset_ok_new].
    intros b g1 Hb. cbn in Hb. apply lookup_insert_Some in Hb as [[-> <-]|[_ Hb]]; [|by eapply Hg].
    destruct (holder_inv _ _ _ Hi eq_refl Hinv) as (_&_&_&Hv).
    by eapply (setupPolicy_set_up hw); [exact Hv|eapply Hn|].
  - apply (get_inv_frame s); try done. intros j pc id' b Hj Hgt Hid.
    destruct (holder_inv _ _ _ Hi eq_refl Hinv) as (_&_&Hnone&_).
    cbn. rewrite list_lookup_insert_ne; [done|]. congruence.
  - apply get_inv_goto; try done; by case_match.
  - apply (get_inv_frame s); try done; [|intros j pc Hj; by apply offset_ok_delete, (Ho j)].
    intros b g1 Hb. cbn in Hb. apply lookup_delete_Some in Hb as [_ Hb]. by eapply Hg.
  - apply (get_inv_frame s); try done. intros j pc id' b Hj Hgt Hid.
    cbn. rewrite list_lookup_insert_ne; [done|]. intros ->. by apply (Hno j i _ _ id' b Hj Hi Hgt).
  - apply get_inv_goto; try done. by intros id' b [= <- <-].
  - apply get_inv_goto; try done; [intros id' b [= <- <-]; by eapply He|].
    cbn. intros g' Ha'. rewrite Ha in Ha'. injection Ha' as <-.
    by destruct (set_up_counter _ _ (Hg _ _ Ha) Hd) as (_&?&?).
  - destruct (Ho _ _ Hi g Ha) as [Hp Hr]. apply (get_inv_frame s); try done.
    + intros b g1 Hb. cbn in Hb. apply lookup_insert_Some in Hb as [[-> <-]|[_ Hb]]; [|by eapply Hg].
      apply set_up_exchange; [by eapply Hg|done..].
    + intros j pc Hj. by apply offset_ok_update, (Ho j).
Qed.
End table_queues.

(** ** Progress of the thread that holds the lock *)

Definition pc_id (pc : table_pc) : option nat :=
  match pc with
  | TCreateWait id _ | TCreateNum id _ | TCreateEntry id _ | TCreateNew id _ | TCreateStore id _
  | TDeleteWait id | TDeleteEntry id | TDeleteFree id _ | TDeleteStore id
  | TGetEntry id | TGetUse id _ | TGetExchange id _ _ => Some id
  | TIdle | TCreateCount | TDeleteCount | TUnlock _ => None
  end.

(** The threads work on entries of the table. *)
Definition ids_ok (s : table) : Prop :=
  ∀ i pc id, t_threads s !! i = Some pc → pc_id pc = Some id → Z.of_nat id < MaxQueueGroups.

(** How many steps the thread is from releasing the lock, at most. *)
Definition steps_left (pc : table_pc) : nat :=
  match pc with
  | TCreateNum _ _ => 7 | TCreateEntry _ _ => 6 | TCreateNew _ _ => 5 | TCreateStore _ _ => 4
  | TCreateCount => 3
  | TDeleteEntry _ => 6 | TDeleteFree _ _ => 5 | TDeleteStore _ => 4 | TDeleteCount => 3
  | TUnlock _ => 1
  | _ => 0
  end.

Section table_progress.
Context `{BC : BuildConfig} `{GT : GaspiTypes} (hw : HardwareInfo).

(** The group that the thread is to set up can be set up. *)
Definition can_set_up (pc : table_pc) : Prop :=
  ∀ args, pc_args pc = Some args → isValidPolicy (ga_policy args) = true →
    ∃ fuel g, setupPolicy fuel hw (ga_policy args) (new_group args) = Ret g.

Lemma ids_ok_init n : ids_ok (table_init n).
Proof. by intros i pc id [-> _]%lookup_replicate. Qed.

Lemma ids_ok_step s i e s' : ids_ok s → table_step hw s i e s' → ids_ok s'.
Proof.
  intros Hok Hs.
  assert (∀ pc' s1, t_threads s1 = t_threads s →
    (∀ id, pc_id pc' = Some id → Z.of_nat id < MaxQueueGroups) → ids_ok (goto i pc' s1)) as Hgo.
  { intros pc' s1 Ht Hp j pc id. cbn. rewrite Ht.
    intros [(->&<-&_)|[_ Hj]]%list_lookup_insert_Some; [apply Hp|by eapply Hok]. }
  destruct Hs; (apply Hgo; [done|]); try done;
    try (by intros ? [= <-]);
    try (intros ? [= <-]; by eapply Hok);
    intros id'; repeat case_match; try done; intros [= <-]; by eapply Hok.
Qed.

Lemma reach_invs P n s : table_reach hw P n s → table_inv s ∧ ids_ok s.
Proof.
  induction 1 as [|s i e s' _ [Hinv Hok] _ Hs]; [split; [apply table_init_inv|apply ids_ok_init]|].
  split; [by eapply (table_inv_step hw s)|by eapply ids_ok_step].
Qed.

(** Every place of the critical section has a step, which gets closer to its end. *)
Lemma critical_step s i pc :
  table_inv s → ids_ok s → t_threads s !! i = Some pc → critical pc = true → can_set_up pc →
  ∃ e s', table_step hw s i e s' ∧
    (t_lock s' = None ∨
     ∃ pc', t_threads s' !! i = Some pc' ∧ critical pc' = true ∧ can_set_up pc' ∧
       (steps_left pc' < steps_left pc)%nat).
Proof.
  intros Hinv Hok Hi Hc Hset. pose proof (holder_inv _ _ _ Hi Hc Hinv) as HI.
  assert (∀ e pc' s1, t_threads s1 = t_threads s → table_step hw s i e (goto i pc' s1) →
    critical pc' = true → can_set_up pc' → (steps_left pc' < steps_left pc)%nat →
    ∃ e s', table_step hw s i e s' ∧ (t_lock s' = None ∨
      ∃ pc', t_threads s' !! i = Some pc' ∧ critical pc' = true ∧ can_set_up pc' ∧
        (steps_left pc' < steps_left pc)%nat)) as Hgo.
  { intros e pc' s1 Ht Hs ???. exists e, (goto i pc' s1). split; [done|]. right. exists pc'.
    cbn. rewrite Ht, list_lookup_insert_eq by by eapply lookup_lt_Some. done. }
  assert (∀ id, pc_id pc = Some id → ∃ x, t_entries s !! id = Some x) as Hx.
  { intros id Hid. apply lookup_lt_is_Some. pose proof (ti_length _ Hinv).
    pose proof (Hok _ _ _ Hi Hid). lia. }
  destruct pc as [|id g|id g|id g|id g|id a| |id|id|id a|id| |r|id|id a|id a o]; try done.
  - eapply Hgo; [|by eapply create_num|..]; try case_match; try done; simpl; lia.
  - destruct (Hx id eq_refl) as [x Hidx].
    eapply Hgo; [|by eapply create_entry|..]; repeat case_match; try done; simpl; lia.
  - destruct HI as (_&_&_&Hv), (Hset g eq_refl Hv) as (fuel&g'&Hg').
    eapply Hgo; [|eapply (create_new _ _ _ _ _ _ _ (fresh (dom (t_heap s)))); [done|exact Hg'|]|..];
      try done; [|simpl; lia]. apply not_elem_of_dom, is_fresh.
  - eapply Hgo; [|by eapply create_store|..]; try done. simpl. lia.
  - eapply Hgo; [|by eapply create_count|..]; try done. simpl. lia.
  - destruct (Hx id eq_refl) as [x Hidx].
    eapply Hgo; [|by eapply delete_entry|..]; repeat case_match; try done; simpl; lia.
  - eapply Hgo; [|by eapply delete_free|..]; try done. simpl. lia.
  - eapply Hgo; [|by eapply delete_store|..]; try done. simpl. lia.
  - eapply Hgo; [|by eapply delete_count|..]; try done. simpl. lia.
  - eexists _, _. split; [by eapply unlock|]. by left.
Qed.

Lemma holder_releases k s i pc :
  table_inv s → ids_ok s → t_threads s !! i = Some pc → critical pc = true → can_set_up pc →
  (steps_left pc < k)%nat →
  ∃ s', rtc (λ s s', ∃ e, table_step hw s i e s') s s' ∧ t_lock s' = None.
Proof.
  revert s pc. induction k as [|k IH]; intros s pc Hinv Hok Hi Hc Hset Hk; [lia|].
  destruct (critical_step s i pc) as (e&s'&Hs&Hcase); [done..|].
  destruct Hcase as [Hl|(pc'&Hi'&Hc'&Hset'&Hlt)].
  - exists s'. split; [|done]. apply rtc_once. by exists e.
  - destruct (IH s' pc') as (s2&Hr&Hl); [by eapply (table_inv_step hw s)|by eapply ids_ok_step|done..|lia|].
    exists s2. split; [|done]. eapply rtc_l; [by exists e|done].
Qed.
End table_progress.

(** ** What the table guarantees *)

Section table_theorems.
Context `{BC : BuildConfig} `{GT : GaspiTypes} (hw : HardwareInfo).

(** C15. Creating and deleting groups is correct however any number of threads interleave with each
    other: whenever nobody holds the lock, the entries in use are different and are exactly the
    groups that exist, and [numQueueGroups] counts them; at most one thread is between the lock
    and the unlock, no group is deleted twice, and the thread that holds the lock can always run
    to the unlock by itself, provided the group it creates can be set up. *)
Theorem table_safe n s :
  table_reach hw (λ _, True) n s →
  (t_lock s = None → consistent (t_entries s) (t_heap s) ∧ t_num s = count_some (t_entries s)) ∧
  (∀ i pc, t_threads s !! i = Some pc → critical pc = true → t_lock s = Some i) ∧
  (∀ i e s' j a, table_step hw s i e s' → e ≠ TDoubleFreed j a) ∧
  (∀ i pc, t_threads s !! i = Some pc → critical pc = true → can_set_up hw pc →
     ∃ s', rtc (λ s s', ∃ e, table_step hw s i e s') s s' ∧ t_lock s' = None).
Proof.
  intros [Hinv Hok]%reach_invs. split_and!.
  - apply (ti_free _ Hinv).
  - apply (ti_critical _ Hinv).
  - intros i e s' j a Hs. by apply (table_inv_step hw _ _ _ _ Hinv Hs).
  - intros i pc Hi Hc Hset. apply (holder_releases hw (S (steps_left pc)) s i pc); auto; lia.
Qed.

Lemma reach_get_inv n s : table_reach hw no_overlap n s → get_inv hw s.
Proof.
  intros Hr. induction Hr as [|s i e s' Hr IH Hno Hs].
  - assert (∀ i (pc : table_pc), replicate n TIdle !! i = Some pc → pc = TIdle) as Hidle
      by by intros i pc [-> _]%lookup_replicate.
    split; simpl; [done|..]; by intros i pc; intros; simplify_eq; (rewrite (Hidle i pc) in * by done).
  - eapply get_inv_step; [by eapply reach_invs|done..].
Qed.

(** C16. Asking for a queue is correct as long as no group is deleted while a thread is asking it: no
    thread uses a deleted group, and every queue handed out is of the group that is in the table
    under the identifier asked for. With the default policy it is in the range of the group. With
    the CPU policy it is the entry for a CPU of the array that [setupPolicy] computed for this
    group, which is in the range of the group when it has as many queues as there are available
    nodes and the CPU is of one of these. *)
Theorem getQueue_table n s i e s' :
  table_reach hw no_overlap n s → no_overlap s → table_step hw s i e s' →
  match e with
  | TUsedFreed _ _ => False
  | TGot _ id queue => ∃ a g,
      t_entries s !! id = Some (Some a) ∧ t_heap s !! a = Some g ∧
      match _data g with
      | data_counter _ => _policy g = Some GASPI_QUEUE_GROUP_POLICY_DEFAULT ∧
          _firstQueue g ≤ queue < _firstQueue g + _numQueues g
      | data_queues queues => array_of hw g queues ∧ ∃ cpu, queues !! cpu = Some queue ∧
          ∀ x, hw_wf hw → getNumAvailableNUMANodes hw ≤ _numQueues g →
            _cpuToNUMANode hw !! cpu = Some x → x ≠ -1 →
            _firstQueue g ≤ queue < _firstQueue g + _numQueues g
      | data_null => False
      end
  | _ => True
  end.
Proof.
  intros Hr Hno Hs. pose proof (reach_get_inv _ _ Hr) as Hget.
  destruct (reach_invs _ _ _ _ Hr) as [Hinv _].
  assert (∀ pc id a, t_threads s !! i = Some pc → getting pc = Some (id, a) →
    is_Some (t_heap s !! a)) as Halive by by intros; eapply getting_alive.
  destruct Hs as [| | | | | | | | | |id a Hi| | | | | | |id a g Hi Hg Hp Hn|
    |id a g p queues cpu q Hi Hg Hp Hne Hd Hq|id a o g c Hi Hg Hd|id a Hi Hg]; try done.
  - by destruct (t_heap s !! a).
  - exists a, g. split_and!; [by eapply (gi_entry hw _ Hget)|done|].
    destruct (set_up_default hw g) as [(?&?&?) [c ->]]; [by eapply (gi_groups hw _ Hget)|done|].
    split; [done|lia].
  - exists a, g. split_and!; [by eapply (gi_entry hw _ Hget)|done|]. rewrite Hd.
    destruct (set_up_queues hw g queues) as [Hok Ha]; [by eapply (gi_groups hw _ Hget)|done|].
    split; [done|]. exists cpu. split; [done|]. intros x Hhw HN Hx Hx1.
    destruct (array_in_group hw g queues cpu x) as (q'&Hq'&?); [done..|]. congruence.
  - exists a, g. split_and!; [by eapply (gi_entry hw _ Hget)|done|]. rewrite Hd.
    destruct (gi_offset hw _ Hget _ _ Hi g Hg) as [Hp Ho]. split; [done|].
    destruct (set_up_counter hw g c) as [Hok _]; [by eapply (gi_groups hw _ Hget)|done|].
    rewrite queue_at_spec by done. lia.
  - destruct Hi as [Hi|[o Hi]]; destruct (Halive _ id a Hi eq_refl) as [g ?]; congruence.
Qed.
End table_theorems.

(** ** A deletion during a request *)

Section table_race.
Context `{BC : BuildConfig} `{GT : GaspiTypes} (hw : HardwareInfo).

Definition one_queue : group_args := GroupArgs 0 1 GASPI_QUEUE_GROUP_POLICY_DEFAULT.

Definition one_queue_group : QueueGroup :=
  mkQueueGroup 0 1 (Some GASPI_QUEUE_GROUP_POLICY_DEFAULT) (data_counter 0).

(** Thread 0 has created [g] as group 3, and thread 1 has read its entry in order to use it. *)
Definition asking (g : QueueGroup) : table :=
  Table (<[3%nat := Some 0%nat]> (replicate (Z.to_nat MaxQueueGroups) None)) (number 1)
    {[ 0%nat := g ]} None [TIdle; TGetUse 3 0].

Lemma one_queue_ok : group_ok (new_group one_queue).
Proof.
  pose proof number_bits_range. pose proof queue_id_bits_range.
  assert (2 ^ 1 ≤ 2 ^ number_bits) by (apply Z.pow_le_mono_r; lia).
  assert (2 ^ 1 ≤ 2 ^ queue_id_bits) by (apply Z.pow_le_mono_r; lia).
  split_and!; simpl; lia.
Qed.

(** Takes a step from the state reached; its conditions hold by computation. *)
Ltac run_step step :=
  match goal with
  | Hr : table_reach _ ?P ?n ?s |- _ =>
      let Hp := fresh in
      let Hs := fresh in
      let Hr' := fresh in
      assert (P s) as Hp by
        first [exact I | match goal with HP : _ |- _ => apply HP; by repeat constructor end];
      eassert (table_step hw s _ _ _) as Hs by
        (apply (step s); first [reflexivity | eassumption]);
      pose proof (table_reach_step _ P n s _ _ _ Hr Hp Hs) as Hr'; clear Hr Hp Hs
  end.

Lemma asking_reached args fuel g (P : table → Prop) :
  group_ok (new_group args) → isValidPolicy (ga_policy args) = true →
  setupPolicy fuel hw (ga_policy args) (new_group args) = Ret g →
  (∀ s, Forall (λ pc, deleting pc = None) (t_threads s) → P s) →
  table_reach hw P 2 (asking g).
Proof.
  intros Hok Hv Hg HP. pose proof (table_reach_init hw P 2) as Hr.
  run_step (λ s, create_call hw s 0 3 args).
  run_step (λ s, create_lock hw s 0 3 args).
  run_step (λ s, create_num hw s 0 3 args).
  run_step (λ s, create_entry hw s 0 3 args None). rewrite Hv in *.
  run_step (λ s, create_new hw s 0 3 args fuel g 0).
  run_step (λ s, create_store hw s 0 3 0).
  run_step (λ s, create_count hw s 0).
  run_step (λ s, unlock hw s 0 GASPI_SUCCESS).
  run_step (λ s, get_call hw s 1 3).
  run_step (λ s, get_some hw s 1 3 0).
  assumption.
Qed.

(** C38. The program has undefined behaviour if a group is deleted while a thread asks it for a queue:
    the thread has read the entry, which takes no lock, and uses the group after its deletion. *)
Theorem getQueue_uses_freed :
  ∃ s a s', table_reach hw (λ _, True) 2 s ∧ table_step hw s 1 (TUsedFreed 1 a) s'.
Proof.
  pose proof (asking_reached one_queue 0 one_queue_group (λ _, True) one_queue_ok eq_refl eq_refl
    (λ _ _, I)) as Hr.
  run_step (λ s, delete_call hw s 0 3).
  run_step (λ s, delete_lock hw s 0 3).
  run_step (λ s, delete_entry hw s 0 3 (Some 0%nat)).
  run_step (λ s, delete_free hw s 0 3 0).
  eexists _, 0%nat, _. split; [eassumption|]. by apply (get_freed hw _ 1 3 0); [left|].
Qed.
End table_race.

(** ** Examples *)

Section queue_table_examples.
#[local] Existing Instance sim_types.
#[local] Existing Instance release_build.

Definition hw_one : HardwareInfo := mkHardwareInfo [0] [true] 1.

Lemma asking_no_deleting s : Forall (λ pc, deleting pc = None) (t_threads s) → no_overlap s.
Proof.
  intros Hd i j pc pc' id a _ Hj _ Hid. rewrite Forall_lookup in Hd.
  by rewrite (Hd _ _ Hj) in Hid.
Qed.

Lemma table_safe_witness :
  let s := asking one_queue_group in
  consistent (t_entries s) (t_heap s) ∧ t_num s = count_some (t_entries s).
Proof.
  destruct (table_safe hw_one 2 (asking one_queue_group)) as [Hfree _]; [|by apply Hfree].
  by apply (asking_reached hw_one one_queue 0); [apply one_queue_ok|..].
Defined.

(** Two queues by CPU on a machine with one. *)
Definition two_queues : group_args := GroupArgs 4 2 GASPI_QUEUE_GROUP_POLICY_CPU_RR.

Definition two_queues_group : QueueGroup :=
  mkQueueGroup 4 2 (Some GASPI_QUEUE_GROUP_POLICY_CPU_RR) (data_queues [4]).

Lemma getQueue_table_witness :
  (∃ a g, t_heap (asking one_queue_group) !! a = Some g ∧
     _firstQueue g ≤ 0 < _firstQueue g + _numQueues g) ∧
  (∃ a g queues, t_heap (asking two_queues_group) !! a = Some g ∧ _data g = data_queues queues ∧
     array_of hw_one g queues).
Proof.
  split.
  - destruct (getQueue_table hw_one 2 (asking one_queue_group) 1 (TGot 1 3 0)
      (goto 1 TIdle (asking one_queue_group))) as (a&g&_&Hg&Hq).
    + by apply (asking_reached hw_one one_queue 0); [apply one_queue_ok|..|apply asking_no_deleting].
    + apply asking_no_deleting. by repeat constructor.
    + by apply (get_single hw_one _ 1 3 0 one_queue_group).
    + exists a, g. split; [exact Hg|]. cbn in Hg. apply lookup_singleton_Some in Hg as [_ <-].
      by destruct Hq.
  - destruct (getQueue_table hw_one 2 (asking two_queues_group) 1 (TGot 1 3 4)
      (goto 1 TIdle (asking two_queues_group))) as (a&g&_&Hg&Hq).
    + apply (asking_reached hw_one two_queues 0); [by split_and!|done|by vm_compute|
        apply asking_no_deleting].
    + apply asking_no_deleting. by repeat constructor.
    + by apply (get_cpu hw_one _ 1 3 0 two_queues_group GASPI_QUEUE_GROUP_POLICY_CPU_RR [4] 0).
    + exists a, g, [4]. split; [exact Hg|]. cbn in Hg. apply lookup_singleton_Some in Hg as [_ <-].
      by destruct Hq.
Defined.
End queue_table_examples.
