(* ===== verification/TableSpec.v ===== *)
(** The table of queue groups as an atomic object: the executions of QueueTable.v are those of a set
    of identifiers on which each call acts in one step between its beginning and its return, and
    what a call does there is what the functions of QueueGroups.v do. *)

From S2P Require Import Prelude Types Interface Contract Sim Hoare HardwareInfo QueueGroup Environment Operations QueueGroups QueueTable.
Open Scope Z_scope.

(** ** Entries in use *)

Definition in_use {A} (l : list (option A)) : gset nat :=
  list_to_set (filter (λ j, is_Some (mjoin (l !! j))) (seq 0 (length l))).

Section in_use.
Context {A : Type}.
Implicit Types (l : list (option A)).

Lemma elem_of_in_use l j : j ∈ in_use l ↔ ∃ a, l !! j = Some (Some a).
Proof.
  unfold in_use. rewrite elem_of_list_to_set, list_elem_of_filter, elem_of_seq. split.
  - intros [[a Ha] _]. destruct (l !! j) as [x|] eqn:Hj; [|done]. exists a. cbn in Ha. by subst.
  - intros [a Ha]. rewrite Ha. split; [by eexists|]. apply lookup_lt_Some in Ha. lia.
Qed.

Lemma not_in_use l j x : l !! j = Some x → j ∉ in_use l ↔ x = None.
Proof.
  intros Hj. rewrite elem_of_in_use, Hj. destruct x as [a|]; [|naive_solver].
  split; [intros []; by exists a|done].
Qed.

Lemma in_use_set l j a x : l !! j = Some x → in_use (<[j := Some a]> l) = {[ j ]} ∪ in_use l.
Proof.
  intros Hj. apply set_eq. intros k. rewrite elem_of_union, elem_of_singleton, !elem_of_in_use.
  setoid_rewrite list_lookup_insert_Some. pose proof (lookup_lt_Some _ _ _ Hj).
  destruct (decide (k = j)); naive_solver.
Qed.

Lemma in_use_reset l j : in_use (<[j := None]> l) = in_use l ∖ {[ j ]}.
Proof.
  apply set_eq. intros k. rewrite elem_of_difference, elem_of_singleton, !elem_of_in_use.
  setoid_rewrite list_lookup_insert_Some. naive_solver.
Qed.

(** A full table has every identifier in use. *)
Lemma in_use_full l j : Z.of_nat (length l) ≤ count_some l → (j < length l)%nat → j ∈ in_use l.
Proof.
  intros Hf [x Hx]%lookup_lt_is_Some. destruct x as [a|]; [apply elem_of_in_use; by exists a|].
  apply count_some_free in Hx. lia.
Qed.

Lemma in_use_none n : in_use (replicate n (@None A)) = ∅.
Proof.
  apply set_eq. intros k. rewrite elem_of_in_use, elem_of_empty.
  split; [|done]. by intros [a [[=] _]%lookup_replicate].
Qed.
End in_use.

(** ** The specification *)

(** What a call returns, and the identifiers in use afterwards. *)
Definition call_result (G : gset nat) (c : table_call) : gaspi_return_t * gset nat :=
  match c with
  | call_create id args =>
      if decide (id ∉ G ∧ isValidPolicy (ga_policy args) = true)
      then (GASPI_SUCCESS, {[ id ]} ∪ G) else (GASPI_ERROR, G)
  | call_delete id =>
      if decide (id ∈ G) then (GASPI_SUCCESS, G ∖ {[ id ]}) else (GASPI_ERROR, G)
  | call_get id => (if decide (id ∈ G) then GASPI_SUCCESS else GASPI_ERROR, G)
  end.

(** A thread has called, and the call has taken effect with a result; asking for a queue has a
    result beyond the return code. *)
Variant spec_thread :=
  | SIdle
  | SCalled (c : table_call)
  | SDone (r : gaspi_return_t)
  | SUse (id : nat).

Record table_spec := TableSpec {
  ts_groups : gset nat;
  ts_threads : list spec_thread;
}.

Definition spec_goto (i : nat) (st : spec_thread) (t : table_spec) : table_spec :=
  TableSpec (ts_groups t) (<[i := st]> (ts_threads t)).

(** What a thread of the specification does after its call took effect. *)
Definition after_effect (c : table_call) (r : gaspi_return_t) : spec_thread :=
  match c with
  | call_get id => if decide (r = GASPI_SUCCESS) then SUse id else SDone r
  | _ => SDone r
  end.

Inductive spec_step : table_event → table_spec → table_spec → Prop :=
  | spec_quiet t : spec_step TNothing t t
  | spec_call t i c :
      ts_threads t !! i = Some SIdle → spec_step (TCalled i c) t (spec_goto i (SCalled c) t)
  | spec_effect t i c r G :
      ts_threads t !! i = Some (SCalled c) → call_result (ts_groups t) c = (r, G) →
      spec_step TNothing t (TableSpec G (<[i := after_effect c r]> (ts_threads t)))
  | spec_return t i r :
      ts_threads t !! i = Some (SDone r) → spec_step (TReturned i r) t (spec_goto i SIdle t)
  | spec_got t i id queue :
      ts_threads t !! i = Some (SUse id) → spec_step (TGot i id queue) t (spec_goto i SIdle t)
  (* the effect and the return at once *)
  | spec_effect_return t i c r :
      ts_threads t !! i = Some (SCalled c) → call_result (ts_groups t) c = (r, ts_groups t) →
      after_effect c r = SDone r → spec_step (TReturned i r) t (spec_goto i SIdle t).

Definition spec_init (n : nat) : table_spec := TableSpec ∅ (replicate n SIdle).

(** ** The executions are those of the specification *)

(** What the place of a thread stands for. *)
Definition thread_rel (pc : table_pc) (st : spec_thread) : Prop :=
  match pc with
  | TIdle => st = SIdle
  | TCreateWait id args | TCreateNum id args | TCreateEntry id args | TCreateNew id args =>
      st = SCalled (call_create id args)
  | TCreateStore id _ => ∃ args, isValidPolicy (ga_policy args) = true ∧
      st = SCalled (call_create id args)
  | TDeleteWait id | TDeleteEntry id | TDeleteFree id _ | TDeleteStore id =>
      st = SCalled (call_delete id)
  | TCreateCount | TDeleteCount => st = SDone GASPI_SUCCESS
  | TUnlock r => st = SDone r
  | TGetEntry id => st = SCalled (call_get id)
  | TGetUse id _ | TGetExchange id _ _ => st = SUse id
  end.

Record table_rel (s : table) (t : table_spec) : Prop := {
  tr_groups : ts_groups t = in_use (t_entries s);
  tr_threads : Forall2 thread_rel (t_threads s) (ts_threads t);
}.

Definition used_freed (e : table_event) : Prop :=
  match e with TUsedFreed _ _ => True | _ => False end.

Section linearizable.
Context `{BC : BuildConfig} `{GT : GaspiTypes} (hw : HardwareInfo).

Lemma table_init_rel n : table_rel (table_init n) (spec_init n).
Proof.
  split; [symmetry; apply in_use_none|]. by apply Forall2_replicate.
Qed.

Lemma thread_rel_lookup s t i pc :
  table_rel s t → t_threads s !! i = Some pc → ∃ st, ts_threads t !! i = Some st ∧ thread_rel pc st.
Proof. intros [_ Ht] Hi. by eapply Forall2_lookup_l. Qed.

(** The thread goes on, and the groups in use change with the entries. *)
Lemma table_rel_goto s t s' G i pc st :
  table_rel s t → t_threads s' = t_threads s → G = in_use (t_entries s') → thread_rel pc st →
  table_rel (goto i pc s') (TableSpec G (<[i := st]> (ts_threads t))).
Proof. intros [_ Ht] Hs HG Hp. split; simpl; [done|]. rewrite Hs. by apply Forall2_insert. Qed.

(** The thread goes on without a step of the specification. *)
Lemma table_rel_quiet s t s' i pc pc' :
  table_rel s t → t_threads s !! i = Some pc → t_threads s' = t_threads s →
  t_entries s' = t_entries s → (∀ st, thread_rel pc st → thread_rel pc' st) →
  table_rel (goto i pc' s') t.
Proof.
  intros Hr Hi Ht He Hp. destruct (thread_rel_lookup _ _ _ _ Hr Hi) as (st&Hst&Hpst).
  assert (t = TableSpec (ts_groups t) (<[i := st]> (ts_threads t))) as ->.
  { destruct t. cbn in *. by rewrite list_insert_id. }
  apply table_rel_goto with (s := s); [done..| |by apply Hp]. rewrite He. apply Hr.
Qed.

(** The call of the thread takes effect. *)
Lemma table_rel_effect s t s' i pc' c r :
  table_rel s t → ts_threads t !! i = Some (SCalled c) → t_threads s' = t_threads s →
  call_result (in_use (t_entries s)) c = (r, in_use (t_entries s')) →
  thread_rel pc' (after_effect c r) →
  ∃ t', spec_step TNothing t t' ∧ table_rel (goto i pc' s') t'.
Proof.
  intros Hr Hst Ht He Hp. eexists. split.
  - eapply spec_effect; [exact Hst|]. rewrite (tr_groups _ _ Hr). exact He.
  - by apply table_rel_goto with (s := s).
Qed.

(** The thread goes on and the specification too, without an effect on the groups. *)
Lemma table_rel_move s t s' i pc' st :
  table_rel s t → t_threads s' = t_threads s → t_entries s' = t_entries s →
  thread_rel pc' st → table_rel (goto i pc' s') (spec_goto i st t).
Proof.
  intros Hr Ht He Hp. apply table_rel_goto with (s := s); [done..| |done].
  rewrite He. apply Hr.
Qed.

Lemma call_refused G id args :
  id ∈ G ∨ isValidPolicy (ga_policy args) = false →
  call_result G (call_create id args) = (GASPI_ERROR, G).
Proof. intros H. cbn. rewrite decide_False; [done|]. intros [? ?]. destruct H; congruence. Qed.

(** A step of a thread that creates or deletes a group. *)
Lemma table_step_update s t i e s' pc :
  table_inv s → ids_ok s → table_rel s t → table_step hw s i e s' →
  t_threads s !! i = Some pc → critical pc = true →
  ∃ t', spec_step e t t' ∧ table_rel s' t'.
Proof.
  intros Hinv Hok Hr Hs Hpc Hcr. pose proof (holder_inv _ _ _ Hpc Hcr Hinv) as HI.
  destruct (thread_rel_lookup _ _ _ _ Hr Hpc) as (st&Hst&Hrel).
  pose proof (ti_length _ Hinv) as Hlen. pose proof (λ id, Hok i pc id Hpc) as Hid.
  assert (∀ s1 pc', t_threads s1 = t_threads s → t_entries s1 = t_entries s →
    (∀ st, thread_rel pc st → thread_rel pc' st) →
    ∃ t', spec_step TNothing t t' ∧ table_rel (goto i pc' s1) t') as Hquiet.
  { intros s1 pc' ???. exists t. split; [constructor|]. by eapply table_rel_quiet. }
  destruct Hs as [| |id args Hi|id args x Hi Hx|id args f g a Hi Hnew Ha|id a Hi|Hi| |
    |id x Hi Hx|id a Hi|id Hi|Hi|r Hi| | | | | | | |? ? [Hi|[? Hi]]];
    try (rewrite H in Hpc; injection Hpc as <-; discriminate Hcr);
    rewrite Hi in Hpc; injection Hpc as <-; try discriminate Hcr; cbn in HI, Hrel, Hid.
  - destruct (Z.leb_spec MaxQueueGroups (t_num s)) as [Hle|_]; [|by apply Hquiet].
    subst st. eapply table_rel_effect; [done|exact Hst|done| |done]. apply call_refused. left.
    specialize (Hid id eq_refl). apply in_use_full; [destruct HI as [_ HI]|]; lia.
  - subst st. destruct x as [a|]; [|destruct (isValidPolicy _) eqn:Hv; [by apply Hquiet|]];
      (eapply table_rel_effect; [done|exact Hst|done| |done]); apply call_refused.
    + left. apply elem_of_in_use. by exists a.
    + by right.
  - apply Hquiet; [done..|]. intros ? ->. exists args. by split; [apply HI|].
  - destruct Hrel as (args&Hv&->), HI as (_&_&Hn&_).
    eapply table_rel_effect; [done|exact Hst|done| |done].
    cbn. rewrite decide_True; [f_equal; symmetry; by eapply in_use_set|]. split; [|done]. by eapply not_in_use.
  - by apply Hquiet.
  - subst st. destruct x as [a|]; [by apply Hquiet|].
    eapply table_rel_effect; [done|exact Hst|done| |done]. cbn. rewrite decide_False; [done|].
    by eapply not_in_use.
  - destruct (t_heap s !! a) eqn:Ha; [by apply Hquiet|].
    destruct HI as (Hc&_&Hn). destruct (proj2 (cs_exist _ _ Hc a)); [by exists id|congruence].
  - subst st. destruct HI as (_&_&a&Ha). eapply table_rel_effect; [done|exact Hst|done| |done].
    cbn. rewrite decide_True; [f_equal; symmetry; apply in_use_reset|]. apply elem_of_in_use. by exists a.
  - by apply Hquiet.
  - subst st. eexists. split; [by apply spec_return|]. by apply table_rel_move with (s := s).
Qed.

(** A step of a thread that does not hold the lock. *)
Lemma table_step_other s t i e s' pc :
  table_rel s t → table_step hw s i e s' → ¬ used_freed e →
  t_threads s !! i = Some pc → critical pc = false →
  ∃ t', spec_step e t t' ∧ table_rel s' t'.
Proof.
  intros Hr Hs Hne Hpc Hcr. destruct (thread_rel_lookup _ _ _ _ Hr Hpc) as (st&Hst&Hrel).
  destruct Hs as [id args Hi|id args Hi| | | | | |id Hi|id Hi| | | | |
    |id Hi|id Hi Hn|id a Hi Ha|id a g Hi|id a g c Hi|id a g p q c x Hi|id a o g c Hi|];
    try (rewrite H in Hpc; injection Hpc as <-; discriminate Hcr); try (by destruct Hne);
    rewrite Hi in Hpc; injection Hpc as <-; cbn in Hrel; subst st.
  - eexists. split; [by apply spec_call|]. by apply table_rel_move with (s := s).
  - exists t. split; [constructor|]. by eapply table_rel_quiet.
  - eexists. split; [by apply spec_call|]. by apply table_rel_move with (s := s).
  - exists t. split; [constructor|]. by eapply table_rel_quiet.
  - eexists. split; [by apply spec_call|]. by apply table_rel_move with (s := s).
  - assert (id ∉ ts_groups t) as Hin by (rewrite (tr_groups _ _ Hr); by eapply not_in_use).
    eexists. split; [|by apply table_rel_move with (s := s)].
    eapply spec_effect_return; [exact Hst|by cbn; rewrite decide_False|done].
  - eapply (table_rel_effect s t s i _ _ GASPI_SUCCESS); [done|exact Hst|done| |done]. cbn. rewrite decide_True; [done|].
    apply elem_of_in_use. by exists a.
  - eexists. split; [by apply spec_got|]. by apply table_rel_move with (s := s).
  - exists t. split; [constructor|]. by eapply table_rel_quiet.
  - eexists. split; [by apply spec_got|]. by apply table_rel_move with (s := s).
  - eexists. split; [by apply spec_got|]. by apply table_rel_move with (s := s).
Qed.

Lemma table_step_spec s t i e s' :
  table_inv s → ids_ok s → table_rel s t → table_step hw s i e s' → ¬ used_freed e →
  ∃ t', spec_step e t t' ∧ table_rel s' t'.
Proof.
  intros Hinv Hok Hr Hs Hne. assert (∃ pc, t_threads s !! i = Some pc) as [pc Hpc] by (inv Hs; naive_solver).
  destruct (critical pc) eqn:Hc; [by eapply table_step_update|by eapply table_step_other].
Qed.

(** C17. The table is linearizable: whatever the interleaving of the threads, as long as no deleted
    group is used, the calls begin and return as those of a set of identifiers on which each call
    acts in one step between its beginning and its return. *)
Theorem table_linearizable n es s :
  trace (λ e s s', ∃ i, table_step hw s i e s') es (table_init n) s →
  Forall (λ e, ¬ used_freed e) es →
  ∃ t, trace spec_step es (spec_init n) t ∧ table_rel s t.
Proof.
  intros Htr Hes.
  destruct (trace_simulation (λ e s s', ∃ i, table_step hw s i e s') spec_step
    (λ s t, table_inv s ∧ ids_ok s ∧ table_rel s t) (λ e, ¬ used_freed e))
    with (l := es) (s1 := table_init n) (s2 := s) (t1 := spec_init n) as (t&Ht&_&_&Hrel);
    [|done| |done|by exists t].
  - intros e s1 s2 t1 Hne (Hinv&Hok&Hr) [i Hs].
    destruct (table_step_spec s1 t1 i e s2) as (t2&?&?); [done..|]. exists t2.
    split_and!; [done|by eapply (table_inv_step hw s1)|by eapply ids_ok_step|done].
  - split_and!; [apply table_init_inv|apply ids_ok_init|apply table_init_rel].
Qed.
End linearizable.

(** ** The functions of c/QueueGroups.cpp *)

Section sequential.
Context `{BC : BuildConfig} `{GT : GaspiTypes}.

Definition run_call (fuel : nat) (lib : Library) (c : table_call) :
    prog (gaspi_return_t * Library) :=
  match c with
  | call_create id args =>
      tagaspi_queue_group_create fuel lib (Z.of_nat id) (queue_begin args) (queue_num args)
        (ga_policy args)
  | call_delete id => tagaspi_queue_group_delete lib (Z.of_nat id)
  | call_get id => r ← tagaspi_queue_group_get_queue lib (Z.of_nat id); Ret (r.1.1, r.2)
  end.

Definition call_id (c : table_call) : nat :=
  match c with call_create id _ | call_delete id | call_get id => id end.

(** What the caller has to see to, and the state of the group that the call is about. *)
Definition call_valid (lib : Library) (groups : list (option QueueGroup)) (c : table_call) : Prop :=
  Z.of_nat (call_id c) < MaxQueueGroups ∧
  match c with
  | call_create _ args =>
      queue_begin args < maxQueues (l_env lib) ∧
      number (queue_begin args + queue_num args) ≤ maxQueues (l_env lib) ∧ 0 < queue_num args ∧
      can_setup (l_hw lib) (queue_begin args) (queue_num args) (ga_policy args)
  | call_delete id => ∀ g, groups !! id = Some (Some g) → data_matches g
  | call_get id => ∀ g, groups !! id = Some (Some g) → round_robin_ok g
  end.

(** What a call leaves: the result and the entries in use that the specification has. *)
Definition call_post (groups : list (option QueueGroup)) (c : table_call)
    (x : gaspi_return_t * Library) : Prop :=
  ∃ groups', table_ok (x.2) groups' ∧ (x.1, in_use groups') = call_result (in_use groups) c.

Lemma wp_call fuel lib groups c v :
  table_ok lib groups → call_valid lib groups c → queueGroupsLock ∉ v_held v →
  wp (run_call fuel lib c) v (returns (λ x _, call_post groups c x)).
Proof.
  intros Ht [Hid Hc] Hl. pose proof (tb_length _ _ Ht) as Hlen.
  destruct (lookup_lt_is_Some_2 groups (call_id c)) as [x Hx]; [lia|].
  assert (∀ y, table_ok (with_groups lib (<[call_id c := y]> groups)) (<[call_id c := y]> groups))
    as Hwith by (intros; eapply table_ok_with; [done|apply length_insert]).
  destruct c as [id args|id|id]; cbn [call_id run_call] in *.
  - destruct Hc as (Hb&Hbn&Hn&Hset).
    eapply wp_post_mono; [apply (wp_create fuel lib groups); (done || lia)|done|].
    rewrite Nat2Z.id. intros [r lib'] v' [Hpost _]. cbn [fst snd] in Hpost. case_decide as Hd.
    + destruct Hd as [Hd Hv], Hpost as (->&g&->&_). exists (<[id := Some g]> groups).
      split; [apply Hwith|]. cbn. rewrite decide_True by (split; [by eapply not_in_use|done]).
      f_equal. by eapply in_use_set.
    + destruct Hpost as [-> ->]. exists groups. split; [done|]. cbn. rewrite decide_False; [done|].
      rewrite Hx in Hd. intros [Hin Hv]. apply Hd. split; [|done]. f_equal.
      by apply (not_in_use groups id x).
  - eapply wp_post_mono; [apply (wp_delete lib groups); [done|lia|done|by rewrite Nat2Z.id]|done|].
    rewrite Nat2Z.id. intros [r lib'] v' [Hpost _]. cbn [fst snd] in Hpost. case_decide as Hd.
    + destruct Hpost as [-> ->]. exists groups. split; [done|]. cbn. rewrite decide_False; [done|].
      by eapply not_in_use.
    + destruct Hpost as [-> ->]. exists (<[id := None]> groups). split; [apply Hwith|].
      cbn. rewrite decide_True; [by rewrite in_use_reset|]. rewrite Hx in Hd.
      destruct x as [g|]; [|done]. apply elem_of_in_use. by exists g.
  - eapply wp_bind_returns; [apply (wp_get_queue lib groups); [done|lia|by rewrite Nat2Z.id]|].
    rewrite Nat2Z.id, Hx. intros [[r queue] lib'] v' Hpost. cbn [fst snd] in Hpost.
    destruct x as [g|]; [|destruct Hpost as [[= -> -> ->] _]].
    + destruct Hpost as (_&counter&_&[= -> -> ->]). eexists. split; [apply Hwith|].
      cbn. assert (id ∈ in_use groups) as Hin by (apply elem_of_in_use; by exists g).
      rewrite decide_True by done. f_equal. rewrite (in_use_set _ _ _ _ Hx). set_solver.
    + exists groups. split; [done|]. cbn. rewrite decide_False; [done|]. by eapply not_in_use.
Qed.

(** C18. Run alone, the functions of c/QueueGroups.cpp do what the specification says: they return, with
    its result, and leave a table with the identifiers in use that it has. *)
Theorem calls_sequential {W} `{!Runtime W} `{!RuntimeSpec W} (w : W) fuel lib groups c :
  table_ok lib groups → call_valid lib groups c → queueGroupsLock ∉ v_held (view_of w) →
  ∃ r lib' w' groups', run (run_call fuel lib c) w = (inl (r, lib'), w') ∧
    table_ok lib' groups' ∧ (r, in_use groups') = call_result (in_use groups) c.
Proof.
  intros Ht Hc Hl.
  destruct (wp_run _ w _ (wp_call fuel lib groups c _ Ht Hc Hl)) as ([[r lib']|f]&w'&Hr&HQ); [|done].
  destruct HQ as (groups'&?&?). by exists r, lib', w', groups'.
Qed.
End sequential.

(** ** Examples *)

Section table_spec_examples.
#[local] Existing Instance sim_types.
#[local] Existing Instance release_build.

(** A thread creates a group, and another one is given its queue while the first deletes in vain a
    group that does not exist. *)
Definition sim_history : list table_event :=
  [TCalled 0 (call_create 3 one_queue)] ++ replicate 6 TNothing ++ [TReturned 0 GASPI_SUCCESS;
   TCalled 1 (call_get 3); TCalled 0 (call_delete 5); TNothing; TNothing; TNothing; TGot 1 3 0;
   TReturned 0 GASPI_ERROR].

(** Takes a step; its conditions hold by computation. *)
Tactic Notation "take_step" constr(i) uconstr(step) :=
  eapply trace_cons; [exists i; eapply step; first [reflexivity | apply one_queue_ok]|].

Lemma sim_history_run :
  ∃ s, trace (λ e s s', ∃ i, table_step hw_one s i e s') sim_history (table_init 2) s ∧
    in_use (t_entries s) = {[ 3%nat ]}.
Proof.
  eexists. split.
  - unfold sim_history. cbn [replicate app].
    take_step 0%nat (create_call hw_one). take_step 0%nat (create_lock hw_one).
    take_step 0%nat (create_num hw_one). take_step 0%nat (create_entry hw_one).
    take_step 0%nat (create_new hw_one _ _ 3 one_queue 0 one_queue_group 0).
    take_step 0%nat (create_store hw_one). take_step 0%nat (create_count hw_one).
    take_step 0%nat (unlock hw_one). take_step 1%nat (get_call hw_one).
    take_step 0%nat (delete_call hw_one). take_step 0%nat (delete_lock hw_one).
    take_step 1%nat (get_some hw_one). take_step 0%nat (delete_entry hw_one).
    take_step 1%nat (get_single hw_one _ _ 3 0 one_queue_group).
    take_step 0%nat (unlock hw_one). apply trace_nil.
  - by vm_compute.
Qed.

Lemma table_linearizable_witness :
  ∃ t, trace spec_step sim_history (spec_init 2) t ∧ ts_groups t = {[ 3%nat ]}.
Proof.
  destruct sim_history_run as (s&Hs&Hu).
  destruct (table_linearizable hw_one 2 sim_history s Hs) as (t&Ht&Hr).
  - unfold sim_history. cbn [replicate app]. repeat (apply Forall_cons; split); try done; by intros [].
  - exists t. split; [done|]. by rewrite (tr_groups _ _ Hr).
Defined.

Lemma calls_sequential_witness :
  ∃ lib' w', run (run_call 0 sim_lib_groups (call_delete 3)) sim0 = (inl (GASPI_SUCCESS, lib'), w').
Proof.
  destruct (calls_sequential sim0 0 sim_lib_groups sim_groups (call_delete 3) sim_table_ok)
    as (r&lib'&w'&groups'&Hr&_&He).
  - split; [done|]. by intros g ->%sim_groups_3.
  - apply not_elem_of_nil.
  - exists lib', w'. rewrite Hr. repeat f_equal. vm_compute in He. by injection He.
Defined.
End table_spec_examples.
