(* ===== verification/SpinLock.v ===== *)
(** The array-based ticket lock of util/SpinLock.hpp as a transition system: any number of threads
    run [lock], [trylock] and [unlock] in any interleaving, one atomic access per step. A load may
    return any value the location has had, as the relaxed accesses allow, and each store carries
    which accesses to the plain field [_next] happen before it, so data races can be told. *)

From stdpp Require Import functions.
From S2P Require Import Prelude Types Interface Contract Sim.

#[local] Open Scope Z_scope.
#[local] Coercion Z.of_nat : nat >-> Z.

(** ** State *)

(** A value stored in an atomic location and how many of the writes to [_next] happen before an
    access that acquires it. *)
Record message := Msg { m_value : Z; m_seen : nat }.

(** An atomic location is the list of its messages, newest first. Read-modify-write operations
    read the newest; loads may read any. *)
Abbreviation atomic := (list message).

(** Where a thread is; a thread of the process is a number.
    - [Waiting head]: in the loop of [lock];
    - [TryLoaded head]: in [trylock], [_head] loaded;
    - [TryPassed head]: in [trylock], before the compare-exchange;
    - [Holding]: after a successful [lock] or [trylock];
    - [Releasing]: in [unlock], [_next] incremented. *)
Variant pc :=
  | Idle
  | Waiting (head : Z)
  | TryLoaded (head : Z)
  | TryPassed (head : Z)
  | Holding
  | Releasing.

(** The fields of class [SpinLock], the threads, and for each thread how many writes to [_next]
    happen before its next access; [l_writes] is how many there have been. *)
Record lock_state := LockState {
  _buffer : list atomic;
  _head : atomic;
  _next : Z;
  l_writes : nat;
  l_pc : nat → pc;
  l_seen : nat → nat;
}.

(** What happens to the lock: a thread takes a ticket in [lock], enters from [lock], enters from
    [trylock], leaves. *)
Variant event :=
  | Ticket (t : nat)
  | Enter (t : nat)
  | TryEnter (t : nat)
  | Exit (t : nat).

Section spinlock.
Context `{BC : BuildConfig}.

Definition Size : Z := MAX_SYSTEM_CPUS.

(** The entry of [_buffer] that [head % Size] selects. *)
Definition slot (head : Z) : nat := Z.to_nat (head `mod` Size).

(** [SpinLock()]. *)
Definition SpinLock_ctor : lock_state := {|
  _buffer := replicate (Z.to_nat Size) [Msg 0 0];
  _head := [Msg 0 0];
  _next := 0;
  l_writes := 0;
  l_pc := λ _, Idle;
  l_seen := λ _, 0%nat |}.

Definition with_pc (t : nat) (p : pc) (s : lock_state) : lock_state :=
  LockState (_buffer s) (_head s) (_next s) (l_writes s) (<[t := p]> (l_pc s)) (l_seen s).

(** A thread that loads a message with acquire ordering. *)
Definition acquires (t : nat) (m : message) (s : lock_state) : lock_state :=
  LockState (_buffer s) (_head s) (_next s) (l_writes s) (l_pc s)
    (<[t := (l_seen s t `max` m_seen m)%nat]> (l_seen s)).

(** A read-modify-write of [_head] that adds one: it continues the release sequence of the
    message it reads, and is no release itself. *)
Definition bump_head (m : message) (s : lock_state) : lock_state :=
  LockState (_buffer s) (Msg (u64 (m_value m + 1)) (m_seen m) :: _head s) (_next s) (l_writes s)
    (l_pc s) (l_seen s).

(** [++_next]. *)
Definition bump_next (t : nat) (s : lock_state) : lock_state :=
  LockState (_buffer s) (_head s) (u64 (_next s + 1)) (S (l_writes s)) (l_pc s)
    (<[t := S (l_writes s)]> (l_seen s)).

(** [_buffer[idx].store(_next, release)]. *)
Definition store_buffer (t : nat) (s : lock_state) : lock_state :=
  LockState (alter (cons (Msg (_next s) (l_seen s t))) (slot (_next s)) (_buffer s)) (_head s)
    (_next s) (l_writes s) (l_pc s) (l_seen s).

(** [m] is one of the messages of the entry of [_buffer] for [head]. *)
Definition in_slot (s : lock_state) (head : Z) (m : message) : Prop :=
  ∃ a, _buffer s !! slot head = Some a ∧ m ∈ a.

(** One atomic access of one thread. *)
Inductive step (s : lock_state) : list event → lock_state → Prop :=
  (* lock *)
  | lock_fetch_add t m rest :
      l_pc s t = Idle → _head s = m :: rest →
      step s [Ticket t] (with_pc t (Waiting (m_value m)) (bump_head m s))
  | lock_spin t head m :
      l_pc s t = Waiting head → in_slot s head m → m_value m ≠ head →
      step s [] (acquires t m s)
  | lock_enter t head m :
      l_pc s t = Waiting head → in_slot s head m → m_value m = head →
      step s [Enter t] (with_pc t Holding (acquires t m s))
  (* trylock *)
  | trylock_load t m :
      l_pc s t = Idle → m ∈ _head s →
      step s [] (with_pc t (TryLoaded (m_value m)) s)
  | trylock_busy t head m :
      l_pc s t = TryLoaded head → in_slot s head m → m_value m ≠ head →
      step s [] (with_pc t Idle s)
  | trylock_free t head m :
      l_pc s t = TryLoaded head → in_slot s head m → m_value m = head →
      step s [] (with_pc t (TryPassed head) s)
  | trylock_exchange t head m rest :
      l_pc s t = TryPassed head → _head s = m :: rest → m_value m = head →
      step s [TryEnter t] (with_pc t Holding (bump_head m (acquires t m s)))
  | trylock_lost t head m rest :
      l_pc s t = TryPassed head → _head s = m :: rest → m_value m ≠ head →
      step s [] (with_pc t Idle s)
  (* unlock *)
  | unlock_next t :
      l_pc s t = Holding →
      step s [] (with_pc t Releasing (bump_next t s))
  | unlock_store t :
      l_pc s t = Releasing →
      step s [Exit t] (with_pc t Idle (store_buffer t s)).

(** Executions from the constructor, with what happened in order. *)
Inductive execution : list event → lock_state → Prop :=
  | execution_ctor : execution [] SpinLock_ctor
  | execution_step log s es s' :
      execution log s → step s es s' → execution (log ++ es) s'.

(** A thread about to access [_next] while a write to it does not happen before: a data race. *)
Definition race (s : lock_state) : Prop :=
  ∃ t, l_pc s t = Holding ∧ l_seen s t ≠ l_writes s.
End spinlock.

(** One more step of a concrete execution. *)
Tactic Notation "extend" hyp(H) "to" ident(H') "by" uconstr(c) :=
  eassert (execution (BC := _) _ _) as H';
  [eapply execution_step; [exact H|eapply c; try eassumption; try reflexivity]|].

(** ** What a lock is *)

(** The threads that took a ticket, that entered and that left, in order. *)
Definition tickets (log : list event) : list nat :=
  omap (λ e, match e with Ticket t | TryEnter t => Some t | _ => None end) log.
Definition entries (log : list event) : list nat :=
  omap (λ e, match e with Enter t | TryEnter t => Some t | _ => None end) log.

(** The abstract lock: free or held by a thread; only a free lock can be entered and only its
    holder leaves. *)
Definition spec_event (holder : option nat) (e : event) : option (option nat) :=
  match e, holder with
  | Ticket _, _ => Some holder
  | (Enter t | TryEnter t), None => Some (Some t)
  | Exit t, Some t' => if decide (t = t') then Some None else None
  | _, _ => None
  end.

Fixpoint spec_run (holder : option nat) (log : list event) : option (option nat) :=
  match log with
  | [] => Some holder
  | e :: log => h ← spec_event holder e; spec_run h log
  end.

Lemma spec_run_app h log1 log2 :
  spec_run h (log1 ++ log2) = (h' ← spec_run h log1; spec_run h' log2).
Proof.
  revert h. induction log1 as [|e log1 IH]; intros h; [done|].
  simpl. destruct (spec_event h e); simpl; [apply IH|done].
Qed.

(** ** The invariant *)

Section invariant.
Context `{BC : BuildConfig}.

(** [q]: the threads waiting, in the order of their tickets; [h]: the thread inside; [X]: how many
    have left. Ticket [n] is the [n]-th taken, so the tickets of [q] start after those that
    entered, and a buffer entry only ever holds tickets that were granted. *)
Record lock_inv (log : list event) (s : lock_state) (q : list nat) (h : option nat) (X : nat) :
    Prop := {
  li_fifo : tickets log = entries log ++ q;
  li_spec : spec_run None log = Some h;
  li_inside : length (entries log) = (X + if h then 1 else 0)%nat;
  li_head : ∃ rest, _head s = Msg (length (tickets log)) 0 :: rest;
  li_head_seen m : m ∈ _head s → m_seen m = 0%nat;
  li_next : _next s = l_writes s;
  li_holding t : l_pc s t = Holding → h = Some t ∧ l_writes s = X;
  li_releasing t : l_pc s t = Releasing →
    h = Some t ∧ l_writes s = S X ∧ l_seen s t = S X;
  li_holder t : h = Some t → l_pc s t = Holding ∨ l_pc s t = Releasing;
  li_free : h = None → l_writes s = X;
  li_waiting t z : l_pc s t = Waiting z ↔
    ∃ k, q !! k = Some t ∧ z = Z.of_nat (length (entries log) + k);
  li_passed t z : l_pc s t = TryPassed z → 0 ≤ z ≤ X;
  li_slots : length (_buffer s) = Z.to_nat Size;
  li_granted i a m : _buffer s !! i = Some a → m ∈ a →
    ∃ k : nat, (k ≤ X)%nat ∧ m = Msg k k;
  li_turn : ∃ a, _buffer s !! slot X = Some (Msg X X :: a);
  li_seen t : (l_seen s t ≤ l_writes s)%nat;
}.

Lemma lock_inv_ctor : lock_inv [] SpinLock_ctor [] None 0.
Proof.
  pose proof MAX_SYSTEM_CPUS_pos as Hpos.
  split; simpl; try done.
  - by eexists.
  - by intros m ->%list_elem_of_singleton.
  - split; [done|]. by intros (k&?&_).
  - by rewrite length_replicate.
  - intros i a m [-> _]%lookup_replicate ->%list_elem_of_singleton. by exists 0%nat.
  - exists []. apply lookup_replicate. split; [done|]. unfold slot, Size.
    rewrite Zmod_0_l. lia.
Qed.

Lemma tickets_app l1 l2 : tickets (l1 ++ l2) = tickets l1 ++ tickets l2.
Proof. apply omap_app. Qed.
Lemma entries_app l1 l2 : entries (l1 ++ l2) = entries l1 ++ entries l2.
Proof. apply omap_app. Qed.

(** There is a slot for every ticket. *)
Lemma slot_exists s z : length (_buffer s) = Z.to_nat Size → is_Some (_buffer s !! slot z).
Proof.
  intros Hl. apply lookup_lt_is_Some. rewrite Hl. unfold slot.
  pose proof (Z.mod_pos_bound z Size MAX_SYSTEM_CPUS_pos). unfold Size in *. lia.
Qed.

(** A message of the slot of a ticket with the value of the ticket: the ticket was granted. *)
Lemma slot_granted log s q h X head m :
  lock_inv log s q h X → in_slot s head m → m_value m = head →
  0 ≤ head ≤ X ∧ m = Msg head (Z.to_nat head).
Proof.
  intros Hi (a&Ha&Hm) Hv. destruct (li_granted _ _ _ _ _ Hi _ _ _ Ha Hm) as (k&?&->).
  simpl in Hv. subst. rewrite Nat2Z.id. split; [lia|done].
Qed.

(** The program counter or the view of thread [t'] after that of [t] changed. *)
Ltac at_thread t t' :=
  destruct (decide (t = t')) as [->|];
  [rewrite ?fn_lookup_insert in * |- *|rewrite ?fn_lookup_insert_ne in * |- * by done].

(** The steps of a thread that neither holds the lock nor has a ticket. *)
Lemma inv_local log s q h X t p :
  lock_inv log s q h X →
  match l_pc s t with Idle | TryLoaded _ | TryPassed _ => True | _ => False end →
  match p with Idle | TryLoaded _ => True | TryPassed z => 0 ≤ z ≤ X | _ => False end →
  lock_inv log (with_pc t p s) q h X.
Proof.
  intros Hi Hold Hnew. destruct Hi. split; simpl; try done.
  - intros t' Ht'. at_thread t t'; [by subst|eauto].
  - intros t' Ht'. at_thread t t'; [by subst|eauto].
  - intros t' ->. at_thread t t'; [|eauto].
    exfalso. by destruct (li_holder0 t' eq_refl) as [Ht|Ht]; rewrite Ht in Hold.
  - intros t' z. at_thread t t'; [|eauto].
    split; [by intros ->|]. intros Hq%li_waiting0. by rewrite Hq in Hold.
  - intros t' z Ht'. at_thread t t'; [by subst|eauto].
Qed.

Lemma inv_acquires log s q h X t m :
  lock_inv log s q h X → (l_pc s t ≠ Releasing) → (m_seen m ≤ X)%nat →
  lock_inv log (acquires t m s) q h X.
Proof.
  intros Hi Hpc Hm. assert (X ≤ l_writes s)%nat as HX.
  { destruct h as [t'|]; [|by rewrite (li_free _ _ _ _ _ Hi)].
    destruct (li_holder _ _ _ _ _ Hi t' eq_refl) as [Ht|Ht].
    - destruct (li_holding _ _ _ _ _ Hi t' Ht). lia.
    - destruct (li_releasing _ _ _ _ _ Hi t' Ht) as (_&?&_). lia. }
  destruct Hi. split; simpl; try done.
  - intros t' Ht'. at_thread t t'; [done|eauto].
  - intros t'. at_thread t t'; [specialize (li_seen0 t'); lia|eauto].
Qed.

Lemma inv_ticket log s q h X t m rest :
  lock_inv log s q h X → Z.of_nat (length (tickets log)) + 1 < 2 ^ 64 →
  l_pc s t = Idle → _head s = m :: rest →
  lock_inv (log ++ [Ticket t]) (with_pc t (Waiting (m_value m)) (bump_head m s)) (q ++ [t]) h X.
Proof.
  intros Hi Hb Hpc Hh. destruct Hi. destruct li_head0 as [rest' Hh'].
  rewrite Hh in Hh'. injection Hh' as -> ->. split; simpl; try done.
  - rewrite tickets_app, entries_app. simpl. by rewrite app_nil_r, li_fifo0, <- app_assoc.
  - by rewrite spec_run_app, li_spec0.
  - by rewrite entries_app, app_nil_r.
  - eexists. rewrite tickets_app, length_app. simpl. f_equal. f_equal.
    unfold u64. rewrite wrap_small; lia.
  - intros m [->|Hm]%elem_of_cons; [done|by apply li_head_seen0].
  - intros t' Ht'. at_thread t t'; [done|eauto].
  - intros t' Ht'. at_thread t t'; [done|eauto].
  - intros t' ->. at_thread t t'; [|eauto].
    by destruct (li_holder0 t' eq_refl) as [Ht|Ht]; rewrite Ht in Hpc.
  - intros t' z. rewrite entries_app, app_nil_r. at_thread t t'.
    + split.
      * intros [= <-]. exists (length q). rewrite lookup_app_r, Nat.sub_diag by lia.
        split; [done|]. rewrite li_fifo0, length_app. lia.
      * intros (k&[Hk|[? Hk]]%lookup_app_Some&->).
        { rewrite (proj2 (li_waiting0 t' _)) in Hpc by (by exists k). done. }
        apply list_lookup_singleton_Some in Hk as [? _].
        rewrite li_fifo0, length_app. f_equal. lia.
    + rewrite li_waiting0. split; intros (k&Hk&->); exists k; (split; [|done]).
      * by apply lookup_app_l_Some.
      * apply lookup_app_Some in Hk as [|[? Hk]]; [done|].
        by apply list_lookup_singleton_Some in Hk as [_ ->].
  - intros t' z Ht'. at_thread t t'; [done|eauto].
Qed.

(** The thread whose ticket was granted enters: it is the first in line and nobody is inside. *)
Lemma inv_enter log s q h X t head m :
  lock_inv log s q h X →
  l_pc s t = Waiting head → in_slot s head m → m_value m = head →
  ∃ q', q = t :: q' ∧ h = None ∧ m = Msg X X ∧
    lock_inv (log ++ [Enter t]) (with_pc t Holding (acquires t m s)) q' (Some t) X.
Proof.
  intros Hi Hpc Hm Hv.
  destruct (slot_granted _ _ _ _ _ _ _ Hi Hm Hv) as [Hr ->].
  destruct (proj1 (li_waiting _ _ _ _ _ Hi t head) Hpc) as (k&Hk&Hhead).
  pose proof (li_inside _ _ _ _ _ Hi) as Hin.
  assert (k = 0%nat ∧ h = None ∧ head = X) as (->&->&->) by (destruct h; naive_solver lia).
  clear Hhead. destruct q as [|t' q]; simplify_eq/=. exists q. rewrite Nat2Z.id. split_and!; [done..|].
  rewrite Nat.add_0_r in Hin.
  apply (inv_acquires _ _ _ _ _ t (Msg X X)) in Hi as []; [|by rewrite Hpc|done].
  simpl in *. split; simpl; try done.
  - rewrite tickets_app, entries_app, li_fifo0. simpl. by rewrite app_nil_r, <- app_assoc.
  - by rewrite spec_run_app, li_spec0.
  - rewrite entries_app, length_app. simpl. lia.
  - by rewrite tickets_app, app_nil_r.
  - intros t'. at_thread t t'; [auto|]. by intros [? _]%li_holding0.
  - intros t'. at_thread t t'; [done|]. by intros [? _]%li_releasing0.
  - intros t' [= ->]. rewrite fn_lookup_insert. auto.
  - intros t' z. rewrite entries_app, length_app. simpl. at_thread t t'.
    + split; [done|]. intros (k&Hq&->).
      assert (l_pc s t' = Waiting (length (entries log) + S k)%nat) as Hw
        by (apply li_waiting0; by exists (S k)).
      rewrite Hpc in Hw. injection Hw. lia.
    + rewrite li_waiting0. split.
      * intros ([|k]&Hq&->); simplify_eq/=. exists k. split; [done|]. lia.
      * intros (k&Hq&->). exists (S k). split; [done|]. lia.
  - intros t' z Ht'. at_thread t t'; [done|eauto].
Qed.

(** The compare-exchange of [trylock] succeeds only when nobody waits and nobody is inside. *)
Lemma inv_try_enter log s q h X t head m rest :
  lock_inv log s q h X → Z.of_nat (length (tickets log)) + 1 < 2 ^ 64 →
  l_pc s t = TryPassed head → _head s = m :: rest → m_value m = head →
  h = None ∧
  lock_inv (log ++ [TryEnter t]) (with_pc t Holding (bump_head m (acquires t m s))) [] (Some t) X.
Proof.
  intros Hi Hb Hpc Hh Hv. pose proof (li_passed _ _ _ _ _ Hi _ _ Hpc) as Hp.
  destruct (li_head _ _ _ _ _ Hi) as [rest' Hh']. rewrite Hh in Hh'.
  injection Hh' as -> ->. simpl in Hv.
  pose proof (li_inside _ _ _ _ _ Hi) as Hin. pose proof (li_fifo _ _ _ _ _ Hi) as Hq.
  apply (f_equal length) in Hq. rewrite length_app in Hq.
  assert (h = None ∧ q = []) as [-> ->].
  { destruct h; [lia|]. split; [done|]. apply nil_length_inv. lia. }
  split; [done|]. subst head.
  apply (inv_acquires _ _ _ _ _ t (Msg (length (tickets log)) 0)) in Hi as [];
    [|by rewrite Hpc|simpl; lia].
  simpl in *. rewrite app_nil_r in *. split; simpl; try done.
  - rewrite tickets_app, entries_app, app_nil_r, li_fifo0. done.
  - by rewrite spec_run_app, li_spec0.
  - rewrite entries_app, length_app. simpl. lia.
  - eexists. rewrite tickets_app, length_app. simpl. f_equal. f_equal.
    unfold u64. rewrite wrap_small; lia.
  - intros m [->|Hm]%elem_of_cons; [done|by apply li_head_seen0].
  - intros t'. at_thread t t'; [auto|]. by intros [? _]%li_holding0.
  - intros t'. at_thread t t'; [done|]. by intros [? _]%li_releasing0.
  - intros t' [= ->]. rewrite fn_lookup_insert. auto.
  - intros t' z. at_thread t t'; [split; [done|]|rewrite li_waiting0; split];
      by intros (k&?&_).
  - intros t' z Ht'. at_thread t t'; [done|eauto].
Qed.

Lemma inv_next log s q h X t :
  lock_inv log s q h X → Z.of_nat (length (tickets log)) < 2 ^ 64 →
  l_pc s t = Holding → lock_inv log (with_pc t Releasing (bump_next t s)) q h X.
Proof.
  intros Hi Hb Hpc. destruct (li_holding _ _ _ _ _ Hi t Hpc) as [-> Hw].
  pose proof (f_equal length (li_fifo _ _ _ _ _ Hi)) as Hq. rewrite length_app in Hq.
  pose proof (li_inside _ _ _ _ _ Hi) as Hin. destruct Hi. split; simpl; try done.
  - rewrite li_next0. unfold u64. rewrite wrap_small; lia.
  - intros t'. at_thread t t'; [done|]. intros [? _]%li_holding0. congruence.
  - intros t'. at_thread t t'; [auto|]. intros [? _]%li_releasing0. congruence.
  - intros t' [= ->]. rewrite fn_lookup_insert. auto.
  - intros t' z. at_thread t t'; [|done]. rewrite <- li_waiting0. by rewrite Hpc.
  - intros t' z Ht'. at_thread t t'; [done|eauto].
  - intros t'. at_thread t t'; [done|]. specialize (li_seen0 t'). lia.
Qed.

Lemma inv_exit log s q h X t :
  lock_inv log s q h X → l_pc s t = Releasing →
  h = Some t ∧ lock_inv (log ++ [Exit t]) (with_pc t Idle (store_buffer t s)) q None (S X).
Proof.
  intros Hi Hpc. destruct (li_releasing _ _ _ _ _ Hi t Hpc) as (->&Hw&Hs).
  split; [done|]. destruct Hi. split; simpl; try done.
  - by rewrite tickets_app, entries_app, !app_nil_r.
  - rewrite spec_run_app, li_spec0. simpl. by rewrite decide_True.
  - rewrite entries_app, app_nil_r, li_inside0. lia.
  - by rewrite tickets_app, app_nil_r.
  - intros t'. at_thread t t'; [done|]. intros [? _]%li_holding0. congruence.
  - intros t'. at_thread t t'; [done|]. intros [? _]%li_releasing0. congruence.
  - intros t' z. rewrite entries_app, app_nil_r. at_thread t t'; [|done].
    rewrite <- li_waiting0. by rewrite Hpc.
  - intros t' z Ht'. at_thread t t'; [done|]. apply li_passed0 in Ht'. lia.
  - by rewrite length_alter.
  - intros i a m Ha Hm. destruct (decide (i = slot (_next s))) as [->|Hne].
    + rewrite list_lookup_alter_eq in Ha. apply fmap_Some in Ha as (a'&Ha&->).
      apply elem_of_cons in Hm as [->|Hm].
      * exists (S X). split; [done|]. f_equal; [|done]. rewrite li_next0. lia.
      * destruct (li_granted0 _ _ _ Ha Hm) as (k&?&->). exists k. split; [lia|done].
    + rewrite list_lookup_alter_ne in Ha by done.
      destruct (li_granted0 _ _ _ Ha Hm) as (k&?&->). exists k. split; [lia|done].
  - rewrite li_next0, Hw. destruct (slot_exists s (S X) li_slots0) as [a Ha].
    exists a. rewrite list_lookup_alter_eq, Ha. simpl. by rewrite Hs.
Qed.

(** The invariant of executions; without [trylock] the holder has synchronised with every thread
    that held the lock before. *)
Definition lock_ok (log : list event) (s : lock_state) : Prop :=
  (∃ q h X, lock_inv log s q h X) ∧
  ((∀ t, TryEnter t ∉ log) → ¬ race s).

Lemma race_with_pc s t p : p ≠ Holding → ¬ race s → ¬ race (with_pc t p s).
Proof.
  intros Hp Hr (t'&Ht&Hs). apply Hr. exists t'. simpl in *. at_thread t t'; [done|].
  by split.
Qed.

Lemma race_at s t : ¬ race s → l_pc s t = Holding → l_seen s t = l_writes s.
Proof. intros Hr Ht. destruct (decide (l_seen s t = l_writes s)); [done|]. by destruct Hr; exists t. Qed.

Lemma slot_message log s q h X head m :
  lock_inv log s q h X → in_slot s head m → (m_seen m ≤ X)%nat.
Proof.
  intros Hi (a&Ha&Hm). by destruct (li_granted _ _ _ _ _ Hi _ _ _ Ha Hm) as (k&?&->).
Qed.

Lemma lock_ok_step log s es s' :
  lock_ok log s → step s es s' → Z.of_nat (length (tickets (log ++ es))) < 2 ^ 64 →
  lock_ok (log ++ es) s'.
Proof.
  intros [(q&h&X&Hi) Hr] Hs Hb. rewrite tickets_app, length_app in Hb.
  assert ((∀ t, TryEnter t ∉ log ++ es) → ¬ race s) as Hr'.
  { intros Ht. apply Hr. intros t Hin. by apply (Ht t), elem_of_app; left. }
  clear Hr. destruct Hs as [t m rest Hpc Hh|t head m Hpc Hm Hv|t head m Hpc Hm Hv|t m Hpc Hm
    |t head m Hpc Hm Hv|t head m Hpc Hm Hv|t head m rest Hpc Hh Hv|t head m rest Hpc Hh Hv
    |t Hpc|t Hpc]; rewrite ?app_nil_r in *; simpl in Hb.
  - split; [do 3 eexists; eapply inv_ticket; eauto; lia|].
    intros Ht. by apply race_with_pc, Hr'.
  - split.
    + do 3 eexists. apply inv_acquires; [done|by rewrite Hpc|by eapply slot_message].
    + intros Ht (t'&Ht'&Hne). simpl in *. at_thread t t'; [congruence|].
      by apply Hne, race_at; [apply Hr'|].
  - destruct (inv_enter _ _ _ _ _ _ _ _ Hi Hpc Hm Hv) as (q'&->&->&->&Hi'). split; [eauto|].
    intros Ht (t'&Ht'&Hne). simpl in *. pose proof (li_free _ _ _ _ _ Hi eq_refl) as Hw.
    at_thread t t'.
    + pose proof (li_seen _ _ _ _ _ Hi t'). lia.
    + by apply Hne, race_at; [apply Hr'|].
  - split; [do 3 eexists; apply inv_local; [done|by rewrite Hpc|done]|].
    intros Ht. by apply race_with_pc, Hr'.
  - split; [do 3 eexists; apply inv_local; [done|by rewrite Hpc|done]|].
    intros Ht. by apply race_with_pc, Hr'.
  - split; [|intros Ht; by apply race_with_pc, Hr'].
    do 3 eexists. apply inv_local; [done|by rewrite Hpc|].
    by eapply slot_granted.
  - split; [|intros Ht; by destruct (Ht t); apply elem_of_app; right; left].
    do 3 eexists. by eapply (inv_try_enter _ _ _ _ _ _ head); eauto; lia.
  - split; [do 3 eexists; apply inv_local; [done|by rewrite Hpc|done]|].
    intros Ht. by apply race_with_pc, Hr'.
  - split; [do 3 eexists; apply inv_next; [done|lia|done]|].
    intros Ht (t'&Ht'&Hne). simpl in *. at_thread t t'; [done|].
    destruct (li_holding _ _ _ _ _ Hi t Hpc) as [-> _].
    by destruct (li_holding _ _ _ _ _ Hi t' Ht') as [[=] _].
  - destruct (inv_exit _ _ _ _ _ _ Hi Hpc) as [-> Hi']. split; [eauto|].
    intros Ht. apply race_with_pc; [done|]. intros Hrace. by apply (Hr' Ht).
Qed.

Lemma execution_ok log s :
  execution log s → Z.of_nat (length (tickets log)) < 2 ^ 64 → lock_ok log s.
Proof.
  induction 1 as [|log s es s' He IH Hs]; intros Hb.
  - split; [by do 3 eexists; apply lock_inv_ctor|]. by intros _ (t&?&_).
  - eapply lock_ok_step; [|done|done]. apply IH.
    rewrite tickets_app, length_app in Hb. lia.
Qed.

(** ** Properties *)

(** C19. The lock refines the abstract lock: until 2^64 tickets are taken, in every interleaving and
    whatever values the relaxed loads return, the events are those of a lock that one thread holds
    at a time, the threads inside [lock]...[unlock] are exactly the holder, and threads enter in
    the order of their tickets. *)
Theorem SpinLock_refines log s :
  execution log s → Z.of_nat (length (tickets log)) < 2 ^ 64 →
  ∃ h, spec_run None log = Some h ∧
       (∀ t, l_pc s t = Holding ∨ l_pc s t = Releasing ↔ h = Some t) ∧
       entries log `prefix_of` tickets log.
Proof.
  intros He Hb. destruct (execution_ok _ _ He Hb) as [(q&h&X&Hi) _].
  exists h. split_and!; [apply Hi| |exists q; apply Hi].
  intros t. split; [|apply Hi]. by intros [[? _]%Hi|[? _]%Hi].
Qed.

(** C20. No wake-up is lost: when the lock is free and threads wait in [lock], the newest value of the
    entry that the first in line reads is its ticket, so it enters as soon as it sees it. *)
Theorem SpinLock_handover log s t0 z :
  execution log s → Z.of_nat (length (tickets log)) < 2 ^ 64 →
  l_pc s t0 = Waiting z → (∀ t, l_pc s t ≠ Holding ∧ l_pc s t ≠ Releasing) →
  ∃ t head m rest s', tickets log !! length (entries log) = Some t ∧
    l_pc s t = Waiting head ∧ _buffer s !! slot head = Some (m :: rest) ∧ m_value m = head ∧
    step s [Enter t] s'.
Proof.
  intros He Hb Hz Hout. destruct (execution_ok _ _ He Hb) as [(q&h&X&Hi) _].
  assert (h = None) as ->.
  { destruct h as [t|]; [|done]. destruct (li_holder _ _ _ _ _ Hi t eq_refl), (Hout t); done. }
  pose proof (li_inside _ _ _ _ _ Hi) as Hin. rewrite Nat.add_0_r in Hin.
  apply (li_waiting _ _ _ _ _ Hi) in Hz as (k&Hk&_).
  destruct q as [|t q]; [done|]. destruct (li_turn _ _ _ _ _ Hi) as [rest Hs].
  assert (l_pc s t = Waiting X) as Ht.
  { apply (li_waiting _ _ _ _ _ Hi). exists 0%nat. split; [done|]. lia. }
  exists t, X, (Msg X X), rest. eexists. split_and!; [|done..|].
  - rewrite (li_fifo _ _ _ _ _ Hi), lookup_app_r, Nat.sub_diag by lia. done.
  - apply (lock_enter _ t X (Msg X X)); [done| |done]. exists (Msg X X :: rest). split; [done|left].
Qed.

(** [lock] and [unlock] alone are free of data races: the access of a holder to [_next] comes
    after all previous ones. *)
Theorem SpinLock_race_free log s :
  execution log s → Z.of_nat (length (tickets log)) < 2 ^ 64 → (∀ t, TryEnter t ∉ log) →
  ¬ race s.
Proof. intros He Hb. apply (execution_ok _ _ He Hb). Qed.

(** C40. [trylock] is not: it reads the buffer with relaxed ordering, so a thread that enters through it
    has not synchronised with the thread that left, and its [unlock] races on [_next]. *)
Theorem trylock_races :
  ∃ log s, execution log s ∧ race s ∧ tickets log = [0; 1]%nat ∧ entries log = [0; 1]%nat.
Proof.
  pose proof (li_turn _ _ _ _ _ lock_inv_ctor) as [a0 Ha0].
  pose proof execution_ctor as H0.
  extend H0 to H1 by (lock_fetch_add SpinLock_ctor 0 (Msg 0 0) []).
  eassert (in_slot _ 0 (Msg 0 0)) as Hin by (exists (Msg 0 0 :: a0); by split; [exact Ha0|left]).
  extend H1 to H2 by (lock_enter _ 0 0 (Msg 0 0)).
  extend H2 to H3 by (unlock_next _ 0).
  extend H3 to H4 by (unlock_store _ 0).
  destruct (execution_ok _ _ H4) as [(q&h&X&Hi) _]; [done|].
  assert (X = 1%nat) as ->.
  { pose proof (li_spec _ _ _ _ _ Hi) as Hsp. injection Hsp as <-.
    pose proof (li_inside _ _ _ _ _ Hi) as Hx. simpl in Hx. lia. }
  destruct (li_turn _ _ _ _ _ Hi) as [a1 Ha1].
  extend H4 to H5 by (trylock_load _ 1 (Msg 1 0)); [left|].
  eassert (in_slot _ 1 (Msg 1 1)) as Hin1 by (exists (Msg 1 1 :: a1); by split; [exact Ha1|left]).
  extend H5 to H6 by (trylock_free _ 1 1 (Msg 1 1)).
  extend H6 to H7 by (trylock_exchange _ 1 1 (Msg 1 0) [Msg 0 0]).
  eexists _, _. split; [exact H7|]. split; [|done]. by exists 1%nat.
Qed.
End invariant.

(** ** Examples *)

(** Thread 1 takes a ticket while thread 0 is inside; thread 0 leaves. *)
#[local] Existing Instance release_build.

Lemma contended_example :
  ∃ log s, execution log s ∧
    log = [Ticket 0; Enter 0; Ticket 1; Exit 0] ∧ (∀ t, TryEnter t ∉ log) ∧
    l_pc s 1%nat = Waiting 1 ∧ (∀ t, l_pc s t ≠ Holding ∧ l_pc s t ≠ Releasing).
Proof.
  pose proof (execution_ctor) as H0.
  extend H0 to H1 by (lock_fetch_add SpinLock_ctor 0 (Msg 0 0) []).
  assert (in_slot SpinLock_ctor 0 (Msg 0 0)) as Hin.
  { eexists. split; [reflexivity|left]. }
  extend H1 to H2 by (lock_enter _ 0 0 (Msg 0 0)).
  extend H2 to H3 by (lock_fetch_add _ 1 (Msg 1 0) [Msg 0 0]).
  extend H3 to H4 by (unlock_next _ 0).
  extend H4 to H5 by (unlock_store _ 0).
  eexists _, _. split; [exact H5|]. split; [reflexivity|]. split.
  { intros t Hin'. repeat (apply elem_of_cons in Hin' as [?|Hin']; [done|]). by inv Hin'. }
  split; [reflexivity|]. intros [|[|t]]; by split.
Qed.

Lemma SpinLock_refines_witness :
  ∃ log s h, execution log s ∧ tickets log = [0; 1]%nat ∧
    spec_run None log = Some h ∧ entries log `prefix_of` tickets log.
Proof.
  destruct contended_example as (log&s&He&->&_).
  destruct (SpinLock_refines _ s He eq_refl) as (h&?&_&?).
  by exists [Ticket 0; Enter 0; Ticket 1; Exit 0], s, h.
Defined.

Lemma SpinLock_handover_witness :
  ∃ log s s', execution log s ∧ step s [Enter 1] s'.
Proof.
  destruct contended_example as (log&s&He&->&_&Hpc&Hout).
  destruct (SpinLock_handover _ s 1 1 He eq_refl Hpc Hout)
    as (t&head&m&rest&s'&Ht&_&_&_&Hs).
  injection Ht as <-. by exists [Ticket 0; Enter 0; Ticket 1; Exit 0], s, s'.
Defined.

Lemma SpinLock_race_free_witness :
  ∃ log s, execution log s ∧ tickets log = [0; 1]%nat ∧ ¬ race s.
Proof.
  destruct contended_example as (log&s&He&->&Ht&_).
  exists [Ticket 0; Enter 0; Ticket 1; Exit 0], s. split; [done|]. split; [done|].
  exact (SpinLock_race_free _ s He eq_refl Ht).
Defined.
