(* ===== verification/MPSCQueue.v ===== *)
(** The bounded queue of util/MPSCLockFreeQueue.hpp as a transition system: any number of
    producers run [enqueue] and one consumer runs [dequeue], in any interleaving, one atomic
    access per step. All accesses of the code are sequentially consistent. *)

From S2P Require Import Prelude Types.

#[local] Open Scope Z_scope.
#[local] Coercion Z.of_nat : nat >-> Z.

(** ** State *)

(** Where a producer is in [enqueue(obj)].
    - [PCounted obj]: its increment of [_count] found room;
    - [PBackoff]: it found none, and has [_count] to restore;
    - [PClaimed head obj]: it got position [head];
    - [PChecked head obj]: after the first assertion, before the exchange;
    - [PExchanged rv]: after the exchange, before the second assertion. *)
Variant producer :=
  | PIdle
  | PCounted (obj : Z)
  | PBackoff
  | PClaimed (head obj : Z)
  | PChecked (head obj : Z)
  | PExchanged (rv : Z).

(** Where the consumer is in [dequeue]: before the exchange; with the object, before [_tail] is
    advanced; before [_count] is decremented. *)
Variant consumer :=
  | CIdle
  | CTook (ret : Z)
  | CAdvanced (ret : Z).

(** The fields of class [MPSCLockFreeQueue], and the threads. An object is an integer or a pointer,
    0 being none. *)
Record mpsc := MPSC {
  _count : Z;
  _head : Z;
  _tail : Z;
  _capacity : Z;
  _buffer : list Z;
  q_producers : list producer;
  q_consumer : consumer;
}.

Definition set_count (n : Z) (s : mpsc) : mpsc :=
  MPSC n (_head s) (_tail s) (_capacity s) (_buffer s) (q_producers s) (q_consumer s).
Definition set_head (h : Z) (s : mpsc) : mpsc :=
  MPSC (_count s) h (_tail s) (_capacity s) (_buffer s) (q_producers s) (q_consumer s).
Definition set_tail (t : Z) (s : mpsc) : mpsc :=
  MPSC (_count s) (_head s) t (_capacity s) (_buffer s) (q_producers s) (q_consumer s).
Definition set_entry (j : nat) (x : Z) (s : mpsc) : mpsc :=
  MPSC (_count s) (_head s) (_tail s) (_capacity s) (<[j := x]> (_buffer s)) (q_producers s)
    (q_consumer s).
Definition set_producer (i : nat) (p : producer) (s : mpsc) : mpsc :=
  MPSC (_count s) (_head s) (_tail s) (_capacity s) (_buffer s) (<[i := p]> (q_producers s))
    (q_consumer s).
Definition set_consumer (c : consumer) (s : mpsc) : mpsc :=
  MPSC (_count s) (_head s) (_tail s) (_capacity s) (_buffer s) (q_producers s) c.

(** [MPSCLockFreeQueue(capacity)], with [n] producers. *)
Definition MPSC_ctor (n : nat) (capacity : Z) : mpsc := {|
  _count := 0;
  _head := 0;
  _tail := 0;
  _capacity := capacity;
  _buffer := replicate (Z.to_nat capacity) 0;
  q_producers := replicate n PIdle;
  q_consumer := CIdle |}.

Definition MPSC_size (s : mpsc) : Z := _count s.
Definition MPSC_capacity (s : mpsc) : Z := _capacity s.
Definition MPSC_empty (s : mpsc) : bool := MPSC_size s =? 0.

(** The assertion of the destructor. *)
Definition MPSC_dtor_assertion (s : mpsc) : bool := _count s =? 0.

(** [head % _capacity] *)
Definition position (capacity head : Z) : nat := Z.to_nat (head `mod` capacity).

(** [if (++_tail >= _capacity) _tail = 0;] *)
Definition advance (capacity tail : Z) : Z :=
  let tail := u64 (tail + 1) in
  if capacity <=? tail then 0 else tail.

(** ** Steps *)

(** What happens to the queue: producer [i] calls [enqueue(obj)], gets a position, stores its
    object, or returns false; [dequeue] finds nothing, takes an object, or returns it; an assertion
    is evaluated. *)
Variant queue_event :=
  | Called (i : nat) (obj : Z)
  | Claimed (i : nat) (obj : Z)
  | Stored (i : nat)
  | Refused (i : nat)
  | FoundNothing
  | Took (ret : Z)
  | Returned (ret : Z)
  | Assertion (holds : bool).

(** In builds without assertions the steps that evaluate one do nothing. *)
Inductive queue_step (s : mpsc) : list queue_event → mpsc → Prop :=
  (* enqueue *)
  | enqueue_count i obj :
      q_producers s !! i = Some PIdle →
      queue_step s [Called i obj]
        (set_producer i (if _capacity s <=? _count s then PBackoff else PCounted obj)
          (set_count (u64 (_count s + 1)) s))
  | enqueue_backoff i :
      q_producers s !! i = Some PBackoff →
      queue_step s [Refused i] (set_producer i PIdle (set_count (u64 (_count s - 1)) s))
  | enqueue_claim i obj :
      q_producers s !! i = Some (PCounted obj) →
      queue_step s [Claimed i obj]
        (set_producer i (PClaimed (_head s) obj) (set_head (u64 (_head s + 1)) s))
  | enqueue_check i head obj x :
      q_producers s !! i = Some (PClaimed head obj) →
      _buffer s !! position (_capacity s) head = Some x →
      queue_step s [Assertion (x =? 0)] (set_producer i (PChecked head obj) s)
  | enqueue_exchange i head obj rv :
      q_producers s !! i = Some (PChecked head obj) →
      _buffer s !! position (_capacity s) head = Some rv →
      queue_step s [Stored i]
        (set_producer i (PExchanged rv) (set_entry (position (_capacity s) head) obj s))
  | enqueue_return i rv :
      q_producers s !! i = Some (PExchanged rv) →
      queue_step s [Assertion (rv =? 0)] (set_producer i PIdle s)
  (* dequeue *)
  | dequeue_exchange ret :
      q_consumer s = CIdle → _buffer s !! Z.to_nat (_tail s) = Some ret →
      queue_step s [if ret =? 0 then FoundNothing else Took ret]
        (set_consumer (if ret =? 0 then CIdle else CTook ret)
          (set_entry (Z.to_nat (_tail s)) 0 s))
  | dequeue_advance ret :
      q_consumer s = CTook ret →
      queue_step s [] (set_consumer (CAdvanced ret) (set_tail (advance (_capacity s) (_tail s)) s))
  | dequeue_count ret :
      q_consumer s = CAdvanced ret →
      queue_step s [Assertion (0 <? _count s); Returned ret]
        (set_consumer CIdle (set_count (u64 (_count s - 1)) s)).

Inductive queue_execution (n : nat) (capacity : Z) : list queue_event → mpsc → Prop :=
  | queue_execution_ctor : queue_execution n capacity [] (MPSC_ctor n capacity)
  | queue_execution_step log s es s' :
      queue_execution n capacity log s → queue_step s es s' →
      queue_execution n capacity (log ++ es) s'.

(** ** What a queue is *)

(** The abstract queue: the objects in it, oldest first, each with the producer that is still
    storing it. At most [capacity] are in it; only the oldest is taken, once it is stored, and
    nothing is found only while it is not; assertions hold. *)
Abbreviation abstract_queue := (list (option nat * Z)).

Definition store (i : nat) (e : option nat * Z) : option nat * Z :=
  if decide (e.1 = Some i) then (None, e.2) else e.

Definition spec_queue_event (capacity : Z) (q : abstract_queue) (e : queue_event) :
    option abstract_queue :=
  match e with
  | Claimed i obj =>
      if decide (Z.of_nat (length q) < capacity) then Some (q ++ [(Some i, obj)]) else None
  | Stored i => Some (store i <$> q)
  | FoundNothing => match q with (None, _) :: _ => None | _ => Some q end
  | Took ret =>
      match q with
      | (None, x) :: q => if decide (x = ret) then Some q else None
      | _ => None
      end
  | Assertion holds => if holds : bool then Some q else None
  | Called _ _ | Refused _ | Returned _ => Some q
  end.

Fixpoint spec_queue_run (capacity : Z) (q : abstract_queue) (log : list queue_event) :
    option abstract_queue :=
  match log with
  | [] => Some q
  | e :: log => q ← spec_queue_event capacity q e; spec_queue_run capacity q log
  end.

(** The objects that were claimed and that were taken, in order, and the number of calls. *)
Definition claims (log : list queue_event) : list Z :=
  omap (λ e, match e with Claimed _ obj => Some obj | _ => None end) log.
Definition taken (log : list queue_event) : list Z :=
  omap (λ e, match e with Took ret => Some ret | _ => None end) log.
Definition calls (log : list queue_event) : list Z :=
  omap (λ e, match e with Called _ obj => Some obj | _ => None end) log.

Lemma spec_queue_run_app capacity q log1 log2 :
  spec_queue_run capacity q (log1 ++ log2) =
    q ← spec_queue_run capacity q log1; spec_queue_run capacity q log2.
Proof.
  revert q. induction log1 as [|e log1 IH]; intros q; [done|]. simpl.
  destruct (spec_queue_event capacity q e); [apply IH|done].
Qed.

Lemma spec_queue_run_snoc capacity log es q q' :
  spec_queue_run capacity [] log = Some q → spec_queue_run capacity q es = Some q' →
  spec_queue_run capacity [] (log ++ es) = Some q'.
Proof. intros H H'. by rewrite spec_queue_run_app, H. Qed.

(** An abstract queue is first in, first out. *)
Lemma spec_queue_fifo capacity log q q' :
  spec_queue_run capacity q log = Some q' → q.*2 ++ claims log = taken log ++ q'.*2.
Proof.
  revert q. induction log as [|e log IH]; intros q; simpl.
  - intros [= ->]. by rewrite app_nil_r.
  - intros (q1&Hq1&Hr)%bind_Some. apply IH in Hr.
    destruct e; simpl in Hq1 |- *; repeat case_match; simplify_eq; simpl in *; try done.
    + rewrite fmap_app in Hr. rewrite <- Hr, <- app_assoc. done.
    + rewrite <- Hr. f_equal. rewrite <- list_fmap_compose. apply list_fmap_ext.
      intros j x _. simpl. unfold store. by case_decide.
    + by f_equal.
Qed.

(** ** The invariant *)

(** The position and the object of a producer that has not stored it yet. *)
Definition pending (p : producer) : option (Z * Z) :=
  match p with PClaimed h obj | PChecked h obj => Some (h, obj) | _ => None end.

Definition producer_ok (p : producer) : Prop :=
  match p with PCounted obj => obj ≠ 0 | PExchanged rv => rv = 0 | _ => True end.

(** What a producer that has no position yet adds to [_count], and what it will take of the
    capacity. *)
Definition counted (p : producer) : nat :=
  match p with PCounted _ | PBackoff => 1 | _ => 0 end.
Definition admitted (p : producer) : nat := match p with PCounted _ => 1 | _ => 0 end.

(** An object is counted until the consumer returns it. *)
Definition returning (c : consumer) : nat := match c with CIdle => 0 | _ => 1 end.

(** The positions the consumer has advanced over. *)
Definition advanced (c : consumer) (t : nat) : nat :=
  match c with CTook _ => t - 1 | _ => t end.

(** What the buffer has for place [k] of the queue. *)
Definition content (q : abstract_queue) (k : nat) : Z :=
  match q !! k with Some (None, x) => x | _ => 0 end.

Record mpsc_inv (capacity : Z) (log : list queue_event) (s : mpsc) (q : abstract_queue) (t : nat) :
    Prop := {
  qi_capacity : _capacity s = capacity;
  qi_buffer (k : nat) : k < capacity →
    _buffer s !! position capacity (t + k) = Some (content q k);
  qi_head : _head s = t + length q;
  qi_tail : _tail s = advanced (q_consumer s) t `mod` capacity;
  qi_pending i h obj : q_producers s !! i ≫= pending = Some (h, obj) ↔
    ∃ k : nat, q !! k = Some (Some i, obj) ∧ h = t + k;
  qi_ok i p : q_producers s !! i = Some p → producer_ok p;
  qi_objs : Forall (λ e, e.2 ≠ 0) q;
  qi_count : _count s =
    sum_list_with counted (q_producers s) + length q + returning (q_consumer s);
  qi_room : sum_list_with admitted (q_producers s) + length q + returning (q_consumer s) ≤
    capacity;
  qi_returning : (returning (q_consumer s) ≤ t)%nat;
  qi_calls : (sum_list_with counted (q_producers s) + length q + t ≤ length (calls log))%nat;
  qi_spec : spec_queue_run capacity [] log = Some q;
}.

Lemma sum_list_with_insert {A} (f : A → nat) l i x y :
  l !! i = Some x → (sum_list_with f (<[i := y]> l) + f x = sum_list_with f l + f y)%nat.
Proof.
  revert i. induction l as [|z l IH]; intros [|i] Hi; [done..| |].
  - injection Hi as ->. simpl. lia.
  - simpl. specialize (IH i Hi). lia.
Qed.

Lemma sum_list_with_le {A} (f g : A → nat) l :
  (∀ x, f x ≤ g x)%nat → (sum_list_with f l ≤ sum_list_with g l)%nat.
Proof. intros Hf. induction l as [|x l IH]; simpl; [done|]. specialize (Hf x). lia. Qed.

Lemma position_inj capacity (t k k' : nat) :
  k < capacity → k' < capacity → position capacity (t + k) = position capacity (t + k') → k = k'.
Proof.
  unfold position. intros Hk Hk' He.
  pose proof (Z.mod_pos_bound (t + k) capacity ltac:(lia)).
  pose proof (Z.mod_pos_bound (t + k') capacity ltac:(lia)).
  assert ((t + k) `mod` capacity = (t + k') `mod` capacity) as Hm by lia.
  apply Z.cong_iff_ex in Hm as [z Hz]. assert (z = 0) by nia. lia.
Qed.

Lemma u64_small x : 0 ≤ x < 2 ^ 64 → u64 x = x.
Proof. apply wrap_small. Qed.

Section preservation.
Context (capacity : Z) (Hcap : 0 < capacity < 2 ^ 64).

Lemma mpsc_inv_ctor n : mpsc_inv capacity [] (MPSC_ctor n capacity) [] 0.
Proof.
  assert (∀ f, f PIdle = 0%nat → sum_list_with f (replicate n PIdle) = 0%nat) as Hsum.
  { intros f Hf. induction n as [|n IH]; simpl; lia. }
  assert (∀ i, replicate n PIdle !! i ≫= pending = None) as Hp.
  { intros i. destruct (_ !! i) eqn:Hi; [|done]. by apply lookup_replicate in Hi as [-> _]. }
  split; simpl; rewrite ?Hsum by done; try done; try lia.
  - intros k Hk. apply lookup_replicate. split; [done|]. unfold position.
    pose proof (Z.mod_pos_bound (0%nat + k) capacity). lia.
  - intros i h obj. rewrite Hp. split; [done|]. by intros (k&[=]&_).
  - by intros i p [-> _]%lookup_replicate.
Qed.

(** A step of a producer that neither gets a position nor stores an object. *)
Lemma inv_producer log s q t es i p0 p c :
  mpsc_inv capacity log s q t → q_producers s !! i = Some p0 →
  pending p = pending p0 → producer_ok p →
  c = _count s + counted p - counted p0 →
  (admitted p ≤ admitted p0 ∨ admitted p = 1%nat ∧ _count s < capacity) →
  (counted p ≤ counted p0 + length (calls es))%nat →
  spec_queue_run capacity q es = Some q →
  mpsc_inv capacity (log ++ es) (set_producer i p (set_count c s)) q t.
Proof.
  intros [] Hi Hp Hok -> Hadm Hcalls Hes.
  pose proof (sum_list_with_insert counted _ _ _ p Hi) as Hsc.
  pose proof (sum_list_with_insert admitted _ _ _ p Hi) as Hsa.
  assert (sum_list_with admitted (q_producers s) ≤ sum_list_with counted (q_producers s))%nat.
  { apply sum_list_with_le. by intros []; simpl; lia. }
  split; simpl; try done; try lia.
  - intros j h obj. rewrite <- qi_pending0. destruct (decide (i = j)) as [<-|].
    + rewrite list_lookup_insert_eq by (by eapply lookup_lt_Some). by rewrite Hi; simpl; rewrite Hp.
    + by rewrite list_lookup_insert_ne.
  - intros j p' [(_&<-&_)|[_ ?]]%list_lookup_insert_Some; [done|by eapply qi_ok0].
  - unfold calls in *. rewrite omap_app, length_app. lia.
  - by eapply spec_queue_run_snoc.
Qed.

Lemma inv_claim log s q t i obj :
  mpsc_inv capacity log s q t → q_producers s !! i = Some (PCounted obj) →
  Z.of_nat (length (calls log)) < 2 ^ 64 →
  mpsc_inv capacity (log ++ [Claimed i obj])
    (set_producer i (PClaimed (_head s) obj) (set_head (u64 (_head s + 1)) s))
    (q ++ [(Some i, obj)]) t.
Proof.
  intros [] Hi Hb.
  pose proof (sum_list_with_insert counted _ _ _ (PClaimed (_head s) obj) Hi) as Hsc.
  pose proof (sum_list_with_insert admitted _ _ _ (PClaimed (_head s) obj) Hi) as Hsa.
  simpl in Hsc, Hsa. split; simpl; rewrite ?length_app; simpl; try done; try lia.
  - intros k Hk. rewrite qi_buffer0 by done. f_equal. unfold content.
    destruct (decide (k < length q)%nat) as [Hl|Hl]; [by rewrite lookup_app_l|].
    rewrite lookup_app_r by lia. rewrite (proj2 (lookup_ge_None q k)) by lia.
    by destruct (k - length q)%nat.
  - rewrite u64_small; lia.
  - intros j h obj'. destruct (decide (i = j)) as [<-|Hij].
    + rewrite list_lookup_insert_eq by (by eapply lookup_lt_Some). simpl. split.
      * intros [= <- <-]. exists (length q). rewrite lookup_app_r, Nat.sub_diag by lia. done.
      * intros (k&Hk&->). apply lookup_app_Some in Hk as [Hk|[Hk Hk']].
        -- assert (q_producers s !! i ≫= pending = Some (t + k, obj')) as Hc.
           { apply qi_pending0. by exists k. }
           by rewrite Hi in Hc.
        -- apply list_lookup_singleton_Some in Hk' as [Hk0 [= <-]]. repeat f_equal. lia.
    + rewrite list_lookup_insert_ne by done. rewrite qi_pending0. split.
      * intros (k&Hk&->). exists k. split; [|done]. by apply lookup_app_l_Some.
      * intros (k&[Hk|[_ Hk]]%lookup_app_Some&->); [by exists k|].
        by apply list_lookup_singleton_Some in Hk as [_ [= ->]].
  - intros j p [(_&<-&_)|[_ ?]]%list_lookup_insert_Some; [done|by eapply qi_ok0].
  - apply Forall_app. split; [done|]. constructor; [|done]. exact (qi_ok0 i _ Hi).
  - unfold calls in *. rewrite omap_app, length_app. simpl. lia.
  - eapply spec_queue_run_snoc; [done|]. simpl. rewrite decide_True by lia. done.
Qed.

Lemma inv_exchange log s q t i head obj rv :
  mpsc_inv capacity log s q t → q_producers s !! i = Some (PChecked head obj) →
  _buffer s !! position capacity head = Some rv →
  mpsc_inv capacity (log ++ [Stored i])
    (set_producer i (PExchanged rv) (set_entry (position capacity head) obj s))
    (store i <$> q) t.
Proof.
  intros [] Hi Hrv.
  pose proof (sum_list_with_insert counted _ _ _ (PExchanged rv) Hi) as Hsc.
  pose proof (sum_list_with_insert admitted _ _ _ (PExchanged rv) Hi) as Hsa.
  assert (q_producers s !! i ≫= pending = Some (head, obj)) as (k&Hk&->)%qi_pending0 by by rewrite Hi.
  assert (∀ j o, q !! j = Some (Some i, o) → j = k) as Huniq.
  { intros j o Hj. assert (q_producers s !! i ≫= pending = Some (t + j, o)) as Hpj.
    { apply qi_pending0. by exists j. }
    rewrite Hi in Hpj. injection Hpj as ? _. lia. }
  pose proof (lookup_lt_Some _ _ _ Hk) as Hlt.
  rewrite qi_buffer0 in Hrv by lia. unfold content in Hrv. rewrite Hk in Hrv. injection Hrv as <-.
  split; simpl; rewrite ?length_fmap; try done; try (simpl in *; lia).
  - intros j Hj. destruct (decide (j = k)) as [->|Hjk].
    + rewrite list_lookup_insert_eq by (eapply lookup_lt_Some, qi_buffer0; lia).
      unfold content. rewrite list_lookup_fmap, Hk. simpl. unfold store. by rewrite decide_True.
    + rewrite list_lookup_insert_ne by (intros ->%position_inj; lia). rewrite qi_buffer0 by done.
      f_equal. unfold content. rewrite list_lookup_fmap. destruct (q !! j) as [[[i'|] o]|] eqn:Hq; [|done..].
      simpl. unfold store. case_decide as Hd; [|done]. simpl in Hd. injection Hd as ->.
      by apply Huniq in Hq.
  - intros j h o. destruct (decide (i = j)) as [<-|Hij].
    + rewrite list_lookup_insert_eq by (by eapply lookup_lt_Some). split; [done|].
      intros (k'&([i' o']&He&Hq)%list_lookup_fmap_Some&_). unfold store in He.
      case_decide as Hd; simplify_eq; done.
    + rewrite list_lookup_insert_ne by done. rewrite qi_pending0. split.
      * intros (k'&Hq&->). exists k'. split; [|done]. rewrite list_lookup_fmap, Hq. simpl.
        unfold store. rewrite decide_False by naive_solver. done.
      * intros (k'&([i' o']&He&Hq)%list_lookup_fmap_Some&->). exists k'. split; [|done].
        unfold store in He. case_decide; simplify_eq; done.
  - intros j p [(_&<-&_)|[_ ?]]%list_lookup_insert_Some; [done|by eapply qi_ok0].
  - apply Forall_fmap. eapply Forall_impl; [done|]. intros e He. simpl. unfold store. by case_decide.
  - unfold calls in *. rewrite omap_app, length_app. simpl in *. lia.
  - by eapply spec_queue_run_snoc.
Qed.

Lemma position_next (t k : nat) : position capacity (S t + k) = position capacity (t + S k).
Proof. f_equal. lia. Qed.

Lemma position_around (t : nat) : position capacity (t + Z.to_nat capacity) = position capacity t.
Proof.
  unfold position. rewrite Z2Nat.id by lia. f_equal.
  rewrite <- (Z.mul_1_l capacity) at 1. apply Z_mod_plus_full.
Qed.

Lemma inv_front log s q t ret :
  mpsc_inv capacity log s q t → q_consumer s = CIdle →
  _buffer s !! Z.to_nat (_tail s) = Some ret →
  Z.to_nat (_tail s) = position capacity t ∧ ret = content q 0.
Proof.
  intros [] Hc Hr. rewrite Hc in qi_tail0. simpl in qi_tail0.
  assert (Z.to_nat (_tail s) = position capacity (t + 0%nat)) as Ht.
  { unfold position. rewrite qi_tail0. f_equal. f_equal. lia. }
  split; [rewrite Ht; f_equal; lia|].
  rewrite Ht, qi_buffer0 in Hr by (simpl; lia). by injection Hr.
Qed.

Lemma inv_found_nothing log s q t :
  mpsc_inv capacity log s q t → q_consumer s = CIdle →
  _buffer s !! Z.to_nat (_tail s) = Some 0 →
  mpsc_inv capacity (log ++ [FoundNothing])
    (set_consumer CIdle (set_entry (Z.to_nat (_tail s)) 0 s)) q t.
Proof.
  intros Hinv Hc Hr. destruct (inv_front _ _ _ _ _ Hinv Hc Hr) as [_ H0]. destruct Hinv.
  rewrite Hc in *. simpl in *. split; simpl; try done.
  - by rewrite list_insert_id.
  - unfold calls in *. rewrite omap_app, app_nil_r. done.
  - eapply spec_queue_run_snoc; [done|]. simpl.
    destruct q as [|[[i|] x] q]; [done..|]. apply Forall_cons in qi_objs0 as [Hx _]. done.
Qed.

Lemma inv_took log s q t ret :
  mpsc_inv capacity log s q t → q_consumer s = CIdle → ret ≠ 0 →
  _buffer s !! Z.to_nat (_tail s) = Some ret →
  ∃ q', mpsc_inv capacity (log ++ [Took ret])
    (set_consumer (CTook ret) (set_entry (Z.to_nat (_tail s)) 0 s)) q' (S t).
Proof.
  intros Hinv Hc Hret Hr. destruct (inv_front _ _ _ _ _ Hinv Hc Hr) as [Ht H0]. destruct Hinv.
  rewrite Ht, Hc in *. simpl in *. unfold content in H0.
  destruct q as [|[[i|] x] q]; simpl in H0; [done..|subst x]. exists q.
  simpl in *. split; simpl; try done; try lia.
  - intros k Hk. destruct (decide (S k = Z.to_nat capacity)) as [Hw|Hw].
    + rewrite position_next, Hw, position_around, list_lookup_insert_eq
        by (by eapply lookup_lt_Some).
      f_equal. unfold content. rewrite (proj2 (lookup_ge_None q k)); [done|lia].
    + rewrite position_next, list_lookup_insert_ne; [rewrite qi_buffer0 by lia; done|].
      replace (Z.of_nat t) with (t + 0%nat) at 1 by lia. intros Hp%position_inj; lia.
  - rewrite Nat.sub_0_r. done.
  - intros i h obj. rewrite qi_pending0. split.
    + intros ([|k]&Hk&->); [done|]. exists k. split; [done|lia].
    + intros (k&Hk&->). exists (S k). split; [done|lia].
  - by apply Forall_cons in qi_objs0 as [_ ?].
  - unfold calls in *. rewrite omap_app, app_nil_r. lia.
  - eapply spec_queue_run_snoc; [done|]. simpl. by rewrite decide_True.
Qed.

Lemma advance_mod (x : nat) : advance capacity (x `mod` capacity) = (x + 1) `mod` capacity.
Proof.
  pose proof (Z.mod_pos_bound x capacity ltac:(lia)). unfold advance. rewrite u64_small by lia.
  pose proof (Z.div_mod x capacity ltac:(lia)) as Hx.
  destruct (Z.leb_spec capacity (x `mod` capacity + 1)).
  - apply (Z.mod_unique_pos _ _ (x / capacity + 1)); lia.
  - apply (Z.mod_unique_pos _ _ (x / capacity)); lia.
Qed.

Lemma inv_advance log s q t ret :
  mpsc_inv capacity log s q t → q_consumer s = CTook ret →
  mpsc_inv capacity log
    (set_consumer (CAdvanced ret) (set_tail (advance capacity (_tail s)) s)) q t.
Proof.
  intros [] Hc. rewrite Hc in *. simpl in *. split; simpl; try done.
  rewrite qi_tail0, advance_mod. f_equal. lia.
Qed.

Lemma inv_return log s q t ret :
  mpsc_inv capacity log s q t → q_consumer s = CAdvanced ret →
  Z.of_nat (length (calls log)) < 2 ^ 64 →
  mpsc_inv capacity (log ++ [Assertion (0 <? _count s); Returned ret])
    (set_consumer CIdle (set_count (u64 (_count s - 1)) s)) q t.
Proof.
  intros [] Hc Hb. rewrite Hc in *. simpl in *.
  split; simpl; rewrite ?Hc; try done; try lia.
  - rewrite u64_small by lia. lia.
  - unfold calls in *. rewrite omap_app, app_nil_r. done.
  - eapply spec_queue_run_snoc; [done|]. simpl.
    rewrite (proj2 (Z.ltb_lt 0 (_count s))) by lia. done.
Qed.

Lemma calls_app log1 log2 : calls (log1 ++ log2) = calls log1 ++ calls log2.
Proof. apply omap_app. Qed.

Lemma inv_step log s es s' q t :
  mpsc_inv capacity log s q t → queue_step s es s' →
  Z.of_nat (length (calls (log ++ es))) < 2 ^ 64 → Forall (λ x, x ≠ 0) (calls (log ++ es)) →
  ∃ q' t', mpsc_inv capacity (log ++ es) s' q' t'.
Proof.
  rewrite calls_app, length_app. intros Hinv Hs Hb [Hnz Hnz']%Forall_app.
  pose proof (qi_capacity _ _ _ _ _ Hinv) as Hc. pose proof (qi_count _ _ _ _ _ Hinv) as Hn.
  pose proof (qi_returning _ _ _ _ _ Hinv). pose proof (qi_calls _ _ _ _ _ Hinv).
  destruct Hs as [i obj Hi|i Hi|i obj Hi|i head obj x Hi Hx|i head obj rv Hi Hx|i rv Hi|ret Hi Hx
    |ret Hi|ret Hi]; rewrite ?Hc in *; simpl in Hb.
  - exists q, t. rewrite u64_small by lia. apply Forall_cons in Hnz' as [Hobj _].
    eapply (inv_producer _ _ _ _ _ _ PIdle); [done|done|..].
    + by case_match.
    + by case_match.
    + case_match; simpl; lia.
    + destruct (Z.leb_spec capacity (_count s)); simpl; lia.
    + case_match; simpl; lia.
    + done.
  - pose proof (sum_list_with_insert counted _ _ _ PIdle Hi) as Hsc. simpl in Hsc.
    exists q, t. rewrite u64_small by lia.
    eapply (inv_producer _ _ _ _ _ _ PBackoff); simpl; try done; lia.
  - eexists _, t. eapply inv_claim; [done|done|lia].
  - assert (x = 0) as ->.
    { destruct (qi_pending _ _ _ _ _ Hinv i head obj) as [(k&Hk&->) _]; [by rewrite Hi|].
      pose proof (lookup_lt_Some _ _ _ Hk). pose proof (qi_room _ _ _ _ _ Hinv).
      rewrite (qi_buffer _ _ _ _ _ Hinv) in Hx by lia.
      unfold content in Hx. rewrite Hk in Hx. by injection Hx. }
    exists q, t. replace s with (set_count (_count s) s) at 1 by by destruct s.
    eapply (inv_producer _ _ _ _ _ _ (PClaimed head obj)); simpl; try done; lia.
  - eexists _, t. by eapply inv_exchange.
  - pose proof (qi_ok _ _ _ _ _ Hinv _ _ Hi) as Hrv. simpl in Hrv. subst rv.
    exists q, t. replace s with (set_count (_count s) s) at 1 by by destruct s.
    eapply (inv_producer _ _ _ _ _ _ (PExchanged 0)); simpl; try done; lia.
  - destruct (Z.eqb_spec ret 0) as [->|Hret]; [by exists q, t; apply inv_found_nothing|].
    destruct (inv_took _ _ _ _ _ Hinv Hi Hret Hx) as [q' ?]. by exists q', (S t).
  - exists q, t. rewrite app_nil_r. by apply inv_advance.
  - exists q, t. eapply inv_return; [done|done|lia].
Qed.

Lemma execution_inv n log s :
  queue_execution n capacity log s →
  Z.of_nat (length (calls log)) < 2 ^ 64 → Forall (λ x, x ≠ 0) (calls log) →
  ∃ q t, mpsc_inv capacity log s q t.
Proof.
  induction 1 as [|log s es s' He IH Hs]; intros Hb Hnz; [by eexists _, _; apply mpsc_inv_ctor|].
  destruct IH as (q&t&Hinv).
  - rewrite calls_app, length_app in Hb. lia.
  - rewrite calls_app in Hnz. by apply Forall_app in Hnz as [? _].
  - by eapply inv_step.
Qed.
End preservation.

(** ** Properties *)

(** C22. The queue refines the abstract queue: until [enqueue] was called 2^64 times, with objects that
    are not null, the events of every interleaving are those of a bounded first-in first-out queue
    in which [dequeue] takes the oldest object as soon as it is stored. No assertion fails, no more
    than the capacity is in the queue, and the objects come out in the order of their positions,
    none lost and none twice. *)
Theorem MPSC_refines n capacity log s :
  0 < capacity < 2 ^ 64 → queue_execution n capacity log s →
  Z.of_nat (length (calls log)) < 2 ^ 64 → Forall (λ x, x ≠ 0) (calls log) →
  ∃ q, spec_queue_run capacity [] log = Some q ∧ Z.of_nat (length q) ≤ capacity ∧
       claims log = taken log ++ q.*2.
Proof.
  intros Hcap He Hb Hnz. destruct (execution_inv _ Hcap _ _ _ He Hb Hnz) as (q&t&[]).
  exists q. split; [done|]. split; [lia|]. by apply spec_queue_fifo in qi_spec0.
Qed.

(** When no [enqueue] and no [dequeue] is running, [_count] is what is in the queue, [empty] tells
    whether everything was taken, which is what the destructor asserts, and all objects in it are
    stored, so that [dequeue] takes the oldest. *)
Theorem MPSC_quiescent n capacity log s :
  0 < capacity < 2 ^ 64 → queue_execution n capacity log s →
  Z.of_nat (length (calls log)) < 2 ^ 64 → Forall (λ x, x ≠ 0) (calls log) →
  Forall (λ p, p = PIdle) (q_producers s) → q_consumer s = CIdle →
  ∃ l : list Z, claims log = taken log ++ l ∧ MPSC_size s = length l ∧
    MPSC_empty s = bool_decide (l = []) ∧ MPSC_dtor_assertion s = bool_decide (l = []) ∧
    ∃ s', queue_step s [match l with x :: _ => Took x | [] => FoundNothing end] s'.
Proof.
  intros Hcap He Hb Hnz Hp Hc. destruct (execution_inv _ Hcap _ _ _ He Hb Hnz) as (q&t&Hinv).
  assert (_buffer s !! Z.to_nat (_tail s) = Some (content q 0)) as Hbuf.
  { destruct Hinv. rewrite Hc in qi_tail0. rewrite <- (qi_buffer0 0%nat) by (simpl; lia).
    rewrite qi_tail0. unfold position. simpl. do 3 f_equal. lia. }
  destruct Hinv. exists (q.*2).
  assert (sum_list_with counted (q_producers s) = 0%nat) as Hsum.
  { clear -Hp. induction Hp as [|p l -> _ IH]; simpl; lia. }
  assert (_count s = length q.*2) as Hn by (rewrite length_fmap, Hc in *; simpl in *; lia).
  assert ((_count s =? 0) = bool_decide (q.*2 = [])) as He0.
  { rewrite Hn. by destruct q. }
  split; [by apply spec_queue_fifo in qi_spec0|].
  split; [exact Hn|]. split; [exact He0|]. split; [exact He0|].
  pose proof (dequeue_exchange s _ Hc Hbuf) as Hs. unfold content in Hs.
  destruct q as [|[[i|] x] q]; [by eexists| |].
  - assert (q_producers s !! i ≫= pending = Some (t + 0%nat, x)) as Hpend.
    { apply qi_pending0. by exists 0%nat. }
    apply bind_Some in Hpend as (p&Hi&Hpend). rewrite Forall_lookup in Hp.
    by rewrite (Hp _ _ Hi) in Hpend.
  - apply Forall_cons in qi_objs0 as [Hx _]. simpl in Hs, Hx.
    rewrite (proj2 (Z.eqb_neq x 0)) in Hs by done. by eexists.
Qed.

(** One more step of a concrete execution. *)
Tactic Notation "advance" hyp(H) "to" ident(H') "by" uconstr(c) :=
  eassert (queue_execution _ _ _ _) as H';
  [eapply queue_execution_step; [exact H|eapply c; reflexivity]|cbn in H'].

(** [enqueue] may return false although the queue is empty: a call that found no room has not
    restored [_count] yet when the next one looks. *)
Theorem MPSC_refuses_empty :
  ∃ log s s', queue_execution 3 1 log s ∧ spec_queue_run 1 [] log = Some [] ∧
    queue_step s [Called 2 30] s' ∧ q_producers s' !! 2%nat = Some PBackoff.
Proof.
  pose proof (queue_execution_ctor 3 1) as H0.
  advance H0 to H1 by (enqueue_count _ 0 10).
  advance H1 to H2 by (enqueue_claim _ 0 10).
  advance H2 to H3 by (enqueue_check _ 0 0 10 0).
  advance H3 to H4 by (enqueue_exchange _ 0 0 10 0).
  advance H4 to H5 by (enqueue_return _ 0 0).
  advance H5 to H6 by (enqueue_count _ 1 20).
  advance H6 to H7 by (dequeue_exchange _ 10).
  advance H7 to H8 by (dequeue_advance _ 10).
  advance H8 to H9 by (dequeue_count _ 10).
  eexists _, _, _. split; [exact H9|]. split; [by vm_compute|].
  split; [apply (enqueue_count _ 2 30); reflexivity|reflexivity].
Qed.

(** ** Examples *)

(** Two producers store out of order, a third call is refused, and one object is taken. *)
Lemma two_producers_example :
  ∃ log s, queue_execution 2 2 log s ∧ calls log = [10; 20; 30] ∧ claims log = [10; 20] ∧
    taken log = [10] ∧ q_producers s = [PIdle; PIdle] ∧ q_consumer s = CIdle.
Proof.
  pose proof (queue_execution_ctor 2 2) as H0.
  advance H0 to H1 by (enqueue_count _ 0 10).
  advance H1 to H2 by (enqueue_count _ 1 20).
  advance H2 to H3 by (enqueue_claim _ 0 10).
  advance H3 to H4 by (enqueue_claim _ 1 20).
  advance H4 to H5 by (enqueue_check _ 1 1 20 0).
  advance H5 to H6 by (enqueue_exchange _ 1 1 20 0).
  advance H6 to H7 by (enqueue_return _ 1 0).
  advance H7 to H8 by (dequeue_exchange _ 0).
  advance H8 to H9 by (enqueue_check _ 0 0 10 0).
  advance H9 to H10 by (enqueue_exchange _ 0 0 10 0).
  advance H10 to H11 by (enqueue_return _ 0 0).
  advance H11 to H12 by (enqueue_count _ 0 30).
  advance H12 to H13 by (enqueue_backoff _ 0).
  advance H13 to H14 by (dequeue_exchange _ 10).
  advance H14 to H15 by (dequeue_advance _ 10).
  advance H15 to H16 by (dequeue_count _ 10).
  eexists _, _. split; [exact H16|]. repeat split.
Qed.

Lemma MPSC_refines_witness :
  ∃ log s q, queue_execution 2 2 log s ∧ spec_queue_run 2 [] log = Some q ∧ q.*2 = [20].
Proof.
  destruct two_producers_example as (log&s&He&Hcalls&Hclaims&Htaken&_).
  destruct (MPSC_refines 2 2 log s) as (q&Hq&_&Hf); [done|done|by rewrite Hcalls| |].
  - rewrite Hcalls. by repeat constructor.
  - rewrite Hclaims, Htaken in Hf. injection Hf as Hf. by exists log, s, q.
Defined.

Lemma MPSC_quiescent_witness :
  ∃ log s s', queue_execution 2 2 log s ∧ MPSC_size s = 1 ∧ queue_step s [Took 20] s'.
Proof.
  destruct two_producers_example as (log&s&He&Hcalls&Hclaims&Htaken&Hp&Hc).
  destruct (MPSC_quiescent 2 2 log s) as (l&Hl&Hs&_&_&s'&Hstep);
    [done|done|by rewrite Hcalls| | |done|].
  - rewrite Hcalls. by repeat constructor.
  - rewrite Hp. by repeat constructor.
  - rewrite Hclaims, Htaken in Hl. injection Hl as <-. by exists log, s, s'.
Defined.
