(* ===== verification/Machine.v ===== *)
(** What the library promises, as an abstract machine: tasks with external events, outstanding
    low-level requests, notifications that have arrived, and waiters that miss some of theirs. *)

From S2P Require Import Prelude Types Contract.
Open Scope Z_scope.

(** ** The machine *)

(** A task waits for [w_missing] of the notifications [w_first, w_first + w_num) of a segment. *)
Record waiter := Waiter {
  w_segment : Z;
  w_first : Z;
  w_num : Z;
  w_missing : Z;
  w_task : Z;
}.

Definition in_range (w : waiter) (i : Z) : Prop := w_first w ≤ i < w_first w + w_num w.

Definition missing (n : Z) (w : waiter) : waiter :=
  Waiter (w_segment w) (w_first w) (w_num w) n (w_task w).

Record machine := Machine {
  m_events : Z → Z;
  m_requests : list Z;
  m_notif : Z → Z → Z;
  m_waiters : list waiter;
}.

Definition add_events (t n : Z) (m : machine) : machine :=
  Machine (λ t', m_events m t' + if decide (t' = t) then n else 0) (m_requests m) (m_notif m)
    (m_waiters m).
Definition with_requests (rq : list Z) (m : machine) : machine :=
  Machine (m_events m) rq (m_notif m) (m_waiters m).
Definition with_notif (n : Z → Z → Z) (m : machine) : machine :=
  Machine (m_events m) (m_requests m) n (m_waiters m).
Definition with_waiters (ws : list waiter) (m : machine) : machine :=
  Machine (m_events m) (m_requests m) (m_notif m) ws.

(** The notification is consumed. *)
Definition reset (s i : Z) (m : machine) : machine :=
  with_notif (λ s' i', if decide (s' = s ∧ i' = i) then 0 else m_notif m s' i') m.

Section machine.
Context `{GT : GaspiTypes}.

(** Requests and waiters are in no particular order, and nobody looks at the events of the tag
    that belongs to no task. *)
#[export] Instance machine_equiv : Equiv machine := λ m m',
  (∀ t, t ≠ GASPI_TAG_NULL → m_events m t = m_events m' t) ∧
  m_requests m ≡ₚ m_requests m' ∧
  (∀ s i, m_notif m s i = m_notif m' s i) ∧
  m_waiters m ≡ₚ m_waiters m'.

#[export] Instance machine_equivalence : Equivalence (≡@{machine}).
Proof.
  split.
  - intros m. done.
  - intros m m' (He&Hr&Hn&Hw). split_and!; [..|by symmetry]; intros; symmetry; auto.
  - intros m1 m2 m3 (He&Hr&Hn&Hw) (He'&Hr'&Hn'&Hw'). split_and!.
    + intros t Ht. by rewrite He, He'.
    + by rewrite Hr.
    + intros s i. by rewrite Hn.
    + by rewrite Hw.
Qed.

#[export] Instance m_requests_proper : Proper ((≡) ==> (≡ₚ)) m_requests.
Proof. by intros m m' (_&?&_). Qed.

#[export] Instance m_waiters_proper : Proper ((≡) ==> (≡ₚ)) m_waiters.
Proof. by intros m m' (_&_&_&?). Qed.

#[export] Instance m_notif_proper : Proper ((≡) ==> (=) ==> (=) ==> (=)) m_notif.
Proof. by intros m m' (_&_&?&_) s _ <- i _ <-. Qed.

#[export] Instance add_events_proper t n : Proper ((≡) ==> (≡)) (add_events t n).
Proof.
  intros m m' (He&Hr&Hn&Hw). split_and!; simpl; [|done..]. intros t' Ht. by rewrite He.
Qed.

#[export] Instance with_requests_proper : Proper ((≡ₚ) ==> (≡) ==> (≡)) with_requests.
Proof. intros rq rq' Hrq m m' (He&Hr&Hn&Hw). by split_and!. Qed.

#[export] Instance with_waiters_proper : Proper ((≡ₚ) ==> (≡) ==> (≡)) with_waiters.
Proof. intros ws ws' Hws m m' (He&Hr&Hn&Hw). by split_and!. Qed.

#[export] Instance with_notif_proper n : Proper ((≡) ==> (≡)) (with_notif n).
Proof. intros m m' (He&Hr&Hn&Hw). by split_and!. Qed.

#[export] Instance reset_proper s i : Proper ((≡) ==> (≡)) (reset s i).
Proof.
  intros m m' (He&Hr&Hn&Hw). split_and!; simpl; [done..| |done]. intros s' i'. by rewrite Hn.
Qed.

(** ** Steps *)

Inductive effect :=
  | e_post (t n : Z)                    (** requests of a task are posted *)
  | e_report (t : Z)                    (** GASPI reports a request *)
  | e_arrive (n : Z → Z → Z)            (** notifications arrive *)
  | e_take (s i : Z)                    (** a notification is consumed on the spot *)
  | e_wait (w : waiter)                 (** a task starts to wait *)
  | e_deliver (w : waiter) (i : Z)      (** a notification is counted for a waiter *)
  | e_complete (w : waiter).            (** a waiter misses nothing any more *)

(** The state after an effect, [rest] being the other requests or waiters. *)
Definition mstep (e : effect) (m m' : machine) : Prop :=
  match e with
  | e_post t n => valid_task t ∧ 0 < n ∧
      m' ≡ with_requests (replicate (Z.to_nat n) t ++ m_requests m) (add_events t n m)
  | e_report t => ∃ rest, m_requests m ≡ₚ t :: rest ∧
      m' ≡ with_requests rest (add_events t (-1) m)
  | e_arrive n => m' ≡ with_notif n m
  | e_take s i => m_notif m s i ≠ 0 ∧ m' ≡ reset s i m
  | e_wait w => valid_task (w_task w) ∧ 0 < w_missing w ≤ w_num w ∧
      m' ≡ with_waiters (w :: m_waiters m) (add_events (w_task w) 1 m)
  | e_deliver w i => ∃ rest, m_waiters m ≡ₚ w :: rest ∧ in_range w i ∧ 0 < w_missing w ∧
      m_notif m (w_segment w) i ≠ 0 ∧
      m' ≡ with_waiters (missing (w_missing w - 1) w :: rest) (reset (w_segment w) i m)
  | e_complete w => ∃ rest, m_waiters m ≡ₚ w :: rest ∧ w_missing w = 0 ∧
      m' ≡ with_waiters rest (add_events (w_task w) (-1) m)
  end.

#[export] Instance mstep_proper e : Proper ((≡) ==> (≡) ==> iff) (mstep e).
Proof.
  intros m1 m2 Hm m1' m2' Hm'. destruct e; cbn; setoid_rewrite Hm; setoid_rewrite Hm'; done.
Qed.

(** Effects in sequence. *)
Definition effects (es : list effect) (m m' : machine) : Prop :=
  ∃ m1, trace mstep es m m1 ∧ m1 ≡ m'.

Lemma effects_nil m m' : m ≡ m' → effects [] m m'.
Proof. exists m. by split; [constructor|]. Qed.

Lemma effects_cons e es m m1 m2 : mstep e m m1 → effects es m1 m2 → effects (e :: es) m m2.
Proof. intros He (m3&Ht&Hm). exists m3. by split; [econstructor|]. Qed.

Lemma effects_one e m m' : mstep e m m' → effects [e] m m'.
Proof. intros He. eapply effects_cons; [exact He|by apply effects_nil]. Qed.

#[export] Instance effects_proper es : Proper ((≡) ==> (≡) ==> iff) (effects es).
Proof.
  assert (∀ m1 m2 m1' m2', m1 ≡ m2 → m1' ≡ m2' → effects es m1 m1' → effects es m2 m2') as H.
  { intros m1 m2 m1' m2' Hm Hm' (m3&Ht&H3). revert m2 Hm. rewrite Hm' in H3.
    induction Ht as [m|e es m1 m4 m5 He _ IH]; intros m2 Hm.
    - apply effects_nil. by rewrite <- Hm.
    - eapply effects_cons; [by rewrite <- Hm|]. by apply IH. }
  intros m1 m2 Hm m1' m2' Hm'. split; apply H; done.
Qed.

Lemma effects_app es1 es2 m m1 m2 :
  effects es1 m m1 → effects es2 m1 m2 → effects (es1 ++ es2) m m2.
Proof.
  intros (m3&Ht&Hm) H2. rewrite <- Hm in H2. destruct H2 as (m4&Ht2&Hm2). exists m4.
  split; [by eapply trace_app|done].
Qed.

(** ** What the functions of the library do *)

Variant action :=
  | act_submit (n : Z)                (** an operation of [n] low-level requests *)
  | act_wait (s f n : Z)              (** a wait for the notifications [f, f + n) *)
  | act_poll_requests
  | act_poll_notifications
  | act_network.

#[export] Instance action_eq_dec : EqDecision action.
Proof. solve_decision. Defined.

(** No waiter is complete, and none has an arrived notification. *)
Definition settled (m : machine) : Prop :=
  ∀ w, w ∈ m_waiters m →
    0 < w_missing w ∧ ∀ i, in_range w i → m_notif m (w_segment w) i = 0.

(** The effects of the polling of notifications. *)
Definition for_waiters (e : effect) : Prop :=
  match e with e_deliver _ _ | e_complete _ => True | _ => False end.

Definition does (a : action) (m m' : machine) : Prop :=
  match a with
  | act_submit n => m' ≡ m ∨ ∃ t, mstep (e_post t n) m m'
  | act_wait s f n => ∃ C m1,
      Forall (λ i, f ≤ i < f + n) C ∧ effects (e_take s <$> C) m m1 ∧
      if decide (Z.of_nat (length C) = n) then m' ≡ m1
      else (∀ i, f ≤ i < f + n → m_notif m1 s i = 0) ∧
        ∃ t, mstep (e_wait (Waiter s f n (n - Z.of_nat (length C)) t)) m1 m'
  | act_poll_requests => ∃ l, effects (e_report <$> l) m m'
  | act_poll_notifications =>
      ∃ es, Forall for_waiters es ∧ effects es m m' ∧ settled m'
  | act_network => ∃ n, mstep (e_arrive n) m m'
  end.

(** ** Accounting *)

(** Beyond [base], a task has an event for each of its requests and for each of its waiters. *)
Definition accounts_for (base : Z → Z) (m : machine) : Prop :=
  ∀ t, t ≠ GASPI_TAG_NULL →
    m_events m t = base t + count t (m_requests m) + count t (w_task <$> m_waiters m).

#[export] Instance accounts_for_proper base : Proper ((≡) ==> iff) (accounts_for base).
Proof.
  intros m m' Hm. pose proof Hm as (He&Hr&_&Hw). unfold accounts_for.
  setoid_rewrite Hr. setoid_rewrite Hw.
  split; intros H t Ht; [rewrite <- He by done|rewrite He by done]; auto.
Qed.

Lemma mstep_accounts base e m m' : mstep e m m' → accounts_for base m → accounts_for base m'.
Proof.
  intros He Hm. destruct e; cbn in He.
  - destruct He as (_&Hn&->). intros t' Ht'. specialize (Hm t' Ht'). cbn.
    rewrite count_app, count_replicate. repeat case_decide; subst; try done; lia.
  - destruct He as (rest&Hr&->). intros t' Ht'. specialize (Hm t' Ht'). cbn.
    rewrite Hr, count_cons in Hm. repeat case_decide; subst; try done; lia.
  - by rewrite He.
  - destruct He as [_ ->]. done.
  - destruct He as (_&_&->). intros t' Ht'. specialize (Hm t' Ht'). cbn.
    rewrite count_cons. repeat case_decide; subst; try done; lia.
  - destruct He as (rest&Hw&_&_&_&->). intros t' Ht'. specialize (Hm t' Ht'). cbn.
    by rewrite Hw in Hm.
  - destruct He as (rest&Hw&_&->). intros t' Ht'. specialize (Hm t' Ht'). cbn.
    rewrite Hw in Hm. cbn in Hm. rewrite count_cons in Hm.
    repeat case_decide; subst; try done; lia.
Qed.

Lemma effects_accounts base es m m' : effects es m m' → accounts_for base m → accounts_for base m'.
Proof.
  intros (m1&Ht&Hm1). rewrite <- Hm1. clear Hm1. induction Ht; [done|].
  intros ?. eapply IHHt, mstep_accounts; done.
Qed.

Lemma does_accounts base a m m' : does a m m' → accounts_for base m → accounts_for base m'.
Proof.
  destruct a; cbn [does].
  - intros [->|[t Hs]]; [done|]. exact (mstep_accounts _ _ _ _ Hs).
  - intros (C&m1&_&Ht&Hw) Hm. apply (effects_accounts _ _ _ _ Ht) in Hm.
    case_decide; [by rewrite Hw|]. destruct Hw as (_&t&Hw). exact (mstep_accounts _ _ _ _ Hw Hm).
  - intros [l Hl]. exact (effects_accounts _ _ _ _ Hl).
  - intros (es&_&He&_). exact (effects_accounts _ _ _ _ He).
  - intros [n Hn]. exact (mstep_accounts _ _ _ _ Hn).
Qed.

(** ** Many effects at once *)

Lemma effects_report l m m' :
  m_requests m ≡ₚ l ++ m_requests m' →
  (∀ t, t ≠ GASPI_TAG_NULL → m_events m' t = m_events m t - count t l) →
  (∀ s i, m_notif m' s i = m_notif m s i) → m_waiters m' ≡ₚ m_waiters m →
  effects (e_report <$> l) m m'.
Proof.
  revert m. induction l as [|t l IH]; intros m Hr He Hn Hw.
  - apply effects_nil. split_and!; [|done|done|by symmetry].
    intros t Ht. rewrite He, count_nil by done. lia.
  - eapply effects_cons; [by exists (l ++ m_requests m')|]. apply IH; simpl; [done| |done|done].
    intros t' Ht'. rewrite He, count_cons by done. repeat case_decide; subst; try done; lia.
Qed.

Lemma effects_take s C m m' :
  NoDup C → (∀ i, i ∈ C → m_notif m s i ≠ 0) →
  (∀ s' i, m_notif m' s' i = if decide (s' = s ∧ i ∈ C) then 0 else m_notif m s' i) →
  (∀ t, m_events m' t = m_events m t) → m_requests m' ≡ₚ m_requests m →
  m_waiters m' ≡ₚ m_waiters m → effects (e_take s <$> C) m m'.
Proof.
  intros Hnd Ha Hn He Hr Hw. revert m Ha Hn He Hr Hw.
  induction Hnd as [|i C Hi _ IH]; intros m Ha Hn He Hr Hw.
  - apply effects_nil. split_and!; [done|by symmetry| |by symmetry].
    intros s' i. rewrite Hn, decide_False; [done|]. by intros [_ ?%elem_of_nil].
  - eapply effects_cons; [by split; [apply Ha; left|]|]. apply IH; simpl; [| |done..].
    + intros j Hj. rewrite decide_False by naive_solver. apply Ha. by right.
    + intros s' j. rewrite Hn. repeat case_decide; rewrite ?elem_of_cons in *; naive_solver.
Qed.

Lemma effects_complete ws m m' :
  m_waiters m ≡ₚ ws ++ m_waiters m' → Forall (λ w, w_missing w = 0) ws →
  (∀ t, t ≠ GASPI_TAG_NULL → m_events m' t = m_events m t - count t (w_task <$> ws)) →
  (∀ s i, m_notif m' s i = m_notif m s i) → m_requests m' ≡ₚ m_requests m →
  effects (e_complete <$> ws) m m'.
Proof.
  intros Hw Hz. revert m Hw. induction Hz as [|w ws Hz _ IH]; intros m Hw He Hn Hr.
  - apply effects_nil. split_and!; [|by symmetry|done|done].
    intros t Ht. rewrite He, fmap_nil, count_nil by done. lia.
  - eapply effects_cons; [by exists (ws ++ m_waiters m')|]. apply IH; simpl; [done| |done|done].
    intros t' Ht'. rewrite He, fmap_cons, count_cons by done.
    repeat case_decide; subst; try done; lia.
Qed.

(** Notifications that are counted for waiters, which [L] enumerates: [rem] is what each misses. *)
Lemma effects_deliver (W : Z → waiter) (L : list Z) C rem m m' :
  NoDup L → NoDup C.*2 →
  (∀ o s i, (o, (s, i)) ∈ C →
     o ∈ L ∧ s = w_segment (W o) ∧ in_range (W o) i ∧ m_notif m s i ≠ 0) →
  (∀ o, o ∈ L → count o C.*1 ≤ rem o) →
  m_waiters m ≡ₚ (λ o, missing (rem o) (W o)) <$> L →
  m_waiters m' ≡ₚ (λ o, missing (rem o - count o C.*1) (W o)) <$> L →
  (∀ s i, m_notif m' s i = if decide ((s, i) ∈ C.*2) then 0 else m_notif m s i) →
  (∀ t, m_events m' t = m_events m t) → m_requests m' ≡ₚ m_requests m →
  ∃ es, Forall for_waiters es ∧ effects es m m'.
Proof.
  intros HL. revert m rem. induction C as [|[o [s i]] C IH]; intros m rem Hnd HC Hle Hw Hw' Hn He Hr.
  { exists []. split; [constructor|]. apply effects_nil. split_and!; [done|by symmetry|done|].
    rewrite Hw, Hw'. apply reflexive_eq, list_fmap_ext. intros _ o _. f_equal.
    simpl. rewrite count_nil. lia. }
  apply NoDup_cons in Hnd as [Hsi Hnd].
  destruct (HC o s i) as (Ho&->&Hi&Ha); [left|].
  destruct (proj1 (elem_of_Permutation L o) Ho) as [L' HL'].
  rewrite HL' in HL. apply NoDup_cons in HL as HoL'. destruct HoL' as [HoL' _].
  set (rem' o' := if decide (o' = o) then rem o - 1 else rem o').
  assert (1 ≤ rem o) as Hrem.
  { specialize (Hle o Ho). cbn in Hle. rewrite count_cons, decide_True in Hle by done.
    pose proof (count_nonneg o C.*1). lia. }
  edestruct (IH (with_waiters ((λ o, missing (rem' o) (W o)) <$> L)
    (reset (w_segment (W o)) i m)) rem') as (es&Hes&Heff); try done.
  - intros o1 s1 i1 Hin. destruct (HC o1 s1 i1) as (Ho1&->&Hi1&Ha1); [by right|].
    split_and!; [done..|]. cbn. rewrite decide_False; [done|]. intros [Es ->]. apply Hsi.
    apply list_elem_of_fmap. rewrite <- Es.
    by exists (o1, (w_segment (W o1), i)).
  - intros o1 Ho1. specialize (Hle o1 Ho1). cbn in Hle. rewrite count_cons in Hle. unfold rem'.
    repeat case_decide; subst; try done; lia.
  - rewrite Hw'. apply reflexive_eq, list_fmap_ext. intros _ o1 _. f_equal. cbn.
    rewrite count_cons. unfold rem'. repeat case_decide; subst; try done; lia.
  - intros s' i'. rewrite Hn. cbn. repeat case_decide; rewrite ?elem_of_cons in *; naive_solver.
  - exists (e_deliver (missing (rem o) (W o)) i :: es). split; [by constructor|].
    eapply effects_cons; [|exact Heff]. exists ((λ o, missing (rem o) (W o)) <$> L').
    split_and!; [by rewrite Hw, HL'|done|cbn; lia|done|]. rewrite HL', fmap_cons.
    apply with_waiters_proper; [|done]. unfold rem' at 1. rewrite decide_True by done.
    f_equiv. apply reflexive_eq, list_fmap_ext. intros k o1 Hk. unfold rem'.
    rewrite decide_False; [done|]. intros ->. apply HoL'. by eapply list_elem_of_lookup_2.
Qed.
End machine.
