(* ===== verification/Refinement.v ===== *)
(** The library implements the abstract machine of Machine.v: every sequence of calls of the API,
    of polling functions and of arriving notifications does to the tasks what the machine does. *)

From S2P Require Import Prelude Types Interface Contract Sim Hoare TaskingModel Allocator WaitingRange WaitingRangeList WaitingRangeQueue Environment Operations NotifyAsyncWait Polling PollNotifications Initialization Threads System Machine.
Open Scope Z_scope.

Section refinement.
Context `{BC : BuildConfig} `{GT : GaspiTypes}.

(** ** What the library does, a call at a time *)

Variant lib_action :=
  | la_api (c : api_call)
  | la_poll (f : polling_function_t)
  | la_network.

#[export] Instance lib_action_eq_dec : EqDecision lib_action.
Proof. solve_decision. Defined.

(** The call, [lists] being those of the polling instance. *)
Definition lib_prog (lib : Library) (fuel : nat) (a : lib_action) (lists : list (list Z)) :
    prog (list (list Z)) :=
  match a with
  | la_api c => run_api lib fuel c tt;; Ret lists
  | la_poll f => r ← polling_function fuel lib f lists; Ret (r.2)
  | la_network => Ret lists
  end.

(** The lists and the outside world, before and after a call that returns; or notifications
    arrive. *)
Definition lib_step {W} `{!Runtime W} `{!RuntimeSpec W} (lib : Library) (fuel : nat)
    (a : lib_action) (s s' : list (list Z) * W) : Prop :=
  match a with
  | la_network => s'.1 = s.1 ∧ ∃ n, view_of s'.2 = set_notif n (view_of s.2)
  | _ => run (lib_prog lib fuel a s.1) s.2 = (inl s'.1, s'.2)
  end.

(** The action of the machine that it implements. *)
Definition promise (a : lib_action) : action :=
  match a with
  | la_api (api_operation o) => act_submit (op_requests o)
  | la_api (api_notify_async_wait s i _) => act_wait s i 1
  | la_api (api_notify_async_waitall s f n _) => act_wait s f n
  | la_poll (pollQueues_fn _) => act_poll_requests
  | la_poll pollNotifications_fn => act_poll_notifications
  | la_network => act_network
  end.

Definition action_valid (lib : Library) (a : lib_action) : Prop :=
  match a with
  | la_api c => api_valid lib c
  | la_poll (pollQueues_fn k) => ∃ info,
      _queuePollingInfos (l_polling lib) !! k = Some info ∧ info_valid lib info
  | _ => True
  end.

(** How the call ends if it does not return. GASPI or the tasking runtime fail; or a call that
    waits for notifications spins because the allocator has no free object; or the fuel is short
    for the requests that have been posted and the queues of the instance. *)
Definition fails (lib : Library) (fuel : nat) (a : lib_action) (v : view) : fault → Prop :=
  match a with
  | la_api (api_operation _) => λ f, f = alpi_fault
  | la_api _ => stops (v_pool v = [])
  | la_poll (pollQueues_fn k) => stops (∃ info, _queuePollingInfos (l_polling lib) !! k = Some info ∧
      (fuel ≤ length (v_outstanding v) + Z.to_nat (info_numQueues info))%nat)
  | la_poll pollNotifications_fn => λ f, f = Aborted ∨ f = alpi_fault
  | la_network => λ _, False
  end.

(** ** The state of the machine that a state of the library stands for *)

Definition range_waiter (r : WaitingRange) : waiter :=
  Waiter (_segment r) (_firstId r) (_numIds r) (_remaining r) (_task r).

Definition object_waiter (v : view) (o : Z) : waiter :=
  match v_objs v !! o with Some r => range_waiter r | None => Waiter 0 0 0 0 0 end.

Definition abs (lists : list (list Z)) (v : view) : machine :=
  Machine (events v) (v_outstanding v) (notif v) (object_waiter v <$> live lists v).

(** The library between two calls. *)
Record steady (lib : Library) (lists : list (list Z)) (v : view) : Prop := {
  st_live : live_ok lists v;
  st_tags : tags_ok (v_outstanding v);
  st_held : v_held v = [];
  st_capacity : v_spsc_capacity v = WR_QUEUE_CAPACITY;
  st_segments e : e ∈ v_spsc v → 0 ≤ e.1 < maxSegments (l_env lib);
  st_length : Z.of_nat (length lists) = maxSegments (l_env lib);
}.

(** The library was initialised, and the fuel is enough for the loop over the segments. *)
Record configured (lib : Library) (fuel : nat) : Prop := {
  cf_lib : lib_ok lib;
  cf_wrqueues : waitingRangeQueues (l_env lib) = true;
  cf_segments : maxSegments (l_env lib) < 2 ^ segment_id_bits;
  cf_queues : maxQueues (l_env lib) < 2 ^ queue_id_bits;
  cf_fuel : maxSegments (l_env lib) < Z.of_nat fuel;
}.

(** Initialisation leaves the library like that. *)
Lemma initialised_steady h lib v :
  initialised h lib v → 0 < h_segment_max h → tags_ok (v_outstanding v) →
  steady lib (replicate (Z.to_nat (h_segment_max h)) []) v.
Proof.
  intros Hin Hm Ht. destruct (in_empty _ _ _ Hin) as [Hq Hc].
  split; [apply Hin|done|apply Hin|done| |].
  - rewrite Hq. by intros e ?%elem_of_nil.
  - rewrite length_replicate, (in_segments _ _ _ Hin). lia.
Qed.

(** There is always room in the queues: they cannot hold more ranges than the allocator has. *)
Lemma steady_can_register lib lists v s : steady lib lists v → can_register s v.
Proof.
  intros [[Hw Hnd Hent _] _ Hh Hc _ _]. split; [done| |].
  { rewrite Hh. apply not_elem_of_nil. }
  rewrite Hc. assert (length (v_spsc v).*2 ≤ length (seqZ 0 NumEntries))%nat as Hl.
  { apply submseteq_length, NoDup_submseteq.
    - apply NoDup_app in Hnd as (_&_&Hnd). by apply NoDup_app in Hnd as (_&_&?).
    - intros o Ho. apply elem_of_seqZ. specialize (Hent o). unfold live in Hent.
      rewrite elem_of_app in Hent. specialize (Hent (or_intror Ho)). lia. }
  unfold spsc_contents. rewrite length_fmap.
  assert (length (filter (λ e : Z * Z, e.1 = s) (v_spsc v)) ≤ length (v_spsc v))%nat
    by apply length_filter.
  rewrite length_fmap, length_seqZ, NumEntries_eq in Hl. unfold WR_QUEUE_CAPACITY. lia.
Qed.

(** ** Every call keeps its promise *)

Section calls.
Context (lib : Library) (fuel : nat) (Hcf : configured lib fuel).

Lemma refine_operation lists v o :
  steady lib lists v → op_valid o →
  wp (run_operation lib o) v (post (λ f, f = alpi_fault) (λ _ v',
    steady lib lists v' ∧ does (act_submit (op_requests o)) (abs lists v) (abs lists v'))).
Proof.
  intros Hst Ho. pose proof (cf_lib _ _ Hcf) as Hlib.
  eapply wp_post_mono; [by apply wp_operation|done|].
  intros e v' (task&Ht&[_ He Hout Hfr]).
  assert (abs lists v' = Machine (events v') (v_outstanding v') (notif v)
    (object_waiter v <$> live lists v)) as Habs by (by rewrite Hfr).
  split.
  - destruct Hst as [[Hw Hnd Hent Hp] Htags Hh Hc Hseg Hlen].
    split; [|rewrite Hout|first [done|rewrite Hfr; done]..].
    + rewrite Hfr. split; [by destruct Hw|done..].
    + apply Forall_app. split; [|done]. case_decide; [|constructor].
      apply Forall_replicate. intros _. apply Ht.
  - rewrite Habs. destruct (decide (e = GASPI_SUCCESS)) as [->|Hne]; [right; exists task|left].
    + split; [done|]. split; [by apply op_requests_pos|]. split_and!; simpl; [|by rewrite Hout|done..].
      intros t _. rewrite He. repeat case_decide; naive_solver.
    + split_and!; simpl; [|by rewrite Hout|done..].
      intros t _. rewrite He, decide_False by naive_solver. lia.
Qed.

(** Notifications consumed by a call. *)
Lemma consume_abs lists s f vals C v :
  NoDup C → (∀ i, i ∈ C → notif v s i ≠ 0) → steady lib lists v →
  steady lib lists (consume s f vals C v) ∧
  effects (e_take s <$> C) (abs lists v) (abs lists (consume s f vals C v)).
Proof.
  intros Hnd Ha [[[] Hn Hent Hp] Htags Hh Hc Hseg Hlen]. split.
  - rewrite consume_frame. by split; [split; [by split|..]|..].
  - apply effects_take; simpl; [done|done|intros; apply notif_consume| | |];
      by rewrite consume_frame.
Qed.

Lemma object_waiter_insert v v' p r o :
  v_objs v' = <[p := r]> (v_objs v) → o ≠ p → object_waiter v' o = object_waiter v o.
Proof. intros Ho ?. unfold object_waiter. by rewrite Ho, lookup_insert_ne. Qed.

(** A range handed over by a call. *)
Lemma registered_steady lists s f n vals rem v v' :
  steady lib lists v → 0 ≤ s < maxSegments (l_env lib) → 0 ≤ f → 0 < rem ≤ n →
  f + n < 2 ^ number_bits → registered s f n vals rem v v' → steady lib lists v'.
Proof.
  intros [[[Hcap Hpnd Hfree Hobjs] Hnd Hent Hp] Htags Hh Hc Hseg Hlen] Hs Hf Hrem Hl
    (t&p&l&junk&Ht&Hpool&->). set (r := WaitingRange_ctor junk s f n vals rem t).
  rewrite Hpool in Hnd, Hfree, Hpnd. apply NoDup_cons in Hpnd as [_ Hpnd].
  assert (∀ o, o ∈ concat lists ++ (v_spsc v ++ [(s, p)]).*2 ↔ o ∈ live lists v ∨ o = p) as Hin.
  { intros o. unfold live. rewrite fmap_app, app_assoc, elem_of_app. simpl.
    by rewrite list_elem_of_singleton. }
  split; [split; [split|..]|..]; unfold live; cbn -[NumEntries]; try done.
  - intros q Hq. apply Hfree. by right.
  - intros q Hq. apply lookup_insert_is_Some'. right. by apply Hobjs.
  - revert Hnd. apply NoDup_Permutation_proper. unfold live. rewrite fmap_app. solve_Permutation.
  - intros o [?| ->]%Hin; [by apply Hent|]. apply Hfree. left.
  - intros o Ho%Hin. cbn. destruct (decide (o = p)) as [->|Hne].
    + exists r. rewrite lookup_insert_eq. by split; [|split].
    + rewrite lookup_insert_ne by done. apply Hp. naive_solver.
  - intros e [|Heq%list_elem_of_singleton]%elem_of_app; [by apply Hseg|]. by subst e.
Qed.

Lemma registered_waits lists s f n vals rem v v' :
  steady lib lists v → 0 < rem ≤ n → registered s f n vals rem v v' →
  ∃ t, mstep (e_wait (Waiter s f n rem t)) (abs lists v) (abs lists v').
Proof.
  intros [[_ Hnd _ _] _ _ _ _ _] Hrem (t&p&l&junk&Ht&Hpool&Hv').
  set (r := WaitingRange_ctor junk s f n vals rem t) in *. rewrite Hpool in Hnd.
  pose proof Hnd as [Hpl _]%NoDup_cons. rewrite elem_of_app in Hpl.
  exists t. split; [done|]. split; [done|]. split_and!; simpl.
  - intros t' _. rewrite Hv'. etrans; [exact (events_set v v t _ t')|].
    case_decide; subst; lia.
  - by rewrite Hv'.
  - intros s' i. by rewrite Hv'.
  - assert (v_objs v' = <[p := r]> (v_objs v)) as Ho by (by rewrite Hv').
    assert (live lists v' = live lists v ++ [p]) as ->.
    { rewrite Hv'. unfold live. simpl. by rewrite fmap_app, app_assoc. }
    rewrite fmap_app. simpl. rewrite (Permutation_app_comm _ [_]). simpl.
    unfold object_waiter at 1. rewrite Ho, lookup_insert_eq. f_equiv.
    apply reflexive_eq, list_fmap_ext. intros k o Hk%list_elem_of_lookup_2.
    apply (object_waiter_insert v v' p r); [done|]. naive_solver.
Qed.

Lemma refine_wait lists v s i vals :
  steady lib lists v → 0 ≤ s < maxSegments (l_env lib) → 0 ≤ i → i + 1 < 2 ^ number_bits →
  wp (tagaspi_notify_async_wait lib fuel s i vals) v (post (stops (v_pool v = [])) (λ _ v',
    steady lib lists v' ∧ does (act_wait s i 1) (abs lists v) (abs lists v'))).
Proof.
  intros Hst Hs Hi Hl. destruct Hcf as [Hlib Hwq _ _ Hfuel].
  eapply wp_post_mono; [apply wp_notify_async_wait; try done; [lia| |lia]|done|].
  { by eapply steady_can_register. }
  intros e v' [-> Hv']. case_decide as Hz.
  - destruct (registered_waits lists s i 1 vals 1 v v') as [t Hstep]; [done..|].
    split; [eapply registered_steady; [exact Hst|..|exact Hv']; lia|].
    exists [], (abs lists v). split_and!; [constructor|by apply effects_nil|]. rewrite decide_False by done. split; [|by exists t].
    intros j Hj. by replace j with i by lia.
  - subst v'. destruct (consume_abs lists s i vals [i] v) as [Hst' He]; [|set_solver|done|].
    { apply NoDup_singleton. }
    split; [done|]. exists [i], (abs lists (consume s i vals [i] v)).
    split_and!; [|done|by rewrite decide_True]. repeat constructor; lia.
Qed.

Lemma refine_waitall lists v s f n vals :
  steady lib lists v → 0 ≤ s < maxSegments (l_env lib) → 0 ≤ f → 0 ≤ n →
  f + n < 2 ^ number_bits →
  wp (tagaspi_notify_async_waitall lib fuel s f n vals) v (post (stops (v_pool v = [])) (λ _ v',
    steady lib lists v' ∧ does (act_wait s f n) (abs lists v) (abs lists v'))).
Proof.
  intros Hst Hs Hf Hn Hl. destruct Hcf as [Hlib Hwq _ _ Hfuel].
  destruct (decide (n = 0)) as [->|Hn0].
  { unfold tagaspi_notify_async_waitall. apply wp_assert_bind; [apply Hlib|]. wp_assert.
    split; [done|]. exists [], (abs lists v).
    split_and!; [constructor|by apply effects_nil|by rewrite decide_True]. }
  eapply wp_post_mono; [apply wp_notify_async_waitall; try done; [lia| |lia..]|done|].
  { by eapply steady_can_register. }
  intros e v' [-> (C&HC&Hv')]. pose proof HC as [Hnd Hrange Harr Hct Hrest].
  destruct (consume_abs lists s f vals C v) as [Hst1 He]; [done..|].
  assert (Forall (λ i, f ≤ i < f + n) C) as HCf by (by apply Forall_forall).
  case_decide as Hc.
  - subst v'. split; [done|]. exists C, (abs lists (consume s f vals C v)).
    split_and!; [done|done|by rewrite decide_True].
  - destruct (registered_waits lists s f n vals (n - Z.of_nat (length C)) _ v' Hst1)
      as [t Hstep]; [lia|done|].
    split; [eapply registered_steady; [exact Hst1|..|exact Hv']; lia|]. exists C, (abs lists (consume s f vals C v)).
    split_and!; [done|done|]. rewrite decide_False by done. split; [|by exists t].
    destruct Hrest as [|Hrest]; [done|]. exact Hrest.
Qed.

Lemma refine_api lists v c :
  steady lib lists v → api_valid lib c →
  wp (run_api lib fuel c tt) v (post (fails lib fuel (la_api c) v) (λ _ v',
    steady lib lists v' ∧ does (promise (la_api c)) (abs lists v) (abs lists v'))).
Proof.
  intros Hst Hc. unfold run_api. eapply wp_bind_post; [|intros e v' H; exact H].
  destruct c as [o|s i vals|s f n vals]; cbn [api_valid promise fails] in *.
  - by apply refine_operation.
  - destruct Hc as (?&?&?). by apply refine_wait.
  - destruct Hc as (?&?&?&?). by apply refine_waitall.
Qed.

Lemma refine_queues lists v k info :
  steady lib lists v → _queuePollingInfos (l_polling lib) !! k = Some info →
  info_valid lib info →
  wp (pollQueues fuel lib k) v (post (fails lib fuel (la_poll (pollQueues_fn k)) v) (λ _ v',
    steady lib lists v' ∧ does act_poll_requests (abs lists v) (abs lists v'))).
Proof.
  intros Hst Hk Hinfo. destruct Hcf as [Hlib _ _ Hq _].
  pose proof Hst as [[[] Hnd Hent Hp] Htags Hh Hc Hseg Hlen].
  eapply wp_post_mono; [by eapply wp_pollQueues; [apply Hlib|..]| |].
  { intros f. apply stops_mono. intros ?. by exists info. }
  intros p v' (_&l&[Ho He Hf]). split.
  - unfold tags_ok in *. rewrite Ho, Forall_app in Htags. rewrite Hf.
    split; [split; [by split|done..]|apply Htags|done..].
  - exists l. apply effects_report; simpl; [done|done|by rewrite Hf|by rewrite Hf].
Qed.

(** The waiter of an object after some of its notifications were counted. *)
Lemma object_waiter_updated v v' o r nv rem :
  v_objs v !! o = Some r → v_objs v' !! o = Some (set_notifiedValue nv (set_remaining rem r)) →
  object_waiter v' o = missing (remaining v' o) (object_waiter v o).
Proof. intros Ho Ho'. unfold object_waiter, remaining. by rewrite Ho, Ho'. Qed.

Lemma object_waiter_same v o r :
  v_objs v !! o = Some r → missing (remaining v o) (object_waiter v o) = object_waiter v o.
Proof. intros Ho. unfold object_waiter, remaining. by rewrite Ho. Qed.

Lemma object_waiter_tasks n v l :
  w_task <$> ((λ o, missing (n o) (object_waiter v o)) <$> l) = range_tasks v l.
Proof.
  rewrite <- list_fmap_compose. apply list_fmap_ext. intros k o _. unfold compose, object_waiter.
  by destruct (v_objs v !! o).
Qed.

(** What the machine does when notifications are polled: it counts those that were consumed for
    the waiters, and then completes the waiters that miss nothing. *)
Lemma polled_effects lists lists' comp v v' :
  live_ok lists v → polled lists lists' comp v v' →
  ∃ es, Forall for_waiters es ∧ effects es (abs lists v) (abs lists' v').
Proof.
  intros [_ Hnd _ Hp] [Hl _ He _ Hrg (C&[[HndC Ha Hn] HC Hct]) (Hout&_)].
  apply NoDup_app in Hnd as (_&_&Hnd).
  set (m1 := Machine (events v) (v_outstanding v) (notif v')
    ((λ o, missing (remaining v' o) (object_waiter v o)) <$> live lists v)).
  assert (∃ es, Forall for_waiters es ∧ effects es (abs lists v) m1) as (es&Hes&H1).
  { apply (effects_deliver (object_waiter v) (live lists v) C (remaining v)); simpl; try done.
    - intros o s i Hin. destruct (HC _ _ _ Hin) as (Ho&r&Hr&->&Hi). unfold object_waiter.
      rewrite Hr. split_and!; [done..|]. apply Ha, list_elem_of_fmap. by exists (o, (_segment r, i)).
    - intros o Ho. destruct (Hp o Ho) as (r&Hr&_). destruct (Hrg o r Ho Hr) as (nv&rem&Hv&Hrem&_).
      specialize (Hct o Ho). unfold remaining in Hct at 2. rewrite Hv in Hct. simpl in Hct. lia.
    - apply reflexive_eq, list_fmap_ext. intros k o Ho%list_elem_of_lookup_2.
      destruct (Hp o Ho) as (r&Hr&_). symmetry. by eapply object_waiter_same.
    - apply reflexive_eq, list_fmap_ext. intros k o Ho%list_elem_of_lookup_2. f_equal.
      rewrite (Hct o Ho). lia. }
  set (ws := (λ o, missing (remaining v' o) (object_waiter v o)) <$> comp).
  exists (es ++ (e_complete <$> ws)). split.
  { apply Forall_app. split; [done|]. by apply Forall_fmap, Forall_true. }
  eapply effects_app; [exact H1|]. apply effects_complete; simpl; [| | |done|by rewrite Hout].
  - rewrite <- Hl, fmap_app, Permutation_app_comm. subst ws. f_equiv.
    apply reflexive_eq, list_fmap_ext. intros k o Ho%list_elem_of_lookup_2. symmetry.
    assert (o ∈ live lists v) as Hin by (rewrite <- Hl; apply elem_of_app; by left).
    destruct (Hp o Hin) as (r&Hr&_). destruct (Hrg o r Hin Hr) as (nv&rem&Hv&_).
    by eapply object_waiter_updated.
  - apply Forall_fmap, Forall_forall. intros o Ho. simpl.
    assert (o ∈ live lists v) as Hin by (rewrite <- Hl; apply elem_of_app; by right).
    destruct (Hp o Hin) as (r&Hr&_). destruct (Hrg o r Hin Hr) as (nv&rem&Hv&_&Hz).
    unfold remaining. rewrite Hv. by apply Hz.
  - intros t _. subst ws. by rewrite He, object_waiter_tasks.
Qed.

Lemma refine_notifications lists v :
  steady lib lists v →
  wp (pollNotifications fuel lib lists) v (post (λ f, f = Aborted ∨ f = alpi_fault) (λ x v',
    steady lib (x.2) v' ∧ does act_poll_notifications (abs lists v) (abs (x.2) v'))).
Proof.
  intros [Hok Htags Hh Hc Hseg Hlen]. destruct Hcf as [Hlib _ Hmax _ Hfuel].
  eapply wp_post_mono; [apply wp_pollNotifications; try done; lia|done|].
  intros [p lists'] v' (_&Hl&Hs&Hok'&Hq&comp&Hpd). cbn [fst snd] in *.
  assert (live lists' v' = concat lists') as Hlive.
  { unfold live. by rewrite Hs, app_nil_r. }
  destruct (polled_effects _ _ _ _ _ Hok Hpd) as (es&Hes&Heff).
  destruct (pl_frame _ _ _ _ _ Hpd) as (Ho&Hh'&_&Hc').
  split; [split|exists es; split_and!]; try done.
  - by rewrite Ho.
  - by rewrite Hh'.
  - by rewrite Hc'.
  - rewrite Hs. by intros e ?%elem_of_nil.
  - lia.
  - intros w (o&->&Hin)%list_elem_of_fmap. destruct (lk_pending _ _ Hok' o Hin) as (r&Hr&[]).
    unfold object_waiter. rewrite Hr. split; [simpl; lia|]. intros i Hi.
    apply (Hq o r); [by rewrite <- Hlive|done..].
Qed.

Lemma refine_prog lists v a :
  steady lib lists v → action_valid lib a → a ≠ la_network →
  wp (lib_prog lib fuel a lists) v (post (fails lib fuel a v) (λ lists' v',
    steady lib lists' v' ∧ does (promise a) (abs lists v) (abs lists' v'))).
Proof.
  intros Hst Ha Hn. destruct a as [c|[k|]|]; [| | |done]; cbn [lib_prog polling_function].
  - eapply wp_bind_post; [by apply refine_api|]. intros u v' H. exact H.
  - destruct Ha as (info&Hk&Hinfo). eapply wp_bind_post; [|intros r v' H; exact H].
    eapply wp_bind_post; [by eapply refine_queues|]. intros p v' H. exact H.
  - eapply wp_bind_post; [by apply refine_notifications|]. intros r v' H. exact H.
Qed.

Lemma refine_step {W} `{!Runtime W} `{!RuntimeSpec W} a (s s' : list (list Z) * W) :
  action_valid lib a → steady lib s.1 (view_of s.2) → lib_step lib fuel a s s' →
  steady lib s'.1 (view_of s'.2) ∧
  does (promise a) (abs s.1 (view_of s.2)) (abs s'.1 (view_of s'.2)).
Proof.
  destruct s as [lists w], s' as [lists' w']. cbn [fst snd]. intros Ha Hst Hs.
  destruct (decide (a = la_network)) as [->|Hn].
  - cbn in Hs. destruct Hs as [-> [n Hv]]. split.
    + rewrite Hv. destruct Hst as [[[] ???] ?????]. by split; [split; [split|..]|..].
    + eexists. split_and!; simpl; [by rewrite Hv..|].
      rewrite Hv. apply reflexive_eq, list_fmap_ext. done.
  - destruct (wp_run _ w _ (refine_prog lists _ a Hst Ha Hn)) as (r&w1&Hr&HQ).
    assert (run (lib_prog lib fuel a lists) w = (inl lists', w')) as Hrun by (by destruct a).
    rewrite Hrun in Hr. by injection Hr as <- <-.
Qed.
End calls.

(** C2. The library implements the abstract machine. In every sequence of calls of the API and of
    polling functions, with notifications arriving in between, each call does what the machine
    does: an operation gives the task one event for each of its requests, or none; a wait
    consumes the notifications that are there and, when some are missing, gives the task one
    event and a waiter; polling the queues takes an event for each request reported; polling the
    notifications counts those that are there for waiters that have them in their range,
    completes the waiters that miss nothing, taking one event for each, and leaves no waiter with
    a notification that is there. Wherever the sequence gets, the next call returns and again does
    what the machine does, or it fails as documented: an operation only when the tasking runtime
    fails, the other calls when GASPI or the tasking runtime do. There are two exceptions: a call
    that waits for notifications can spin for ever if the allocator has no free object, and
    [pollQueues] needs more fuel than there are requests posted plus queues of the instance. *)
Theorem library_refines {W} `{!Runtime W} `{!RuntimeSpec W} lib fuel actions lists lists' (w w' : W) :
  configured lib fuel → Forall (action_valid lib) actions → steady lib lists (view_of w) →
  trace (lib_step lib fuel) actions (lists, w) (lists', w') →
  trace (λ a, does (promise a)) actions (abs lists (view_of w)) (abs lists' (view_of w')) ∧
  ∀ a, action_valid lib a → ∃ r w'', run (lib_prog lib fuel a lists') w' = (r, w'') ∧
    post (fails lib fuel a (view_of w')) (λ lists'' v'', steady lib lists'' v'' ∧
      (a ≠ la_network → does (promise a) (abs lists' (view_of w')) (abs lists'' v'')))
      r (view_of w'').
Proof.
  intros Hcf Hok Hst Htr.
  destruct (trace_simulation (lib_step lib fuel) (λ a, does (promise a))
    (λ s m, steady lib s.1 (view_of s.2) ∧ m = abs s.1 (view_of s.2)) (action_valid lib))
    with (l := actions) (s1 := (lists, w)) (s2 := (lists', w')) (t1 := abs lists (view_of w))
    as (m&Hm&Hst'&->); [|done..|].
  - intros a s1 s2 t1 Ha [Hs1 ->] Hs. destruct (refine_step lib fuel Hcf a s1 s2 Ha Hs1 Hs).
    by eexists.
  - split; [done|]. intros a Ha. cbn [fst snd] in Hst'.
    destruct (decide (a = la_network)) as [->|Hn]; [by exists (inl lists'), w'|].
    apply (wp_run (lib_prog lib fuel a lists')).
    eapply wp_post_mono; [by apply refine_prog|done|]. by intros l v [? ?].
Qed.
End refinement.

(** ** Examples *)

Section refinement_examples.
#[local] Existing Instance sim_types.
#[local] Existing Instance debug_build.

(** The state after a call. *)
Definition sim_call (a : lib_action) (s : list (list Z) * Sim) : list (list Z) * Sim :=
  let r := run (lib_prog sim_lib 40 a s.1) s.2 in
  (match r.1 with inl lists => lists | inr _ => [] end, r.2).

Definition sim_returns (a : lib_action) (s : list (list Z) * Sim) : bool :=
  match (run (lib_prog sim_lib 40 a s.1) s.2).1 with inl _ => true | inr _ => false end.

Lemma sim_call_step a s :
  a ≠ la_network → sim_returns a s = true → lib_step sim_lib 40 a s (sim_call a s).
Proof.
  unfold sim_returns, sim_call. intros Ha Hr.
  assert (∀ r : result (list (list Z)) * Sim,
    (match r.1 with inl _ => true | inr _ => false end) = true →
    r = (inl (match r.1 with inl l => l | inr _ => [] end), r.2)) as H by by intros [[]].
  specialize (H _ Hr). by destruct a.
Qed.

(** The state after notifications arrived. *)
Definition sim_arrive n (s : list (list Z) * Sim) : list (list Z) * Sim :=
  (s.1, on_view (set_notif n) s.2).

Lemma sim_arrives n s : lib_step sim_lib 40 la_network s (sim_arrive n s).
Proof. split; [done|]. exists n. by destruct s as [lists []]. Qed.

(** A task waits for four notifications and writes; all four arrive; both are polled. *)
Definition sim_waits := sim_call (la_api (api_notify_async_waitall 1 2 4 None)) ([[]; []], sim_running).
Definition sim_writes := sim_call (la_api (api_operation sim_op)) sim_waits.
Definition sim_network :=
  sim_arrive {[ (1, 2) := 1; (1, 3) := 1; (1, 4) := 1; (1, 5) := 1 ]} sim_writes.
Definition sim_polls := sim_call (la_poll pollNotifications_fn) sim_network.
Definition sim_done := sim_call (la_poll (pollQueues_fn 0)) sim_polls.

Definition sim_actions : list lib_action :=
  [la_api (api_notify_async_waitall 1 2 4 None); la_api (api_operation sim_op); la_network;
   la_poll pollNotifications_fn; la_poll (pollQueues_fn 0)].

Example sim_actions_events :
  (λ s, v_events (sim_view s.2) !! 77) <$> [sim_waits; sim_writes; sim_polls; sim_done] =
  [Some 1; Some 4; Some 3; Some 0].
Proof. by vm_compute. Qed.

Lemma sim_configured : configured sim_lib 40.
Proof. split; [exact sim_lib_ok|done..]. Qed.

Lemma sim_steady : steady sim_lib [[]; []] (view_of sim_running).
Proof.
  refine (initialised_steady sim_host sim_lib _ sim_initialised _ _); [done|constructor].
Qed.

Lemma library_refines_witness :
  trace (λ a, does (promise a)) sim_actions (abs [[]; []] (view_of sim_running))
    (abs sim_done.1 (view_of sim_done.2)).
Proof.
  apply (library_refines sim_lib 40 sim_actions [[]; []] sim_done.1 sim_running sim_done.2
    sim_configured); [|exact sim_steady|].
  - assert (action_valid sim_lib (la_poll (pollQueues_fn 0))) by by exists (mkInfo 0 5 (Some 0)).
    assert (action_valid sim_lib (la_api (api_notify_async_waitall 1 2 4 None))) by by split_and!.
    by repeat (apply Forall_cons; split).
  - econstructor; [apply sim_call_step; [done|by vm_compute]|].
    econstructor; [apply sim_call_step; [done|by vm_compute]|].
    econstructor; [|econstructor; [apply (sim_call_step _ sim_network); [done|by vm_compute]|]].
    + exact (sim_arrives _ sim_writes).
    + rewrite <- (surjective_pairing sim_done). apply trace_one, sim_call_step; [done|by vm_compute].
Defined.
End refinement_examples.
