(* ===== verification/Signatures.v ===== *)
(** The interfaces as declarations: the prototypes of include/TAGASPI.h against the Fortran module
    (fortran/TAGASPI.f90), and the types of the symbols that the tasking model loads
    (common/TaskingModel.hpp) against the prototypes of common/ALPI.hpp. Neither the linker nor
    [dlsym] compares them. *)

From S2P Require Import Prelude Types Interface TaskingModel.
Open Scope Z_scope.

(** ** Declarations *)

(** The C types of the prototypes: [CNamed] is a type with a name, [CFunction] a function of one
    parameter. *)
Inductive ctype :=
  | CVoid
  | CChar
  | CUnsignedChar
  | CInt
  | CLong
  | CUInt64
  | CNamed (name : string)
  | CStruct (name : string)
  | CConst (t : ctype)
  | CPtr (t : ctype)
  | CFunction (ret param : ctype).

#[global] Instance ctype_eq_dec : EqDecision ctype.
Proof. solve_decision. Defined.

(** The parameters are what the callee receives: [const] at the top of a parameter is not part of
    the type of the function, and an array parameter is a pointer. *)
Record prototype := Prototype {
  p_name : string;
  p_ret : ctype;
  p_params : list (string * ctype);
}.

(** The type of the function, without the names. *)
Definition fun_type : Type := ctype * list ctype.
Definition prototype_type (p : prototype) : fun_type := (p_ret p, (p_params p).*2).

(** A dummy argument of a [bind(C)] interface: an integer of a kind, passed by value or by
    reference, or [type(c_ptr), value]. *)
Variant dummy :=
  | FInteger (kind : string) (value : bool)
  | FPointer.

Record interface := FInterface {
  i_name : string;
  i_res : string;
  i_args : list (string * dummy);
}.

(** ** common/ALPI.hpp *)

Definition alpi_error_string_proto : prototype :=
  Prototype "alpi_error_string" (CPtr (CConst CChar))
    [("error", CInt)].

Definition alpi_version_check_proto : prototype :=
  Prototype "alpi_version_check" CInt
    [("major", CInt); ("minor", CInt)].

Definition alpi_version_get_proto : prototype :=
  Prototype "alpi_version_get" CInt
    [("major", CPtr CInt); ("minor", CPtr CInt)].

Definition alpi_task_self_proto : prototype :=
  Prototype "alpi_task_self" CInt
    [("task", CPtr (CPtr (CStruct "alpi_task")))].

Definition alpi_task_block_proto : prototype :=
  Prototype "alpi_task_block" CInt
    [("task", CPtr (CStruct "alpi_task"))].

Definition alpi_task_unblock_proto : prototype :=
  Prototype "alpi_task_unblock" CInt
    [("task", CPtr (CStruct "alpi_task"))].

Definition alpi_task_waitfor_ns_proto : prototype :=
  Prototype "alpi_task_waitfor_ns" CInt
    [("target_ns", CUInt64); ("actual_ns", CPtr CUInt64)].

Definition alpi_task_events_increase_proto : prototype :=
  Prototype "alpi_task_events_increase" CInt
    [("task", CPtr (CStruct "alpi_task")); ("increment", CUInt64)].

Definition alpi_task_events_decrease_proto : prototype :=
  Prototype "alpi_task_events_decrease" CInt
    [("task", CPtr (CStruct "alpi_task")); ("decrement", CUInt64)].

Definition alpi_attr_create_proto : prototype :=
  Prototype "alpi_attr_create" CInt
    [("attr", CPtr (CPtr (CStruct "alpi_attr")))].

Definition alpi_attr_destroy_proto : prototype :=
  Prototype "alpi_attr_destroy" CInt
    [("attr", CPtr (CStruct "alpi_attr"))].

Definition alpi_attr_init_proto : prototype :=
  Prototype "alpi_attr_init" CInt
    [("attr", CPtr (CStruct "alpi_attr"))].

Definition alpi_attr_size_proto : prototype :=
  Prototype "alpi_attr_size" CInt
    [("attr_size", CPtr CUInt64)].

Definition alpi_task_spawn_proto : prototype :=
  Prototype "alpi_task_spawn" CInt
    [("body", CPtr (CFunction CVoid (CPtr CVoid))); ("body_args", CPtr CVoid);
     ("completion_callback", CPtr (CFunction CVoid (CPtr CVoid))); ("completion_args", CPtr CVoid);
     ("label", CPtr (CConst CChar)); ("attr", CPtr (CConst (CStruct "alpi_attr")))].

Definition alpi_cpu_count_proto : prototype :=
  Prototype "alpi_cpu_count" CInt
    [("count", CPtr CUInt64)].

Definition alpi_cpu_logical_id_proto : prototype :=
  Prototype "alpi_cpu_logical_id" CInt
    [("logical_id", CPtr CUInt64)].

Definition alpi_cpu_system_id_proto : prototype :=
  Prototype "alpi_cpu_system_id" CInt
    [("system_id", CPtr CUInt64)].

Definition ALPI_prototypes : list prototype := [
  alpi_error_string_proto; alpi_version_check_proto; alpi_version_get_proto;
  alpi_task_self_proto; alpi_task_block_proto; alpi_task_unblock_proto;
  alpi_task_waitfor_ns_proto; alpi_task_events_increase_proto; alpi_task_events_decrease_proto;
  alpi_attr_create_proto; alpi_attr_destroy_proto; alpi_attr_init_proto; alpi_attr_size_proto;
  alpi_task_spawn_proto; alpi_cpu_count_proto; alpi_cpu_logical_id_proto; alpi_cpu_system_id_proto
].

(** ** The symbols of common/TaskingModel.hpp *)

(** [SymbolDecl<Ret, Params...>::SymbolTy]. *)
Definition SymbolDecl (ret : ctype) (params : list ctype) : fun_type := (ret, params).

Definition alpi_error_string_t := SymbolDecl (CPtr (CConst CChar)) [CInt].
Definition alpi_version_check_t := SymbolDecl CInt [CInt; CInt].
Definition alpi_version_get_t := SymbolDecl CInt [CPtr CInt; CPtr CInt].
Definition alpi_task_self_t := SymbolDecl CInt [CPtr (CPtr (CStruct "alpi_task"))].
Definition alpi_task_events_increase_t := SymbolDecl CInt [CPtr (CStruct "alpi_task"); CUInt64].
Definition alpi_task_events_decrease_t := SymbolDecl CInt [CPtr (CStruct "alpi_task"); CUInt64].
Definition alpi_task_waitfor_ns_t := SymbolDecl CInt [CUInt64; CPtr CUInt64].
Definition alpi_task_spawn_t :=
  SymbolDecl CInt [CPtr (CFunction CVoid (CPtr CVoid)); CPtr CVoid;
    CPtr (CFunction CVoid (CPtr CVoid)); CPtr CVoid; CPtr (CConst CChar);
    CPtr (CConst (CStruct "alpi_attr"))].

(** The symbols of the class with the types they are cast to. *)
Definition typed_symbols (tm : TaskingModel) : list (Symbol * fun_type) := [
  (_alpi_error_string tm, alpi_error_string_t);
  (_alpi_version_check tm, alpi_version_check_t);
  (_alpi_version_get tm, alpi_version_get_t);
  (_alpi_task_self tm, alpi_task_self_t);
  (_alpi_task_events_increase tm, alpi_task_events_increase_t);
  (_alpi_task_events_decrease tm, alpi_task_events_decrease_t);
  (_alpi_task_waitfor_ns tm, alpi_task_waitfor_ns_t);
  (_alpi_task_spawn tm, alpi_task_spawn_t)
].

(** ** include/TAGASPI.h *)

Definition gaspi_queue_group_id_t : ctype := CUnsignedChar.

Definition queue_group_policies : list (string * Z) := [
  ("GASPI_QUEUE_GROUP_POLICY_DEFAULT", 0);
  ("GASPI_QUEUE_GROUP_POLICY_CPU_RR", 1)
].

Definition TAGASPI_h : list prototype := [
  Prototype "tagaspi_proc_init" (CNamed "gaspi_return_t")
    [("timeout_ms", CNamed "gaspi_timeout_t")];
  Prototype "tagaspi_proc_term" (CNamed "gaspi_return_t")
    [("timeout_ms", CNamed "gaspi_timeout_t")];
  Prototype "tagaspi_write" (CNamed "gaspi_return_t")
    [("segment_id_local", CNamed "gaspi_segment_id_t"); ("offset_local", CNamed "gaspi_offset_t");
     ("rank", CNamed "gaspi_rank_t"); ("segment_id_remote", CNamed "gaspi_segment_id_t");
     ("offset_remote", CNamed "gaspi_offset_t"); ("size", CNamed "gaspi_size_t");
     ("queue", CNamed "gaspi_queue_id_t")];
  Prototype "tagaspi_read" (CNamed "gaspi_return_t")
    [("segment_id_local", CNamed "gaspi_segment_id_t"); ("offset_local", CNamed "gaspi_offset_t");
     ("rank", CNamed "gaspi_rank_t"); ("segment_id_remote", CNamed "gaspi_segment_id_t");
     ("offset_remote", CNamed "gaspi_offset_t"); ("size", CNamed "gaspi_size_t");
     ("queue", CNamed "gaspi_queue_id_t")];
  Prototype "tagaspi_write_list" (CNamed "gaspi_return_t")
    [("num", CNamed "gaspi_number_t"); ("segment_id_local", CPtr (CNamed "gaspi_segment_id_t"));
     ("offset_local", CPtr (CNamed "gaspi_offset_t")); ("rank", CNamed "gaspi_rank_t");
     ("segment_id_remote", CPtr (CNamed "gaspi_segment_id_t"));
     ("offset_remote", CPtr (CNamed "gaspi_offset_t")); ("size", CPtr (CNamed "gaspi_size_t"));
     ("queue", CNamed "gaspi_queue_id_t")];
  Prototype "tagaspi_read_list" (CNamed "gaspi_return_t")
    [("num", CNamed "gaspi_number_t"); ("segment_id_local", CPtr (CNamed "gaspi_segment_id_t"));
     ("offset_local", CPtr (CNamed "gaspi_offset_t")); ("rank", CNamed "gaspi_rank_t");
     ("segment_id_remote", CPtr (CNamed "gaspi_segment_id_t"));
     ("offset_remote", CPtr (CNamed "gaspi_offset_t")); ("size", CPtr (CNamed "gaspi_size_t"));
     ("queue", CNamed "gaspi_queue_id_t")];
  Prototype "tagaspi_notify" (CNamed "gaspi_return_t")
    [("segment_id_remote", CNamed "gaspi_segment_id_t"); ("rank", CNamed "gaspi_rank_t");
     ("notification_id", CNamed "gaspi_notification_id_t");
     ("notification_value", CNamed "gaspi_notification_t"); ("queue", CNamed "gaspi_queue_id_t")];
  Prototype "tagaspi_write_notify" (CNamed "gaspi_return_t")
    [("segment_id_local", CNamed "gaspi_segment_id_t"); ("offset_local", CNamed "gaspi_offset_t");
     ("rank", CNamed "gaspi_rank_t"); ("segment_id_remote", CNamed "gaspi_segment_id_t");
     ("offset_remote", CNamed "gaspi_offset_t"); ("size", CNamed "gaspi_size_t");
     ("notification_id", CNamed "gaspi_notification_id_t");
     ("notification_value", CNamed "gaspi_notification_t"); ("queue", CNamed "gaspi_queue_id_t")];
  Prototype "tagaspi_write_list_notify" (CNamed "gaspi_return_t")
    [("num", CNamed "gaspi_number_t"); ("segment_id_local", CPtr (CNamed "gaspi_segment_id_t"));
     ("offset_local", CPtr (CNamed "gaspi_offset_t")); ("rank", CNamed "gaspi_rank_t");
     ("segment_id_remote", CPtr (CNamed "gaspi_segment_id_t"));
     ("offset_remote", CPtr (CNamed "gaspi_offset_t")); ("size", CPtr (CNamed "gaspi_size_t"));
     ("segment_id_notification", CNamed "gaspi_segment_id_t");
     ("notification_id", CNamed "gaspi_notification_id_t");
     ("notification_value", CNamed "gaspi_notification_t"); ("queue", CNamed "gaspi_queue_id_t")];
  Prototype "tagaspi_notify_async_wait" (CNamed "gaspi_return_t")
    [("segment_id_local", CNamed "gaspi_segment_id_t");
     ("notification_id", CNamed "gaspi_notification_id_t");
     ("old_notification_value", CPtr (CNamed "gaspi_notification_t"))];
  Prototype "tagaspi_notify_async_waitall" (CNamed "gaspi_return_t")
    [("segment_id_local", CNamed "gaspi_segment_id_t");
     ("notification_begin", CNamed "gaspi_notification_id_t"); ("num", CNamed "gaspi_number_t");
     ("old_notification_values", CPtr (CNamed "gaspi_notification_t"))];
  Prototype "tagaspi_queue_group_create" (CNamed "gaspi_return_t")
    [("queue_group", CNamed "gaspi_queue_group_id_t"); ("queue_begin", CNamed "gaspi_queue_id_t");
     ("queue_num", CNamed "gaspi_number_t"); ("policy", CNamed "gaspi_queue_group_policy_t")];
  Prototype "tagaspi_queue_group_delete" (CNamed "gaspi_return_t")
    [("queue_group", CNamed "gaspi_queue_group_id_t")];
  Prototype "tagaspi_queue_group_get_queue" (CNamed "gaspi_return_t")
    [("queue_group", CNamed "gaspi_queue_group_id_t"); ("queue", CPtr (CNamed "gaspi_queue_id_t"))];
  Prototype "tagaspi_queue_group_max" (CNamed "gaspi_return_t")
    [("queue_group_max", CPtr (CNamed "gaspi_number_t"))]
].

(** ** fortran/TAGASPI.f90 *)

(** The kinds that the module defines, by those of [ISO_C_BINDING]; the others are of the GASPI
    module. *)
Definition f90_kinds : list (string * string) := [
  ("gaspi_queue_group_policy_t", "c_long");
  ("gaspi_queue_group_id_t", "c_signed_char")
].

Definition f90_enumerators : list (string * Z) := [
  ("GASPI_QUEUE_GROUP_POLICY_DEFAULT", 0);
  ("GASPI_QUEUE_GROUP_POLICY_CPU_RR", 1)
].

Definition TAGASPI_f90 : list interface := [
  FInterface "tagaspi_proc_init" "gaspi_return_t"
    [("timeout_ms", FInteger "gaspi_timeout_t" true)];
  FInterface "tagaspi_proc_term" "gaspi_return_t"
    [("timeout_ms", FInteger "gaspi_timeout_t" true)];
  FInterface "tagaspi_write" "gaspi_return_t"
    [("segment_id_local", FInteger "gaspi_segment_id_t" true);
     ("offset_local", FInteger "gaspi_offset_t" true); ("rank", FInteger "gaspi_rank_t" true);
     ("segment_id_remote", FInteger "gaspi_segment_id_t" true);
     ("offset_remote", FInteger "gaspi_offset_t" true); ("size", FInteger "gaspi_size_t" true);
     ("queue", FInteger "gaspi_queue_id_t" true)];
  FInterface "tagaspi_read" "gaspi_return_t"
    [("segment_id_local", FInteger "gaspi_segment_id_t" true);
     ("offset_local", FInteger "gaspi_offset_t" true); ("rank", FInteger "gaspi_rank_t" true);
     ("segment_id_remote", FInteger "gaspi_segment_id_t" true);
     ("offset_remote", FInteger "gaspi_offset_t" true); ("size", FInteger "gaspi_size_t" true);
     ("queue", FInteger "gaspi_queue_id_t" true)];
  FInterface "tagaspi_write_list" "gaspi_return_t"
    [("num", FInteger "gaspi_number_t" true); ("segment_id_local", FPointer);
     ("offset_local", FPointer); ("rank", FInteger "gaspi_rank_t" true);
     ("segment_id_remote", FPointer); ("offset_remote", FPointer); ("size", FPointer);
     ("queue", FInteger "gaspi_queue_id_t" true)];
  FInterface "tagaspi_read_list" "gaspi_return_t"
    [("num", FInteger "gaspi_number_t" true); ("segment_id_local", FPointer);
     ("offset_local", FPointer); ("rank", FInteger "gaspi_rank_t" true);
     ("segment_id_remote", FPointer); ("offset_remote", FPointer); ("size", FPointer);
     ("queue", FInteger "gaspi_queue_id_t" true)];
  FInterface "tagaspi_notify" "gaspi_return_t"
    [("segment_id_remote", FInteger "gaspi_segment_id_t" true);
     ("rank", FInteger "gaspi_rank_t" true);
     ("notification_id", FInteger "gaspi_notification_id_t" true);
     ("notification_value", FInteger "gaspi_notification_t" true);
     ("queue", FInteger "gaspi_queue_id_t" true)];
  FInterface "tagaspi_write_notify" "gaspi_return_t"
    [("segment_id_local", FInteger "gaspi_segment_id_t" true);
     ("offset_local", FInteger "gaspi_offset_t" true); ("rank", FInteger "gaspi_rank_t" true);
     ("segment_id_remote", FInteger "gaspi_segment_id_t" true);
     ("offset_remote", FInteger "gaspi_offset_t" true); ("size", FInteger "gaspi_size_t" true);
     ("notification_id", FInteger "gaspi_notification_id_t" true);
     ("notification_value", FInteger "gaspi_notification_t" true);
     ("queue", FInteger "gaspi_queue_id_t" true)];
  FInterface "tagaspi_write_list_notify" "gaspi_return_t"
    [("num", FInteger "gaspi_number_t" true); ("segment_id_local", FPointer);
     ("offset_local", FPointer); ("rank", FInteger "gaspi_rank_t" true);
     ("segment_id_remote", FPointer); ("offset_remote", FPointer); ("size", FPointer);
     ("segment_id_notification", FInteger "gaspi_segment_id_t" true);
     ("notification_id", FInteger "gaspi_notification_id_t" true);
     ("notification_value", FInteger "gaspi_notification_t" true);
     ("queue", FInteger "gaspi_queue_id_t" true)];
  FInterface "tagaspi_notify_async_wait" "gaspi_return_t"
    [("segment_id_local", FInteger "gaspi_segment_id_t" true);
     ("notification_id", FInteger "gaspi_notification_id_t" true);
     ("old_notification_value", FPointer)];
  FInterface "tagaspi_notify_async_waitall" "gaspi_return_t"
    [("segment_id_local", FInteger "gaspi_segment_id_t" true);
     ("notification_begin", FInteger "gaspi_notification_id_t" true);
     ("num", FInteger "gaspi_number_t" true); ("old_notification_values", FPointer)];
  FInterface "tagaspi_queue_group_create" "gaspi_return_t"
    [("queue_group", FInteger "gaspi_queue_group_id_t" true);
     ("queue_begin", FInteger "gaspi_queue_id_t" true);
     ("queue_num", FInteger "gaspi_number_t" true);
     ("policy", FInteger "gaspi_queue_group_policy_t" true)];
  FInterface "tagaspi_queue_group_delete" "gaspi_return_t"
    [("queue_group", FInteger "gaspi_queue_group_id_t" true)];
  FInterface "tagaspi_queue_group_get_queue" "gaspi_return_t"
    [("queue_group", FInteger "gaspi_queue_group_id_t" true);
     ("queue", FInteger "gaspi_queue_id_t" false)];
  FInterface "tagaspi_queue_group_max" "gaspi_return_t"
    [("queue_group_max", FInteger "gaspi_number_t" false)]
].

(** ** Agreement *)

Fixpoint find_name {A} (name : A → string) (n : string) (l : list A) : option A :=
  match l with
  | [] => None
  | x :: l => if bool_decide (name x = n) then Some x else find_name name n l
  end.

(** The type that the C side gives a name: those of TAGASPI.h are defined there, the enumeration
    staying a type of its own, and those of GASPI.h are not. *)
Definition typedef (t : ctype) : ctype :=
  match t with
  | CNamed n => if bool_decide (n = "gaspi_queue_group_id_t") then gaspi_queue_group_id_t else t
  | _ => t
  end.

Definition kind_of (n : string) : string :=
  match find_name fst n f90_kinds with Some k => k.2 | None => n end.

Section agreement.
(** The size in bytes of the C types, and of the integers of a Fortran kind. *)
Context (sizeof : ctype → Z) (kind_size : string → Z).

Definition same_size (k : string) (t : ctype) : bool :=
  kind_size (kind_of k) =? sizeof (typedef t).

(** The caller passes the parameter the way the callee takes it. *)
Definition same_passing (d : dummy) (t : ctype) : bool :=
  match d, t with
  | FInteger _ true, CPtr _ => false
  | FInteger k true, t => same_size k t
  | FInteger k false, CPtr t => same_size k t
  | FPointer, CPtr _ => true
  | _, _ => false
  end.

Fixpoint same_params (ds : list (string * dummy)) (ps : list (string * ctype)) : bool :=
  match ds, ps with
  | [], [] => true
  | (m, d) :: ds, (n, t) :: ps => bool_decide (m = n) && same_passing d t && same_params ds ps
  | _, _ => false
  end.

Definition agrees (p : prototype) : bool :=
  match find_name i_name (p_name p) TAGASPI_f90 with
  | Some i => same_size (i_res i) (p_ret p) && same_params (i_args i) (p_params p)
  | None => false
  end.

(** The types of GASPI.h, which the GASPI module defines as kinds. *)
Definition gaspi_types : list string := [
  "gaspi_return_t"; "gaspi_timeout_t"; "gaspi_number_t"; "gaspi_rank_t"; "gaspi_segment_id_t";
  "gaspi_offset_t"; "gaspi_size_t"; "gaspi_queue_id_t"; "gaspi_notification_id_t";
  "gaspi_notification_t"
].

(** The kinds of the GASPI module have the sizes of the types of GASPI.h, and those of
    [ISO_C_BINDING] the sizes of the C types they stand for. *)
Hypothesis gaspi_kinds : ∀ n, n ∈ gaspi_types → kind_size n = sizeof (CNamed n).
Hypothesis c_signed_char : kind_size "c_signed_char" = sizeof CUnsignedChar.
Hypothesis c_long : kind_size "c_long" = sizeof CLong.

(** C39. Every function of TAGASPI.h has an interface in the Fortran module with the same arguments, by
    name, in the same order and passed in the same way, and returning the same, but for the policy
    of [tagaspi_queue_group_create]: the module passes it as a [c_long], and TAGASPI.h takes an
    enumeration, which agree only where the enumeration is as long as a [long]. The module has no
    other functions, and its enumerators have the values of the header. *)
Theorem fortran_agrees :
  i_name <$> TAGASPI_f90 = p_name <$> TAGASPI_h ∧ f90_enumerators = queue_group_policies ∧
  (∀ p, p ∈ TAGASPI_h → agrees p =
    if bool_decide (p_name p = "tagaspi_queue_group_create")
    then sizeof CLong =? sizeof (CNamed "gaspi_queue_group_policy_t") else true).
Proof.
  split_and!; [done..|]. apply Forall_forall. repeat (apply Forall_cons; split); [..|done].
  all: cbv -[Z.eqb]; repeat match goal with
    | |- context [kind_size ?n] =>
        first [rewrite c_long | rewrite c_signed_char | rewrite (gaspi_kinds n) by compute_done]
    end; rewrite ?Z.eqb_refl; try done.
  by destruct (_ =? _).
Qed.
End agreement.

(** Every symbol of the tasking model is loaded under the name of a function of the ALPI interface
    and called with the type of its prototype. *)
Theorem symbols_have_prototypes s t :
  (s, t) ∈ typed_symbols TaskingModel_static →
  ∃ p, p ∈ ALPI_prototypes ∧ p_name p = sym_name s ∧ prototype_type p = t.
Proof.
  intros Hs. assert (Forall (λ x, ∃ p, p ∈ ALPI_prototypes ∧
    (p_name p, prototype_type p) = (sym_name x.1, x.2)) (typed_symbols TaskingModel_static)) as Hall.
  { repeat (apply Forall_cons; split); [..|by apply Forall_nil].
    all: apply Exists_exists; compute_done. }
  rewrite Forall_forall in Hall. destruct (Hall _ Hs) as (p&Hp&[= Hn Ht]). by exists p.
Qed.

(** ** Examples *)

(** The sizes of the LP64 data model, where an enumeration is as long as an [int], and those that
    GASPI gives its types there. *)
Definition lp64 (t : ctype) : Z :=
  match t with
  | CVoid | CChar | CUnsignedChar | CNamed "gaspi_segment_id_t" | CNamed "gaspi_queue_id_t" => 1
  | CNamed "gaspi_rank_t" | CNamed "gaspi_notification_id_t" => 2
  | CLong | CUInt64 | CPtr _ | CNamed "gaspi_offset_t" | CNamed "gaspi_size_t"
  | CNamed "gaspi_timeout_t" => 8
  | _ => 4
  end.

Definition lp64_kind (k : string) : Z :=
  match k with
  | "c_signed_char" => 1
  | "c_long" => 8
  | _ => lp64 (CNamed k)
  end.

Lemma fortran_agrees_witness :
  Forall (λ p, agrees lp64 lp64_kind p =
    negb (bool_decide (p_name p = "tagaspi_queue_group_create"))) TAGASPI_h.
Proof.
  apply Forall_forall. intros p Hp. destruct (fortran_agrees lp64 lp64_kind) as (_&_&H); [|done|done|].
  - apply Forall_forall. compute_done.
  - rewrite (H p Hp). by case_bool_decide.
Defined.

Lemma symbols_have_prototypes_witness :
  ∃ p, p ∈ ALPI_prototypes ∧ p_name p = "alpi_task_spawn" ∧ prototype_type p = alpi_task_spawn_t.
Proof.
  apply (symbols_have_prototypes (Symbol_ctor "alpi_task_spawn") alpi_task_spawn_t).
  do 7 right. by left.
Defined.
