(* ===== verification/Liveness.v ===== *)
(** Waiting ends: in an infinite execution of the library in which the polling functions keep
    running, GASPI keeps reporting requests and the notifications that a task waits for keep
    arriving, the events that the library gave to the task are all taken back. *)

From S2P Require Import Prelude Types Interface Contract Sim Hoare Environment Operations Polling Initialization Threads System Machine Refinement.
Open Scope Z_scope.

(** ** What a task still waits for *)

Section variant.
Context `{GT : GaspiTypes}.

(** The requests of the task, the notifications that its waiters miss, and the waiters. *)
Definition waiter_cost (t : Z) (w : waiter) : nat :=
  if decide (w_task w = t) then S (Z.to_nat (w_missing w)) else 0.
Definition waiting (t : Z) (m : machine) : nat := sum_list_with (waiter_cost t) (m_waiters m).
Definition requests (t : Z) (m : machine) : nat := Z.to_nat (count t (m_requests m)).
Definition variant (t : Z) (m : machine) : nat := requests t m + waiting t m.

#[export] Instance waiting_proper t : Proper ((≡) ==> (=)) (waiting t).
Proof. intros m m' (_&_&_&Hw). unfold waiting. by rewrite Hw. Qed.

#[export] Instance requests_proper t : Proper ((≡) ==> (=)) (requests t).
Proof. intros m m' (_&Hr&_). unfold requests. by rewrite Hr. Qed.

Lemma waiting_zero t m : waiting t m = 0%nat → count t (w_task <$> m_waiters m) = 0.
Proof.
  unfold waiting. intros Hz. apply count_none, Forall_forall. intros t' (w&->&Hw)%list_elem_of_fmap <-.
  pose proof (sum_list_with_in w (waiter_cost (w_task w)) _ Hw) as H. unfold waiter_cost in H at 1.
  rewrite decide_True in H by done. lia.
Qed.

(** A task that waits for nothing has the events it had before. *)
Lemma variant_zero_events base t m :
  t ≠ GASPI_TAG_NULL → accounts_for base m → variant t m = 0%nat → m_events m t = base t.
Proof.
  intros Ht Ha Hz. unfold variant in Hz. rewrite (Ha t Ht), (waiting_zero t m) by lia.
  unfold requests in Hz. pose proof (count_nonneg t (m_requests m)). lia.
Qed.

(** Nothing but a new wait makes a task wait for more. *)
Lemma mstep_waiting t e m m' :
  mstep e m m' → (∀ w, e = e_wait w → w_task w ≠ t) → (waiting t m' ≤ waiting t m)%nat.
Proof.
  intros He Hne. destruct e as [t' n|t'|n|s i|w|w i|w]; cbn in He.
  - by destruct He as (_&_&->).
  - by destruct He as (rest&_&->).
  - by rewrite He.
  - by destruct He as [_ ->].
  - destruct He as (_&_&->). unfold waiting. cbn. unfold waiter_cost at 1.
    by rewrite decide_False by by apply Hne.
  - destruct He as (rest&Hw&_&Hm&_&->). unfold waiting. rewrite Hw. cbn.
    unfold waiter_cost. cbn. case_decide; lia.
  - destruct He as (rest&Hw&_&->). unfold waiting. rewrite Hw. cbn. lia.
Qed.

Lemma mstep_requests t e m m' :
  mstep e m m' → (∀ n, e ≠ e_post t n) → (requests t m' ≤ requests t m)%nat.
Proof.
  intros He Hne. destruct e as [t' n|t'|n|s i|w|w i|w]; cbn in He.
  - destruct He as (_&_&->). unfold requests. cbn. rewrite count_app, count_replicate.
    case_decide; [|lia]. subst. by destruct (Hne n).
  - destruct He as (rest&Hr&->). unfold requests. rewrite Hr. cbn. rewrite count_cons.
    pose proof (count_nonneg t rest). case_decide; lia.
  - by rewrite He.
  - by destruct He as [_ ->].
  - by destruct He as (_&_&->).
  - by destruct He as (rest&_&_&_&_&->).
  - by destruct He as (rest&_&_&->).
Qed.

(** Effects in sequence, none of which makes the task wait for more. *)
Lemma effects_variant t es m m' :
  effects es m m' → Forall (λ e, ∀ n w, e ≠ e_post t n ∧ (e = e_wait w → w_task w ≠ t)) es →
  (waiting t m' ≤ waiting t m)%nat ∧ (requests t m' ≤ requests t m)%nat.
Proof.
  intros (m1&Htr&<-). induction Htr as [m|e es m m2 m3 He _ IH]; [done|].
  intros [Hne Hes]%Forall_cons. destruct (IH Hes).
  pose proof (mstep_waiting t _ _ _ He (λ w, proj2 (Hne 0 w))).
  pose proof (mstep_requests t _ _ _ He (λ n, proj1 (Hne n (Waiter 0 0 0 0 0)))). lia.
Qed.

(** Notifications consumed on the spot. *)
Lemma effects_taken s C m m' :
  effects (e_take s <$> C) m m' →
  (∀ t, t ≠ GASPI_TAG_NULL → m_events m' t = m_events m t) ∧
  m_requests m' ≡ₚ m_requests m ∧ m_waiters m' ≡ₚ m_waiters m ∧
  ∀ s' i, s' ≠ s ∨ i ∉ C → m_notif m' s' i = m_notif m s' i.
Proof.
  intros (m1&Htr&Hm). pose proof Hm as (He&Hr&Hn&Hw).
  enough ((∀ t, t ≠ GASPI_TAG_NULL → m_events m1 t = m_events m t) ∧
    m_requests m1 ≡ₚ m_requests m ∧ m_waiters m1 ≡ₚ m_waiters m ∧
    ∀ s' i, s' ≠ s ∨ i ∉ C → m_notif m1 s' i = m_notif m s' i) as (He1&Hr1&Hw1&Hn1).
  { split_and!; intros; [rewrite <- He by done; auto|by rewrite <- Hr|by rewrite <- Hw|].
    rewrite <- Hn. by apply Hn1. }
  clear Hm He Hr Hn Hw m'. revert m Htr. induction C as [|i C IH]; intros m Htr.
  - by inv Htr.
  - apply trace_cons_inv in Htr as (m2&[_ (He&Hr&Hn&Hw)]&Htr'). destruct (IH _ Htr') as (He'&Hr'&Hw'&Hn').
    split_and!; [intros; by rewrite He', He|by rewrite Hr', Hr|by rewrite Hw', Hw|].
    intros s' j Hj. rewrite Hn' by set_solver. rewrite Hn. cbn. rewrite decide_False; [done|].
    intros [-> ->]. set_solver.
Qed.

(** A task that is given no event does not wait for more. *)
Lemma does_variant t a m m' :
  t ≠ GASPI_TAG_NULL → does a m m' → m_events m' t ≤ m_events m t →
  (waiting t m' ≤ waiting t m)%nat ∧ (requests t m' ≤ requests t m)%nat.
Proof.
  intros Ht Ha Hev. destruct a as [n|s f n| | |]; cbn in Ha.
  - destruct Ha as [->|[t' Hs]]; [done|]. pose proof Hs as (_&Hn&He&_).
    apply (effects_variant t [e_post t' n]); [by apply effects_one|].
    repeat constructor; [|done]. intros [= -> _]. specialize (He t Ht). cbn in He.
    rewrite decide_True in He by done. lia.
  - destruct Ha as (C&m1&_&Htk&Hw). destruct (effects_taken _ _ _ _ Htk) as (He&Hr&Hwt&_).
    assert (waiting t m1 = waiting t m ∧ requests t m1 = requests t m) as [Ew Er].
    { unfold waiting, requests. by rewrite Hwt, Hr. }
    case_decide; [by rewrite Hw, Ew, Er|]. destruct Hw as (_&t'&Hw). pose proof Hw as (_&_&He'&_).
    rewrite <- Ew, <- Er.
    apply (effects_variant t [e_wait (Waiter s f n (n - Z.of_nat (length C)) t')]);
      [by apply effects_one|].
    repeat constructor; [done|]. intros [= <-]. cbn. intros ->. specialize (He' t Ht). cbn in He'.
    rewrite decide_True, He in He' by done. lia.
  - destruct Ha as [l Hl]. eapply effects_variant; [exact Hl|]. by apply Forall_fmap, Forall_true.
  - destruct Ha as (es&Hes&Heff&_). eapply effects_variant; [exact Heff|].
    eapply Forall_impl; [exact Hes|]. intros [] He n' w'; by destruct He.
  - destruct Ha as [n ->]. done.
Qed.

(** ** Polling takes a task forward *)

(** A notification has arrived that only waiters of the task have in their range. *)
Definition arrived_for (t s i : Z) (m : machine) : Prop :=
  (∃ w, w ∈ m_waiters m ∧ w_task w = t ∧ w_segment w = s ∧ in_range w i) ∧
  m_notif m s i ≠ 0 ∧
  ∀ w, w ∈ m_waiters m → w_segment w = s → in_range w i → w_task w = t.

Definition due (t : Z) (m : machine) : Prop := ∃ s i, arrived_for t s i m.

#[export] Instance arrived_for_proper t s i : Proper ((≡) ==> iff) (arrived_for t s i).
Proof.
  assert (∀ m m', m ≡ m' → arrived_for t s i m → arrived_for t s i m') as H.
  { intros m m' (_&_&Hn&Hw) (Hex&Ha&Hall). split; [|split].
    - by setoid_rewrite <- Hw.
    - by rewrite <- Hn.
    - by setoid_rewrite <- Hw. }
  intros m m' Hm. split; by apply H.
Qed.

#[export] Instance due_proper t : Proper ((≡) ==> iff) (due t).
Proof. intros m m' Hm. unfold due. by setoid_rewrite Hm. Qed.

(** Counting notifications and completing waiters either takes the task forward or leaves it with
    its notification. *)
Lemma mstep_arrived t s i e m m' :
  for_waiters e → mstep e m m' → arrived_for t s i m →
  (waiting t m' < waiting t m)%nat ∨ arrived_for t s i m'.
Proof.
  intros Hfw He Harr. destruct e as [| | | | |w j|w]; try done; cbn in He.
  - destruct He as (rest&Hw&Hj&Hm&_&->). destruct (decide (w_task w = t)) as [Ht|Ht].
    + left. unfold waiting. rewrite Hw. cbn. unfold waiter_cost at 1 3. cbn.
      rewrite !decide_True by done. lia.
    + right. destruct Harr as ((w0&Hw0&Ht0&Hs0&Hi0)&Ha&Hall).
      setoid_rewrite Hw in Hall. rewrite Hw in Hw0. split_and!; cbn.
      * exists w0. split; [|done]. apply elem_of_cons in Hw0 as [->|?]; [done|by right].
      * rewrite decide_False; [done|]. intros [-> ->]. apply Ht, Hall; [by left|done..].
      * intros w1 [->|Hw1]%elem_of_cons Hs1 Hi1; [|by apply Hall; [right|..]].
        by apply (Hall w); [left|..].
  - destruct He as (rest&Hw&Hz&->). destruct (decide (w_task w = t)) as [Ht|Ht].
    + left. unfold waiting. rewrite Hw. cbn. unfold waiter_cost at 2.
      rewrite decide_True by done. lia.
    + right. destruct Harr as ((w0&Hw0&Ht0&Hs0&Hi0)&Ha&Hall).
      setoid_rewrite Hw in Hall. rewrite Hw in Hw0. split_and!; cbn; [|done|].
      * exists w0. split; [|done]. apply elem_of_cons in Hw0 as [->|?]; [done|done].
      * intros w1 Hw1. by apply Hall; right.
Qed.

Lemma effects_arrived t s i es m m' :
  Forall for_waiters es → effects es m m' → arrived_for t s i m →
  (waiting t m' < waiting t m)%nat ∨ arrived_for t s i m'.
Proof.
  intros Hes (m1&Htr&<-). induction Htr as [m|e es m m2 m3 He Htr IH]; [by right|].
  apply Forall_cons in Hes as [He1 Hes]. intros Harr.
  assert (waiting t m3 ≤ waiting t m2)%nat.
  { eapply (effects_variant t es); [by exists m3|]. eapply Forall_impl; [exact Hes|].
    intros [] H n' w'; by destruct H. }
  destruct (mstep_arrived t s i e m m2) as [|Harr']; [done..|left; lia|].
  pose proof (mstep_waiting t _ _ _ He). destruct (IH Hes Harr') as [|]; [left|by right].
  assert (waiting t m2 ≤ waiting t m)%nat; [|lia]. apply H0. intros w ->. by destruct He1.
Qed.

Lemma poll_forward t m m' :
  due t m → does act_poll_notifications m m' → (waiting t m' < waiting t m)%nat.
Proof.
  intros (s&i&Harr) (es&Hes&Heff&Hset).
  destruct (effects_arrived t s i es m m' Hes Heff Harr) as [|((w&Hw&_&Hs&Hi)&Ha&_)]; [done|].
  destruct (Hset w Hw) as [_ Hno]. rewrite Hs in Hno. by destruct Ha; apply Hno.
Qed.

(** ** Other calls leave it its notifications *)

(** The call does not ask for notifications of the task's waiters, and no arrived notification
    disappears. *)
Definition leaves (t : Z) (a : action) (m m' : machine) : Prop :=
  match a with
  | act_wait s f n => ∀ w i, w ∈ m_waiters m → w_task w = t → w_segment w = s → in_range w i →
      ¬ (f ≤ i < f + n)
  | act_network => ∀ s i, m_notif m s i ≠ 0 → m_notif m' s i ≠ 0
  | _ => True
  end.

Lemma does_due t a m m' :
  a ≠ act_poll_notifications → does a m m' → leaves t a m m' → due t m → due t m'.
Proof.
  intros Hne Ha Hl (s&i&Harr). exists s, i. destruct a as [n|s' f n| | |]; [| | |done|]; cbn in Ha, Hl.
  - destruct Ha as [->|(t'&_&_&->)]; exact Harr.
  - destruct Ha as (C&m1&HC&Htk&Hw). destruct (effects_taken _ _ _ _ Htk) as (_&_&Hwt&Hn).
    destruct Harr as ((w&Hw0&Ht0&Hs0&Hi0)&Ha&Hall).
    assert (arrived_for t s i m1) as Harr1.
    { split_and!; [by exists w; rewrite Hwt| |by setoid_rewrite Hwt]. rewrite Hn; [done|].
      destruct (decide (s = s')) as [->|]; [right|by left]. intros HiC.
      rewrite Forall_forall in HC. by apply (Hl w i), HC. }
    case_decide; [by rewrite Hw|]. destruct Hw as (_&t'&_&_&->).
    destruct Harr1 as ((w1&Hw1&?&?&?)&?&Hall1). split_and!; cbn; [|done|].
    + exists w1. split; [by right|done].
    + intros w2 [->|Hw2]%elem_of_cons; [|by apply Hall1]. cbn. intros -> Hi2.
      destruct (Hl w i Hw0 Ht0 Hs0 Hi0). exact Hi2.
  - destruct Ha as [l (m1&Htr&Hm)]. rewrite <- Hm. clear Hm Hl Hne. revert m Htr Harr.
    induction l as [|t' l IH]; intros m Htr Harr; [by inv Htr|].
    apply trace_cons_inv in Htr as (m2&(rest&_&Hm2)&Htr). apply (IH m2 Htr). by rewrite Hm2.
  - destruct Ha as [n Hn]. destruct Harr as (Hex&Ha&Hall). pose proof (Hl s i Ha) as Ha'.
    rewrite Hn in Ha' |- *. by split_and!.
Qed.
End variant.

(** ** Fair executions *)

(** An infinite execution of the machine in which, from [n0] on, nothing gives the task another
    event: notifications are polled again and again, no other call asks for the notifications
    that the task waits for, none that has arrived disappears, as long as the task waits a
    notification for it arrives, and as long as it has requests GASPI reports one of them. *)
Record fair `{GaspiTypes} (t : Z) (n0 : nat) (α : nat → action) (σ : nat → machine) : Prop := {
  fr_quiet n : (n0 ≤ n)%nat → m_events (σ (S n)) t ≤ m_events (σ n) t;
  fr_polling : ∃∞ n, α n = act_poll_notifications;
  fr_leaves n : (n0 ≤ n)%nat → leaves t (α n) (σ n) (σ (S n));
  fr_network n : (n0 ≤ n)%nat → (0 < waiting t (σ n))%nat →
    ∃ k, (n ≤ k)%nat ∧ (waiting t (σ k) = 0%nat ∨ due t (σ k));
  fr_requests n : (n0 ≤ n)%nat → (0 < requests t (σ n))%nat →
    ∃ k, (n ≤ k)%nat ∧ (requests t (σ (S k)) < requests t (σ k))%nat;
}.

Section fair_machine.
Context `{GT : GaspiTypes} (t : Z) (n0 : nat) (α : nat → action) (σ : nat → machine).
Hypothesis Ht : t ≠ GASPI_TAG_NULL.
Hypothesis Hrun : ∀ n, does (α n) (σ n) (σ (S n)).
Hypothesis Hfair : fair t n0 α σ.

Lemma fair_mono n :
  (n0 ≤ n)%nat →
  (waiting t (σ (S n)) ≤ waiting t (σ n))%nat ∧ (requests t (σ (S n)) ≤ requests t (σ n))%nat.
Proof. intros Hn. eapply does_variant; [done|apply Hrun|by apply Hfair]. Qed.

(** From a state with a notification for the task, polling takes it forward. *)
Lemma fair_due d k :
  (n0 ≤ k)%nat → due t (σ k) → α (d + k)%nat = act_poll_notifications →
  ∃ j, (k ≤ j)%nat ∧ (waiting t (σ (S j)) < waiting t (σ j))%nat.
Proof.
  revert k. induction d as [|d IH]; intros k Hk Hdue Hpoll.
  - exists k. split; [done|]. apply poll_forward; [done|]. rewrite <- Hpoll. apply Hrun.
  - destruct (decide (α k = act_poll_notifications)) as [Hp|Hp].
    { exists k. split; [done|]. apply poll_forward; [done|]. rewrite <- Hp. apply Hrun. }
    destruct (IH (S k)) as (j&Hj&Hlt); [lia| |by rewrite <- Nat.add_succ_comm|].
    + eapply does_due; [exact Hp|apply Hrun|by apply Hfair|done].
    + exists j. split; [lia|done].
Qed.

Lemma fair_variant : ∀∞ n, variant t (σ n) = 0%nat.
Proof.
  apply (variant_zero (λ n, variant t (σ n)) n0); unfold variant.
  - intros n Hn. destruct (fair_mono n Hn). lia.
  - intros n Hn Hpos. destruct (decide (waiting t (σ n) = 0)%nat) as [Hz|Hz].
    + destruct (fr_requests _ _ _ _ Hfair n Hn) as (k&Hk&Hlt); [lia|]. exists k.
      destruct (fair_mono k); [lia|]. split; [done|lia].
    + destruct (fr_network _ _ _ _ Hfair n Hn) as (k&Hk&[Hwk|Hdue]); [lia|..].
      * assert (∃ j, (n ≤ j)%nat ∧ (waiting t (σ (S j)) < waiting t (σ j))%nat) as (j&Hj&Hlt).
        { induction Hk as [|k Hk IH]; [done|].
          destruct (decide (waiting t (σ k) = 0)%nat) as [E|E]; [by apply IH|].
          exists k. split; [done|lia]. }
        exists j. destruct (fair_mono j); [lia|]. split; [done|lia].
      * destruct (fr_polling _ _ _ _ Hfair k) as (p&Hp&Hpoll).
        destruct (fair_due (p - k) k) as (j&Hj&Hlt); [lia|done|by rewrite Nat.sub_add|].
        exists j. destruct (fair_mono j); [lia|]. split; lia.
Qed.

Lemma fair_events base : accounts_for base (σ 0%nat) → ∀∞ n, m_events (σ n) t = base t.
Proof.
  intros Hbase. assert (∀ n, accounts_for base (σ n)) as Hacc.
  { induction n as [|n IH]; [done|]. by eapply does_accounts. }
  destruct fair_variant as [n Hn]. exists n. intros k Hk.
  apply variant_zero_events; [done|apply Hacc|by apply Hn].
Qed.
End fair_machine.

(** ** Executions of the library *)

Section library.
Context `{BC : BuildConfig} `{GT : GaspiTypes} {W : Type} `{!Runtime W} `{!RuntimeSpec W}.

(** The state of the machine that a state of the library stands for. *)
Definition abs_of (s : list (list Z) * W) : machine := abs s.1 (view_of s.2).

(** C3. Every task completes: in an infinite execution of the library, call by call, that is fair to
    the task, from some point on it has no event but those that the library did not give it. *)
Theorem tasks_complete lib fuel (α : nat → lib_action) (σ : nat → list (list Z) * W) t n0 base :
  configured lib fuel → (∀ n, action_valid lib (α n)) → steady lib (σ 0%nat).1 (view_of (σ 0%nat).2) →
  (∀ n, lib_step lib fuel (α n) (σ n) (σ (S n))) →
  t ≠ GASPI_TAG_NULL → accounts_for base (abs_of (σ 0%nat)) →
  fair t n0 (promise ∘ α) (abs_of ∘ σ) →
  ∀∞ n, events (view_of (σ n).2) t = base t.
Proof.
  intros Hcf Hok Hst Hrun Ht Hbase Hfair.
  assert (∀ n, steady lib (σ n).1 (view_of (σ n).2)) as Hsteady.
  { induction n as [|n IH]; [done|]. by eapply (refine_step lib fuel Hcf (α n)). }
  eapply (fair_events t n0 (promise ∘ α) (abs_of ∘ σ)); [done| |done|done].
  intros n. by eapply (refine_step lib fuel Hcf (α n)).
Qed.
End library.

(** ** Examples *)

Section liveness_examples.
#[local] Existing Instance sim_types.
#[local] Existing Instance debug_build.

(** The execution of Refinement.v, in which task 77 waits and writes; its notifications arrive, both
    are polled, and from then on the notifications are polled forever. *)
Definition sim_forever_action (n : nat) : lib_action := nth n sim_actions (la_poll pollNotifications_fn).
Definition sim_forever (n : nat) : list (list Z) * Sim :=
  nth n [([[]; []], sim_running); sim_waits; sim_writes; sim_network; sim_polls] sim_done.

(** Polling the notifications when nobody waits changes nothing. *)
Lemma sim_idle_poll (s : Sim) :
  v_spsc (sim_view s) = [] →
  run (lib_prog sim_lib 40 (la_poll pollNotifications_fn) [[]; []]) s = (inl [[]; []], s).
Proof. destruct s as [[]]. simpl. intros ->. reflexivity. Qed.

Lemma sim_done_idle :
  sim_done.1 = [[]; []] ∧ v_spsc (sim_view sim_done.2) = [].
Proof. split; by vm_compute. Qed.

Lemma sim_forever_step n :
  lib_step sim_lib 40 (sim_forever_action n) (sim_forever n) (sim_forever (S n)).
Proof.
  assert (lib_step sim_lib 40 (la_poll pollNotifications_fn) sim_done sim_done) as H.
  { destruct sim_done_idle as [Hl Hs]. unfold lib_step. rewrite Hl. by apply sim_idle_poll. }
  unfold sim_forever_action, sim_forever, sim_actions. destruct n as [|[|[|[|[|n]]]]]; cbn [nth].
  - unfold sim_waits. apply sim_call_step; [done|by vm_compute].
  - unfold sim_writes. apply sim_call_step; [done|by vm_compute].
  - exact (sim_arrives _ sim_writes).
  - unfold sim_polls. apply sim_call_step; [done|by vm_compute].
  - unfold sim_done. apply sim_call_step; [done|by vm_compute].
  - destruct n as [|n]; exact H.
Qed.

Lemma sim_forever_valid n : action_valid sim_lib (sim_forever_action n).
Proof.
  assert (action_valid sim_lib (la_poll (pollQueues_fn 0))) by by exists (mkInfo 0 5 (Some 0)).
  assert (action_valid sim_lib (la_api (api_notify_async_waitall 1 2 4 None))) by by split_and!.
  do 5 (destruct n as [|n]; [done|]). by destruct n.
Qed.

(** The abstract states, by computation. *)
Lemma sim_variants :
  (waiting 77 (abs_of sim_polls) = 0 ∧ waiting 77 (abs_of sim_done) = 0 ∧
   requests 77 (abs_of sim_polls) = 3 ∧ requests 77 (abs_of sim_done) = 0)%nat.
Proof. split_and!; by vm_compute. Qed.

Lemma sim_events :
  m_events (abs_of sim_writes) 77 = 4 ∧ m_events (abs_of sim_network) 77 = 4 ∧
  m_events (abs_of sim_polls) 77 = 3 ∧ m_events (abs_of sim_done) 77 = 0.
Proof. split_and!; by vm_compute. Qed.

Lemma sim_due : due 77 (abs_of sim_network).
Proof.
  assert (m_waiters (abs_of sim_network) = [Waiter 1 2 4 4 77]) as Hw by by vm_compute.
  exists 1, 2. unfold arrived_for. rewrite Hw. split_and!.
  - exists (Waiter 1 2 4 4 77). split; [by left|]. split_and!; [done..|]. by split.
  - by vm_compute.
  - by intros w ->%list_elem_of_singleton.
Qed.

Lemma sim_no_notif s i : m_notif (abs_of sim_writes) s i = 0.
Proof.
  assert (v_notif (view_of sim_writes.2) = ∅) as Hn by by vm_compute.
  change (notif (view_of sim_writes.2) s i = 0). unfold notif. by rewrite Hn, lookup_empty.
Qed.

(** From the third state on. *)
Lemma sim_forever_cases (P : nat → Prop) :
  P 2%nat → P 3%nat → P 4%nat → (∀ n, P (5 + n)%nat) → ∀ n, (2 ≤ n)%nat → P n.
Proof. intros H2 H3 H4 H5 n Hn. destruct n as [|[|[|[|[|n]]]]]; [lia|lia|done..|apply H5]. Qed.

Lemma sim_forever_done n : sim_forever (5 + n) = sim_done.
Proof. by destruct n. Qed.

Lemma sim_forever_polls n : sim_forever_action (5 + n) = la_poll pollNotifications_fn.
Proof. by destruct n. Qed.

Lemma sim_quiet n :
  (2 ≤ n)%nat → m_events (abs_of (sim_forever (S n))) 77 ≤ m_events (abs_of (sim_forever n)) 77.
Proof.
  destruct sim_events as (He1&He2&He3&He4). revert n. apply sim_forever_cases.
  - change (m_events (abs_of sim_network) 77 ≤ m_events (abs_of sim_writes) 77). by rewrite He1, He2.
  - change (m_events (abs_of sim_polls) 77 ≤ m_events (abs_of sim_network) 77). by rewrite He2, He3.
  - change (m_events (abs_of sim_done) 77 ≤ m_events (abs_of sim_polls) 77). by rewrite He3, He4.
  - intros k. change (S (5 + k)) with (5 + S k)%nat. by rewrite !sim_forever_done.
Qed.

Lemma sim_leaves n :
  (2 ≤ n)%nat → leaves 77 (promise (sim_forever_action n)) (abs_of (sim_forever n))
    (abs_of (sim_forever (S n))).
Proof.
  revert n. apply sim_forever_cases; [|exact I|exact I|intros k; rewrite sim_forever_polls; exact I].
  intros s i Hs. by destruct Hs; apply sim_no_notif.
Qed.

Lemma sim_arrives_due n :
  (2 ≤ n)%nat → ∃ k, (n ≤ k)%nat ∧
    (waiting 77 (abs_of (sim_forever k)) = 0%nat ∨ due 77 (abs_of (sim_forever k))).
Proof.
  destruct sim_variants as (Hw3&Hw4&_). revert n. apply sim_forever_cases.
  - exists 3%nat. split; [lia|right; exact sim_due].
  - exists 3%nat. split; [lia|right; exact sim_due].
  - exists 4%nat. split; [lia|left; exact Hw3].
  - intros k. exists (5 + k)%nat. split; [lia|left]. by rewrite sim_forever_done.
Qed.

Lemma sim_reported n :
  (2 ≤ n)%nat → (0 < requests 77 (abs_of (sim_forever n)))%nat → ∃ k, (n ≤ k)%nat ∧
    (requests 77 (abs_of (sim_forever (S k))) < requests 77 (abs_of (sim_forever k)))%nat.
Proof.
  destruct sim_variants as (_&_&Hr3&Hr4).
  intros Hn Hpos. assert (n ≤ 4)%nat as H4.
  { destruct (decide (n ≤ 4)%nat) as [|H5]; [done|]. exfalso. revert Hpos.
    replace n with (5 + (n - 5))%nat by (clear - H5; lia).
    rewrite sim_forever_done, Hr4. apply Nat.lt_irrefl. }
  exists 4%nat. split; [exact H4|].
  change (requests 77 (abs_of sim_done) < requests 77 (abs_of sim_polls))%nat.
  rewrite Hr3, Hr4. apply Nat.lt_0_succ.
Qed.

Lemma sim_forever_fair : fair 77 2 (promise ∘ sim_forever_action) (abs_of ∘ sim_forever).
Proof.
  split.
  - exact sim_quiet.
  - intros n. exists (5 + n)%nat. split; [lia|]. unfold compose. by rewrite sim_forever_polls.
  - exact sim_leaves.
  - intros n Hn _. by apply sim_arrives_due.
  - exact sim_reported.
Qed.

Lemma tasks_complete_witness : ∀∞ n, events (view_of (sim_forever n).2) 77 = 0.
Proof.
  set (m := abs_of (sim_forever 0)).
  apply (tasks_complete sim_lib 40 sim_forever_action sim_forever 77 2
    (λ t, m_events m t - count t (m_requests m) - count t (w_task <$> m_waiters m))
    sim_configured sim_forever_valid sim_steady sim_forever_step ltac:(done)); [|exact sim_forever_fair].
  intros t _. fold m. lia.
Defined.
End liveness_examples.
