(* ===== verification/Lifecycle.v ===== *)
(** From a process that starts to the running library: what [tagaspi_proc_init] leaves is what the
    theorems about the running library start from. *)

From S2P Require Import Prelude Types Interface Contract Sim Hoare HardwareInfo QueueGroup TaskingModel Allocator Environment Operations Polling PollNotifications QueueGroups Initialization Threads System Machine Refinement.
Open Scope Z_scope.

Section lifecycle.
Context `{BC : BuildConfig} `{GT : GaspiTypes}.

(** A process that has not used the library: it holds no lock and no task has requests. *)
Record fresh_process (v : view) : Prop := {
  fp_host : host_good (v_host v);
  fp_queues : h_queue_max (v_host v) < 2 ^ queue_id_bits;
  fp_held : v_held v = [];
  fp_insts : v_insts v = ∅;
  fp_outstanding : Forall (λ t, t = GASPI_TAG_NULL) (v_outstanding v);
  fp_events t : 0 ≤ events v t;
}.

(** The library before its first call. *)
Record ready_library (fuel : nat) (v : view) (lib : Library) (v' : view) : Prop := {
  rl_configured : configured lib fuel;
  rl_steady : steady lib (replicate (Z.to_nat (h_segment_max (v_host v))) []) v';
  rl_accounts : accounts_for (events v) (abs (replicate (Z.to_nat (h_segment_max (v_host v))) []) v');
  rl_system calls : Forall (Forall (api_valid lib)) calls →
    ∃ a, system_start (v_host v) lib a calls v';
}.

Lemma wp_proc_init_ready fuel timeout v :
  NDEBUG = true → fresh_process v → (Z.to_nat (h_segment_max (v_host v)) < fuel)%nat →
  wp (tagaspi_proc_init Library_static timeout) v (post init_fault (λ x v',
    if decide (x.1 = GASPI_SUCCESS) then ready_library fuel v (x.2) v'
    else x.2 = Library_static ∧ v' = v)).
Proof.
  intros Hrel [Hh Hq Hheld Hins Hout Hev] Hfuel. unfold tagaspi_proc_init. wp_assert.
  wp_step as e v1 ->. destruct (decide (e = GASPI_SUCCESS)) as [He|He].
  - eapply wp_bind_post; [by apply wp_Environment_initialize|].
    intros lib v1 (Hi&Ho&He1&Hnew). cbn [fst snd]. unfold post. cbn [wp fst]. rewrite decide_True by done. cbn [snd].
    pose proof (hg_segments _ Hh) as [Hs0 Hs]. destruct (in_empty _ _ _ Hi) as [Hsp _].
    assert (∀ t, t ≠ GASPI_TAG_NULL → count t (v_outstanding v) = 0) as Hcount.
    { intros t Ht. apply count_none. eapply Forall_impl; [exact Hout|]. cbn. intros ? -> ?. by apply Ht. }
    split.
    + split; [apply Hi|apply Hi|by rewrite (in_segments _ _ _ Hi)|by rewrite (in_queues _ _ _ Hi)|].
      rewrite (in_segments _ _ _ Hi). lia.
    + apply (initialised_steady _ _ _ Hi); [done|]. rewrite Ho.
      eapply Forall_impl; [exact Hout|]. by intros ? ->.
    + intros t Ht. cbn [abs m_events m_requests m_waiters]. unfold live.
      rewrite Hsp, Ho, Hcount, app_nil_r by done.
      assert (concat (replicate (Z.to_nat (h_segment_max (v_host v))) ([] : list Z)) = []) as ->.
      { generalize (Z.to_nat (h_segment_max (v_host v))). by induction n. }
      cbn. unfold events. rewrite He1, count_nil. lia.
    + intros calls Hcalls. destruct (po_notifications _ _ _ _ (in_polling _ _ _ Hi)) as (a&Ha&_).
      exists a. split; [done|done|done| |by rewrite Ho| |done].
      * intros b p Hb. destruct (Hnew b p Hb) as [Hb'|?]; [|done]. by rewrite Hins in Hb'.
      * intros t. unfold events. rewrite He1. apply Hev.
  - cbn [wp]. unfold post. cbn [fst]. by rewrite decide_False.
Qed.

(** C13. A process starts with [tagaspi_proc_init]: it ends with one of the documented failures, or
    returns the error of GASPI and leaves everything as it was, or returns success and leaves the
    library as the running of its threads ([system_start]), the refinement of the abstract machine
    and the completion of tasks ([configured], [steady]) start from, each task having the events
    it had. *)
Theorem proc_init_ready {W} `{!Runtime W} `{!RuntimeSpec W} (w : W) fuel timeout :
  NDEBUG = true → fresh_process (view_of w) →
  (Z.to_nat (h_segment_max (v_host (view_of w))) < fuel)%nat →
  ∃ r w', run (tagaspi_proc_init Library_static timeout) w = (r, w') ∧
    post init_fault (λ x v',
      if decide (x.1 = GASPI_SUCCESS) then ready_library fuel (view_of w) (x.2) v'
      else x.2 = Library_static ∧ v' = view_of w) r (view_of w').
Proof. intros ???. by apply (wp_run (tagaspi_proc_init Library_static timeout)), wp_proc_init_ready. Qed.
End lifecycle.

(** ** Examples *)

Section lifecycle_examples.
#[local] Existing Instance sim_types.
#[local] Existing Instance release_build.

Lemma sim_fresh : fresh_process (view_of sim0).
Proof.
  split; [exact sim_host_good|done..|constructor|]. intros t. unfold events. cbn.
  by rewrite lookup_empty.
Qed.

Lemma proc_init_ready_witness :
  ∃ r w', run (tagaspi_proc_init Library_static GASPI_BLOCK) sim0 = (r, w') ∧
    post init_fault (λ x v', x.1 = GASPI_SUCCESS → ready_library 3 (view_of sim0) (x.2) v')
      r (view_of w').
Proof.
  destruct (proc_init_ready (BC := release_build) (GT := sim_types) sim0 3 GASPI_BLOCK)
    as (r&w'&Hr&HQ); [done|exact sim_fresh|by apply Nat.ltb_lt|].
  exists r, w'. split; [exact Hr|]. destruct r as [x|f]; [|exact HQ].
  intros Hs. unfold post in HQ. by rewrite decide_True in HQ.
Defined.
End lifecycle_examples.
